(* ===== verification/_CoqProject ===== *)
-Q . S2P
Prelude.v
Collections.v
Bytes.v
Models.v
Blockchain.v
Deltas.v
ReorgBuffer.v
ReorgBufferSpec.v
PendingDeltas.v
PendingDeltasSpec.v
DciCache.v
DciCacheSpec.v
BlockHistory.v
BlockHistorySpec.v
SafeMath.v
SafeMathSpec.v
Cpmm.v
CpmmSpec.v
TickMath.v
TickMathSpec.v
TickLog.v
TickInverse.v
TickList.v
TickListSpec.v
SwapMath.v
SwapMathSpec.v
Clmm.v
ClmmPools.v
ClmmSpec.v
ClmmPoolsSpec.v
Slipstreams.v
SlipstreamsSpec.v
Encoding.v
GroupSwaps.v
GroupSwapsSpec.v
SwapValidators.v
SwapValidatorsSpec.v
Encoders.v
EncodersSpec.v
RouterSpec.v
ClientRpc.v
ClientRpcSpec.v
ComponentTracker.v
ComponentTrackerSpec.v
Synchronizer.v
SynchronizerSpec.v
Feed.v
FeedSpec.v
Versioning.v
VersioningSpec.v
Gateway.v
GatewaySpec.v
AccountBalanceSpec.v
StateReads.v
Extractor.v
RevertFacts.v
RevertSpec.v
ExtractorSpec.v
WriteCache.v
WriteCacheSpec.v
ForkPools.v
ForkPoolsSpec.v
UniswapV4.v
UniswapV4Spec.v
