(* ===== verification/Prelude.v ===== *)
(** * Tycho: a verification development

    Tycho indexes on-chain liquidity.  The indexer turns the output of a chain's
    substreams into per-transaction changes, groups them by block, buffers the blocks that
    can still be reverted and writes the others to a database; the RPC service answers
    queries from the database brought up to date with the buffered blocks; the client
    follows the block stream of several extractors; the simulation crate computes swaps on
    the indexed pool states; the execution crate encodes swaps for the router
    contract.  This library models the parts of these crates that carry their own logic,
    definition by definition, and proves what makes them correct.

    ** Parts of the program and files of the library

    - [Prelude]: outcomes of Rust code ([result]: [Ok], [Err] or an unwinding panic),
      methods on [&mut self] ([stm]: outcome and state left behind, also after an early
      return), machine integers ([wrap], [checked]), generic lemmas and automation.
    - [Collections]: the [HashMap] and [HashSet] idioms of the source ([extend], [entry],
      [retain], loops over maps) and stable sorting.
    - [Bytes]: [tycho-common/src/hex_bytes.rs], byte strings and their integer conversions.
    - [Models]: [tycho-common/src/models/{mod,token,contract,protocol}.rs], accounts,
      components, their states and deltas.
    - [Blockchain]: [tycho-common/src/models/blockchain.rs], blocks, transactions with
      changes, their merging and aggregation, partial blocks.
    - [Deltas]: theorems on merging and applying deltas.
    - [ReorgBuffer], [ReorgBufferSpec]: [tycho-indexer/src/extractor/reorg_buffer.rs] and
      the lookups of [extractor/models.rs].
    - [PendingDeltas], [PendingDeltasSpec]: [tycho-indexer/src/services/deltas_buffer.rs],
      what the RPC service serves.
    - [DciCache], [DciCacheSpec]:
      [tycho-indexer/src/extractor/dynamic_contract_indexer/cache.rs], the versioned caches.
    - [BlockHistory], [BlockHistorySpec]: [tycho-client/src/feed/block_history.rs], the
      client's view of the chain.
    - [SafeMath], [SafeMathSpec]: [tycho-simulation/src/evm/protocol/safe_math.rs] and
      [utils/solidity_math.rs], checked arithmetic and integer square roots.
    - [Cpmm], [CpmmSpec]: [u256_num.rs], [cpmm/protocol.rs] and the Uniswap v2 and
      PancakeSwap v2 states of the same crate.
    - [TickMath], [TickMathSpec], [TickLog], [TickInverse]: [utils/uniswap/tick_math.rs],
      prices at ticks and ticks at prices.
    - [TickList], [TickListSpec]: [utils/uniswap/tick_list.rs], the ordered list of ticks and
      the search for the next one.
    - [SwapMath], [SwapMathSpec]: [utils/uniswap/{sqrt_price_math,swap_math,liquidity_math}.rs],
      one step of a swap.
    - [Clmm], [ClmmSpec]: the swap loop that the pools share ([uniswap_v3/state.rs]), with
      the gas costs of a pool as a record.
    - [ClmmPools], [ClmmPoolsSpec]: [clmm.rs] and the Uniswap v3, Velodrome Slipstreams and
      Ramses v3 states: quotes, limits, swaps to a price, updates from attributes.
    - [Slipstreams], [SlipstreamsSpec]: [utils/slipstreams/{observations,dynamic_fee_module}.rs]
      and [aerodrome_slipstreams/state.rs], the ring of observations and the dynamic fee.
    - [Encoding]: [tycho-execution/src/encoding/{models,errors}.rs], [evm/{constants,utils}.rs]
      and the native tokens of chains; swaps, solutions and byte helpers.
    - [GroupSwaps], [GroupSwapsSpec]: [evm/{group_swaps,gas_estimator}.rs], the division of
      swaps into groups and the gas estimate.
    - [SwapValidators], [SwapValidatorsSpec]:
      [evm/strategy_encoder/strategy_validators.rs], paths and split percentages.
    - [Encoders], [EncodersSpec], [RouterSpec]: the swap encoders of Uniswap v2 and v3,
      Slipstreams, Aerodrome v1, Balancer v3, Ring swap v2, Ekubo and native wrapping,
      [strategy_encoders.rs] and [tycho_encoders.rs], against the trait object [SwapEncoder.t], and the decoding of
      prefix-length data by the router.
    - [ClientRpc], [ClientRpcSpec]: [tycho-client/src/rpc.rs], the paginated requests over the
      single ones, snapshots, and the handler of [services/rpc.rs] that answers them, with its
      paging and the cache of [services/cache.rs].
    - [ComponentTracker], [ComponentTrackerSpec]: [feed/component_tracker.rs], which
      components and contracts a client follows.
    - [Synchronizer], [SynchronizerSpec]: [feed/synchronizer.rs], one extractor's stream:
      initialisation, background snapshots, and the messages it emits.
    - [Feed], [FeedSpec]: [feed/mod.rs], the streams of several extractors kept in step.
    - [Versioning], [VersioningSpec]: [tycho-storage/src/postgres/versioning.rs], the validity
      of the rows of plain and partitioned tables.
    - [Gateway], [GatewaySpec], [AccountBalanceSpec], [StateReads]:
      [postgres/{orm,protocol,contract}.rs], writing and reading protocol states, balances and
      slots, and the changes between two versions.
    - [Extractor], [RevertFacts], [RevertSpec], [ExtractorSpec]:
      [extractor/protocol_extractor.rs], messages, partial blocks, commits and reverts.
    - [WriteCache], [WriteCacheSpec]: [postgres/cache.rs], the batched writes, and
      [ExtractorPgGateway], the gateway of an extractor over them.
    - [ForkPools], [ForkPoolsSpec]: [ring_swap_v2/state.rs] and
      [aerodrome_v1/{state,solidly_stable}.rs], constant product pools with a backing and with
      a stable curve.
    - [UniswapV4], [UniswapV4Spec]: [uniswap_v4/state.rs], [uniswap_v4/hooks/{models,utils}.rs]
      and [utils/uniswap/lp_fee.rs]; the trait of the hooks is the class [HookHandler.t], the
      right shift of [I256] an argument.
    ** How the model follows the code

    A struct is a record [T.t] in a module [T], an enum an inductive type; a method is a
    definition of the same name.  Methods that can fail return [result]; methods that take
    [&mut self] are state transformers, so that a failed call leaves exactly the partial
    changes the code leaves.  [HashMap] is [gmap], [HashSet] is [gset]; a loop over a map
    runs over [map_to_list], and the lemmas of [Collections] show that the maps it leaves
    do not depend on the order.  [VecDeque] and [Vec] are lists.  [u64] and the wider
    integers of the simulation crate are [Z] in range; operators wrap, [checked_] methods
    test the range.  Traits that one component offers to another are classes:
    [BlockScoped], [StateUpdateBufferEntry] (with the laws [UpdateEntryLaws] the buffer
    needs), [ClmmPool], and [LruCache] and [PageCache] (with the laws [PageCacheLaws]), which
    stand for third-party caches with their documented behaviour as laws.  Of the third-party [alloy] crates the encoders use the operations of
    the class [Alloy], with the laws [AlloyLaws]; where the order of iterating a hash map can
    be observed by a search or a check, it is the class [HashOrder].  The requests of the
    client are the class [RPCClient]; the rows of a versioned table the classes
    [StoredVersionedRow] and [PartitionedVersionedRow] (with the laws [PartitionedLaws]); the
    database behind an extractor the class [ExtractorGateway.t], the tables behind the write
    cache [PostgresGateway.t]; what a stream of the feed receives is an [Inbox], the
    times at which it looks at the clock a [Clock].  [keccak256] and the hexadecimal title of
    an account are arguments of the definitions that use them.  [to_lowercase] treats the
    ASCII letters, which component ids consist of.

    ** What the theorems show

    - [Deltas]: applying two deltas equals applying their merge; a block aggregated to one
      message has the effect of its transactions in order; partial blocks merge in either
      argument order to the same block, and the merge aggregates.
    - [ReorgBufferSpec]: reachable buffers are connected chains; a revert undoes the
      insertions since; draining and ranges by height are exact; lookups return the newest
      write of every key.
    - [PendingDeltasSpec]: the served state has, key by key, the last write of the buffered
      messages or else the value of the database, so that it is independent of the moment a
      block is committed or leaves the buffer, the code hash of accounts excepted; a new message
      adds exactly its effects, a revert restores it.
    - [DciCacheSpec]: finalization is invisible to reads, reverts restore, the nine
      sub-caches move in lockstep and every operation on them is atomic.
    - [BlockHistorySpec]: the history is bounded and connected under any sequence of headers, up
      to partial headers of one height with different parents; construction is maximal; reverts drop exactly the abandoned branch.
    - [SafeMathSpec]: both square roots are the exact floor on their whole domain, with
      termination; double-width division is exact.
    - [CpmmSpec]: swaps follow the constant product rule with optimal rounding; swapping to
      a target price is exact; conversion to floats is within one unit in the last place.
    - [TickMathSpec], [TickInverse]: prices of ticks are strictly increasing, and the tick
      of a price is exact on the whole range.  The proof bounds the logarithm of a price from
      both sides by a linear function of the tick ([TickLog]).
    - [TickListSpec]: updates keep the list ordered and change one tick; the search for the
      next tick skips none and makes progress.
    - [SwapMathSpec]: a step never passes its target or takes more than the input, and its
      rounding is characterised.
    - [ClmmSpec], [ClmmPoolsSpec]: the swap loop and the walk for the limits end, never
      unwind, and keep tick and price in agreement; what a pool gives to the loop is the
      class [ClmmPool], against which quotes are proved once for all pools.
    - [SlipstreamsSpec]: the search over a ring in order ends and brackets the target, so
      that quotes complete; on a ring with gaps it does not end.
    - [GroupSwapsSpec]: grouping is the one division into maximal groups; the gas of a group
      and of a solution.
    - [SwapValidatorsSpec]: the breadth-first search decides reachability, and all
      errors are characterised; split percentages are accepted as the [f64] comparisons decide,
      in every iteration order of the maps.
    - [EncodersSpec], [RouterSpec]: what the router decodes is, entry by entry, what the swap
      encoders produced; the fields of swap data and their values; token positions; bridging of native and wrapped tokens; a connected
      solution is encoded; where the executor encoder differs from the router encoder.
    - [ClientRpcSpec]: client and server paging composed: requests for everything end, and are
      complete while the cached pages are current; a stale page makes them miss components;
      requests by ids get the first chunk only.
    - [ComponentTrackerSpec]: the contracts of tracked components are followed, except those
      of late traces; TVL decisions; the blocklist.
    - [SynchronizerSpec]: emitted background snapshots of components refine the fetched state
      plus all messages since, while block numbers do not decrease; one request per component; merging of messages; initialisation.
    - [FeedSpec]: ready streams are at the height of the common history; progress in lock
      step, with what every stream delivered in the message, and by catching up; when the feed ends.
    - [VersioningSpec], [GatewaySpec], [AccountBalanceSpec], [StateReads]: a versioned table is
      read as the histories written to it; storing deltas and reading the state applies them;
      deltas forward between versions are exact; which writes fail, and with which error.
    - [RevertSpec]: the message that answers an undo signal restores components and slots under
      conditions on the attributes the reverted and kept blocks change, against any database
      that answers reads from one state ([StoredView]), and the cases in which it does not.
    - [ExtractorSpec]: the blocks the database took, those of the commit task and those in the
      buffer are one chain, and what a failed commit leaves of it; blocks of one second get increasing times.
    - [WriteCacheSpec]: blocks reach the database in atomic batches, with the cursor of the
      last one; a failed write changes nothing.
    - [ForkPoolsSpec]: a Ring Swap pool refuses no amount up to its limit for its backing; swaps
      on the curves of Aerodrome never lower their invariants.
    - [UniswapV4Spec]: the loop of the v4 pool mirrors the shared one, by a simulation of the
      runs; quotes with any hook; packed deltas under a logical and an arithmetic shift; the
      search for limits.
    ** Fuel and bounds

    [newton] runs with [SQRT_FUEL] = 264 turns: the distance to the root at least halves in
    each turn and starts below [2 ^ 257].  [compute_karatsuba_sqrt] has depth at most four,
    [KARATSUBA_FUEL].  The theorems show that the fuel is never exhausted.
    [iterate n] runs a loop for up to [2 ^ n] turns.  The swap and limit loops have [2 ^ 21]
    turns, more than there are ticks, each of which they visit at most once.  The search over
    observations takes its budget as an argument; [2 ^ 16] turns are enough on a ring in
    order, whose cardinality is a [u16], and no budget is enough on some rings with gaps.
    The search of [validate_swap_path] has two turns more than there are swaps: a turn takes a
    token from the queue, and expanding a token puts at most one there per swap.
    [fetch_pages] has one turn more than there are pages: every turn asks for at least one
    page when the concurrency is not zero.  [init_loop] runs over the list of messages that
    arrive.
    [attempts] has three turns and [get_y_loop] 255, as in the code.  The search for the limits
    of a v4 pool has [2 ^ 7] turns to grow its bound tenfold up to [10 ^ 75] and [2 ^ 8] to
    halve the interval below it.

    ** What is not modelled

    Of the database layer ([tycho-storage]) the connections, the tables of components, tokens,
    accounts and code, and the cache of deltas; chain access ([tycho-ethereum]); the handlers of
    the RPC and websocket services other than the listing of components; the decoding of
    substreams messages, the memory cache of tokens and the runtime that feeds an extractor; the
    substreams packages under [protocols]; the EVM engine and the VM-based pools, RFQ pools, and
    the swap encoders that call remote services: they are I/O, generated code, or not modelled
    yet.  Of the client, HTTP and websocket transport, the retries of a synchronizer and the
    shutdown of tasks are not modelled.  Floating-point prices are not modelled.  SQL statements
    are modelled by what they do to lists of rows.  Locks are modelled by running the method on
    the state it guards; logging and metrics are omitted.

    ** What remains

    The remaining native pools, the other swap encoders, and the other handlers of the RPC
    service. *)

From stdpp Require Export prelude gmap strings list fin_maps sorting.
From Stdlib Require Export ZArith Lia.

(** * Outcomes of Rust code

    [Ok] and [Err] are Rust's [Result]; [Panic] is a call that unwinds
    ([unwrap] on [None], an index out of range, a division by zero). *)
Inductive result (E A : Type) : Type :=
| Ok (a : A)
| Err (e : E)
| Panic.

Arguments Ok {E A} a.
Arguments Err {E A} e.
Arguments Panic {E A}.

#[global] Instance result_ret {E} : MRet (result E) := fun _ a => Ok a.
#[global] Instance result_bind {E} : MBind (result E) := fun _ _ f r =>
  match r with Ok a => f a | Err e => Err e | Panic => Panic end.
#[global] Instance result_fmap {E} : FMap (result E) := fun _ _ f r =>
  match r with Ok a => Ok (f a) | Err e => Err e | Panic => Panic end.

#[global] Instance result_eq_dec {E A} `{EqDecision E, EqDecision A} : EqDecision (result E A).
Proof. solve_decision. Defined.

(** [Option::ok_or]. *)
Definition ok_or {E A} (o : option A) (e : E) : result E A :=
  match o with Some a => Ok a | None => Err e end.

(** [Option::unwrap]. *)
Definition unwrap {E A} (o : option A) : result E A :=
  match o with Some a => Ok a | None => Panic end.

(** [Result::map_err]. *)
Definition map_err {E F A} (f : E → F) (r : result E A) : result F A :=
  match r with Ok a => Ok a | Err e => Err (f e) | Panic => Panic end.

Definition is_ok {E A} (r : result E A) : bool :=
  match r with Ok _ => true | _ => false end.

(** * Methods on [&mut self]

    A method returns its outcome together with the receiver it leaves behind:
    after an early return by [?] the receiver keeps the changes made so far. *)
Definition stm (S E A : Type) : Type := S → result E A * S.

Definition st_ret {S E A} (a : A) : stm S E A := fun s => (Ok a, s).
Definition st_throw {S E A} (e : E) : stm S E A := fun s => (Err e, s).
Definition st_bind {S E A B} (m : stm S E A) (f : A → stm S E B) : stm S E B := fun s =>
  match m s with
  | (Ok a, s') => f a s'
  | (Err e, s') => (Err e, s')
  | (Panic, s') => (Panic, s')
  end.

(** Run a method of a field [get]/[set] of the receiver. *)
Definition on_field {S F E A} (get : S → F) (set : F → S → S) (m : stm F E A) : stm S E A :=
  fun s => let '(r, f') := m (get s) in (r, set f' s).

(** [?] with a [From] conversion of the error. *)
Definition st_map_err {S E F A} (f : E → F) (m : stm S E A) : stm S F A :=
  fun s => let '(r, s') := m s in (map_err f r, s').

(** [for s in l.iter_mut() { m(s)?; }] *)
Fixpoint for_each_mut {S E A} (m : stm S E A) (l : list S) : result E unit * list S :=
  match l with
  | [] => (Ok tt, [])
  | s :: l' =>
      match m s with
      | (Ok _, s') => let '(r, l'') := for_each_mut m l' in (r, s' :: l'')
      | (Err e, s') => (Err e, s' :: l')
      | (Panic, s') => (Panic, s' :: l')
      end
  end.

Lemma for_each_mut_ok {S E A} (m : stm S E A) (ok : S → A) (f : S → S) (l : list S) :
  (∀ s, s ∈ l → m s = (Ok (ok s), f s)) → for_each_mut m l = (Ok tt, f <$> l).
Proof.
  induction l as [|s l IH]; intros Hm; [done|]. simpl. rewrite Hm by left.
  rewrite IH; [done|]. intros; apply Hm; by right.
Qed.

Declare Scope tycho_scope.
Delimit Scope tycho_scope with tycho.
Notation "m1 ';?' m2" := (st_bind m1 (fun _ => m2))
  (at level 100, right associativity) : tycho_scope.

(** * Results of code that may loop

    [None]: the budget of a loop is used up. *)

Definition timed (E A : Type) : Type := option (result E A).

Definition t_bind {E A B} (m : timed E A) (f : A → timed E B) : timed E B :=
  match m with
  | Some (Ok a) => f a
  | Some (Err e) => Some (Err e)
  | Some Panic => Some Panic
  | None => None
  end.

Notation "x <~ m ; k" := (t_bind m (fun x => k)) (at level 20, m at level 100, k at level 200, right associativity) : tycho_scope.
Notation "' p <~ m ; k" := (t_bind m (fun x => match x with p => k end))
  (at level 20, p pattern, m at level 100, k at level 200, right associativity) : tycho_scope.

(** * Automation *)
Create HintDb tycho discriminated.

(** Take a chain of [result] binds that is known to be [Ok] apart. *)
Ltac inv_ok :=
  repeat match goal with
  | H : Ok _ = Ok _ |- _ => injection H as H; subst
  | H : Err _ = Ok _ |- _ => discriminate H
  | H : Panic = Ok _ |- _ => discriminate H
  | H : Ok _ = Err _ |- _ => discriminate H
  | H : Ok _ = Panic |- _ => discriminate H
  | H : (?m ≫= _) = Ok _ |- _ =>
      let x := fresh "x" in let E := fresh "E" in
      destruct m as [x| |] eqn:E; simpl in H; [|discriminate H|discriminate H]
  | H : (_ <$> ?m) = Ok _ |- _ =>
      let x := fresh "x" in let E := fresh "E" in
      destruct m as [x| |] eqn:E; simpl in H; [|discriminate H|discriminate H]
  | H : ok_or ?o _ = Ok _ |- _ =>
      let E := fresh "E" in
      destruct o eqn:E; simpl in H; [|discriminate H]
  end.

(** Split every boolean test of an [if] in sight. *)
Ltac case_if :=
  match goal with
  | |- context [if ?b then _ else _] => destruct b eqn:?
  | H : context [if ?b then _ else _] |- _ => destruct b eqn:?
  end.

Lemma bind_ok {E A B} (m : result E A) (f : A → result E B) (b : B) :
  m ≫= f = Ok b ↔ ∃ a, m = Ok a ∧ f a = Ok b.
Proof. destruct m; simpl; split; intros; naive_solver. Qed.

(** [try_fold] over a vector. *)
Fixpoint try_fold {E A B} (f : B → A → result E B) (b : B) (l : list A) : result E B :=
  match l with
  | [] => Ok b
  | a :: l' => b' ← f b a; try_fold f b' l'
  end.

Lemma try_fold_app {E A B} (f : B → A → result E B) b l1 l2 :
  try_fold f b (l1 ++ l2) = (b' ← try_fold f b l1; try_fold f b' l2).
Proof.
  revert b; induction l1 as [|a l1 IH]; intros b; simpl; [done|].
  destruct (f b a); simpl; auto.
Qed.

Lemma try_fold_ok {E A B} (f : B → A → result E B) (g : B → A → B) b l :
  (∀ b a, a ∈ l → f b a = Ok (g b a)) → try_fold f b l = Ok (foldl g b l).
Proof.
  revert b; induction l as [|a l IH]; intros b H; simpl; [done|].
  rewrite H by left. simpl. apply IH. intros; apply H; by right.
Qed.

Lemma try_fold_total {E A B} (f : B → A → result E B) b l :
  (∀ b a, a ∈ l → ∃ b', f b a = Ok b') → ∃ b', try_fold f b l = Ok b'.
Proof.
  revert b; induction l as [|a l IH]; intros b H; [by eexists|]. simpl.
  destruct (H b a ltac:(left)) as [b' ->]. apply IH. intros; apply H; by right.
Qed.

(** A loop that pushes what each element gives. *)
Lemma try_fold_push {E A B} (f : list B → A → result E (list B)) (g : A → result E B) acc l :
  (∀ acc a, a ∈ l → f acc a = (b ← g a; Ok (acc ++ [b]))) →
  try_fold f acc l = (bs ← mapM g l; Ok (acc ++ bs)).
Proof.
  revert acc; induction l as [|a l IH]; intros acc H; [cbn; by rewrite app_nil_r|].
  cbn [try_fold mapM]. rewrite H by left. destruct (g a) as [b| |]; simpl; [|done..].
  rewrite IH by (intros; apply H; by right).
  destruct (mapM g l); simpl; [by rewrite <-app_assoc|done..].
Qed.

Lemma mapM_ok {E A B} (g : A → result E B) l bs :
  mapM g l = Ok bs ↔ Forall2 (fun a b => g a = Ok b) l bs.
Proof.
  revert bs; induction l as [|a l IH]; intros bs; cbn [mapM].
  { split; [intros [= <-]; constructor|]. intros H. by inversion H. }
  rewrite bind_ok. setoid_rewrite bind_ok. split.
  - intros (b & Hb & bs' & Hbs & [= <-]). constructor; [done|by apply IH].
  - intros (b & bs' & Hb & Hbs & ->)%Forall2_cons_inv_l. exists b. split; [done|].
    exists bs'. split; [by apply IH|done].
Qed.

Lemma mapM_total {E A B} (g : A → result E B) l :
  (∀ a, a ∈ l → ∃ b, g a = Ok b) → ∃ bs, mapM g l = Ok bs.
Proof.
  induction l as [|a l IH]; intros H; [by eexists|]. cbn [mapM].
  destruct (H a ltac:(left)) as [b ->], IH as [bs ->]; [intros; apply H; by right|]. by eexists.
Qed.

(** * Lists *)

(** First index whose element satisfies a test ([Iterator::position]). *)
Fixpoint position {A} (p : A → bool) (l : list A) : option nat :=
  match l with
  | [] => None
  | a :: l' => if p a then Some 0 else S <$> position p l'
  end.

Fixpoint take_while {A} (p : A → bool) (l : list A) : list A :=
  match l with
  | [] => []
  | a :: l' => if p a then a :: take_while p l' else []
  end.

Section position.
Context {A : Type} (p : A → bool).

Lemma position_spec l i :
  position p l = Some i ↔
  (∃ a, l !! i = Some a ∧ p a = true) ∧ ∀ j b, j < i → l !! j = Some b → p b = false.
Proof.
  revert i; induction l as [|a l IH]; intros i; simpl.
  { split; [done|]. intros [(a & Ha & _) _]. by rewrite lookup_nil in Ha. }
  destruct (p a) eqn:Hp; simpl.
  - split.
    + intros [= <-]. split; [by exists a|]. intros; lia.
    + intros [_ H]. destruct i; [done|]. specialize (H 0 a ltac:(lia) eq_refl). congruence.
  - rewrite fmap_Some. setoid_rewrite IH. split.
    + intros (k & [(b & Hb & Hpb) H] & ->). split; [by exists b|].
      intros [|j] c Hj Hc; simpl in *; [congruence|]. apply (H j); [lia|done].
    + intros [(b & Hb & Hpb) H]. destruct i as [|i]; simpl in *; [congruence|].
      exists i. split_and!; [by exists b| |done].
      intros j c Hj Hc. apply (H (S j)); [lia|done].
Qed.

Lemma position_None l : position p l = None ↔ ∀ a, a ∈ l → p a = false.
Proof.
  induction l as [|a l IH]; simpl.
  { split; [intros _ a Ha; by apply elem_of_nil in Ha|done]. }
  destruct (p a) eqn:Hp.
  - split; [done|]. intros H. specialize (H a). rewrite H in Hp; [done|left].
  - rewrite fmap_None, IH. split; intros H b Hb.
    + apply elem_of_cons in Hb as [->|?]; auto.
    + apply H. by right.
Qed.

Lemma position_lt l i : position p l = Some i → i < length l.
Proof. intros [(a & Ha & _) _]%position_spec. by eapply lookup_lt_Some. Qed.

End position.

#[export] Hint Resolve position_lt : tycho.

Lemma position_app {A} (p : A → bool) (l1 l2 : list A) :
  position p (l1 ++ l2) =
  match position p l1 with
  | Some i => Some i
  | None => (fun i => length l1 + i) <$> position p l2
  end.
Proof.
  induction l1 as [|a l1 IH]; simpl; [by destruct (position p l2)|].
  destruct (p a); [done|]. rewrite IH. destruct (position p l1); [done|].
  by destruct (position p l2).
Qed.

Lemma position_fmap {A B} (p : B → bool) (f : A → B) (l : list A) :
  position p (f <$> l) = position (fun a => p (f a)) l.
Proof.
  induction l as [|a l IH]; [done|]. rewrite fmap_cons. simpl. by rewrite IH.
Qed.

Lemma filter_agree {A} (P Q : A → Prop) `{∀ x, Decision (P x), ∀ x, Decision (Q x)} (l : list A) :
  (∀ x, x ∈ l → P x ↔ Q x) → filter P l = filter Q l.
Proof.
  induction l as [|x l IH]; intros HPQ; [done|].
  rewrite !filter_cons, IH by (intros y Hy; apply HPQ; by right).
  pose proof (HPQ x ltac:(left)). repeat case_decide; tauto.
Qed.

Lemma filter_none {A} (P : A → Prop) `{∀ x, Decision (P x)} (l : list A) :
  Forall (fun x => ¬ P x) l → filter P l = [].
Proof. induction 1; [done|]. by rewrite filter_cons_False. Qed.

Lemma filter_every {A} (P : A → Prop) `{∀ x, Decision (P x)} (l : list A) :
  Forall P l → filter P l = l.
Proof. induction 1 as [|x l Hx _ IH]; [done|]. by rewrite filter_cons_True, IH. Qed.

(** [R] relates every element to the next one. *)
Definition adjacent {A} (R : A → A → Prop) (l : list A) : Prop :=
  ∀ i a b, l !! i = Some a → l !! S i = Some b → R a b.

Section adjacent.
Context {A : Type} (R : A → A → Prop).

Lemma adjacent_nil : adjacent R [].
Proof. intros i a b Ha. by rewrite lookup_nil in Ha. Qed.

Lemma adjacent_snoc l b :
  adjacent R l → (∀ a, last l = Some a → R a b) → adjacent R (l ++ [b]).
Proof.
  intros Hl Hlast i x y Hx Hy. destruct (decide (S i < length l)) as [Hi|Hi].
  - rewrite lookup_app_l in Hx, Hy by lia. by eapply Hl.
  - assert (S i = length l) as Hi'.
    { apply lookup_lt_Some in Hy. rewrite length_app in Hy. simpl in Hy. lia. }
    rewrite lookup_app_l in Hx by lia. rewrite lookup_app_r, Hi', Nat.sub_diag in Hy by lia.
    injection Hy as <-. apply Hlast. by rewrite last_lookup, <-Hi'.
Qed.

Lemma adjacent_cons a l :
  adjacent R l → (∀ b, head l = Some b → R a b) → adjacent R (a :: l).
Proof.
  intros Hl Hh [|i] x y Hx Hy; simpl in *.
  - injection Hx as <-. apply Hh. by rewrite head_lookup.
  - by eapply Hl.
Qed.

Lemma adjacent_take n l : adjacent R l → adjacent R (take n l).
Proof. intros Hl i x y [Hx _]%lookup_take_Some [Hy _]%lookup_take_Some. by eapply Hl. Qed.

Lemma adjacent_drop n l : adjacent R l → adjacent R (drop n l).
Proof. intros Hl i x y. rewrite !lookup_drop. rewrite Nat.add_succ_r. apply Hl. Qed.
End adjacent.

(** Strictly increasing by a key: the order in which blocks, ticks or
    transactions are stored. *)
Definition increasing {A} (key : A → Z) (l : list A) : Prop :=
  StronglySorted (fun a b => (key a < key b)%Z) l.

Lemma increasing_app {A} (key : A → Z) l1 l2 :
  increasing key (l1 ++ l2) ↔
  increasing key l1 ∧ increasing key l2 ∧
  ∀ a b, a ∈ l1 → b ∈ l2 → (key a < key b)%Z.
Proof.
  unfold increasing. induction l1 as [|a l1 IH]; simpl.
  { split; [intros; split_and!; [constructor|done|]|naive_solver].
    intros ?? Ha; by apply elem_of_nil in Ha. }
  split.
  - intros H. apply StronglySorted_inv in H as [H1 H2].
    apply IH in H1 as (? & ? & Hab). apply Forall_app in H2 as [H2 H3].
    split_and!; [by constructor|done|]. intros c d [->|Hc]%elem_of_cons Hd; [|by auto].
    rewrite Forall_forall in H3. by apply H3.
  - intros (H1 & H2 & H3). apply StronglySorted_inv in H1 as [H1 Ha].
    constructor.
    + apply IH. split_and!; [done|done|]. intros; apply H3; [by right|done].
    + apply Forall_app. split; [done|]. apply Forall_forall. intros b Hb.
      apply H3; [by left|done].
Qed.

(** * Machine integers

    A w-bit integer is a [Z]; [wrap] is the value a wrapping operation leaves,
    [fits] the range test behind the [checked_] operations. *)
Definition fits (w : Z) (z : Z) : bool := ((0 <=? z) && (z <? 2 ^ w))%Z.
Definition wrap (w : Z) (z : Z) : Z := (z mod 2 ^ w)%Z.
Definition checked (w : Z) (z : Z) : option Z := if fits w z then Some z else None.

Definition in_range (w : Z) (z : Z) : Prop := (0 ≤ z < 2 ^ w)%Z.

Lemma fits_spec w z : fits w z = true ↔ in_range w z.
Proof. unfold fits, in_range. rewrite andb_true_iff, Z.leb_le, Z.ltb_lt. done. Qed.

Lemma fits_false w z : fits w z = false ↔ ¬ in_range w z.
Proof. rewrite <-fits_spec. by destruct (fits w z). Qed.

Lemma checked_Some w z r : checked w z = Some r ↔ z = r ∧ in_range w r.
Proof.
  unfold checked. destruct (fits w z) eqn:H.
  - apply fits_spec in H. naive_solver.
  - apply fits_false in H. naive_solver.
Qed.

Lemma checked_None w z : checked w z = None ↔ ¬ in_range w z.
Proof.
  unfold checked. destruct (fits w z) eqn:H;
    [apply fits_spec in H|apply fits_false in H]; naive_solver.
Qed.

Lemma wrap_small w z : in_range w z → wrap w z = z.
Proof. intros ?. by apply Z.mod_small. Qed.

Lemma wrap_range w z : (0 ≤ w)%Z → in_range w (wrap w z).
Proof. intros. unfold wrap, in_range. apply Z.mod_pos_bound. lia. Qed.

(** Signed ranges: [i32], [i128], [I256]. *)
Definition sfits (w : Z) (z : Z) : bool := ((- 2 ^ (w - 1) <=? z) && (z <? 2 ^ (w - 1)))%Z.
Definition swrap (w : Z) (z : Z) : Z := ((z + 2 ^ (w - 1)) mod 2 ^ w - 2 ^ (w - 1))%Z.
Definition schecked (w : Z) (z : Z) : option Z := if sfits w z then Some z else None.
Definition in_srange (w : Z) (z : Z) : Prop := (- 2 ^ (w - 1) ≤ z < 2 ^ (w - 1))%Z.

Lemma sfits_spec w z : sfits w z = true ↔ in_srange w z.
Proof. unfold sfits, in_srange. rewrite andb_true_iff, Z.leb_le, Z.ltb_lt. done. Qed.

Lemma schecked_Some w z r : schecked w z = Some r ↔ z = r ∧ in_srange w r.
Proof.
  unfold schecked. destruct (sfits w z) eqn:H.
  - apply sfits_spec in H. naive_solver.
  - split; [done|]. intros [-> H']. apply sfits_spec in H'. congruence.
Qed.

Lemma swrap_small w z : (0 < w)%Z → in_srange w z → swrap w z = z.
Proof.
  unfold swrap, in_srange. intros Hw H. rewrite Z.mod_small; [lia|].
  replace (2 ^ w)%Z with (2 * 2 ^ (w - 1))%Z; [lia|].
  rewrite <-Z.pow_succ_r by lia. f_equal. lia.
Qed.

#[export] Hint Rewrite @checked_Some @checked_None fits_spec fits_false : tycho.

(** * Division rounded up *)

Definition cdiv (a b : Z) : Z := ((a + b - 1) / b)%Z.

Lemma cdiv_le a b c : (0 < b)%Z → (cdiv a b ≤ c ↔ a ≤ b * c)%Z.
Proof.
  intros Hb. unfold cdiv. split; intros H.
  - pose proof (Z.mul_succ_div_gt (a + b - 1) b Hb). nia.
  - apply Z.lt_succ_r, Z.div_lt_upper_bound; nia.
Qed.

Lemma cdiv_lower a b : (0 < b)%Z → (a ≤ b * cdiv a b)%Z.
Proof. intros Hb. by apply cdiv_le. Qed.

Lemma cdiv_upper a b : (0 < b)%Z → (b * cdiv a b < a + b)%Z.
Proof. intros Hb. unfold cdiv. pose proof (Z.mul_div_le (a + b - 1) b Hb). lia. Qed.

Lemma cdiv_nonneg a b : (0 ≤ a)%Z → (0 < b)%Z → (0 ≤ cdiv a b)%Z.
Proof. intros. apply Z.div_pos; lia. Qed.

Lemma floor_le a b c : (0 < b)%Z → (c ≤ a / b ↔ b * c ≤ a)%Z.
Proof.
  intros Hb. split; intros H; [|by apply Z.div_le_lower_bound].
  pose proof (Z.mul_div_le a b Hb). nia.
Qed.

(** * Loops

    [iterate n step] runs [step] up to [2 ^ n] times, until it answers [inr]: a [loop] whose
    budget is far above what is ever used, without a unary number of that size. *)
Fixpoint iterate {S R} (n : nat) (step : S → S + R) (s : S) : S + R :=
  match n with
  | O => step s
  | S n' =>
      match iterate n' step s with
      | inl s' => iterate n' step s'
      | inr r => inr r
      end
  end.

Lemma iterate_now {S R} n (step : S → S + R) s r : step s = inr r → iterate n step s = inr r.
Proof. intros H. induction n as [|n IH]; cbn [iterate]; [done|by rewrite IH]. Qed.

(** A loop that stays among states where it goes on never answers. *)
Lemma iterate_diverges {S R} (step : S → S + R) (I : S → Prop) :
  (∀ s, I s → ∃ s', step s = inl s' ∧ I s') → ∀ n s, I s → ∃ s', iterate n step s = inl s' ∧ I s'.
Proof.
  intros Hstep n. induction n as [|n IH]; intros s Hs; cbn [iterate]; [by apply Hstep|].
  destruct (IH s Hs) as (s1 & -> & H1). by apply IH.
Qed.

Section iterate.
Context {S R : Type} (step : S → S + R) (I : S → Prop) (m : S → Z).
Context (Hstep : ∀ s s', I s → step s = inl s' → I s' ∧ (0 ≤ m s' < m s)%Z).

(** Every turn lowers the measure. *)
Lemma iterate_inl n s s' : I s → iterate n step s = inl s' → I s' ∧ (0 ≤ m s' ∧ m s' + 2 ^ Z.of_nat n ≤ m s)%Z.
Proof using Hstep.
  revert s s'. induction n as [|n IH]; intros s s' HI; cbn [iterate].
  - intros H. destruct (Hstep s s' HI H). change (2 ^ Z.of_nat 0)%Z with 1%Z. split; [done|lia].
  - destruct (iterate n step s) as [s1|r] eqn:E1; [|done]. intros E2.
    destruct (IH s s1 HI E1) as [HI1 ?]. destruct (IH s1 s' HI1 E2) as [HI2 ?].
    rewrite Nat2Z.inj_succ, Z.pow_succ_r by lia. split; [done|lia].
Qed.

(** A budget above the measure is enough. *)
Lemma iterate_terminates n s : I s → (m s < 2 ^ Z.of_nat n)%Z → ∃ r, iterate n step s = inr r.
Proof using Hstep.
  intros HI Hm. destruct (iterate n step s) as [s'|r] eqn:E; [|by eexists].
  destruct (iterate_inl n s s' HI E). lia.
Qed.

(** What holds of the answers of single turns holds of the loop's. *)
Lemma iterate_inr (Q : R → Prop) n s r :
  (∀ s r, I s → step s = inr r → Q r) → I s → iterate n step s = inr r → Q r.
Proof using Hstep.
  intros HQ. revert s r. induction n as [|n IH]; intros s r HI; cbn [iterate]; [by apply HQ|].
  destruct (iterate n step s) as [s1|r1] eqn:E1.
  - apply IH. by destruct (iterate_inl n s s1 HI E1).
  - intros [= <-]. by apply (IH s r1).
Qed.
End iterate.
