(* ===== verification/Collections.v ===== *)
(** Hash maps and hash sets of the source.

    A [HashMap] is a [gmap], a [HashSet] a [gset].  A [for] loop over a map visits
    [map_to_list]: one of the orders the map may yield; the lemmas below show that the
    loops of the source leave the same map whatever order is taken, because every key is
    visited once. *)

From S2P Require Import Prelude.

(** * Loops over [&mut] state *)

(** [for a in l { f(a)?; }] *)
Fixpoint for_each {S E A} (f : A → stm S E unit) (l : list A) : stm S E unit :=
  match l with
  | [] => st_ret tt
  | a :: l' => st_bind (f a) (fun _ => for_each f l')
  end.

Section maps.
Context {K V : Type} `{Countable K}.

(** [self.extend(other)]: the entries of [other] replace those of [self]. *)
Definition extend (self other : gmap K V) : gmap K V := other ∪ self.

Lemma lookup_extend (self other : gmap K V) k :
  extend self other !! k = match other !! k with Some v => Some v | None => self !! k end.
Proof.
  unfold extend. rewrite lookup_union. destruct (other !! k), (self !! k); done.
Qed.

(** [self.retain(|k, _| keep(k))] *)
Definition retain (keep : K → bool) (self : gmap K V) : gmap K V :=
  filter (fun kv => keep kv.1 = true) self.

Lemma lookup_retain keep (self : gmap K V) k :
  retain keep self !! k = if keep k then self !! k else None.
Proof.
  unfold retain. destruct (keep k) eqn:E.
  - destruct (self !! k) as [v|] eqn:Ev.
    + by apply map_lookup_filter_Some.
    + apply map_lookup_filter_None. by left.
  - apply map_lookup_filter_None. right. intros v _ Hk. simpl in Hk. congruence.
Qed.

(** One turn of [for (k, v) in other { *self.entry(k) = f(v, previous) }], where [f] is
    told what the entry held. *)
Definition upsert {W} (f : W → option V → V) (self : gmap K V) (kv : K * W) : gmap K V :=
  <[kv.1 := f kv.2 (self !! kv.1)]> self.

Definition upsert_all {W} (f : W → option V → V) (self : gmap K V) (other : gmap K W) : gmap K V :=
  foldl (upsert f) self (map_to_list other).

Lemma lookup_upsert_fold {W} (f : W → option V → V) (l : list (K * W)) (self : gmap K V) k :
  NoDup l.*1 →
  foldl (upsert f) self l !! k =
    match (list_to_map l : gmap K W) !! k with
    | Some w => Some (f w (self !! k))
    | None => self !! k
    end.
Proof.
  revert self; induction l as [|[k' w] l IH]; intros self Hnd; simpl.
  { by rewrite lookup_empty. }
  apply NoDup_cons in Hnd as [Hk Hnd]. rewrite IH by done. unfold upsert; simpl.
  destruct (decide (k = k')) as [->|Hne].
  - rewrite lookup_insert_eq, lookup_insert_eq.
    simpl in Hk. rewrite not_elem_of_list_to_map_1 by done. done.
  - by rewrite !lookup_insert_ne by done.
Qed.

Lemma lookup_upsert_all {W} (f : W → option V → V) (self : gmap K V) (other : gmap K W) k :
  upsert_all f self other !! k =
    match other !! k with Some w => Some (f w (self !! k)) | None => self !! k end.
Proof.
  unfold upsert_all. rewrite lookup_upsert_fold by apply NoDup_fst_map_to_list.
  by rewrite list_to_map_to_list.
Qed.

(** The order in which the loop visits the entries does not matter. *)
Lemma upsert_order {W} (f : W → option V → V) (self : gmap K V) (other : gmap K W) l :
  l ≡ₚ map_to_list other → foldl (upsert f) self l = upsert_all f self other.
Proof.
  intros Hl. apply map_eq. intros k.
  assert (NoDup l.*1) as Hnd by (rewrite Hl; apply NoDup_fst_map_to_list).
  rewrite lookup_upsert_all, lookup_upsert_fold by done.
  rewrite (list_to_map_proper l (map_to_list other)) by done. by rewrite list_to_map_to_list.
Qed.

(** [match self.entry(k) { Occupied(e) => e.get_mut().merge(v)?, Vacant(e) => e.insert(v) }] *)
Definition entry_merge {E} (merge : V → stm V E unit) (kv : K * V) : stm (gmap K V) E unit :=
  fun self =>
    match self !! kv.1 with
    | Some old => let '(r, new) := merge kv.2 old in (r, <[kv.1 := new]> self)
    | None => (Ok tt, <[kv.1 := kv.2]> self)
    end.

(** When every merge of a key both maps have succeeds, the loop is an [upsert_all]. *)
Lemma entry_merge_all {E} (merge : V → stm V E unit) (g : V → V → V) (self other : gmap K V) :
  (∀ k v old, other !! k = Some v → self !! k = Some old → merge v old = (Ok tt, g v old)) →
  for_each (entry_merge merge) (map_to_list other) self =
    (Ok tt, upsert_all (fun v o => match o with Some old => g v old | None => v end) self other).
Proof.
  intros Hm. unfold upsert_all.
  assert (∀ l (self' : gmap K V), NoDup l.*1 → (∀ k v, (k, v) ∈ l → other !! k = Some v) →
    (∀ k v, (k, v) ∈ l → self' !! k = self !! k) →
    for_each (entry_merge merge) l self' =
    (Ok tt, foldl (upsert (fun v o => match o with Some old => g v old | None => v end)) self' l))
    as Hgen; last first.
  { apply Hgen; [apply NoDup_fst_map_to_list|intros ??; apply elem_of_map_to_list|done]. }
  induction l as [|[k v] l IH]; intros self' Hnd Hl Hs; simpl; [done|].
  apply NoDup_cons in Hnd as [Hk Hnd]. simpl in Hk.
  unfold st_bind, entry_merge at 1, upsert at 2; simpl.
  assert (Hrest : ∀ x : V,
    for_each (entry_merge merge) l (<[k:=x]> self') =
    (Ok tt, foldl (upsert (fun v o => match o with Some old => g v old | None => v end))
              (<[k:=x]> self') l)).
  { intros x. apply IH; [done|intros; apply Hl; by right|].
    intros k' v' Hk'. rewrite lookup_insert_ne; [apply (Hs k' v'); by right|].
    intros ->. apply Hk. apply list_elem_of_fmap. by exists (k', v'). }
  destruct (self' !! k) as [old|] eqn:E'; [|apply Hrest].
  rewrite (Hm k v old); [apply Hrest| |].
  - apply Hl. left.
  - rewrite <-(Hs k v); [done|left].
Qed.

End maps.

#[export] Hint Rewrite @lookup_extend @lookup_retain @lookup_upsert_all : maps.

(** [self.entry(k).or_default().extend(inner)] for every entry of a map of maps. *)
Definition extend_nested {K K' V} `{Countable K, Countable K'}
    (self other : gmap K (gmap K' V)) : gmap K (gmap K' V) :=
  upsert_all (fun inner o => extend (default ∅ o) inner) self other.

(** The same for a map of sets. *)
Definition extend_sets {K A} `{Countable K, Countable A}
    (self other : gmap K (gset A)) : gmap K (gset A) :=
  upsert_all (fun s o => default ∅ o ∪ s) self other.

Lemma lookup_extend_nested {K K' V} `{Countable K, Countable K'}
    (self other : gmap K (gmap K' V)) k k' :
  extend_nested self other !! k ≫= lookup k' =
    match other !! k ≫= lookup k' with
    | Some v => Some v
    | None => self !! k ≫= lookup k'
    end.
Proof.
  unfold extend_nested. rewrite lookup_upsert_all.
  destruct (other !! k) as [inner|], (self !! k) as [old|]; simpl; try done.
  - by rewrite lookup_extend.
  - rewrite lookup_extend, lookup_empty. done.
Qed.

(** * Stable sorting ([slice::sort_by_key]) *)

Section sorting.
Context {A : Type} (key : A → Z).

Fixpoint insert_by_key (x : A) (l : list A) : list A :=
  match l with
  | [] => [x]
  | y :: l' => if (key x <=? key y)%Z then x :: y :: l' else y :: insert_by_key x l'
  end.

Definition sort_by_key (l : list A) : list A := foldr insert_by_key [] l.

Lemma insert_by_key_perm x l : insert_by_key x l ≡ₚ x :: l.
Proof.
  induction l as [|y l IH]; simpl; [done|]. destruct (key x <=? key y)%Z; [done|].
  rewrite IH. apply perm_swap.
Qed.

Lemma sort_by_key_perm l : sort_by_key l ≡ₚ l.
Proof.
  induction l as [|x l IH]; simpl; [done|]. by rewrite insert_by_key_perm, IH.
Qed.

Lemma insert_by_key_sorted x l :
  StronglySorted (fun a b => (key a ≤ key b)%Z) l →
  StronglySorted (fun a b => (key a ≤ key b)%Z) (insert_by_key x l).
Proof.
  induction l as [|y l IH]; intros Hs; simpl; [repeat constructor|].
  apply StronglySorted_inv in Hs as [Hs Hy]. destruct (Z.leb_spec (key x) (key y)).
  - constructor; [by constructor|]. constructor; [done|].
    eapply Forall_impl; [exact Hy|]. intros z Hz. simpl in Hz. lia.
  - constructor; [by apply IH|]. rewrite insert_by_key_perm. constructor; [lia|done].
Qed.

Lemma sort_by_key_sorted l : StronglySorted (fun a b => (key a ≤ key b)%Z) (sort_by_key l).
Proof. induction l; simpl; [constructor|by apply insert_by_key_sorted]. Qed.

(** Elements of equal key keep their order. *)
Lemma sort_by_key_stable (k : Z) l :
  filter (fun a => key a = k) (sort_by_key l) = filter (fun a => key a = k) l.
Proof.
  assert (Hins : ∀ x l, filter (fun a => key a = k) (insert_by_key x l) =
    filter (fun a => key a = k) (x :: l)).
  { intros x l'. induction l' as [|y l' IH]; simpl; [done|].
    destruct (Z.leb_spec (key x) (key y)) as [Hle|Hlt]; [done|].
    rewrite !filter_cons in *. destruct (decide (key y = k)), (decide (key x = k)); try lia;
      by rewrite IH. }
  induction l as [|x l IH]; simpl; [done|]. rewrite Hins, !filter_cons, IH. done.
Qed.

End sorting.
