(* ===== verification/Bytes.v ===== *)
(** Byte strings: [tycho_common::hex_bytes::Bytes].

    [Bytes] is a list of bytes; its order is the derived one, lexicographic on the
    bytes.  [From<uN> for Bytes], [From<Bytes> for uN] and [From<Bytes> for iN] are
    one definition each, over the size in bytes of the integer type, as the source
    has one macro for all of them.  The hex parsing and printing of the file call the
    [hex] crate and are not modelled. *)

From Stdlib Require Import Strings.Byte.
From S2P Require Import Prelude.

(** * Bytes as integers *)

#[global] Instance byte_eq_dec : EqDecision byte := Byte.byte_eq_dec.

#[global] Instance byte_countable : Countable byte.
Proof. apply (inj_countable Byte.to_N Byte.of_N). apply Byte.of_to_N. Defined.

#[global] Instance byte_inhabited : Inhabited byte := populate x00.

Definition b2z (b : byte) : Z := Z.of_N (Byte.to_N b).
Definition z2b (z : Z) : byte := default x00 (Byte.of_N (Z.to_N (z mod 256))).

Lemma b2z_range b : (0 ≤ b2z b < 256)%Z.
Proof. unfold b2z. pose proof (Byte.to_N_bounded b). lia. Qed.

Lemma z2b_b2z b : z2b (b2z b) = b.
Proof.
  unfold z2b. rewrite Z.mod_small by apply b2z_range.
  unfold b2z. by rewrite N2Z.id, Byte.of_to_N.
Qed.

Lemma b2z_z2b z : b2z (z2b z) = (z mod 256)%Z.
Proof.
  unfold z2b, b2z. pose proof (Z.mod_pos_bound z 256 ltac:(lia)).
  destruct (Byte.of_N (Z.to_N (z mod 256))) as [b|] eqn:E; simpl.
  - apply Byte.to_of_N in E. lia.
  - apply Byte.of_N_None_iff in E. lia.
Qed.

Lemma b2z_inj a b : b2z a = b2z b → a = b.
Proof. intros H. by rewrite <-(z2b_b2z a), H, z2b_b2z. Qed.

Abbreviation Bytes := (list byte).

(** Big-endian value of a byte string. *)
Definition be_value (l : Bytes) : Z := foldl (fun acc b => (acc * 256 + b2z b)%Z) 0%Z l.

(** The [n] big-endian bytes of an integer ([to_be_bytes]). *)
Fixpoint to_be (n : nat) (z : Z) : Bytes :=
  match n with
  | O => []
  | S n' => to_be n' (z / 256) ++ [z2b z]
  end.

Lemma be_value_snoc l b : be_value (l ++ [b]) = (be_value l * 256 + b2z b)%Z.
Proof. unfold be_value. by rewrite foldl_app. Qed.

Lemma be_value_range l : (0 ≤ be_value l < 256 ^ Z.of_nat (length l))%Z.
Proof.
  induction l as [|b l IH] using rev_ind; [done|].
  rewrite be_value_snoc, length_app. simpl. pose proof (b2z_range b).
  rewrite Nat2Z.inj_add, Z.pow_add_r by lia. simpl (256 ^ Z.of_nat 1)%Z. lia.
Qed.

Lemma be_value_cons b l :
  be_value (b :: l) = (b2z b * 256 ^ Z.of_nat (length l) + be_value l)%Z.
Proof.
  induction l as [|c l IH] using rev_ind; [simpl; unfold be_value; simpl; lia|].
  rewrite app_comm_cons, !be_value_snoc, IH, length_app. simpl.
  rewrite Nat2Z.inj_add, Z.pow_add_r by lia. simpl (256 ^ Z.of_nat 1)%Z. lia.
Qed.

Lemma be_value_app l k :
  be_value (l ++ k) = (be_value l * 256 ^ Z.of_nat (length k) + be_value k)%Z.
Proof.
  induction k as [|b k IH] using rev_ind; [rewrite app_nil_r, Z.pow_0_r; change (be_value []) with 0%Z; lia|].
  rewrite app_assoc, !be_value_snoc, IH, length_app. simpl.
  rewrite Nat2Z.inj_add, Z.pow_add_r by lia. simpl (256 ^ Z.of_nat 1)%Z. lia.
Qed.

Lemma length_to_be n z : length (to_be n z) = n.
Proof. revert z; induction n as [|n IH]; intros z; simpl; [done|]. rewrite length_app, IH. simpl. lia. Qed.

Lemma be_value_to_be n z : be_value (to_be n z) = (z mod 256 ^ Z.of_nat n)%Z.
Proof.
  revert z; induction n as [|n IH]; intros z; simpl to_be.
  { simpl. by rewrite Z.mod_1_r. }
  rewrite be_value_snoc, IH, b2z_z2b, Nat2Z.inj_succ, Z.pow_succ_r by lia.
  rewrite Z.rem_mul_r by lia. lia.
Qed.

Lemma be_value_replicate_0 n : be_value (replicate n x00) = 0%Z.
Proof.
  induction n as [|n IH]; [done|]. simpl replicate. rewrite be_value_cons, IH.
  change (b2z x00) with 0%Z. lia.
Qed.

Lemma be_value_replicate_ff n : be_value (replicate n xff) = (256 ^ Z.of_nat n - 1)%Z.
Proof.
  induction n as [|n IH]; [done|]. simpl replicate.
  rewrite be_value_cons, IH, length_replicate, Nat2Z.inj_succ, Z.pow_succ_r by lia.
  change (b2z xff) with 255%Z. lia.
Qed.

#[export] Hint Rewrite be_value_app be_value_to_be length_to_be @length_app @length_replicate
  be_value_replicate_0 be_value_replicate_ff : bytes.

(** * Order

    [#[derive(Ord, PartialOrd)]] on the newtype: lexicographic comparison. *)
Fixpoint bytes_cmp (l k : Bytes) : comparison :=
  match l, k with
  | [], [] => Eq
  | [], _ :: _ => Lt
  | _ :: _, [] => Gt
  | a :: l', b :: k' =>
      match (b2z a ?= b2z b)%Z with Eq => bytes_cmp l' k' | c => c end
  end.

Definition bytes_ltb (l k : Bytes) : bool :=
  match bytes_cmp l k with Lt => true | _ => false end.

Lemma bytes_cmp_eq l k : bytes_cmp l k = Eq ↔ l = k.
Proof.
  revert k; induction l as [|a l IH]; intros [|b k]; simpl; try done.
  destruct (Z.compare_spec (b2z a) (b2z b)) as [E|E|E].
  - apply b2z_inj in E as ->. rewrite IH. split; [by intros ->|by intros [= ->]].
  - split; [done|]. intros [= -> _]. lia.
  - split; [done|]. intros [= -> _]. lia.
Qed.

Lemma bytes_cmp_antisym l k : bytes_cmp k l = CompOpp (bytes_cmp l k).
Proof.
  revert k; induction l as [|a l IH]; intros [|b k]; simpl; try done.
  rewrite (Z.compare_antisym (b2z a)). destruct (b2z a ?= b2z b)%Z; simpl; auto.
Qed.

(** Exactly one of [l < k], [l = k], [k < l]: the direction test of a pool. *)
Lemma bytes_ltb_total l k : l ≠ k → bytes_ltb k l = negb (bytes_ltb l k).
Proof.
  intros H. unfold bytes_ltb. rewrite bytes_cmp_antisym.
  destruct (bytes_cmp l k) eqn:E; try done. by apply bytes_cmp_eq in E.
Qed.

(** * The methods of [Bytes] *)

Definition lpad (self : Bytes) (length_ : nat) (pad_byte : byte) : Bytes :=
  replicate (length_ - length self) pad_byte ++ self.

(** [Vec::resize] truncates when the requested length is shorter. *)
Definition rpad (self : Bytes) (length_ : nat) (pad_byte : byte) : Bytes :=
  take length_ self ++ replicate (length_ - length self) pad_byte.

Definition zero (length_ : nat) : Bytes := replicate length_ x00.

Definition is_zero (self : Bytes) : bool := forallb (fun b => bool_decide (b = x00)) self.

(** [impl From<uN> for Bytes], [size] = [size_of::<uN>()]. *)
Definition bytes_from_uint (size : nat) (src : Z) : Bytes := to_be size src.

(** [impl From<Bytes> for uN]: a byte string longer than the type panics, the slice
    start [size - len] underflows. *)
Definition uint_from_bytes {E} (size : nat) (src : Bytes) : result E Z :=
  if size <? length src then Panic
  else
    let buf := take (size - length src) (replicate size x00) ++ src in
    Ok (be_value buf).

(** [impl From<Bytes> for iN]: the buffer is filled with the sign byte. *)
Definition int_from_bytes {E} (size : nat) (src : Bytes) : result E Z :=
  if size <? length src then Panic
  else
    let negative := match src with b :: _ => bool_decide (Z.land (b2z b) 128 ≠ 0%Z) | [] => false end in
    let buf := take (size - length src) (replicate size (if negative then xff else x00)) ++ src in
    let u := be_value buf in
    Ok (if (u <? 2 ^ (8 * Z.of_nat size - 1))%Z then u else (u - 2 ^ (8 * Z.of_nat size))%Z).

(** Two's-complement value of a byte string of any length. *)
Definition signed_value (l : Bytes) : Z :=
  match l with
  | [] => 0%Z
  | b :: _ => if (128 <=? b2z b)%Z then (be_value l - 256 ^ Z.of_nat (length l))%Z else be_value l
  end.

Lemma pow256 n : (256 ^ Z.of_nat n = 2 ^ (8 * Z.of_nat n))%Z.
Proof. rewrite Z.pow_mul_r by lia. done. Qed.

Lemma land_128 b : Z.land (b2z b) 128 ≠ 0%Z ↔ (128 ≤ b2z b)%Z.
Proof.
  assert (H : negb (Z.land (b2z b) 128 =? 0)%Z = (128 <=? b2z b)%Z) by (by destruct b).
  rewrite <-Z.leb_le, <-H, negb_true_iff, Z.eqb_neq. done.
Qed.

Lemma is_zero_spec l : is_zero l = true ↔ l = zero (length l).
Proof.
  unfold is_zero, zero. induction l as [|b l IH]; simpl; [done|].
  rewrite andb_true_iff, bool_decide_eq_true, IH. split.
  - intros [-> H]. by f_equal.
  - intros [= -> H]. done.
Qed.

(** The value of a padded buffer, left of which the sign byte was repeated. *)
Lemma int_from_bytes_value {E} size src :
  0 < size → length src ≤ size → int_from_bytes (E := E) size src = Ok (signed_value src).
Proof.
  intros H0 Hlen. unfold int_from_bytes.
  destruct (Nat.ltb_spec size (length src)) as [|_]; [lia|]. f_equal.
  rewrite take_replicate, Nat.min_l by lia.
  destruct src as [|b src].
  { rewrite app_nil_r, be_value_replicate_0.
    destruct (Z.ltb_spec 0 (2 ^ (8 * Z.of_nat size - 1))%Z); [done|].
    pose proof (Z.pow_pos_nonneg 2 (8 * Z.of_nat size - 1)). lia. }
  unfold signed_value. set (l := b :: src) in *.
  pose proof (be_value_range l) as Hr. pose proof (b2z_range b) as Hb.
  assert (Hn : (be_value l = b2z b * 256 ^ Z.of_nat (length src) + be_value src)%Z) by apply be_value_cons.
  pose proof (be_value_range src) as Hs.
  assert (Hp : (0 < 256 ^ Z.of_nat (length src))%Z) by lia.
  assert (Hl : (256 ^ Z.of_nat (length l) = 256 * 256 ^ Z.of_nat (length src))%Z).
  { unfold l. simpl length. by rewrite Nat2Z.inj_succ, Z.pow_succ_r by lia. }
  assert (Hle : (256 ^ Z.of_nat (length l) ≤ 2 ^ (8 * Z.of_nat size))%Z).
  { rewrite pow256. apply Z.pow_le_mono_r; lia. }
  assert (Hh : (2 ^ (8 * Z.of_nat size) = 2 * 2 ^ (8 * Z.of_nat size - 1))%Z).
  { rewrite <-Z.pow_succ_r by (unfold l in *; simpl in *; lia). f_equal; lia. }
  rewrite be_value_app.
  destruct (Z.leb_spec 128 (b2z b)).
  - rewrite bool_decide_true by by apply land_128.
    rewrite be_value_replicate_ff.
    replace ((256 ^ Z.of_nat (size - length l) - 1) * 256 ^ Z.of_nat (length l))%Z
      with (2 ^ (8 * Z.of_nat size) - 256 ^ Z.of_nat (length l))%Z.
    2:{ rewrite Z.mul_sub_distr_r, <-Z.pow_add_r by lia. rewrite <-pow256. do 2 f_equal; lia. }
    destruct (Z.ltb_spec (2 ^ (8 * Z.of_nat size) - 256 ^ Z.of_nat (length l) + be_value l)%Z
      (2 ^ (8 * Z.of_nat size - 1))%Z); nia.
  - rewrite bool_decide_false by (rewrite land_128; lia).
    rewrite be_value_replicate_0.
    destruct (Z.ltb_spec (0 * 256 ^ Z.of_nat (length l) + be_value l)%Z
      (2 ^ (8 * Z.of_nat size - 1))%Z); nia.
Qed.

(** * The guarantees *)

(** Integers survive the trip through bytes: an unsigned value that fits its type is
    read back from the bytes it was written to; a byte string is read as the unsigned, or
    sign-extended, big-endian value it denotes if it is not longer than the type, and
    reading a longer one panics. *)
Theorem bytes_integers (E : Type) size src z :
  0 < size →
  (in_range (8 * Z.of_nat size) z → uint_from_bytes (E := E) size (bytes_from_uint size z) = Ok z) ∧
  uint_from_bytes (E := E) size src = (if length src <=? size then Ok (be_value src) else Panic) ∧
  int_from_bytes (E := E) size src = (if length src <=? size then Ok (signed_value src) else Panic).
Proof.
  intros Hs.
  assert (∀ src, uint_from_bytes (E := E) size src =
    if length src <=? size then Ok (be_value src) else Panic) as Hu.
  { intros l. unfold uint_from_bytes. rewrite Nat.leb_antisym. destruct (size <? length l) eqn:El; [done|].
    apply Nat.ltb_ge in El. simpl. f_equal. rewrite take_replicate, be_value_app, be_value_replicate_0. lia. }
  split_and!; [|apply Hu|].
  - intros [H0 Hz]. rewrite Hu. unfold bytes_from_uint. rewrite length_to_be, Nat.leb_refl.
    rewrite be_value_to_be, pow256. by rewrite Z.mod_small.
  - destruct (Nat.leb_spec (length src) size); [by apply int_from_bytes_value|].
    unfold int_from_bytes. by rewrite (proj2 (Nat.ltb_lt _ _)).
Qed.

Lemma bytes_integers_witness : int_from_bytes (E := unit) 4 [xff; xfe] = Ok (-2)%Z.
Proof.
  rewrite (proj2 (proj2 (bytes_integers unit 4 [xff; xfe] 0%Z ltac:(lia)))). reflexivity.
Defined.

(** Padding on the left keeps the bytes and their value and never truncates; padding on
    the right always returns exactly the requested length, so that it cuts off a longer
    byte string, which the documentation says is returned unchanged. *)
Theorem padding_lengths self n pad :
  length (lpad self n pad) = Nat.max n (length self) ∧
  be_value (lpad self n x00) = be_value self ∧
  length (rpad self n pad) = n ∧
  (n < length self → rpad self n pad = take n self ∧ rpad self n pad ≠ self).
Proof.
  unfold lpad, rpad. split_and!.
  - rewrite length_app, length_replicate. lia.
  - rewrite be_value_app, be_value_replicate_0. lia.
  - rewrite length_app, length_take, length_replicate. lia.
  - intros Hn. replace (n - length self) with 0 by lia. simpl. rewrite app_nil_r. split; [done|].
    intros E. apply (f_equal length) in E. rewrite length_take in E. lia.
Qed.
