(* ===== verification/Models.v ===== *)
(** The data model shared by every part of the system: [tycho_common::models].

    One Module per struct of the source, its record named [t], fields under their source
    names.  A [NaiveDateTime] is its number of microseconds, a [u64] or [u32] a [Z], an
    [f64] the IEEE value [spec_float].  The identity strings an error prints are kept only
    when they are fields; what [format!] renders is left out. *)

From Stdlib Require Import SpecFloat.
From S2P Require Import Prelude Collections Bytes.

Abbreviation f64 := spec_float.
#[global] Instance f64_eq_dec : EqDecision f64.
Proof. solve_decision. Defined.

(** [a >= b] on [f64]: false when either side is NaN. *)
Definition f64_ge (a b : f64) : bool := SFleb b a.
Definition f64_zero : f64 := S754_zero false.

(** * models/mod.rs *)

(** [Address], [BlockHash], [TxHash], [Code], [Balance], [StoreKey] and [StoreVal] are
    [Bytes]; [AttrStoreKey], [ComponentId] and [EntryPointId] are [string]. *)

Abbreviation ContractStore := (gmap Bytes Bytes).
Abbreviation ContractStoreDeltas := (gmap Bytes (option Bytes)).

Inductive Chain :=
| Ethereum | Starknet | ZkSync | Arbitrum | Base | Bsc | Unichain | Polygon | Plasma | Robinhood
| Custom (name : string).

#[global] Instance chain_eq_dec : EqDecision Chain.
Proof. solve_decision. Defined.

Inductive ChangeType := Update | Deletion | Creation.

#[global] Instance change_type_eq_dec : EqDecision ChangeType.
Proof. solve_decision. Defined.

Inductive MergeError :=
| IdMismatch (what : string)
| BlockMismatch (what : string) (expected got : Bytes)
| SameTransaction (what : string) (tx : Bytes)
| TransactionOrderError (what : string) (self other : Z)
| InvalidState (what : string).

#[global] Instance merge_error_eq_dec : EqDecision MergeError.
Proof. solve_decision. Defined.

Module ContractId.
Record t := mk { address : Bytes; chain : Chain }.
Definition new (chain : Chain) (address : Bytes) : t := mk address chain.
End ContractId.

(** * models/token.rs *)

Module Token.
Record t := mk {
  address : Bytes;
  symbol : string;
  decimals : Z;
  tax : Z;
  gas : list (option Z);
  chain : Chain;
  quality : Z
}.

(** [impl PartialOrd for Token] compares addresses. *)
Definition ltb (a b : t) : bool := bytes_ltb (address a) (address b).

Definition eqb (a b : t) : bool := bool_decide (address a = address b).

(** The minimum of the known transfer costs, 0 when none is known. *)
Definition gas_usage (self : t) : Z :=
  match omap id (gas self) with
  | [] => 0%Z
  | g :: gs => foldl Z.min g gs
  end.
End Token.

Module TokenOwnerStore.
Record t := mk { values : gmap Bytes (Bytes * Bytes) }.

Definition find_owner (self : t) (token min_balance : Bytes) : option (Bytes * Bytes) :=
  match values self !! token with
  | Some (owner, balance) =>
      if (be_value min_balance <=? be_value balance)%Z then Some (owner, balance) else None
  | None => None
  end.
End TokenOwnerStore.

(** * models/contract.rs *)

Module AccountBalance.
Record t := mk { account : Bytes; token : Bytes; balance : Bytes; modify_tx : Bytes }.
End AccountBalance.

Module Transaction.
Record t := mk {
  hash : Bytes;
  block_hash : Bytes;
  from : Bytes;
  to : option Bytes;
  index : Z
}.
Definition default_ : t := mk [] [] [] None 0.
Definition set_block_hash (h : Bytes) (self : t) : t :=
  mk (hash self) h (from self) (to self) (index self).
End Transaction.

(** [v.unwrap_or_default()] for every slot of a delta: a cleared slot is the empty value. *)
Definition written_slots (slots : ContractStoreDeltas) : gmap Bytes Bytes :=
  (fun v => default [] v) <$> slots.

Module AccountDelta.
Record t := mk {
  chain : Chain;
  address : Bytes;
  slots : gmap Bytes (option Bytes);
  balance : option Bytes;
  code : option Bytes;
  change : ChangeType
}.

Definition default_ : t := mk Ethereum [] ∅ None None Update.

Definition deleted (chain : Chain) (address : Bytes) : t :=
  mk chain address ∅ None None Deletion.

Definition contract_id (self : t) : ContractId.t := ContractId.new (chain self) (address self).

Definition merge (other : t) : stm t MergeError unit := fun self =>
  if decide (address self ≠ address other) then (Err (IdMismatch "AccountDelta"), self)
  else
    (Ok tt,
     mk (chain self) (address self)
        (extend (slots self) (slots other))
        (match balance other with Some b => Some b | None => balance self end)
        (match code other with Some c => Some c | None => code self end)
        (change self)).

Definition is_update (self : t) : bool := bool_decide (change self = Update).
Definition is_creation (self : t) : bool := bool_decide (change self = Creation).
Definition set_code (c : Bytes) (self : t) : t :=
  mk (chain self) (address self) (slots self) (balance self) (Some c) (change self).
End AccountDelta.

Module Account.
Record t := mk {
  chain : Chain;
  address : Bytes;
  title : string;
  slots : gmap Bytes Bytes;
  native_balance : Bytes;
  token_balances : gmap Bytes AccountBalance.t;
  code : Bytes;
  code_hash : Bytes;
  balance_modify_tx : Bytes;
  code_modify_tx : Bytes;
  creation_tx : option Bytes
}.

Definition set_balance (new_balance modified_at : Bytes) (self : t) : t :=
  mk (chain self) (address self) (title self) (slots self) new_balance (token_balances self)
     (code self) (code_hash self) modified_at (code_modify_tx self) (creation_tx self).

Definition set_token_balances (tb : gmap Bytes AccountBalance.t) (self : t) : t :=
  mk (chain self) (address self) (title self) (slots self) (native_balance self) tb
     (code self) (code_hash self) (balance_modify_tx self) (code_modify_tx self)
     (creation_tx self).

(** The update [apply_delta] makes once the identities agree. *)
Definition with_delta (delta : AccountDelta.t) (self : t) : t :=
  mk (chain self) (address self) (title self)
     (extend (slots self) (written_slots (AccountDelta.slots delta)))
     (match AccountDelta.balance delta with Some b => b | None => native_balance self end)
     (token_balances self)
     (match AccountDelta.code delta with Some c => c | None => code self end)
     (code_hash self) (balance_modify_tx self) (code_modify_tx self) (creation_tx self).

Definition apply_delta (delta : AccountDelta.t) : stm t MergeError unit := fun self =>
  if decide ((chain self, address self) ≠ (AccountDelta.chain delta, AccountDelta.address delta))
  then (Err (IdMismatch "AccountDeltas"), self)
  else (Ok tt, with_delta delta self).
End Account.

(** [keccak256] and the hexadecimal title are library code: both are arguments of the
    conversions that use them. *)
Section conversions.
Context (keccak256 : Bytes → Bytes) (hex_title : Bytes → string).

Definition delta_code_hash (delta : AccountDelta.t) : Bytes :=
  match AccountDelta.code delta with Some c => keccak256 c | None => keccak256 [] end.

Definition account_of_delta (delta : AccountDelta.t) (modify_tx : Bytes)
    (creation_tx : option Bytes) : Account.t :=
  Account.mk (AccountDelta.chain delta) (AccountDelta.address delta)
    (hex_title (AccountDelta.address delta))
    (written_slots (AccountDelta.slots delta))
    (default [] (AccountDelta.balance delta))
    ∅
    (default [] (AccountDelta.code delta))
    (delta_code_hash delta)
    modify_tx modify_tx creation_tx.

Definition into_account (delta : AccountDelta.t) (tx : Transaction.t) : Account.t :=
  account_of_delta delta (Transaction.hash tx) (Some (Transaction.hash tx)).

Definition into_account_without_tx (delta : AccountDelta.t) : Account.t :=
  account_of_delta delta [z2b 0] None.

Definition ref_into_account (delta : AccountDelta.t) (tx : Transaction.t) : Account.t :=
  account_of_delta delta (Transaction.hash tx) (Some (Transaction.hash tx)).
End conversions.

(** [impl From<Account> for AccountDelta] *)
Definition delta_of_account (value : Account.t) : AccountDelta.t :=
  AccountDelta.mk (Account.chain value) (Account.address value)
    (Some <$> Account.slots value)
    (Some (Account.native_balance value)) (Some (Account.code value)) Creation.

Module ContractStorageChange.
Record t := mk { value : Bytes; previous : Bytes }.
Definition initial (value : Bytes) : t := mk value [].
End ContractStorageChange.

Module ContractChanges.
Record t := mk {
  account : Bytes;
  slots : gmap Bytes ContractStorageChange.t;
  native_balance : option Bytes
}.
End ContractChanges.

(** * models/protocol.rs *)

Module ProtocolComponent.
Record t := mk {
  id : string;
  protocol_system : string;
  protocol_type_name : string;
  chain : Chain;
  tokens : list Bytes;
  contract_addresses : list Bytes;
  static_attributes : gmap string Bytes;
  change : ChangeType;
  creation_tx : Bytes;
  created_at : Z
}.
End ProtocolComponent.

Module ComponentBalance.
Record t := mk {
  token : Bytes;
  balance : Bytes;
  balance_float : f64;
  modify_tx : Bytes;
  component_id : string
}.
End ComponentBalance.

Module ProtocolComponentStateDelta.
Record t := mk {
  component_id : string;
  updated_attributes : gmap string Bytes;
  deleted_attributes : gset string;
  created_attributes : gset string
}.

Definition new (component_id : string) (updated : gmap string Bytes) (deleted : gset string) : t :=
  mk component_id updated deleted ∅.

Definition default_ : t := mk "" ∅ ∅ ∅.

Definition merge (other : t) : stm t MergeError unit := fun self =>
  if decide (component_id self ≠ component_id other)
  then (Err (IdMismatch "ProtocolComponentStateDeltas"), self)
  else
    let updated := set_fold (fun attr m => delete attr m) (updated_attributes self)
                     (deleted_attributes other) in
    let created := created_attributes self ∖ deleted_attributes other in
    let deleted := deleted_attributes self ∖ dom (updated_attributes other) in
    (Ok tt,
     mk (component_id self)
        (extend updated (updated_attributes other))
        (deleted ∪ deleted_attributes other)
        (created ∪ created_attributes other)).
End ProtocolComponentStateDelta.

Module ProtocolComponentState.
Record t := mk {
  component_id : string;
  attributes : gmap string Bytes;
  balances : gmap Bytes Bytes
}.

Definition new (component_id : string) (attributes : gmap string Bytes)
    (balances : gmap Bytes Bytes) : t := mk component_id attributes balances.

Definition with_state_delta (delta : ProtocolComponentStateDelta.t) (self : t) : t :=
  mk (component_id self)
     (retain (fun attr => negb (bool_decide (attr ∈ ProtocolComponentStateDelta.deleted_attributes delta)))
        (extend (attributes self) (ProtocolComponentStateDelta.updated_attributes delta)))
     (balances self).

Definition apply_state_delta (delta : ProtocolComponentStateDelta.t) : stm t MergeError unit :=
  fun self =>
  if decide (component_id self ≠ ProtocolComponentStateDelta.component_id delta)
  then (Err (IdMismatch "ProtocolComponentStates"), self)
  else (Ok tt, with_state_delta delta self).

Definition with_balance_delta (delta : gmap Bytes ComponentBalance.t) (self : t) : t :=
  mk (component_id self) (attributes self)
     (extend (balances self) (ComponentBalance.balance <$> delta)).

Definition apply_balance_delta (delta : gmap Bytes ComponentBalance.t) : stm t MergeError unit :=
  fun self => (Ok tt, with_balance_delta delta self).
End ProtocolComponentState.

Module QualityRange.
Record t := mk { min : option Z; max : option Z }.
Definition new (min max : Z) : t := mk (Some min) (Some max).
Definition min_only (min : Z) : t := mk (Some min) None.
Definition none : t := mk None None.
End QualityRange.
