(* ===== verification/Blockchain.v ===== *)
(** Blocks, transactions and their aggregation: [tycho_common::models::blockchain].

    [TxWithChanges] holds the changes of one transaction, [BlockChanges] the transactions
    of a block (or of a partial block), [BlockAggregatedChanges] the message that is sent
    to subscribers and buffered by the RPC service. *)

From Stdlib Require Import SpecFloat.
From S2P Require Import Prelude Collections Bytes Models.

Module Block.
Record t := mk {
  number : Z;
  chain : Chain;
  hash : Bytes;
  parent_hash : Bytes;
  ts : Z
}.
#[global] Instance eq_dec : EqDecision t.
Proof. solve_decision. Defined.
Definition default_ : t := mk 0 Ethereum [] [] 0.
End Block.

(** [trait BlockScoped] *)
Class BlockScoped (B : Type) := block : B → Block.t.

(** * Entry points and tracing results *)

Module EntryPoint.
Record t := mk { external_id : string; target : Bytes; signature : string }.
#[global] Instance eq_dec : EqDecision t.
Proof. solve_decision. Defined.
#[global] Instance countable : Countable t.
Proof.
  apply (inj_countable' (fun e => (external_id e, target e, signature e))
           (fun p => mk p.1.1 p.1.2 p.2)). by intros [].
Defined.
End EntryPoint.

Inductive StorageOverride :=
| Diff (slots : gmap Bytes Bytes)
| Replace (slots : gmap Bytes Bytes).
#[global] Instance storage_override_eq_dec : EqDecision StorageOverride.
Proof. solve_decision. Defined.
#[global] Instance storage_override_countable : Countable StorageOverride.
Proof.
  apply (inj_countable' (fun o => match o with Diff m => (true, m) | Replace m => (false, m) end)
           (fun p => if p.1 : bool then Diff p.2 else Replace p.2)). by intros [].
Defined.

Module AccountOverrides.
Record t := mk {
  slots : option StorageOverride;
  native_balance : option Bytes;
  code : option Bytes
}.
#[global] Instance eq_dec : EqDecision t.
Proof. solve_decision. Defined.
#[global] Instance countable : Countable t.
Proof.
  apply (inj_countable' (fun e => (slots e, native_balance e, code e))
           (fun p => mk p.1.1 p.1.2 p.2)). by intros [].
Defined.
End AccountOverrides.

Module RPCTracerParams.
Record t := mk {
  caller : option Bytes;
  calldata : Bytes;
  state_overrides : option (gmap Bytes AccountOverrides.t);
  prune_addresses : option (list Bytes)
}.
#[global] Instance eq_dec : EqDecision t.
Proof. solve_decision. Defined.
#[global] Instance countable : Countable t.
Proof.
  apply (inj_countable' (fun e => (caller e, calldata e, state_overrides e, prune_addresses e))
           (fun p => mk p.1.1.1 p.1.1.2 p.1.2 p.2)). by intros [].
Defined.
Definition new (caller : option Bytes) (calldata : Bytes) : t := mk caller calldata None None.
Definition with_state_overrides (state : gmap Bytes AccountOverrides.t) (self : t) : t :=
  mk (caller self) (calldata self) (Some state) (prune_addresses self).
Definition with_prune_addresses (addresses : list Bytes) (self : t) : t :=
  mk (caller self) (calldata self) (state_overrides self) (Some addresses).
End RPCTracerParams.

Inductive TracingParams := RPCTracer (params : RPCTracerParams.t).
#[global] Instance tracing_params_eq_dec : EqDecision TracingParams.
Proof. solve_decision. Defined.
#[global] Instance tracing_params_countable : Countable TracingParams.
Proof.
  apply (inj_countable' (fun p => match p with RPCTracer q => q end) RPCTracer). by intros [].
Defined.

Module EntryPointWithTracingParams.
Record t := mk { entry_point : EntryPoint.t; params : TracingParams }.
#[global] Instance eq_dec : EqDecision t.
Proof. solve_decision. Defined.
#[global] Instance countable : Countable t.
Proof.
  apply (inj_countable' (fun e => (entry_point e, params e)) (fun p => mk p.1 p.2)). by intros [].
Defined.
End EntryPointWithTracingParams.

Module AddressStorageLocation.
Record t := mk { key : Bytes; offset : Z }.
#[global] Instance eq_dec : EqDecision t.
Proof. solve_decision. Defined.
#[global] Instance countable : Countable t.
Proof. apply (inj_countable' (fun e => (key e, offset e)) (fun p => mk p.1 p.2)). by intros []. Defined.
End AddressStorageLocation.

Module TracingResult.
Record t := mk {
  retriggers : gset (Bytes * AddressStorageLocation.t);
  accessed_slots : gmap Bytes (gset Bytes)
}.

Definition merge (self other : t) : t :=
  mk (retriggers self ∪ retriggers other)
     (extend_sets (accessed_slots self) (accessed_slots other)).
End TracingResult.

Module TracedEntryPoint.
Record t := mk {
  entry_point_with_params : EntryPointWithTracingParams.t;
  detection_block_hash : Bytes;
  tracing_result : TracingResult.t
}.
Definition entry_point_id (self : t) : string :=
  EntryPoint.external_id (EntryPointWithTracingParams.entry_point (entry_point_with_params self)).
End TracedEntryPoint.

Module DCIUpdate.
Record t := mk {
  new_entrypoints : gmap string (gset EntryPoint.t);
  new_entrypoint_params : gmap string (gset (TracingParams * string));
  trace_results : gmap string TracingResult.t
}.
Definition default_ : t := mk ∅ ∅ ∅.

(** One [(ep_with_params, trace)] pair of the conversion's inner loop; the accumulator is
    [(entrypoints, new_entrypoint_params, trace_results)]. *)
Definition add_trace (component_id : string)
    (acc : gset EntryPoint.t * gmap string (gset (TracingParams * string)) * gmap string TracingResult.t)
    (p : EntryPointWithTracingParams.t * TracingResult.t) :=
  let '(eps, params, results) := acc in
  let '(ep, trace) := p in
  let ep_id := EntryPoint.external_id (EntryPointWithTracingParams.entry_point ep) in
  (eps ∪ {[ EntryPointWithTracingParams.entry_point ep ]},
   <[ep_id := default ∅ (params !! ep_id) ∪
        {[ (EntryPointWithTracingParams.params ep, component_id) ]}]> params,
   <[ep_id := match results !! ep_id with
              | Some existing => TracingResult.merge existing trace
              | None => trace
              end]> results).

Definition add_component (acc : t)
    (ct : string * list (EntryPointWithTracingParams.t * TracingResult.t)) : t :=
  let '(component_id, traces) := ct in
  let '(eps, params, results) :=
    foldl (add_trace component_id) (∅, new_entrypoint_params acc, trace_results acc) traces in
  mk (if decide (eps = ∅) then new_entrypoints acc else <[component_id := eps]> (new_entrypoints acc))
     params results.

(** [impl From<TracedEntryPoints> for DCIUpdate] *)
Definition of_traced
    (traced : gmap string (list (EntryPointWithTracingParams.t * TracingResult.t))) : t :=
  foldl add_component default_ (map_to_list traced).
End DCIUpdate.

(** * Transactions *)

Module TxWithChanges.
Record t := mk {
  tx : Transaction.t;
  protocol_components : gmap string ProtocolComponent.t;
  account_deltas : gmap Bytes AccountDelta.t;
  state_updates : gmap string ProtocolComponentStateDelta.t;
  balance_changes : gmap string (gmap Bytes ComponentBalance.t);
  account_balance_changes : gmap Bytes (gmap Bytes AccountBalance.t);
  entrypoints : gmap string (gset EntryPoint.t);
  entrypoint_params : gmap string (gset (TracingParams * string))
}.

Definition default_ : t := mk Transaction.default_ ∅ ∅ ∅ ∅ ∅ ∅ ∅.

Definition set_tx (x : Transaction.t) (s : t) : t :=
  mk x (protocol_components s) (account_deltas s) (state_updates s) (balance_changes s)
     (account_balance_changes s) (entrypoints s) (entrypoint_params s).
Definition set_protocol_components x (s : t) : t :=
  mk (tx s) x (account_deltas s) (state_updates s) (balance_changes s)
     (account_balance_changes s) (entrypoints s) (entrypoint_params s).
Definition set_account_deltas x (s : t) : t :=
  mk (tx s) (protocol_components s) x (state_updates s) (balance_changes s)
     (account_balance_changes s) (entrypoints s) (entrypoint_params s).
Definition set_state_updates x (s : t) : t :=
  mk (tx s) (protocol_components s) (account_deltas s) x (balance_changes s)
     (account_balance_changes s) (entrypoints s) (entrypoint_params s).

(** The loops of [merge] that cannot fail: balances, entry points and their parameters. *)
Definition extend_rest (other : t) (s : t) : t :=
  mk (tx s) (protocol_components s) (account_deltas s) (state_updates s)
     (extend_nested (balance_changes s) (balance_changes other))
     (extend_nested (account_balance_changes s) (account_balance_changes other))
     (extend_sets (entrypoints s) (entrypoints other))
     (extend_sets (entrypoint_params s) (entrypoint_params other)).

Definition merge (other : t) : stm t MergeError unit := fun self =>
  if decide (Transaction.block_hash (tx self) ≠ Transaction.block_hash (tx other)) then
    (Err (BlockMismatch "TxWithChanges" (Transaction.block_hash (tx self))
            (Transaction.block_hash (tx other))), self)
  else if (Transaction.index (tx other) <? Transaction.index (tx self))%Z then
    (Err (TransactionOrderError "TxWithChanges" (Transaction.index (tx self))
            (Transaction.index (tx other))), self)
  else
    st_bind (fun s => (Ok tt, set_tx (tx other) s)) (fun _ =>
    st_bind (fun s => (Ok tt, set_protocol_components
                         (extend (protocol_components s) (protocol_components other)) s)) (fun _ =>
    st_bind (on_field account_deltas set_account_deltas
               (for_each (entry_merge AccountDelta.merge) (map_to_list (account_deltas other)))) (fun _ =>
    st_bind (on_field state_updates set_state_updates
               (for_each (entry_merge ProtocolComponentStateDelta.merge)
                  (map_to_list (state_updates other)))) (fun _ =>
    fun s => (Ok tt, extend_rest other s))))) self.
End TxWithChanges.

Module TxWithContractChanges.
Record t := mk {
  tx : Transaction.t;
  contract_changes : gmap Bytes ContractChanges.t
}.
End TxWithContractChanges.

(** * Aggregated messages *)

Module BlockAggregatedChanges.
Record t := mk {
  extractor : string;
  chain : Chain;
  block : Block.t;
  finalized_block_height : Z;
  db_committed_block_height : option Z;
  revert : bool;
  state_deltas : gmap string ProtocolComponentStateDelta.t;
  account_deltas : gmap Bytes AccountDelta.t;
  new_tokens : gmap Bytes Token.t;
  new_protocol_components : gmap string ProtocolComponent.t;
  deleted_protocol_components : gmap string ProtocolComponent.t;
  component_balances : gmap string (gmap Bytes ComponentBalance.t);
  account_balances : gmap Bytes (gmap Bytes AccountBalance.t);
  component_tvl : gmap string f64;
  dci_update : DCIUpdate.t;
  partial_block_index : option Z
}.

Definition drop_state (s : t) : t :=
  mk (extractor s) (chain s) (block s) (finalized_block_height s) (db_committed_block_height s)
     (revert s) ∅ ∅ (new_tokens s) (new_protocol_components s) (deleted_protocol_components s)
     (component_balances s) (account_balances s) (component_tvl s) (dci_update s)
     (partial_block_index s).

Definition is_partial (s : t) : bool := bool_decide (is_Some (partial_block_index s)).

Definition n_changes (s : t) : nat := size (account_deltas s) + size (state_deltas s).

Definition filter_by_component (keep : string → bool) (s : t) : t :=
  mk (extractor s) (chain s) (block s) (finalized_block_height s) (db_committed_block_height s)
     (revert s) (retain keep (state_deltas s)) (account_deltas s) (new_tokens s)
     (new_protocol_components s) (deleted_protocol_components s)
     (retain keep (component_balances s)) (account_balances s)
     (retain keep (component_tvl s)) (dci_update s) (partial_block_index s).

Definition filter_by_contract (keep : Bytes → bool) (s : t) : t :=
  mk (extractor s) (chain s) (block s) (finalized_block_height s) (db_committed_block_height s)
     (revert s) (state_deltas s) (retain keep (account_deltas s)) (new_tokens s)
     (new_protocol_components s) (deleted_protocol_components s)
     (component_balances s) (retain keep (account_balances s))
     (component_tvl s) (dci_update s) (partial_block_index s).

(** [let _ = e.get_mut().merge(v)]: a failed merge is ignored. *)
Definition merge_ignoring {V} (merge : V → stm V MergeError unit) (v : V) (o : option V) : V :=
  match o with Some old => (merge v old).2 | None => v end.

Definition merge (self other : t) : t :=
  mk (extractor self) (chain self) (block other) (finalized_block_height self)
     (db_committed_block_height self) (revert other)
     (upsert_all (merge_ignoring ProtocolComponentStateDelta.merge) (state_deltas self) (state_deltas other))
     (upsert_all (merge_ignoring AccountDelta.merge) (account_deltas self) (account_deltas other))
     (new_tokens self)
     (extend (new_protocol_components self) (new_protocol_components other))
     (extend (deleted_protocol_components self) (deleted_protocol_components other))
     (extend_nested (component_balances self) (component_balances other))
     (extend_nested (account_balances self) (account_balances other))
     (extend (component_tvl self) (component_tvl other))
     (dci_update self) (partial_block_index self).
End BlockAggregatedChanges.

#[global] Instance aggregated_scoped : BlockScoped BlockAggregatedChanges.t :=
  BlockAggregatedChanges.block.

(** * Blocks *)

Module BlockChanges.
Record t := mk {
  extractor : string;
  chain : Chain;
  block : Block.t;
  finalized_block_height : Z;
  revert : bool;
  new_tokens : gmap Bytes Token.t;
  txs_with_update : list TxWithChanges.t;
  block_contract_changes : list TxWithContractChanges.t;
  trace_results : list TracedEntryPoint.t;
  partial_block_index : option Z
}.

Definition new (extractor : string) (chain : Chain) (block : Block.t) (finalized : Z)
    (revert : bool) (txs : list TxWithChanges.t) (bcc : list TxWithContractChanges.t) : t :=
  mk extractor chain block finalized revert ∅ txs bcc [] None.

(** [acc_state.merge(new_state)?; Ok(acc_state)] *)
Definition merge_txs (acc new : TxWithChanges.t) : result MergeError TxWithChanges.t :=
  match TxWithChanges.merge new acc with
  | (Ok _, acc') => Ok acc'
  | (Err e, _) => Err e
  | (Panic, _) => Panic
  end.

Definition aggregate_traces (l : list TracedEntryPoint.t) : gmap string TracingResult.t :=
  foldl (fun m r =>
    upsert (fun res o => match o with Some ex => TracingResult.merge ex res | None => res end)
      m (TracedEntryPoint.entry_point_id r, TracedEntryPoint.tracing_result r)) ∅ l.

Definition into_aggregated (self : t) (db_committed_block_height : option Z) :
    result MergeError BlockAggregatedChanges.t :=
  if match db_committed_block_height with
     | Some h => (finalized_block_height self <? h)%Z
     | None => false
     end
  then Err (InvalidState "Database committed block height is greater than finalized_block_height")
  else
    let '(first_state, rest) :=
      match txs_with_update self with
      | [] => (TxWithChanges.default_, [])
      | f :: r => (f, r)
      end in
    agg ← try_fold merge_txs first_state rest;
    Ok (BlockAggregatedChanges.mk (extractor self) (chain self) (block self)
          (finalized_block_height self) db_committed_block_height (revert self)
          (TxWithChanges.state_updates agg) (TxWithChanges.account_deltas agg)
          (new_tokens self) (TxWithChanges.protocol_components agg) ∅
          (TxWithChanges.balance_changes agg) (TxWithChanges.account_balance_changes agg) ∅
          (DCIUpdate.mk (TxWithChanges.entrypoints agg) (TxWithChanges.entrypoint_params agg)
             (aggregate_traces (trace_results self)))
          (partial_block_index self)).

Definition protocol_components (self : t) : list ProtocolComponent.t :=
  mjoin ((fun tx => (map_to_list (TxWithChanges.protocol_components tx)).*2) <$> txs_with_update self).

Definition is_partial_block (self : t) : bool := bool_decide (is_Some (partial_block_index self)).

Definition set_partial_block_index (i : option Z) (s : t) : t :=
  mk (extractor s) (chain s) (block s) (finalized_block_height s) (revert s) (new_tokens s)
     (txs_with_update s) (block_contract_changes s) (trace_results s) i.

Definition set_tx_block_hash (h : Bytes) (x : TxWithChanges.t) : TxWithChanges.t :=
  TxWithChanges.set_tx (Transaction.set_block_hash h (TxWithChanges.tx x)) x.

Definition normalize_block_hash (s : t) : t :=
  let h := Block.hash (block s) in
  mk (extractor s) (chain s) (block s) (finalized_block_height s) (revert s) (new_tokens s)
     (set_tx_block_hash h <$> txs_with_update s)
     ((fun x => TxWithContractChanges.mk
                  (Transaction.set_block_hash h (TxWithContractChanges.tx x))
                  (TxWithContractChanges.contract_changes x)) <$> block_contract_changes s)
     (trace_results s) (partial_block_index s).

(** [sort_by_key(|tx| tx.tx.index)], a stable sort. *)
Definition tx_index (x : TxWithChanges.t) : Z := Transaction.index (TxWithChanges.tx x).
Definition sort_txs (l : list TxWithChanges.t) : list TxWithChanges.t :=
  sort_by_key tx_index l.

(** The merge of two partial blocks once [current] is known to be the later one. *)
Definition merge_ordered (current previous : t) : t :=
  normalize_block_hash
    (mk (extractor current) (chain current) (block current) (finalized_block_height current)
       (revert current)
       (extend (new_tokens previous) (new_tokens current))
       (sort_txs (txs_with_update current ++ txs_with_update previous))
       (block_contract_changes current ++ block_contract_changes previous)
       (trace_results current ++ trace_results previous)
       (partial_block_index current)).

Definition merge_partial (self other : t) : result MergeError t :=
  match partial_block_index self with
  | None => Err (InvalidState "self is not a partial block")
  | Some self_index =>
  match partial_block_index other with
  | None => Err (InvalidState "other is not a partial block")
  | Some other_index =>
    if decide (extractor self ≠ extractor other) then
      Err (IdMismatch "partial blocks (extractor)")
    else if decide (chain self ≠ chain other) then
      Err (IdMismatch "partial blocks (chain)")
    else if decide (Block.number (block self) ≠ Block.number (block other)) then
      Err (BlockMismatch "partial blocks" (Block.hash (block self)) (Block.hash (block other)))
    else if decide (revert self ≠ revert other) then
      Err (InvalidState "different revert status")
    else if (other_index <? self_index)%Z then Ok (merge_ordered self other)
    else if (self_index <? other_index)%Z then Ok (merge_ordered other self)
    else Err (InvalidState "same partial block index")
  end end.
End BlockChanges.

#[global] Instance changes_scoped : BlockScoped BlockChanges.t := BlockChanges.block.
