(* ===== verification/Deltas.v ===== *)
(** Deltas compose: the theorems about merging and applying deltas.

    A component state or an account is brought up to date by applying deltas in order;
    transactions of a block are first merged and the merged delta applied once.  The
    theorems say that both give the same state, for one pair of deltas and for a whole
    block ([BlockChanges.into_aggregated]). *)

From Stdlib Require Import SpecFloat Strings.Byte.
From S2P Require Import Prelude Collections Bytes Models Blockchain.

Open Scope tycho_scope.

(** * State deltas *)

Lemma lookup_set_fold_delete (X : gset string) (m : gmap string Bytes) k :
  set_fold (fun attr m => delete attr m) m X !! k = if decide (k ∈ X) then None else m !! k.
Proof.
  pose (P := fun (r : gmap string Bytes) (Y : gset string) =>
    r !! k = if decide (k ∈ Y) then None else m !! k).
  apply (set_fold_ind_L P (fun attr m => delete attr m) m); unfold P; clear P.
  - by rewrite decide_False by set_solver.
  - intros x Y r Hx IH. destruct (decide (x = k)) as [->|Hne].
    + rewrite lookup_delete_eq, decide_True by set_solver. done.
    + rewrite lookup_delete_ne, IH by done. repeat case_decide; set_solver.
Qed.

Section state_deltas.
Import ProtocolComponentState ProtocolComponentStateDelta.

Lemma lookup_with_state_delta d s k :
  attributes (with_state_delta d s) !! k =
    if decide (k ∈ deleted_attributes d) then None
    else match updated_attributes d !! k with Some v => Some v | None => attributes s !! k end.
Proof.
  simpl. rewrite lookup_retain, lookup_extend.
  destruct (decide (k ∈ deleted_attributes d)) as [Hk|Hk].
  - by rewrite bool_decide_true.
  - by rewrite bool_decide_false.
Qed.

Lemma state_delta_merge_fields d1 d2 d12 :
  ProtocolComponentStateDelta.merge d2 d1 = (Ok tt, d12) →
  ProtocolComponentStateDelta.component_id d1 = ProtocolComponentStateDelta.component_id d2 ∧
  ProtocolComponentStateDelta.component_id d12 = ProtocolComponentStateDelta.component_id d1 ∧
  (∀ k, updated_attributes d12 !! k =
     match updated_attributes d2 !! k with
     | Some v => Some v
     | None => if decide (k ∈ deleted_attributes d2) then None else updated_attributes d1 !! k
     end) ∧
  deleted_attributes d12 =
    (deleted_attributes d1 ∖ dom (updated_attributes d2)) ∪ deleted_attributes d2.
Proof.
  unfold ProtocolComponentStateDelta.merge. case_decide as Hid; [done|]. intros [= <-]; simpl.
  split_and!; [tauto| |intros k|]; try done.
  rewrite lookup_extend, lookup_set_fold_delete. done.
Qed.

Lemma with_state_delta_merge d1 d2 d12 s :
  ProtocolComponentStateDelta.merge d2 d1 = (Ok tt, d12) →
  with_state_delta d12 s = with_state_delta d2 (with_state_delta d1 s).
Proof.
  intros (_ & _ & Hu & Hd)%state_delta_merge_fields.
  assert (attributes (with_state_delta d12 s) = attributes (with_state_delta d2 (with_state_delta d1 s)))
    as Ha; [|unfold with_state_delta in *; simpl in *; by rewrite Ha].
  apply map_eq. intros k. rewrite !lookup_with_state_delta, Hu, Hd.
  destruct (updated_attributes d2 !! k) as [v|] eqn:E.
  - assert (k ∈ dom (updated_attributes d2)) by by apply elem_of_dom.
    repeat case_decide; set_solver.
  - apply not_elem_of_dom in E. repeat case_decide; try set_solver.
Qed.

(** Merging state deltas and applying the result is applying them one after the other,
    errors included. *)
Lemma state_delta_merge_apply_lemma d1 d2 d12 s :
  ProtocolComponentStateDelta.merge d2 d1 = (Ok tt, d12) →
  (apply_state_delta d1 ;? apply_state_delta d2) s = apply_state_delta d12 s.
Proof.
  intros Hm. pose proof (state_delta_merge_fields _ _ _ Hm) as (H12 & Hid & _).
  unfold st_bind, apply_state_delta. rewrite Hid.
  destruct (decide (ProtocolComponentState.component_id s ≠ component_id d1)) as [|Hs]; [done|].
  simpl. rewrite <-H12. case_decide; [tauto|]. by rewrite (with_state_delta_merge d1 d2 d12).
Qed.

End state_deltas.

(** * Account deltas *)

Section account_deltas.
Import Account.

Lemma account_delta_merge_fields d1 d2 d12 :
  AccountDelta.merge d2 d1 = (Ok tt, d12) →
  AccountDelta.address d1 = AccountDelta.address d2 ∧
  AccountDelta.address d12 = AccountDelta.address d1 ∧
  AccountDelta.chain d12 = AccountDelta.chain d1 ∧
  AccountDelta.change d12 = AccountDelta.change d1.
Proof. unfold AccountDelta.merge. case_decide; [done|]. intros [= <-]; simpl. tauto. Qed.

Lemma written_slots_extend (m m' : gmap Bytes (option Bytes)) :
  written_slots (extend m m') = extend (written_slots m) (written_slots m').
Proof.
  apply map_eq. intros k. unfold written_slots.
  rewrite lookup_extend, !lookup_fmap, lookup_extend. by destruct (m' !! k).
Qed.

Lemma extend_extend {K V} `{Countable K} (m m1 m2 : gmap K V) :
  extend (extend m m1) m2 = extend m (extend m1 m2).
Proof. apply map_eq. intros k. rewrite !lookup_extend. by destruct (m2 !! k). Qed.

Lemma with_delta_merge d1 d2 d12 a :
  AccountDelta.merge d2 d1 = (Ok tt, d12) →
  with_delta d12 a = with_delta d2 (with_delta d1 a).
Proof.
  unfold AccountDelta.merge. case_decide; [done|]. intros [= <-]. unfold with_delta; simpl.
  rewrite written_slots_extend, extend_extend.
  by destruct (AccountDelta.balance d2), (AccountDelta.code d2).
Qed.

Lemma account_delta_merge_apply_lemma d1 d2 d12 a :
  AccountDelta.chain d1 = AccountDelta.chain d2 →
  AccountDelta.merge d2 d1 = (Ok tt, d12) →
  (apply_delta d1 ;? apply_delta d2) a = apply_delta d12 a.
Proof.
  intros Hc Hm. pose proof (account_delta_merge_fields _ _ _ Hm) as (H12 & Ha & Hch & _).
  unfold st_bind, apply_delta. rewrite Ha, Hch.
  destruct (decide ((chain a, address a) ≠ _)) as [|Hs]; [done|].
  simpl. rewrite <-H12, <-Hc. case_decide; [tauto|]. by rewrite (with_delta_merge d1 d2 d12).
Qed.

End account_deltas.

(** * A transaction, or an aggregated message, applied to a state

    What one set of changes does to a component state and to an account. *)

Definition native_effect (updates : gmap string ProtocolComponentStateDelta.t)
    (balances : gmap string (gmap Bytes ComponentBalance.t))
    (s : ProtocolComponentState.t) : ProtocolComponentState.t :=
  let id := ProtocolComponentState.component_id s in
  let s1 := match updates !! id with
            | Some d => ProtocolComponentState.with_state_delta d s
            | None => s
            end in
  match balances !! id with
  | Some b => ProtocolComponentState.with_balance_delta b s1
  | None => s1
  end.

Definition account_effect (deltas : gmap Bytes AccountDelta.t)
    (balances : gmap Bytes (gmap Bytes AccountBalance.t)) (a : Account.t) : Account.t :=
  let a1 := match deltas !! Account.address a with
            | Some d => Account.with_delta d a
            | None => a
            end in
  match balances !! Account.address a with
  | Some b => Account.set_token_balances (extend (Account.token_balances a1) b) a1
  | None => a1
  end.

(** Every delta is stored under the id it carries. *)
Definition keyed_updates (m : gmap string ProtocolComponentStateDelta.t) : Prop :=
  ∀ id d, m !! id = Some d → ProtocolComponentStateDelta.component_id d = id.
Definition keyed_deltas (m : gmap Bytes AccountDelta.t) : Prop :=
  ∀ addr d, m !! addr = Some d → AccountDelta.address d = addr.

Definition keyed_tx (x : TxWithChanges.t) : Prop :=
  keyed_updates (TxWithChanges.state_updates x) ∧ keyed_deltas (TxWithChanges.account_deltas x).

Lemma keyed_default : keyed_tx TxWithChanges.default_.
Proof. split; intros ??; simpl; by rewrite lookup_empty. Qed.

(** The merged delta of a key. *)
Definition merged {V} (merge : V → stm V MergeError unit) (v old : V) : V := (merge v old).2.

Lemma state_merge_keyed (m1 m2 : gmap string ProtocolComponentStateDelta.t) id v old :
  keyed_updates m1 → keyed_updates m2 → m2 !! id = Some v → m1 !! id = Some old →
  ProtocolComponentStateDelta.merge v old =
    (Ok tt, merged ProtocolComponentStateDelta.merge v old).
Proof.
  intros H1 H2 Hv Hold. apply H1 in Hold. apply H2 in Hv.
  unfold merged, ProtocolComponentStateDelta.merge. case_decide; [congruence|done].
Qed.

Lemma account_merge_keyed (m1 m2 : gmap Bytes AccountDelta.t) addr v old :
  keyed_deltas m1 → keyed_deltas m2 → m2 !! addr = Some v → m1 !! addr = Some old →
  AccountDelta.merge v old = (Ok tt, merged AccountDelta.merge v old).
Proof.
  intros H1 H2 Hv Hold. apply H1 in Hold. apply H2 in Hv.
  unfold merged, AccountDelta.merge. case_decide; [congruence|done].
Qed.

(** On keyed transactions [merge] fails only by its two tests, and otherwise leaves the
    upserted maps. *)
Lemma tx_merge_ok (x y x' : TxWithChanges.t) :
  keyed_tx x → keyed_tx y → TxWithChanges.merge y x = (Ok tt, x') →
  x' = TxWithChanges.extend_rest y
         (TxWithChanges.mk (TxWithChanges.tx y)
            (extend (TxWithChanges.protocol_components x) (TxWithChanges.protocol_components y))
            (upsert_all (fun v o => match o with
                                    | Some old => merged AccountDelta.merge v old
                                    | None => v end)
               (TxWithChanges.account_deltas x) (TxWithChanges.account_deltas y))
            (upsert_all (fun v o => match o with
                                    | Some old => merged ProtocolComponentStateDelta.merge v old
                                    | None => v end)
               (TxWithChanges.state_updates x) (TxWithChanges.state_updates y))
            (TxWithChanges.balance_changes x) (TxWithChanges.account_balance_changes x)
            (TxWithChanges.entrypoints x) (TxWithChanges.entrypoint_params x)).
Proof.
  intros [Hxs Hxa] [Hys Hya]. unfold TxWithChanges.merge.
  case_decide; [done|]. case_if; [done|].
  unfold st_bind, on_field; simpl.
  rewrite (entry_merge_all _ (merged AccountDelta.merge)).
  2:{ intros k v old Hv Hold. exact (account_merge_keyed _ _ k v old Hxa Hya Hv Hold). }
  simpl. rewrite (entry_merge_all _ (merged ProtocolComponentStateDelta.merge)).
  2:{ intros k v old Hv Hold. exact (state_merge_keyed _ _ k v old Hxs Hys Hv Hold). }
  simpl. by intros [= <-].
Qed.

Lemma tx_merge_keyed (x y x' : TxWithChanges.t) :
  keyed_tx x → keyed_tx y → TxWithChanges.merge y x = (Ok tt, x') → keyed_tx x'.
Proof.
  intros Hx Hy Hm. pose proof (tx_merge_ok x y x' Hx Hy Hm) as ->.
  destruct Hx as [Hxs Hxa], Hy as [Hys Hya]. split; intros k d; simpl; rewrite lookup_upsert_all.
  - destruct (TxWithChanges.state_updates y !! k) as [v|] eqn:Ev; [|apply Hxs].
    destruct (TxWithChanges.state_updates x !! k) as [old|] eqn:Eo; intros [= <-]; [|by apply Hys].
    apply Hxs in Eo. apply Hys in Ev.
    unfold merged, ProtocolComponentStateDelta.merge. case_decide; [congruence|done].
  - destruct (TxWithChanges.account_deltas y !! k) as [v|] eqn:Ev; [|apply Hxa].
    destruct (TxWithChanges.account_deltas x !! k) as [old|] eqn:Eo; intros [= <-]; [|by apply Hya].
    apply Hxa in Eo. apply Hya in Ev.
    unfold merged, AccountDelta.merge. case_decide; [congruence|done].
Qed.

(** ** Merging two transactions composes their effects *)

Lemma native_effect_id u b s :
  ProtocolComponentState.component_id (native_effect u b s) = ProtocolComponentState.component_id s.
Proof. unfold native_effect. destruct (u !! _), (b !! _); done. Qed.

Lemma account_effect_address d b a :
  Account.address (account_effect d b a) = Account.address a.
Proof. unfold account_effect. destruct (d !! _), (b !! _); done. Qed.

(** State deltas touch the attributes and balance deltas the balances: they commute. *)
Lemma with_state_with_balance d b s :
  ProtocolComponentState.with_state_delta d (ProtocolComponentState.with_balance_delta b s) =
  ProtocolComponentState.with_balance_delta b (ProtocolComponentState.with_state_delta d s).
Proof. done. Qed.

Lemma with_balance_extend b1 b2 s :
  ProtocolComponentState.with_balance_delta (extend b1 b2) s =
  ProtocolComponentState.with_balance_delta b2 (ProtocolComponentState.with_balance_delta b1 s).
Proof.
  unfold ProtocolComponentState.with_balance_delta; simpl. f_equal.
  apply map_eq. intros k. rewrite !lookup_extend, !lookup_fmap, lookup_extend.
  by destruct (b2 !! k).
Qed.

Lemma extend_empty_l {K V} `{Countable K} (m : gmap K V) : extend ∅ m = m.
Proof. apply map_eq. intros k. rewrite lookup_extend, lookup_empty. by destruct (m !! k). Qed.

Lemma tx_merge_native (x y x' : TxWithChanges.t) s :
  keyed_tx x → keyed_tx y → TxWithChanges.merge y x = (Ok tt, x') →
  native_effect (TxWithChanges.state_updates x') (TxWithChanges.balance_changes x') s =
  native_effect (TxWithChanges.state_updates y) (TxWithChanges.balance_changes y)
    (native_effect (TxWithChanges.state_updates x) (TxWithChanges.balance_changes x) s).
Proof.
  intros Hx Hy Hm. pose proof (tx_merge_ok x y x' Hx Hy Hm) as ->.
  unfold native_effect at 1 2. rewrite native_effect_id. unfold native_effect; simpl.
  unfold extend_nested. rewrite !lookup_upsert_all.
  destruct (TxWithChanges.state_updates y !! _) as [d2|] eqn:E2,
    (TxWithChanges.state_updates x !! _) as [d1|] eqn:E1,
    (TxWithChanges.balance_changes y !! _) as [b2|],
    (TxWithChanges.balance_changes x !! _) as [b1|]; simpl;
  rewrite ?extend_empty_l, ?with_balance_extend, ?with_state_with_balance; try done;
  by rewrite (with_state_delta_merge d1 d2 (merged ProtocolComponentStateDelta.merge d2 d1))
    by exact (state_merge_keyed _ _ _ _ _ (proj1 Hx) (proj1 Hy) E2 E1).
Qed.

Lemma tx_merge_account (x y x' : TxWithChanges.t) a :
  keyed_tx x → keyed_tx y → TxWithChanges.merge y x = (Ok tt, x') →
  account_effect (TxWithChanges.account_deltas x') (TxWithChanges.account_balance_changes x') a =
  account_effect (TxWithChanges.account_deltas y) (TxWithChanges.account_balance_changes y)
    (account_effect (TxWithChanges.account_deltas x) (TxWithChanges.account_balance_changes x) a).
Proof.
  intros Hx Hy Hm. pose proof (tx_merge_ok x y x' Hx Hy Hm) as ->.
  unfold account_effect at 1 2. rewrite account_effect_address. unfold account_effect; simpl.
  unfold extend_nested. rewrite !lookup_upsert_all.
  destruct (TxWithChanges.account_deltas y !! _) as [d2|] eqn:E2,
    (TxWithChanges.account_deltas x !! _) as [d1|] eqn:E1,
    (TxWithChanges.account_balance_changes y !! _) as [b2|],
    (TxWithChanges.account_balance_changes x !! _) as [b1|]; simpl;
  rewrite ?extend_empty_l; try rewrite (with_delta_merge d1 d2 (merged AccountDelta.merge d2 d1))
    by exact (account_merge_keyed _ _ _ _ _ (proj2 Hx) (proj2 Hy) E2 E1);
  unfold Account.set_token_balances, Account.with_delta; simpl; by rewrite ?extend_extend.
Qed.

(** A message can be aggregated when its transactions belong to one block and are ordered. *)
Definition mergeable (txs : list TxWithChanges.t) : Prop :=
  (∃ h, Forall (fun x => Transaction.block_hash (TxWithChanges.tx x) = h) txs) ∧
  StronglySorted (fun a b => (BlockChanges.tx_index a ≤ BlockChanges.tx_index b)%Z) txs.

Lemma merge_txs_Ok x y x' :
  BlockChanges.merge_txs x y = Ok x' ↔ TxWithChanges.merge y x = (Ok tt, x').
Proof.
  unfold BlockChanges.merge_txs. destruct (TxWithChanges.merge y x) as [[[]|e|] ?]; naive_solver.
Qed.

Lemma tx_merge_tx x y x' : TxWithChanges.merge y x = (Ok tt, x') → TxWithChanges.tx x' = TxWithChanges.tx y.
Proof.
  unfold TxWithChanges.merge. case_decide; [done|]. case_if; [done|].
  unfold st_bind, on_field; simpl.
  destruct (for_each _ _ _) as [[[]| |] ?]; simpl; try done.
  destruct (for_each _ _ _) as [[[]| |] ?]; simpl; try done. by intros [= <-].
Qed.

Lemma tx_merge_succeeds x y :
  keyed_tx x → keyed_tx y →
  Transaction.block_hash (TxWithChanges.tx x) = Transaction.block_hash (TxWithChanges.tx y) →
  (BlockChanges.tx_index x ≤ BlockChanges.tx_index y)%Z →
  ∃ x', TxWithChanges.merge y x = (Ok tt, x').
Proof.
  intros [Hxs Hxa] [Hys Hya] Hh Hi. unfold TxWithChanges.merge, BlockChanges.tx_index in *.
  case_decide; [congruence|]. destruct (Z.ltb_spec (Transaction.index (TxWithChanges.tx y))
    (Transaction.index (TxWithChanges.tx x))); [lia|].
  unfold st_bind, on_field; simpl.
  rewrite (entry_merge_all _ (merged AccountDelta.merge)).
  2:{ intros k v old Hv Hold. exact (account_merge_keyed _ _ k v old Hxa Hya Hv Hold). }
  simpl. rewrite (entry_merge_all _ (merged ProtocolComponentStateDelta.merge)).
  2:{ intros k v old Hv Hold. exact (state_merge_keyed _ _ k v old Hxs Hys Hv Hold). }
  simpl. eauto.
Qed.

Lemma try_fold_merge_succeeds x l :
  Forall keyed_tx (x :: l) → mergeable (x :: l) →
  ∃ r, try_fold BlockChanges.merge_txs x l = Ok r.
Proof.
  revert x; induction l as [|y l IH]; intros x Hk [(h & Hh) Hs]; simpl; [eauto|].
  apply Forall_cons in Hk as [Hkx Hk]. apply Forall_cons in Hk as [Hky Hk].
  apply Forall_cons in Hh as [Hhx Hh]. apply Forall_cons in Hh as [Hhy Hh].
  apply StronglySorted_inv in Hs as [Hs Hx]. apply Forall_cons in Hx as [Hxy Hx].
  destruct (tx_merge_succeeds x y) as [x' Hm];
    [done|done|exact (eq_trans Hhx (eq_sym Hhy))|exact Hxy|].
  pose proof (tx_merge_tx _ _ _ Hm) as Htx.
  rewrite (proj2 (merge_txs_Ok x y x') Hm). simpl. apply IH.
  - constructor; [exact (tx_merge_keyed x y x' Hkx Hky Hm)|done].
  - apply StronglySorted_inv in Hs as [Hs Hy]. split.
    + exists h. constructor; [by rewrite Htx|done].
    + constructor; [done|]. unfold BlockChanges.tx_index in *. by rewrite Htx.
Qed.

(** The effect of a fold of merges is the fold of the effects. *)
Lemma try_fold_merge_effects x l r s a :
  Forall keyed_tx (x :: l) → try_fold BlockChanges.merge_txs x l = Ok r →
  native_effect (TxWithChanges.state_updates r) (TxWithChanges.balance_changes r) s =
    foldl (fun s y => native_effect (TxWithChanges.state_updates y) (TxWithChanges.balance_changes y) s)
      s (x :: l) ∧
  account_effect (TxWithChanges.account_deltas r) (TxWithChanges.account_balance_changes r) a =
    foldl (fun a y => account_effect (TxWithChanges.account_deltas y)
                        (TxWithChanges.account_balance_changes y) a) a (x :: l).
Proof.
  revert x; induction l as [|y l IH]; intros x Hk; simpl; [by intros [= <-]|].
  apply Forall_cons in Hk as [Hkx Hk]. apply Forall_cons in Hk as [Hky Hk].
  destruct (BlockChanges.merge_txs x y) as [x'| |] eqn:Hm; simpl; try done.
  intros Hr. apply merge_txs_Ok in Hm. apply IH in Hr as [IH1 IH2]; simpl in *.
  - rewrite IH1, IH2. split; f_equal; [by apply tx_merge_native|by apply tx_merge_account].
  - constructor; [exact (tx_merge_keyed x y x' Hkx Hky Hm)|done].
Qed.

Lemma native_effect_empty s : native_effect ∅ ∅ s = s.
Proof. unfold native_effect. by rewrite !lookup_empty. Qed.
Lemma account_effect_empty a : account_effect ∅ ∅ a = a.
Proof. unfold account_effect. by rewrite !lookup_empty. Qed.

Lemma into_aggregated_Ok b h agg :
  BlockChanges.into_aggregated b h = Ok agg →
  ∃ r, match BlockChanges.txs_with_update b with
       | [] => r = TxWithChanges.default_
       | x :: l => try_fold BlockChanges.merge_txs x l = Ok r
       end ∧
  BlockAggregatedChanges.state_deltas agg = TxWithChanges.state_updates r ∧
  BlockAggregatedChanges.account_deltas agg = TxWithChanges.account_deltas r ∧
  BlockAggregatedChanges.component_balances agg = TxWithChanges.balance_changes r ∧
  BlockAggregatedChanges.account_balances agg = TxWithChanges.account_balance_changes r ∧
  BlockAggregatedChanges.block agg = BlockChanges.block b.
Proof.
  unfold BlockChanges.into_aggregated. case_if; [done|].
  destruct (BlockChanges.txs_with_update b) as [|x l]; simpl.
  - intros [= <-]. by exists TxWithChanges.default_.
  - destruct (try_fold BlockChanges.merge_txs x l) as [r| |]; simpl; try done.
    intros [= <-]. by exists r.
Qed.

(** ** Partial blocks *)

Lemma merge_partial_Ok a b r :
  BlockChanges.merge_partial a b = Ok r →
  ∃ i j, BlockChanges.partial_block_index a = Some i ∧
    BlockChanges.partial_block_index b = Some j ∧
    BlockChanges.extractor a = BlockChanges.extractor b ∧
    BlockChanges.chain a = BlockChanges.chain b ∧
    Block.number (BlockChanges.block a) = Block.number (BlockChanges.block b) ∧
    BlockChanges.revert a = BlockChanges.revert b ∧
    (((j < i)%Z ∧ r = BlockChanges.merge_ordered a b) ∨
     ((i < j)%Z ∧ r = BlockChanges.merge_ordered b a)).
Proof.
  unfold BlockChanges.merge_partial.
  destruct (BlockChanges.partial_block_index a) as [i|]; [|done].
  destruct (BlockChanges.partial_block_index b) as [j|]; [|done].
  destruct (decide (BlockChanges.extractor a ≠ BlockChanges.extractor b)); [done|].
  destruct (decide (BlockChanges.chain a ≠ BlockChanges.chain b)); [done|].
  destruct (decide (Block.number _ ≠ _)); [done|].
  destruct (decide (BlockChanges.revert a ≠ BlockChanges.revert b)); [done|].
  destruct (Z.ltb_spec j i) as [Hji|Hji]; [|destruct (Z.ltb_spec i j) as [Hij|Hij]; [|done]];
  intros [= <-]; exists i, j; split_and!; try done; try tauto; try (by apply dec_stable).
Qed.

Lemma merge_partial_ok_intro a b i j :
  BlockChanges.partial_block_index a = Some i → BlockChanges.partial_block_index b = Some j →
  BlockChanges.extractor a = BlockChanges.extractor b →
  BlockChanges.chain a = BlockChanges.chain b →
  Block.number (BlockChanges.block a) = Block.number (BlockChanges.block b) →
  BlockChanges.revert a = BlockChanges.revert b →
  BlockChanges.merge_partial a b =
    if (j <? i)%Z then Ok (BlockChanges.merge_ordered a b)
    else if (i <? j)%Z then Ok (BlockChanges.merge_ordered b a)
    else Err (InvalidState "same partial block index").
Proof.
  intros Hi Hj H1 H2 H3 H4. unfold BlockChanges.merge_partial. rewrite Hi, Hj.
  destruct (decide (BlockChanges.extractor a ≠ _)); [congruence|].
  destruct (decide (BlockChanges.chain a ≠ _)); [congruence|].
  destruct (decide (Block.number _ ≠ _)); [congruence|].
  destruct (decide (BlockChanges.revert a ≠ _)); [congruence|]. done.
Qed.

Lemma merge_partial_flip a b r :
  BlockChanges.merge_partial a b = Ok r → BlockChanges.merge_partial b a = Ok r.
Proof.
  intros (i & j & Hi & Hj & H1 & H2 & H3 & H4 & Hr)%merge_partial_Ok.
  rewrite (merge_partial_ok_intro b a j i) by done.
  destruct Hr as [[Hlt ->]|[Hlt ->]].
  - rewrite (proj2 (Z.ltb_ge i j)) by lia. by rewrite (proj2 (Z.ltb_lt j i)).
  - by rewrite (proj2 (Z.ltb_lt i j)).
Qed.

Lemma set_tx_block_hash_keyed h x : keyed_tx x → keyed_tx (BlockChanges.set_tx_block_hash h x).
Proof. done. Qed.

(** The transactions of a merged pair of partial blocks can be aggregated. *)
Lemma merge_ordered_mergeable c p :
  mergeable (BlockChanges.txs_with_update (BlockChanges.merge_ordered c p)).
Proof.
  unfold BlockChanges.merge_ordered, BlockChanges.normalize_block_hash; simpl. split.
  - exists (Block.hash (BlockChanges.block c)). apply Forall_fmap, Forall_true. done.
  - unfold BlockChanges.sort_txs.
    pose proof (sort_by_key_sorted BlockChanges.tx_index
      (BlockChanges.txs_with_update c ++ BlockChanges.txs_with_update p)) as Hs.
    induction Hs as [|x l Hs IH Hx]; simpl; constructor; [done|].
    apply Forall_fmap. eapply Forall_impl; [exact Hx|]. done.
Qed.

Lemma into_aggregated_succeeds b h :
  Forall keyed_tx (BlockChanges.txs_with_update b) →
  mergeable (BlockChanges.txs_with_update b) →
  (∀ x, h = Some x → (x ≤ BlockChanges.finalized_block_height b)%Z) →
  ∃ agg, BlockChanges.into_aggregated b h = Ok agg.
Proof.
  intros Hk Hm Hh. unfold BlockChanges.into_aggregated.
  assert ((match h with Some h => (BlockChanges.finalized_block_height b <? h)%Z | None => false end)
    = false) as ->.
  { destruct h as [x|]; [|done]. apply Z.ltb_ge. by apply Hh. }
  destruct (BlockChanges.txs_with_update b) as [|x l]; simpl; [eauto|].
  destruct (try_fold_merge_succeeds x l) as [r ->]; [done|done|]. simpl. eauto.
Qed.

(** * Properties *)

(** Merging two state deltas and applying the merged delta once gives the state, and
    the error, of applying the two deltas one after the other; merge is the composition
    of deltas. *)
Theorem state_delta_merge_apply (d1 d2 d12 : ProtocolComponentStateDelta.t)
    (s : ProtocolComponentState.t) :
  ProtocolComponentStateDelta.merge d2 d1 = (Ok tt, d12) →
  (ProtocolComponentState.apply_state_delta d1 ;? ProtocolComponentState.apply_state_delta d2) s =
    ProtocolComponentState.apply_state_delta d12 s.
Proof. apply state_delta_merge_apply_lemma. Qed.

(** The same for account deltas of one chain: storage, balance and code of an account
    after the merged delta are those after both deltas. *)
Theorem account_delta_merge_apply (d1 d2 d12 : AccountDelta.t) (a : Account.t) :
  AccountDelta.chain d1 = AccountDelta.chain d2 →
  AccountDelta.merge d2 d1 = (Ok tt, d12) →
  (Account.apply_delta d1 ;? Account.apply_delta d2) a = Account.apply_delta d12 a.
Proof. apply account_delta_merge_apply_lemma. Qed.

(** C5. The aggregated message of a block refines its transactions: applied to any
    component state and to any account it has the effect of all transactions in order. *)
Theorem aggregated_refines_transactions (b : BlockChanges.t) (h : option Z)
    (agg : BlockAggregatedChanges.t) (s : ProtocolComponentState.t) (a : Account.t) :
  Forall keyed_tx (BlockChanges.txs_with_update b) →
  BlockChanges.into_aggregated b h = Ok agg →
  native_effect (BlockAggregatedChanges.state_deltas agg)
      (BlockAggregatedChanges.component_balances agg) s =
    foldl (fun s x => native_effect (TxWithChanges.state_updates x)
                        (TxWithChanges.balance_changes x) s)
      s (BlockChanges.txs_with_update b) ∧
  account_effect (BlockAggregatedChanges.account_deltas agg)
      (BlockAggregatedChanges.account_balances agg) a =
    foldl (fun a x => account_effect (TxWithChanges.account_deltas x)
                        (TxWithChanges.account_balance_changes x) a)
      a (BlockChanges.txs_with_update b).
Proof.
  intros Hk (r & Hr & -> & -> & -> & -> & _)%into_aggregated_Ok.
  destruct (BlockChanges.txs_with_update b) as [|x l].
  - subst r. split; [apply native_effect_empty|apply account_effect_empty].
  - by apply try_fold_merge_effects.
Qed.

(** Merging partial blocks does not depend on which one is the receiver: either order
    gives the same block. *)
Theorem merge_partial_symmetric (a b r : BlockChanges.t) :
  BlockChanges.merge_partial a b = Ok r ↔ BlockChanges.merge_partial b a = Ok r.
Proof. split; apply merge_partial_flip. Qed.

(** A merged pair of partial blocks holds every transaction of both, ordered by index
    and relabelled with the final block hash, and can always be aggregated. *)
Theorem merge_partial_aggregates (a b r : BlockChanges.t) :
  Forall keyed_tx (BlockChanges.txs_with_update a) →
  Forall keyed_tx (BlockChanges.txs_with_update b) →
  BlockChanges.merge_partial a b = Ok r →
  BlockChanges.txs_with_update r ≡ₚ
    BlockChanges.set_tx_block_hash (Block.hash (BlockChanges.block r)) <$>
      (BlockChanges.txs_with_update a ++ BlockChanges.txs_with_update b) ∧
  StronglySorted (fun x y => (BlockChanges.tx_index x ≤ BlockChanges.tx_index y)%Z)
    (BlockChanges.txs_with_update r) ∧
  ∃ agg, BlockChanges.into_aggregated r None = Ok agg.
Proof.
  intros Ha Hb (i & j & _ & _ & _ & _ & _ & _ & Hr)%merge_partial_Ok.
  assert (∃ c p, r = BlockChanges.merge_ordered c p ∧
    Forall keyed_tx (BlockChanges.txs_with_update c ++ BlockChanges.txs_with_update p) ∧
    BlockChanges.txs_with_update c ++ BlockChanges.txs_with_update p ≡ₚ
    BlockChanges.txs_with_update a ++ BlockChanges.txs_with_update b) as (c & p & -> & Hk & Hp).
  { destruct Hr as [[_ ->]|[_ ->]]; [exists a, b|exists b, a]; split_and!; try done;
      [by apply Forall_app|by apply Forall_app|apply Permutation_app_comm]. }
  pose proof (merge_ordered_mergeable c p) as Hm. split_and!.
  - simpl. rewrite <-Hp. apply fmap_Permutation, sort_by_key_perm.
  - apply Hm.
  - apply into_aggregated_succeeds; [|done|done]. simpl. apply Forall_fmap.
    unfold BlockChanges.sort_txs. rewrite sort_by_key_perm.
    eapply Forall_impl; [exact Hk|]. intros x. apply set_tx_block_hash_keyed.
Qed.

(** * Witnesses *)

Module DeltaExamples.
Definition addr : Bytes := [x01].
Definition block1 : Block.t := Block.mk 7 Ethereum [xaa] [xbb] 0.
Definition d1 : ProtocolComponentStateDelta.t :=
  ProtocolComponentStateDelta.new "pool" {["fee" := [x01]]} {["tick"]}.
Definition d2 : ProtocolComponentStateDelta.t :=
  ProtocolComponentStateDelta.new "pool" {["tick" := [x05]]} {["fee"]}.
Definition a1 : AccountDelta.t :=
  AccountDelta.mk Ethereum addr {[ [x00] := Some [x01] ]} (Some [x09]) None Update.
Definition a2 : AccountDelta.t :=
  AccountDelta.mk Ethereum addr {[ [x00] := None ]} None (Some [x60]) Update.
Definition state0 : ProtocolComponentState.t :=
  ProtocolComponentState.new "pool" {["fee" := [x00]]} ∅.
Definition account0 : Account.t :=
  Account.mk Ethereum addr "" ∅ [] ∅ [] [] [] [] None.
Definition tx_at (i : Z) (d : ProtocolComponentStateDelta.t) (a : AccountDelta.t) : TxWithChanges.t :=
  TxWithChanges.mk (Transaction.mk [xcc] [xaa] [] None i) ∅ {[addr := a]} {["pool" := d]} ∅ ∅ ∅ ∅.
Definition partial_at (i : Z) (txs : list TxWithChanges.t) : BlockChanges.t :=
  BlockChanges.set_partial_block_index (Some i)
    (BlockChanges.new "uniswap" Ethereum block1 5 false txs []).
Definition p0 : BlockChanges.t := partial_at 0 [tx_at 1 d1 a1].
Definition p1 : BlockChanges.t := partial_at 1 [tx_at 2 d2 a2].
Definition b12 : BlockChanges.t :=
  BlockChanges.new "uniswap" Ethereum block1 5 false [tx_at 1 d1 a1; tx_at 2 d2 a2] [].

Lemma keyed_example i d a :
  ProtocolComponentStateDelta.component_id d = "pool" → AccountDelta.address a = addr →
  keyed_tx (tx_at i d a).
Proof.
  intros Hd Ha. split; intros k v; simpl; rewrite lookup_singleton_Some; by intros [<- <-].
Qed.
End DeltaExamples.

Import DeltaExamples.

Lemma state_delta_merge_apply_witness :
  (ProtocolComponentState.apply_state_delta d1 ;? ProtocolComponentState.apply_state_delta d2) state0 =
    ProtocolComponentState.apply_state_delta (ProtocolComponentStateDelta.merge d2 d1).2 state0.
Proof. apply state_delta_merge_apply. vm_compute. reflexivity. Defined.

Lemma account_delta_merge_apply_witness :
  (Account.apply_delta a1 ;? Account.apply_delta a2) account0 =
    Account.apply_delta (AccountDelta.merge a2 a1).2 account0.
Proof. apply account_delta_merge_apply; vm_compute; reflexivity. Defined.

Lemma aggregated_refines_transactions_witness : ∃ agg,
  BlockChanges.into_aggregated b12 (Some 5%Z) = Ok agg ∧
  native_effect (BlockAggregatedChanges.state_deltas agg)
    (BlockAggregatedChanges.component_balances agg) state0 =
  foldl (fun s x => native_effect (TxWithChanges.state_updates x)
                      (TxWithChanges.balance_changes x) s)
    state0 (BlockChanges.txs_with_update b12).
Proof.
  eexists. split; [vm_compute; reflexivity|].
  refine (proj1 (aggregated_refines_transactions b12 (Some 5%Z) _ state0 account0 _ _)).
  - repeat constructor; apply keyed_example; reflexivity.
  - vm_compute. reflexivity.
Defined.

Lemma merge_partial_aggregates_witness : ∃ r,
  BlockChanges.merge_partial p1 p0 = Ok r ∧ ∃ agg, BlockChanges.into_aggregated r None = Ok agg.
Proof.
  eexists. split; [reflexivity|].
  refine (proj2 (proj2 (merge_partial_aggregates p1 p0 _ _ _ _))); [| |reflexivity];
  repeat constructor; apply keyed_example; reflexivity.
Defined.
