(* ===== verification/ReorgBuffer.v ===== *)
(** The reorg buffer of an extractor: [tycho_indexer::extractor::reorg_buffer], and the
    per-block lookups of [tycho_indexer::extractor::models].

    A [VecDeque] is a list, oldest block first. *)

From S2P Require Import Prelude Collections Bytes Models Blockchain.

(** * storage.rs *)

Inductive StorageError :=
| NotFound (what id : string)
| DuplicateEntry (what id : string)
| NoRelatedEntity (what related id : string)
| DecodeError (msg : string)
| Unexpected (msg : string)
| Unsupported (msg : string)
| WriteCacheGoneAway
| InvalidBlockRange.

#[global] Instance storage_error_eq_dec : EqDecision StorageError.
Proof. solve_decision. Defined.

Inductive BlockIdentifier :=
| BlockNumber (chain : Chain) (number : Z)
| BlockHashId (hash : Bytes)
| LatestBlock (chain : Chain).

Inductive BlockOrTimestamp :=
| AtBlock (id : BlockIdentifier)
| AtTimestamp (ts : Z).

(** * Versions *)

Inductive BlockNumberOrTimestamp :=
| Number (n : Z)
| Timestamp (ts : Z).

Definition greater_than (self : BlockNumberOrTimestamp) (other : Block.t) : bool :=
  match self with
  | Number n => (Block.number other <? n)%Z
  | Timestamp ts => (Block.ts other <? ts)%Z
  end.

(** [no as u64] reinterprets a negative [i64]. *)
Definition version_try_from (value : BlockOrTimestamp) : result StorageError BlockNumberOrTimestamp :=
  match value with
  | AtBlock (BlockNumber _ no) => Ok (Number (wrap 64 no))
  | AtBlock (BlockHashId _) => Err (Unexpected "BlockHash unsupported!")
  | AtBlock (LatestBlock _) => Err (Unexpected "Latest marker unsupported!")
  | AtTimestamp ts => Ok (Timestamp ts)
  end.

Inductive CommitStatus := Committed | Uncommitted | Unseen.

(** [trait StateUpdateBufferEntry] *)
Class StateUpdateBufferEntry (B : Type) := {
  get_filtered_protocol_state_update :
    B → list (string * string) → gmap (string * string) Bytes;
  get_filtered_account_state_update :
    B → list (Bytes * Bytes) → gmap (Bytes * Bytes) Bytes;
  get_filtered_component_balance_update :
    B → list (string * Bytes) → gmap (string * Bytes) ComponentBalance.t;
  get_filtered_account_balance_update :
    B → list (Bytes * Bytes) → gmap (Bytes * Bytes) AccountBalance.t
}.

Module ReorgBuffer.
Section buffer.
Context {B : Type} `{BlockScoped B}.

Record t := mk { block_messages : list B; strict : bool }.

Definition new : t := mk [] false.

Definition set_messages (l : list B) (self : t) : t := mk l (strict self).

Definition insert_block (new : B) : stm t StorageError unit := fun self =>
  match last (block_messages self) with
  | Some last_message =>
      if decide (Block.hash (block last_message) ≠ Block.parent_hash (block new))
      then (Err (Unexpected "Unexpected block sequence"), self)
      else (Ok tt, set_messages (block_messages self ++ [new]) self)
  | None => (Ok tt, set_messages (block_messages self ++ [new]) self)
  end.

Definition find_index (predicate : B → bool) (self : t) : option nat :=
  position predicate (block_messages self).

(** [VecDeque::range(start..end)] panics outside the buffer. *)
Definition range (start end_ : nat) (self : t) : result StorageError (list B) :=
  if (start <=? end_) && (end_ <=? length (block_messages self))
  then Ok (take (end_ - start) (drop start (block_messages self)))
  else Panic.

Definition get_block_range (start_version end_version : option BlockNumberOrTimestamp) (self : t) :
    result StorageError (list B) :=
  start_index ←
    match start_version with
    | Some version =>
        ok_or (find_index (fun b => negb (greater_than version (block b))) self)
          (NotFound "Block" "version")
    | None => Ok 0
    end;
  match end_version with
  | Some version =>
      if match last (block_messages self), version with
         | Some lst, Timestamp ts => (Block.ts (block lst) <? ts)%Z
         | _, _ => false
         end
      then range start_index (length (block_messages self)) self
      else
        end_idx ← ok_or (find_index (fun b => negb (greater_than version (block b))) self)
                    (NotFound "Block" "version");
        if end_idx <? start_index
        then Err (Unexpected "ReorgBuffer: Invalid block range")
        else range start_index (end_idx + 1) self
  | None => range start_index (length (block_messages self)) self
  end.

Definition drain_blocks_until (drain_upto_block_height : Z) : stm t StorageError (list B) :=
  fun self =>
  let target_index :=
    find_index (fun b => bool_decide (Block.number (block b) = drain_upto_block_height)) self in
  match get_block_range None None self with
  | Err e => (Err e, self)
  | Panic => (Panic, self)
  | Ok l =>
      let first := (fun e => Block.number (block e)) <$> head l in
      match target_index with
      | Some idx =>
          (Ok (take idx (block_messages self)), set_messages (drop idx (block_messages self)) self)
      | None =>
          if negb (strict self) && (default 0 first <? drain_upto_block_height)%Z
          then (Ok [], self)
          else (Err (NotFound "block" "height"), self)
      end
  end.

(** The scan runs from the newest block; [idx] blocks are kept. *)
Definition purge (target_hash : Bytes) : stm t StorageError (list B) := fun self =>
  let target_index :=
    (fun index => length (block_messages self) - index) <$>
      position (fun b => bool_decide (Block.hash (block b) = target_hash))
        (reverse (block_messages self)) in
  match target_index with
  | Some idx =>
      (Ok (drop idx (block_messages self)), set_messages (take idx (block_messages self)) self)
  | None => (Err (NotFound "block" "hash"), self)
  end.

Definition get_most_recent_block (self : t) : option Block.t :=
  block <$> last (block_messages self).

Definition count_blocks_before (target_block : Z) (self : t) : nat :=
  length (take_while (fun b => (Block.number (block b) <? target_block)%Z) (block_messages self)).

Definition get_commit_status (version : BlockNumberOrTimestamp) (self : t) : option CommitStatus :=
  match head (block_messages self), last (block_messages self) with
  | Some first, Some lst =>
      if negb (greater_than version (block first)) then Some Committed
      else if greater_than version (block first) && negb (greater_than version (block lst))
      then Some Uncommitted
      else Some Unseen
  | _, _ => None
  end.

(** ** Lookups of buffered values *)

Section lookups.
Context {K V : Type} `{Countable K}.

(** [for (key, val) in found { if remaining_keys.remove(&key) { res.insert(key, val); } }] *)
Definition lookup_block (acc : gmap K V * gset K) (found : gmap K V) : gmap K V * gset K :=
  foldl (fun '(res, remaining) '(k, v) =>
    if decide (k ∈ remaining) then (<[k := v]> res, remaining ∖ {[k]}) else (res, remaining))
    acc (map_to_list found).

(** The loop over the blocks, newest first, that stops once every key is found. *)
Fixpoint lookup_blocks (filtered : B → gset K → gmap K V) (acc : gmap K V * gset K) (l : list B) :
    gmap K V * gset K :=
  match l with
  | [] => acc
  | b :: l' =>
      if decide (acc.2 = ∅) then acc
      else lookup_blocks filtered (lookup_block acc (filtered b acc.2)) l'
  end.
End lookups.

Context `{!StateUpdateBufferEntry B}.

Definition lookup_protocol_state (keys : list (string * string)) (self : t) :
    gmap (string * string) Bytes * gset (string * string) :=
  lookup_blocks (fun b remaining => get_filtered_protocol_state_update b (elements remaining))
    (∅, list_to_set keys) (reverse (block_messages self)).

Definition lookup_account_state (keys : list (Bytes * Bytes)) (self : t) :
    gmap (Bytes * Bytes) Bytes * gset (Bytes * Bytes) :=
  lookup_blocks (fun b remaining => get_filtered_account_state_update b (elements remaining))
    (∅, list_to_set keys) (reverse (block_messages self)).

(** [results.entry(id).or_default().insert(token, val)] for every pair found. *)
Definition nest {A A' V} `{Countable A, Countable A'} (res : gmap (A * A') V) : gmap A (gmap A' V) :=
  foldl (fun results '((a, a'), v) =>
    <[a := <[a' := v]> (default ∅ (results !! a))]> results) ∅ (map_to_list res).

Definition lookup_component_balances (keys : list (string * Bytes)) (self : t) :
    gmap string (gmap Bytes ComponentBalance.t) * gset (string * Bytes) :=
  let '(res, remaining) :=
    lookup_blocks (fun b _ => get_filtered_component_balance_update b keys)
      (∅, list_to_set keys) (reverse (block_messages self)) in
  (nest res, remaining).

Definition lookup_account_balances (keys : list (Bytes * Bytes)) (self : t) :
    gmap Bytes (gmap Bytes AccountBalance.t) * gset (Bytes * Bytes) :=
  let '(res, remaining) :=
    lookup_blocks (fun b _ => get_filtered_account_balance_update b keys)
      (∅, list_to_set keys) (reverse (block_messages self)) in
  (nest res, remaining).

End buffer.
Arguments t : clear implicits.
Arguments mk {B} _ _.
End ReorgBuffer.

(** * extractor/models.rs *)

(** [for (b, v) in inner.iter().filter(|b| keys.contains(a, b)) { res.entry((a, b)).or_insert(v); }] *)
Definition filter_inner {A A' V} `{Countable A, Countable A'} (keys : gset (A * A')) (a : A)
    (res : gmap (A * A') V) (inner : gmap A' V) : gmap (A * A') V :=
  foldl (fun res '(a', v) =>
    if decide ((a, a') ∈ keys) then
      match res !! (a, a') with Some _ => res | None => <[(a, a') := v]> res end
    else res) res (map_to_list inner).

(** The triple loop of the four [get_filtered_*] methods, over the transactions newest
    first. *)
Definition filtered_updates {A A' V} `{Countable A, Countable A'} (keys : gset (A * A'))
    (updates : list (gmap A (gmap A' V))) : gmap (A * A') V :=
  foldl (fun res m => foldl (fun res '(a, inner) => filter_inner keys a res inner) res (map_to_list m))
    ∅ (reverse updates).

#[global] Instance block_changes_entry : StateUpdateBufferEntry BlockChanges.t := {
  get_filtered_protocol_state_update b keys :=
    filtered_updates (list_to_set keys)
      ((fun x => ProtocolComponentStateDelta.updated_attributes <$> TxWithChanges.state_updates x)
         <$> BlockChanges.txs_with_update b);
  get_filtered_account_state_update b keys :=
    filtered_updates (list_to_set keys)
      ((fun x => (fun d => written_slots (AccountDelta.slots d)) <$> TxWithChanges.account_deltas x)
         <$> BlockChanges.txs_with_update b);
  get_filtered_component_balance_update b keys :=
    filtered_updates (list_to_set keys)
      (TxWithChanges.balance_changes <$> BlockChanges.txs_with_update b);
  get_filtered_account_balance_update b keys :=
    filtered_updates (list_to_set keys)
      (TxWithChanges.account_balance_changes <$> BlockChanges.txs_with_update b)
}.

(** One arm of [insert_state_attribute_update] and [insert_state_attribute_deletion]: merge
    [delta] into the transaction's entry of the component. *)
Definition add_state_delta (component_id : string) (delta : ProtocolComponentStateDelta.t) :
    stm TxWithChanges.t MergeError unit :=
  on_field TxWithChanges.state_updates TxWithChanges.set_state_updates
    (entry_merge ProtocolComponentStateDelta.merge (component_id, delta)).

(** [txs.iter_mut().find(|t| t.tx.hash == tx.hash)], then the update, else a new entry. *)
Fixpoint update_tx (component_id : string) (tx : Transaction.t) (delta : ProtocolComponentStateDelta.t)
    (before txs : list TxWithChanges.t) : result MergeError unit * list TxWithChanges.t :=
  match txs with
  | [] =>
      (Ok tt, before ++ [TxWithChanges.mk tx ∅ ∅ {[component_id := delta]} ∅ ∅ ∅ ∅])
  | x :: txs' =>
      if decide (Transaction.hash (TxWithChanges.tx x) = Transaction.hash tx) then
        let '(r, x') := add_state_delta component_id delta x in (r, before ++ x' :: txs')
      else update_tx component_id tx delta (before ++ [x]) txs'
  end.

Definition insert_state_attribute_update (component_id : string) (tx : Transaction.t)
    (attr : string) (val : Bytes) : stm (list TxWithChanges.t) MergeError unit := fun txs =>
  update_tx component_id tx
    (ProtocolComponentStateDelta.new component_id {[attr := val]} ∅) [] txs.

Definition insert_state_attribute_deletion (component_id : string) (tx : Transaction.t)
    (attr : string) : stm (list TxWithChanges.t) MergeError unit := fun txs =>
  update_tx component_id tx
    (ProtocolComponentStateDelta.new component_id ∅ {[attr]}) [] txs.
