(* ===== verification/ReorgBufferSpec.v ===== *)
(** What the reorg buffer guarantees.

    The buffer always holds a connected chain of blocks; draining and purging cut it in
    two without losing a block; a revert to the tip it had undoes the insertions since;
    lookups return the newest buffered value of a key.  The lookups are proved against the
    interface [UpdateEntryLaws] of a buffer entry, which [BlockChanges] implements. *)

From Stdlib Require Import Strings.Byte.
From S2P Require Import Prelude Collections Bytes Models Blockchain ReorgBuffer.

Import ReorgBuffer.

Section buffer_facts.
Context {B : Type} `{BlockScoped B}.
Implicit Types (s : ReorgBuffer.t B) (l : list B).

(** ** Chained blocks *)

Definition chained l : Prop :=
  adjacent (fun a b => Block.hash (block a) = Block.parent_hash (block b)) l.

Lemma chained_nil : chained [].
Proof. apply adjacent_nil. Qed.

Lemma chained_snoc l b :
  chained l → (∀ a, last l = Some a → Block.hash (block a) = Block.parent_hash (block b)) →
  chained (l ++ [b]).
Proof. apply (adjacent_snoc (fun a b => Block.hash (block a) = Block.parent_hash (block b))). Qed.

Lemma chained_take n l : chained l → chained (take n l).
Proof. apply adjacent_take. Qed.

Lemma chained_drop n l : chained l → chained (drop n l).
Proof. apply adjacent_drop. Qed.

(** ** Operations *)

Lemma get_block_range_all s : get_block_range None None s = Ok (block_messages s).
Proof.
  unfold get_block_range, range. simpl. rewrite Nat.leb_refl. f_equal.
  rewrite drop_0, Nat.sub_0_r. by rewrite take_ge.
Qed.

Lemma insert_block_Ok b s s' :
  insert_block b s = (Ok tt, s') →
  block_messages s' = block_messages s ++ [b] ∧ strict s' = strict s ∧
  ∀ a, last (block_messages s) = Some a → Block.hash (block a) = Block.parent_hash (block b).
Proof.
  unfold insert_block. destruct (last (block_messages s)) as [a|] eqn:El.
  - case_decide as Hd; [done|]. intros [= <-]. split_and!; [done|done|]. intros ? [= <-].
    done.
  - intros [= <-]. done.
Qed.

Lemma insert_block_Err b s e s' : insert_block b s = (Err e, s') → s' = s.
Proof.
  unfold insert_block. destruct (last _); [case_decide|]; by intros [= _ <-] || intros [=].
Qed.

Lemma drain_split h s l s' :
  drain_blocks_until h s = (Ok l, s') →
  block_messages s = l ++ block_messages s' ∧ strict s' = strict s ∧
  (l = [] ∨ ∃ b, head (block_messages s') = Some b ∧ Block.number (block b) = h) ∧
  Forall (fun b => Block.number (block b) ≠ h) l.
Proof.
  unfold drain_blocks_until. rewrite get_block_range_all. unfold find_index.
  destruct (position _ (block_messages s)) as [idx|] eqn:Ep.
  - intros [= <- <-]; simpl. rewrite take_drop. apply position_spec in Ep as [(b & Hb & Hh) Hbefore].
    split_and!; [done|done| |].
    + right. exists b. split; [by rewrite head_lookup, lookup_drop, Nat.add_0_r|].
      by apply bool_decide_eq_true in Hh.
    + apply Forall_lookup. intros i x [Hx Hi]%lookup_take_Some.
      specialize (Hbefore i x Hi Hx). by apply bool_decide_eq_false in Hbefore.
  - case_if; [|done]. intros [= <- <-]. split_and!; [done|done|by left|done].
Qed.

Lemma drain_error_unchanged h s e s' : drain_blocks_until h s = (Err e, s') → s' = s.
Proof.
  unfold drain_blocks_until. rewrite get_block_range_all.
  destruct (find_index _ _); [done|]. case_if; [done|]. by intros [= _ <-].
Qed.

Lemma position_reverse_last {A} (p : A → bool) (l : list A) idx :
  position p (reverse l) = Some idx →
  ∃ a, idx < length l ∧ l !! (length l - S idx) = Some a ∧ p a = true ∧
  ∀ j b, length l - idx ≤ j → l !! j = Some b → p b = false.
Proof.
  intros Hp. pose proof (position_lt _ _ _ Hp) as Hlt. rewrite length_reverse in Hlt.
  apply position_spec in Hp as [(a & Ha & Hpa) Hb].
  rewrite reverse_lookup in Ha by done. exists a. split_and!; [done|done|done|].
  intros j b Hj Hjb. pose proof (lookup_lt_Some _ _ _ Hjb).
  apply (Hb (length l - S j)); [lia|]. rewrite reverse_lookup by lia.
  by replace (length l - S (length l - S j)) with j by lia.
Qed.

Lemma purge_split target s l s' :
  purge target s = (Ok l, s') →
  block_messages s = block_messages s' ++ l ∧ strict s' = strict s ∧
  (∃ b, last (block_messages s') = Some b ∧ Block.hash (block b) = target) ∧
  Forall (fun b => Block.hash (block b) ≠ target) l.
Proof.
  unfold purge. destruct (position _ (reverse (block_messages s))) as [idx|] eqn:Ep; simpl; [|done].
  intros [= <- <-]; simpl. apply position_reverse_last in Ep as (b & Hlt & Hb & Hpb & Hafter).
  apply bool_decide_eq_true in Hpb. rewrite take_drop. split_and!; [done|done| |].
  - exists b. split; [|done]. rewrite last_lookup, length_take.
    replace (pred _) with (length (block_messages s) - S idx) by lia.
    rewrite lookup_take_lt by lia. done.
  - apply Forall_lookup. intros i x Hx. rewrite lookup_drop in Hx.
    specialize (Hafter (length (block_messages s) - idx + i) x ltac:(lia) Hx).
    by apply bool_decide_eq_false in Hafter.
Qed.

Lemma purge_absent target s :
  (∀ b, b ∈ block_messages s → Block.hash (block b) ≠ target) →
  purge target s = (Err (NotFound "block" "hash"), s).
Proof.
  intros Hn. unfold purge. destruct (position _ _) as [idx|] eqn:Ep; [|done].
  apply position_reverse_last in Ep as (b & _ & Hb & Hp & _).
  apply bool_decide_eq_true in Hp. apply list_elem_of_lookup_2 in Hb. by destruct (Hn b Hb).
Qed.

Lemma purge_error_unchanged target s e s' : purge target s = (Err e, s') → s' = s.
Proof. unfold purge. destruct (_ <$> _); [done|]. by intros [= _ <-]. Qed.

(** ** Reachable buffers *)

Inductive step : ReorgBuffer.t B → ReorgBuffer.t B → Prop :=
| step_insert b s r s' : insert_block b s = (r, s') → step s s'
| step_drain h s r s' : drain_blocks_until h s = (r, s') → step s s'
| step_purge target s r s' : purge target s = (r, s') → step s s'.

Definition reachable : ReorgBuffer.t B → Prop := rtc step new.

Lemma step_chained s s' : step s s' → chained (block_messages s) → chained (block_messages s').
Proof.
  intros Hs Hc. destruct Hs as [b s [[]|e|] s' Hi|h s [l|e|] s' Hd|tg s [l|e|] s' Hp].
  - apply insert_block_Ok in Hi as (-> & _ & Hlast). by apply chained_snoc.
  - by apply insert_block_Err in Hi as ->.
  - unfold insert_block in Hi. destruct (last _); [case_decide|]; done.
  - apply drain_split in Hd as (Heq & _).
    apply (chained_drop (length l)) in Hc. by rewrite Heq, drop_app_length in Hc.
  - by apply drain_error_unchanged in Hd as ->.
  - unfold drain_blocks_until in Hd. rewrite get_block_range_all in Hd.
    destruct (find_index _ _); [done|]. case_if; done.
  - apply purge_split in Hp as (Heq & _).
    apply (chained_take (length (block_messages s'))) in Hc. by rewrite Heq, take_app_length in Hc.
  - by apply purge_error_unchanged in Hp as ->.
  - unfold purge in Hp. destruct (_ <$> _); done.
Qed.

(** Inserting a list of blocks in order. *)
Definition insert_all (bs : list B) : stm (ReorgBuffer.t B) StorageError unit :=
  for_each insert_block bs.

Lemma insert_all_Ok bs s s' :
  insert_all bs s = (Ok tt, s') →
  block_messages s' = block_messages s ++ bs ∧ strict s' = strict s.
Proof.
  revert s; induction bs as [|b bs IH]; intros s; unfold insert_all; simpl.
  { intros [= <-]. by rewrite app_nil_r. }
  unfold st_bind. destruct (insert_block b s) as [[[]|e|] s1] eqn:Hi; try done.
  intros [-> ->]%IH. apply insert_block_Ok in Hi as (-> & -> & _). by rewrite <-app_assoc.
Qed.

Lemma purge_to_tip bs s s' tip :
  last (block_messages s) = Some tip →
  Forall (fun b => Block.hash (block b) ≠ Block.hash (block tip)) bs →
  block_messages s' = block_messages s ++ bs → strict s' = strict s →
  purge (Block.hash (block tip)) s' = (Ok bs, s).
Proof.
  intros Htip Hbs Hm Hst.
  destruct (purge (Block.hash (block tip)) s') as [[l|e|] s''] eqn:Hp.
  - apply purge_split in Hp as (Heq & Hst' & (b & Hb & Hbt) & Hl).
    rewrite Hm in Heq.
    assert (l = bs ∧ block_messages s'' = block_messages s) as [-> Hs''].
    { apply last_Some in Htip as (l0 & Htip). apply last_Some in Hb as (l1 & Hb).
      rewrite Htip, Hb in Heq. rewrite <-!app_assoc in Heq. simpl in Heq.
      apply app_eq_inv in Heq as [(k & E1 & E2)|(k & E1 & E2)].
      - destruct k as [|x k]; simpl in *.
        + injection E2 as E2 E3. subst. by rewrite Htip, Hb, app_nil_r.
        + exfalso. injection E2 as -> E2. rewrite Forall_forall in Hl.
          apply (Hl tip); [|done]. subst l. clear. set_solver.
      - destruct k as [|x k]; simpl in *.
        + injection E2 as E2 E3. subst. by rewrite Htip, Hb, app_nil_r.
        + exfalso. injection E2 as -> E2. rewrite Forall_forall in Hbs.
          apply (Hbs b); [|done]. subst bs. clear. set_solver. }
    do 2 f_equal. destruct s, s''; simpl in *. congruence.
  - exfalso. unfold purge in Hp. destruct (position _ _) as [idx|] eqn:Ep; [done|].
    rewrite position_None in Ep. assert (tip ∈ reverse (block_messages s')) as Ht.
    { rewrite elem_of_reverse, Hm. apply elem_of_app. left. by apply last_Some_elem_of. }
    apply Ep in Ht. by rewrite bool_decide_true in Ht.
  - unfold purge in Hp. destruct (_ <$> _); done.
Qed.

Lemma purge_after_insert_all bs s s' tip :
  last (block_messages s) = Some tip →
  Forall (fun b => Block.hash (block b) ≠ Block.hash (block tip)) bs →
  insert_all bs s = (Ok tt, s') →
  purge (Block.hash (block tip)) s' = (Ok bs, s).
Proof. intros Htip Hbs [Hm Hst]%insert_all_Ok. by apply purge_to_tip. Qed.

End buffer_facts.

(** * Lookups *)

(** The first value found in a list of sources, newest source first. *)
Fixpoint newest {B K V} (get : B → K → option V) (l : list B) (k : K) : option V :=
  match l with
  | [] => None
  | b :: l' => match get b k with Some v => Some v | None => newest get l' k end
  end.

Section lookup_facts.
Context {B K V : Type} `{Countable K}.
Implicit Types (res : gmap K V) (remaining : gset K).

Lemma lookup_block_fold (l : list (K * V)) res remaining :
  NoDup l.*1 →
  let r := foldl (fun '(res, remaining) '(k, v) =>
    if decide (k ∈ remaining) then (<[k := v]> res, remaining ∖ {[k]}) else (res, remaining))
    (res, remaining) l in
  (∀ k, r.1 !! k = if decide (k ∈ remaining)
                   then match (list_to_map l : gmap K V) !! k with Some v => Some v | None => res !! k end
                   else res !! k) ∧
  (∀ k, k ∈ r.2 ↔ k ∈ remaining ∧ (list_to_map l : gmap K V) !! k = None).
Proof.
  revert res remaining; induction l as [|[k0 v0] l IH]; intros res remaining Hnd; simpl.
  { split; intros k; rewrite lookup_empty; [by case_decide|tauto]. }
  apply NoDup_cons in Hnd as [Hk0 Hnd]. simpl in Hk0.
  assert ((list_to_map l : gmap K V) !! k0 = None) as Hl0 by by apply not_elem_of_list_to_map_1.
  destruct (decide (k0 ∈ remaining)) as [Hin|Hin].
  - destruct (IH (<[k0:=v0]> res) (remaining ∖ {[k0]}) Hnd) as [IH1 IH2]. split; intros k.
    + rewrite IH1. destruct (decide (k = k0)) as [->|Hne].
      * rewrite decide_False by set_solver. rewrite decide_True by done.
        by rewrite !lookup_insert_eq.
      * rewrite !lookup_insert_ne by done. repeat case_decide; set_solver.
    + rewrite IH2. destruct (decide (k = k0)) as [->|Hne].
      * rewrite lookup_insert_eq. set_solver.
      * rewrite lookup_insert_ne by done. set_solver.
  - destruct (IH res remaining Hnd) as [IH1 IH2]. split; intros k.
    + rewrite IH1. destruct (decide (k = k0)) as [->|Hne]; [by rewrite !decide_False|].
      by rewrite lookup_insert_ne.
    + rewrite IH2. destruct (decide (k = k0)) as [->|Hne].
      * rewrite lookup_insert_eq. tauto.
      * by rewrite lookup_insert_ne.
Qed.

Lemma lookup_block_spec res remaining (found : gmap K V) :
  (∀ k, (lookup_block (res, remaining) found).1 !! k =
     if decide (k ∈ remaining)
     then match found !! k with Some v => Some v | None => res !! k end else res !! k) ∧
  (∀ k, k ∈ (lookup_block (res, remaining) found).2 ↔ k ∈ remaining ∧ found !! k = None).
Proof.
  pose proof (lookup_block_fold (map_to_list found) res remaining (NoDup_fst_map_to_list found))
    as [H1 H2]. rewrite list_to_map_to_list in H1, H2. done.
Qed.

(** The block loop computes [newest] for every key asked for, and leaves the keys without
    a value. *)
Lemma lookup_blocks_spec (filtered : B → gset K → gmap K V) (get : B → K → option V) l res remaining :
  (∀ b rem k, k ∈ rem → rem ⊆ remaining → filtered b rem !! k = get b k) →
  (∀ k, k ∈ remaining → res !! k = None) →
  (∀ k, (lookup_blocks filtered (res, remaining) l).1 !! k =
     if decide (k ∈ remaining) then newest get l k else res !! k) ∧
  (∀ k, k ∈ (lookup_blocks filtered (res, remaining) l).2 ↔ k ∈ remaining ∧ newest get l k = None).
Proof.
  revert res remaining; induction l as [|b l IH]; intros res remaining Hf Hres; simpl.
  { split; intros k; [|tauto]. case_decide; [by apply Hres|done]. }
  destruct (decide (remaining = ∅)) as [->|Hne]; simpl.
  { split; intros k; [|set_solver]. by rewrite decide_False by set_solver. }
  destruct (lookup_block_spec res remaining (filtered b remaining)) as [H1 H2].
  destruct (lookup_block (res, remaining) (filtered b remaining)) as [res' rem'] eqn:E; simpl in *.
  assert (rem' ⊆ remaining) as Hsub by (intros k Hk; apply H2 in Hk; tauto).
  destruct (IH res' rem') as [IH1 IH2].
  { intros b' rem k Hk Hrem. apply Hf; [done|]. by etrans. }
  { intros k Hk. rewrite H1. apply H2 in Hk as [Hk Hn]. rewrite decide_True, Hn by done. by apply Hres. }
  assert (∀ k, k ∈ remaining → filtered b remaining !! k = get b k) as Hfb by (intros; by apply Hf).
  split; intros k.
  - rewrite IH1. destruct (decide (k ∈ remaining)) as [Hk|Hk].
    + specialize (H2 k). rewrite Hfb in H2 by done. specialize (H1 k).
      rewrite decide_True, Hfb in H1 by done.
      destruct (get b k) as [v|] eqn:Eg.
      * rewrite decide_False; [done|]. intros Hr. apply H2 in Hr as [_ ?]. done.
      * rewrite decide_True by tauto. done.
    + rewrite decide_False by set_solver. rewrite H1. by rewrite decide_False.
  - rewrite IH2, H2. split.
    + intros [[Hk Hn] Hn']. rewrite Hfb in Hn by done. by rewrite Hn.
    + intros [Hk Hn]. rewrite Hfb by done. by destruct (get b k).
Qed.

End lookup_facts.

(** A [get_filtered_*] method returns, for each requested key, a value that does not depend
    on the other keys, and nothing else. *)
Definition filters {K V} `{Countable K} (f : list K → gmap K V) : Prop :=
  ∀ keys k, f keys !! k = if decide (k ∈ keys) then f [k] !! k else None.

(** What the buffer relies on. *)
Class UpdateEntryLaws (B : Type) `{StateUpdateBufferEntry B} := {
  protocol_state_filters : ∀ b : B, filters (get_filtered_protocol_state_update b);
  account_state_filters : ∀ b : B, filters (get_filtered_account_state_update b);
  component_balance_filters : ∀ b : B, filters (get_filtered_component_balance_update b);
  account_balance_filters : ∀ b : B, filters (get_filtered_account_balance_update b)
}.

Section filtered_facts.
Context {A A' V : Type} `{Countable A, Countable A'}.
Implicit Types (res : gmap (A * A') V) (keys : gset (A * A')).

(** The value a nested map holds for a pair. *)
Definition at_pair (m : gmap A (gmap A' V)) (k : A * A') : option V := m !! k.1 ≫= lookup k.2.

Lemma lookup_filter_inner_fold keys a (l : list (A' * V)) res x y :
  NoDup l.*1 →
  foldl (fun res '(a', v) =>
    if decide ((a, a') ∈ keys) then
      match res !! (a, a') with Some _ => res | None => <[(a, a') := v]> res end
    else res) res l !! (x, y) =
  match res !! (x, y) with
  | Some v => Some v
  | None => if decide (x = a ∧ (x, y) ∈ keys) then (list_to_map l : gmap A' V) !! y else None
  end.
Proof.
  revert res; induction l as [|[a' v] l IH]; intros res Hnd; simpl.
  { rewrite lookup_empty. destruct (res !! (x, y)); [done|]. by case_decide. }
  apply NoDup_cons in Hnd as [Ha' Hnd]. simpl in Ha'. rewrite IH by done.
  assert ((list_to_map l : gmap A' V) !! a' = None) as Hl by by apply not_elem_of_list_to_map_1.
  destruct (decide (y = a')) as [->|Hy].
  - rewrite lookup_insert_eq, Hl. destruct (decide (x = a)) as [->|Hx].
    + destruct (decide ((a, a') ∈ keys)) as [Hk|Hk].
      * destruct (res !! (a, a')) as [w|] eqn:E; [by rewrite E|].
        rewrite lookup_insert_eq. case_decide; [done|tauto].
      * rewrite !decide_False by tauto. by destruct (res !! (a, a')).
    + rewrite !(decide_False (P := x = a ∧ _)) by tauto.
      destruct (decide ((a, a') ∈ keys)); [|done].
      destruct (res !! (a, a')); [done|]. rewrite lookup_insert_ne by congruence. done.
  - rewrite lookup_insert_ne by done. destruct (decide ((a, a') ∈ keys)); [|done].
    destruct (res !! (a, a')); [done|]. by rewrite lookup_insert_ne by congruence.
Qed.

Lemma lookup_filter_map_fold keys (l : list (A * gmap A' V)) res k :
  NoDup l.*1 →
  foldl (fun res '(a, inner) => filter_inner keys a res inner) res l !! k =
  match res !! k with
  | Some v => Some v
  | None => if decide (k ∈ keys) then at_pair (list_to_map l) k else None
  end.
Proof.
  destruct k as [x y]. revert res; induction l as [|[a inner] l IH]; intros res Hnd; simpl.
  { unfold at_pair. rewrite lookup_empty. destruct (res !! (x, y)); [done|]. by case_decide. }
  apply NoDup_cons in Hnd as [Ha Hnd]. simpl in Ha. rewrite IH by done. unfold filter_inner.
  rewrite lookup_filter_inner_fold by apply NoDup_fst_map_to_list. rewrite list_to_map_to_list.
  assert ((list_to_map l : gmap A (gmap A' V)) !! a = None) as Hl by by apply not_elem_of_list_to_map_1.
  unfold at_pair; simpl. destruct (res !! (x, y)); [done|].
  destruct (decide (x = a)) as [->|Hx].
  - rewrite lookup_insert_eq, Hl. simpl. destruct (decide ((a, y) ∈ keys)) as [Hk|Hk].
    + rewrite decide_True by done. by destruct (inner !! y).
    + by rewrite decide_False by tauto.
  - rewrite lookup_insert_ne by done. by rewrite decide_False by tauto.
Qed.

Lemma lookup_filtered_updates keys (updates : list (gmap A (gmap A' V))) k :
  filtered_updates keys updates !! k =
    if decide (k ∈ keys) then newest at_pair (reverse updates) k else None.
Proof.
  unfold filtered_updates.
  assert (∀ (l : list (gmap A (gmap A' V))) (res : gmap (A * A') V),
    foldl (fun res m => foldl (fun res '(a, inner) => filter_inner keys a res inner) res (map_to_list m))
      res l !! k =
    match res !! k with
    | Some v => Some v
    | None => if decide (k ∈ keys) then newest at_pair l k else None
    end) as Hgen; [|by rewrite Hgen, lookup_empty].
  induction l as [|m l IH]; intros res; simpl.
  { destruct (res !! k); [done|]. by case_decide. }
  rewrite IH, lookup_filter_map_fold by apply NoDup_fst_map_to_list.
  rewrite list_to_map_to_list. destruct (res !! k); [done|].
  case_decide; [|done]. by destruct (at_pair m k).
Qed.

Lemma filtered_updates_filters (updates : list (gmap A (gmap A' V))) :
  filters (fun ks => filtered_updates (list_to_set ks) updates).
Proof.
  intros ks k. rewrite !lookup_filtered_updates.
  assert (k ∈ (list_to_set ks : gset (A * A')) ↔ k ∈ ks) as Hk by apply elem_of_list_to_set.
  destruct (decide (k ∈ ks)).
  - rewrite decide_True by tauto. rewrite decide_True; [done|]. set_solver.
  - by rewrite decide_False by tauto.
Qed.

Lemma lookup_nest (res : gmap (A * A') V) a a' : nest res !! a ≫= lookup a' = res !! (a, a').
Proof.
  unfold nest. rewrite <-(list_to_map_to_list res) at 2.
  pose proof (NoDup_fst_map_to_list res) as Hnd. revert Hnd.
  generalize (map_to_list res) as l. intros l Hnd.
  assert (∀ acc : gmap A (gmap A' V),
    foldl (fun results '((a, a'), v) => <[a := <[a' := v]> (default ∅ (results !! a))]> results) acc l
      !! a ≫= lookup a' =
    match (list_to_map l : gmap (A * A') V) !! (a, a') with
    | Some v => Some v | None => acc !! a ≫= lookup a' end) as Hgen; last first.
  { rewrite Hgen, lookup_empty. by destruct (_ !! (a, a')). }
  induction l as [|[[x y] v] l IH]; intros acc; simpl; [done|].
  apply NoDup_cons in Hnd as [Hxy Hnd]. simpl in Hxy. rewrite IH by done.
  destruct (decide ((a, a') = (x, y))) as [[= -> ->]|Hne].
  - rewrite lookup_insert_eq, not_elem_of_list_to_map_1 by done.
    rewrite lookup_insert_eq. simpl. by rewrite lookup_insert_eq.
  - rewrite (lookup_insert_ne _ (x, y)) by done. destruct (_ !! (a, a')); [done|].
    destruct (decide (a = x)) as [->|Ha].
    + rewrite lookup_insert_eq. simpl. rewrite lookup_insert_ne by congruence.
      by destruct (acc !! x).
    + by rewrite lookup_insert_ne.
Qed.

End filtered_facts.

#[global] Instance block_changes_laws : UpdateEntryLaws BlockChanges.t.
Proof. split; intros b; apply filtered_updates_filters. Qed.


(** * The guarantees *)

Section numbered.
Context {B : Type} `{BlockScoped B}.
Implicit Types (s : ReorgBuffer.t B) (l : list B).

Definition height (b : B) : Z := Block.number (block b).

(** In a list of increasing heights the first block that is not below [n] splits the list
    by height. *)
Lemma position_height n l :
  increasing height l →
  match position (fun b => negb (greater_than (Number n) (block b))) l with
  | Some i => take i l = filter (fun b => height b < n)%Z l ∧
              drop i l = filter (fun b => n ≤ height b)%Z l ∧ drop i l ≠ []
  | None => Forall (fun b => height b < n)%Z l
  end.
Proof.
  unfold height, greater_than. induction l as [|b l IH]; intros Hinc; simpl; [done|].
  apply StronglySorted_inv in Hinc as [Hinc Hb]. specialize (IH Hinc).
  destruct (Block.number (block b) <? n)%Z eqn:E; simpl.
  - apply Z.ltb_lt in E.
    destruct (position _ l) as [i|]; simpl; [|by constructor].
    destruct IH as (-> & IH2 & IH3).
    rewrite filter_cons_True by done. rewrite (filter_cons_False (fun b => n ≤ _)%Z) by lia. done.
  - apply Z.ltb_ge in E. rewrite Forall_forall in Hb.
    rewrite filter_cons_False by lia. rewrite filter_cons_True by lia.
    assert (∀ x, x ∈ l → n ≤ Block.number (block x))%Z as Hl
      by (intros x Hx; specialize (Hb x Hx); simpl in Hb; lia).
    split_and!; [| |done].
    + symmetry. apply filter_none, Forall_forall. intros x Hx. specialize (Hl x Hx). lia.
    + f_equal. symmetry. by apply filter_every, Forall_forall.
Qed.

Lemma position_height_eq n l b :
  increasing height l → b ∈ l → height b = n →
  position (fun b => bool_decide (Block.number (block b) = n)) l =
  position (fun b => negb (greater_than (Number n) (block b))) l.
Proof.
  unfold height, greater_than. induction l as [|a l IH]; intros Hinc Hb Hn; simpl.
  { by apply elem_of_nil in Hb. }
  apply StronglySorted_inv in Hinc as [Hinc Ha]. rewrite Forall_forall in Ha.
  apply elem_of_cons in Hb as [->|Hb].
  - rewrite bool_decide_true by done. by replace (_ <? n)%Z with false by lia.
  - specialize (Ha b Hb). simpl in Ha. rewrite bool_decide_false by lia.
    replace (_ <? n)%Z with true by lia. simpl. by rewrite (IH Hinc Hb Hn).
Qed.

Lemma position_height_cut n l1 b l2 :
  increasing height (l1 ++ b :: l2) → (n ≤ height b)%Z →
  ∃ i, i ≤ length l1 ∧ (height b = n → i = length l1) ∧
  position (fun b => negb (greater_than (Number n) (block b))) (l1 ++ b :: l2) = Some i ∧
  drop i (l1 ++ [b]) = filter (fun b => n ≤ height b)%Z (l1 ++ [b]).
Proof.
  intros (Hinc1 & _ & H12)%increasing_app Hn.
  assert (increasing height (l1 ++ [b])) as Hinc'.
  { apply increasing_app. split_and!; [done|by repeat constructor|].
    intros x y Hx ->%list_elem_of_singleton. apply H12; [done|by left]. }
  pose proof (position_height n _ Hinc') as Hsplit. rewrite position_app in Hsplit |- *.
  destruct (position _ l1) as [i|] eqn:Ei.
  - destruct Hsplit as (_ & Hd & _). exists i. pose proof (position_lt _ _ _ Ei).
    split_and!; [lia| |done|done]. intros Hb. exfalso.
    apply position_spec in Ei as [(a & Ha & Hp) _]. apply list_elem_of_lookup_2 in Ha.
    specialize (H12 a b Ha ltac:(left)). unfold greater_than, height in *. simpl in *.
    by replace (_ <? n)%Z with true in Hp by lia.
  - exists (length l1). simpl in Hsplit |- *. unfold height in *.
    replace (Block.number (block b) <? n)%Z with false in Hsplit |- * by lia. simpl in *.
    rewrite Nat.add_0_r in *. destruct Hsplit as (_ & Hd & _). split_and!; done.
Qed.

Lemma get_block_range_between s n1 n2 b :
  increasing height (block_messages s) → b ∈ block_messages s → height b = n2 → (n1 ≤ n2)%Z →
  get_block_range (Some (Number n1)) (Some (Number n2)) s =
  Ok (filter (fun b => n1 ≤ height b ≤ n2)%Z (block_messages s)).
Proof.
  intros Hinc Hb Hn Hle. apply list_elem_of_split in Hb as (l1 & l2 & Heq).
  unfold get_block_range, find_index, range. rewrite Heq in Hinc |- *.
  destruct (position_height_cut n1 _ _ _ Hinc) as (i & Hi & _ & -> & Hdrop); [lia|].
  destruct (position_height_cut n2 _ _ _ Hinc) as (j & _ & Hj & -> & _); [lia|].
  rewrite (Hj Hn). cbn [mbind result_bind ok_or].
  replace (match last _ with Some _ | _ => false end) with false by by destruct (last _).
  replace (length l1 <? i) with false by (symmetry; apply Nat.ltb_ge; lia).
  replace (_ && _) with true
    by (symmetry; apply andb_true_iff; split; apply Nat.leb_le; rewrite ?length_app; simpl; lia).
  f_equal. rewrite take_drop_commute.
  replace (i + (length l1 + 1 - i)) with (length (l1 ++ [b])) by (rewrite length_app; simpl; lia).
  rewrite (cons_middle b l1 l2), app_assoc in Hinc |- *. rewrite take_app_length, Hdrop.
  apply increasing_app in Hinc as (Hinc1 & _ & H12).
  rewrite (filter_app _ (l1 ++ [b])), (filter_none _ l2), app_nil_r.
  - apply filter_agree. intros x [Hx| ->%list_elem_of_singleton]%elem_of_app; [|lia].
    apply increasing_app in Hinc1 as (_ & _ & H1b). specialize (H1b x b Hx ltac:(left)). lia.
  - apply Forall_forall. intros x Hx. specialize (H12 b x). rewrite elem_of_app in H12.
    specialize (H12 ltac:(right; left) Hx). lia.
Qed.

End numbered.

(** C29. Whatever sequence of insertions, drains and purges ran, failed ones included, the
    buffer holds a connected chain: the hash of each block is the parent hash of the next. *)
Theorem reorg_buffer_chained {B} `{BlockScoped B} (s : ReorgBuffer.t B) :
  reachable s → chained (block_messages s).
Proof.
  apply (rtc_ind_r (fun s => chained (block_messages s))); [apply chained_nil|].
  intros s1 s2 _ Hstep. by apply step_chained.
Qed.

(** A revert to the buffered tip undoes the insertions made since: [purge] returns
    exactly the blocks inserted, in order, and restores the buffer. *)
Theorem purge_undoes_insertions {B} `{BlockScoped B} bs (s s' : ReorgBuffer.t B) tip :
  last (block_messages s) = Some tip →
  Forall (fun b => Block.hash (block b) ≠ Block.hash (block tip)) bs →
  insert_all bs s = (Ok tt, s') →
  purge (Block.hash (block tip)) s' = (Ok bs, s).
Proof. apply purge_after_insert_all. Qed.

(** With increasing block heights, draining up to a buffered height returns exactly the
    blocks below it and keeps the others; a height that is not buffered changes nothing and
    is an error unless the buffer is not strict and starts below it. *)
Theorem drain_by_height {B} `{BlockScoped B} (s : ReorgBuffer.t B) h :
  increasing height (block_messages s) →
  drain_blocks_until h s =
  if decide (Exists (fun b => height b = h) (block_messages s)) then
    (Ok (filter (fun b => height b < h)%Z (block_messages s)),
     mk (filter (fun b => h ≤ height b)%Z (block_messages s)) (strict s))
  else if negb (strict s) && (default 0 (height <$> head (block_messages s)) <? h)%Z
  then (Ok [], s) else (Err (NotFound "block" "height"), s).
Proof.
  intros Hinc. unfold drain_blocks_until, find_index. rewrite get_block_range_all.
  case_decide as Hex.
  - apply Exists_exists in Hex as (b & Hb & Hh).
    rewrite (position_height_eq h _ b Hinc Hb Hh). pose proof (position_height h _ Hinc) as Hp.
    destruct (position _ _) as [i|]; [by destruct Hp as (<- & <- & _)|].
    rewrite Forall_forall in Hp. specialize (Hp b Hb). simpl in Hp. lia.
  - destruct (position _ _) as [i|] eqn:Ep; [|done].
    apply position_spec in Ep as [(b & Hb & Hp) _]. destruct Hex.
    apply Exists_exists. exists b. split; [by eapply list_elem_of_lookup_2|].
    by apply bool_decide_eq_true in Hp.
Qed.

(** With increasing block heights, the range between two heights, the second one
    buffered, is exactly the buffered blocks of those heights, both ends included. *)
Theorem block_range_by_height {B} `{BlockScoped B} (s : ReorgBuffer.t B) n1 n2 b :
  increasing height (block_messages s) → b ∈ block_messages s → height b = n2 → (n1 ≤ n2)%Z →
  get_block_range (Some (Number n1)) (Some (Number n2)) s =
  Ok (filter (fun b => n1 ≤ height b ≤ n2)%Z (block_messages s)).
Proof. apply get_block_range_between. Qed.

Lemma lookup_all_newest {B K V} `{Countable K} (f : B → list K → gmap K V)
    (filtered : B → gset K → gmap K V) (bs : list B) (keys : list K) :
  (∀ b rem k, k ∈ rem → rem ⊆ list_to_set keys → filtered b rem !! k = f b [k] !! k) →
  ∀ k, (lookup_blocks filtered (∅, list_to_set keys) bs).1 !! k =
         (if decide (k ∈ keys) then newest (fun b k => f b [k] !! k) bs k else None) ∧
       (k ∈ (lookup_blocks filtered (∅, list_to_set keys) bs).2 ↔
         k ∈ keys ∧ newest (fun b k => f b [k] !! k) bs k = None).
Proof.
  intros Hf k. destruct (lookup_blocks_spec filtered (fun b k => f b [k] !! k) bs ∅
    (list_to_set keys) Hf) as [H1 H2]; [intros; apply lookup_empty|].
  split; [|by rewrite H2, elem_of_list_to_set]. rewrite H1. destruct (decide (k ∈ keys)).
  - rewrite decide_True; [done|]. by apply elem_of_list_to_set.
  - rewrite decide_False; [done|]. by rewrite elem_of_list_to_set.
Qed.

Section lookup_claims.
Context {B : Type} `{BlockScoped B} `{UpdateEntryLaws B}.

Lemma filtered_remaining {K V} `{Countable K} (f : B → list K → gmap K V) :
  (∀ b, filters (f b)) →
  ∀ b (rem : gset K) k, k ∈ rem → f b (elements rem) !! k = f b [k] !! k.
Proof.
  intros Hf b rem k Hk. rewrite (Hf b (elements rem)), decide_True; [done|].
  by apply elem_of_elements.
Qed.

Lemma filtered_all {K V} `{Countable K} (f : B → list K → gmap K V) (keys : list K) :
  (∀ b, filters (f b)) →
  ∀ b (rem : gset K) k, k ∈ rem → rem ⊆ list_to_set keys → f b keys !! k = f b [k] !! k.
Proof.
  intros Hf b rem k Hk Hsub. rewrite (Hf b keys). rewrite decide_True; [done|].
  apply Hsub in Hk. by apply elem_of_list_to_set in Hk.
Qed.

Lemma protocol_state_newest (s : ReorgBuffer.t B) keys k :
  (lookup_protocol_state keys s).1 !! k =
    (if decide (k ∈ keys)
     then newest (fun b k => get_filtered_protocol_state_update b [k] !! k)
            (reverse (block_messages s)) k else None) ∧
  (k ∈ (lookup_protocol_state keys s).2 ↔ k ∈ keys ∧
     newest (fun b k => get_filtered_protocol_state_update b [k] !! k)
       (reverse (block_messages s)) k = None).
Proof.
  apply (lookup_all_newest get_filtered_protocol_state_update). intros b rem x Hx _.
  by apply (filtered_remaining get_filtered_protocol_state_update protocol_state_filters).
Qed.

(** A lookup of attributes or of contract slots returns, for each key asked for, the
    value of the newest buffered block that has one, and reports as missing exactly the
    keys no buffered block has; whatever the entries are, as long as filtering an entry by
    some keys treats each key on its own. *)
Theorem state_lookups_newest (s : ReorgBuffer.t B) :
  (∀ keys k,
    (lookup_protocol_state keys s).1 !! k =
      (if decide (k ∈ keys)
       then newest (fun b k => get_filtered_protocol_state_update b [k] !! k)
              (reverse (block_messages s)) k else None) ∧
    (k ∈ (lookup_protocol_state keys s).2 ↔ k ∈ keys ∧
       newest (fun b k => get_filtered_protocol_state_update b [k] !! k)
         (reverse (block_messages s)) k = None)) ∧
  (∀ keys k,
    (lookup_account_state keys s).1 !! k =
      (if decide (k ∈ keys)
       then newest (fun b k => get_filtered_account_state_update b [k] !! k)
              (reverse (block_messages s)) k else None) ∧
    (k ∈ (lookup_account_state keys s).2 ↔ k ∈ keys ∧
       newest (fun b k => get_filtered_account_state_update b [k] !! k)
         (reverse (block_messages s)) k = None)).
Proof.
  split; intros keys k.
  - apply protocol_state_newest.
  - apply (lookup_all_newest get_filtered_account_state_update). intros b rem x Hx _.
    apply (filtered_remaining get_filtered_account_state_update account_state_filters); done.
Qed.

(** The same for component and account balances, which are returned nested by
    component, respectively account, and then token. *)
Theorem balance_lookups_newest (s : ReorgBuffer.t B) :
  (∀ keys id token,
    (lookup_component_balances keys s).1 !! id ≫= lookup token =
      (if decide ((id, token) ∈ keys)
       then newest (fun b k => get_filtered_component_balance_update b [k] !! k)
              (reverse (block_messages s)) (id, token) else None) ∧
    ((id, token) ∈ (lookup_component_balances keys s).2 ↔ (id, token) ∈ keys ∧
       newest (fun b k => get_filtered_component_balance_update b [k] !! k)
         (reverse (block_messages s)) (id, token) = None)) ∧
  (∀ keys account token,
    (lookup_account_balances keys s).1 !! account ≫= lookup token =
      (if decide ((account, token) ∈ keys)
       then newest (fun b k => get_filtered_account_balance_update b [k] !! k)
              (reverse (block_messages s)) (account, token) else None) ∧
    ((account, token) ∈ (lookup_account_balances keys s).2 ↔ (account, token) ∈ keys ∧
       newest (fun b k => get_filtered_account_balance_update b [k] !! k)
         (reverse (block_messages s)) (account, token) = None)).
Proof.
  unfold lookup_component_balances, lookup_account_balances.
  split; intros keys a a';
    match goal with |- context [lookup_blocks ?f ?acc ?l] =>
      destruct (lookup_blocks f acc l) as [res remaining] eqn:E;
      pose proof (fun g => lookup_all_newest g f l keys) as Hl; rewrite E in Hl end;
    simpl; rewrite lookup_nest.
  - apply (Hl get_filtered_component_balance_update). intros b rem k Hk Hsub.
    by apply (filtered_all get_filtered_component_balance_update _ component_balance_filters b rem).
  - apply (Hl get_filtered_account_balance_update). intros b rem k Hk Hsub.
    by apply (filtered_all get_filtered_account_balance_update _ account_balance_filters b rem).
Qed.
End lookup_claims.

(** Where the blocks of increasing heights are numbered, a height below the buffer is
    reported committed, one above it unseen, and every buffered block uncommitted, except
    the oldest one, which is reported committed although it is still buffered. *)
Theorem commit_status_by_height {B} `{BlockScoped B} (s : ReorgBuffer.t B) first rest :
  block_messages s = first :: rest → increasing height (block_messages s) →
  get_commit_status (Number (height first)) s = Some Committed ∧
  (∀ b, b ∈ rest → get_commit_status (Number (height b)) s = Some Uncommitted) ∧
  (∀ n, (n < height first)%Z → get_commit_status (Number n) s = Some Committed) ∧
  (∀ n, Forall (fun b => height b < n)%Z (block_messages s) →
        get_commit_status (Number n) s = Some Unseen).
Proof.
  intros Hs Hinc. rewrite Hs in Hinc. unfold get_commit_status. rewrite Hs.
  destruct (last (first :: rest)) as [lst|] eqn:El; [|by apply last_None in El].
  apply StronglySorted_inv in Hinc as [Hrest Hfirst]. rewrite Forall_forall in Hfirst.
  assert (∀ b, b ∈ rest → height b ≤ height lst)%Z as Hle.
  { intros b Hb. apply last_Some in El as [l' El]. destruct l' as [|x l']; simpl in El.
    - injection El as -> ->. by apply elem_of_nil in Hb.
    - injection El as -> ->. apply elem_of_app in Hb as [Hb| ->%list_elem_of_singleton]; [|lia].
      apply increasing_app in Hrest as (_ & _ & Hlt). specialize (Hlt b lst Hb ltac:(left)). lia. }
  split_and!; simpl; unfold height in *.
  - by rewrite Z.ltb_irrefl.
  - intros b Hb. specialize (Hfirst b Hb). specialize (Hle b Hb). simpl in Hfirst.
    rewrite (proj2 (Z.ltb_lt _ _) Hfirst). by rewrite (proj2 (Z.ltb_ge _ _) Hle).
  - intros n Hn. by rewrite (proj2 (Z.ltb_ge _ _)) by lia.
  - intros n Hn. rewrite Forall_forall in Hn.
    assert (Block.number (block first) < n)%Z as H1 by (apply Hn; left).
    assert (Block.number (block lst) < n)%Z as H2 by (apply Hn; by apply last_Some_elem_of).
    by rewrite (proj2 (Z.ltb_lt _ _) H1), (proj2 (Z.ltb_lt _ _) H2).
Qed.

(** ** The entries of the extractor *)

Lemma newest_app {B K V} (get : B → K → option V) l1 l2 k :
  newest get (l1 ++ l2) k =
  match newest get l1 k with Some v => Some v | None => newest get l2 k end.
Proof. induction l1 as [|b l1 IH]; simpl; [done|]. by destruct (get b k). Qed.

Lemma newest_ext {B K V} (get get' : B → K → option V) l k :
  (∀ b, get b k = get' b k) → newest get l k = newest get' l k.
Proof. intros Hg. induction l as [|b l IH]; simpl; [done|]. by rewrite Hg, IH. Qed.

Lemma newest_fmap {B C K V} (get : C → K → option V) (f : B → C) l k :
  newest get (f <$> l) k = newest (fun b k => get (f b) k) l k.
Proof. induction l as [|b l IH]; [done|]. rewrite fmap_cons. simpl. by rewrite IH. Qed.

Lemma newest_concat {B C K V} (get : C → K → option V) (items : B → list C) (l : list B) k :
  newest (fun b k => newest get (reverse (items b)) k) (reverse l) k =
  newest get (reverse (l ≫= items)) k.
Proof.
  induction l as [|b l IH]; [done|]. rewrite bind_cons, reverse_cons, reverse_app, !newest_app, IH.
  destruct (newest get (reverse (l ≫= items)) k); [done|]. simpl.
  by destruct (newest get (reverse (items b)) k).
Qed.

(** In a buffer of block changes, a looked-up attribute of a component has the value the
    most recent buffered transaction wrote to it, over all transactions of all buffered
    blocks in order; the keys no transaction wrote are reported missing. *)
Theorem protocol_state_lookup_last_write (s : ReorgBuffer.t BlockChanges.t) keys k :
  let txs := block_messages s ≫= BlockChanges.txs_with_update in
  let written tx (k : string * string) :=
    TxWithChanges.state_updates tx !! k.1 ≫=
      fun d => ProtocolComponentStateDelta.updated_attributes d !! k.2 in
  (lookup_protocol_state keys s).1 !! k =
    (if decide (k ∈ keys) then newest written (reverse txs) k else None) ∧
  (k ∈ (lookup_protocol_state keys s).2 ↔ k ∈ keys ∧ newest written (reverse txs) k = None).
Proof.
  intros txs written.
  assert (newest (fun b k => get_filtered_protocol_state_update b [k] !! k)
    (reverse (block_messages s)) k = newest written (reverse txs) k) as <-.
  { subst txs. rewrite <-newest_concat. apply newest_ext. intros b.
    unfold get_filtered_protocol_state_update, block_changes_entry.
    rewrite lookup_filtered_updates, decide_True by set_solver.
    rewrite <-fmap_reverse, newest_fmap. apply newest_ext. intros x. unfold at_pair, written.
    rewrite lookup_fmap. by destruct (TxWithChanges.state_updates x !! k.1). }
  apply protocol_state_newest.
Qed.

(** ** Witnesses *)

Module BufferExamples.
Definition blk (n : Z) (hash parent : byte) : Block.t := Block.mk n Ethereum [hash] [parent] n.
Definition tx_of (v : byte) : TxWithChanges.t :=
  TxWithChanges.mk (Transaction.mk [v] [] [] None 0) ∅ ∅
    {["pool" := ProtocolComponentStateDelta.new "pool" {["fee" := [v]]} ∅]} ∅ ∅ ∅ ∅.
Definition msg (b : Block.t) (v : byte) : BlockChanges.t :=
  BlockChanges.new "ambient" Ethereum b 0 false [tx_of v] [].
Definition m1 : BlockChanges.t := msg (blk 1 x01 x00) x0a.
Definition m2 : BlockChanges.t := msg (blk 2 x02 x01) x0b.
Definition m3 : BlockChanges.t := msg (blk 3 x03 x02) x0c.
Definition buf1 : ReorgBuffer.t BlockChanges.t := mk [m1] false.
Definition buf : ReorgBuffer.t BlockChanges.t := mk [m1; m2; m3] false.

Lemma buf_increasing : increasing height (block_messages buf).
Proof. repeat constructor. Qed.
End BufferExamples.

Import BufferExamples.

Lemma reorg_buffer_chained_witness : chained (block_messages buf).
Proof.
  apply reorg_buffer_chained. eapply rtc_l; [apply (step_insert m1 _ (Ok tt)); reflexivity|].
  eapply rtc_l; [apply (step_insert m2 _ (Ok tt)); reflexivity|].
  eapply rtc_l; [apply (step_insert m3 _ (Ok tt)); reflexivity|]. apply rtc_refl.
Defined.

Lemma purge_undoes_insertions_witness : purge [x01] buf = (Ok [m2; m3], buf1).
Proof.
  change [x01] with (Block.hash (block m1)).
  apply (purge_undoes_insertions [m2; m3] buf1 buf m1); [reflexivity| |reflexivity].
  repeat constructor; discriminate.
Defined.

Lemma drain_by_height_witness : drain_blocks_until 2 buf = (Ok [m1], mk [m2; m3] false).
Proof. rewrite (drain_by_height buf 2 buf_increasing). reflexivity. Defined.

Lemma block_range_by_height_witness :
  get_block_range (Some (Number 0)) (Some (Number 2)) buf = Ok [m1; m2].
Proof.
  rewrite (block_range_by_height buf 0 2 m2 buf_increasing); [reflexivity| |reflexivity|lia].
  right. left.
Defined.

Lemma state_lookups_newest_witness :
  (lookup_protocol_state [("pool", "fee")] buf).1 !! ("pool", "fee") = Some [x0c].
Proof. rewrite (proj1 (proj1 (state_lookups_newest buf) _ _)). vm_compute. reflexivity. Defined.

Lemma balance_lookups_newest_witness :
  ("pool", [x05]) ∈ (lookup_component_balances [("pool", [x05])] buf).2.
Proof.
  apply (proj2 (proj1 (balance_lookups_newest buf) [("pool", [x05])] "pool" [x05])).
  split; [left|vm_compute; reflexivity].
Defined.

Lemma commit_status_by_height_witness :
  get_commit_status (Number 1) buf = Some Committed ∧ m1 ∈ block_messages buf.
Proof.
  split; [|left]. exact (proj1 (commit_status_by_height buf m1 [m2; m3] eq_refl buf_increasing)).
Defined.
