(* ===== verification/PendingDeltas.v ===== *)
(** The deltas buffer of the RPC service: [tycho_indexer::services::deltas_buffer].

    [PendingDeltas] keeps one reorg buffer of aggregated messages per extractor and brings
    the states read from the database up to date with the buffered messages.  A mutex is
    modelled by running a method on the buffer it guards: every method locks for its whole
    duration and no method panics while it holds the lock, so that [LockError], a poisoned
    lock, does not arise. *)

From Stdlib Require Import SpecFloat Strings.Byte.
From S2P Require Import Prelude Collections Bytes Models Blockchain Deltas ReorgBuffer ReorgBufferSpec.

Open Scope tycho_scope.

Inductive PendingDeltasError :=
| LockError (name msg : string)
| ReorgBufferError (e : StorageError)
| UnknownExtractor (name : string)
| DeltaApplicationFailure (e : MergeError).

#[global] Instance pending_deltas_error_eq_dec : EqDecision PendingDeltasError.
Proof. solve_decision. Defined.

Module PendingDeltas.

Abbreviation Buffer := (ReorgBuffer.t BlockAggregatedChanges.t).
Abbreviation t := (gmap string Buffer).

Definition new (extractors : list string) : t :=
  list_to_map (reverse ((fun e => (e, ReorgBuffer.new)) <$> extractors)).

(** The part of [insert] under the lock.  [height + 1] wraps like a [u64]. *)
Definition insert_locked (message : BlockAggregatedChanges.t) : stm Buffer StorageError unit :=
  if BlockAggregatedChanges.revert message then
    match BlockAggregatedChanges.partial_block_index message with
    | None => st_bind (ReorgBuffer.purge (Block.hash (BlockAggregatedChanges.block message)))
                (fun _ => st_ret tt)
    | Some _ => st_ret tt
    end
  else
    ReorgBuffer.insert_block message ;?
    match BlockAggregatedChanges.db_committed_block_height message with
    | Some height =>
        st_bind (ReorgBuffer.drain_blocks_until (wrap 64 (height + 1))) (fun _ => st_ret tt)
    | None => st_ret tt
    end.

Definition insert (message : BlockAggregatedChanges.t) : stm t PendingDeltasError unit := fun self =>
  let extractor := BlockAggregatedChanges.extractor message in
  match self !! extractor with
  | Some buffer =>
      let '(r, buffer') := st_map_err ReorgBufferError (insert_locked message) buffer in
      (r, <[extractor := buffer']> self)
  | None => (Err (UnknownExtractor extractor), self)
  end.

(** One message received by [run]: partial messages are skipped, a failed insertion
    unwinds. *)
Definition on_message (message : BlockAggregatedChanges.t) : stm t PendingDeltasError unit :=
  match BlockAggregatedChanges.partial_block_index message with
  | None => fun self =>
      match insert message self with
      | (Ok _, self') => (Ok tt, self')
      | (_, self') => (Panic, self')
      end
  | Some _ => st_ret tt
  end.

Definition buffer_of (protocol_system : string) (self : t) : result PendingDeltasError Buffer :=
  ok_or (self !! protocol_system) (UnknownExtractor protocol_system).

(** [guard.get_block_range(None, version)?] of the buffer of a protocol system. *)
Definition entries_of (version : option BlockNumberOrTimestamp) (protocol_system : string) (self : t) :
    result PendingDeltasError (list BlockAggregatedChanges.t) :=
  buffer ← buffer_of protocol_system self;
  map_err ReorgBufferError (ReorgBuffer.get_block_range None version buffer).

(** The body of the loop of [update_native_state], on the state and [change_found]. *)
Definition native_entry (entry : BlockAggregatedChanges.t) :
    stm (ProtocolComponentState.t * bool) PendingDeltasError unit := fun '(db_state, change_found) =>
  let id := ProtocolComponentState.component_id db_state in
  (match BlockAggregatedChanges.state_deltas entry !! id with
   | Some delta => fun '(db_state, change_found) =>
       match st_map_err DeltaApplicationFailure (ProtocolComponentState.apply_state_delta delta) db_state with
       | (Ok _, db_state') => (Ok tt, (db_state', true))
       | (Err e, db_state') => (Err e, (db_state', change_found))
       | (Panic, db_state') => (Panic, (db_state', change_found))
       end
   | None => st_ret tt
   end ;?
   match BlockAggregatedChanges.component_balances entry !! id with
   | Some delta => fun '(db_state, change_found) =>
       match st_map_err DeltaApplicationFailure (ProtocolComponentState.apply_balance_delta delta) db_state with
       | (Ok _, db_state') => (Ok tt, (db_state', true))
       | (Err e, db_state') => (Err e, (db_state', change_found))
       | (Panic, db_state') => (Panic, (db_state', change_found))
       end
   | None => st_ret tt
   end) (db_state, change_found).

(** A loop over the entries of a buffer that updates a state read from the database. *)
Definition update_with {S} (entry_step : BlockAggregatedChanges.t → stm (S * bool) PendingDeltasError unit)
    (version : option BlockNumberOrTimestamp) (protocol_system : string) (self : t) :
    stm S PendingDeltasError bool := fun db_state =>
  match entries_of version protocol_system self with
  | Ok entries =>
      match for_each entry_step entries (db_state, false) with
      | (Ok _, (db_state', change_found)) => (Ok change_found, db_state')
      | (Err e, (db_state', _)) => (Err e, db_state')
      | (Panic, (db_state', _)) => (Panic, db_state')
      end
  | Err e => (Err e, db_state)
  | Panic => (Panic, db_state)
  end.

Definition update_native_state := update_with native_entry.

(** The body of the loop of [update_vm_state]. *)
Definition vm_entry (entry : BlockAggregatedChanges.t) :
    stm (Account.t * bool) PendingDeltasError unit := fun '(db_state, change_found) =>
  let address := Account.address db_state in
  (match BlockAggregatedChanges.account_deltas entry !! address with
   | Some delta => fun '(db_state, change_found) =>
       match st_map_err DeltaApplicationFailure (Account.apply_delta delta) db_state with
       | (Ok _, db_state') => (Ok tt, (db_state', true))
       | (Err e, db_state') => (Err e, (db_state', change_found))
       | (Panic, db_state') => (Panic, (db_state', change_found))
       end
   | None => st_ret tt
   end ;?
   match BlockAggregatedChanges.account_balances entry !! address with
   | Some token_balances => fun '(db_state, _) =>
       (Ok tt, (Account.set_token_balances
                  (extend (Account.token_balances db_state) token_balances) db_state, true))
   | None => st_ret tt
   end) (db_state, change_found).

Definition update_vm_state := update_with vm_entry.

Section accounts.
Context (keccak256 : Bytes → Bytes) (hex_title : Bytes → string).

(** The body of the inner loop of [get_account], on the account built so far. *)
Definition get_account_entry (address : Bytes) (account : option Account.t)
    (entry : BlockAggregatedChanges.t) : result PendingDeltasError (option Account.t) :=
  account ←
    match BlockAggregatedChanges.account_deltas entry !! address with
    | Some delta =>
        let account_ref := default (into_account_without_tx keccak256 hex_title delta) account in
        match Account.apply_delta delta account_ref with
        | (Ok _, account') => Ok (Some account')
        | (Err e, _) => Err (DeltaApplicationFailure e)
        | (Panic, _) => Panic
        end
    | None => Ok account
    end;
  Ok (match account, BlockAggregatedChanges.account_balances entry !! address with
      | Some account_ref, Some token_balances =>
          Some (Account.set_token_balances
                  (extend (Account.token_balances account_ref) token_balances) account_ref)
      | _, _ => account
      end).

(** The loop over [self.buffers.values()]. *)
Definition get_account (address : Bytes) (version : option BlockNumberOrTimestamp) (self : t) :
    result PendingDeltasError Account.t :=
  account ← try_fold (fun account buffer =>
      entries ← map_err ReorgBufferError (ReorgBuffer.get_block_range None version buffer);
      try_fold (get_account_entry address) account entries)
    None (map_to_list self).*2;
  ok_or account (ReorgBufferError (NotFound "Contract" "address")).

(** [db_states.push(state)] for every id of [missing]. *)
Definition push_missing {K S} (build : K → result PendingDeltasError S) :
    list K → stm (list S) PendingDeltasError unit :=
  for_each (fun k db_states =>
    match build k with
    | Ok s => (Ok tt, db_states ++ [s])
    | Err e => (Err e, db_states)
    | Panic => (Panic, db_states)
    end).

(** The ids of [missing_ids] that are left after one [remove] per state. *)
Definition not_found {K S} `{Countable K} (id : S → K) (requested : option (list K))
    (db_states : list S) : gset K :=
  foldl (fun missing s => missing ∖ {[id s]}) (list_to_set (default [] requested)) db_states.

Definition merge_native_states (protocol_ids : option (list string))
    (version : option BlockNumberOrTimestamp) (protocol_system : string) (self : t) :
    stm (list ProtocolComponentState.t) PendingDeltasError unit :=
  for_each_mut (update_native_state version protocol_system self) ;?
  fun db_states =>
    push_missing (fun id =>
        let '(r, state) := update_native_state version protocol_system self
                             (ProtocolComponentState.new id ∅ ∅) in
        (fun _ => state) <$> r)
      (elements (not_found ProtocolComponentState.component_id protocol_ids db_states))
      db_states.

Definition update_vm_states (addresses : option (list Bytes))
    (version : option BlockNumberOrTimestamp) (protocol_system : string) (self : t) :
    stm (list Account.t) PendingDeltasError unit :=
  for_each_mut (update_vm_state version protocol_system self) ;?
  fun db_states =>
    push_missing (fun address => get_account address version self)
      (elements (not_found Account.address addresses db_states)) db_states.
End accounts.

(** [tvl <= x] on [f64]; [0.0] where the component has no TVL. *)
Definition new_component_matches (requested_ids : option (gset string)) (min_tvl : option f64)
    (entry : BlockAggregatedChanges.t) (comp : ProtocolComponent.t) : bool :=
  match requested_ids with
  | Some ids => bool_decide (ProtocolComponent.id comp ∈ ids)
  | None => true
  end &&
  match min_tvl with
  | Some tvl =>
      SFleb tvl (default (S754_zero false)
                   (BlockAggregatedChanges.component_tvl entry !! ProtocolComponent.id comp))
  | None => true
  end.

Definition get_new_components (ids : option (list string)) (protocol_system : string)
    (min_tvl : option f64) (self : t) : result PendingDeltasError (list ProtocolComponent.t) :=
  let requested_ids := (list_to_set : list string → gset string) <$> ids in
  entries ← entries_of None protocol_system self;
  Ok (entries ≫= fun entry =>
        filter (fun comp => new_component_matches requested_ids min_tvl entry comp = true)
          (map_to_list (BlockAggregatedChanges.new_protocol_components entry)).*2).

Definition get_block_commit_status (version : BlockNumberOrTimestamp) (protocol_system : string)
    (self : t) : result PendingDeltasError (option CommitStatus) :=
  ReorgBuffer.get_commit_status version <$> buffer_of protocol_system self.

Definition search_block (f : BlockAggregatedChanges.t → bool) (protocol_system : string) (self : t) :
    result PendingDeltasError (option BlockAggregatedChanges.t) :=
  entries ← entries_of None protocol_system self;
  Ok (match position f entries with Some i => entries !! i | None => None end).
End PendingDeltas.
