(* ===== verification/PendingDeltasSpec.v ===== *)
(** What the RPC service serves from the deltas buffer.

    The specification of a served state is what the database will hold when the buffered
    blocks are written: key by key the last write.  The theorems show that the service
    computes it, and that the moment at which the database commits a block, and the moment
    at which the block leaves the buffer, cannot be seen in what is served, the code hash
    of an account excepted. *)

From Stdlib Require Import SpecFloat Strings.Byte.
From S2P Require Import Prelude Collections Bytes Models Blockchain Deltas ReorgBuffer ReorgBufferSpec.
From S2P Require Import PendingDeltas.

Import PendingDeltas.

(** * Effects of a message *)

Definition msg_native (s : ProtocolComponentState.t) (m : BlockAggregatedChanges.t) :
    ProtocolComponentState.t :=
  native_effect (BlockAggregatedChanges.state_deltas m) (BlockAggregatedChanges.component_balances m) s.

Definition msg_account (a : Account.t) (m : BlockAggregatedChanges.t) : Account.t :=
  account_effect (BlockAggregatedChanges.account_deltas m) (BlockAggregatedChanges.account_balances m) a.

Definition touches_component (id : string) (m : BlockAggregatedChanges.t) : bool :=
  bool_decide (is_Some (BlockAggregatedChanges.state_deltas m !! id)) ||
  bool_decide (is_Some (BlockAggregatedChanges.component_balances m !! id)).

Definition touches_account (address : Bytes) (m : BlockAggregatedChanges.t) : bool :=
  bool_decide (is_Some (BlockAggregatedChanges.account_deltas m !! address)) ||
  bool_decide (is_Some (BlockAggregatedChanges.account_balances m !! address)).

(** Deltas are stored under their own id, and all on one chain. *)
Definition keyed_message (c : Chain) (m : BlockAggregatedChanges.t) : Prop :=
  keyed_updates (BlockAggregatedChanges.state_deltas m) ∧
  keyed_deltas (BlockAggregatedChanges.account_deltas m) ∧
  ∀ addr d, BlockAggregatedChanges.account_deltas m !! addr = Some d → AccountDelta.chain d = c.

Lemma msg_native_id s m :
  ProtocolComponentState.component_id (msg_native s m) = ProtocolComponentState.component_id s.
Proof. apply native_effect_id. Qed.

Lemma msgs_native_id s l :
  ProtocolComponentState.component_id (foldl msg_native s l) = ProtocolComponentState.component_id s.
Proof. revert s; induction l as [|m l IH]; intros s; [done|]. simpl. by rewrite IH, msg_native_id. Qed.

Lemma msg_account_key a m :
  Account.address (msg_account a m) = Account.address a ∧ Account.chain (msg_account a m) = Account.chain a.
Proof.
  split; [apply account_effect_address|]. unfold msg_account, account_effect.
  by destruct (_ !! _), (_ !! _).
Qed.

(** ** The loops compute the effects *)

Lemma native_entry_ok c m s found :
  keyed_message c m →
  native_entry m (s, found) =
    (Ok tt, (msg_native s m, found || touches_component (ProtocolComponentState.component_id s) m)).
Proof.
  intros (Hk & _). unfold native_entry, msg_native, native_effect, touches_component, st_bind, st_map_err.
  destruct (BlockAggregatedChanges.state_deltas m !! _) as [d|] eqn:Ed; simpl.
  - apply Hk in Ed. unfold ProtocolComponentState.apply_state_delta. case_decide; [congruence|]. simpl.
    destruct (BlockAggregatedChanges.component_balances m !! _); by rewrite orb_true_r.
  - destruct (BlockAggregatedChanges.component_balances m !! _); simpl;
      [by rewrite orb_true_r|by rewrite orb_false_r].
Qed.

Lemma native_loop c l s found :
  Forall (keyed_message c) l →
  for_each native_entry l (s, found) =
    (Ok tt, (foldl msg_native s l,
             found || existsb (touches_component (ProtocolComponentState.component_id s)) l)).
Proof.
  intros Hl; revert s found; induction Hl as [|m l Hm _ IH]; intros s found; simpl.
  { by rewrite orb_false_r. }
  unfold st_bind. rewrite (native_entry_ok c) by done. rewrite IH, msg_native_id. by rewrite orb_assoc.
Qed.

Lemma vm_entry_ok m a found :
  keyed_message (Account.chain a) m →
  vm_entry m (a, found) = (Ok tt, (msg_account a m, found || touches_account (Account.address a) m)).
Proof.
  intros (_ & Hk & Hc). unfold vm_entry, msg_account, account_effect, touches_account, st_bind, st_map_err.
  destruct (BlockAggregatedChanges.account_deltas m !! _) as [d|] eqn:Ed; simpl.
  - pose proof (Hc _ _ Ed). apply Hk in Ed. unfold Account.apply_delta.
    case_decide; [congruence|]. simpl.
    destruct (BlockAggregatedChanges.account_balances m !! _); by rewrite orb_true_r.
  - destruct (BlockAggregatedChanges.account_balances m !! _); simpl;
      [by rewrite orb_true_r|by rewrite orb_false_r].
Qed.

Lemma vm_loop l a found :
  Forall (keyed_message (Account.chain a)) l →
  for_each vm_entry l (a, found) =
    (Ok tt, (foldl msg_account a l, found || existsb (touches_account (Account.address a)) l)).
Proof.
  revert a found; induction l as [|m l IH]; intros a found Hl; simpl.
  { by rewrite orb_false_r. }
  apply Forall_cons in Hl as [Hm Hl]. unfold st_bind. rewrite vm_entry_ok by done.
  destruct (msg_account_key a m) as [Ha Hc].
  rewrite IH by by rewrite Hc. by rewrite Ha, orb_assoc.
Qed.

Lemma update_native_state_ok c version name (self : t) entries s :
  entries_of version name self = Ok entries → Forall (keyed_message c) entries →
  update_native_state version name self s =
    (Ok (existsb (touches_component (ProtocolComponentState.component_id s)) entries),
     foldl msg_native s entries).
Proof.
  intros He Hk. unfold update_native_state, update_with. rewrite He. by rewrite (native_loop c).
Qed.

Lemma update_vm_state_ok version name (self : t) entries a :
  entries_of version name self = Ok entries → Forall (keyed_message (Account.chain a)) entries →
  update_vm_state version name self a =
    (Ok (existsb (touches_account (Account.address a)) entries), foldl msg_account a entries).
Proof.
  intros He Hk. unfold update_vm_state, update_with. rewrite He. by rewrite vm_loop.
Qed.

Lemma entries_of_all name (self : t) buf :
  self !! name = Some buf → entries_of None name self = Ok (ReorgBuffer.block_messages buf).
Proof. intros Hb. unfold entries_of, buffer_of. rewrite Hb. simpl. by rewrite get_block_range_all. Qed.

(** * Replays

    Each message either overwrites an observation of a state or leaves it alone, and so do
    several messages in a row: applying a part of them twice makes no difference. *)
Section replay.
Context {S M V : Type} (eff : S → M → S) (obs : S → V) (inv : S → Prop) (w : M → option V).
Context (eff_inv : ∀ s m, inv s → inv (eff s m)).
Context (eff_obs : ∀ s m, inv s → obs (eff s m) = default (obs s) (w m)).

Lemma foldl_obs l s : inv s → obs (foldl eff s l) = foldl (fun v m => default v (w m)) (obs s) l.
Proof using eff_inv eff_obs.
  revert s; induction l as [|m l IH]; intros s Hs; simpl; [done|].
  by rewrite IH, eff_obs by auto.
Qed.

(** A list of messages overwrites the observation or does nothing to it. *)
Lemma overwrite_or_skip l :
  (∀ v, foldl (fun v m => default v (w m)) v l = v) ∨
  (∃ r, ∀ v, foldl (fun v m => default v (w m)) v l = r).
Proof.
  induction l as [|m l IH]; simpl; [by left|]. destruct (w m) as [x|] eqn:E; simpl.
  - right. by exists (foldl (fun v m => default v (w m)) x l).
  - destruct IH as [IH|[r IH]]; [by left|right; by exists r].
Qed.

End replay.

(** ** Component states *)

(** What a message writes to an attribute: a value, a deletion, or nothing. *)
Definition attribute_write (id k : string) (m : BlockAggregatedChanges.t) : option (option Bytes) :=
  match BlockAggregatedChanges.state_deltas m !! id with
  | Some d => if decide (k ∈ ProtocolComponentStateDelta.deleted_attributes d) then Some None
              else Some <$> ProtocolComponentStateDelta.updated_attributes d !! k
  | None => None
  end.

Definition balance_write (id : string) (k : Bytes) (m : BlockAggregatedChanges.t) : option (option Bytes) :=
  match BlockAggregatedChanges.component_balances m !! id with
  | Some b => (fun c => Some (ComponentBalance.balance c)) <$> b !! k
  | None => None
  end.

Lemma attributes_msg_native s m k :
  ProtocolComponentState.attributes (msg_native s m) !! k =
  default (ProtocolComponentState.attributes s !! k)
    (attribute_write (ProtocolComponentState.component_id s) k m).
Proof.
  unfold msg_native, native_effect, attribute_write.
  destruct (BlockAggregatedChanges.state_deltas m !! _) as [d|],
    (BlockAggregatedChanges.component_balances m !! _); try done.
  all: pose proof (lookup_with_state_delta d s k) as Hk; simpl in Hk |- *; rewrite Hk;
    (case_decide; [done|]); by destruct (ProtocolComponentStateDelta.updated_attributes d !! k).
Qed.

Lemma balances_msg_native s m k :
  ProtocolComponentState.balances (msg_native s m) !! k =
  default (ProtocolComponentState.balances s !! k)
    (balance_write (ProtocolComponentState.component_id s) k m).
Proof.
  unfold msg_native, native_effect, balance_write.
  destruct (BlockAggregatedChanges.component_balances m !! _) as [b|],
    (BlockAggregatedChanges.state_deltas m !! _); try done;
    simpl; rewrite lookup_extend, lookup_fmap; by destruct (b !! k).
Qed.

Lemma native_ext s s' :
  ProtocolComponentState.component_id s = ProtocolComponentState.component_id s' →
  (∀ k, ProtocolComponentState.attributes s !! k = ProtocolComponentState.attributes s' !! k) →
  (∀ k, ProtocolComponentState.balances s !! k = ProtocolComponentState.balances s' !! k) → s = s'.
Proof. destruct s, s'; simpl. intros -> Ha Hb. f_equal; by apply map_eq. Qed.

(** ** Accounts *)

Definition delta_write {V} (f : AccountDelta.t → option V) (address : Bytes)
    (m : BlockAggregatedChanges.t) : option V :=
  BlockAggregatedChanges.account_deltas m !! address ≫= f.

Definition token_write (address token : Bytes) (m : BlockAggregatedChanges.t) :
    option (option AccountBalance.t) :=
  BlockAggregatedChanges.account_balances m !! address ≫= fun b => Some <$> b !! token.

(** The fields of an account that deltas do not touch. *)
Definition account_frame (a : Account.t) :=
  (Account.chain a, Account.address a, Account.title a, Account.code_hash a,
   Account.balance_modify_tx a, Account.code_modify_tx a, Account.creation_tx a).

Lemma msg_account_fields a m :
  let addr := Account.address a in
  account_frame (msg_account a m) = account_frame a ∧
  Account.native_balance (msg_account a m) =
    default (Account.native_balance a) (delta_write AccountDelta.balance addr m) ∧
  Account.code (msg_account a m) = default (Account.code a) (delta_write AccountDelta.code addr m) ∧
  (∀ k, Account.slots (msg_account a m) !! k =
     default (Account.slots a !! k)
       (delta_write (fun d => Some <$> written_slots (AccountDelta.slots d) !! k) addr m)) ∧
  (∀ k, Account.token_balances (msg_account a m) !! k =
     default (Account.token_balances a !! k) (token_write addr k m)).
Proof.
  unfold msg_account, account_effect, delta_write, token_write. simpl.
  destruct (BlockAggregatedChanges.account_deltas m !! _) as [d|],
    (BlockAggregatedChanges.account_balances m !! _) as [b|]; simpl;
    split_and!; try done; try (by destruct (AccountDelta.balance d));
    try (by destruct (AccountDelta.code d)); intros k; rewrite lookup_extend;
    first [by destruct (b !! k)|by destruct (written_slots (AccountDelta.slots d) !! k)].
Qed.

(** * What the database holds

    The specification of a commit does not mention the operations of the models: after the
    blocks of [l] are written, the database holds for every attribute, balance, slot and
    code the last value that a message of [l] wrote, and what it held before where none
    did.  A deleted attribute has no value, a deleted slot the empty one. *)
Definition last_write {V} (w : BlockAggregatedChanges.t → option V)
    (l : list BlockAggregatedChanges.t) : option V := last (omap w l).

Definition committed_component (l : list BlockAggregatedChanges.t) (s s' : ProtocolComponentState.t) : Prop :=
  let id := ProtocolComponentState.component_id s in
  ProtocolComponentState.component_id s' = id ∧
  (∀ k, ProtocolComponentState.attributes s' !! k =
     default (ProtocolComponentState.attributes s !! k) (last_write (attribute_write id k) l)) ∧
  (∀ k, ProtocolComponentState.balances s' !! k =
     default (ProtocolComponentState.balances s !! k) (last_write (balance_write id k) l)).

Definition slot_write (address k : Bytes) : BlockAggregatedChanges.t → option (option Bytes) :=
  delta_write (fun d => (fun v => Some (default [] v)) <$> AccountDelta.slots d !! k) address.

(** The code hash, the title and the transactions of the account are left open: the commit
    of new code also writes its hash. *)
Definition committed_account (l : list BlockAggregatedChanges.t) (a a' : Account.t) : Prop :=
  let address := Account.address a in
  Account.address a' = address ∧ Account.chain a' = Account.chain a ∧
  Account.native_balance a' =
    default (Account.native_balance a) (last_write (delta_write AccountDelta.balance address) l) ∧
  Account.code a' = default (Account.code a) (last_write (delta_write AccountDelta.code address) l) ∧
  (∀ k, Account.slots a' !! k =
     default (Account.slots a !! k) (last_write (slot_write address k) l)) ∧
  (∀ k, Account.token_balances a' !! k =
     default (Account.token_balances a !! k) (last_write (token_write address k) l)).

(** Two accounts with the same balance, code, slots and token balances. *)
Definition same_account (a a' : Account.t) : Prop :=
  Account.address a = Account.address a' ∧ Account.chain a = Account.chain a' ∧
  Account.native_balance a = Account.native_balance a' ∧ Account.code a = Account.code a' ∧
  Account.slots a = Account.slots a' ∧ Account.token_balances a = Account.token_balances a'.

Lemma default_last {V} (l : list V) v : default v (last l) = foldl (fun _ x => x) v l.
Proof.
  induction l as [|x l IH] using rev_ind; [done|]. by rewrite last_snoc, foldl_app.
Qed.

Lemma last_write_foldl {V} (w : BlockAggregatedChanges.t → option V) l v :
  default v (last_write w l) = foldl (fun v m => default v (w m)) v l.
Proof.
  unfold last_write. rewrite default_last. revert v.
  induction l as [|m l IH]; intros v; simpl; [done|].
  rewrite <-IH. by destruct (w m).
Qed.

(** Messages of which a part is stored already write what all of them would. *)
Lemma last_write_replay {V} (w : BlockAggregatedChanges.t → option V) p q r v :
  default (default v (last_write w (p ++ q))) (last_write w (q ++ r)) =
  default v (last_write w ((p ++ q) ++ r)).
Proof.
  rewrite !last_write_foldl, !foldl_app. f_equal.
  destruct (overwrite_or_skip w q) as [H|[x H]]; by rewrite !H.
Qed.

(** Applying messages with the operations of the models does what their commit does. *)
Lemma msgs_native_committed l s : committed_component l s (foldl msg_native s l).
Proof.
  set (id := ProtocolComponentState.component_id s).
  pose (inv := fun s => ProtocolComponentState.component_id s = id).
  assert (∀ s m, inv s → inv (msg_native s m)) as Hinv by (intros; unfold inv; by rewrite msg_native_id).
  pose proof (fun V obs w H => @foldl_obs _ _ V msg_native obs inv w Hinv H l s eq_refl) as Hobs.
  unfold committed_component. fold id. split_and!; [apply msgs_native_id|intros k|intros k];
    rewrite last_write_foldl.
  - apply (Hobs _ (fun s => ProtocolComponentState.attributes s !! k) (attribute_write id k)).
    intros s' m Hid. unfold inv in Hid. rewrite <-Hid. apply attributes_msg_native.
  - apply (Hobs _ (fun s => ProtocolComponentState.balances s !! k) (balance_write id k)).
    intros s' m Hid. unfold inv in Hid. rewrite <-Hid. apply balances_msg_native.
Qed.

Lemma slot_write_written d k :
  (fun v : option Bytes => Some (default [] v)) <$> AccountDelta.slots d !! k =
  Some <$> written_slots (AccountDelta.slots d) !! k.
Proof. unfold written_slots. rewrite lookup_fmap. by destruct (AccountDelta.slots d !! k). Qed.

Lemma msgs_account_committed l a :
  committed_account l a (foldl msg_account a l) ∧ account_frame (foldl msg_account a l) = account_frame a.
Proof.
  set (addr := Account.address a). pose (inv := fun a => Account.address a = addr).
  assert (∀ a m, inv a → inv (msg_account a m)) as Hinv.
  { intros a' m Ha. unfold inv. by rewrite (proj1 (msg_account_key a' m)). }
  pose proof (fun V obs w H => @foldl_obs _ _ V msg_account obs inv w Hinv H l a eq_refl) as Hobs.
  assert (account_frame (foldl msg_account a l) = account_frame a) as Hframe.
  { rewrite (Hobs _ account_frame (fun _ => None)).
    - generalize (account_frame a). clear. induction l; [done|]. intros f. simpl. auto.
    - intros a' m _. apply msg_account_fields. }
  split; [|done]. unfold account_frame in Hframe. simplify_eq.
  unfold committed_account. fold addr. split_and!; [done|done| | |intros k|intros k]; rewrite last_write_foldl.
  - apply (Hobs _ Account.native_balance (delta_write AccountDelta.balance addr)).
    intros a' m Ha. unfold inv in Ha. rewrite <-Ha. apply msg_account_fields.
  - apply (Hobs _ Account.code (delta_write AccountDelta.code addr)).
    intros a' m Ha. unfold inv in Ha. rewrite <-Ha. apply msg_account_fields.
  - apply (Hobs _ (fun a => Account.slots a !! k) (slot_write addr k)).
    intros a' m Ha. unfold inv in Ha. rewrite <-Ha.
    rewrite (proj1 (proj2 (proj2 (proj2 (msg_account_fields a' m)))) k). f_equal.
    unfold slot_write, delta_write. destruct (_ !! _); [|done]. simpl. by rewrite slot_write_written.
  - apply (Hobs _ (fun a => Account.token_balances a !! k) (token_write addr k)).
    intros a' m Ha. unfold inv in Ha. rewrite <-Ha. apply msg_account_fields.
Qed.

(** What is served after a commit agrees with what is served before it. *)
Lemma committed_component_replay p q r s s' t t' :
  committed_component (p ++ q) s s' → committed_component ((p ++ q) ++ r) s t →
  committed_component (q ++ r) s' t' → t' = t.
Proof.
  intros (Hi & Ha & Hb) (Hi1 & Ha1 & Hb1) (Hi2 & Ha2 & Hb2). rewrite Hi in *.
  apply native_ext; [congruence|intros k|intros k].
  - by rewrite Ha2, Ha, Ha1, last_write_replay.
  - by rewrite Hb2, Hb, Hb1, last_write_replay.
Qed.

Lemma committed_account_replay p q r a a' b b' :
  committed_account (p ++ q) a a' → committed_account ((p ++ q) ++ r) a b →
  committed_account (q ++ r) a' b' → same_account b' b.
Proof.
  intros (Hi & Hc & Hn & Ho & Hs & Ht) (Hi1 & Hc1 & Hn1 & Ho1 & Hs1 & Ht1) (Hi2 & Hc2 & Hn2 & Ho2 & Hs2 & Ht2).
  rewrite Hi in *. unfold same_account. split_and!; [congruence|congruence| | |apply map_eq; intros k|apply map_eq; intros k].
  - by rewrite Hn2, Hn, Hn1, last_write_replay.
  - by rewrite Ho2, Ho, Ho1, last_write_replay.
  - by rewrite Hs2, Hs, Hs1, last_write_replay.
  - by rewrite Ht2, Ht, Ht1, last_write_replay.
Qed.

(** * The guarantees *)

(** C1. The latest state served for a component or an account is what the database will
    hold once every buffered block is written, key by key the last write, and it does not
    depend on how far the database has committed: when the database has moved on by the
    blocks [p ++ q] and only [p] of them, all or none, have left the buffer, the same
    attributes and balances, and for accounts the same balance, code, slots and token
    balances, are served.  The code hash of an account is the exception: while its blocks
    are buffered it is the one the database has.  Requests are for the latest version, the
    messages of the buffer have their deltas under their own ids and all of one chain. *)
Theorem served_state_commit_independent c name (self self' : t) buf buf' p q r s s' a a' :
  self !! name = Some buf → self' !! name = Some buf' →
  ReorgBuffer.block_messages buf = (p ++ q) ++ r → ReorgBuffer.block_messages buf' = q ++ r →
  Forall (keyed_message c) ((p ++ q) ++ r) → Account.chain a = c →
  committed_component (p ++ q) s s' → committed_account (p ++ q) a a' →
  let served self s := (update_native_state None name self s).2 in
  let served_account self a := (update_vm_state None name self a).2 in
  (committed_component ((p ++ q) ++ r) s (served self s) ∧
   served self' s' = served self s) ∧
  (committed_account ((p ++ q) ++ r) a (served_account self a) ∧
   same_account (served_account self' a') (served_account self a) ∧
   Account.code_hash (served_account self a) = Account.code_hash a ∧
   Account.code_hash (served_account self' a') = Account.code_hash a').
Proof.
  intros Hb Hb' Hpr Hr Hk Hc Hcs Hca served served_account.
  apply entries_of_all in Hb, Hb'. rewrite Hpr in Hb. rewrite Hr in Hb'.
  assert (Forall (keyed_message c) (q ++ r)) as Hkr.
  { rewrite <-app_assoc in Hk. by apply Forall_app in Hk as [_ ?]. }
  assert (Account.chain a' = c) as Hc' by (destruct Hca as (_ & -> & _); done).
  subst served served_account; simpl.
  rewrite (update_native_state_ok c _ _ _ _ _ Hb Hk), (update_native_state_ok c _ _ _ _ _ Hb' Hkr).
  rewrite (update_vm_state_ok _ _ _ _ a Hb) by by rewrite Hc.
  rewrite (update_vm_state_ok _ _ _ _ a' Hb') by by rewrite Hc'.
  cbn [snd]. destruct (msgs_account_committed ((p ++ q) ++ r) a) as [Hca1 Hf1].
  destruct (msgs_account_committed (q ++ r) a') as [Hca2 Hf2].
  unfold account_frame in Hf1, Hf2.
  split_and!; [apply msgs_native_committed| |done| |congruence|congruence].
  - by eapply committed_component_replay; [exact Hcs|apply msgs_native_committed..].
  - by eapply committed_account_replay; [exact Hca|exact Hca1|exact Hca2].
Qed.

(** Inserting a full block appends it and may drain a prefix. *)
Lemma insert_locked_block m buf buf' :
  BlockAggregatedChanges.revert m = false → insert_locked m buf = (Ok tt, buf') →
  ∃ committed, ReorgBuffer.block_messages buf ++ [m] = committed ++ ReorgBuffer.block_messages buf' ∧
  match BlockAggregatedChanges.db_committed_block_height m with
  | Some h => committed = [] ∨
              ∃ b, head (ReorgBuffer.block_messages buf') = Some b ∧ height b = wrap 64 (h + 1)
  | None => committed = []
  end.
Proof.
  intros Hrev. unfold insert_locked. rewrite Hrev. unfold st_bind.
  destruct (ReorgBuffer.insert_block m buf) as [[[]|e|] buf1] eqn:Ei; try done.
  apply insert_block_Ok in Ei as (Hm & _ & _).
  destruct (BlockAggregatedChanges.db_committed_block_height m) as [h|].
  - destruct (ReorgBuffer.drain_blocks_until _ buf1) as [[l|e|] buf2] eqn:Ed; try done.
    intros [= <-]. apply drain_split in Ed as (Hs & _ & Hh & _). exists l. by rewrite <-Hm.
  - intros [= <-]. by exists [].
Qed.

(** Receiving the next block adds exactly its effects to what is served, whatever part
    of the buffer the message reports as committed and makes the buffer drop: if the
    database holds the dropped blocks, the served state is the one served before with the
    new message applied.  Only blocks up to the reported height are dropped. *)
Theorem insert_message_served c m (self self' : t) buf s :
  self !! BlockAggregatedChanges.extractor m = Some buf →
  BlockAggregatedChanges.revert m = false → insert m self = (Ok tt, self') →
  Forall (keyed_message c) (m :: ReorgBuffer.block_messages buf) →
  increasing height (ReorgBuffer.block_messages buf ++ [m]) →
  let name := BlockAggregatedChanges.extractor m in
  ∃ committed rest, ReorgBuffer.block_messages buf ++ [m] = committed ++ rest ∧
  (∀ h, BlockAggregatedChanges.db_committed_block_height m = Some h → (0 ≤ h < 2 ^ 64 - 1)%Z →
        Forall (fun b => height b ≤ h)%Z committed) ∧
  (update_native_state None name self' (foldl msg_native s committed)).2 =
  msg_native (update_native_state None name self s).2 m.
Proof.
  intros Hb Hrev Hi Hk Hinc name. unfold insert in Hi. rewrite Hb in Hi. unfold st_map_err in Hi.
  destruct (insert_locked m buf) as [[[]|e|] buf'] eqn:El; try done. injection Hi as <-.
  apply insert_locked_block in El as (committed & Heq & Hc); [|done].
  apply Forall_cons in Hk as [Hkm Hk].
  exists committed, (ReorgBuffer.block_messages buf'). split_and!; [done| |].
  - intros h Hh Hr. rewrite Hh in Hc. destruct Hc as [->|(b & Hb0 & Hbh)]; [done|].
    rewrite Heq in Hinc. apply increasing_app in Hinc as (_ & _ & Hlt).
    apply Forall_forall. intros x Hx. specialize (Hlt x b Hx).
    apply head_Some in Hb0 as [l' Hl']. rewrite Hl' in Hlt. specialize (Hlt ltac:(left)).
    unfold wrap in Hbh. rewrite Z.mod_small in Hbh by lia. lia.
  - assert (Forall (keyed_message c) (committed ++ ReorgBuffer.block_messages buf')) as Hk'.
    { rewrite <-Heq. apply Forall_app. split; [done|by constructor]. }
    rewrite (update_native_state_ok c _ _ _ (ReorgBuffer.block_messages buf')); last first.
    { by apply Forall_app in Hk' as [_ ?]. }
    { apply entries_of_all. apply lookup_insert_eq. }
    rewrite (update_native_state_ok c _ _ _ (ReorgBuffer.block_messages buf)); [|by apply entries_of_all|done].
    simpl. by rewrite <-foldl_app, <-Heq, foldl_app.
Qed.

(** A full revert message to a buffered block restores the buffers, and so everything
    that is served, to what they were when that block was the newest one. *)
Theorem revert_message_restores m (self : t) buf buf' tip bs :
  BlockAggregatedChanges.revert m = true → BlockAggregatedChanges.partial_block_index m = None →
  self !! BlockAggregatedChanges.extractor m = Some buf →
  last (ReorgBuffer.block_messages buf) = Some tip →
  Block.hash (BlockAggregatedChanges.block m) = Block.hash (block tip) →
  ReorgBuffer.strict buf' = ReorgBuffer.strict buf →
  ReorgBuffer.block_messages buf' = ReorgBuffer.block_messages buf ++ bs →
  Forall (fun b => Block.hash (block b) ≠ Block.hash (block tip)) bs →
  insert m (<[BlockAggregatedChanges.extractor m := buf']> self) = (Ok tt, self).
Proof.
  intros Hrev Hpart Hb Htip Hhash Hst Hm Hbs. unfold insert. rewrite lookup_insert_eq.
  unfold st_map_err, insert_locked. rewrite Hrev, Hpart, Hhash. unfold st_bind.
  rewrite (purge_to_tip bs buf buf' tip Htip Hbs Hm Hst). simpl.
  rewrite insert_insert_eq, insert_id by done. done.
Qed.

Lemma push_missing_ok {K S} (build : K → result PendingDeltasError S) (f : K → S) ks l :
  (∀ k, build k = Ok (f k)) → push_missing build ks l = (Ok tt, l ++ (f <$> ks)).
Proof.
  intros Hb. unfold push_missing. revert l; induction ks as [|k ks IH]; intros l; simpl.
  { by rewrite app_nil_r. }
  unfold st_bind. rewrite Hb. simpl in IH. rewrite IH. by rewrite <-app_assoc.
Qed.

Lemma elem_of_not_found {K S} `{Countable K} (id : S → K) requested l k :
  k ∈ not_found id requested l ↔ k ∈ default [] requested ∧ k ∉ id <$> l.
Proof.
  unfold not_found. rewrite <-(elem_of_list_to_set (C := gset K)).
  generalize (list_to_set (default [] requested) : gset K) as X.
  induction l as [|s l IH]; intros X; cbn [foldl].
  { split; [|tauto]. intros ?; split; [done|]. apply not_elem_of_nil. }
  rewrite IH, fmap_cons, not_elem_of_cons. set_solver.
Qed.

(** Merging the buffer into the component states read from the database succeeds and
    returns the served state of each of them, in order, followed by the states, built from
    the buffer alone, of exactly the requested components that were not read, each once. *)
Theorem merge_native_states_complete c ids name (self : t) buf db :
  self !! name = Some buf → Forall (keyed_message c) (ReorgBuffer.block_messages buf) →
  let served s := foldl msg_native s (ReorgBuffer.block_messages buf) in
  ∃ missing,
    merge_native_states ids None name self db =
      (Ok tt, (served <$> db) ++ ((fun id => served (ProtocolComponentState.new id ∅ ∅)) <$> missing)) ∧
    NoDup missing ∧
    ∀ id, id ∈ missing ↔ id ∈ default [] ids ∧ id ∉ ProtocolComponentState.component_id <$> db.
Proof.
  intros Hb Hk served. apply entries_of_all in Hb.
  pose proof (fun s => update_native_state_ok c None name self _ s Hb Hk) as Hupd.
  exists (elements (not_found ProtocolComponentState.component_id ids (served <$> db))). split_and!.
  - unfold merge_native_states, st_bind. rewrite (for_each_mut_ok _ _ served) by (intros; apply Hupd).
    apply (push_missing_ok _ (fun id => served (ProtocolComponentState.new id ∅ ∅))).
    intros k. by rewrite Hupd.
  - apply NoDup_elements.
  - intros id. rewrite elem_of_elements, elem_of_not_found.
    replace (ProtocolComponentState.component_id <$> (served <$> db))
      with (ProtocolComponentState.component_id <$> db); [done|].
    rewrite <-list_fmap_compose. apply list_fmap_ext. intros _ s _. unfold served; simpl.
    by rewrite msgs_native_id.
Qed.

(** ** Accounts that are not in the database *)

Section get_account.
Context (keccak256 : Bytes → Bytes) (hex_title : Bytes → string) (c : Chain) (address : Bytes).

Lemma get_account_entry_some m a :
  keyed_message c m → Account.chain a = c → Account.address a = address →
  get_account_entry keccak256 hex_title address (Some a) m = Ok (Some (msg_account a m)).
Proof.
  intros (_ & Hk & Hc) Hac Haa. unfold get_account_entry, msg_account, account_effect. rewrite Haa.
  destruct (BlockAggregatedChanges.account_deltas m !! address) as [d|] eqn:Ed; simpl.
  - pose proof (Hc _ _ Ed). apply Hk in Ed. unfold Account.apply_delta.
    case_decide; [congruence|]. simpl. by destruct (BlockAggregatedChanges.account_balances m !! address).
  - by destruct (BlockAggregatedChanges.account_balances m !! address).
Qed.

Lemma get_account_fold l a :
  Forall (keyed_message c) l → Account.chain a = c → Account.address a = address →
  try_fold (get_account_entry keccak256 hex_title address) (Some a) l = Ok (Some (foldl msg_account a l)).
Proof.
  intros Hl; revert a; induction Hl as [|m l Hm _ IH]; intros a Ha Ha'; [done|].
  cbn [try_fold]. rewrite get_account_entry_some by done. simpl.
  destruct (msg_account_key a m) as [H1 H2]. apply IH; congruence.
Qed.

Lemma get_account_skip l :
  Forall (fun m => BlockAggregatedChanges.account_deltas m !! address = None) l →
  try_fold (get_account_entry keccak256 hex_title address) None l = Ok None.
Proof.
  induction 1 as [|m l Hm _ IH]; [done|]. cbn [try_fold].
  replace (get_account_entry keccak256 hex_title address None m)
    with (@Ok PendingDeltasError _ (@None Account.t)) by (unfold get_account_entry; by rewrite Hm).
  done.
Qed.

Lemma get_account_entries (self : t) :
  get_account keccak256 hex_title address None self =
    (account ← try_fold (get_account_entry keccak256 hex_title address) None
                 ((map_to_list self).*2 ≫= ReorgBuffer.block_messages);
     ok_or account (ReorgBufferError (NotFound "Contract" "address"))).
Proof.
  unfold get_account. f_equal. generalize (@None Account.t).
  induction (map_to_list self).*2 as [|b l IH]; intros acc; [done|].
  rewrite bind_cons, try_fold_app. cbn [try_fold].
  rewrite get_block_range_all. simpl.
  destruct (try_fold (get_account_entry keccak256 hex_title address) acc (ReorgBuffer.block_messages b));
    [apply IH|done|done].
Qed.

Lemma get_account_built (self : t) l1 m d l2 :
  (map_to_list self).*2 ≫= ReorgBuffer.block_messages = l1 ++ m :: l2 →
  Forall (fun m => BlockAggregatedChanges.account_deltas m !! address = None) l1 →
  Forall (keyed_message c) (m :: l2) →
  BlockAggregatedChanges.account_deltas m !! address = Some d →
  get_account keccak256 hex_title address None self =
    Ok (foldl msg_account (into_account_without_tx keccak256 hex_title d) (m :: l2)).
Proof.
  intros He Hl1 Hk Hd. rewrite get_account_entries, He, try_fold_app, get_account_skip by done.
  set (a := into_account_without_tx keccak256 hex_title d).
  pose proof Hk as Hk'. apply Forall_cons in Hk' as [(_ & Hkd & Hkc) _].
  pose proof (Hkc _ _ Hd) as Hc. pose proof (Hkd _ _ Hd) as Ha.
  assert (try_fold (get_account_entry keccak256 hex_title address) None (m :: l2) =
    try_fold (get_account_entry keccak256 hex_title address) (Some a) (m :: l2)) as Hfirst.
  { cbn [try_fold]. f_equal. unfold get_account_entry. by rewrite Hd. }
  cbn [mbind result_bind]. rewrite Hfirst.
  by rewrite get_account_fold.
Qed.

(** An account that is not in the database is served from the buffers alone: it starts
    as the account its first buffered delta describes, and that message and every later one
    are applied to it; without a buffered delta it is not found, and balances alone do not
    create it. *)
Theorem get_account_from_deltas (self : t) :
  let entries := (map_to_list self).*2 ≫= ReorgBuffer.block_messages in
  Forall (keyed_message c) entries →
  (Forall (fun m => BlockAggregatedChanges.account_deltas m !! address = None) entries →
   get_account keccak256 hex_title address None self =
     Err (ReorgBufferError (NotFound "Contract" "address"))) ∧
  (∀ l1 m d l2, entries = l1 ++ m :: l2 →
   Forall (fun m => BlockAggregatedChanges.account_deltas m !! address = None) l1 →
   BlockAggregatedChanges.account_deltas m !! address = Some d →
   get_account keccak256 hex_title address None self =
     Ok (foldl msg_account (into_account_without_tx keccak256 hex_title d) (m :: l2))).
Proof.
  intros entries Hk. split.
  - intros Hn. by rewrite get_account_entries, get_account_skip.
  - intros l1 m d l2 He Hl1 Hd. apply (get_account_built self l1); [done|done| |done].
    rewrite He in Hk. by apply Forall_app in Hk as [_ ?].
Qed.
End get_account.

(** ** Every buffer stays a chain *)

Lemma insert_locked_chained m buf r buf' :
  insert_locked m buf = (r, buf') → chained (ReorgBuffer.block_messages buf) →
  chained (ReorgBuffer.block_messages buf').
Proof.
  unfold insert_locked, st_bind, st_ret. intros Hi Hc. destruct (BlockAggregatedChanges.revert m).
  - destruct (BlockAggregatedChanges.partial_block_index m); [by injection Hi as <- <-|].
    destruct (ReorgBuffer.purge _ buf) as [rp buf1] eqn:Ep.
    assert (chained (ReorgBuffer.block_messages buf1)) by (eapply step_chained; [by eapply step_purge|done]).
    destruct rp; by injection Hi as <- <-.
  - destruct (ReorgBuffer.insert_block m buf) as [ri buf1] eqn:Ei.
    assert (chained (ReorgBuffer.block_messages buf1)) by (eapply step_chained; [by eapply step_insert|done]).
    destruct ri; [|by injection Hi as <- <-|by injection Hi as <- <-].
    destruct (BlockAggregatedChanges.db_committed_block_height m); [|by injection Hi as <- <-].
    destruct (ReorgBuffer.drain_blocks_until _ buf1) as [rd buf2] eqn:Ed.
    assert (chained (ReorgBuffer.block_messages buf2)) by (eapply step_chained; [by eapply step_drain|done]).
    destruct rd; by injection Hi as <- <-.
Qed.

(** What holds of the service at any time: one buffer per configured extractor, each a
    connected chain. *)
Definition service_inv (extractors : list string) (self : t) : Prop :=
  dom self = list_to_set extractors ∧
  map_Forall (fun _ buf => chained (ReorgBuffer.block_messages buf)) self.

Lemma service_inv_new extractors : service_inv extractors (new extractors).
Proof.
  unfold new. split.
  - rewrite dom_list_to_map_L. rewrite <-fmap_reverse, <-list_fmap_compose.
    apply set_eq. intros x. rewrite !elem_of_list_to_set, list_elem_of_fmap. split.
    + intros (y & -> & Hy). rewrite elem_of_reverse in Hy. exact Hy.
    + intros Hx. exists x. split; [done|]. by rewrite elem_of_reverse.
  - intros k buf Hk. apply elem_of_list_to_map_2 in Hk. rewrite elem_of_reverse, list_elem_of_fmap in Hk.
    destruct Hk as (e & [= _ ->] & _). apply chained_nil.
Qed.

Lemma service_inv_message extractors m self r self' :
  on_message m self = (r, self') → service_inv extractors self → service_inv extractors self'.
Proof.
  intros Ho [Hd Hc]. unfold on_message in Ho.
  destruct (BlockAggregatedChanges.partial_block_index m); [by injection Ho as <- <-|].
  unfold insert in Ho. destruct (self !! _) as [buf|] eqn:Eb; [|by injection Ho as <- <-].
  unfold st_map_err in Ho. destruct (insert_locked m buf) as [ri buf'] eqn:Ei.
  assert (self' = <[BlockAggregatedChanges.extractor m := buf']> self) as ->
    by (destruct ri; by injection Ho as <- <-).
  split.
  - rewrite dom_insert_L. apply elem_of_dom_2 in Eb. set_solver.
  - apply map_Forall_insert_2; [|done]. eapply insert_locked_chained; [done|]. by apply (Hc _ _ Eb).
Qed.

(** Whatever messages the service receives, also ones that fail, it keeps exactly one
    buffer for each configured extractor, and the messages of every buffer form a connected
    chain. *)
Theorem service_invariant extractors (messages : list BlockAggregatedChanges.t) :
  service_inv extractors
    (foldl (fun self m => (on_message m self).2) (new extractors) messages).
Proof.
  generalize (service_inv_new extractors). generalize (new extractors).
  induction messages as [|m l IH]; intros self Hs; [done|]. simpl. apply IH.
  by eapply service_inv_message; [apply surjective_pairing|].
Qed.

(** ** Witnesses *)

Module ServiceExamples.
Definition addr : Bytes := [x01].
Definition blk (n : Z) (hash parent : byte) : Block.t := Block.mk n Ethereum [hash] [parent] n.
Definition delta (v : byte) : ProtocolComponentStateDelta.t :=
  ProtocolComponentStateDelta.new "pool" {["fee" := [v]]} ∅.
Definition account_delta (v : byte) : AccountDelta.t :=
  AccountDelta.mk Ethereum addr {[ [x00] := Some [v] ]} None None Update.
Definition msg (b : Block.t) (committed : option Z) (revert : bool) (v : byte) : BlockAggregatedChanges.t :=
  BlockAggregatedChanges.mk "ambient" Ethereum b 0 committed revert
    {["pool" := delta v]} {[addr := account_delta v]} ∅ ∅ ∅ ∅ ∅ ∅ DCIUpdate.default_ None.
Definition m1 : BlockAggregatedChanges.t := msg (blk 1 x01 x00) None false x0a.
Definition m2 : BlockAggregatedChanges.t := msg (blk 2 x02 x01) None false x0b.
Definition m3 : BlockAggregatedChanges.t := msg (blk 3 x03 x02) (Some 1%Z) false x0c.
Definition rv : BlockAggregatedChanges.t := msg (blk 1 x01 x00) None true x00.
Definition one (l : list BlockAggregatedChanges.t) : t := {["ambient" := ReorgBuffer.mk l false]}.
Definition state0 : ProtocolComponentState.t := ProtocolComponentState.new "pool" ∅ ∅.
Definition account0 : Account.t := Account.mk Ethereum addr "" ∅ [] ∅ [] [] [] [] None.

Lemma msg_keyed b committed revert v : keyed_message Ethereum (msg b committed revert v).
Proof.
  split_and!; intros k d; simpl; rewrite lookup_singleton_Some; by intros [<- <-].
Qed.

Lemma one_entries l : (map_to_list (one l)).*2 ≫= ReorgBuffer.block_messages = l.
Proof. unfold one. rewrite map_to_list_singleton. simpl. apply app_nil_r. Qed.

Lemma one_keyed : Forall (keyed_message Ethereum) ((map_to_list (one [m1; m2])).*2 ≫= ReorgBuffer.block_messages).
Proof. rewrite one_entries. repeat constructor; apply msg_keyed. Qed.
End ServiceExamples.

Import ServiceExamples.

Lemma served_state_commit_independent_witness :
  ProtocolComponentState.attributes (update_native_state None "ambient" (one [m2])
    (ProtocolComponentState.new "pool" {["fee" := [x0a]]} ∅)).2 !! "fee" = Some [x0b] ∧
  (update_native_state None "ambient" (one [m2]) (ProtocolComponentState.new "pool" {["fee" := [x0a]]} ∅)).2 =
  (update_native_state None "ambient" (one [m1; m2]) state0).2.
Proof.
  split; [reflexivity|].
  refine (proj2 (proj1 (served_state_commit_independent Ethereum "ambient" (one [m1; m2]) (one [m2])
    _ _ [m1] [] [m2] state0 (ProtocolComponentState.new "pool" {["fee" := [x0a]]} ∅)
    account0 (foldl msg_account account0 [m1]) _ _ _ _ _ _ _ _))); try reflexivity.
  - repeat constructor; apply msg_keyed.
  - apply (msgs_native_committed [m1] state0).
  - apply (msgs_account_committed [m1] account0).
Defined.

(** While the block that replaces the code of an account is buffered, the account is
    served with the new code and the hash of the old one. *)
Lemma served_code_hash_stale :
  let m := BlockAggregatedChanges.mk "ambient" Ethereum (blk 1 x01 x00) 0 None false ∅
    {[addr := AccountDelta.mk Ethereum addr ∅ None (Some [xff]) Update]} ∅ ∅ ∅ ∅ ∅ ∅ DCIUpdate.default_ None in
  let a := Account.mk Ethereum addr "" ∅ [] ∅ [xaa] [xbb] [] [] None in
  let a' := (update_vm_state None "ambient" (one [m]) a).2 in
  Account.code a' = [xff] ∧ Account.code_hash a' = Account.code_hash a.
Proof. vm_compute. done. Qed.

Lemma insert_message_served_witness : ∃ self' committed,
  insert m3 (one [m1; m2]) = (Ok tt, self') ∧
  (update_native_state None "ambient" self' (foldl msg_native state0 committed)).2 =
  msg_native (update_native_state None "ambient" (one [m1; m2]) state0).2 m3.
Proof.
  destruct (insert_message_served Ethereum m3 (one [m1; m2]) (insert m3 (one [m1; m2])).2
    (ReorgBuffer.mk [m1; m2] false) state0) as (committed & rest & _ & _ & H).
  - reflexivity.
  - reflexivity.
  - vm_compute. reflexivity.
  - repeat constructor; apply msg_keyed.
  - repeat constructor.
  - exists (insert m3 (one [m1; m2])).2, committed. split; [vm_compute; reflexivity|exact H].
Defined.

Lemma revert_message_restores_witness : insert rv (one [m1; m2]) = (Ok tt, one [m1]).
Proof.
  apply (revert_message_restores rv (one [m1]) (ReorgBuffer.mk [m1] false)
    (ReorgBuffer.mk [m1; m2] false) m1 [m2]); try reflexivity.
  repeat constructor; discriminate.
Defined.

Lemma merge_native_states_complete_witness : ∃ missing,
  merge_native_states (Some ["pool"; "other"]) None "ambient" (one [m1]) [state0] =
    (Ok tt, [msg_native state0 m1] ++
       ((fun id => msg_native (ProtocolComponentState.new id ∅ ∅) m1) <$> missing)) ∧
  "other" ∈ missing ∧ "pool" ∉ missing.
Proof.
  destruct (merge_native_states_complete Ethereum (Some ["pool"; "other"]) "ambient" (one [m1])
    (ReorgBuffer.mk [m1] false) [state0]) as (missing & H1 & _ & H2).
  - reflexivity.
  - repeat constructor; apply msg_keyed.
  - exists missing. split; [exact H1|]. split.
    + apply H2. split; [right; left|]. simpl. intros [H|H]%elem_of_cons; [discriminate H|].
      by apply elem_of_nil in H.
    + intros H. apply H2 in H as [_ H]. apply H. left.
Defined.

Lemma get_account_from_deltas_witness :
  get_account (fun _ => []) (fun _ => "") addr None (one [m1; m2]) =
    Ok (foldl msg_account (into_account_without_tx (fun _ => []) (fun _ => "") (account_delta x0a)) [m1; m2]) ∧
  get_account (fun _ => []) (fun _ => "") [x77] None (one [m1; m2]) =
    Err (ReorgBufferError (NotFound "Contract" "address")).
Proof.
  split.
  - apply (proj2 (get_account_from_deltas (fun _ => []) (fun _ => "") Ethereum addr (one [m1; m2])
      one_keyed) [] m1); [apply one_entries|constructor|reflexivity].
  - apply (proj1 (get_account_from_deltas (fun _ => []) (fun _ => "") Ethereum [x77] (one [m1; m2])
      one_keyed)). rewrite one_entries. constructor; [reflexivity|]. constructor; [reflexivity|constructor].
Defined.
