(* ===== verification/DciCache.v ===== *)
(** The block-versioned caches of the dynamic contract indexer:
    [tycho_indexer::extractor::dynamic_contract_indexer::cache].

    A [VersionedCache] is a permanent map below a queue of per-block layers, oldest first;
    [DCICache] and [HooksDCICache] are records of such caches that move in lockstep. *)

From S2P Require Import Prelude Collections Bytes Models Blockchain.

Open Scope tycho_scope.

(** [BlockNotFound] carries the printed height or hash. *)
Inductive DCICacheError :=
| UnexpectedBlockOrder (new_number last_number : Z)
| BlockNotFound (what : Z + Bytes) (context : string).

#[global] Instance dci_cache_error_eq_dec : EqDecision DCICacheError.
Proof. solve_decision. Defined.

Inductive MergeStrategy (V : Type) :=
| ReplaceStrategy
| Custom (merge_func : V → V → V).
Arguments ReplaceStrategy {V}.
Arguments Custom {V} merge_func.

Module BlockScopedMap.
Section layer.
Context (K V : Type) `{Countable K}.
Record t := mk { block : Block.t; data : gmap K V }.
End layer.
Arguments mk {K V _ _} _ _.
Arguments block {K V _ _} _.
Arguments data {K V _ _} _.
End BlockScopedMap.

#[global] Instance layer_scoped {K V} `{Countable K} : BlockScoped (BlockScopedMap.t K V) :=
  BlockScopedMap.block.

Module VersionedCache.
Section cache.
Context {K V : Type} `{Countable K}.

Abbreviation Layer := (BlockScopedMap.t K V).

Record t := mk { permanent : gmap K V; pending : list Layer }.

Definition new : t := mk ∅ [].

Definition set_pending (l : list Layer) (self : t) : t := mk (permanent self) l.

Definition insert_permanent (k : K) (v : V) (self : t) : t :=
  mk (<[k := v]> (permanent self)) (pending self).

Definition extend_permanent (entries : list (K * V)) (self : t) : t :=
  mk (foldl (fun m '(k, v) => <[k := v]> m) (permanent self) entries) (pending self).

(** What the caller does with [permanent.entry(k)]. *)
Definition permanent_entry (k : K) (f : option V → option V) (self : t) : t :=
  mk (partial_alter f k (permanent self)) (pending self).

(** [get_layer_mut(block)?], then an update of the data of the layer. *)
Definition get_layer_mut (blk : Block.t) (f : gmap K V → gmap K V) : stm t DCICacheError unit := fun self =>
  match position (fun layer => bool_decide (BlockScopedMap.block layer = blk)) (pending self) with
  | Some i =>
      (Ok tt, set_pending (alter (fun layer => BlockScopedMap.mk (BlockScopedMap.block layer)
                                                 (f (BlockScopedMap.data layer))) i (pending self)) self)
  | None => (Err (BlockNotFound (inl (Block.number blk)) "get layer"), self)
  end.

Definition insert_pending (blk : Block.t) (k : K) (v : V) : stm t DCICacheError unit :=
  get_layer_mut blk (<[k := v]>).

Definition extend_pending (blk : Block.t) (entries : list (K * V)) : stm t DCICacheError unit :=
  get_layer_mut blk (fun m => foldl (fun m '(k, v) => <[k := v]> m) m entries).

Definition pending_entry (blk : Block.t) (k : K) (f : option V → option V) : stm t DCICacheError unit :=
  get_layer_mut blk (partial_alter f k).

(** The loop of [get] over the layers, newest first. *)
Fixpoint get_pending (l : list Layer) (k : K) : option V :=
  match l with
  | [] => None
  | layer :: l' =>
      match BlockScopedMap.data layer !! k with Some v => Some v | None => get_pending l' k end
  end.

Definition get (k : K) (self : t) : option V :=
  match get_pending (reverse (pending self)) k with
  | Some v => Some v
  | None => permanent self !! k
  end.

Definition get_all (k : K) (self : t) : option (list V) :=
  let iter := omap (fun layer => BlockScopedMap.data layer !! k) (reverse (pending self)) ++
              option_list (permanent self !! k) in
  match iter with [] => None | _ => Some iter end.

Definition contains_key (k : K) (self : t) : bool :=
  existsb (fun layer => bool_decide (is_Some (BlockScopedMap.data layer !! k))) (reverse (pending self)) ||
  bool_decide (is_Some (permanent self !! k)).

Definition pending_layer_count (self : t) : nat := length (pending self).

Definition iter_latest (self : t) : gmap K V :=
  foldl (fun result layer => extend result (BlockScopedMap.data layer)) (permanent self) (pending self).

Definition unique_key_count (self : t) : nat :=
  size (foldl (fun keys layer => keys ∪ dom (BlockScopedMap.data layer)) (dom (permanent self)) (pending self)).

(** Move one finalized layer to the permanent map. *)
Definition finalize_layer (strategy : MergeStrategy V) (permanent : gmap K V) (layer : Layer) : gmap K V :=
  match strategy with
  | ReplaceStrategy => extend permanent (BlockScopedMap.data layer)
  | Custom merge_func =>
      upsert_all (fun value o => match o with
                                 | Some existing => merge_func existing value
                                 | None => value end) permanent (BlockScopedMap.data layer)
  end.

Definition handle_finality (finalized_block_height : Z) (strategy : MergeStrategy V) :
    stm t DCICacheError unit := fun self =>
  match pending self with
  | [] => (Ok tt, self)
  | _ =>
      match position (fun layer => bool_decide
              (Block.number (BlockScopedMap.block layer) = finalized_block_height)) (pending self) with
      | None => (Err (BlockNotFound (inl finalized_block_height) "finality"), self)
      | Some finalized_index =>
          (Ok tt, mk (foldl (finalize_layer strategy) (permanent self) (take finalized_index (pending self)))
                     (drop finalized_index (pending self)))
      end
  end.

Definition revert_to (hash : Bytes) : stm t DCICacheError unit := fun self =>
  match pending self with
  | [] => (Ok tt, self)
  | front :: _ =>
      match position (fun layer => bool_decide (Block.hash (BlockScopedMap.block layer) = hash))
              (reverse (pending self)) with
      | Some i => (Ok tt, set_pending (take (length (pending self) - i) (pending self)) self)
      | None =>
          if decide (Block.parent_hash (BlockScopedMap.block front) = hash)
          then (Ok tt, set_pending [] self)
          else (Err (BlockNotFound (inr hash) "revert to"), self)
      end
  end.

Definition validate_and_ensure_block_layer_internal (blk : Block.t) : stm t DCICacheError unit := fun self =>
  match last (pending self) with
  | None => (Ok tt, set_pending (pending self ++ [BlockScopedMap.mk blk ∅]) self)
  | Some last_layer =>
      if decide (BlockScopedMap.block last_layer = blk) then (Ok tt, self)
      else if decide (Block.hash (BlockScopedMap.block last_layer) = Block.parent_hash blk)
      then (Ok tt, set_pending (pending self ++ [BlockScopedMap.mk blk ∅]) self)
      else (Err (UnexpectedBlockOrder (Block.number blk)
                   (Block.number (BlockScopedMap.block last_layer))), self)
  end.

End cache.
Arguments t K V {_ _}.
End VersionedCache.

(** * The caches of the dynamic contract indexer *)

Module DCICache.
Import VersionedCache.

Record t := mk {
  ep_id_to_entrypoint : VersionedCache.t string EntryPoint.t;
  entrypoint_results : VersionedCache.t (string * TracingParams) (option TracingResult.t);
  retriggers : VersionedCache.t (Bytes * Bytes) (gset EntryPointWithTracingParams.t * Z);
  tracked_contracts : VersionedCache.t Bytes (gset Bytes);
  erc20_addresses : VersionedCache.t Bytes bool;
  blacklisted_addresses : VersionedCache.t Bytes bool;
  ep_id_to_component_id : VersionedCache.t string (gset string);
  component_id_to_entrypoint_params : VersionedCache.t string (gset EntryPointWithTracingParams.t);
  tracing_retry_counts : VersionedCache.t (string * TracingParams) Z
}.

Definition new : t := mk new new new new new new new new new.

Definition on_ep_id_to_entrypoint {E A} : stm _ E A → stm t E A :=
  on_field ep_id_to_entrypoint (fun f s => mk f (entrypoint_results s) (retriggers s) (tracked_contracts s)
    (erc20_addresses s) (blacklisted_addresses s) (ep_id_to_component_id s)
    (component_id_to_entrypoint_params s) (tracing_retry_counts s)).
Definition on_entrypoint_results {E A} : stm _ E A → stm t E A :=
  on_field entrypoint_results (fun f s => mk (ep_id_to_entrypoint s) f (retriggers s) (tracked_contracts s)
    (erc20_addresses s) (blacklisted_addresses s) (ep_id_to_component_id s)
    (component_id_to_entrypoint_params s) (tracing_retry_counts s)).
Definition on_retriggers {E A} : stm _ E A → stm t E A :=
  on_field retriggers (fun f s => mk (ep_id_to_entrypoint s) (entrypoint_results s) f (tracked_contracts s)
    (erc20_addresses s) (blacklisted_addresses s) (ep_id_to_component_id s)
    (component_id_to_entrypoint_params s) (tracing_retry_counts s)).
Definition on_tracked_contracts {E A} : stm _ E A → stm t E A :=
  on_field tracked_contracts (fun f s => mk (ep_id_to_entrypoint s) (entrypoint_results s) (retriggers s) f
    (erc20_addresses s) (blacklisted_addresses s) (ep_id_to_component_id s)
    (component_id_to_entrypoint_params s) (tracing_retry_counts s)).
Definition on_erc20_addresses {E A} : stm _ E A → stm t E A :=
  on_field erc20_addresses (fun f s => mk (ep_id_to_entrypoint s) (entrypoint_results s) (retriggers s)
    (tracked_contracts s) f (blacklisted_addresses s) (ep_id_to_component_id s)
    (component_id_to_entrypoint_params s) (tracing_retry_counts s)).
Definition on_blacklisted_addresses {E A} : stm _ E A → stm t E A :=
  on_field blacklisted_addresses (fun f s => mk (ep_id_to_entrypoint s) (entrypoint_results s) (retriggers s)
    (tracked_contracts s) (erc20_addresses s) f (ep_id_to_component_id s)
    (component_id_to_entrypoint_params s) (tracing_retry_counts s)).
Definition on_ep_id_to_component_id {E A} : stm _ E A → stm t E A :=
  on_field ep_id_to_component_id (fun f s => mk (ep_id_to_entrypoint s) (entrypoint_results s) (retriggers s)
    (tracked_contracts s) (erc20_addresses s) (blacklisted_addresses s) f
    (component_id_to_entrypoint_params s) (tracing_retry_counts s)).
Definition on_component_id_to_entrypoint_params {E A} : stm _ E A → stm t E A :=
  on_field component_id_to_entrypoint_params (fun f s => mk (ep_id_to_entrypoint s) (entrypoint_results s)
    (retriggers s) (tracked_contracts s) (erc20_addresses s) (blacklisted_addresses s)
    (ep_id_to_component_id s) f (tracing_retry_counts s)).
Definition on_tracing_retry_counts {E A} : stm _ E A → stm t E A :=
  on_field tracing_retry_counts (fun f s => mk (ep_id_to_entrypoint s) (entrypoint_results s) (retriggers s)
    (tracked_contracts s) (erc20_addresses s) (blacklisted_addresses s) (ep_id_to_component_id s)
    (component_id_to_entrypoint_params s) f).

Definition revert_to (hash : Bytes) : stm t DCICacheError unit :=
  on_ep_id_to_entrypoint (revert_to hash) ;?
  on_entrypoint_results (revert_to hash) ;?
  on_retriggers (revert_to hash) ;?
  on_tracked_contracts (revert_to hash) ;?
  on_erc20_addresses (revert_to hash) ;?
  on_blacklisted_addresses (revert_to hash) ;?
  on_ep_id_to_component_id (revert_to hash) ;?
  on_component_id_to_entrypoint_params (revert_to hash) ;?
  on_tracing_retry_counts (revert_to hash) ;?
  st_ret tt.

(** The merge functions: the retriggers of a location accumulate and keep the first offset;
    the set-valued caches accumulate. *)
Definition merge_retriggers (existing new : gset EntryPointWithTracingParams.t * Z) :
    gset EntryPointWithTracingParams.t * Z := (existing.1 ∪ new.1, existing.2).
Definition merge_sets {A} `{Countable A} (existing new : gset A) : gset A := existing ∪ new.

Definition handle_finality (h : Z) : stm t DCICacheError unit :=
  on_ep_id_to_entrypoint (handle_finality h ReplaceStrategy) ;?
  on_entrypoint_results (handle_finality h ReplaceStrategy) ;?
  on_retriggers (handle_finality h (Custom merge_retriggers)) ;?
  on_tracked_contracts (handle_finality h (Custom merge_sets)) ;?
  on_erc20_addresses (handle_finality h ReplaceStrategy) ;?
  on_blacklisted_addresses (handle_finality h ReplaceStrategy) ;?
  on_ep_id_to_component_id (handle_finality h (Custom merge_sets)) ;?
  on_component_id_to_entrypoint_params (handle_finality h (Custom merge_sets)) ;?
  on_tracing_retry_counts (handle_finality h ReplaceStrategy) ;?
  st_ret tt.

Definition try_insert_block_layer (blk : Block.t) : stm t DCICacheError unit :=
  on_ep_id_to_entrypoint (validate_and_ensure_block_layer_internal blk) ;?
  on_entrypoint_results (validate_and_ensure_block_layer_internal blk) ;?
  on_retriggers (validate_and_ensure_block_layer_internal blk) ;?
  on_tracked_contracts (validate_and_ensure_block_layer_internal blk) ;?
  on_ep_id_to_component_id (validate_and_ensure_block_layer_internal blk) ;?
  on_erc20_addresses (validate_and_ensure_block_layer_internal blk) ;?
  on_blacklisted_addresses (validate_and_ensure_block_layer_internal blk) ;?
  on_component_id_to_entrypoint_params (validate_and_ensure_block_layer_internal blk) ;?
  on_tracing_retry_counts (validate_and_ensure_block_layer_internal blk) ;?
  st_ret tt.
End DCICache.

(** * The cache of the hooks indexer *)

Inductive ProcessingStatus := Unprocessed | TracingComplete | Failed.
Inductive ProcessingError := MetadataError (msg : string) | TracingError (msg : string).

Module ComponentProcessingState.
Record t := mk { status : ProcessingStatus; retry_count : Z; last_error : option ProcessingError }.
End ComponentProcessingState.

Module HooksDCICache.
Import VersionedCache.

Record t := mk {
  component_states : VersionedCache.t string ComponentProcessingState.t;
  protocol_components : VersionedCache.t string ProtocolComponent.t
}.

Definition new : t := mk new new.

Definition on_component_states {E A} : stm _ E A → stm t E A :=
  on_field component_states (fun f s => mk f (protocol_components s)).
Definition on_protocol_components {E A} : stm _ E A → stm t E A :=
  on_field protocol_components (fun f s => mk (component_states s) f).

Definition revert_to (hash : Bytes) : stm t DCICacheError unit :=
  on_component_states (revert_to hash) ;? on_protocol_components (revert_to hash) ;? st_ret tt.

Definition handle_finality (h : Z) : stm t DCICacheError unit :=
  on_component_states (handle_finality h ReplaceStrategy) ;?
  on_protocol_components (handle_finality h ReplaceStrategy) ;? st_ret tt.

Definition try_insert_block_layer (blk : Block.t) : stm t DCICacheError unit :=
  on_component_states (validate_and_ensure_block_layer_internal blk) ;?
  on_protocol_components (validate_and_ensure_block_layer_internal blk) ;? st_ret tt.
End HooksDCICache.
