(* ===== verification/DciCacheSpec.v ===== *)
(** What the versioned caches guarantee.

    A read sees the newest layer that has the key; finalizing blocks cannot be observed by
    reads; reverting restores the cache of the block reverted to; the sub-caches of a
    [DCICache] always hold layers for the same blocks, so that an operation on it either
    succeeds on all of them or changes none. *)

From Stdlib Require Import Strings.Byte.
From S2P Require Import Prelude Collections Bytes Models Blockchain ReorgBuffer ReorgBufferSpec DciCache.

Import VersionedCache.

Section cache_facts.
Context {K V : Type} `{Countable K}.
Abbreviation Cache := (VersionedCache.t K V).
Abbreviation Layer := (BlockScopedMap.t K V).
Implicit Types (self : Cache) (l : list Layer).

Definition at_layer (layer : Layer) (k : K) : option V := BlockScopedMap.data layer !! k.

Lemma get_pending_newest l k : get_pending l k = newest at_layer l k.
Proof. induction l as [|layer l IH]; simpl; [done|]. unfold at_layer at 1. by rewrite IH. Qed.

Lemma lookup_extend_layers l (m : gmap K V) k :
  foldl (fun result layer => extend result (BlockScopedMap.data layer)) m l !! k =
  match newest at_layer (reverse l) k with Some v => Some v | None => m !! k end.
Proof.
  revert m; induction l as [|layer l IH]; intros m; simpl; [done|].
  rewrite IH, reverse_cons, newest_app, lookup_extend.
  destruct (newest at_layer (reverse l) k); [done|]. simpl. unfold at_layer.
  by destruct (BlockScopedMap.data layer !! k).
Qed.

(** ** Views *)

Lemma lookup_iter_latest self k : iter_latest self !! k = get k self.
Proof. unfold iter_latest, get. by rewrite lookup_extend_layers, get_pending_newest. Qed.

Lemma head_get_all self k : (get_all k self ≫= head) = get k self.
Proof.
  unfold get_all, get. generalize (permanent self !! k) as o.
  induction (reverse (pending self)) as [|layer l IH]; intros o; simpl; [by destruct o|].
  by destruct (BlockScopedMap.data layer !! k).
Qed.

Lemma contains_key_get self k : contains_key k self = bool_decide (is_Some (get k self)).
Proof.
  unfold contains_key, get. induction (reverse (pending self)) as [|layer l IH]; simpl; [done|].
  destruct (BlockScopedMap.data layer !! k); [done|]. apply IH.
Qed.

Lemma unique_key_count_size self : unique_key_count self = size (iter_latest self).
Proof.
  unfold unique_key_count, iter_latest. rewrite <-size_dom. f_equal.
  generalize (permanent self) as m. induction (pending self) as [|layer l IH]; intros m; simpl; [done|].
  rewrite <-IH. f_equal. unfold extend. rewrite dom_union_L. apply (comm_L (∪)).
Qed.

(** ** Finality *)

Lemma handle_finality_Ok h strategy self self' :
  handle_finality h strategy self = (Ok tt, self') →
  ∃ l, pending self = l ++ pending self' ∧
       permanent self' = foldl (finalize_layer strategy) (permanent self) l ∧
       Forall (fun layer => Block.number (BlockScopedMap.block layer) ≠ h) l.
Proof.
  unfold handle_finality. destruct (pending self) as [|front l0] eqn:Ep.
  { intros [= <-]. exists []. by rewrite Ep. }
  rewrite <-Ep. destruct (position _ _) as [i|] eqn:Ei; [|done]. intros [= <-]. simpl.
  exists (take i (pending self)). rewrite take_drop. split_and!; [done|done|].
  apply position_spec in Ei as [_ Hb]. apply Forall_lookup. intros j x [Hx Hj]%lookup_take_Some.
  specialize (Hb j x Hj Hx). by apply bool_decide_eq_false in Hb.
Qed.

Lemma handle_finality_Err h strategy self e self' :
  handle_finality h strategy self = (Err e, self') → self' = self.
Proof.
  unfold handle_finality. destruct (pending self); [done|]. destruct (position _ _); [done|].
  by intros [= _ <-].
Qed.

Lemma get_split self l1 l2 k :
  pending self = l1 ++ l2 →
  get k self = match newest at_layer (reverse l2) k with
               | Some v => Some v
               | None => match newest at_layer (reverse l1) k with
                         | Some v => Some v | None => permanent self !! k end
               end.
Proof.
  intros Hp. unfold get. rewrite get_pending_newest, Hp, reverse_app, newest_app.
  by destruct (newest at_layer (reverse l2) k).
Qed.

Lemma finality_replace_get h self self' k :
  handle_finality h ReplaceStrategy self = (Ok tt, self') → get k self' = get k self.
Proof.
  intros (l & Hp & Hperm & _)%handle_finality_Ok.
  rewrite (get_split self l (pending self') k Hp), (get_split self' [] (pending self') k eq_refl).
  rewrite Hperm. destruct (newest at_layer (reverse (pending self')) k); [done|].
  exact (lookup_extend_layers l (permanent self) k).
Qed.

(** ** Reverts *)

Lemma revert_to_block target self self' bs b :
  last (pending self) = Some b → Block.hash (BlockScopedMap.block b) = target →
  permanent self' = permanent self → pending self' = pending self ++ bs →
  Forall (fun layer => Block.hash (BlockScopedMap.block layer) ≠ target) bs →
  revert_to target self' = (Ok tt, self).
Proof.
  intros Hlast Hb Hperm Hpend Hbs. unfold revert_to.
  apply last_Some in Hlast as [l0 Hl0]. rewrite Hpend.
  destruct (pending self ++ bs) as [|front rest] eqn:Ef.
  { rewrite Hl0 in Ef. by destruct l0. }
  rewrite <-Ef. clear Ef.
  destruct (position _ _) as [i|] eqn:Ei.
  - apply position_reverse_last in Ei as (x & Hlt & Hx & Hpx & Hafter).
    apply bool_decide_eq_true in Hpx. rewrite length_app in *.
    assert (i = length bs) as ->.
    { rewrite Forall_lookup in Hbs. destruct (decide (i < length bs)) as [Hi|Hi].
      - exfalso. rewrite lookup_app_r in Hx by lia. by apply (Hbs _ _ Hx).
      - destruct (decide (i = length bs)) as [|Hne]; [done|]. exfalso.
        specialize (Hafter (length (pending self) - 1) b ltac:(lia)).
        rewrite Hl0, length_app in Hafter; simpl in Hafter.
        rewrite lookup_app_l, lookup_app_r in Hafter by (rewrite ?length_app; simpl; lia).
        replace (length l0 + 1 - 1 - length l0) with 0 in Hafter by lia.
        specialize (Hafter eq_refl). by rewrite bool_decide_true in Hafter. }
    rewrite Nat.add_sub, take_app_length. destruct self, self'; simpl in *. by subst.
  - exfalso. rewrite position_None in Ei. specialize (Ei b). rewrite elem_of_reverse, Hl0 in Ei.
    specialize (Ei ltac:(set_solver)). by rewrite bool_decide_true in Ei.
Qed.

End cache_facts.

(** ** Layers and blocks *)

Section blocks.
Context {K V : Type} `{Countable K}.
Implicit Types (self : VersionedCache.t K V).

Definition blocks self : list Block.t := BlockScopedMap.block <$> pending self.

Lemma get_layer_mut_frame blk f self r self' base newer :
  get_layer_mut blk f self = (r, self') → pending self = base ++ newer →
  blk ∉ BlockScopedMap.block <$> base →
  permanent self' = permanent self ∧
  ∃ newer', pending self' = base ++ newer' ∧
            BlockScopedMap.block <$> newer' = BlockScopedMap.block <$> newer.
Proof.
  unfold get_layer_mut. destruct (position _ _) as [i|] eqn:Ei; intros [= <- <-] Hp Hblk; [|by eauto].
  split; [done|]. apply position_spec in Ei as [(x & Hx & Hpx) _]. apply bool_decide_eq_true in Hpx.
  rewrite Hp in Hx |- *. destruct (decide (i < length base)) as [Hi|Hi].
  - exfalso. apply Hblk. rewrite lookup_app_l in Hx by done. apply list_elem_of_fmap.
    exists x. split; [done|]. by eapply list_elem_of_lookup_2.
  - simpl. rewrite alter_app_r_alt by lia. eexists. split; [done|].
    rewrite (list_fmap_alter _ _ id) by (by apply Forall_forall). by apply list_alter_id.
Qed.

Lemma validate_frame blk self r self' base newer :
  validate_and_ensure_block_layer_internal blk self = (r, self') → pending self = base ++ newer →
  permanent self' = permanent self ∧
  ∃ newer', pending self' = base ++ newer' ∧
            (newer' = newer ∨ newer' = newer ++ [BlockScopedMap.mk blk ∅]).
Proof.
  unfold validate_and_ensure_block_layer_internal. intros Hv Hp.
  destruct (last _); [repeat case_decide|]; injection Hv as <- <-; simpl; (split; [done|]);
    rewrite ?Hp; eauto; rewrite <-app_assoc; eauto.
Qed.

(** The writes that go to pending layers. *)
Inductive write :=
| WriteLayer (blk : Block.t)
| WriteInsert (blk : Block.t) (k : K) (v : V)
| WriteExtend (blk : Block.t) (entries : list (K * V))
| WriteEntry (blk : Block.t) (k : K) (f : option V → option V).

Definition write_block (w : write) : Block.t :=
  match w with
  | WriteLayer blk | WriteInsert blk _ _ | WriteExtend blk _ | WriteEntry blk _ _ => blk
  end.

Definition run_write (w : write) : stm (VersionedCache.t K V) DCICacheError unit :=
  match w with
  | WriteLayer blk => validate_and_ensure_block_layer_internal blk
  | WriteInsert blk k v => insert_pending blk k v
  | WriteExtend blk entries => extend_pending blk entries
  | WriteEntry blk k f => pending_entry blk k f
  end.

(** The cache after a sequence of writes, failed ones included. *)
Definition run_writes (ws : list write) self : VersionedCache.t K V :=
  foldl (fun self w => (run_write w self).2) self ws.

Lemma run_write_frame w self base newer :
  pending self = base ++ newer → write_block w ∉ BlockScopedMap.block <$> base →
  permanent (run_write w self).2 = permanent self ∧
  ∃ newer', pending (run_write w self).2 = base ++ newer' ∧
    ∀ blk, blk ∈ BlockScopedMap.block <$> newer' →
           blk ∈ BlockScopedMap.block <$> newer ∨ blk = write_block w.
Proof.
  intros Hp Hw. destruct (run_write w self) as [r self'] eqn:Er. destruct w; simpl in *.
  1: { apply (validate_frame _ _ _ _ base newer) in Er as (Hperm & newer' & Hp' & Hn); [|done].
       split; [done|]. exists newer'. split; [done|]. intros b Hb.
       destruct Hn as [-> | ->]; [by left|]. rewrite fmap_app in Hb. set_solver. }
  all: apply (get_layer_mut_frame _ _ _ _ _ base newer) in Er as (Hperm & newer' & Hp' & Hn); [|done|done];
    (split; [done|]); exists newer'; (split; [done|]); intros b Hb; left; by rewrite <-Hn.
Qed.

Lemma run_writes_frame ws self base newer :
  pending self = base ++ newer →
  Forall (fun w => write_block w ∉ BlockScopedMap.block <$> base) ws →
  permanent (run_writes ws self) = permanent self ∧
  ∃ newer', pending (run_writes ws self) = base ++ newer' ∧
    ∀ blk, blk ∈ BlockScopedMap.block <$> newer' →
           blk ∈ BlockScopedMap.block <$> newer ∨ blk ∈ write_block <$> ws.
Proof.
  intros Hp Hws; revert self newer Hp; induction Hws as [|w ws Hw _ IH]; intros self newer Hp; simpl.
  { split; [done|]. exists newer. auto. }
  destruct (run_write_frame w self base newer Hp Hw) as (Hperm & n1 & Hp1 & Hn1).
  destruct (IH _ n1 Hp1) as (Hperm2 & n2 & Hp2 & Hn2). split; [congruence|].
  exists n2. split; [done|]. intros b [Hb|Hb]%Hn2; [|right; by right].
  apply Hn1 in Hb as [Hb| ->]; [by left|right; by left].
Qed.
End blocks.

(** ** Lockstep

    The outcome of an operation that moves layers, and the blocks it leaves, are a function
    of the blocks alone. *)

Section shapes.
Context {K V : Type} `{Countable K}.

Definition revert_shape (hash : Bytes) (bs : list Block.t) : result DCICacheError unit * list Block.t :=
  match bs with
  | [] => (Ok tt, bs)
  | front :: _ =>
      match position (fun b => bool_decide (Block.hash b = hash)) (reverse bs) with
      | Some i => (Ok tt, take (length bs - i) bs)
      | None => if decide (Block.parent_hash front = hash) then (Ok tt, [])
                else (Err (BlockNotFound (inr hash) "revert to"), bs)
      end
  end.

Definition finality_shape (h : Z) (bs : list Block.t) : result DCICacheError unit * list Block.t :=
  match bs with
  | [] => (Ok tt, bs)
  | _ => match position (fun b => bool_decide (Block.number b = h)) bs with
         | Some i => (Ok tt, drop i bs)
         | None => (Err (BlockNotFound (inl h) "finality"), bs)
         end
  end.

Definition layer_shape (blk : Block.t) (bs : list Block.t) : result DCICacheError unit * list Block.t :=
  match last bs with
  | None => (Ok tt, bs ++ [blk])
  | Some b => if decide (b = blk) then (Ok tt, bs)
              else if decide (Block.hash b = Block.parent_hash blk) then (Ok tt, bs ++ [blk])
              else (Err (UnexpectedBlockOrder (Block.number blk) (Block.number b)), bs)
  end.

(** [m] acts on the blocks as [shape] does, and changes nothing when it fails. *)
Definition follows (m : stm (VersionedCache.t K V) DCICacheError unit)
    (shape : list Block.t → result DCICacheError unit * list Block.t) : Prop :=
  ∀ c, (m c).1 = (shape (blocks c)).1 ∧ blocks (m c).2 = (shape (blocks c)).2 ∧
       (is_ok (m c).1 = false → (m c).2 = c).

Lemma revert_follows hash : follows (revert_to hash) (revert_shape hash).
Proof.
  intros [perm l]. unfold revert_to, revert_shape, blocks. simpl. destruct l as [|front l]; [done|].
  rewrite fmap_cons. change (BlockScopedMap.block front :: (BlockScopedMap.block <$> l))
    with (BlockScopedMap.block <$> front :: l).
  generalize (front :: l) as l0. intros l0. rewrite <-fmap_reverse, position_fmap, length_fmap.
  destruct (position _ _) as [i|]; simpl; [by rewrite fmap_take|]. by case_decide.
Qed.

Lemma finality_follows h strategy : follows (handle_finality h strategy) (finality_shape h).
Proof.
  intros [perm l]. unfold handle_finality, finality_shape, blocks. simpl. destruct l as [|front l]; [done|].
  rewrite fmap_cons. change (BlockScopedMap.block front :: (BlockScopedMap.block <$> l))
    with (BlockScopedMap.block <$> front :: l).
  generalize (front :: l) as l0. intros l0. rewrite position_fmap.
  destruct (position _ _) as [i|]; simpl; [by rewrite fmap_drop|done].
Qed.

Lemma layer_follows blk : follows (validate_and_ensure_block_layer_internal blk) (layer_shape blk).
Proof.
  intros c. unfold validate_and_ensure_block_layer_internal, layer_shape, blocks. rewrite fmap_last.
  destruct (last (pending c)) as [x|]; simpl; [|by rewrite fmap_app].
  repeat case_decide; simpl; try done. by rewrite fmap_app.
Qed.
End shapes.

#[global] Instance block_itself : BlockScoped Block.t := fun b => b.

Lemma revert_shape_chained hash bs : chained bs → chained (revert_shape hash bs).2.
Proof.
  intros Hc. unfold revert_shape. destruct bs as [|front l] eqn:E; [done|]. rewrite <-E in *.
  destruct (position _ _); [by apply chained_take|]. case_decide; [apply chained_nil|done].
Qed.

Lemma finality_shape_chained h bs : chained bs → chained (finality_shape h bs).2.
Proof.
  intros Hc. unfold finality_shape. destruct bs as [|front l] eqn:E; [done|]. rewrite <-E in *.
  destruct (position _ _); [by apply chained_drop|done].
Qed.

Lemma layer_shape_chained blk bs : chained bs → chained (layer_shape blk bs).2.
Proof.
  intros Hc. unfold layer_shape. destruct (last bs) as [b|] eqn:El.
  - repeat case_decide; [done| |done]. apply chained_snoc; [done|]. rewrite El. by intros ? [= <-].
  - apply chained_snoc; [done|]. by rewrite El.
Qed.

(** Writing into layers keeps the blocks. *)
Lemma get_layer_mut_blocks {K V} `{Countable K} blk f (c : VersionedCache.t K V) :
  blocks (get_layer_mut blk f c).2 = blocks c.
Proof.
  destruct (get_layer_mut blk f c) as [r c'] eqn:E.
  apply (get_layer_mut_frame _ _ _ _ _ [] (pending c)) in E as (_ & n & Hn & Hb); [|done|apply not_elem_of_nil].
  unfold blocks. simpl. by rewrite Hn.
Qed.

(** A method that runs one operation on each sub-cache in turn, [sub] being the blocks of
    the sub-caches. *)
Section sequences.
Context {S : Type} (sub : S → list (list Block.t)).
Context (shape : list Block.t → result DCICacheError unit * list Block.t).

(** [m] is an operation on sub-cache [i] that follows [shape]. *)
Definition acts (im : nat * stm S DCICacheError unit) : Prop :=
  ∀ s b, sub s !! im.1 = Some b →
  (im.2 s).1 = (shape b).1 ∧ sub (im.2 s).2 = <[im.1 := (shape b).2]> (sub s) ∧
  (is_ok (im.2 s).1 = false → (im.2 s).2 = s).

Fixpoint in_turn (ms : list (stm S DCICacheError unit)) : stm S DCICacheError unit :=
  match ms with
  | [] => st_ret tt
  | m :: ms' => (m ;? in_turn ms')%tycho
  end.

Lemma in_turn_ok bs bs' ims s :
  shape bs = (Ok tt, bs') → Forall acts ims → NoDup ims.*1 →
  (∀ i, i ∈ ims.*1 → sub s !! i = Some bs) →
  ∃ s', in_turn ims.*2 s = (Ok tt, s') ∧ sub s' = foldl (fun l i => <[i := bs']> l) (sub s) ims.*1.
Proof.
  intros Hs Hims; revert s; induction Hims as [|[i m] ims Hm _ IH]; intros s Hnd Hsub.
  { by exists s. }
  rewrite !fmap_cons. cbn [in_turn foldl fst snd]. rewrite fmap_cons, NoDup_cons in Hnd. destruct Hnd as [Hi Hnd]. simpl in Hi.
  destruct (Hm s bs) as (H1 & H2 & _); [apply Hsub; left|]. simpl in *. rewrite Hs in H1, H2. simpl in *.
  unfold st_bind. destruct (m s) as [[[]|e|] s1]; try done. simpl in *.
  destruct (IH s1) as (s' & H3 & H4); [done| |].
  { intros j Hj. rewrite H2, list_lookup_insert_ne; [apply Hsub; by right|]. by intros ->. }
  exists s'. by rewrite H3, H4, H2.
Qed.

Lemma in_turn_err bs i m ims s :
  is_ok (shape bs).1 = false → acts (i, m) → sub s !! i = Some bs →
  in_turn (m :: ims) s = ((shape bs).1, s).
Proof.
  intros Hs Hm Hsub. destruct (Hm s bs Hsub) as (H1 & _ & H3). simpl in *.
  unfold st_bind. destruct (m s) as [r s1]. simpl in *. subst r. rewrite H3 by done.
  by destruct (shape bs) as [[]].
Qed.

Lemma insert_everywhere (ixs : list nat) n (b b' : list Block.t) :
  ixs ≡ₚ seq 0 n → foldl (fun l i => <[i := b']> l) (replicate n b) ixs = replicate n b'.
Proof.
  intros His.
  assert (∀ ixs (l : list (list Block.t)), length (foldl (fun l i => <[i := b']> l) l ixs) = length l ∧
    ∀ j, j < length l →
    foldl (fun l i => <[i := b']> l) l ixs !! j = if decide (j ∈ ixs) then Some b' else l !! j) as Hgen.
  { clear ixs His. intros ixs. induction ixs as [|i ixs IH]; intros l; cbn [foldl].
    { split; [done|]. intros j Hj. case_decide as Hn; [by apply elem_of_nil in Hn|done]. }
    destruct (IH (<[i := b']> l)) as [IH1 IH2]. rewrite length_insert in *. split; [done|].
    intros j Hj. rewrite IH2 by done. destruct (decide (j = i)) as [->|Hne].
    - rewrite (decide_True (P := i ∈ i :: ixs)) by left. rewrite list_lookup_insert_eq by done.
      by case_decide.
    - rewrite list_lookup_insert_ne by done. repeat case_decide; set_solver. }
  destruct (Hgen ixs (replicate n b)) as [Hlen Hlook]. rewrite length_replicate in *.
  apply list_eq_same_length with n; [by rewrite length_replicate|done|].
  intros j x y Hj Hx Hy. rewrite Hlook in Hx by done. rewrite decide_True in Hx.
  - apply lookup_replicate in Hy as [-> _]. congruence.
  - rewrite His. apply elem_of_seq. lia.
Qed.

(** Run in turn on every one of [n] sub-caches in step: all of them follow [shape], or the
    first one fails and nothing has changed. *)
Lemma in_turn_lockstep n ims bs s r s' :
  Forall acts ims → ims.*1 ≡ₚ seq 0 (Datatypes.S n) → sub s = replicate (Datatypes.S n) bs →
  in_turn ims.*2 s = (r, s') →
  r = (shape bs).1 ∧
  sub s' = replicate (Datatypes.S n) (if is_ok r then (shape bs).2 else bs) ∧ (is_ok r = false → s' = s).
Proof.
  intros Ha Hperm Hs Hrun.
  assert (∀ i, i ∈ ims.*1 → sub s !! i = Some bs) as Hsub.
  { intros i Hi. rewrite Hperm in Hi. apply elem_of_seq in Hi. rewrite Hs. apply lookup_replicate. split; [done|lia]. }
  destruct (is_ok (shape bs).1) eqn:Hok.
  - destruct (shape bs) as [[[]|e|] bs'] eqn:Esh; try done.
    destruct (in_turn_ok bs bs' ims s Esh Ha) as (s1 & H1 & H2); [|done|].
    { rewrite Hperm. apply NoDup_seq. }
    rewrite H1 in Hrun. injection Hrun as <- <-. rewrite H2, Hs. cbn [is_ok fst snd]. split_and!; [done| |done].
    by apply insert_everywhere.
  - destruct ims as [|[i m] ims]; [by apply Permutation_nil in Hperm|].
    apply Forall_cons in Ha as [Hm _].
    rewrite fmap_cons in Hrun. cbn [snd] in Hrun.
    rewrite (in_turn_err bs i) in Hrun; [|done|done|apply Hsub; left].
    injection Hrun as <- <-. by rewrite Hok.
Qed.

(** An operation on one field. *)
Lemma acts_field {K V} `{Countable K} (get : S → VersionedCache.t K V) set i m :
  (∀ s, sub s !! i = Some (blocks (get s))) → (∀ f s, sub (set f s) = <[i := blocks f]> (sub s)) →
  (∀ s, set (get s) s = s) → follows m shape → acts (i, on_field get set m).
Proof.
  intros Hget Hset Hid Hm s b Hb. simpl in *. rewrite Hget in Hb. injection Hb as <-.
  destruct (Hm (get s)) as (H1 & H2 & H3). unfold on_field.
  destruct (m (get s)) as [r c]. simpl in *. rewrite Hset, H2. split_and!; [done|done|].
  intros Hr. by rewrite (H3 Hr).
Qed.

End sequences.

Section dci_lockstep.
Import DCICache.

(** The blocks of each of the nine sub-caches. *)
Definition sub_blocks (s : DCICache.t) : list (list Block.t) :=
  [blocks (ep_id_to_entrypoint s); blocks (entrypoint_results s); blocks (retriggers s);
   blocks (tracked_contracts s); blocks (erc20_addresses s); blocks (blacklisted_addresses s);
   blocks (ep_id_to_component_id s); blocks (component_id_to_entrypoint_params s);
   blocks (tracing_retry_counts s)].

(** Every sub-cache has a layer for each of [bs]. *)
Definition lockstep (bs : list Block.t) (s : DCICache.t) : Prop := sub_blocks s = replicate 9 bs.

Context (shape : list Block.t → result DCICacheError unit * list Block.t).

Lemma acts_ep_id_to_entrypoint m :
  follows m shape → acts sub_blocks shape (0, on_ep_id_to_entrypoint m).
Proof. apply acts_field; by intros []. Qed.
Lemma acts_entrypoint_results m : follows m shape → acts sub_blocks shape (1, on_entrypoint_results m).
Proof. apply acts_field; by intros []. Qed.
Lemma acts_retriggers m : follows m shape → acts sub_blocks shape (2, on_retriggers m).
Proof. apply acts_field; by intros []. Qed.
Lemma acts_tracked_contracts m : follows m shape → acts sub_blocks shape (3, on_tracked_contracts m).
Proof. apply acts_field; by intros []. Qed.
Lemma acts_erc20_addresses m : follows m shape → acts sub_blocks shape (4, on_erc20_addresses m).
Proof. apply acts_field; by intros []. Qed.
Lemma acts_blacklisted_addresses m :
  follows m shape → acts sub_blocks shape (5, on_blacklisted_addresses m).
Proof. apply acts_field; by intros []. Qed.
Lemma acts_ep_id_to_component_id m :
  follows m shape → acts sub_blocks shape (6, on_ep_id_to_component_id m).
Proof. apply acts_field; by intros []. Qed.
Lemma acts_component_id_to_entrypoint_params m :
  follows m shape → acts sub_blocks shape (7, on_component_id_to_entrypoint_params m).
Proof. apply acts_field; by intros []. Qed.
Lemma acts_tracing_retry_counts m :
  follows m shape → acts sub_blocks shape (8, on_tracing_retry_counts m).
Proof. apply acts_field; by intros []. Qed.

End dci_lockstep.

#[export] Hint Resolve acts_ep_id_to_entrypoint acts_entrypoint_results acts_retriggers
  acts_tracked_contracts acts_erc20_addresses acts_blacklisted_addresses acts_ep_id_to_component_id
  acts_component_id_to_entrypoint_params acts_tracing_retry_counts
  revert_follows finality_follows layer_follows : tycho.

(** An operation of the whole cache, [shape] being what it does to the blocks. *)
Definition dci_follows (m : stm DCICache.t DCICacheError unit)
    (shape : list Block.t → result DCICacheError unit * list Block.t) : Prop :=
  ∀ bs s r s', lockstep bs s → m s = (r, s') →
  r = (shape bs).1 ∧ lockstep (if is_ok r then (shape bs).2 else bs) s' ∧ (is_ok r = false → s' = s).

Lemma dci_revert_follows hash : dci_follows (DCICache.revert_to hash) (revert_shape hash).
Proof.
  intros bs s r s' Hl Hm.
  apply (in_turn_lockstep sub_blocks _ 8
    [(0, DCICache.on_ep_id_to_entrypoint (revert_to hash)); (1, DCICache.on_entrypoint_results (revert_to hash));
     (2, DCICache.on_retriggers (revert_to hash)); (3, DCICache.on_tracked_contracts (revert_to hash));
     (4, DCICache.on_erc20_addresses (revert_to hash)); (5, DCICache.on_blacklisted_addresses (revert_to hash));
     (6, DCICache.on_ep_id_to_component_id (revert_to hash));
     (7, DCICache.on_component_id_to_entrypoint_params (revert_to hash));
     (8, DCICache.on_tracing_retry_counts (revert_to hash))]); [|done|done|done].
  repeat (apply Forall_cons; split); auto with tycho.
Qed.

Lemma dci_finality_follows h : dci_follows (DCICache.handle_finality h) (finality_shape h).
Proof.
  intros bs s r s' Hl Hm.
  apply (in_turn_lockstep sub_blocks _ 8
    [(0, DCICache.on_ep_id_to_entrypoint (handle_finality h ReplaceStrategy));
     (1, DCICache.on_entrypoint_results (handle_finality h ReplaceStrategy));
     (2, DCICache.on_retriggers (handle_finality h (Custom DCICache.merge_retriggers)));
     (3, DCICache.on_tracked_contracts (handle_finality h (Custom DCICache.merge_sets)));
     (4, DCICache.on_erc20_addresses (handle_finality h ReplaceStrategy));
     (5, DCICache.on_blacklisted_addresses (handle_finality h ReplaceStrategy));
     (6, DCICache.on_ep_id_to_component_id (handle_finality h (Custom DCICache.merge_sets)));
     (7, DCICache.on_component_id_to_entrypoint_params (handle_finality h (Custom DCICache.merge_sets)));
     (8, DCICache.on_tracing_retry_counts (handle_finality h ReplaceStrategy))]); [|done|done|done].
  repeat (apply Forall_cons; split); auto with tycho.
Qed.

Lemma dci_layer_follows blk : dci_follows (DCICache.try_insert_block_layer blk) (layer_shape blk).
Proof.
  intros bs s r s' Hl Hm.
  set (f K V (EqK : EqDecision K) (CK : Countable K) :=
    @validate_and_ensure_block_layer_internal K V EqK CK blk).
  apply (in_turn_lockstep sub_blocks _ 8
    [(0, DCICache.on_ep_id_to_entrypoint (f _ _ _ _)); (1, DCICache.on_entrypoint_results (f _ _ _ _));
     (2, DCICache.on_retriggers (f _ _ _ _)); (3, DCICache.on_tracked_contracts (f _ _ _ _));
     (6, DCICache.on_ep_id_to_component_id (f _ _ _ _)); (4, DCICache.on_erc20_addresses (f _ _ _ _));
     (5, DCICache.on_blacklisted_addresses (f _ _ _ _));
     (7, DCICache.on_component_id_to_entrypoint_params (f _ _ _ _));
     (8, DCICache.on_tracing_retry_counts (f _ _ _ _))]); [| |done|done].
  - unfold f. repeat (apply Forall_cons; split); auto with tycho.
  - simpl. solve_Permutation.
Qed.

(** ** Reachable caches *)

(** The operations on the whole cache, and writes to sub-caches, which keep the blocks. *)
Inductive dci_step : DCICache.t → DCICache.t → Prop :=
| dci_step_layer blk s : dci_step s (DCICache.try_insert_block_layer blk s).2
| dci_step_finality h s : dci_step s (DCICache.handle_finality h s).2
| dci_step_revert hash s : dci_step s (DCICache.revert_to hash s).2
| dci_step_write s s' : sub_blocks s' = sub_blocks s → dci_step s s'.

Definition dci_reachable : DCICache.t → Prop := rtc dci_step DCICache.new.

Lemma dci_step_inv s s' bs :
  dci_step s s' → lockstep bs s → chained bs → ∃ bs', lockstep bs' s' ∧ chained bs'.
Proof.
  assert (∀ m shape s bs, dci_follows m shape → (∀ bs, chained bs → chained (shape bs).2) →
    lockstep bs s → chained bs → ∃ bs', lockstep bs' (m s).2 ∧ chained bs') as Hop.
  { intros m shape s0 bs0 Hm Hsh Hl Hc. destruct (m s0) as [r s1] eqn:E.
    destruct (Hm bs0 s0 r s1 Hl E) as (_ & Hl' & _). eexists. split; [exact Hl'|].
    destruct (is_ok r); auto. }
  intros [blk s0|h s0|hash s0|s0 s1 Hs] Hl Hc.
  - eapply Hop; eauto using dci_layer_follows, layer_shape_chained.
  - eapply Hop; eauto using dci_finality_follows, finality_shape_chained.
  - eapply Hop; eauto using dci_revert_follows, revert_shape_chained.
  - exists bs. split; [|done]. unfold lockstep. congruence.
Qed.

Lemma dci_reachable_inv s : dci_reachable s → ∃ bs, lockstep bs s ∧ chained bs.
Proof.
  apply (rtc_ind_r (fun s => ∃ bs, lockstep bs s ∧ chained bs)).
  - exists []. split; [done|apply chained_nil].
  - intros s1 s2 _ Hstep (bs & Hl & Hc). by eapply dci_step_inv.
Qed.

(** * The guarantees *)

(** The ways to read a cache agree: the map of latest values, the first of all values
    of a key, the membership test and the key count all describe the value [get] finds in
    the newest layer that has the key. *)
Theorem cache_views_agree {K V} `{Countable K} (self : VersionedCache.t K V) :
  (∀ k, iter_latest self !! k = get k self) ∧
  (∀ k, (get_all k self ≫= head) = get k self) ∧
  (∀ k, contains_key k self = bool_decide (is_Some (get k self))) ∧
  unique_key_count self = size (iter_latest self).
Proof.
  split_and!; intros; [apply lookup_iter_latest|apply head_get_all|apply contains_key_get|
    apply unique_key_count_size].
Qed.

(** Finalizing blocks with the replacing strategy cannot be observed by reads: every key
    has the value it had, whether finalization succeeds or the height is unknown. *)
Theorem finality_preserves_reads {K V} `{Countable K} h (self : VersionedCache.t K V) k :
  get k (handle_finality h ReplaceStrategy self).2 = get k self.
Proof.
  destruct (handle_finality h ReplaceStrategy self) as [[[]|e|] self'] eqn:E; simpl.
  - by apply (finality_replace_get h).
  - by apply handle_finality_Err in E as ->.
  - exfalso. unfold handle_finality in E. destruct (pending self); [done|]. by destruct (position _ _).
Qed.

(** The union of the values a key has in all layers. *)
Definition all_values {K A} `{Countable K, Countable A} (k : K) (self : VersionedCache.t K (gset A)) : gset A :=
  ⋃ (default [] (get_all k self)).

Lemma all_values_layers {K A} `{Countable K, Countable A} (k : K) (self : VersionedCache.t K (gset A)) x :
  x ∈ all_values k self ↔
  (∃ layer v, layer ∈ pending self ∧ BlockScopedMap.data layer !! k = Some v ∧ x ∈ v) ∨
  (∃ v, permanent self !! k = Some v ∧ x ∈ v).
Proof.
  unfold all_values, get_all.
  set (iter := omap _ _ ++ _).
  replace (default [] (match iter with [] => None | _ => Some iter end)) with iter by by destruct iter.
  subst iter. rewrite union_list_app, elem_of_union, elem_of_union_list.
  setoid_rewrite list_elem_of_omap. setoid_rewrite elem_of_reverse. split.
  - intros [(v & (layer & Hl & Hv) & Hx)|Hx]; [left; eauto|right].
    destruct (permanent self !! k) as [v|]; simpl in Hx; [|set_solver]. exists v. set_solver.
  - intros [(layer & v & Hl & Hv & Hx)|(v & Hv & Hx)]; [left; eauto|right].
    rewrite Hv. simpl. set_solver.
Qed.

Lemma finalize_sets_layers {K A} `{Countable K, Countable A} (l : list (BlockScopedMap.t K (gset A)))
    (m : gmap K (gset A)) k x :
  (∃ v, foldl (finalize_layer (Custom DCICache.merge_sets)) m l !! k = Some v ∧ x ∈ v) ↔
  (∃ layer v, layer ∈ l ∧ BlockScopedMap.data layer !! k = Some v ∧ x ∈ v) ∨
  (∃ v, m !! k = Some v ∧ x ∈ v).
Proof.
  revert m; induction l as [|layer l IH]; intros m; cbn [foldl].
  { split; [by right|]. intros [(? & ? & Hl & _)|?]; [by apply elem_of_nil in Hl|done]. }
  rewrite IH. unfold finalize_layer at 1. rewrite lookup_upsert_all.
  setoid_rewrite elem_of_cons.
  destruct (BlockScopedMap.data layer !! k) as [w|] eqn:Ew, (m !! k) as [v|] eqn:Ev; unfold DCICache.merge_sets.
  - split.
    + intros [(y & v' & Hy & Hv' & Hx)|(v' & [= <-] & [Hx|Hx]%elem_of_union)]; [left; exists y, v'; auto|right; by exists v|].
      left. exists layer, w. auto.
    + intros [(y & v' & [->|Hy] & Hv' & Hx)|(v' & [= <-] & Hx)]; [|left; by exists y, v'|].
      * rewrite Ew in Hv'. injection Hv' as <-. right. exists (v ∪ w). split; [done|]. apply elem_of_union. by right.
      * right. exists (v ∪ w). split; [done|]. apply elem_of_union. by left.
  - naive_solver.
  - naive_solver.
  - naive_solver.
Qed.

(** Where the layers hold sets that accumulate (tracked contracts, entry points of a
    component, components of an entry point), finalizing blocks keeps, for every key, the
    union of its values over all layers. *)
Theorem finality_preserves_sets {K A} `{Countable K, Countable A} h
    (self : VersionedCache.t K (gset A)) k :
  all_values k (handle_finality h (Custom DCICache.merge_sets) self).2 = all_values k self.
Proof.
  destruct (handle_finality h (Custom DCICache.merge_sets) self) as [[[]|e|] self'] eqn:E; simpl.
  - apply handle_finality_Ok in E as (l & Hp & Hperm & _). apply set_eq. intros x.
    rewrite !all_values_layers, Hperm, finalize_sets_layers, Hp. setoid_rewrite elem_of_app.
    naive_solver.
  - by apply handle_finality_Err in E as ->.
  - exfalso. unfold handle_finality in E. destruct (pending self); [done|]. by destruct (position _ _).
Qed.

(** A revert undoes everything written since: after any sequence of new layers and of
    writes to them, failed ones included, reverting to the block that was the newest one
    restores the cache exactly. *)
Theorem revert_undoes_writes {K V} `{Countable K} (self : VersionedCache.t K V) b ws :
  last (pending self) = Some b →
  Forall (fun w => write_block w ∉ blocks self ∧
                   Block.hash (write_block w) ≠ Block.hash (BlockScopedMap.block b)) ws →
  revert_to (Block.hash (BlockScopedMap.block b)) (run_writes ws self) = (Ok tt, self).
Proof.
  intros Hb Hws.
  destruct (run_writes_frame ws self (pending self) []) as (Hperm & newer & Hp & Hn).
  { by rewrite app_nil_r. }
  { eapply Forall_impl; [exact Hws|]. by intros w [? _]. }
  apply (revert_to_block _ self _ newer b); [done|done|done|done|].
  apply Forall_forall. intros layer Hl. destruct (Hn (BlockScopedMap.block layer)) as [H1|H1].
  - apply list_elem_of_fmap. by exists layer.
  - by apply elem_of_nil in H1.
  - apply list_elem_of_fmap in H1 as (w & -> & Hw). rewrite Forall_forall in Hws. by apply Hws.
Qed.

(** C14. The nine sub-caches of the indexer stay in lockstep: at any time all of them have
    layers for the same connected chain of blocks.  So opening a block, finalizing and
    reverting are atomic: they succeed on every sub-cache, or fail and change none. *)
Theorem dci_cache_lockstep s :
  dci_reachable s →
  (∃ bs, lockstep bs s ∧ chained bs) ∧
  (∀ blk r s', DCICache.try_insert_block_layer blk s = (r, s') → is_ok r = false → s' = s) ∧
  (∀ h r s', DCICache.handle_finality h s = (r, s') → is_ok r = false → s' = s) ∧
  (∀ hash r s', DCICache.revert_to hash s = (r, s') → is_ok r = false → s' = s).
Proof.
  intros (bs & Hl & Hc)%dci_reachable_inv. split; [eauto|].
  split_and!; intros x r s' Hop Hr.
  - by apply (dci_layer_follows x bs s r s' Hl Hop).
  - by apply (dci_finality_follows x bs s r s' Hl Hop).
  - by apply (dci_revert_follows x bs s r s' Hl Hop).
Qed.

(** ** Witnesses *)

Module CacheExamples.
Definition blk (n : Z) (hash parent : byte) : Block.t := Block.mk n Ethereum [hash] [parent] n.
Definition base : VersionedCache.t string Z :=
  VersionedCache.mk {["a" := 1%Z]} [BlockScopedMap.mk (blk 1 x01 x00) {["b" := 2%Z]}].
Definition opened : DCICache.t := (DCICache.try_insert_block_layer (blk 1 x01 x00) DCICache.new).2.
End CacheExamples.

Import CacheExamples.

Lemma revert_undoes_writes_witness :
  revert_to [x01] (run_writes [WriteLayer (blk 2 x02 x01); WriteInsert (blk 2 x02 x01) "a" 9%Z] base) =
    (Ok tt, base).
Proof.
  apply (revert_undoes_writes base (BlockScopedMap.mk (blk 1 x01 x00) {["b" := 2%Z]})); [reflexivity|].
  repeat constructor; simpl; try discriminate;
    intros [H|H]%elem_of_cons; try discriminate; by apply elem_of_nil in H.
Defined.

Lemma dci_cache_lockstep_witness : ∃ bs, lockstep bs opened ∧ chained bs.
Proof.
  apply (proj1 (dci_cache_lockstep opened
    (rtc_once (R := dci_step) _ _ (dci_step_layer (blk 1 x01 x00) DCICache.new)))).
Defined.
