(* ===== verification/BlockHistory.v ===== *)
(** The client's view of the chain: [tycho_client::feed::block_history] and the block
    header of [tycho_client::feed].

    [LruCache] is a third-party crate: the history is written against the interface
    [LruCache] below. *)

From S2P Require Import Prelude Collections Bytes Models Blockchain.

Module BlockHeader.
Record t := mk {
  hash : Bytes;
  number : Z;
  parent_hash : Bytes;
  revert : bool;
  timestamp : Z;
  partial_block_index : option Z
}.
#[global] Instance eq_dec : EqDecision t.
Proof. solve_decision. Defined.

Definition is_partial (self : t) : bool := bool_decide (is_Some (partial_block_index self)).

(** [timestamp() as u64] *)
Definition of_changes (block_changes : BlockAggregatedChanges.t) : t :=
  let blk := BlockAggregatedChanges.block block_changes in
  mk (Block.hash blk) (Block.number blk) (Block.parent_hash blk)
     (BlockAggregatedChanges.revert block_changes) (wrap 64 (Block.ts blk))
     (BlockAggregatedChanges.partial_block_index block_changes).

Definition block (self : t) : option t := Some self.
Definition block_number_or_timestamp (self : t) : Z := number self.
End BlockHeader.

(** The operations of [lru::LruCache] the history uses, with their documented behaviour:
    the cache holds the [cap] most recently pushed keys, and [contains] does not touch the
    order. *)
Class LruCache (C K V : Type) `{EqDecision K} := {
  lru_new : nat → C;
  lru_push : K → V → C → C;
  lru_contains : K → C → bool;
  lru_cap : C → nat;
  lru_keys : C → list K;
  lru_new_keys : ∀ cap, lru_keys (lru_new cap) = [];
  lru_new_cap : ∀ cap, lru_cap (lru_new cap) = cap;
  lru_push_keys : ∀ k v c,
    lru_keys (lru_push k v c) = take (lru_cap c) (k :: filter (fun k' => k' ≠ k) (lru_keys c));
  lru_push_cap : ∀ k v c, lru_cap (lru_push k v c) = lru_cap c;
  lru_contains_keys : ∀ k c, lru_contains k c = bool_decide (k ∈ lru_keys c)
}.

Inductive BlockHistoryError :=
| InvalidCacheSize
| EmptyHistory
| UndeterminedBlockPosition
| RevertPositionNotFound
| DetachedBlock
| ExpectedPartialBlock.

#[global] Instance block_history_error_eq_dec : EqDecision BlockHistoryError.
Proof. solve_decision. Defined.

Inductive BlockPosition := NextExpected | NextPartial | Latest | Delayed | Advanced.

#[global] Instance block_position_eq_dec : EqDecision BlockPosition.
Proof. solve_decision. Defined.

Module BlockHistory.
Section history.
Context {C : Type} `{!LruCache C Bytes BlockHeader.t}.

Record t := mk { history : list BlockHeader.t; reverts : C; size : nat }.

(** The loop of [new] over the headers in descending order: [chain] is newest first. *)
Fixpoint connect (chain : list BlockHeader.t) (current_hash : Bytes) (current_number : Z)
    (blocks : list BlockHeader.t) : list BlockHeader.t :=
  match blocks with
  | [] => chain
  | block :: blocks' =>
      if (current_number <=? BlockHeader.number block)%Z then connect chain current_hash current_number blocks'
      else if negb (BlockHeader.number block =? current_number - 1)%Z then chain
      else if decide (BlockHeader.hash block = current_hash)
      then connect (chain ++ [block]) (BlockHeader.parent_hash block) (BlockHeader.number block) blocks'
      else connect chain current_hash current_number blocks'
  end.

Definition connected_chain (headers : list BlockHeader.t) : list BlockHeader.t :=
  match reverse (sort_by_key BlockHeader.number headers) with
  | [] => []
  | latest :: rest =>
      reverse (connect [latest] (BlockHeader.parent_hash latest) (BlockHeader.number latest) rest)
  end.

(** [size * 10] wraps like a [usize]. *)
Definition new (headers : list BlockHeader.t) (size : nat) : result BlockHistoryError t :=
  let cache_size := Z.to_nat (wrap 64 (Z.of_nat size * 10)) in
  if decide (cache_size = 0) then Err InvalidCacheSize
  else Ok (mk (connected_chain headers) (lru_new cache_size) size).

Definition latest (self : t) : option BlockHeader.t := last (history self).
Definition oldest (self : t) : option BlockHeader.t := head (history self).
Definition blocks (self : t) : list BlockHeader.t := history self.

Definition hash_in_history (h : Bytes) (self : t) : bool :=
  existsb (fun b => bool_decide (BlockHeader.hash b = h)) (history self).

Definition determine_block_position (block : BlockHeader.t) (self : t) :
    result BlockHistoryError BlockPosition :=
  latest ← ok_or (latest self) EmptyHistory;
  if decide (BlockHeader.parent_hash block = BlockHeader.hash latest) then Ok NextExpected
  else if (BlockHeader.number block =? BlockHeader.number latest)%Z && BlockHeader.is_partial block then
    Ok (match BlockHeader.partial_block_index latest, BlockHeader.partial_block_index block with
        | Some latest_idx, Some incoming_idx =>
            if (latest_idx <? incoming_idx)%Z then NextPartial
            else if (incoming_idx =? latest_idx)%Z then Latest
            else Delayed
        | _, _ => Delayed
        end)
  else if bool_decide (BlockHeader.hash block = BlockHeader.hash latest) && negb (BlockHeader.revert block)
  then Ok Latest
  else if lru_contains (BlockHeader.hash block) (reverts self) then Ok Delayed
  else if (BlockHeader.number block <=? BlockHeader.number latest)%Z then
    oldest ← ok_or (oldest self) EmptyHistory;
    if (BlockHeader.number block <? BlockHeader.number oldest)%Z then Ok Delayed
    else if hash_in_history (BlockHeader.hash block) self then
      Ok (if BlockHeader.revert block then NextExpected else Delayed)
    else if BlockHeader.is_partial block && negb (BlockHeader.revert block) then Ok Delayed
    else if negb (BlockHeader.revert block) && hash_in_history (BlockHeader.parent_hash block) self
    then Ok Delayed
    else Err UndeterminedBlockPosition
  else Ok Advanced.

(** The revert loop: remove the newest block until [parent_hash] fits.  The list is newest
    first; the result has the blocks kept, newest first. *)
Fixpoint revert_loop (parent_hash : Bytes) (newest_first : list BlockHeader.t) (reverts : C) :
    result BlockHistoryError unit * (list BlockHeader.t * C) :=
  match newest_first with
  | [] => (Err RevertPositionNotFound, ([], reverts))
  | head :: rest =>
      if decide (BlockHeader.hash head = parent_hash) then (Ok tt, (newest_first, reverts))
      else revert_loop parent_hash rest (lru_push (BlockHeader.hash head) head reverts)
  end.

Definition revert_branch (block : BlockHeader.t) : stm t BlockHistoryError unit := fun self =>
  let '(r, (newest_first, reverts')) :=
    revert_loop (BlockHeader.parent_hash block) (reverse (history self)) (reverts self) in
  (r, mk (reverse newest_first) reverts' (size self)).

Definition push_latest (block : BlockHeader.t) : stm t BlockHistoryError unit := fun self =>
  if match latest self with
     | Some b => negb (bool_decide (BlockHeader.hash b = BlockHeader.parent_hash block))
     | None => false
     end
  then (Err DetachedBlock, self)
  else
    let history' := history self ++ [block] in
    (Ok tt, mk (if size self <? length history' then tail history' else history') (reverts self) (size self)).

Definition push (block : BlockHeader.t) : stm t BlockHistoryError unit := fun self =>
  match determine_block_position block self with
  | Err e => (Err e, self)
  | Panic => (Panic, self)
  | Ok NextExpected =>
      st_bind (if BlockHeader.revert block then revert_branch block else st_ret tt)
        (fun _ => push_latest block) self
  | Ok NextPartial =>
      match latest self with
      | None => (Err EmptyHistory, self)
      | Some latest =>
          if negb (BlockHeader.is_partial latest) then (Err ExpectedPartialBlock, self)
          else (Ok tt, mk (removelast (history self) ++ [block]) (reverts self) (size self))
      end
  | Ok Latest =>
      if BlockHeader.revert block then
        match latest self with
        | None => (Err EmptyHistory, self)
        | Some latest =>
            if BlockHeader.is_partial latest
            then (Ok tt, mk (removelast (history self))
                            (lru_push (BlockHeader.hash latest) latest (reverts self)) (size self))
            else (Ok tt, self)
        end
      else (Ok tt, self)
  | Ok Delayed | Ok Advanced => (Ok tt, self)
  end.

End history.
Arguments t : clear implicits.
End BlockHistory.
