(* ===== verification/BlockHistorySpec.v ===== *)
(** What the client's block history guarantees.

    A new history is the longest chain below the highest header; pushing headers keeps the
    history connected and bounded; a header that was accepted is recognised when it comes
    again; a revert drops exactly the blocks above the fork and remembers them. *)

From Stdlib Require Import Strings.Byte.
From S2P Require Import Prelude Collections Bytes Models Blockchain BlockHistory.

Import BlockHistory.

(** [b] extends [a]: by hash, and by hash and height. *)
Definition links (a b : BlockHeader.t) : Prop := BlockHeader.hash a = BlockHeader.parent_hash b.
Definition follows_height (a b : BlockHeader.t) : Prop :=
  links a b ∧ BlockHeader.number b = (BlockHeader.number a + 1)%Z.

Definition descending (l : list BlockHeader.t) : Prop :=
  StronglySorted (fun a b => BlockHeader.number b ≤ BlockHeader.number a)%Z l.

(** ** Building the chain *)

Lemma connect_spec blocks chain cur :
  descending blocks →
  ∃ older f, connect chain (BlockHeader.parent_hash cur) (BlockHeader.number cur) blocks = chain ++ older ∧
    adjacent (fun a b => follows_height b a) (cur :: older) ∧ Forall (fun b => b ∈ blocks) older ∧
    last (cur :: older) = Some f ∧ (f = cur ∨ BlockHeader.number f < BlockHeader.number cur)%Z ∧
    ∀ b, b ∈ blocks → ¬ follows_height b f.
Proof.
  revert chain cur; induction blocks as [|b blocks IH]; intros chain cur Hd; simpl.
  { exists [], cur. rewrite app_nil_r. split_and!; auto.
    - apply adjacent_cons; [apply adjacent_nil|done].
    - intros b Hb. by apply elem_of_nil in Hb. }
  apply StronglySorted_inv in Hd as [Hd Hb]. rewrite Forall_forall in Hb.
  assert (∀ P : BlockHeader.t → Prop, P b → (∀ x, x ∈ blocks → P x) → ∀ x, x ∈ b :: blocks → P x) as Hall.
  { intros P H1 H2 x [->|Hx]%elem_of_cons; auto. }
  assert (∀ l, Forall (fun x => x ∈ blocks) l → Forall (fun x => x ∈ b :: blocks) l) as Hin.
  { intros l Hl. eapply Forall_impl; [exact Hl|]. intros; by right. }
  destruct (Z.leb_spec (BlockHeader.number cur) (BlockHeader.number b)) as [Hle|Hlt].
  { destruct (IH chain cur Hd) as (older & f & H1 & H2 & H3 & H4 & H5 & H6). exists older, f.
    split_and!; auto. apply Hall; [|done]. intros [_ ?]. destruct H5 as [->|?]; lia. }
  destruct (Z.eqb_spec (BlockHeader.number b) (BlockHeader.number cur - 1)) as [Heq|Hne]; simpl.
  2: { exists [], cur. rewrite app_nil_r. split_and!; auto.
       - apply adjacent_cons; [apply adjacent_nil|done].
       - apply Hall; [intros [_ ?]; lia|]. intros x Hx [_ ?]. specialize (Hb x Hx). simpl in Hb. lia. }
  case_decide as Hh.
  - destruct (IH (chain ++ [b]) b Hd) as (older & f & H1 & H2 & H3 & H4 & H5 & H6).
    exists (b :: older), f. split_and!; auto.
    + by rewrite H1, <-app_assoc.
    + apply adjacent_cons; [done|]. intros ? [= <-]. split; [done|lia].
    + constructor; [left|auto].
    + right. destruct H5 as [->|?]; lia.
    + apply Hall; [|done]. intros [_ ?]. destruct H5 as [->|?]; lia.
  - destruct (IH chain cur Hd) as (older & f & H1 & H2 & H3 & H4 & H5 & H6). exists older, f.
    split_and!; auto. apply Hall; [|done]. intros [Hl Hn].
    destruct H5 as [->|?]; [by apply Hh|lia].
Qed.

Lemma StronglySorted_reverse {A} (R : A → A → Prop) (l : list A) :
  StronglySorted R l → StronglySorted (flip R) (reverse l).
Proof.
  induction 1 as [|a l Hl IH Ha]; [constructor|]. rewrite reverse_cons.
  apply StronglySorted_app. split_and!; [|done|by repeat constructor].
  intros x y Hx Hy. rewrite elem_of_reverse in Hx. apply list_elem_of_singleton in Hy as ->.
  rewrite Forall_forall in Ha. by apply Ha.
Qed.

Lemma adjacent_reverse {A} (R : A → A → Prop) (l : list A) :
  adjacent (flip R) l → adjacent R (reverse l).
Proof.
  intros Hl i a b Ha Hb. pose proof (lookup_lt_Some _ _ _ Hb) as Hlt. rewrite length_reverse in Hlt.
  rewrite reverse_lookup in Ha, Hb by lia. apply (Hl (length l - S (S i)) b a); [done|].
  by replace (S (length l - S (S i))) with (length l - S i) by lia.
Qed.

Lemma connected_chain_spec headers :
  headers ≠ [] →
  adjacent follows_height (connected_chain headers) ∧ Forall (fun b => b ∈ headers) (connected_chain headers) ∧
  ∃ tip root, last (connected_chain headers) = Some tip ∧ head (connected_chain headers) = Some root ∧
    Forall (fun b => BlockHeader.number b ≤ BlockHeader.number tip)%Z headers ∧
    ∀ b, b ∈ headers → ¬ follows_height b root.
Proof.
  intros Hne. unfold connected_chain.
  pose proof (sort_by_key_perm BlockHeader.number headers) as Hperm.
  pose proof (StronglySorted_reverse _ _ (sort_by_key_sorted BlockHeader.number headers)) as Hs.
  rewrite <-(reverse_Permutation (sort_by_key BlockHeader.number headers)) in Hperm.
  destruct (reverse (sort_by_key BlockHeader.number headers)) as [|latest rest].
  { by apply Permutation_nil in Hperm. }
  apply StronglySorted_inv in Hs as [Hs Hmax].
  destruct (connect_spec rest [latest] latest Hs) as (older & f & -> & H2 & H3 & H4 & H5 & H6).
  change ([latest] ++ older) with (latest :: older). rewrite Forall_forall in Hmax. split_and!.
  - by apply adjacent_reverse.
  - apply Forall_forall. intros b Hb. rewrite elem_of_reverse in Hb. rewrite <-Hperm.
    apply elem_of_cons in Hb as [->|Hb]; [left|right]. rewrite Forall_forall in H3. by apply H3.
  - exists latest, f. split_and!.
    + by rewrite last_reverse.
    + by rewrite head_reverse.
    + apply Forall_forall. intros b Hb. rewrite <-Hperm in Hb. apply elem_of_cons in Hb as [->|Hb]; [lia|].
      apply Hmax in Hb. simpl in Hb. lia.
    + intros b Hb. rewrite <-Hperm in Hb. apply elem_of_cons in Hb as [->|Hb]; [|by apply H6].
      intros [_ ?]. destruct H5 as [->|?]; lia.
Qed.

(** ** Pushing headers *)

Section push.
Context {C : Type} `{!LruCache C Bytes BlockHeader.t}.
Implicit Types (self : BlockHistory.t C) (b : BlockHeader.t).

(** The blocks recorded as reverted, in the order they were removed. *)
Definition record_all (dropped : list BlockHeader.t) (c : C) : C :=
  foldl (fun c b => lru_push (BlockHeader.hash b) b c) c dropped.

Lemma revert_loop_spec ph l c r l' c' :
  revert_loop ph l c = (r, (l', c')) →
  ∃ dropped, l = dropped ++ l' ∧ Forall (fun b => BlockHeader.hash b ≠ ph) dropped ∧
    c' = record_all dropped c ∧
    ((r = Ok tt ∧ ∃ h, head l' = Some h ∧ BlockHeader.hash h = ph) ∨
     (r = Err RevertPositionNotFound ∧ l' = [])).
Proof.
  revert c; induction l as [|h l IH]; intros c; simpl.
  { intros [= <- <- <-]. exists []. eauto 10. }
  case_decide as Hh.
  - intros [= <- <- <-]. exists []. simpl. split_and!; eauto 10.
  - intros (dropped & -> & Hd & -> & Hr)%IH. exists (h :: dropped). split_and!; auto.
Qed.

Definition trim (size : nat) (l : list BlockHeader.t) : list BlockHeader.t :=
  if size <? length l then tail l else l.

(** Everything [push] can do to the history. *)
Inductive push_effect b self (l : list BlockHeader.t) : Prop :=
| effect_keep keep rest : history self = keep ++ rest → l = keep → push_effect b self l
| effect_extend keep rest :
    history self = keep ++ rest → (∀ a, last keep = Some a → links a b) →
    l = trim (size self) (keep ++ [b]) → push_effect b self l
| effect_partial keep tip :
    history self = keep ++ [tip] → BlockHeader.is_partial tip = true → BlockHeader.is_partial b = true →
    BlockHeader.number tip = BlockHeader.number b → l = keep ++ [b] → push_effect b self l.

Lemma history_snoc self tip :
  latest self = Some tip → ∃ keep, history self = keep ++ [tip] ∧ removelast (history self) = keep.
Proof.
  intros (keep & Hk)%last_Some. exists keep. split; [done|]. rewrite Hk. apply removelast_last.
Qed.

Lemma determine_next_partial b self :
  determine_block_position b self = Ok NextPartial →
  ∃ tip, latest self = Some tip ∧ BlockHeader.number tip = BlockHeader.number b ∧
         BlockHeader.is_partial tip = true ∧ BlockHeader.is_partial b = true.
Proof.
  unfold determine_block_position. destruct (latest self) as [tip|]; simpl; [|done].
  case_decide; [done|]. destruct (_ && BlockHeader.is_partial b) eqn:Ep; simpl.
  - apply andb_true_iff in Ep as [En Eb]. apply Z.eqb_eq in En. unfold BlockHeader.is_partial in *.
    destruct (BlockHeader.partial_block_index tip) eqn:Et; [|done]. intros _.
    exists tip. rewrite Et. split_and!; auto.
  - repeat case_if; try done; destruct (oldest self); simpl; try done; repeat case_if; done.
Qed.

Lemma push_effects b self r self' :
  push b self = (r, self') → size self' = size self ∧ push_effect b self (history self').
Proof.
  unfold push. intros Hp.
  assert (∀ s : BlockHistory.t C, push_effect b s (history s)) as Hsame.
  { intros s. apply (effect_keep _ _ _ (history s) []); [by rewrite app_nil_r|done]. }
  destruct (determine_block_position b self) as [[]|e|] eqn:Ed; try (injection Hp as <- <-; by auto).
  - unfold st_bind in Hp. destruct (BlockHeader.revert b).
    + unfold revert_branch in Hp.
      destruct (revert_loop _ _ _) as [rr [l' c']] eqn:Er. apply revert_loop_spec in Er as (dr & Hd & _ & _ & Hr).
      assert (history self = reverse l' ++ reverse dr) as Hh.
      { by rewrite <-(reverse_involutive (history self)), Hd, reverse_app. }
      destruct Hr as [[-> (h & Hh' & Hph)]|[-> ->]].
      2: { injection Hp as <- <-. simpl. split; [done|]. by apply (effect_keep _ _ _ [] (reverse dr)). }
      unfold push_latest in Hp. unfold latest in Hp; simpl in Hp. rewrite last_reverse, Hh' in Hp.
      rewrite bool_decide_true in Hp by done. injection Hp as <- <-. simpl. split; [done|].
      eapply effect_extend; [exact Hh| |done]. rewrite last_reverse, Hh'. intros ? [= <-]. done.
    + unfold push_latest in Hp. simpl in Hp. destruct (latest self) as [tip|] eqn:El.
      * destruct (bool_decide _) eqn:Eb; simpl in Hp; injection Hp as <- <-; [|by auto]. split; [done|].
        apply bool_decide_eq_true in Eb. apply (effect_extend _ _ _ (history self) []);
          [by rewrite app_nil_r| |done]. unfold latest in El. rewrite El. by intros ? [= <-].
      * injection Hp as <- <-. split; [done|]. apply (effect_extend _ _ _ (history self) []);
          [by rewrite app_nil_r| |done]. unfold latest in El. by rewrite El.
  - destruct (determine_next_partial b self Ed) as (tip & Ht & Hn & Hpt & Hpb). rewrite Ht, Hpt in Hp.
    injection Hp as <- <-. simpl. split; [done|]. apply history_snoc in Ht as (keep & Hk & ->).
    by apply (effect_partial _ _ _ keep tip).
  - destruct (BlockHeader.revert b); [|injection Hp as <- <-; by auto].
    destruct (latest self) as [tip|] eqn:El; [|injection Hp as <- <-; by auto].
    destruct (BlockHeader.is_partial tip); injection Hp as <- <-; [|by auto]. simpl. split; [done|].
    apply history_snoc in El as (keep & Hk & ->). by apply (effect_keep _ _ _ keep [tip]).
Qed.
(** The history after a sequence of headers, rejected ones included. *)
Definition push_all (bs : list BlockHeader.t) self : BlockHistory.t C :=
  foldl (fun s b => (push b s).2) self bs.

(** Partial headers of one height have one parent. *)
Definition siblings_agree (hs : list BlockHeader.t) : Prop :=
  ∀ a b, a ∈ hs → b ∈ hs → BlockHeader.is_partial a = true → BlockHeader.is_partial b = true →
  BlockHeader.number a = BlockHeader.number b → BlockHeader.parent_hash a = BlockHeader.parent_hash b.

Lemma trim_sublist n l : ∃ k, trim n l = drop k l.
Proof. unfold trim. case_if; [exists 1|exists 0]; by destruct l. Qed.

(** A relation of neighbours that pushing keeps: it holds of linked headers, and passes from a
    partial header to one of the same height that replaces it. *)
Section neighbours.
Context (R : BlockHeader.t → BlockHeader.t → Prop) (hs : list BlockHeader.t).
Context (R_links : ∀ a b, links a b → R a b).
Context (R_partial : ∀ a tip b, tip ∈ hs → b ∈ hs → BlockHeader.is_partial tip = true →
  BlockHeader.is_partial b = true → BlockHeader.number tip = BlockHeader.number b → R a tip → R a b).

Lemma push_inv n b self :
  b ∈ hs → adjacent R (history self) → Forall (fun x => x ∈ hs) (history self) → length (history self) ≤ n →
  size self ≤ n → adjacent R (history (push b self).2) ∧ Forall (fun x => x ∈ hs) (history (push b self).2) ∧
  length (history (push b self).2) ≤ n ∧ size (push b self).2 = size self.
Proof using R_links R_partial.
  intros Hb Hadj Hin Hlen Hsz. destruct (push b self) as [r self'] eqn:Ep. simpl.
  apply push_effects in Ep as [Hsize Heff]. rewrite Hsize.
  destruct Heff as [keep rest Hh ->|keep rest Hh Hl ->|keep tip Hh Hpt Hpb Hn ->]; rewrite Hh in Hadj, Hin, Hlen;
    rewrite length_app in Hlen; apply Forall_app in Hin as [Hin Hin'];
    pose proof (adjacent_take _ (length keep) _ Hadj) as Hk; rewrite take_app_length in Hk.
  - split_and!; [done|done|lia|done].
  - destruct (trim_sublist (size self) (keep ++ [b])) as [k Hk']. split_and!; [| | |done].
    + rewrite Hk'. apply adjacent_drop, adjacent_snoc; auto.
    + rewrite Hk'. apply Forall_drop, Forall_app. split; [done|by constructor].
    + unfold trim. destruct (_ <? _) eqn:Hc.
      * destruct keep as [|x keep]; simpl in *; [lia|]. rewrite length_app. simpl. lia.
      * apply Nat.ltb_ge in Hc. lia.
  - apply Forall_cons in Hin' as [Htip _]. split_and!; [|by apply Forall_app; split; [|constructor]| |done].
    + apply adjacent_snoc; [done|]. intros a Ha.
      apply (R_partial a tip b Htip Hb Hpt Hpb Hn). apply (Hadj (length keep - 1)).
      * rewrite last_lookup in Ha. pose proof (lookup_lt_Some _ _ _ Ha).
        rewrite lookup_app_l by lia. by replace (length keep - 1) with (pred (length keep)) by lia.
      * rewrite last_lookup in Ha. pose proof (lookup_lt_Some _ _ _ Ha).
        rewrite lookup_app_r by lia. by replace (S (length keep - 1) - length keep) with 0 by lia.
    + rewrite length_app. simpl in *. lia.
Qed.

Lemma push_all_inv n bs self :
  Forall (fun x => x ∈ hs) bs →
  adjacent R (history self) → Forall (fun x => x ∈ hs) (history self) → length (history self) ≤ n →
  size self ≤ n → adjacent R (history (push_all bs self)) ∧ length (history (push_all bs self)) ≤ n.
Proof using R_links R_partial.
  intros Hbs; revert self; induction Hbs as [|b bs Hb _ IH]; intros self Hadj Hin Hlen Hsz; [done|].
  destruct (push_inv n b self Hb Hadj Hin Hlen Hsz) as (H1 & H2 & H3 & H4).
  apply IH; [done|done|done|]. by rewrite H4.
Qed.
End neighbours.

(** A new history, after any headers. *)
Lemma new_push_all (R : BlockHeader.t → BlockHeader.t → Prop) headers n self bs :
  (∀ a b, links a b → R a b) →
  (∀ a tip b, tip ∈ headers ++ bs → b ∈ headers ++ bs → BlockHeader.is_partial tip = true →
     BlockHeader.is_partial b = true → BlockHeader.number tip = BlockHeader.number b → R a tip → R a b) →
  new headers n = Ok self →
  adjacent R (history (push_all bs self)) ∧
  length (history (push_all bs self)) ≤ Nat.max (length (history self)) n.
Proof.
  intros HR HP. unfold new. case_decide; [done|]. intros [= <-]. apply (push_all_inv R (headers ++ bs) HR HP).
  - apply Forall_forall. intros x Hx. set_solver.
  - destruct headers as [|h hs]; [apply adjacent_nil|].
    destruct (connected_chain_spec (h :: hs) ltac:(done)) as (Hadj & _).
    intros i a b Ha Hb. apply HR. by apply (Hadj i a b Ha Hb).
  - destruct headers as [|h hs]; [constructor|].
    destruct (connected_chain_spec (h :: hs) ltac:(done)) as (_ & Hin & _).
    eapply Forall_impl; [exact Hin|]. set_solver.
  - simpl. lia.
  - simpl. lia.
Qed.

Lemma latest_trim n keep b : 0 < n → last (trim n (keep ++ [b])) = Some b.
Proof.
  intros Hn. unfold trim. destruct (_ <? _) eqn:Hc; [|apply last_snoc].
  apply Nat.ltb_lt in Hc. destruct keep as [|x keep]; simpl in *; [lia|]. apply last_snoc.
Qed.

Lemma push_accepted_latest b self self' :
  push b self = (Ok tt, self') → 0 < size self →
  determine_block_position b self ∈ [Ok NextExpected; Ok NextPartial] → latest self' = Some b.
Proof.
  unfold push. intros Hp Hsz Hpos. apply elem_of_cons in Hpos as [Ep|[Ep|Hn]%elem_of_cons];
    [| |by apply elem_of_nil in Hn]; rewrite Ep in Hp.
  - unfold st_bind in Hp.
    destruct ((if BlockHeader.revert b then revert_branch b else st_ret tt) self) as [[[]|e|] s1] eqn:E1;
      try done.
    assert (size s1 = size self) as Hs1.
    { destruct (BlockHeader.revert b); [|by injection E1 as <-].
      unfold revert_branch in E1. destruct (revert_loop _ _ _) as [? []]. by injection E1 as _ <-. }
    unfold push_latest in Hp. case_if; [done|]. injection Hp as <-. unfold latest; simpl.
    rewrite Hs1. by apply latest_trim.
  - destruct (latest self); [|done]. case_if; [done|]. injection Hp as <-. apply last_snoc.
Qed.

(** ** The cache of reverted blocks *)

Lemma elem_of_take_mono {A} n m (l : list A) x : n ≤ m → x ∈ take n l → x ∈ take m l.
Proof.
  intros Hnm Hx. replace n with (min n m) in Hx by lia. rewrite <-take_take in Hx.
  by apply subseteq_take in Hx.
Qed.

Lemma elem_of_take_filter {A} (P : A → Prop) `{∀ x, Decision (P x)} n l x :
  x ∈ take n l → P x → x ∈ take n (filter P l).
Proof.
  revert n; induction l as [|y l IH]; intros n Hx Px.
  { rewrite take_nil in Hx. by apply elem_of_nil in Hx. }
  destruct n as [|n]; simpl in Hx; [by apply elem_of_nil in Hx|].
  apply elem_of_cons in Hx as [->|Hx].
  - rewrite filter_cons_True by done. left.
  - rewrite filter_cons. case_decide; [right; by apply IH|].
    apply (elem_of_take_mono n); [lia|by apply IH].
Qed.

Lemma record_all_cap l c : lru_cap (record_all l c) = lru_cap c.
Proof. revert c; induction l as [|b l IH]; intros c; simpl; [done|]. by rewrite IH, lru_push_cap. Qed.

(** The last [n] recorded keys, [n] at most the capacity, are still known. *)
Lemma record_all_keys l c :
  length l ≤ lru_cap c →
  Forall (fun b => BlockHeader.hash b ∈ take (length l) (lru_keys (record_all l c))) l.
Proof.
  induction l as [|b l IH] using rev_ind; [constructor|]. intros Hlen. rewrite length_app in *. simpl in *.
  unfold record_all. rewrite foldl_app. simpl. fold (record_all l c). rewrite lru_push_keys, record_all_cap.
  rewrite take_take, Nat.min_l by lia. apply Forall_app. split.
  - specialize (IH ltac:(lia)). eapply Forall_impl; [exact IH|]. intros x Hx; simpl in Hx |- *.
    rewrite Nat.add_1_r. simpl. destruct (decide (BlockHeader.hash x = BlockHeader.hash b)) as [->|Hne]; [left|].
    right. by apply elem_of_take_filter.
  - constructor; [|constructor]. rewrite Nat.add_1_r. simpl. left.
Qed.
End push.

(** * The guarantees *)

Section guarantees.
Context {C : Type} `{!LruCache C Bytes BlockHeader.t}.

(** A new history is the maximal chain below the highest header: it ends in a header of
    the greatest height, consecutive blocks are linked by hash and by height, every block
    is one of the given headers, and no given header could extend the chain downwards. *)
Theorem new_history_maximal_chain headers n (self : BlockHistory.t C) :
  new headers n = Ok self → headers ≠ [] →
  adjacent follows_height (history self) ∧ Forall (fun b => b ∈ headers) (history self) ∧
  ∃ tip root, latest self = Some tip ∧ oldest self = Some root ∧
    Forall (fun b => BlockHeader.number b ≤ BlockHeader.number tip)%Z headers ∧
    ∀ b, b ∈ headers → ¬ follows_height b root.
Proof.
  unfold new. case_decide; [done|]. intros [= <-] Hne.
  exact (connected_chain_spec headers Hne).
Qed.

(** C18. Whatever headers are pushed, in any order, with reverts, gaps and duplicates, the
    history never grows beyond the larger of its size and the number of headers it began with,
    and every header in it is the child of the one before it, by hash, or a partial one.  If
    partial headers of one height have one parent, every header is.  Without that, a partial
    header that replaces another one of its height breaks the chain
    ([partial_with_other_parent]). *)
Theorem history_stays_connected headers n (self : BlockHistory.t C) bs :
  new headers n = Ok self →
  adjacent (fun a b => links a b ∨ BlockHeader.is_partial b = true) (history (push_all bs self)) ∧
  (siblings_agree (headers ++ bs) → adjacent links (history (push_all bs self))) ∧
  length (history (push_all bs self)) ≤ Nat.max (length (history self)) n.
Proof.
  intros Hnew. destruct (new_push_all (fun a b => links a b ∨ BlockHeader.is_partial b = true) headers n self bs)
    as [H1 H2]; [by left|by right|done|]. split_and!; [done| |done]. intros Hs.
  apply (new_push_all links headers n); [done| |done].
  unfold links. intros a tip b Ht Hb Hpt Hpb Hn ->. by apply Hs.
Qed.

(** A header that extended the history, or replaced its partial tip, is recognised as
    the latest one when it is delivered again, and delivering it again changes nothing. *)
Theorem redelivered_header_ignored b (self self' : BlockHistory.t C) :
  push b self = (Ok tt, self') → 0 < size self →
  determine_block_position b self ∈ [Ok NextExpected; Ok NextPartial] →
  BlockHeader.revert b = false → BlockHeader.parent_hash b ≠ BlockHeader.hash b →
  determine_block_position b self' = Ok Latest ∧ push b self' = (Ok tt, self').
Proof.
  intros Hp Hsz Hpos Hrev Hself. pose proof (push_accepted_latest b self self' Hp Hsz Hpos) as Hl.
  assert (determine_block_position b self' = Ok Latest) as Hd.
  { unfold determine_block_position. rewrite Hl. simpl. case_decide; [done|].
    rewrite Z.eqb_refl. simpl. destruct (BlockHeader.is_partial b) eqn:Epb.
    - unfold BlockHeader.is_partial in Epb. apply bool_decide_eq_true in Epb as [i Hi].
      by rewrite Hi, Z.ltb_irrefl, Z.eqb_refl.
    - by rewrite bool_decide_true, Hrev. }
  split; [done|]. unfold push. by rewrite Hd, Hrev.
Qed.

(** A revert header whose parent is a known block drops exactly the blocks above that
    parent, puts the new block on top, and remembers the dropped blocks, as long as they fit
    the cache of reverted blocks. *)
Theorem revert_drops_branch b (self : BlockHistory.t C) keep dropped fork :
  determine_block_position b self = Ok NextExpected → BlockHeader.revert b = true →
  history self = keep ++ dropped → last keep = Some fork → links fork b →
  Forall (fun x => BlockHeader.hash x ≠ BlockHeader.parent_hash b) dropped →
  length dropped ≤ lru_cap (reverts self) →
  ∃ self', push b self = (Ok tt, self') ∧ history self' = trim (size self) (keep ++ [b]) ∧
    Forall (fun x => lru_contains (BlockHeader.hash x) (reverts self') = true) dropped.
Proof.
  intros Hd Hrev Hh Hfork Hl Hdr Hcap.
  assert (revert_loop (BlockHeader.parent_hash b) (reverse (history self)) (reverts self) =
    (Ok tt, (reverse keep, record_all (reverse dropped) (reverts self)))) as Hloop.
  { rewrite Hh, reverse_app. rewrite <-(Forall_reverse _ dropped) in Hdr. revert Hdr.
    generalize (reverse dropped) (reverts self). intros l c Hdr. revert c.
    induction Hdr as [|x l Hx _ IH]; intros c; simpl.
    - rewrite <-head_reverse in Hfork. destruct (reverse keep) as [|y l]; [done|].
      injection Hfork as ->. simpl. by rewrite decide_True.
    - rewrite decide_False by done. apply IH. }
  eexists. split; [|split].
  - unfold push, st_bind. rewrite Hd, Hrev. unfold revert_branch. rewrite Hloop.
    unfold push_latest, latest. simpl. rewrite reverse_involutive, Hfork.
    by rewrite bool_decide_true.
  - done.
  - simpl. apply Forall_forall. intros x Hx. rewrite lru_contains_keys. apply bool_decide_eq_true.
    pose proof (record_all_keys (reverse dropped) (reverts self)) as Hk. rewrite length_reverse in Hk.
    specialize (Hk Hcap). rewrite Forall_forall in Hk. specialize (Hk x).
    rewrite elem_of_reverse in Hk. specialize (Hk Hx). by apply subseteq_take in Hk.
Qed.
End guarantees.

(** ** Witnesses *)

Module HistoryExamples.
(** A cache that is a list of keys, most recent first. *)
Definition keys_push (k : Bytes) (v : BlockHeader.t) (c : nat * list Bytes) : nat * list Bytes :=
  (c.1, take c.1 (k :: filter (fun k' => k' ≠ k) c.2)).

#[export] Instance keys_cache : LruCache (nat * list Bytes) Bytes BlockHeader.t := {
  lru_new cap := (cap, []);
  lru_push := keys_push;
  lru_contains k c := bool_decide (k ∈ c.2);
  lru_cap := fst;
  lru_keys := snd;
  lru_new_keys _ := eq_refl;
  lru_new_cap _ := eq_refl;
  lru_push_keys _ _ _ := eq_refl;
  lru_push_cap _ _ _ := eq_refl;
  lru_contains_keys _ _ := eq_refl
}.

Definition header (n : Z) (hash parent : byte) (revert : bool) : BlockHeader.t :=
  BlockHeader.mk [hash] n [parent] revert 0 None.
Definition h1 : BlockHeader.t := header 1 x01 x00 false.
Definition h2 : BlockHeader.t := header 2 x02 x01 false.
Definition h2' : BlockHeader.t := header 2 x22 x01 false.
Definition h3 : BlockHeader.t := header 3 x03 x02 false.
Definition fork3 : BlockHeader.t := header 2 x02 x01 true.
Definition start : BlockHistory.t (nat * list Bytes) := mk [h1; h2] (50, []) 5.
Definition grown : BlockHistory.t (nat * list Bytes) := mk [h1; h2; h3] (50, []) 5.
End HistoryExamples.

Import HistoryExamples.

Lemma new_history_maximal_chain_witness : ∃ tip root,
  latest start = Some tip ∧ oldest start = Some root ∧ ∀ b, b ∈ [h2'; h1; h2] → ¬ follows_height b root.
Proof.
  destruct (new_history_maximal_chain [h2'; h1; h2] 5 start) as (_ & _ & tip & root & H1 & H2 & _ & H3).
  - reflexivity.
  - discriminate.
  - exists tip, root. split; [exact H1|]. split; [exact H2|exact H3].
Defined.

Lemma history_stays_connected_witness : adjacent links (history (push_all [h3; fork3; h3] start)).
Proof.
  refine (proj1 (proj2 (history_stays_connected [h1; h2] 5 start [h3; fork3; h3] _)) _); [reflexivity|].
  intros a b Ha Hb Hpa. exfalso.
  repeat (apply elem_of_cons in Ha as [->|Ha]; [discriminate Hpa|]). by apply elem_of_nil in Ha.
Defined.

(** Two partial headers of height 3 with different parents: the second replaces the first. *)
Lemma partial_with_other_parent :
  let partial i parent := BlockHeader.mk [x33] 3 [parent] false 3 (Some i) in
  let bs := [partial 0%Z x02; partial 1%Z x07] in
  history (push_all bs start) = [h1; h2; partial 1%Z x07] ∧ ¬ links h2 (partial 1%Z x07).
Proof. split; [vm_compute; reflexivity|]. discriminate. Qed.

Lemma redelivered_header_ignored_witness : push h3 grown = (Ok tt, grown).
Proof.
  refine (proj2 (redelivered_header_ignored h3 start grown _ _ _ _ _)); try reflexivity.
  - simpl. lia.
  - vm_compute. left.
  - discriminate.
Defined.

Lemma revert_drops_branch_witness : ∃ self',
  push fork3 grown = (Ok tt, self') ∧ history self' = [h1; fork3] ∧
  Forall (fun x => lru_contains (BlockHeader.hash x) (reverts self') = true) [h2; h3].
Proof.
  apply (revert_drops_branch fork3 grown [h1] [h2; h3] h1); try reflexivity.
  - repeat constructor; discriminate.
  - simpl. lia.
Defined.
