(* ===== verification/SafeMath.v ===== *)
(** Checked arithmetic and integer square roots of the simulation crate:
    [tycho_simulation::evm::protocol::safe_math] and [...::utils::solidity_math].

    [U256], [U512] and [I256] are integers of [alloy]; a value is a [Z] in the range of its
    type.  Operators wrap, [checked_] methods answer [None] out of range, shifts by fewer
    than the width drop the bits shifted out, division by zero unwinds. *)

From S2P Require Import Prelude.

Open Scope Z_scope.

(** The result a concentrated-liquidity pool had reached when it ran out of ticks: the
    amount, the gas, and the fields of the new state that a swap changes. *)
Module PartialResult.
Record t := mk { amount : Z; gas : Z; liquidity : Z; sqrt_price : Z; tick : Z }.
#[global] Instance eq_dec : EqDecision t.
Proof. solve_decision. Defined.
End PartialResult.

(** [tycho_common::simulation::errors].  The optional payload of [InvalidInput] is a partial
    result. *)
Inductive SimulationError :=
| FatalError (msg : string)
| InvalidInput (msg : string) (partial : option PartialResult.t)
| RecoverableError (msg : string).

#[global] Instance simulation_error_eq_dec : EqDecision SimulationError.
Proof. solve_decision. Defined.

Inductive TransitionError :=
| MissingAttribute (name : string)
| TransitionDecodeError (msg : string)
| InvalidEventType
| TransitionSimulationError (e : SimulationError).

(** [/] and [%] of the integer types. *)
Definition div_op {E} (a b : Z) : result E Z := if b =? 0 then Panic else Ok (a / b).
Definition mod_op {E} (a b : Z) : result E Z := if b =? 0 then Panic else Ok (a mod b).

(** * Checked operations *)

Definition _construc_result_u256 (res : option Z) : result SimulationError Z :=
  ok_or res (FatalError "U256 arithmetic overflow").
Definition _construc_result_u512 (res : option Z) : result SimulationError Z :=
  ok_or res (FatalError "U512 arithmetic overflow").
Definition _construc_result_i256 (res : option Z) : result SimulationError Z :=
  ok_or res (FatalError "I256 arithmetic overflow").

Definition safe_mul_u256 (a b : Z) : result SimulationError Z := _construc_result_u256 (checked 256 (a * b)).
Definition safe_div_u256 (a b : Z) : result SimulationError Z :=
  if b =? 0 then Err (FatalError "Division by zero") else _construc_result_u256 (checked 256 (a / b)).
Definition safe_add_u256 (a b : Z) : result SimulationError Z := _construc_result_u256 (checked 256 (a + b)).
Definition safe_sub_u256 (a b : Z) : result SimulationError Z := _construc_result_u256 (checked 256 (a - b)).
Definition div_mod_u256 (a b : Z) : result SimulationError (Z * Z) :=
  if b =? 0 then Err (FatalError "Division by zero") else Ok (a / b, a mod b).

Definition safe_mul_u512 (a b : Z) : result SimulationError Z := _construc_result_u512 (checked 512 (a * b)).
Definition safe_div_u512 (a b : Z) : result SimulationError Z :=
  if b =? 0 then Err (FatalError "Division by zero") else _construc_result_u512 (checked 512 (a / b)).
Definition safe_add_u512 (a b : Z) : result SimulationError Z := _construc_result_u512 (checked 512 (a + b)).
Definition safe_sub_u512 (a b : Z) : result SimulationError Z := _construc_result_u512 (checked 512 (a - b)).
Definition div_mod_u512 (a b : Z) : result SimulationError (Z * Z) :=
  if b =? 0 then Err (FatalError "Division by zero") else Ok (a / b, a mod b).

(** Signed division truncates towards zero. *)
Definition safe_mul_i256 (a b : Z) : result SimulationError Z := _construc_result_i256 (schecked 256 (a * b)).
Definition safe_div_i256 (a b : Z) : result SimulationError Z :=
  if b =? 0 then Err (FatalError "Division by zero") else _construc_result_i256 (schecked 256 (Z.quot a b)).
Definition safe_add_i256 (a b : Z) : result SimulationError Z := _construc_result_i256 (schecked 256 (a + b)).
Definition safe_sub_i256 (a b : Z) : result SimulationError Z := _construc_result_i256 (schecked 256 (a - b)).

(** * Multiplication and division in double width *)

(** The upper four limbs are the bits from 256 on. *)
Definition truncate_to_u256 (value : Z) : result SimulationError Z :=
  if Z.shiftr value 256 =? 0 then Ok (wrap 256 value)
  else Err (FatalError "Overflow: Value exceeds 256 bits").

Definition mul_div (a b denom : Z) : result SimulationError Z :=
  product ← safe_mul_u512 a b;
  result ← safe_div_u512 product denom;
  truncate_to_u256 result.

Definition mul_div_rounding_up (a b denom : Z) : result SimulationError Z :=
  product ← safe_mul_u512 a b;
  '(result, rest) ← div_mod_u512 product denom;
  result ← (if negb (rest =? 0)
            then ok_or (checked 512 (result + 1)) (FatalError "Overflow when rounding up")
            else Ok result);
  truncate_to_u256 result.

(** * Square roots *)

(** The number of significant bits, [width - leading_zeros]. *)
Definition bit_length (value : Z) : Z := if value =? 0 then 0 else Z.log2 value + 1.

(** The Newton loop.  [None] is running out of fuel; [value / result] would unwind for
    [result = 0]. *)
Fixpoint newton (fuel : nat) (value result : Z) (decreasing : bool) : option Z :=
  match fuel with
  | O => None
  | S fuel' =>
      if result =? 0 then None
      else
        let division := value / result in
        let iter := wrap 512 (division + result) / 2 in
        if iter =? result then Some result
        else if result <? iter then
          if decreasing then Some result
          else
            let doubled := wrap 512 (result * 2) in
            newton fuel' value (if doubled <? iter then doubled else iter) decreasing
        else newton fuel' value iter true
  end.

(** [SQRT_FUEL] turns are enough: see [sqrt_u512_floor]. *)
Definition SQRT_FUEL : nat := 264.

Definition sqrt_u512 (value : Z) : option Z :=
  if value =? 0 then Some 0
  else if value =? 1 then Some 1
  else newton SQRT_FUEL value (wrap 512 (Z.shiftl 1 (bit_length value / 2))) false.

(** The part of [compute_karatsuba_sqrt] after the recursive call, which gave the root [s]
    and the remainder [r] of the upper part: the root and the remainder of [x]. *)
Definition karatsuba_combine (x b s r : Z) : option (Z * Z) :=
  let t := wrap 256 (wrap 256 (Z.shiftl 1 (b * 2)) - 1) in
  let r := Z.lor (wrap 256 (Z.shiftl r b)) (Z.shiftr (Z.land x t) b) in
  let s := wrap 256 (Z.shiftl s 1) in
  if s =? 0 then None
  else
    let q := r / s in
    let r := wrap 256 (r - wrap 256 (q * s)) in
    let s := wrap 256 (wrap 256 (Z.shiftl s (b - 1)) + q) in
    let t := wrap 256 (wrap 256 (Z.shiftl 1 b) - 1) in
    let r := Z.lor (wrap 256 (Z.shiftl r b)) (Z.land x t) in
    let q_squared := wrap 256 (q * q) in
    if r <? q_squared then
      let t := wrap 256 (wrap 256 (Z.shiftl s 1) - 1) in
      Some (wrap 256 (s - 1), wrap 256 (wrap 256 (r + t) - q_squared))
    else Some (s, wrap 256 (r - q_squared)).

(** The root, and the remainder left in [r].  [fuel] bounds the recursion depth;
    [u64::isqrt] is the floor of the root. *)
Fixpoint compute_karatsuba_sqrt (fuel : nat) (x bits : Z) : option (Z * Z) :=
  match fuel with
  | O => None
  | S fuel' =>
      if bits <=? 64 then
        let x_small := wrap 64 x in
        let result := Z.sqrt x_small in
        Some (result, wrap 256 (x - wrap 64 (result * result)))
      else
        let b := bits / 4 in
        match compute_karatsuba_sqrt fuel' (Z.shiftr x (b * 2)) (bits - b * 2) with
        | None => None
        | Some (s, r) => karatsuba_combine x b s r
        end
  end.

(** The bit length at least halves down to 64: three levels. *)
Definition KARATSUBA_FUEL : nat := 4.

Definition sqrt_u256 (value : Z) : option (result SimulationError Z) :=
  if value =? 0 then Some (Ok 0)
  else
    match compute_karatsuba_sqrt KARATSUBA_FUEL value (bit_length value) with
    | Some (root, _) => Some (Ok root)
    | None => None
    end.

(** * Facts *)

Lemma shiftr_zero_iff v w : 0 <= v -> 0 <= w -> (Z.shiftr v w =? 0) = (v <? 2 ^ w).
Proof.
  intros Hv Hw. rewrite Z.shiftr_div_pow2 by lia.
  assert (0 < 2 ^ w) by lia. destruct (Z.ltb_spec v (2 ^ w)) as [Hlt|Hge].
  - rewrite Z.div_small by lia. done.
  - apply Z.eqb_neq. pose proof (Z.div_le_lower_bound v (2 ^ w) 1 ltac:(lia) ltac:(lia)). lia.
Qed.

Lemma truncate_to_u256_spec v :
  0 <= v ->
  truncate_to_u256 v = if v <? 2 ^ 256 then Ok v else Err (FatalError "Overflow: Value exceeds 256 bits").
Proof.
  intros Hv. unfold truncate_to_u256. rewrite shiftr_zero_iff by lia.
  destruct (Z.ltb_spec v (2 ^ 256)); [|done]. by rewrite wrap_small by (unfold in_range; lia).
Qed.

Lemma u512_product a b : in_range 256 a -> in_range 256 b -> safe_mul_u512 a b = Ok (a * b).
Proof.
  unfold in_range, safe_mul_u512. intros Ha Hb. unfold checked.
  replace (fits 512 (a * b)) with true; [done|]. symmetry. apply fits_spec. unfold in_range.
  change (2 ^ 512) with (2 ^ 256 * 2 ^ 256). nia.
Qed.

Lemma div_range w a b : in_range w a -> 0 < b -> in_range w (a / b).
Proof.
  unfold in_range. intros Ha Hb. split; [apply Z.div_pos; lia|].
  apply Z.le_lt_trans with a; [|lia]. apply Z.div_le_upper_bound; nia.
Qed.

(** ** When a checked operation succeeds *)

Lemma safe_mul_ok a b r : safe_mul_u256 a b = Ok r <-> a * b = r /\ in_range 256 r.
Proof.
  unfold safe_mul_u256, _construc_result_u256, ok_or. destruct (checked 256 (a * b)) eqn:E.
  - apply checked_Some in E as [<- ?]. naive_solver.
  - apply checked_None in E. naive_solver.
Qed.

Lemma safe_add_ok a b r : safe_add_u256 a b = Ok r <-> a + b = r /\ in_range 256 r.
Proof.
  unfold safe_add_u256, _construc_result_u256, ok_or. destruct (checked 256 (a + b)) eqn:E.
  - apply checked_Some in E as [<- ?]. naive_solver.
  - apply checked_None in E. naive_solver.
Qed.

Lemma safe_sub_ok a b r : safe_sub_u256 a b = Ok r <-> a - b = r /\ in_range 256 r.
Proof.
  unfold safe_sub_u256, _construc_result_u256, ok_or. destruct (checked 256 (a - b)) eqn:E.
  - apply checked_Some in E as [<- ?]. naive_solver.
  - apply checked_None in E. naive_solver.
Qed.

Lemma safe_div_ok a b r : safe_div_u256 a b = Ok r <-> b <> 0 /\ a / b = r /\ in_range 256 r.
Proof.
  unfold safe_div_u256, _construc_result_u256, ok_or. destruct (Z.eqb_spec b 0); [naive_solver|].
  destruct (checked 256 (a / b)) eqn:E.
  - apply checked_Some in E as [<- ?]. naive_solver.
  - apply checked_None in E. naive_solver.
Qed.

(** Take a successful chain of checked operations apart. *)
Ltac inv_safe :=
  repeat match goal with
  | H : safe_mul_u256 _ _ = Ok _ |- _ => apply safe_mul_ok in H as [? ?]
  | H : safe_add_u256 _ _ = Ok _ |- _ => apply safe_add_ok in H as [? ?]
  | H : safe_sub_u256 _ _ = Ok _ |- _ => apply safe_sub_ok in H as [? ?]
  | H : safe_div_u256 _ _ = Ok _ |- _ => apply safe_div_ok in H as (? & ? & ?)
  end.
