(* ===== verification/SafeMathSpec.v ===== *)
(** The square roots and the double-width division are exact.

    [sqrt_u512] (Newton) and [sqrt_u256] (Karatsuba, after Zimmermann) return the floor of
    the square root for every input of their type, in the stated number of turns;
    [mul_div] and [mul_div_rounding_up] are the exact quotient and its ceiling. *)

From S2P Require Import Prelude SafeMath.

Open Scope Z_scope.

(** * Newton's iteration *)

Section newton.
Context (n : Z) (Hn : 1 <= n < 2 ^ 512).

Let s := Z.sqrt n.

Lemma sqrt_bounds : 1 <= s < 2 ^ 256 /\ s * s <= n <= s * s + 2 * s.
Proof using Hn.
  unfold s. pose proof (Z.sqrt_spec n ltac:(lia)) as Hs. simpl in Hs.
  assert (1 <= Z.sqrt n) by (apply Z.sqrt_le_square; lia).
  split; [|nia]. split; [done|]. apply Z.sqrt_lt_square; [lia|lia|].
  change (2 ^ 256 * 2 ^ 256) with (2 ^ 512). lia.
Qed.

(** One step, without the wrap-around, which never happens below [2 ^ 511]. *)
Definition step (x : Z) : Z := (n / x + x) / 2.

Lemma step_lower x : 1 <= x -> s <= step x.
Proof using Hn.
  intros Hx. pose proof sqrt_bounds as [Hs1 Hs2]. unfold step.
  apply Z.div_le_lower_bound; [lia|].
  destruct (Z.le_gt_cases (2 * s) x) as [Hbig|Hsmall].
  - assert (0 <= n / x) by (apply Z.div_pos; lia). lia.
  - enough (2 * s - x <= n / x) by lia. apply Z.div_le_lower_bound; [lia|].
    pose proof (Z.square_nonneg (s - x)). nia.
Qed.

Lemma step_down x : s < x -> s <= step x /\ 2 * (step x - s) <= x - s.
Proof using Hn.
  intros Hx. pose proof sqrt_bounds as [Hs1 Hs2]. split; [apply step_lower; lia|].
  unfold step. assert (n / x <= s).
  { apply Z.lt_succ_r. apply Z.div_lt_upper_bound; nia. }
  pose proof (Z.mul_div_le (n / x + x) 2 ltac:(lia)). lia.
Qed.

Lemma step_at_root : step s = s \/ step s = s + 1.
Proof using Hn.
  pose proof sqrt_bounds as [Hs1 Hs2]. unfold step.
  assert (s <= n / s <= s + 2) as Hd.
  { split; [apply Z.div_le_lower_bound; lia|]. apply Z.lt_succ_r, Z.div_lt_upper_bound; nia. }
  pose proof (Z.div_mod (n / s + s) 2 ltac:(lia)). pose proof (Z.mod_pos_bound (n / s + s) 2 ltac:(lia)).
  lia.
Qed.

Lemma step_unwrapped x : 1 <= x -> n / x + x < 2 ^ 512 -> wrap 512 (n / x + x) / 2 = step x.
Proof using Hn.
  intros Hx Hlt. unfold step. rewrite wrap_small; [done|]. split; [|done].
  assert (0 <= n / x) by (apply Z.div_pos; lia). lia.
Qed.

(** Below the range where the sum could wrap. *)
Lemma step_sum x : s <= x < 2 ^ 300 -> n / x + x < 2 ^ 512.
Proof using Hn.
  intros Hx. pose proof sqrt_bounds as [Hs1 Hs2].
  assert (n / x <= s + 2) by (apply Z.lt_succ_r, Z.div_lt_upper_bound; nia). lia.
Qed.

(** From a value at distance [e < 2 ^ k] above the root, going down, [k + 1] turns are
    enough. *)
Lemma newton_down (k : nat) x :
  s <= x < 2 ^ 300 -> x - s < 2 ^ Z.of_nat k -> newton (S k) n x true = Some s.
Proof using Hn.
  pose proof sqrt_bounds as [Hs1 Hs2]. revert x. induction k as [|k IH]; intros x Hx He.
  - assert (x = s) as -> by (simpl in He; lia). simpl.
    replace (s =? 0) with false by lia. rewrite step_unwrapped by (try apply step_sum; lia).
    destruct step_at_root as [-> | ->]; [by rewrite Z.eqb_refl|].
    replace (s + 1 =? s) with false by lia. by replace (s <? s + 1) with true by lia.
  - remember (S k) as k' eqn:Ek. cbn [newton]. replace (x =? 0) with false by lia.
    rewrite step_unwrapped by (try apply step_sum; lia).
    destruct (Z.eq_dec x s) as [->|Hne].
    + destruct step_at_root as [-> | ->]; [by rewrite Z.eqb_refl|].
      replace (s + 1 =? s) with false by lia. by replace (s <? s + 1) with true by lia.
    + destruct (step_down x ltac:(lia)) as [Hlo Hhi].
      replace (step x =? x) with false by lia. replace (x <? step x) with false by lia.
      subst k'. apply IH; [lia|]. rewrite Nat2Z.inj_succ, Z.pow_succ_r in He by lia. lia.
Qed.

(** The same before the first decrease. *)
Lemma newton_from_above (k : nat) x :
  s <= x < 2 ^ 300 -> x - s < 2 ^ Z.of_nat k -> newton (S (S (S k))) n x false = Some s.
Proof using Hn.
  pose proof sqrt_bounds as [Hs1 Hs2]. intros Hx He. remember (S (S k)) as k' eqn:Ek. cbn [newton].
  replace (x =? 0) with false by lia. rewrite step_unwrapped by (try apply step_sum; lia).
  destruct (Z.eq_dec x s) as [->|Hne].
  - destruct step_at_root as [-> | E1]; [by rewrite Z.eqb_refl|]. rewrite E1.
    replace (s + 1 =? s) with false by lia. replace (s <? s + 1) with true by lia.
    rewrite (wrap_small 512 (s * 2)) by (unfold in_range; lia).
    replace (s * 2 <? s + 1) with false by lia. subst k'.
    remember (S k) as k'' eqn:Ek. cbn [newton]. replace (s + 1 =? 0) with false by lia.
    rewrite step_unwrapped by (try apply step_sum; lia).
    destruct (step_down (s + 1) ltac:(lia)) as [Hlo Hhi].
    replace (step (s + 1) =? s + 1) with false by lia. replace (s + 1 <? step (s + 1)) with false by lia.
    subst k''. apply newton_down; lia.
  - destruct (step_down x ltac:(lia)) as [Hlo Hhi].
    replace (step x =? x) with false by lia. replace (x <? step x) with false by lia.
    subst k'. apply newton_down; [lia|]. rewrite Nat2Z.inj_succ, Z.pow_succ_r by lia. lia.
Qed.

(** From below the root by less than a factor of [sqrt 2], one step jumps above it. *)
Lemma newton_from_below (k : nat) x :
  1 <= x < s -> n < 2 * (x * x) -> s < 2 ^ Z.of_nat k ->
  newton (S (S (S (S k)))) n x false = Some s.
Proof using Hn.
  pose proof sqrt_bounds as [Hs1 Hs2]. intros Hx Hn2 Hk. remember (S (S (S k))) as k' eqn:Ek. cbn [newton].
  replace (x =? 0) with false by lia.
  assert (n / x < 2 * x) as Hdiv by (apply Z.div_lt_upper_bound; nia).
  rewrite step_unwrapped by lia. pose proof (step_lower x ltac:(lia)) as Hlo.
  assert (step x < 2 * x) as Hhi by (unfold step; apply Z.div_lt_upper_bound; lia).
  replace (step x =? x) with false by lia. replace (x <? step x) with true by lia.
  rewrite (wrap_small 512 (x * 2)) by (unfold in_range; lia).
  replace (x * 2 <? step x) with false by lia.
  subst k'. apply newton_from_above; lia.
Qed.

End newton.

(** The starting point [2 ^ (bits / 2)] is above the root or within a factor [sqrt 2]. *)
Lemma newton_start n :
  2 <= n < 2 ^ 512 ->
  let x := 2 ^ (bit_length n / 2) in
  1 <= x <= 2 ^ 256 /\ wrap 512 (Z.shiftl 1 (bit_length n / 2)) = x /\ (n < x * x \/ x * x <= n < 2 * (x * x)).
Proof.
  intros Hn. assert (bit_length n = Z.log2 n + 1) as -> by (unfold bit_length; by replace (n =? 0) with false by lia).
  intros x.
  destruct (Z.log2_spec n ltac:(lia)) as [Hlo Hhi]. unfold Z.succ in Hhi.
  assert (0 <= Z.log2 n < 512) as Hlog by (split; [apply Z.log2_nonneg|apply Z.log2_lt_pow2; lia]).
  set (l := Z.log2 n) in *. pose proof (Z.div_mod (l + 1) 2 ltac:(lia)) as Hdm.
  pose proof (Z.mod_pos_bound (l + 1) 2 ltac:(lia)) as Hm. set (m := (l + 1) / 2) in *.
  assert (0 <= m <= 256) as Hmb by lia.
  assert (1 <= x <= 2 ^ 256) as Hx.
  { unfold x. split; [|apply Z.pow_le_mono_r; lia].
    pose proof (Z.pow_pos_nonneg 2 m ltac:(lia) ltac:(lia)). lia. }
  assert (x * x = 2 ^ (2 * m)) as Hxx by (unfold x; rewrite <-Z.pow_add_r by lia; f_equal; lia).
  split_and!; [lia|lia| |].
  - rewrite Z.shiftl_mul_pow2, Z.mul_1_l by lia. apply wrap_small. unfold in_range. fold x. lia.
  - rewrite Hxx. assert ((l + 1) mod 2 = 0 \/ (l + 1) mod 2 = 1) as [E|E] by lia.
    + left. replace (2 * m) with (l + 1) by lia. done.
    + right. replace (2 * m) with l by lia. rewrite Z.pow_add_r in Hhi by lia. lia.
Qed.

Lemma sqrt_u512_correct n : in_range 512 n -> sqrt_u512 n = Some (Z.sqrt n).
Proof.
  intros [H0 Hn]. unfold sqrt_u512. destruct (Z.eqb_spec n 0) as [->|]; [done|].
  destruct (Z.eqb_spec n 1) as [->|]; [done|].
  destruct (newton_start n ltac:(lia)) as (Hx & -> & Hcase). set (x := 2 ^ (bit_length n / 2)) in *.
  pose proof (sqrt_bounds n ltac:(lia)) as [Hs1 Hs2]. set (s := Z.sqrt n) in *.
  destruct Hcase as [Habove|Hbelow].
  - apply (newton_from_above n ltac:(lia) 261); [nia|lia].
  - destruct (Z.eq_dec x s) as [E|Hne].
    + apply (newton_from_above n ltac:(lia) 261); [lia|lia].
    + apply (newton_from_below n ltac:(lia) 260); [|lia|lia]. split; [lia|]. nia.
Qed.

(** * Karatsuba's square root *)

(** The recombination step, without machine arithmetic: [s] and [r] are root and remainder
    of the upper half. *)
Lemma karatsuba_step beta s r a1 a0 :
  0 < beta <= 2 * s -> 0 <= r <= 2 * s -> 0 <= a1 < beta -> 0 <= a0 < beta ->
  let x := (s * s + r) * (beta * beta) + a1 * beta + a0 in
  let q := (r * beta + a1) / (2 * s) in
  let u := r * beta + a1 - q * (2 * s) in
  let root := s * beta + q in
  let rem := u * beta + a0 in
  0 <= q <= beta /\ 0 <= u < 2 * s /\
  (if rem <? q * q
   then Z.sqrt x = root - 1 /\ rem + (2 * root - 1) - q * q = x - (root - 1) * (root - 1)
   else Z.sqrt x = root /\ rem - q * q = x - root * root).
Proof.
  intros Hb Hr Ha1 Ha0 x q u root rem.
  pose proof (Z.div_mod (r * beta + a1) (2 * s) ltac:(lia)) as Hdm.
  pose proof (Z.mod_pos_bound (r * beta + a1) (2 * s) ltac:(lia)) as Hm. fold q in Hdm.
  assert (u = (r * beta + a1) mod (2 * s)) as Hu by (unfold u; lia).
  assert (0 <= q) as Hq0 by (apply Z.div_pos; nia).
  assert (q <= beta) as Hq1 by (unfold q; apply Z.lt_succ_r, Z.div_lt_upper_bound; nia).
  assert (x - root * root = rem - q * q) as Hid by (unfold x, root, rem, u; ring).
  split_and!; [done|done|lia|lia|].
  destruct (Z.ltb_spec rem (q * q)) as [Hlt|Hge].
  - assert (0 <= rem) by (unfold rem; nia).
    assert (1 <= q) by nia. assert (q * q <= 2 * s * beta) by nia.
    split; [|unfold rem in *; nia]. apply Z.sqrt_unique. unfold Z.succ. split; [|nia].
    assert (2 * root - 1 + (rem - q * q) >= 0) by (unfold root; nia). nia.
  - split; [|lia]. apply Z.sqrt_unique. unfold Z.succ. split; [nia|].
    assert (rem <= 2 * s * beta - 1) by (unfold rem; nia). unfold root in *. nia.
Qed.

Lemma lor_shiftl a c b : 0 <= b -> 0 <= c < 2 ^ b -> Z.lor (a * 2 ^ b) c = a * 2 ^ b + c.
Proof.
  intros Hb Hc. assert (Z.land (a * 2 ^ b) c = 0) as Hz.
  { apply Z.bits_inj'. intros i Hi. rewrite Z.land_spec, Z.bits_0.
    destruct (Z.lt_ge_cases i b) as [Hlt|Hge].
    - by rewrite Z.mul_pow2_bits_low.
    - replace (Z.testbit c i) with false; [by rewrite andb_false_r|]. symmetry.
      rewrite <-(Z.mod_small c (2 ^ b)) by lia. by apply Z.mod_pow2_bits_high. }
  rewrite <-Z.lxor_lor by done. symmetry. by apply Z.add_nocarry_lxor.
Qed.

Lemma land_mask x k : 0 <= k -> Z.land x (2 ^ k - 1) = x mod 2 ^ k.
Proof. intros Hk. rewrite <-Z.land_ones by done. by rewrite Z.ones_equiv, Z.sub_1_r. Qed.

(** The split of [x] at bits [b] and [2 b]. *)
Lemma split_bits x b :
  0 <= b -> 0 <= x ->
  x = Z.shiftr x (b * 2) * (2 ^ b * 2 ^ b) + (x mod 2 ^ (b * 2)) / 2 ^ b * 2 ^ b + x mod 2 ^ b /\
  0 <= (x mod 2 ^ (b * 2)) / 2 ^ b < 2 ^ b /\ 0 <= x mod 2 ^ b < 2 ^ b.
Proof.
  intros Hb Hx. assert (0 < 2 ^ b) as Hp by lia.
  assert (2 ^ (b * 2) = 2 ^ b * 2 ^ b) as E by (rewrite <-Z.pow_add_r by lia; f_equal; lia).
  rewrite Z.shiftr_div_pow2, E by lia. set (p := 2 ^ b) in *.
  pose proof (Z.mod_pos_bound x (p * p) ltac:(nia)) as H1.
  pose proof (Z.mod_pos_bound x p ltac:(lia)) as H2.
  split_and!; [|apply Z.div_pos; lia|apply Z.div_lt_upper_bound; lia|lia|lia].
  assert (x mod p = (x mod (p * p)) mod p) as ->.
  { rewrite Z.rem_mul_r by lia. rewrite Z.mul_comm, Z_mod_plus_full. symmetry. by apply Z.mod_mod; lia. }
  pose proof (Z.div_mod x (p * p) ltac:(nia)). pose proof (Z.div_mod (x mod (p * p)) p ltac:(lia)). lia.
Qed.

Lemma bit_length_bounds x : 0 < x -> 2 ^ (bit_length x - 1) <= x < 2 ^ bit_length x /\ 1 <= bit_length x.
Proof.
  intros Hx. unfold bit_length. replace (x =? 0) with false by lia.
  pose proof (Z.log2_spec x Hx). pose proof (Z.log2_nonneg x). rewrite Z.add_simpl_r. unfold Z.succ in *. lia.
Qed.

Lemma bit_length_shiftr x k : 0 <= k < bit_length x -> 0 < x -> bit_length (Z.shiftr x k) = bit_length x - k.
Proof.
  intros Hk Hx. unfold bit_length in *. replace (x =? 0) with false in * by lia.
  assert (0 < Z.shiftr x k).
  { rewrite Z.shiftr_div_pow2 by lia. apply Z.div_str_pos. split; [lia|].
    apply Z.le_trans with (2 ^ Z.log2 x); [apply Z.pow_le_mono_r; lia|]. by apply Z.log2_spec. }
  replace (Z.shiftr x k =? 0) with false by lia. rewrite Z.log2_shiftr by lia. lia.
Qed.

Lemma sqrt_rem x : 0 <= x -> 0 <= x - Z.sqrt x * Z.sqrt x <= 2 * Z.sqrt x.
Proof. intros Hx. pose proof (Z.sqrt_spec x Hx) as H. simpl in H. lia. Qed.

Lemma shl_exact x k : 0 <= k -> in_range 256 (x * 2 ^ k) -> wrap 256 (Z.shiftl x k) = x * 2 ^ k.
Proof. intros Hk Hr. rewrite Z.shiftl_mul_pow2 by done. by apply wrap_small. Qed.

(** The upper half is large enough for one correction to be enough. *)
Lemma upper_root_large q b :
  1 <= b -> 2 ^ (2 * b - 1) <= q -> 2 ^ b <= 2 * Z.sqrt q.
Proof.
  intros Hb Hq. assert (0 < 2 ^ (2 * b - 1)) by lia.
  pose proof (Z.sqrt_spec q ltac:(lia)) as Hs. simpl in Hs. unfold Z.succ in Hs.
  pose proof (Z.sqrt_nonneg q). replace (2 * b - 1) with ((b - 1) + b) in Hq by lia.
  rewrite Z.pow_add_r in Hq by lia. replace (2 ^ b) with (2 * 2 ^ (b - 1)) in *.
  2: { rewrite <-Z.pow_succ_r by lia. f_equal. lia. }
  assert (0 < 2 ^ (b - 1)) by lia. nia.
Qed.

Lemma mul_bound a b A B : 0 <= a <= A -> 0 <= b <= B -> 0 <= a * b <= A * B.
Proof. nia. Qed.

(** The machine arithmetic of one level does not wrap, and computes the step. *)
Lemma karatsuba_combine_correct x b s r :
  16 <= b <= 64 -> 0 <= x -> 2 ^ b <= 2 * s < 2 ^ 130 -> 0 <= r <= 2 * s ->
  Z.shiftr x (b * 2) = s * s + r ->
  karatsuba_combine x b s r = Some (Z.sqrt x, x - Z.sqrt x * Z.sqrt x).
Proof.
  intros Hb Hx Hs Hr Hq. destruct (split_bits x b ltac:(lia) Hx) as (Hsplit & Ha1 & Ha0).
  rewrite Hq in Hsplit.
  assert (0 < 2 ^ b <= 2 ^ 64) as Hbeta by (split; [lia|apply Z.pow_le_mono_r; lia]).
  assert (0 < 2 ^ (b * 2) <= 2 ^ 128) as Hb2 by (split; [lia|apply Z.pow_le_mono_r; lia]).
  assert (s * 2 * 2 ^ (b - 1) = s * 2 ^ b) as Hhalf.
  { rewrite <-Z.mul_assoc, <-Z.pow_succ_r by lia. do 2 f_equal. lia. }
  unfold karatsuba_combine.
  rewrite (shl_exact 1 (b * 2)), (shl_exact 1 b), (shl_exact r b), (shl_exact s 1)
    by (unfold in_range; nia).
  rewrite !Z.mul_1_l, Z.pow_1_r, (wrap_small 256 (2 ^ (b * 2) - 1)), (wrap_small 256 (2 ^ b - 1))
    by (unfold in_range; lia).
  rewrite !land_mask, Z.shiftr_div_pow2 by lia. rewrite lor_shiftl by lia.
  set (beta := 2 ^ b) in *. set (a1 := (x mod 2 ^ (b * 2)) / beta) in *. set (a0 := x mod beta) in *.
  destruct (karatsuba_step beta s r a1 a0) as (Hq0 & Hu & Hfin); [lia|lia|lia|lia|].
  rewrite <-Hsplit in Hfin. replace (2 * s) with (s * 2) in Hfin, Hu, Hq0 by lia.
  replace (s * 2 =? 0) with false by lia.
  set (Q := (r * beta + a1) / (s * 2)) in *. set (u := r * beta + a1 - Q * (s * 2)) in *.
  rewrite (wrap_small 256 (Q * (s * 2))) by (unfold in_range, u in *; nia). fold u.
  rewrite (wrap_small 256 u) by (unfold in_range; lia).
  rewrite (shl_exact (s * 2) (b - 1)) by (unfold in_range; rewrite ?Hhalf; nia). rewrite Hhalf.
  rewrite (wrap_small 256 (s * beta + Q)) by (unfold in_range; nia).
  assert (wrap 256 (Z.shiftl u b) = u * beta) as -> by (apply shl_exact; [lia|unfold in_range; fold beta; nia]).
  assert (Z.lor (u * beta) a0 = u * beta + a0) as -> by (apply lor_shiftl; lia).
  rewrite (wrap_small 256 (Q * Q)) by (unfold in_range; nia).
  pose proof (mul_bound s beta (2 ^ 129) (2 ^ 64) ltac:(lia) ltac:(lia)) as Hroot.
  pose proof (mul_bound u beta (2 ^ 130) (2 ^ 64) ltac:(lia) ltac:(lia)) as Hrem.
  pose proof (mul_bound Q Q (2 ^ 64) (2 ^ 64) ltac:(lia) ltac:(lia)) as HQQ.
  destruct (Z.ltb_spec (u * beta + a0) (Q * Q)) as [Hlt|Hge]; destruct Hfin as [Hsq Hf].
  - rewrite (shl_exact (s * beta + Q) 1), Z.pow_1_r by (unfold in_range; lia).
    pose proof (Z.sqrt_nonneg x) as Hnn. pose proof (sqrt_rem x Hx) as Hrm. rewrite Hsq in Hnn, Hrm |- *.
    rewrite (wrap_small 256 ((s * beta + Q) * 2 - 1)) by (unfold in_range; lia).
    rewrite (wrap_small 256 (u * beta + a0 + _)) by (unfold in_range; lia).
    rewrite !wrap_small by (unfold in_range; lia). do 2 f_equal. lia.
  - rewrite wrap_small by (unfold in_range; lia). by rewrite Hsq, Hf.
Qed.

Lemma karatsuba_small fuel x :
  0 < x -> bit_length x <= 64 ->
  compute_karatsuba_sqrt (S fuel) x (bit_length x) = Some (Z.sqrt x, x - Z.sqrt x * Z.sqrt x).
Proof.
  intros Hx Hsmall. simpl. replace (bit_length x <=? 64) with true by lia.
  destruct (bit_length_bounds x Hx) as [Hlen _].
  assert (x < 2 ^ 64) by (apply Z.lt_le_trans with (2 ^ bit_length x); [lia|apply Z.pow_le_mono_r; lia]).
  rewrite (wrap_small 64 x) by (unfold in_range; lia). pose proof (sqrt_rem x ltac:(lia)).
  pose proof (Z.sqrt_nonneg x). rewrite (wrap_small 64), (wrap_small 256) by (unfold in_range; nia). done.
Qed.

Lemma karatsuba_correct fuel x :
  0 < x < 2 ^ 256 -> bit_length x <= 61 * 2 ^ Z.of_nat fuel + 3 ->
  compute_karatsuba_sqrt (S fuel) x (bit_length x) = Some (Z.sqrt x, x - Z.sqrt x * Z.sqrt x).
Proof.
  revert x; induction fuel as [|fuel IH]; intros x Hx Hbits;
    (destruct (Z.leb_spec (bit_length x) 64) as [Hsmall|Hbig]; [apply karatsuba_small; lia|]).
  { simpl in Hbits. lia. }
  remember (S fuel) as f eqn:Ef. cbn [compute_karatsuba_sqrt].
  replace (bit_length x <=? 64) with false by lia.
  set (b := bit_length x / 4).
  pose proof (Z.div_mod (bit_length x) 4 ltac:(lia)) as Hdm.
  pose proof (Z.mod_pos_bound (bit_length x) 4 ltac:(lia)) as Hmod. fold b in Hdm.
  assert (bit_length x <= 256) as Hmax.
  { unfold bit_length. replace (x =? 0) with false by lia.
    pose proof (proj1 (Z.log2_lt_pow2 x 256 ltac:(lia)) ltac:(lia)). lia. }
  pose proof (bit_length_shiftr x (b * 2) ltac:(lia) ltac:(lia)) as Hlq.
  set (q := Z.shiftr x (b * 2)) in *.
  assert (0 <= q) as Hq0 by (apply Z.shiftr_nonneg; lia).
  assert (0 < q) as Hqpos.
  { destruct (Z.eq_dec q 0) as [E|]; [|lia]. rewrite E in Hlq. change (bit_length 0) with 0 in Hlq. lia. }
  destruct (bit_length_bounds q Hqpos) as [Hql _]. rewrite Hlq in Hql.
  assert (2 ^ (2 * b - 1) <= q) as Hqlo.
  { apply Z.le_trans with (2 ^ (bit_length x - b * 2 - 1)); [apply Z.pow_le_mono_r; lia|lia]. }
  assert (q < 2 ^ 192) as Hqhi.
  { apply Z.lt_le_trans with (2 ^ (bit_length x - b * 2)); [lia|apply Z.pow_le_mono_r; lia]. }
  subst f. rewrite <-Hlq, IH; [|lia|].
  - pose proof (upper_root_large q b ltac:(lia) Hqlo). pose proof (sqrt_rem q ltac:(lia)).
    assert (Z.sqrt q < 2 ^ 96) by (apply Z.sqrt_lt_square; [lia|lia|]; change (2 ^ 96 * 2 ^ 96) with (2 ^ 192); lia).
    apply karatsuba_combine_correct; [lia|lia|lia|lia|]. fold q. lia.
  - rewrite Hlq. rewrite Nat2Z.inj_succ, Z.pow_succ_r in Hbits by lia. lia.
Qed.

(** * Double-width division *)

Lemma mul_div_exact a b denom :
  in_range 256 a -> in_range 256 b -> 0 < denom ->
  mul_div a b denom =
    if a * b / denom <? 2 ^ 256 then Ok (a * b / denom)
    else Err (FatalError "Overflow: Value exceeds 256 bits").
Proof.
  intros Ha Hb Hd. unfold mul_div. rewrite u512_product by done. cbn [mbind result_bind].
  unfold safe_div_u512. replace (denom =? 0) with false by lia.
  assert (in_range 512 (a * b)) as Hab.
  { unfold in_range in *. change (2 ^ 512) with (2 ^ 256 * 2 ^ 256). nia. }
  pose proof (div_range 512 (a * b) denom Hab Hd) as Hr. unfold checked.
  rewrite (proj2 (fits_spec _ _) Hr). cbn [_construc_result_u512 ok_or mbind result_bind].
  apply truncate_to_u256_spec. apply Hr.
Qed.

Lemma mul_div_rounding_up_exact a b denom :
  in_range 256 a -> in_range 256 b -> 0 < denom ->
  mul_div_rounding_up a b denom =
    if (a * b + denom - 1) / denom <? 2 ^ 256 then Ok ((a * b + denom - 1) / denom)
    else Err (FatalError "Overflow: Value exceeds 256 bits").
Proof.
  intros Ha Hb Hd. unfold mul_div_rounding_up. rewrite u512_product by done. cbn [mbind result_bind].
  unfold div_mod_u512. replace (denom =? 0) with false by lia. cbn [mbind result_bind].
  assert (0 <= a * b < 2 ^ 512 - 1) as Hab.
  { unfold in_range in *. change (2 ^ 512) with (2 ^ 256 * 2 ^ 256). nia. }
  pose proof (Z.div_mod (a * b) denom ltac:(lia)) as Hdm.
  pose proof (Z.mod_pos_bound (a * b) denom Hd) as Hm.
  assert (a * b / denom <= a * b) by (apply Z.div_le_upper_bound; nia).
  assert (0 <= a * b / denom) by (apply Z.div_pos; lia).
  destruct (Z.eqb_spec (a * b mod denom) 0) as [E|E]; cbn [negb].
  - replace ((a * b + denom - 1) / denom) with (a * b / denom).
    + cbn [mbind result_bind]. apply truncate_to_u256_spec. lia.
    + apply Z.div_unique with (denom - 1); lia.
  - replace ((a * b + denom - 1) / denom) with (a * b / denom + 1).
    + unfold checked. rewrite (proj2 (fits_spec 512 (a * b / denom + 1))) by (unfold in_range; lia).
      cbn [ok_or mbind result_bind]. apply truncate_to_u256_spec. lia.
    + apply Z.div_unique with (a * b mod denom - 1); lia.
Qed.

(** * The guarantees *)

(** [sqrt_u512] terminates on every 512-bit value within its bound of turns and returns
    the floor of the square root; no intermediate sum wraps around. *)
Theorem sqrt_u512_floor value : in_range 512 value -> sqrt_u512 value = Some (Z.sqrt value).
Proof. apply sqrt_u512_correct. Qed.

(** C10. [sqrt_u256], which splits the value recursively (Karatsuba square root), returns the
    floor of the square root of every 256-bit value and never fails. *)
Theorem sqrt_u256_floor value : in_range 256 value -> sqrt_u256 value = Some (Ok (Z.sqrt value)).
Proof.
  intros [H0 Hv]. unfold sqrt_u256. destruct (Z.eqb_spec value 0) as [->|Hne]; [done|].
  unfold KARATSUBA_FUEL. rewrite karatsuba_correct; [done|lia|].
  assert (bit_length value <= 256); [|simpl; lia].
  unfold bit_length. replace (value =? 0) with false by lia.
  pose proof (proj1 (Z.log2_lt_pow2 value 256 ltac:(lia)) ltac:(lia)). lia.
Qed.

(** [mul_div] and [mul_div_rounding_up] compute [a * b / denom], rounded down and up,
    without losing the high half of the product; they fail exactly when the divisor is zero
    or the quotient needs more than 256 bits. *)
Theorem mul_div_full_precision a b denom :
  in_range 256 a -> in_range 256 b -> in_range 256 denom ->
  (denom = 0 ->
     mul_div a b denom = Err (FatalError "Division by zero") /\
     mul_div_rounding_up a b denom = Err (FatalError "Division by zero")) /\
  (0 < denom ->
     let down := a * b / denom in
     let up := (a * b + denom - 1) / denom in
     mul_div a b denom =
       (if down <? 2 ^ 256 then Ok down else Err (FatalError "Overflow: Value exceeds 256 bits")) /\
     mul_div_rounding_up a b denom =
       (if up <? 2 ^ 256 then Ok up else Err (FatalError "Overflow: Value exceeds 256 bits"))).
Proof.
  intros Ha Hb _. split.
  - intros ->. unfold mul_div, mul_div_rounding_up. by rewrite u512_product.
  - intros Hd. split; [by apply mul_div_exact|by apply mul_div_rounding_up_exact].
Qed.

Lemma sqrt_u512_floor_witness : sqrt_u512 (2 ^ 511 + 12345) = Some (Z.sqrt (2 ^ 511 + 12345)).
Proof. apply sqrt_u512_floor. unfold in_range. lia. Defined.

Lemma sqrt_u256_floor_witness : sqrt_u256 (2 ^ 255 + 7) = Some (Ok (Z.sqrt (2 ^ 255 + 7))).
Proof. apply sqrt_u256_floor. unfold in_range. lia. Defined.

Lemma mul_div_full_precision_witness : mul_div_rounding_up (2 ^ 255) 3 (2 ^ 254) = Ok 6.
Proof.
  rewrite (proj2 (proj2 (mul_div_full_precision (2 ^ 255) 3 (2 ^ 254) ltac:(unfold in_range; lia)
    ltac:(unfold in_range; lia) ltac:(unfold in_range; lia)) ltac:(lia))). reflexivity.
Defined.
