(* ===== verification/Cpmm.v ===== *)
(** Constant-product pools of the simulation crate:
    [tycho_simulation::evm::protocol::{u256_num, cpmm, uniswap_v2, pancakeswap_v2}].

    Floating-point prices and fees ([fee], [spot_price]) are not modelled, except for the
    conversion of an integer to the bits of an [f64].  [PoolSwap] leaves out the price points
    of a trade-limit query, which these pools never return, and [SwapConstraint] keeps of a
    target price the price, the only part the pools read. *)

From S2P Require Import Prelude Collections Bytes Models SafeMath.

Open Scope Z_scope.

(** * u256_num.rs *)

(** [u256_to_f64] builds the bits of the float.  [u64::try_from] fails out of range. *)
Definition u256_to_f64_bits (x : Z) : result SimulationError Z :=
  if x =? 0 then Ok 0
  else
    let x_bits := bit_length x in
    let n_shifts := 53 - x_bits in
    let exponent := 1023 + 52 - n_shifts in
    significant ←
      (if 0 <=? n_shifts then
         ok_or (checked 64 (wrap 256 (Z.shiftl x n_shifts))) (FatalError "Unable to convert shifted U256")
       else
         let shift := - n_shifts in
         let lsb := Z.land (Z.shiftr x shift) 1 in
         let round_bit := Z.land (Z.shiftr x (shift - 1)) 1 in
         let sticky_bit :=
           if shift <? 2 then 0 else Z.land x (wrap 256 (wrap 256 (Z.shiftl 1 (shift - 2)) - 1)) in
         rounded_towards_zero ←
           ok_or (checked 64 (Z.shiftr x shift)) (FatalError "Unable to convert rounded U256");
         Ok (if round_bit =? 1 then
               if sticky_bit =? 0 then
                 if lsb =? 0 then rounded_towards_zero else wrap 64 (rounded_towards_zero + 1)
               else wrap 64 (rounded_towards_zero + 1)
             else rounded_towards_zero));
    let '(significant, exponent) :=
      if 0 <? Z.land significant (Z.shiftl 1 53) then (Z.shiftr significant 1, exponent + 1)
      else (significant, exponent) in
    Ok (Z.lor (wrap 64 (Z.shiftl exponent 52)) (Z.land significant (2 ^ 52 - 1))).

(** [BigUint] and [U256] are both [Z]; the conversion asserts the width. *)
Definition biguint_to_u256 {E} (value : Z) : result E Z :=
  if value <? 2 ^ 256 then Ok value else Panic.
Definition u256_to_biguint (value : Z) : Z := value.

(** [U256::from_be_slice] panics when the value does not fit. *)
Definition u256_from_be_slice {E} (b : Bytes) : result E Z :=
  if be_value b <? 2 ^ 256 then Ok (be_value b) else Panic.

(** Left-padded to, or the last, 32 bytes. *)
Definition bytes_to_u256 (b : Bytes) : Z := be_value (drop (length b - 32) b).

Definition map_slots_to_u256 (slots : gmap Bytes Bytes) : gmap Z Z :=
  foldl (fun m '(k, v) => <[bytes_to_u256 k := bytes_to_u256 v]> m) ∅ (map_to_list slots).

(** * cpmm/protocol.rs *)

Module ProtocolFee.
Record t := mk { numerator : Z; precision : Z }.
Definition new (numerator precision : Z) : t := mk numerator precision.
End ProtocolFee.

Module Price.
Record t := mk { numerator : Z; denominator : Z }.
End Price.

(** [InvalidSnapshotError::MissingAttribute] is the only error of the CPMM decoder. *)
Definition cpmm_try_from_with_header (attributes : gmap string Bytes) : result string (Z * Z) :=
  b0 ← ok_or (attributes !! "reserve0") "reserve0";
  reserve0 ← u256_from_be_slice b0;
  b1 ← ok_or (attributes !! "reserve1") "reserve1";
  reserve1 ← u256_from_be_slice b1;
  Ok (reserve0, reserve1).

Definition cpmm_get_amount_out (amount_in reserve_in reserve_out : Z) (fee : ProtocolFee.t) :
    result SimulationError Z :=
  if amount_in =? 0 then Err (InvalidInput "Amount in cannot be zero" None)
  else if (reserve_in =? 0) || (reserve_out =? 0) then Err (RecoverableError "No liquidity")
  else
    amount_in_with_fee ← safe_mul_u256 amount_in (ProtocolFee.numerator fee);
    numerator ← safe_mul_u256 amount_in_with_fee reserve_out;
    scaled ← safe_mul_u256 reserve_in (ProtocolFee.precision fee);
    denominator ← safe_add_u256 scaled amount_in_with_fee;
    safe_div_u256 numerator denominator.

(** [10000 - fee_bps] is [u32] arithmetic. *)
Definition cpmm_get_limits (sell_token buy_token : Bytes) (reserve0 reserve1 fee_bps : Z) :
    result SimulationError (Z * Z) :=
  if (reserve0 =? 0) || (reserve1 =? 0) then Ok (0, 0)
  else
    let zero_for_one := bytes_ltb sell_token buy_token in
    let '(reserve_in, reserve_out) :=
      if zero_for_one then (reserve0, reserve1) else (reserve1, reserve0) in
    amount_in ← mul_div reserve_in 2162 1000;
    let fee_multiplier := wrap 32 (10000 - fee_bps) in
    amount_in_with_fee ← safe_mul_u256 amount_in fee_multiplier;
    denominator ← safe_add_u256 reserve_in amount_in;
    amount_out ← mul_div reserve_out amount_in_with_fee denominator;
    Ok (u256_to_biguint amount_in, u256_to_biguint amount_out).

(** Both reserves are read before either is written. *)
Definition cpmm_delta_transition (updated_attributes : gmap string Bytes) :
    stm (Z * Z) TransitionError unit := fun reserves =>
  match b0 ← ok_or (updated_attributes !! "reserve0") (MissingAttribute "reserve0");
        reserve0 ← u256_from_be_slice b0;
        b1 ← ok_or (updated_attributes !! "reserve1") (MissingAttribute "reserve1");
        reserve1 ← u256_from_be_slice b1;
        Ok (reserve0, reserve1) with
  | Ok reserves' => (Ok tt, reserves')
  | Err e => (Err e, reserves)
  | Panic => (Panic, reserves)
  end.

(** [checked_mul(..).and_then(checked_mul(..))]. *)
Definition checked_mul3_u512 (a b c : Z) : option Z :=
  match checked 512 (a * b) with Some x => checked 512 (x * c) | None => None end.

Definition cpmm_swap_to_price (reserve_in reserve_out : Z) (target_price : Price.t)
    (fee : ProtocolFee.t) : result SimulationError (Z * Z) :=
  if (reserve_in =? 0) || (reserve_out =? 0) then Err (FatalError "Reserves cannot be zero")
  else
    swap_price_num ← biguint_to_u256 (Price.denominator target_price);
    swap_price_den ← biguint_to_u256 (Price.numerator target_price);
    target_price_cross_mult ←
      ok_or (checked_mul3_u512 swap_price_num reserve_out (ProtocolFee.numerator fee))
        (FatalError "Overflow in price check");
    current_price_cross_mult ←
      ok_or (checked_mul3_u512 swap_price_den reserve_in (ProtocolFee.precision fee))
        (FatalError "Overflow in price check");
    if target_price_cross_mult <? current_price_cross_mult
    then Err (InvalidInput "Target price is unreachable (already below current spot price)" None)
    else
      let k := wrap 512 (reserve_in * reserve_out) in
      k_times_price ←
        div_op (wrap 512 (wrap 512 (k * swap_price_num) * ProtocolFee.numerator fee))
               (wrap 512 (swap_price_den * ProtocolFee.precision fee));
      x_prime_u512 ← unwrap (sqrt_u512 k_times_price);
      let x_prime := wrap 256 x_prime_u512 in
      if x_prime <=? reserve_in then Ok (0, 0)
      else
        amount_in ← safe_sub_u256 x_prime reserve_in;
        if amount_in =? 0 then Ok (0, 0)
        else
          implied_amount_out ← mul_div amount_in swap_price_den swap_price_num;
          Ok (u256_to_biguint amount_in, u256_to_biguint implied_amount_out).

(** * Pool states *)

(** [GetAmountOutResult] and [PoolSwap], with the state at its own type. *)
Module GetAmountOutResult.
Record t (S : Type) := mk { amount : Z; gas : Z; new_state : S }.
Arguments mk {S}. Arguments amount {S}. Arguments gas {S}. Arguments new_state {S}.
End GetAmountOutResult.

Module PoolSwap.
Record t (S : Type) := mk { amount_in : Z; amount_out : Z; new_state : S }.
Arguments mk {S}. Arguments amount_in {S}. Arguments amount_out {S}. Arguments new_state {S}.
End PoolSwap.

Inductive SwapConstraint :=
| PoolTargetPrice (target : Price.t)
| TradeLimitPrice.

(** [query_pool_swap] of the constant-product states: [swap_to_price] and then the swap. *)
Definition query_target {S} (self : S) (unsupported : string) (constraint : SwapConstraint)
    (swap_to_price : Price.t → result SimulationError (Z * Z))
    (get_amount_out : Z → result SimulationError (GetAmountOutResult.t S)) :
    result SimulationError (PoolSwap.t S) :=
  match constraint with
  | PoolTargetPrice price =>
      '(amount_in, _) ← swap_to_price price;
      if amount_in =? 0 then Ok (PoolSwap.mk 0 0 self)
      else
        res ← get_amount_out amount_in;
        Ok (PoolSwap.mk amount_in (GetAmountOutResult.amount res) (GetAmountOutResult.new_state res))
  | TradeLimitPrice => Err (InvalidInput unsupported None)
  end.

Definition SWAP_BASE_GAS : Z := 90000.

(** Uniswap v2 and its forks keep two reserves; they differ in the fee. *)
Module V2State.
Record t := mk { reserve0 : Z; reserve1 : Z }.
#[global] Instance eq_dec : EqDecision t.
Proof. solve_decision. Defined.

Definition new (reserve0 reserve1 : Z) : t := mk reserve0 reserve1.

Definition reserves (zero2one : bool) (self : t) : Z * Z :=
  if zero2one then (reserve0 self, reserve1 self) else (reserve1 self, reserve0 self).

Definition get_amount_out (fee : ProtocolFee.t) (amount_in : Z) (token_in token_out : Token.t) (self : t) :
    result SimulationError (GetAmountOutResult.t t) :=
  amount_in ← biguint_to_u256 amount_in;
  let zero2one := bytes_ltb (Token.address token_in) (Token.address token_out) in
  let '(reserve_in, reserve_out) := reserves zero2one self in
  amount_out ← cpmm_get_amount_out amount_in reserve_in reserve_out fee;
  new_state ←
    (if zero2one then
       r0 ← safe_add_u256 (reserve0 self) amount_in;
       r1 ← safe_sub_u256 (reserve1 self) amount_out;
       Ok (mk r0 r1)
     else
       r0 ← safe_sub_u256 (reserve0 self) amount_out;
       r1 ← safe_add_u256 (reserve1 self) amount_in;
       Ok (mk r0 r1));
  Ok (GetAmountOutResult.mk (u256_to_biguint amount_out) SWAP_BASE_GAS new_state).

Definition delta_transition (updated_attributes : gmap string Bytes) : stm t TransitionError unit :=
  fun self =>
  let '(r, (reserve0, reserve1)) := cpmm_delta_transition updated_attributes (reserve0 self, reserve1 self) in
  (r, mk reserve0 reserve1).

Definition query_pool_swap (fee : ProtocolFee.t) (unsupported : string) (token_in token_out : Token.t)
    (constraint : SwapConstraint) (self : t) : result SimulationError (PoolSwap.t t) :=
  let zero2one := bytes_ltb (Token.address token_in) (Token.address token_out) in
  let '(reserve_in, reserve_out) := reserves zero2one self in
  query_target self unsupported constraint
    (fun price => cpmm_swap_to_price reserve_in reserve_out price fee)
    (fun amount_in => get_amount_out fee amount_in token_in token_out self).
End V2State.

Module UniswapV2State.
Definition FEE_BPS : Z := 30.
Definition FEE : ProtocolFee.t := ProtocolFee.new 9970 10000.
Definition get_amount_out := V2State.get_amount_out FEE.
Definition get_limits (sell_token buy_token : Bytes) (self : V2State.t) : result SimulationError (Z * Z) :=
  cpmm_get_limits sell_token buy_token (V2State.reserve0 self) (V2State.reserve1 self) FEE_BPS.
Definition delta_transition := V2State.delta_transition.
Definition query_pool_swap := V2State.query_pool_swap FEE
  "UniswapV2State does not support TradeLimitPrice constraint in query_pool_swap".
End UniswapV2State.

Module PancakeswapV2State.
Definition FEE_BPS : Z := 25.
Definition FEE : ProtocolFee.t := ProtocolFee.new 9975 10000.
Definition get_amount_out := V2State.get_amount_out FEE.
Definition get_limits (sell_token buy_token : Bytes) (self : V2State.t) : result SimulationError (Z * Z) :=
  cpmm_get_limits sell_token buy_token (V2State.reserve0 self) (V2State.reserve1 self) FEE_BPS.
Definition delta_transition := V2State.delta_transition.
Definition query_pool_swap := V2State.query_pool_swap FEE
  "PancakeSwapV2State does not support TradeLimitPrice constraint in query_pool_swap".
End PancakeswapV2State.
