(* ===== verification/CpmmSpec.v ===== *)
(** What the constant-product pools guarantee.

    A swap pays the exact rounded-down constant-product amount, never the whole reserve, and
    never lowers the product of the reserves; a swap to a target price stops at or before
    that price. *)

From Stdlib Require Import Strings.Byte.
From S2P Require Import Prelude Collections Bytes Models SafeMath SafeMathSpec Cpmm.

Open Scope Z_scope.

(** * Conversions *)

Lemma biguint_ok {E} v r : biguint_to_u256 (E := E) v = Ok r -> v = r /\ v < 2 ^ 256.
Proof. unfold biguint_to_u256. destruct (Z.ltb_spec v (2 ^ 256)); [|done]. intros [= <-]. done. Qed.

(** * The amount out *)

(** The exact formula. *)
Lemma cpmm_out_formula a rin rout fee out :
  cpmm_get_amount_out a rin rout fee = Ok out ->
  a <> 0 /\ rin <> 0 /\ rout <> 0 /\
  out = a * ProtocolFee.numerator fee * rout / (rin * ProtocolFee.precision fee + a * ProtocolFee.numerator fee).
Proof.
  unfold cpmm_get_amount_out. destruct (Z.eqb_spec a 0); [done|].
  destruct (Z.eqb_spec rin 0), (Z.eqb_spec rout 0); try done; cbn [orb].
  intros Hc. inv_ok. inv_safe. subst. done.
Qed.

(** A fee that is a proper fraction. *)
Definition fee_ok (fee : ProtocolFee.t) : Prop :=
  0 < ProtocolFee.numerator fee <= ProtocolFee.precision fee.

Lemma cpmm_out_bounds a rin rout fee out :
  cpmm_get_amount_out a rin rout fee = Ok out -> 0 <= a -> 0 <= rin -> 0 <= rout -> fee_ok fee ->
  let n := ProtocolFee.numerator fee in let p := ProtocolFee.precision fee in
  0 <= out < rout /\
  rin * p * rout <= (rin * p + a * n) * (rout - out) /\
  (rin * p + a * n) * (rout - (out + 1)) < rin * p * rout.
Proof.
  intros (Ha & Hi & Ho & ->)%cpmm_out_formula Ha0 Hi0 Ho0 [Hn Hp]. cbv zeta.
  set (n := ProtocolFee.numerator fee) in *. set (p := ProtocolFee.precision fee) in *.
  assert (0 < rin * p + a * n) by nia.
  pose proof (Z.div_mod (a * n * rout) (rin * p + a * n) ltac:(lia)) as Hdm.
  pose proof (Z.mod_pos_bound (a * n * rout) (rin * p + a * n) ltac:(lia)) as Hm.
  set (q := a * n * rout / (rin * p + a * n)) in *.
  assert (0 <= q) by (apply Z.div_pos; nia).
  assert (0 < rin * p) by nia. assert (0 < rin * p * rout) by nia.
  assert (q < rout) by (apply Z.div_lt_upper_bound; lia).
  split_and!; lia.
Qed.

(** ** The product never falls *)

Lemma cpmm_product a rin rout fee out :
  cpmm_get_amount_out a rin rout fee = Ok out -> 0 <= a -> 0 <= rin -> 0 <= rout -> fee_ok fee ->
  rin * rout <= (rin + a) * (rout - out).
Proof.
  intros Hc Ha Hi Ho Hf. pose proof (cpmm_out_bounds _ _ _ _ _ Hc Ha Hi Ho Hf) as (Hb & Hk & _).
  destruct Hf as [Hn Hp]. set (n := ProtocolFee.numerator fee) in *. set (p := ProtocolFee.precision fee) in *.
  assert (a * n <= a * p) by nia.
  assert ((rin * p + a * n) * (rout - out) <= (rin + a) * p * (rout - out)) by nia. nia.
Qed.

Lemma v2_get_amount_out_inv fee a tin tout self res :
  V2State.get_amount_out fee a tin tout self = Ok res ->
  let z := bytes_ltb (Token.address tin) (Token.address tout) in
  cpmm_get_amount_out a (V2State.reserves z self).1 (V2State.reserves z self).2 fee =
    Ok (GetAmountOutResult.amount res) /\
  V2State.reserves z (GetAmountOutResult.new_state res) =
    ((V2State.reserves z self).1 + a, (V2State.reserves z self).2 - GetAmountOutResult.amount res).
Proof.
  intros Hg z. unfold V2State.get_amount_out in Hg. fold z in Hg. inv_ok.
  apply biguint_ok in E as [<- Hlt]. destruct z; simpl in *; inv_ok; inv_safe; subst; simpl; done.
Qed.

(** ** Monotonicity *)

Lemma cpmm_out_monotone a a' rin rout fee out out' :
  cpmm_get_amount_out a rin rout fee = Ok out -> cpmm_get_amount_out a' rin rout fee = Ok out' ->
  0 <= a <= a' -> 0 <= rin -> 0 <= rout -> fee_ok fee -> out <= out'.
Proof.
  intros Hc Hc' Ha Hi Ho Hf.
  pose proof (cpmm_out_bounds _ _ _ _ _ Hc ltac:(lia) Hi Ho Hf) as (Hb & Hk & _).
  pose proof (cpmm_out_bounds _ _ _ _ _ Hc' ltac:(lia) Hi Ho Hf) as (Hb' & _ & Hm).
  destruct Hf as [Hn Hp]. set (n := ProtocolFee.numerator fee) in *. set (p := ProtocolFee.precision fee) in *.
  destruct (Z.le_gt_cases out out') as [|Hgt]; [done|]. exfalso.
  assert ((rin * p + a * n) * (rout - out) <= (rin * p + a' * n) * (rout - (out' + 1))) as Hle; [|lia].
  apply Z.mul_le_mono_nonneg; nia.
Qed.

(** * Swapping to a price *)

Lemma checked_mul3_ok a b c :
  0 <= a -> 0 <= b -> 0 < c -> a * b * c < 2 ^ 512 -> checked_mul3_u512 a b c = Some (a * b * c).
Proof.
  intros Ha Hb Hc Hlt. unfold checked_mul3_u512.
  assert (checked 512 (a * b) = Some (a * b)) as ->.
  { apply checked_Some. split; [done|]. unfold in_range. nia. }
  apply checked_Some. split; [done|]. unfold in_range. nia.
Qed.

Lemma sqrt_div_floor A B :
  0 <= A -> 0 < B ->
  let x := Z.sqrt (A / B) in x * x * B <= A /\ A < (x + 1) * (x + 1) * B.
Proof.
  intros HA HB x. assert (0 <= A / B) as Hq by (apply Z.div_pos; lia).
  pose proof (Z.sqrt_spec (A / B) Hq) as Hs. fold x in Hs. simpl in Hs. unfold Z.succ in Hs.
  pose proof (Z.div_mod A B ltac:(lia)). pose proof (Z.mod_pos_bound A B HB).
  set (q := A / B) in *. nia.
Qed.

Lemma sqrt_div_ge A B r : 0 < B -> 0 <= r -> r * r * B <= A -> r <= Z.sqrt (A / B).
Proof.
  intros HB Hr Hle. apply Z.sqrt_le_square; [apply Z.div_pos; nia|done|].
  apply Z.div_le_lower_bound; lia.
Qed.

Section swap_to_price.
Context (rin rout : Z) (price : Price.t) (fee : ProtocolFee.t).
Let pn := Price.denominator price.
Let pd := Price.numerator price.
Let fn := ProtocolFee.numerator fee.
Let fp := ProtocolFee.precision fee.
Let A := rin * rout * pn * fn.
Let B := pd * fp.

(** Pool reserves are at most 112 bits wide, as on chain. *)
Context (Hrin : 0 < rin < 2 ^ 112) (Hrout : 0 < rout < 2 ^ 112).
Context (Hpn : 0 < pn < 2 ^ 256) (Hpd : 0 < pd < 2 ^ 256) (Hfee : fee_ok fee) (Hfp : fp < 2 ^ 16).

Lemma cross_products : pn * rout * fn < 2 ^ 400 /\ pd * rin * fp < 2 ^ 400 /\ 0 < A < 2 ^ 500 /\ 0 < B < 2 ^ 400.
Proof using Hrin Hrout Hpn Hpd Hfee Hfp.
  destruct Hfee as [H1 H2]. fold fn fp in H1, H2. unfold A, B.
  pose proof (mul_bound pn rout (2 ^ 256) (2 ^ 112) ltac:(lia) ltac:(lia)).
  pose proof (mul_bound pd rin (2 ^ 256) (2 ^ 112) ltac:(lia) ltac:(lia)).
  pose proof (mul_bound (pn * rout) fn (2 ^ 256 * 2 ^ 112) (2 ^ 16) ltac:(lia) ltac:(lia)).
  pose proof (mul_bound (pd * rin) fp (2 ^ 256 * 2 ^ 112) (2 ^ 16) ltac:(lia) ltac:(lia)).
  pose proof (mul_bound rin rout (2 ^ 112) (2 ^ 112) ltac:(lia) ltac:(lia)).
  pose proof (mul_bound (rin * rout) pn (2 ^ 112 * 2 ^ 112) (2 ^ 256) ltac:(lia) ltac:(lia)).
  pose proof (mul_bound (rin * rout * pn) fn (2 ^ 112 * 2 ^ 112 * 2 ^ 256) (2 ^ 16) ltac:(lia) ltac:(lia)).
  pose proof (mul_bound pd fp (2 ^ 256) (2 ^ 16) ltac:(lia) ltac:(lia)).
  assert (0 < rin * rout) by nia. assert (0 < rin * rout * pn) by nia.
  assert (0 < rin * rout * pn * fn) by nia. assert (0 < pd * fp) by nia.
  split_and!; lia.
Qed.

(** What the function returns: an error exactly for an unreachable price, and otherwise the
    distance to the floor of [sqrt (k * price)]. *)
Lemma swap_to_price_result :
  cpmm_swap_to_price rin rout price fee =
  if pn * rout * fn <? pd * rin * fp
  then Err (InvalidInput "Target price is unreachable (already below current spot price)" None)
  else let a := Z.sqrt (A / B) - rin in
       if a =? 0 then Ok (0, 0) else Ok (a, a * pd / pn).
Proof using Hrin Hrout Hpn Hpd Hfee Hfp.
  pose proof cross_products as (H1 & H2 & HA & HB). destruct Hfee as [Hf1 Hf2]. fold fn fp in Hf1, Hf2.
  unfold cpmm_swap_to_price. fold pn pd fn fp.
  replace (rin =? 0) with false by lia. replace (rout =? 0) with false by lia. cbn [orb].
  unfold biguint_to_u256. replace (pn <? 2 ^ 256) with true by lia. replace (pd <? 2 ^ 256) with true by lia.
  cbn [mbind result_bind]. rewrite !checked_mul3_ok by lia. cbn [ok_or mbind result_bind].
  destruct (Z.ltb_spec (pn * rout * fn) (pd * rin * fp)) as [|Hreach]; [done|].
  assert (0 < rin * rout * pn) by nia.
  rewrite (wrap_small 512 (rin * rout)), (wrap_small 512 (rin * rout * pn)), (wrap_small 512 (_ * fn)),
    (wrap_small 512 (pd * fp)) by (unfold in_range, A, B in *; nia). fold A B.
  unfold div_op. replace (B =? 0) with false by lia. cbn [mbind result_bind].
  assert (0 <= A / B < 2 ^ 512) as Hq.
  { split; [apply Z.div_pos; lia|]. apply Z.le_lt_trans with A; [|lia]. apply Z.div_le_upper_bound; nia. }
  rewrite sqrt_u512_correct by done. cbn [unwrap mbind result_bind].
  pose proof (sqrt_div_ge A B rin ltac:(lia) ltac:(lia) ltac:(unfold A, B; nia)) as Hge.
  destruct (sqrt_div_floor A B ltac:(lia) ltac:(lia)) as [Hlo _]. set (x := Z.sqrt (A / B)) in *.
  assert (x < 2 ^ 256) as Hx.
  { apply Z.sqrt_lt_square; [lia|lia|]. change (2 ^ 256 * 2 ^ 256) with (2 ^ 512). lia. }
  rewrite wrap_small by (unfold in_range; lia).
  destruct (Z.leb_spec x rin) as [Hle|Hgt]; [by replace (x - rin =? 0) with true by lia|].
  replace (safe_sub_u256 x rin) with (@Ok SimulationError Z (x - rin))
    by (symmetry; apply safe_sub_ok; unfold in_range; lia).
  cbn [mbind result_bind]. replace (x - rin =? 0) with false by lia.
  rewrite mul_div_exact by (unfold in_range; lia).
  assert ((x - rin) * pd / pn < 2 ^ 256) as Hout; [|by replace (_ <? 2 ^ 256) with true by lia].
  apply Z.div_lt_upper_bound; [lia|]. assert (x * pd * fp <= rout * pn * fn) by (unfold A, B in Hlo; nia).
  assert (x * pd <= rout * pn) by nia. nia.
Qed.
End swap_to_price.

(** * Conversion to [f64] *)

(** A normal float is [significand w * 2 ^ (exponent w - 1075)]. *)
Definition f64_exponent (w : Z) : Z := w / 2 ^ 52.
Definition f64_significand (w : Z) : Z := 2 ^ 52 + w mod 2 ^ 52.
(** Its value, times [2 ^ 1075]. *)
Definition f64_scaled (w : Z) : Z := f64_significand w * 2 ^ f64_exponent w.

Lemma f64_pack e s :
  0 <= e < 2048 -> 2 ^ 52 <= s < 2 ^ 53 ->
  f64_scaled (Z.lor (wrap 64 (Z.shiftl e 52)) (Z.land s (2 ^ 52 - 1))) = s * 2 ^ e.
Proof.
  intros He Hs. rewrite land_mask by lia. rewrite Z.shiftl_mul_pow2 by lia.
  rewrite wrap_small by (unfold in_range; lia).
  assert (s mod 2 ^ 52 = s - 2 ^ 52) as Hm by (symmetry; apply Z.mod_unique with 1; lia).
  rewrite lor_shiftl by lia. unfold f64_scaled, f64_significand, f64_exponent. rewrite Hm.
  replace ((e * 2 ^ 52 + (s - 2 ^ 52)) / 2 ^ 52) with e by (apply Z.div_unique with (s - 2 ^ 52); lia).
  replace ((e * 2 ^ 52 + (s - 2 ^ 52)) mod 2 ^ 52) with (s - 2 ^ 52)
    by (apply Z.mod_unique with e; lia). f_equal. lia.
Qed.

Lemma bit53_clear s : 0 <= s < 2 ^ 53 -> (0 <? Z.land s (Z.shiftl 1 53)) = false.
Proof.
  intros Hs. replace (Z.land s (Z.shiftl 1 53)) with 0; [done|]. symmetry. apply Z.bits_inj'. intros i Hi.
  rewrite Z.land_spec, Z.bits_0, Z.shiftl_mul_pow2, Z.mul_1_l, Z.pow2_bits_eqb by lia.
  destruct (Z.eqb_spec 53 i) as [<-|]; [|by rewrite andb_false_r]. rewrite andb_true_r.
  rewrite <-(Z.mod_small s (2 ^ 53)) by lia. by apply Z.mod_pow2_bits_high.
Qed.

(** The last step of the conversion: a significand of 54 bits is shifted once more. *)
Lemma f64_normalize e s :
  0 <= e < 2047 -> 2 ^ 52 <= s <= 2 ^ 53 ->
  (let '(s', e') := if 0 <? Z.land s (Z.shiftl 1 53) then (Z.shiftr s 1, e + 1) else (s, e) in
   f64_scaled (Z.lor (wrap 64 (Z.shiftl e' 52)) (Z.land s' (2 ^ 52 - 1)))) = s * 2 ^ e.
Proof.
  intros He Hs. destruct (Z.eq_dec s (2 ^ 53)) as [->|Hne].
  - change (0 <? Z.land (2 ^ 53) (Z.shiftl 1 53)) with true. cbv iota.
    change (Z.shiftr (2 ^ 53) 1) with (2 ^ 52). rewrite f64_pack by lia.
    rewrite Z.pow_add_r by lia. change (2 ^ 53) with (2 ^ 52 * 2). ring.
  - rewrite bit53_clear by lia. apply f64_pack; lia.
Qed.

(** The rounding: the significand is one of the two neighbours, and the upper one only when
    at least half of a unit was cut off. *)
Lemma f64_round_neighbour x sh :
  0 < sh -> 0 < x ->
  let rz := x / 2 ^ sh in
  let round_bit := Z.land (Z.shiftr x (sh - 1)) 1 in
  0 <= x - rz * 2 ^ sh < 2 ^ sh /\ (round_bit = 1 -> 0 < x - rz * 2 ^ sh).
Proof.
  intros Hsh Hx rz round_bit. assert (0 < 2 ^ sh) as Hp by lia.
  pose proof (Z.div_mod x (2 ^ sh) ltac:(lia)) as Hdm. pose proof (Z.mod_pos_bound x (2 ^ sh) Hp) as Hm.
  fold rz in Hdm. split; [lia|]. intros Hr.
  destruct (Z.eq_dec (x - rz * 2 ^ sh) 0) as [E|]; [|lia]. exfalso.
  assert (round_bit = 0) as H0; [|lia]. unfold round_bit.
  assert (0 < 2 ^ (sh - 1)) by lia.
  assert (2 ^ sh = 2 * 2 ^ (sh - 1)) as E2 by (rewrite <-Z.pow_succ_r by lia; f_equal; lia).
  rewrite Z.shiftr_div_pow2 by lia. replace x with (rz * 2 * 2 ^ (sh - 1)) by lia.
  rewrite Z.div_mul by lia. change (Z.land (rz * 2) 1) with (Z.land (rz * 2) (2 ^ 1 - 1)).
  rewrite land_mask by lia. by apply Z.mod_mul.
Qed.

Lemma f64_error x :
  0 < x < 2 ^ 256 ->
  ∃ w, u256_to_f64_bits x = Ok w /\
  if bit_length x <=? 53 then f64_scaled w = x * 2 ^ 1075
  else Z.abs (f64_scaled w - x * 2 ^ 1075) < 2 ^ (bit_length x - 53) * 2 ^ 1075.
Proof.
  intros Hx. destruct (bit_length_bounds x ltac:(lia)) as [Hlen Hpos].
  assert (bit_length x <= 256) as Hmax.
  { unfold bit_length. replace (x =? 0) with false by lia.
    pose proof (proj1 (Z.log2_lt_pow2 x 256 ltac:(lia)) ltac:(lia)). lia. }
  unfold u256_to_f64_bits. replace (x =? 0) with false by lia. set (L := bit_length x) in *.
  destruct (Z.leb_spec L 53) as [HL|HL].
  - replace (0 <=? 53 - L) with true by lia.
    assert (2 ^ (L - 1) * 2 ^ (53 - L) = 2 ^ 52) as E1 by (rewrite <-Z.pow_add_r by lia; f_equal; lia).
    assert (2 ^ L * 2 ^ (53 - L) = 2 ^ 53) as E2 by (rewrite <-Z.pow_add_r by lia; f_equal; lia).
    assert (2 ^ 52 <= x * 2 ^ (53 - L) < 2 ^ 53) as Hs by nia.
    rewrite (Z.shiftl_mul_pow2 x) by lia. rewrite (wrap_small 256 (x * _)) by (unfold in_range; lia).
    unfold checked. rewrite (proj2 (fits_spec 64 _)) by (unfold in_range; lia). cbn [ok_or mbind result_bind].
    rewrite bit53_clear by lia. eexists. split; [reflexivity|]. rewrite f64_pack by lia.
    rewrite <-Z.mul_assoc, <-Z.pow_add_r by lia. do 2 f_equal. lia.
  - replace (0 <=? 53 - L) with false by lia. replace (- (53 - L)) with (L - 53) by lia.
    destruct (f64_round_neighbour x (L - 53) ltac:(lia) ltac:(lia)) as [Hnb Hup].
    rewrite (Z.shiftr_div_pow2 x (L - 53)) by lia. set (sh := L - 53) in *. set (rz := x / 2 ^ sh) in *.
    set (round_bit := Z.land (Z.shiftr x (sh - 1)) 1) in *.
    assert (2 ^ 52 * 2 ^ sh = 2 ^ (L - 1)) as E1 by (rewrite <-Z.pow_add_r by lia; f_equal; lia).
    assert (2 ^ 53 * 2 ^ sh = 2 ^ L) as E2 by (rewrite <-Z.pow_add_r by lia; f_equal; lia).
    assert (0 < 2 ^ sh) as Hp by lia. assert (2 ^ 52 <= rz < 2 ^ 53) as Hrz by nia.
    unfold checked. rewrite (proj2 (fits_spec 64 rz)) by (unfold in_range; lia). cbn [ok_or mbind result_bind].
    rewrite (wrap_small 64 (rz + 1)) by (unfold in_range; lia).
    match goal with |- context [0 <? Z.land ?s (Z.shiftl 1 53)] => set (sig := s) end.
    assert (sig = rz \/ sig = rz + 1 /\ round_bit = 1) as Hsig.
    { unfold sig. destruct (Z.eqb_spec round_bit 1); [|by left]. repeat case_if; auto. }
    assert (2 ^ 52 <= sig <= 2 ^ 53) as Hs by lia.
    pose proof (f64_normalize (1023 + 52 - (53 - L)) sig ltac:(lia) Hs) as Hn.
    destruct (if 0 <? Z.land sig (Z.shiftl 1 53) then _ else _) as [s' e'].
    eexists. split; [reflexivity|]. rewrite Hn.
    replace (2 ^ (1023 + 52 - (53 - L))) with (2 ^ sh * 2 ^ 1075) by (rewrite <-Z.pow_add_r by lia; f_equal; lia).
    replace (sig * (2 ^ sh * 2 ^ 1075) - x * 2 ^ 1075) with ((sig * 2 ^ sh - x) * 2 ^ 1075) by ring.
    rewrite Z.abs_mul, (Z.abs_eq (2 ^ 1075)) by lia. apply Z.mul_lt_mono_pos_r; [lia|].
    destruct Hsig as [->|[-> Hr]]; [lia|]. specialize (Hup Hr). lia.
Qed.

(** * The guarantees *)

(** C34. A simulated swap on a Uniswap-v2-style pool pays the largest whole amount the
    constant-product rule with fee allows, less than the whole output reserve; the input is
    added to one reserve and the output taken from the other, and the product of the
    reserves does not fall. *)
Theorem v2_swap_constant_product fee amount_in token_in token_out (self : V2State.t) res :
  V2State.get_amount_out fee amount_in token_in token_out self = Ok res ->
  0 <= amount_in -> 0 <= V2State.reserve0 self -> 0 <= V2State.reserve1 self -> fee_ok fee ->
  let z := bytes_ltb (Token.address token_in) (Token.address token_out) in
  let '(rin, rout) := V2State.reserves z self in
  let out := GetAmountOutResult.amount res in
  let n := ProtocolFee.numerator fee in
  let p := ProtocolFee.precision fee in
  0 <= out < rout /\
  rin * p * rout <= (rin * p + amount_in * n) * (rout - out) /\
  (rin * p + amount_in * n) * (rout - (out + 1)) < rin * p * rout /\
  V2State.reserves z (GetAmountOutResult.new_state res) = (rin + amount_in, rout - out) /\
  rin * rout <= (rin + amount_in) * (rout - out).
Proof.
  intros (Hc & Hs)%v2_get_amount_out_inv Ha H0 H1 Hf z. fold z in Hc, Hs.
  destruct (V2State.reserves z self) as [rin rout] eqn:Er. simpl in Hc, Hs.
  assert (0 <= rin /\ 0 <= rout) as [Hi Ho] by (unfold V2State.reserves in Er; destruct z; injection Er as <- <-; lia).
  destruct (cpmm_out_bounds _ _ _ _ _ Hc Ha Hi Ho Hf) as (Hb & Hk & Hm).
  split_and!; [lia|lia|done|done|done|]. by apply (cpmm_product _ _ _ _ _ Hc).
Qed.

(** More input never pays less output. *)
Theorem cpmm_amount_out_monotone a a' rin rout fee out out' :
  cpmm_get_amount_out a rin rout fee = Ok out -> cpmm_get_amount_out a' rin rout fee = Ok out' ->
  0 <= a <= a' -> 0 <= rin -> 0 <= rout -> fee_ok fee -> out <= out'.
Proof. apply cpmm_out_monotone. Qed.

(** On pools with 112-bit reserves, swapping to a target price fails exactly when the
    pool is already past it, and otherwise returns the largest input after which the square
    of the input reserve does not exceed the invariant times the target price with fee: one
    unit more would overshoot. *)
Theorem swap_to_price_stops_at_target rin rout (price : Price.t) fee :
  let pn := Price.denominator price in let pd := Price.numerator price in
  let fn := ProtocolFee.numerator fee in let fp := ProtocolFee.precision fee in
  0 < rin < 2 ^ 112 -> 0 < rout < 2 ^ 112 -> 0 < pn < 2 ^ 256 -> 0 < pd < 2 ^ 256 -> fee_ok fee ->
  fp < 2 ^ 16 ->
  if pn * rout * fn <? pd * rin * fp
  then cpmm_swap_to_price rin rout price fee =
         Err (InvalidInput "Target price is unreachable (already below current spot price)" None)
  else ∃ a out, cpmm_swap_to_price rin rout price fee = Ok (a, out) /\ 0 <= a /\
         out = a * pd / pn /\
         (rin + a) * (rin + a) * (pd * fp) <= rin * rout * pn * fn /\
         rin * rout * pn * fn < (rin + a + 1) * (rin + a + 1) * (pd * fp).
Proof.
  intros pn pd fn fp Hrin Hrout Hpn Hpd Hf Hfp.
  pose proof (cross_products rin rout price fee Hrin Hrout Hpn Hpd Hf Hfp) as (_ & _ & HA & HB).
  rewrite (swap_to_price_result rin rout price fee Hrin Hrout Hpn Hpd Hf Hfp). fold pn pd fn fp in HA, HB |- *.
  destruct (Z.ltb_spec (pn * rout * fn) (pd * rin * fp)) as [|Hreach]; [done|]. cbv zeta.
  destruct (sqrt_div_floor (rin * rout * pn * fn) (pd * fp) ltac:(lia) ltac:(lia)) as [Hlo Hhi].
  pose proof (sqrt_div_ge (rin * rout * pn * fn) (pd * fp) rin ltac:(lia) ltac:(lia) ltac:(nia)) as Hge.
  set (x := Z.sqrt _) in *.
  assert (∃ a out, (if x - rin =? 0 then Ok (0, 0) else Ok (x - rin, (x - rin) * pd / pn)) =
    @Ok SimulationError _ (a, out) /\ a = x - rin /\ out = a * pd / pn) as (a & out & E & -> & Ho).
  { destruct (Z.eqb_spec (x - rin) 0) as [E0|]; [|eauto]. exists 0, 0. by rewrite E0. }
  exists (x - rin), out. replace (rin + (x - rin)) with x by lia. split_and!; try done. lia.
Qed.

(** The output limit reported for a constant-product pool always exceeds the whole output
    reserve, which no swap can pay: the amount with fee is not divided by the fee precision,
    which the comment above it prescribes. *)
Theorem cpmm_limits_exceed_reserve sell buy r0 r1 fee_bps amount_in amount_out :
  in_range 256 r0 -> in_range 256 r1 -> 0 < r0 -> 0 < r1 -> 0 <= fee_bps <= 5000 ->
  cpmm_get_limits sell buy r0 r1 fee_bps = Ok (amount_in, amount_out) ->
  (if bytes_ltb sell buy then r1 else r0) < amount_out.
Proof.
  intros H0 H1 Hp0 Hp1 Hf. unfold cpmm_get_limits.
  replace (r0 =? 0) with false by lia. replace (r1 =? 0) with false by lia. cbn [orb].
  assert (∀ rin rout : Z, in_range 256 rin -> in_range 256 rout -> 0 < rin -> 0 < rout ->
    (amount_in ← mul_div rin 2162 1000;
     amount_in_with_fee ← safe_mul_u256 amount_in (wrap 32 (10000 - fee_bps));
     denominator ← safe_add_u256 rin amount_in;
     amount_out ← mul_div rout amount_in_with_fee denominator;
     Ok (u256_to_biguint amount_in, u256_to_biguint amount_out)) = Ok (amount_in, amount_out) ->
    rout < amount_out) as Hgen; [|by destruct (bytes_ltb sell buy); apply Hgen].
  intros rin rout Hri Hro Hpi Hpo (a & Ea & (b & Eb & (d & Ed & (o & Eo & [= _ <-])%bind_ok)%bind_ok)%bind_ok)%bind_ok.
  rewrite mul_div_exact in Ea by (done || unfold in_range; lia).
  destruct (Z.ltb_spec (rin * 2162 / 1000) (2 ^ 256)); [|done]. injection Ea as <-.
  pose proof (Z.div_mod (rin * 2162) 1000 ltac:(lia)). pose proof (Z.mod_pos_bound (rin * 2162) 1000 ltac:(lia)).
  set (a := rin * 2162 / 1000) in *. rewrite wrap_small in Eb by (unfold in_range; lia). inv_safe. subst b d.
  rewrite mul_div_exact in Eo by (done || lia).
  revert Eo. case_if; [|done]. intros [= <-]. unfold u256_to_biguint. apply Z.lt_le_trans with (rout * 2); [lia|].
  apply Z.div_le_lower_bound; [lia|]. assert (2 * rin <= a) by lia.
  assert (2 * (rin + a) <= a * (10000 - fee_bps)) by nia. nia.
Qed.

(** The conversion of a positive 256-bit integer to [f64] never fails, is exact up to 53
    bits, and beyond is off by less than one unit in the last place. *)
Theorem u256_to_f64_within_ulp x :
  0 < x < 2 ^ 256 ->
  ∃ w, u256_to_f64_bits x = Ok w /\
  if bit_length x <=? 53 then f64_scaled w = x * 2 ^ 1075
  else Z.abs (f64_scaled w - x * 2 ^ 1075) < 2 ^ (bit_length x - 53) * 2 ^ 1075.
Proof. apply f64_error. Qed.

(** The conversion does not always round to the nearest float, as its documentation says:
    the mask of the sticky bits misses the bit below the round bit, so that [2 ^ 54 + 3]
    becomes [2 ^ 54] although [2 ^ 54 + 4] is a float and closer. *)
Theorem u256_to_f64_not_nearest :
  ∃ w w', u256_to_f64_bits (2 ^ 54 + 3) = Ok w /\ u256_to_f64_bits (2 ^ 54 + 4) = Ok w' /\
  f64_scaled w = 2 ^ 54 * 2 ^ 1075 /\ f64_scaled w' = (2 ^ 54 + 4) * 2 ^ 1075 /\
  Z.abs (f64_scaled w' - (2 ^ 54 + 3) * 2 ^ 1075) < Z.abs (f64_scaled w - (2 ^ 54 + 3) * 2 ^ 1075).
Proof.
  eexists _, _. split; [vm_compute; reflexivity|]. split; [vm_compute; reflexivity|].
  split; [vm_compute; reflexivity|]. split; [vm_compute; reflexivity|]. vm_compute. reflexivity.
Qed.

(** ** Witnesses *)

Module CpmmExamples.
Definition tok (b : byte) : Token.t := Token.mk [b] "" 18 0 [] Ethereum 100.
Definition pool : V2State.t := V2State.new 1000000 2000000.
Definition out (r : result SimulationError (GetAmountOutResult.t V2State.t)) : option Z :=
  match r with Ok res => Some (GetAmountOutResult.amount res) | _ => None end.
End CpmmExamples.

Import CpmmExamples.

Lemma v2_swap_constant_product_witness : ∃ res,
  UniswapV2State.get_amount_out 1000 (tok x01) (tok x02) pool = Ok res /\
  GetAmountOutResult.amount res = 1992 /\
  1000000 * 2000000 <= (1000000 + 1000) * (2000000 - GetAmountOutResult.amount res).
Proof.
  eexists. split; [reflexivity|]. split; [reflexivity|].
  apply (v2_swap_constant_product UniswapV2State.FEE 1000 (tok x01) (tok x02) pool
    (GetAmountOutResult.mk 1992 90000 (V2State.mk 1001000 1998008)));
    [reflexivity|lia|simpl; lia|simpl; lia|split; simpl; lia].
Defined.

Lemma cpmm_amount_out_monotone_witness : 1992 <= 3980.
Proof.
  apply (cpmm_amount_out_monotone 1000 2000 1000000 2000000 UniswapV2State.FEE);
    [reflexivity|reflexivity|lia|lia|lia|split; simpl; lia].
Defined.

Lemma swap_to_price_stops_at_target_witness : ∃ a out,
  cpmm_swap_to_price 1000000 2000000 (Price.mk 1 1) UniswapV2State.FEE = Ok (a, out) /\ 0 <= a.
Proof.
  destruct (swap_to_price_stops_at_target 1000000 2000000 (Price.mk 1 1) UniswapV2State.FEE)
    as (a & o & H & Ha & _); [simpl; lia|simpl; lia|simpl; lia|simpl; lia|split; simpl; lia|simpl; lia|].
  exists a, o. split; [exact H|exact Ha].
Defined.

Lemma cpmm_limits_exceed_reserve_witness :
  ∃ i o, cpmm_get_limits [x01] [x02] 1000 100000 30 = Ok (i, o) /\ 100000 < o.
Proof.
  eexists _, _. split; [reflexivity|].
  apply (cpmm_limits_exceed_reserve [x01] [x02] 1000 100000 30 2162 681693232);
    [unfold in_range; lia|unfold in_range; lia|lia|lia|lia|reflexivity].
Defined.

Lemma u256_to_f64_within_ulp_witness : ∃ w, u256_to_f64_bits (2 ^ 200 + 1) = Ok w.
Proof. destruct (u256_to_f64_within_ulp (2 ^ 200 + 1) ltac:(lia)) as (w & H & _). exists w. exact H. Defined.
