(* ===== verification/TickMath.v ===== *)
(** Prices at ticks: [tycho_simulation::evm::protocol::utils::uniswap::tick_math].

    The square root price at a tick is a product of one factor per bit of the tick, each
    multiplication rounded down, inverted for positive ticks and rounded up to 96 fractional
    bits.  The price of a tick is a [U256], a tick an [i32]. *)

From S2P Require Import Prelude SafeMath.

Open Scope Z_scope.

(** [U256::from_limbs]. *)
Definition limbs (l0 l1 l2 l3 : Z) : Z := l0 + l1 * 2 ^ 64 + l2 * 2 ^ 128 + l3 * 2 ^ 192.

Definition MIN_TICK : Z := -887272.
Definition MAX_TICK : Z := 887272.
Definition MIN_SQRT_RATIO : Z := limbs 4295128739 0 0 0.
Definition MAX_SQRT_RATIO : Z := limbs 6743328256752651558 17280870778742802505 4294805859 0.

(** * From a tick to a price *)

(** The value of [ratio] when bit 0 is set, and the factors of the bits 1 to 19. *)
Definition RATIO_BIT_0 : Z := limbs 12262481743371124737 18445821805675392311 0 0.
Definition RATIO_FACTORS : list (Z * Z) := [
  (1, limbs 6459403834229662010 18444899583751176498 0 0);
  (2, limbs 17226890335427755468 18443055278223354162 0 0);
  (3, limbs 2032852871939366096 18439367220385604838 0 0);
  (4, limbs 14545316742740207172 18431993317065449817 0 0);
  (5, limbs 5129152022828963008 18417254355718160513 0 0);
  (6, limbs 4894419605888772193 18387811781193591352 0 0);
  (7, limbs 1280255884321894483 18329067761203520168 0 0);
  (8, limbs 15924666964335305636 18212142134806087854 0 0);
  (9, limbs 8010504389359918676 17980523815641551639 0 0);
  (10, limbs 10668036004952895731 17526086738831147013 0 0);
  (11, limbs 4878133418470705625 16651378430235024244 0 0);
  (12, limbs 9537173718739605541 15030750278693429944 0 0);
  (13, limbs 9972618978014552549 12247334978882834399 0 0);
  (14, limbs 10428997489610666743 8131365268884726200 0 0);
  (15, limbs 9305304367709015974 3584323654723342297 0 0);
  (16, limbs 14301143598189091785 696457651847595233 0 0);
  (17, limbs 7393154844743099908 26294789957452057 0 0);
  (18, limbs 2209338891292245656 37481735321082 0 0);
  (19, limbs 10518117631919034274 76158723 0 0)].

(** [if abs_tick.bit(i) { ratio = safe_mul_u256(ratio, factor)? >> 128 }] *)
Definition ratio_step (abs_tick ratio : Z) (p : Z * Z) : result SimulationError Z :=
  let '(i, factor) := p in
  if Z.testbit abs_tick i then
    product ← safe_mul_u256 ratio factor;
    Ok (Z.shiftr product 128)
  else Ok ratio.

Definition get_sqrt_ratio_at_tick (tick : Z) : result SimulationError Z :=
  if MAX_TICK <? swrap 32 (Z.abs tick) then
    Err (FatalError "Tick is outside valid range")
  else
    let abs_tick := Z.abs tick in
    let ratio := if Z.testbit abs_tick 0 then RATIO_BIT_0 else limbs 0 0 1 0 in
    ratio ← try_fold (ratio_step abs_tick) ratio RATIO_FACTORS;
    ratio ← (if 0 <? tick then safe_div_u256 (2 ^ 256 - 1) ratio else Ok ratio);
    '(_, rest) ← div_mod_u256 ratio (wrap 256 (Z.shiftl 1 32));
    Ok (wrap 256 (Z.shiftr ratio 32 + (if rest =? 0 then 0 else 1))).

(** * From a price to a tick *)

Definition most_significant_bit (x : Z) : result SimulationError Z :=
  if x =? 0 then Err (FatalError "most_significant_bit requires non-zero value")
  else Ok (bit_length x - 1).

(** One turn of the loop, on [(r, log_2)]. *)
Definition log_step (acc : Z * Z) (i : Z) : result SimulationError (Z * Z) :=
  let '(r, log_2) := acc in
  let r := Z.shiftr (wrap 256 (r * r)) 127 in
  let f := Z.shiftr r 128 in
  shift_value ← ok_or (let v := wrap 256 (Z.shiftl f (63 - i)) in if v <? 2 ^ 255 then Some v else None)
                  (FatalError "Failed to convert shifted value to I256");
  Ok (Z.shiftr r f, Z.lor log_2 shift_value).

Definition LOG_BITS : list Z := [0; 1; 2; 3; 4; 5; 6; 7; 8; 9; 10; 11; 12; 13].

Definition get_tick_at_sqrt_ratio (sqrt_price : Z) : result SimulationError Z :=
  if (sqrt_price <? MIN_SQRT_RATIO) || (MAX_SQRT_RATIO <=? sqrt_price) then
    Err (FatalError "sqrt_price is outside valid range")
  else
    let ratio_x128 := wrap 256 (Z.shiftl sqrt_price 32) in
    msb ← most_significant_bit ratio_x128;
    let log_2 := swrap 256 (Z.shiftl (msb - 128) 64) in
    let r := if 128 <=? msb then Z.shiftr ratio_x128 (msb - 127)
             else wrap 256 (Z.shiftl ratio_x128 (127 - msb)) in
    '(_, log_2) ← try_fold log_step (r, log_2) LOG_BITS;
    let log_sqrt10001 := swrap 256 (log_2 * limbs 11745905768312294533 13863 0 0) in
    let tick_low :=
      Z.shiftr (swrap 256 (log_sqrt10001 - limbs 6552757943157144234 184476617836266586 0 0)) 128 in
    let tick_high :=
      Z.shiftr (swrap 256 (log_sqrt10001 + limbs 4998474450511881007 15793544031827761793 0 0)) 128 in
    if tick_low =? tick_high then Ok (swrap 32 tick_low)
    else
      high_price ← get_sqrt_ratio_at_tick (swrap 32 tick_high);
      Ok (if high_price <=? sqrt_price then swrap 32 tick_high else swrap 32 tick_low).

Example ratio_min : get_sqrt_ratio_at_tick MIN_TICK = Ok MIN_SQRT_RATIO.
Proof. vm_compute. reflexivity. Qed.
Example ratio_max : get_sqrt_ratio_at_tick MAX_TICK = Ok MAX_SQRT_RATIO.
Proof. vm_compute. reflexivity. Qed.
Example tick_of_min : get_tick_at_sqrt_ratio MIN_SQRT_RATIO = Ok MIN_TICK.
Proof. vm_compute. reflexivity. Qed.
Example tick_below_max : get_tick_at_sqrt_ratio (MAX_SQRT_RATIO - 1) = Ok (MAX_TICK - 1).
Proof. vm_compute. reflexivity. Qed.
