(* ===== verification/TickMathSpec.v ===== *)
(** The price of a tick is strictly increasing in the tick.

    The product over the bits of a tick rounds down at every factor.  Going from a tick to
    the next one, the bits change from [0 1..1] to [1 0..0] and agree above: the two products
    differ by nearly the factor of one tick below the changed bits, which outweighs the
    rounding of the common factors above. *)

From S2P Require Import Prelude SafeMath TickMath.

Open Scope Z_scope.

(** * The product over the bits *)

(** The factors from bit 0 on, lowest bit first. *)
Definition factors : list Z := RATIO_BIT_0 :: RATIO_FACTORS.*2.

(** The product without overflow checks, by halving the tick. *)
Fixpoint ratio_of (cs : list Z) (m x : Z) : Z :=
  match cs with
  | [] => x
  | c :: cs' => ratio_of cs' (m / 2) (if Z.odd m then x * c / 2 ^ 128 else x)
  end.

Definition factor_ok (c : Z) : Prop := 0 < c < 2 ^ 128.

Lemma factors_ok : Forall factor_ok factors.
Proof. unfold factor_ok. repeat (apply Forall_cons; split; [vm_compute; split; reflexivity|]). constructor. Qed.

Lemma scale_range c x : factor_ok c -> 0 <= x <= 2 ^ 128 -> 0 <= x * c / 2 ^ 128 <= x.
Proof.
  intros Hc Hx. unfold factor_ok in Hc. split; [apply Z.div_pos; nia|].
  apply Z.div_le_upper_bound; nia.
Qed.

(** The first components count up from [i]. *)
Fixpoint indexed (i : Z) (ps : list (Z * Z)) : Prop :=
  match ps with [] => True | p :: ps' => p.1 = i /\ indexed (i + 1) ps' end.

(** The checked product of the source is this one. *)
Lemma ratio_fold ps i m x :
  indexed i ps -> Forall factor_ok ps.*2 -> 0 <= m -> 0 <= i -> 0 <= x <= 2 ^ 128 ->
  try_fold (ratio_step m) x ps = Ok (ratio_of ps.*2 (m / 2 ^ i) x).
Proof.
  intros Hps Hok Hm. revert i x Hps. induction ps as [|[j c] ps IH]; intros i x Hps Hi Hx; [done|].
  destruct Hps as [Hj Hps]. cbn in Hj. subst j. rewrite fmap_cons in *. apply Forall_cons in Hok as [Hc Hok]. cbn in Hc.
  cbn [try_fold ratio_of fst snd].
  replace (ratio_step m x (i, c)) with
    (if Z.testbit m i then p ← safe_mul_u256 x c; Ok (Z.shiftr p 128) else Ok x) by done.
  replace (m / 2 ^ i / 2) with (m / 2 ^ (i + 1))
    by (rewrite Z.div_div, Z.pow_add_r by lia; f_equal; lia).
  rewrite Z.testbit_odd, Z.shiftr_div_pow2 by lia. pose proof (scale_range c x Hc Hx) as Hr.
  destruct (Z.odd (m / 2 ^ i)); [|by apply IH; try lia].
  rewrite (proj2 (safe_mul_ok x c (x * c))); unfold factor_ok, in_range in *.
  - cbn. rewrite Z.shiftr_div_pow2 by lia. apply IH; [done|done|lia|]. lia.
  - split; [done|]. change (2 ^ 256) with (2 ^ 128 * 2 ^ 128). nia.
Qed.

(** The product is largest with no bit set and smallest with all of them. *)
Fixpoint ratio_all (cs : list Z) (x : Z) : Z :=
  match cs with [] => x | c :: cs' => ratio_all cs' (x * c / 2 ^ 128) end.

Lemma ratio_bounds cs m x y :
  Forall factor_ok cs -> 0 <= x <= y -> y <= 2 ^ 128 -> ratio_all cs x <= ratio_of cs m y <= y.
Proof.
  intros Hcs. revert m x y. induction Hcs as [|c cs Hc Hcs IH]; intros m x y Hx Hy; [cbn; lia|].
  cbn [ratio_of ratio_all]. pose proof (scale_range c x Hc ltac:(lia)).
  pose proof (scale_range c y Hc ltac:(lia)). unfold factor_ok in Hc.
  assert (x * c / 2 ^ 128 <= y * c / 2 ^ 128) by (apply Z.div_le_mono; nia).
  destruct (Z.odd m).
  - destruct (IH (m / 2) (x * c / 2 ^ 128) (y * c / 2 ^ 128)); lia.
  - destruct (IH (m / 2) (x * c / 2 ^ 128) y); lia.
Qed.

(** * Neighbouring ticks *)

(** The factor between neighbours, [GAP_N / GAP_D], a little below the square root of 1.0001. *)
Definition GAP_N : Z := 100004.
Definition GAP_D : Z := 100000.

(** [y] exceeds [x] by this factor up to an error [e]. *)
Definition gap (e x y : Z) : Prop := GAP_N * x <= GAP_D * (y + e).

(** Common factors keep the gap and add at most one to the error. *)
Lemma gap_common cs m e x y :
  Forall factor_ok cs -> 0 <= e -> 0 <= x <= 2 ^ 128 -> 0 <= y <= 2 ^ 128 -> gap e x y ->
  gap (e + Z.of_nat (length cs)) (ratio_of cs m x) (ratio_of cs m y).
Proof.
  intros Hcs. revert m e x y. induction Hcs as [|c cs Hc Hcs IH]; intros m e x y He Hx Hy Hg.
  { cbn. by rewrite Z.add_0_r. }
  cbn [ratio_of length]. replace (e + Z.of_nat (S (length cs))) with (e + 1 + Z.of_nat (length cs)) by lia.
  pose proof (scale_range c x Hc Hx). pose proof (scale_range c y Hc Hy).
  destruct (Z.odd m); [|apply IH; unfold gap, GAP_D in *; lia].
  apply IH; [lia|lia|lia|]. unfold gap, GAP_N, GAP_D, factor_ok in *.
  pose proof (Z.div_mod (x * c) (2 ^ 128) ltac:(lia)). pose proof (Z.mod_pos_bound (x * c) (2 ^ 128) ltac:(lia)).
  pose proof (Z.div_mod (y * c) (2 ^ 128) ltac:(lia)). pose proof (Z.mod_pos_bound (y * c) (2 ^ 128) ltac:(lia)).
  set (x' := x * c / 2 ^ 128) in *. set (y' := y * c / 2 ^ 128) in *.
  assert (100004 * x * c <= 100000 * (y + e) * c) by (apply Z.mul_le_mono_nonneg_r; lia).
  assert (e * c <= e * 2 ^ 128) by (apply Z.mul_le_mono_nonneg_l; lia).
  apply (Zmult_le_reg_r _ _ (2 ^ 128)); lia.
Qed.

(** At every bit the product of all lower factors exceeds the factor of the bit by the gap. *)
Fixpoint gaps_ok (y : Z) (cs : list Z) : bool :=
  match cs with
  | [] => true
  | c :: cs' => (GAP_N * c <=? GAP_D * y) && gaps_ok (y * c / 2 ^ 128) cs'
  end.

Lemma gap_next cs m y :
  Forall factor_ok cs -> gaps_ok y cs = true -> 0 <= y <= 2 ^ 128 -> 0 <= m -> m + 1 < 2 ^ Z.of_nat (length cs) ->
  gap (Z.of_nat (length cs)) (ratio_of cs (m + 1) (2 ^ 128)) (ratio_of cs m y).
Proof.
  intros Hcs. revert m y. induction Hcs as [|c cs Hc Hcs IH]; intros m y Hgo Hy Hm Hlt; [cbn in Hlt; lia|].
  cbn [ratio_of gaps_ok length] in *. apply andb_true_iff in Hgo as [Hg Hgo]. apply Z.leb_le in Hg.
  rewrite Nat2Z.inj_succ, Z.pow_succ_r in Hlt by lia.
  pose proof (scale_range c y Hc Hy). replace (Z.of_nat (S (length cs))) with (1 + Z.of_nat (length cs)) by lia.
  replace (Z.odd (m + 1)) with (negb (Z.odd m)) by (rewrite Z.add_1_r, Z.odd_succ, <-Z.negb_odd; done).
  destruct (Z.odd m) eqn:Ho; cbn [negb].
  - apply Zodd_bool_iff, Zodd_ex in Ho as [k ->].
    replace ((2 * k + 1 + 1) / 2) with (k + 1) by (apply Z.div_unique with 0; lia).
    replace ((2 * k + 1) / 2) with k by (apply Z.div_unique with 1; lia).
    pose proof (IH k (y * c / 2 ^ 128) Hgo ltac:(lia) ltac:(lia) ltac:(lia)) as H'. unfold gap, GAP_D in *. lia.
  - assert (Z.even m = true) as He by (rewrite <-Z.negb_odd, Ho; done).
    apply Zeven_bool_iff, Zeven_ex in He as [k ->].
    replace ((2 * k + 1) / 2) with k by (apply Z.div_unique with 1; lia).
    replace (2 * k / 2) with k by (apply Z.div_unique with 0; lia).
    rewrite (Z.mul_comm (2 ^ 128) c), Z.div_mul by lia. unfold factor_ok in Hc.
    apply (gap_common cs k 1 c y); [done|lia|lia|lia|]. unfold gap, GAP_D in *. lia.
Qed.

(** * Prices *)

(** The product for the magnitude [m] of a tick. *)
Abbreviation ratio m := (ratio_of factors m (2 ^ 128)).

Lemma length_factors : length factors = 20%nat.
Proof. done. Qed.

Lemma ratio_gap m : 0 <= m -> m + 1 < 2 ^ 20 -> gap 20 (ratio (m + 1)) (ratio m).
Proof.
  intros. apply (gap_next factors m (2 ^ 128)); [apply factors_ok|vm_compute; reflexivity|lia|lia|done].
Qed.

Lemma ratio_low m : 2 ^ 52 <= ratio m <= 2 ^ 128.
Proof.
  pose proof (ratio_bounds factors m (2 ^ 128) (2 ^ 128) factors_ok ltac:(lia) ltac:(lia)).
  assert (2 ^ 52 <= ratio_all factors (2 ^ 128)) by (vm_compute; discriminate). lia.
Qed.

Lemma ratio_decreasing m n : 0 <= m <= n -> n < 2 ^ 20 -> ratio n <= ratio m.
Proof.
  intros Hm Hn. replace n with (m + Z.of_nat (Z.to_nat (n - m))) in * by lia.
  induction (Z.to_nat (n - m)) as [|k IH]; [rewrite Z.add_0_r; lia|].
  pose proof (ratio_gap (m + Z.of_nat k) ltac:(lia) ltac:(lia)) as Hg.
  pose proof (ratio_low (m + Z.of_nat k + 1)). unfold gap, GAP_N, GAP_D in Hg.
  replace (m + Z.of_nat (S k)) with (m + Z.of_nat k + 1) by lia. lia.
Qed.

(** The price, from the product. *)
Definition price_of (t : Z) : Z :=
  let v := if 0 <? t then (2 ^ 256 - 1) / ratio (Z.abs t) else ratio (Z.abs t) in
  (v + (2 ^ 32 - 1)) / 2 ^ 32.

(** Rounding a shift up, as the source does it. *)
Lemma shift_up v w :
  0 <= v -> 0 < w -> Z.shiftr v w + (if v mod 2 ^ w =? 0 then 0 else 1) = (v + (2 ^ w - 1)) / 2 ^ w.
Proof.
  intros Hv Hw. rewrite Z.shiftr_div_pow2 by lia. assert (0 < 2 ^ w) by lia.
  pose proof (Z.div_mod v (2 ^ w) ltac:(lia)). pose proof (Z.mod_pos_bound v (2 ^ w) ltac:(lia)).
  destruct (Z.eqb_spec (v mod 2 ^ w) 0) as [He|He].
  - apply Z.div_unique with (2 ^ w - 1); lia.
  - apply Z.div_unique with (v mod 2 ^ w - 1); lia.
Qed.

Lemma first_factor c cs m :
  ratio_of (c :: cs) m (2 ^ 128) = ratio_of cs (m / 2 ^ 1) (if Z.testbit m 0 then c else 2 ^ 128).
Proof.
  cbn [ratio_of]. rewrite Z.bit0_odd. change (2 ^ 1) with 2. f_equal.
  destruct (Z.odd m); [|reflexivity]. rewrite Z.mul_comm. apply Z.div_mul. lia.
Qed.

Lemma limbs_unit : limbs 0 0 1 0 = 2 ^ 128.
Proof. reflexivity. Qed.

(** The product of the source, over all its factors. *)
Lemma ratio_product m :
  0 <= m ->
  try_fold (ratio_step m) (if Z.testbit m 0 then RATIO_BIT_0 else 2 ^ 128) RATIO_FACTORS = Ok (ratio m).
Proof.
  intros Hm. unfold factors. rewrite first_factor.
  rewrite (ratio_fold RATIO_FACTORS 1); [reflexivity| |apply (Forall_inv_tail factors_ok)|lia|lia|].
  - repeat (split; [reflexivity|]). exact I.
  - destruct (Z.testbit _ 0); vm_compute; split; discriminate.
Qed.

(** The rounding of the source, from 128 to 96 fractional bits. *)
Lemma round_price v :
  0 <= v < 2 ^ 256 ->
  ('(_, rest) ← div_mod_u256 v (wrap 256 (Z.shiftl 1 32));
   Ok (E := SimulationError) (wrap 256 (Z.shiftr v 32 + (if rest =? 0 then 0 else 1)))) = Ok ((v + (2 ^ 32 - 1)) / 2 ^ 32).
Proof.
  intros Hv. change (wrap 256 (Z.shiftl 1 32)) with (2 ^ 32). unfold div_mod_u256. change (2 ^ 32 =? 0) with false.
  cbn [mbind result_bind]. rewrite shift_up by lia. rewrite wrap_small; [reflexivity|].
  unfold in_range. split; [apply Z.div_pos; lia|apply Z.div_lt_upper_bound; lia].
Qed.

Lemma sqrt_ratio_value t : MIN_TICK <= t <= MAX_TICK -> get_sqrt_ratio_at_tick t = Ok (price_of t).
Proof.
  intros Ht. unfold MIN_TICK, MAX_TICK in Ht. unfold get_sqrt_ratio_at_tick, MAX_TICK.
  rewrite swrap_small by (unfold in_srange; lia). destruct (Z.ltb_spec 887272 (Z.abs t)); [lia|].
  rewrite limbs_unit, ratio_product by lia. cbn [mbind result_bind]. unfold price_of.
  pose proof (ratio_low (Z.abs t)) as Hr. generalize dependent (ratio (Z.abs t)). intros r Hr.
  destruct (0 <? t); cbn [mbind result_bind]; [|apply round_price; lia].
  assert (0 <= (2 ^ 256 - 1) / r < 2 ^ 256) as Hd
    by (split; [apply Z.div_pos; lia|apply Z.div_lt_upper_bound; nia]).
  rewrite (proj2 (safe_div_ok (2 ^ 256 - 1) r ((2 ^ 256 - 1) / r)))
    by (unfold in_range; split_and!; [lia|reflexivity|lia|lia]).
  apply round_price. lia.
Qed.

(** Neighbouring magnitudes differ by more than [2 ^ 48] and by a factor above [1.00003]. *)
Lemma ratio_next m :
  0 <= m < 887272 ->
  2 ^ 63 <= ratio (m + 1) /\ ratio (m + 1) + 2 ^ 48 <= ratio m /\ 100003 * ratio (m + 1) <= 100000 * ratio m.
Proof.
  intros Hm. pose proof (ratio_decreasing (m + 1) 887272 ltac:(lia) ltac:(lia)) as Hl.
  assert (2 ^ 63 <= ratio 887272) by (vm_compute; discriminate).
  pose proof (ratio_gap m ltac:(lia) ltac:(lia)) as Hg. unfold gap, GAP_N, GAP_D in Hg.
  set (x := ratio (m + 1)) in *. set (y := ratio m) in *. lia.
Qed.

Lemma ceil_lt a b k : 0 < k -> a + k <= b -> (a + (k - 1)) / k < (b + (k - 1)) / k.
Proof.
  intros Hk Hab. apply Z.lt_le_trans with ((a + (k - 1) + 1 * k) / k); [rewrite Z.div_add; lia|].
  apply Z.div_le_mono; lia.
Qed.

(** Inverting keeps the factor between two products. *)
Lemma inverse_gap M x y :
  0 < x <= 2 ^ 128 -> 100003 * x <= 100000 * y -> 2 ^ 177 <= M -> M / y + 2 ^ 32 <= M / x.
Proof.
  intros Hx Hxy HM. pose proof (Z.mul_div_le M y ltac:(lia)) as Hy.
  pose proof (Z.div_pos M y ltac:(lia) ltac:(lia)) as Hq. set (q := M / y) in *. clearbody q.
  apply Z.div_le_lower_bound; [lia|]. assert (100003 * x * q <= 100000 * (y * q)) by nia. nia.
Qed.

Lemma price_next t : MIN_TICK <= t < MAX_TICK -> price_of t < price_of (t + 1).
Proof.
  intros Ht. unfold MIN_TICK, MAX_TICK in Ht. unfold price_of. destruct (decide (t = 0)) as [->|Hz].
  { vm_compute. reflexivity. }
  destruct (Z.ltb_spec 0 t), (Z.ltb_spec 0 (t + 1)); try lia.
  - rewrite !Z.abs_eq by lia. pose proof (ratio_next t ltac:(lia)) as (Hl & _ & Hg).
    pose proof (ratio_low (t + 1)) as Hu. apply ceil_lt; [lia|]. apply inverse_gap; lia.
  - rewrite !Z.abs_neq by lia. pose proof (ratio_next (- (t + 1)) ltac:(lia)) as (Hl & Hg & _).
    replace (- (t + 1) + 1) with (- t) in * by lia. apply ceil_lt; lia.
Qed.

Lemma price_increasing t u : MIN_TICK <= t < u -> u <= MAX_TICK -> price_of t < price_of u.
Proof.
  intros Ht Hu. replace u with (t + 1 + Z.of_nat (Z.to_nat (u - t - 1))) in * by lia.
  induction (Z.to_nat (u - t - 1)) as [|k IH]; [rewrite Z.add_0_r; apply price_next; lia|].
  pose proof (price_next (t + 1 + Z.of_nat k) ltac:(lia)).
  replace (t + 1 + Z.of_nat (S k)) with (t + 1 + Z.of_nat k + 1) by lia. lia.
Qed.

Lemma price_ends : price_of MIN_TICK = MIN_SQRT_RATIO /\ price_of MAX_TICK = MAX_SQRT_RATIO.
Proof. vm_compute. done. Qed.

Lemma price_range t : MIN_TICK <= t <= MAX_TICK -> MIN_SQRT_RATIO <= price_of t <= MAX_SQRT_RATIO.
Proof.
  intros Ht. destruct price_ends as [<- <-].
  split; apply Z.lt_eq_cases.
  - destruct (decide (MIN_TICK = t)) as [->|]; [by right|left; apply price_increasing; lia].
  - destruct (decide (t = MAX_TICK)) as [->|]; [by right|left; apply price_increasing; lia].
Qed.

Lemma sqrt_ratio_total t :
  in_srange 32 t -> t <> - 2 ^ 31 ->
  get_sqrt_ratio_at_tick t =
    if decide (MIN_TICK <= t <= MAX_TICK) then Ok (price_of t)
    else Err (FatalError "Tick is outside valid range").
Proof.
  intros Ht Hmin. case_decide as Hr; [by apply sqrt_ratio_value|].
  unfold get_sqrt_ratio_at_tick, MIN_TICK, MAX_TICK, in_srange in *. rewrite swrap_small by (unfold in_srange; lia).
  destruct (Z.ltb_spec 887272 (Z.abs t)); [done|lia].
Qed.

(** C39. For every tick of 32 bits: on the ticks from [MIN_TICK] to [MAX_TICK] the price is defined,
    strictly increasing in the tick, and runs from [MIN_SQRT_RATIO] to [MAX_SQRT_RATIO] (the
    rounding of the up to twenty factors of a tick never lets two ticks share a price).  Every other
    tick is an error, with one exception: the absolute value of [i32::MIN] wraps around, passes
    the check, and the answer is the price of tick 0. *)
Theorem tick_price_increasing (t : Z) (Ht : in_srange 32 t) :
  if decide (MIN_TICK <= t <= MAX_TICK) then
    exists p, get_sqrt_ratio_at_tick t = Ok p /\ MIN_SQRT_RATIO <= p <= MAX_SQRT_RATIO /\
      forall u q, t < u <= MAX_TICK -> get_sqrt_ratio_at_tick u = Ok q -> p < q
  else if decide (t = - 2 ^ 31) then
    get_sqrt_ratio_at_tick t = Ok (2 ^ 96) /\ get_sqrt_ratio_at_tick 0 = Ok (2 ^ 96)
  else exists msg, get_sqrt_ratio_at_tick t = Err (FatalError msg).
Proof.
  destruct (decide (t = - 2 ^ 31)) as [->|Hmin].
  { rewrite decide_False by (unfold MIN_TICK; lia). vm_compute. done. }
  rewrite sqrt_ratio_total by done. case_decide as Hr; [|by eexists].
  exists (price_of t). split_and!; [done|apply price_range; lia|apply price_range; lia|].
  intros u q Hu Hq. rewrite sqrt_ratio_value in Hq by (unfold MIN_TICK in *; lia). injection Hq as <-.
  apply price_increasing; lia.
Qed.

Lemma tick_price_increasing_witness : exists p, get_sqrt_ratio_at_tick (-5) = Ok p /\ MIN_SQRT_RATIO <= p.
Proof.
  pose proof (tick_price_increasing (-5) ltac:(unfold in_srange; lia)) as H.
  rewrite decide_True in H by (vm_compute; split; discriminate). destruct H as (p & ? & ? & ?). exists p. split; [done|lia].
Defined.
