(* ===== verification/TickLog.v ===== *)
(** [get_tick_at_sqrt_ratio] inverts [get_sqrt_ratio_at_tick].

    Binary logarithms are computed by squaring a 128-bit mantissa, one bit per squaring.  The
    number of bits is what the source uses to get the tick; the same computation, run further
    on the twenty factors of a price, bounds the logarithm of the price at a tick from both
    sides by a linear function of the tick.  No logarithm occurs in a statement: [F] is the
    number of bits of [y ^ (2 ^ k)], compared by powers of two. *)

From S2P Require Import Prelude SafeMath SafeMathSpec TickMath TickMathSpec.

Open Scope Z_scope.

(** * Logarithms by squaring *)

(** The mantissa and the exponent of the square. *)
Definition square_step (s : Z * Z) : Z * Z :=
  let '(r, F) := s in
  let r' := r * r / 2 ^ 127 in
  if 2 ^ 128 <=? r' then (r' / 2, 2 * F + 1) else (r', 2 * F).

Definition mantissa (y : Z) : Z * Z :=
  let l := Z.log2 y in
  (if 127 <=? l then y / 2 ^ (l - 127) else y * 2 ^ (127 - l), l).

Definition log_state (k : nat) (y : Z) : Z * Z := Nat.iter k square_step (mantissa y).

(** [r * 2 ^ F] approximates [2 ^ 127 * Y] from below, [r + e] from above. *)
Record approx (Y r F e : Z) : Prop := {
  ap_mantissa : 2 ^ 127 <= r < 2 ^ 128;
  ap_exponent : 0 <= F;
  ap_lower : r * 2 ^ F <= 2 ^ 127 * Y;
  ap_upper : 2 ^ 127 * Y <= (r + e) * 2 ^ F
}.

Lemma mantissa_approx y : 0 < y -> approx y (mantissa y).1 (mantissa y).2 1.
Proof.
  intros Hy. unfold mantissa. cbn [fst snd]. pose proof (Z.log2_spec y Hy) as Hl.
  pose proof (Z.log2_nonneg y) as H0. set (l := Z.log2 y) in *. rewrite Z.pow_succ_r in Hl by lia.
  destruct (Z.leb_spec 127 l) as [Hle|Hlt].
  - assert (2 ^ l = 2 ^ 127 * 2 ^ (l - 127)) as Hp by (rewrite <-Z.pow_add_r by lia; f_equal; lia).
    assert (0 < 2 ^ (l - 127)) by (apply Z.pow_pos_nonneg; lia). set (d := 2 ^ (l - 127)) in *.
    pose proof (Z.mul_div_le y d ltac:(lia)). pose proof (Z.mul_succ_div_gt y d ltac:(lia)).
    split; [split; [apply Z.div_le_lower_bound; lia|apply Z.div_lt_upper_bound; lia]|lia|nia|nia].
  - assert (2 ^ 127 = 2 ^ l * 2 ^ (127 - l)) as Hp by (rewrite <-Z.pow_add_r by lia; f_equal; lia).
    assert (0 < 2 ^ (127 - l)) by (apply Z.pow_pos_nonneg; lia). set (d := 2 ^ (127 - l)) in *.
    change (2 ^ 128) with (2 * 2 ^ 127). assert (0 < 2 ^ l) by (apply Z.pow_pos_nonneg; lia).
    split; [nia|lia|nia|nia].
Qed.

Lemma square_approx Y r F e :
  1 <= e <= 2 ^ 120 -> approx Y r F e ->
  approx (Y * Y) (square_step (r, F)).1 (square_step (r, F)).2 (6 * e).
Proof.
  intros He [Hr HF Hlo Hup]. unfold square_step.
  pose proof (Z.mul_div_le (r * r) (2 ^ 127) ltac:(lia)) as Hd.
  pose proof (Z.mul_succ_div_gt (r * r) (2 ^ 127) ltac:(lia)) as Hd'. rewrite <-Z.add_1_r in Hd'.
  set (r' := r * r / 2 ^ 127) in *. assert (0 < 2 ^ F) by (apply Z.pow_pos_nonneg; lia).
  assert (2 ^ (2 * F) = 2 ^ F * 2 ^ F) as HF2 by (rewrite <-Z.pow_add_r by lia; f_equal; lia).
  set (g := 2 ^ F) in *. clearbody g.
  assert (2 ^ 127 <= r' < 2 ^ 129) as Hr' by (split; nia).
  assert (0 <= Y) by nia.
  assert (r' * (g * g) <= 2 ^ 127 * (Y * Y)) as Hlo2.
  { assert ((r * g) * (r * g) <= (2 ^ 127 * Y) * (2 ^ 127 * Y)) by (apply Z.mul_le_mono_nonneg; nia).
    apply (Zmult_le_reg_r _ _ (2 ^ 127)); [lia|]. nia. }
  assert (2 ^ 127 * (Y * Y) <= (r' + 6 * e - 1) * (g * g)) as Hup2.
  { assert ((2 ^ 127 * Y) * (2 ^ 127 * Y) <= ((r + e) * g) * ((r + e) * g)) by (apply Z.mul_le_mono_nonneg; nia).
    assert ((r + e) * (r + e) <= 2 ^ 127 * (r' + 6 * e - 1)) by nia.
    apply (Zmult_le_reg_r _ _ (2 ^ 127)); [lia|]. nia. }
  destruct (Z.leb_spec (2 ^ 128) r'); cbn [fst snd].
  - pose proof (Z.div_mod r' 2 ltac:(lia)). pose proof (Z.mod_pos_bound r' 2 ltac:(lia)).
    assert (2 ^ (2 * F + 1) = 2 * (g * g)) as HF3 by (rewrite Z.pow_add_r, HF2 by lia; lia).
    split; [lia|lia|rewrite HF3; nia|rewrite HF3; nia].
  - split; [lia|lia|rewrite HF2; nia|rewrite HF2; nia].
Qed.

Lemma log_approx k y :
  0 < y -> (k <= 45)%nat -> approx (y ^ 2 ^ Z.of_nat k) (log_state k y).1 (log_state k y).2 (6 ^ Z.of_nat k).
Proof.
  intros Hy. induction k as [|k IH]; intros Hk.
  - change (2 ^ Z.of_nat 0) with 1. rewrite Z.pow_1_r. by apply mantissa_approx.
  - specialize (IH ltac:(lia)). unfold log_state in *. rewrite Nat.iter_succ.
    destruct (Nat.iter k square_step (mantissa y)) as [r F]. cbn [fst snd] in IH.
    rewrite !Nat2Z.inj_succ, !Z.pow_succ_r by lia.
    replace (2 * 2 ^ Z.of_nat k) with (2 ^ Z.of_nat k + 2 ^ Z.of_nat k) by lia.
    rewrite Z.pow_add_r by lia. apply square_approx; [|done].
    split; [pose proof (Z.pow_pos_nonneg 6 (Z.of_nat k)); lia|].
    transitivity (6 ^ 45); [apply Z.pow_le_mono_r; lia|vm_compute; discriminate].
Qed.

(** The exponent is the logarithm, up to two units. *)
Lemma log_bounds k y :
  0 < y -> (k <= 45)%nat ->
  0 <= (log_state k y).2 /\ 2 ^ (log_state k y).2 <= y ^ 2 ^ Z.of_nat k < 2 ^ ((log_state k y).2 + 2).
Proof.
  intros Hy Hk. destruct (log_approx k y Hy Hk) as [Hr HF Hlo Hup].
  destruct (log_state k y) as [r F]. cbn [fst snd] in *. rewrite Z.pow_add_r by lia.
  assert (6 ^ Z.of_nat k <= 6 ^ 45) as He by (apply Z.pow_le_mono_r; lia).
  assert (6 ^ 45 < 2 ^ 120) by (vm_compute; reflexivity).
  assert (0 < 2 ^ F) by (apply Z.pow_pos_nonneg; lia). set (g := 2 ^ F) in *. clearbody g.
  set (Y := y ^ 2 ^ Z.of_nat k) in *. clearbody Y. set (e := 6 ^ Z.of_nat k) in *. clearbody e.
  split; [done|]. split; [nia|]. change (2 ^ 2) with 4. nia.
Qed.

(** Fewer squarings give the leading bits. *)
Lemma log_prefix k j y :
  let F := (log_state k y).2 in let G := (log_state (j + k) y).2 in
  F * 2 ^ Z.of_nat j <= G < (F + 1) * 2 ^ Z.of_nat j.
Proof.
  cbv zeta. unfold log_state. rewrite Nat.iter_add. destruct (Nat.iter k square_step (mantissa y)) as [r F].
  cbn [snd]. induction j as [|j IH]; [change (2 ^ Z.of_nat 0) with 1; cbn; lia|].
  rewrite Nat.iter_succ. destruct (Nat.iter j square_step (r, F)) as [r' F']. cbn [snd] in *.
  rewrite Nat2Z.inj_succ, Z.pow_succ_r by lia. unfold square_step. destruct (_ <=? _); cbn [snd]; lia.
Qed.

(** * The logarithm of a product of factors *)

(** Logarithms are taken of [M]-th powers, so that they are integers. *)
Definition M : Z := 2 ^ 40.

(** [D] such that [c / 2 ^ 128] is about [2 ^ (- D / M)]. *)
Definition dlog (c : Z) : Z := 128 * M - (log_state 40 c).2.

(** The sum over the bits of [m]. *)
Fixpoint bit_sum (Ds : list Z) (m : Z) : Z :=
  match Ds with [] => 0 | D :: Ds' => (if Z.odd m then D else 0) + bit_sum Ds' (m / 2) end.

Lemma dlog_bounds c :
  0 < c -> 2 ^ (128 * M - dlog c) <= c ^ M < 2 ^ (128 * M - dlog c + 2) /\ 0 <= 128 * M - dlog c.
Proof.
  intros Hc. pose proof (log_bounds 40 c Hc ltac:(lia)) as [H0 H]. unfold dlog.
  change (2 ^ Z.of_nat 40) with M in H. replace (128 * M - _) with (log_state 40 c).2 by lia. done.
Qed.

Lemma pow_M_mono a b : a <= b -> 0 <= a -> a ^ M <= b ^ M.
Proof. intros. apply Z.pow_le_mono_l. lia. Qed.

Lemma pow_M_lt a b : 0 <= b -> a ^ M < b ^ M -> 0 <= a -> a < b.
Proof. intros Hb Hp Ha. apply (Z.pow_lt_mono_l_iff a b M); [unfold M; lia..|done]. Qed.

Lemma pow_M_le a b : 0 <= b -> a ^ M <= b ^ M -> 0 <= a -> a <= b.
Proof. intros Hb Hp Ha. apply (Z.pow_le_mono_l_iff a b M); [unfold M; lia..|done]. Qed.

Lemma pow2_pos k : 0 <= k -> 0 < 2 ^ k.
Proof. intros. apply Z.pow_pos_nonneg; lia. Qed.

Definition small_log (c : Z) : Prop := factor_ok c /\ 2 <= dlog c.

Lemma bit_sum_nonneg Ds m : Forall (fun D => 0 <= D) Ds -> 0 <= bit_sum Ds m.
Proof. intros H. revert m. induction H as [|D Ds HD _ IH]; intros m; cbn; [lia|]. pose proof (IH (m / 2)). destruct (Z.odd m); lia. Qed.

(** Rounding a product down keeps an upper bound. *)
Lemma scale_upper x c D :
  0 <= x -> 0 < c -> 0 <= D -> c ^ M <= 2 ^ (128 * M - D) -> D <= 128 * M ->
  (x * c / 2 ^ 128) ^ M * 2 ^ D <= x ^ M.
Proof.
  intros Hx Hc HD Hlog Hle.
  assert ((x * c / 2 ^ 128) * 2 ^ 128 <= x * c) as Hd by (rewrite Z.mul_comm; apply Z.mul_div_le; lia).
  assert (0 <= x * c / 2 ^ 128) as H0 by (apply Z.div_pos; nia). set (x' := x * c / 2 ^ 128) in *. clearbody x'.
  apply pow_M_mono in Hd; [|lia]. rewrite !Z.pow_mul_l, <-Z.pow_mul_r in Hd by (unfold M; lia).
  replace (128 * M) with (D + (128 * M - D)) in Hd by lia. rewrite Z.pow_add_r in Hd by lia.
  pose proof (pow2_pos (128 * M - D) ltac:(lia)) as Hg. set (g := 2 ^ (128 * M - D)) in *. clearbody g.
  pose proof (Z.pow_nonneg x M Hx). apply (Zmult_le_reg_r _ _ g); [lia|].
  transitivity (x ^ M * c ^ M); [nia|]. apply Z.mul_le_mono_nonneg_l; lia.
Qed.

(** ... and loses at most one unit from below. *)
Lemma scale_lower x e c D :
  0 <= x -> 0 <= e -> factor_ok c -> 0 <= D -> 2 ^ (128 * M - D) <= c ^ M -> D <= 128 * M ->
  (x + e) ^ M <= (x * c / 2 ^ 128 + (e + 1)) ^ M * 2 ^ D.
Proof.
  intros Hx He Hc HD Hlog Hle. unfold factor_ok in Hc.
  pose proof (Z.mul_succ_div_gt (x * c) (2 ^ 128) ltac:(lia)) as Hd.
  assert (0 <= x * c / 2 ^ 128) as H0 by (apply Z.div_pos; nia). set (x' := x * c / 2 ^ 128) in *. clearbody x'.
  assert ((x + e) * c <= (x' + (e + 1)) * 2 ^ 128) as Hm by nia.
  apply pow_M_mono in Hm; [|nia]. rewrite !Z.pow_mul_l, <-Z.pow_mul_r in Hm by (unfold M; lia).
  replace (128 * M) with (D + (128 * M - D)) in Hm by lia. rewrite Z.pow_add_r in Hm by lia.
  pose proof (pow2_pos (128 * M - D) ltac:(lia)) as Hg. set (g := 2 ^ (128 * M - D)) in *. clearbody g.
  pose proof (Z.pow_nonneg (x + e) M ltac:(lia)). apply (Zmult_le_reg_r _ _ g); [lia|].
  transitivity ((x + e) ^ M * c ^ M); [apply Z.mul_le_mono_nonneg_l; lia|]. nia.
Qed.

Lemma small_log_ok c : small_log c -> 2 <= dlog c <= 128 * M /\ 0 < c.
Proof. intros [[Hc ?] ?]. pose proof (dlog_bounds c Hc). lia. Qed.

Lemma ratio_upper cs m x :
  Forall small_log cs -> 0 <= x <= 2 ^ 128 ->
  (ratio_of cs m x) ^ M * 2 ^ bit_sum ((fun c => dlog c - 2) <$> cs) m <= x ^ M.
Proof.
  intros Hcs. revert m x. induction Hcs as [|c cs Hc Hcs IH]; intros m x Hx; [cbn [ratio_of bit_sum fmap list_fmap]; lia|].
  cbn [ratio_of bit_sum fmap list_fmap]. destruct (small_log_ok c Hc) as [HD Hpos].
  assert (Forall (fun D => 0 <= D) ((fun c => dlog c - 2) <$> cs)) as Hnn.
  { apply Forall_fmap. eapply Forall_impl; [exact Hcs|]. intros d Hd. destruct (small_log_ok d Hd). cbn. lia. }
  destruct (Z.odd m); [|by apply IH].
  pose proof (bit_sum_nonneg _ (m / 2) Hnn) as HS. fold (list_fmap _ _ (fun c => dlog c - 2) cs) in *.
  rewrite Z.pow_add_r by lia. destruct Hc as [Hf _]. pose proof (scale_range c x Hf Hx).
  specialize (IH (m / 2) (x * c / 2 ^ 128) ltac:(lia)). pose proof (dlog_bounds c Hpos) as [[Hlo Hup] H0].
  pose proof (scale_upper x c (dlog c - 2) ltac:(lia) Hpos ltac:(lia)) as Hs.
  replace (128 * M - (dlog c - 2)) with (128 * M - dlog c + 2) in Hs by lia.
  specialize (Hs ltac:(lia) ltac:(lia)). pose proof (pow2_pos (dlog c - 2) ltac:(lia)) as Hg.
  etransitivity; [|exact Hs]. rewrite (Z.mul_comm (2 ^ (dlog c - 2))), Z.mul_assoc.
  apply Z.mul_le_mono_nonneg_r; [lia|exact IH].
Qed.

Lemma ratio_lower cs m x e :
  Forall small_log cs -> 0 <= x <= 2 ^ 128 -> 0 <= e ->
  (x + e) ^ M <= (ratio_of cs m x + (e + Z.of_nat (length cs))) ^ M * 2 ^ bit_sum (dlog <$> cs) m.
Proof.
  intros Hcs. revert m x e. induction Hcs as [|c cs Hc Hcs IH]; intros m x e Hx He.
  { cbn [ratio_of bit_sum fmap list_fmap length]. rewrite Z.add_0_r. lia. }
  cbn [ratio_of bit_sum fmap list_fmap length]. destruct (small_log_ok c Hc) as [HD Hpos].
  assert (Forall (fun D => 0 <= D) (dlog <$> cs)) as Hnn.
  { apply Forall_fmap. eapply Forall_impl; [exact Hcs|]. intros d Hd. destruct (small_log_ok d Hd). cbn. lia. }
  pose proof (bit_sum_nonneg _ (m / 2) Hnn) as HS. fold (list_fmap _ _ dlog cs) in *.
  replace (e + Z.of_nat (S (length cs))) with (e + 1 + Z.of_nat (length cs)) by lia.
  destruct (Z.odd m).
  - rewrite Z.pow_add_r by lia. destruct Hc as [Hf _]. pose proof (scale_range c x Hf Hx).
    specialize (IH (m / 2) (x * c / 2 ^ 128) (e + 1) ltac:(lia) ltac:(lia)).
    pose proof (dlog_bounds c Hpos) as [[Hlo Hup] H0].
    pose proof (scale_lower x e c (dlog c) ltac:(lia) He Hf ltac:(lia) Hlo ltac:(lia)) as Hs.
    pose proof (pow2_pos (dlog c) ltac:(lia)) as Hg. etransitivity; [exact Hs|].
    rewrite (Z.mul_comm (2 ^ dlog c)), Z.mul_assoc. apply Z.mul_le_mono_nonneg_r; [lia|exact IH].
  - transitivity ((x + (e + 1)) ^ M); [apply pow_M_mono; lia|]. apply IH; lia.
Qed.

(** * The logarithm of a price is linear in the tick *)

(** [LAMBDA / 2 ^ 24] is the logarithm of the price between two ticks, times [M]. *)
Definition LAMBDA : Z := 1330584781654115.

Lemma factors_small : Forall small_log factors.
Proof.
  unfold small_log, factor_ok. repeat (apply Forall_cons; split; [split; vm_compute; [split; reflexivity|discriminate]|]).
  constructor.
Qed.

(** Every entry of the list is the double of the one before, up to [eps]. *)
Fixpoint doubling (d eps : Z) (Ds : list Z) : bool :=
  match Ds with [] => true | D :: Ds' => (Z.abs (2 ^ 24 * D - d) <=? eps) && doubling (2 * d) eps Ds' end.

Lemma bit_sum_linear d eps Ds m :
  doubling d eps Ds = true -> 0 <= eps -> 0 <= m < 2 ^ Z.of_nat (length Ds) ->
  Z.abs (2 ^ 24 * bit_sum Ds m - d * m) <= eps * Z.of_nat (length Ds).
Proof.
  intros Hd He. revert d m Hd. induction Ds as [|D Ds IH]; intros d m Hd Hm.
  { cbn in *. replace m with 0 by lia. lia. }
  cbn [doubling bit_sum length] in *. apply andb_true_iff in Hd as [HD Hd]. apply Z.leb_le in HD.
  rewrite Nat2Z.inj_succ, Z.pow_succ_r in Hm by lia.
  pose proof (IH (2 * d) (m / 2) Hd ltac:(split; [apply Z.div_pos|apply Z.div_lt_upper_bound]; lia)) as H.
  pose proof (Zdiv2_odd_eqn m) as Hm2. rewrite Zdiv2_div in Hm2. set (k := m / 2) in *. clearbody k.
  destruct (Z.odd m); rewrite Hm2; lia.
Qed.

Lemma dlog_doubling :
  doubling LAMBDA (2 ^ 26) (dlog <$> factors) = true /\
  doubling LAMBDA (2 ^ 26) ((fun c => dlog c - 2) <$> factors) = true.
Proof. vm_compute. split; reflexivity. Qed.

(** The sum of the logarithms is within 128 units of [LAMBDA * m / 2 ^ 24]. *)
Lemma dlog_linear f m :
  doubling LAMBDA (2 ^ 26) (f <$> factors) = true -> 0 <= m < 2 ^ 20 ->
  LAMBDA * m <= 2 ^ 24 * (bit_sum (f <$> factors) m + 128) /\ 2 ^ 24 * (bit_sum (f <$> factors) m - 128) <= LAMBDA * m.
Proof.
  intros Hd Hm. pose proof (bit_sum_linear LAMBDA (2 ^ 26) (f <$> factors) m Hd ltac:(lia)) as H.
  rewrite length_fmap, length_factors in H. change (Z.of_nat 20) with 20 in H. specialize (H Hm). lia.
Qed.

(** A relative error of [2 ^ -31] costs at most 1024 units. *)
Lemma near_log a b : 0 <= a -> 0 <= b -> a * 2 ^ 31 <= b * (2 ^ 31 + 1) -> a ^ M <= b ^ M * 2 ^ 1024.
Proof.
  intros Ha Hb Hab. apply pow_M_mono in Hab; [|lia].
  rewrite !Z.pow_mul_l, <-Z.pow_mul_r in Hab by (unfold M; lia).
  assert ((2 ^ 31 + 1) ^ M <= 2 ^ (1024 + 31 * M)) as Hl.
  { pose proof (log_bounds 40 (2 ^ 31 + 1) ltac:(lia) ltac:(lia)) as [_ H]. change (2 ^ Z.of_nat 40) with M in H.
    etransitivity; [apply Z.lt_le_incl, H|]. apply Z.pow_le_mono_r; [lia|vm_compute; discriminate]. }
  pose proof (Z.pow_nonneg b M Hb). rewrite Z.pow_add_r in Hl by (unfold M; lia).
  pose proof (pow2_pos (31 * M) ltac:(unfold M; lia)) as Hg. set (g := 2 ^ (31 * M)) in *. clearbody g.
  apply (Zmult_le_reg_r _ _ g); [lia|]. etransitivity; [exact Hab|]. rewrite <-Z.mul_assoc.
  apply Z.mul_le_mono_nonneg_l; lia.
Qed.

Lemma ratio_high m : 0 <= m <= 887272 -> 2 ^ 63 <= ratio m <= 2 ^ 128.
Proof.
  intros Hm. pose proof (ratio_decreasing m 887272 ltac:(lia) ltac:(lia)). pose proof (ratio_low m).
  assert (2 ^ 63 <= ratio 887272) by (vm_compute; discriminate). lia.
Qed.

(** [x ^ M] is between the powers of two with exponents [128 * M + lo] and [128 * M + hi]. *)
Definition log_between (x lo hi : Z) : Prop := 2 ^ (128 * M + lo) <= x ^ M <= 2 ^ (128 * M + hi).

(** [e] is the logarithm of the price of tick [t], up to [k] units. *)
Definition linear (t k e : Z) : Prop := LAMBDA * t <= 2 ^ 24 * (e + k) /\ 2 ^ 24 * (e - k) <= LAMBDA * t.

Lemma linear_range t k e :
  linear t k e -> MIN_TICK <= t <= MAX_TICK -> 0 <= k <= 4096 -> - (65 * 2 ^ 40) <= e <= 65 * 2 ^ 40.
Proof. unfold linear, LAMBDA, MIN_TICK, MAX_TICK. lia. Qed.

Lemma linear_opp t k e : linear t k e -> linear (- t) k (- e).
Proof. unfold linear. lia. Qed.

Lemma linear_shift t k e d : linear t k e -> linear t (k + Z.abs d) (e + d).
Proof. unfold linear. lia. Qed.

Lemma ratio_log m :
  0 <= m <= 887272 -> exists s u, linear m 128 s /\ linear m 128 u /\ log_between (ratio m) (- u - 1024) (- s).
Proof.
  intros Hm. destruct dlog_doubling as [Hdu Hds].
  pose proof (dlog_linear _ m Hdu ltac:(lia)) as Hu. pose proof (dlog_linear _ m Hds ltac:(lia)) as Hs.
  pose proof (ratio_upper factors m (2 ^ 128) factors_small ltac:(lia)) as Hup.
  pose proof (ratio_lower factors m (2 ^ 128) 0 factors_small ltac:(lia) ltac:(lia)) as Hlo.
  rewrite length_factors in Hlo. change (0 + Z.of_nat 20) with 20 in Hlo. rewrite Z.add_0_r in Hlo.
  rewrite <-Z.pow_mul_r in Hup, Hlo by (unfold M; lia). pose proof (ratio_high m Hm) as Hr.
  set (u := bit_sum (dlog <$> factors) m) in *. set (s := bit_sum ((fun c => dlog c - 2) <$> factors) m) in *.
  assert (linear m 128 u) as Lu by (unfold linear; lia). assert (linear m 128 s) as Ls by (unfold linear; lia).
  assert (0 <= u /\ 0 <= s) as [Hu0 Hs0].
  { split; apply bit_sum_nonneg, Forall_fmap, (Forall_impl _ _ _ factors_small); intros d Hd; destruct (small_log_ok d Hd); cbn; lia. }
  exists s, u. split_and!; [done|done|]. clearbody s u. set (r := ratio m) in *. clearbody r.
  pose proof (linear_range _ _ _ Lu ltac:(unfold MIN_TICK, MAX_TICK; lia) ltac:(lia)).
  pose proof (linear_range _ _ _ Ls ltac:(unfold MIN_TICK, MAX_TICK; lia) ltac:(lia)).
  unfold log_between. assert (66 * 2 ^ 40 <= 128 * M) as HN by (vm_compute; discriminate).
  set (N := 128 * M) in *. clearbody N. split.
  - pose proof (near_log (r + 20) r ltac:(lia) ltac:(lia) ltac:(lia)) as Hn.
    pose proof (pow2_pos u Hu0) as Hg.
    assert (2 ^ (N) = 2 ^ (N + (- u - 1024)) * 2 ^ 1024 * 2 ^ u) as Hsplit
      by (rewrite <-!Z.pow_add_r by lia; f_equal; lia).
    rewrite Hsplit in Hlo. set (X := 2 ^ (N + (- u - 1024))) in *. clearbody X. set (g := 2 ^ u) in *. clearbody g.
    set (h := 2 ^ 1024) in *. assert (0 < h) by (vm_compute; reflexivity). clearbody h.
    apply (Zmult_le_reg_r _ _ h); [lia|]. apply (Zmult_le_reg_r _ _ g); [lia|].
    etransitivity; [exact Hlo|]. apply Z.mul_le_mono_nonneg_r; lia.
  - pose proof (pow2_pos s Hs0) as Hg.
    assert (2 ^ (N) = 2 ^ (N + - s) * 2 ^ s) as Hsplit by (rewrite <-!Z.pow_add_r by lia; f_equal; lia).
    rewrite Hsplit in Hup. apply (Zmult_le_reg_r _ _ (2 ^ s)); lia.
Qed.

Lemma near_upper x y N e :
  0 <= x -> 0 <= y -> y * 2 ^ 31 <= x * (2 ^ 31 + 1) -> 0 <= N + e -> x ^ M <= 2 ^ (N + e) -> y ^ M <= 2 ^ (N + (e + 1024)).
Proof.
  intros Hx Hy Hxy HN He. pose proof (near_log y x Hy Hx Hxy) as Hn. rewrite Z.add_assoc, Z.pow_add_r by lia.
  set (h := 2 ^ 1024) in *. assert (0 < h) by (vm_compute; reflexivity). clearbody h. nia.
Qed.

Lemma near_lower x y N e :
  0 <= x -> 0 <= y -> y * 2 ^ 31 <= x * (2 ^ 31 + 1) -> 0 <= N + (e - 1024) -> 2 ^ (N + e) <= y ^ M -> 2 ^ (N + (e - 1024)) <= x ^ M.
Proof.
  intros Hx Hy Hxy HN He. pose proof (near_log y x Hy Hx Hxy) as Hn.
  replace (N + e) with (N + (e - 1024) + 1024) in He by lia. rewrite Z.pow_add_r in He by lia.
  set (h := 2 ^ 1024) in *. assert (0 < h) by (vm_compute; reflexivity). clearbody h. nia.
Qed.

(** A product below [2 ^ 256] bounds one factor by the other. *)
Lemma inverse_upper N v r e :
  N = 128 * M -> 0 <= v -> 0 <= r -> v * r <= 2 ^ 256 -> 0 <= N + e <= 2 * N -> 2 ^ (N + e) <= r ^ M -> v ^ M <= 2 ^ (N + - e).
Proof.
  intros HN Hv Hr Hvr He Hlo. apply pow_M_mono in Hvr; [|nia].
  rewrite Z.pow_mul_l, <-Z.pow_mul_r in Hvr by (unfold M; lia).
  replace (256 * M) with (N + - e + (N + e)) in Hvr by lia. rewrite Z.pow_add_r in Hvr by lia.
  pose proof (pow2_pos (N + e) ltac:(lia)). apply (Zmult_le_reg_r _ _ (2 ^ (N + e))); [lia|].
  etransitivity; [|exact Hvr]. apply Z.mul_le_mono_nonneg_l; [by apply Z.pow_nonneg|done].
Qed.

Lemma inverse_lower N v r e :
  N = 128 * M -> 0 <= v -> 0 <= r -> 2 ^ 256 <= v * r -> 0 <= N + e <= 2 * N -> r ^ M <= 2 ^ (N + e) -> 2 ^ (N + - e) <= v ^ M.
Proof.
  intros HN Hv Hr Hvr He Hup. apply pow_M_mono in Hvr; [|lia].
  rewrite Z.pow_mul_l, <-Z.pow_mul_r in Hvr by (unfold M; lia).
  replace (256 * M) with (N + - e + (N + e)) in Hvr by lia. rewrite Z.pow_add_r in Hvr by lia.
  pose proof (pow2_pos (N + e) ltac:(lia)). apply (Zmult_le_reg_r _ _ (2 ^ (N + e))); [lia|].
  etransitivity; [exact Hvr|]. apply Z.mul_le_mono_nonneg_l; [by apply Z.pow_nonneg|done].
Qed.

(** The value that [price_of] rounds up. *)
Definition unrounded (t : Z) : Z := if 0 <? t then (2 ^ 256 - 1) / ratio (Z.abs t) else ratio (Z.abs t).

Lemma price_unrounded t : price_of t = (unrounded t + (2 ^ 32 - 1)) / 2 ^ 32.
Proof. reflexivity. Qed.

Lemma unrounded_log t :
  MIN_TICK <= t <= MAX_TICK ->
  2 ^ 63 <= unrounded t /\ exists a b, linear t 2176 a /\ linear t 2176 b /\ log_between (unrounded t) a b.
Proof.
  intros Ht. unfold MIN_TICK, MAX_TICK in Ht. destruct (ratio_log (Z.abs t) ltac:(lia)) as (s & u & Hs & Hu & Hlo & Hup).
  pose proof (ratio_high (Z.abs t) ltac:(lia)) as Hr. unfold unrounded, log_between.
  pose proof (linear_range _ _ _ Hs ltac:(unfold MIN_TICK, MAX_TICK; lia) ltac:(lia)).
  pose proof (linear_range _ _ _ Hu ltac:(unfold MIN_TICK, MAX_TICK; lia) ltac:(lia)).
  revert Hlo Hup Hr. generalize (ratio (Z.abs t)). intros r Hlo Hup Hr. assert (66 * 2 ^ 40 <= 128 * M) as HN by (vm_compute; discriminate).
  remember (128 * M) as N eqn:HNM.
  destruct (Z.ltb_spec 0 t) as [Hpos|Hneg].
  - rewrite Z.abs_eq in * by lia. pose proof (Z.mul_div_le (2 ^ 256 - 1) r ltac:(lia)) as Hd.
    pose proof (Z.mul_succ_div_gt (2 ^ 256 - 1) r ltac:(lia)) as Hd'.
    assert (2 ^ 63 <= (2 ^ 256 - 1) / r) as Hv by (apply Z.div_le_lower_bound; lia).
    set (v := (2 ^ 256 - 1) / r) in *. clearbody v. split; [done|].
    exists (s - 1024), (u + 1024). split_and!; [apply (linear_shift _ _ _ (-1024)) in Hs; unfold linear in *; lia|
      apply (linear_shift _ _ _ 1024) in Hu; unfold linear in *; lia| |].
    + apply (near_lower v (v + 1)); [lia..|]. replace s with (- - s) by lia. apply (inverse_lower N _ r); [done|lia..|done].
    + replace (u + 1024) with (- (- u - 1024)) by lia. apply (inverse_upper N _ r); [done|lia..|done].
  - rewrite Z.abs_neq in * by lia. split; [lia|]. exists (- u - 1024), (- s).
    apply linear_opp in Hs, Hu. rewrite Z.opp_involutive in Hs, Hu.
    apply (linear_shift _ _ _ (-1024)) in Hu. split_and!; [unfold linear in *; lia..|done|done].
Qed.
