(* ===== verification/TickInverse.v ===== *)
(** [get_tick_at_sqrt_ratio] inverts [get_sqrt_ratio_at_tick].

    The source computes fourteen fractional bits of the logarithm of the price, multiplies by
    the number of ticks per doubling, and takes the two ticks the result can stand for; the
    price of the upper one decides.  The two-sided linear bound on the logarithm of the price
    at a tick shows that no other tick is possible. *)

From S2P Require Import Prelude SafeMath SafeMathSpec TickMath TickMathSpec TickLog.

Open Scope Z_scope.

(** * The loop computes a logarithm *)

Lemma lor_bit a k : 0 <= k -> Z.lor (a * 2 ^ (k + 1)) (2 ^ k) = a * 2 ^ (k + 1) + 2 ^ k.
Proof.
  intros Hk. rewrite <-Z.lxor_lor, <-Z.add_nocarry_lxor; [done| |];
    apply Z.bits_inj'; intros n Hn; rewrite Z.land_spec, Z.bits_0, Z.pow2_bits_eqb by lia;
    destruct (Z.eqb_spec k n) as [<-|]; [|by rewrite andb_false_r| |by rewrite andb_false_r];
    rewrite Z.mul_pow2_bits_low by lia; done.
Qed.

(** [log_2] after [k] turns, for the state [(r, F)] of the logarithm. *)
Definition log_2_of (k F : Z) : Z := (F - 128 * 2 ^ k) * 2 ^ (64 - k).

Lemma log_step_square r F i :
  0 <= i <= 13 -> 2 ^ 127 <= r < 2 ^ 128 -> 
  log_step (r, log_2_of i F) i =
    let s := square_step (r, F) in Ok (s.1, log_2_of (i + 1) s.2).
Proof.
  intros Hi Hr. unfold log_step, square_step, log_2_of.
  assert (0 <= r * r < 2 ^ 256) as Hsq by (change (2 ^ 256) with (2 ^ 128 * 2 ^ 128); nia).
  rewrite wrap_small by done. rewrite (Z.shiftr_div_pow2 (r * r) 127) by lia.
  assert (0 <= r * r / 2 ^ 127 < 2 ^ 129) as Hr' by (split; [apply Z.div_pos; lia|apply Z.div_lt_upper_bound; [lia|change (2 ^ 127 * 2 ^ 129) with (2 ^ 256); lia]]).
  set (r' := r * r / 2 ^ 127) in *. rewrite (Z.shiftr_div_pow2 r' 128) by lia.
  replace (64 - i) with (63 - i + 1) by lia. replace (64 - (i + 1)) with (63 - i) by lia.
  assert (2 ^ (i + 1) = 2 * 2 ^ i) as Hi1 by (rewrite Z.pow_add_r by lia; lia).
  assert (2 ^ (63 - i + 1) = 2 * 2 ^ (63 - i)) as Hk1 by (rewrite Z.pow_add_r by lia; lia).
  destruct (Z.leb_spec (2 ^ 128) r') as [Hge|Hlt]; cbn [fst snd].
  - replace (r' / 2 ^ 128) with 1 by (apply Z.div_unique with (r' - 2 ^ 128); lia).
    assert (2 ^ (63 - i) <= 2 ^ 63) by (apply Z.pow_le_mono_r; lia). pose proof (pow2_pos (63 - i) ltac:(lia)).
    rewrite Z.shiftl_1_l, wrap_small by (unfold in_range; lia). cbv zeta.
    destruct (Z.ltb_spec (2 ^ (63 - i)) (2 ^ 255)); [|lia]. cbn [ok_or mbind result_bind].
    rewrite lor_bit, Z.shiftr_div_pow2 by lia. change (2 ^ 1) with 2. rewrite Hk1, Hi1. do 2 f_equal. lia.
  - rewrite (Z.div_small r') by lia. rewrite Z.shiftl_0_l. change (wrap 256 0) with 0. cbv zeta.
    change (0 <? 2 ^ 255) with true. cbn [ok_or mbind result_bind].
    rewrite Z.lor_0_r, Z.shiftr_0_r, Hk1, Hi1. do 2 f_equal. lia.
Qed.

Lemma square_mantissa r F : 2 ^ 127 <= r < 2 ^ 128 -> 2 ^ 127 <= (square_step (r, F)).1 < 2 ^ 128.
Proof.
  intros Hr. unfold square_step.
  assert (2 ^ 127 <= r * r / 2 ^ 127 < 2 ^ 129) as Hr'
    by (split; [apply Z.div_le_lower_bound; nia|apply Z.div_lt_upper_bound; [lia|change (2 ^ 127 * 2 ^ 129) with (2 ^ 128 * 2 ^ 128); nia]]).
  set (r' := r * r / 2 ^ 127) in *. clearbody r'. pose proof (Z.div_mod r' 2 ltac:(lia)). pose proof (Z.mod_pos_bound r' 2 ltac:(lia)).
  destruct (Z.leb_spec (2 ^ 128) r'); cbn [fst]; lia.
Qed.

Lemma log_loop n i r F :
  0 <= i -> i + Z.of_nat n <= 14 -> 2 ^ 127 <= r < 2 ^ 128 ->
  let s := Nat.iter n square_step (r, F) in
  try_fold log_step (r, log_2_of i F) (seqZ i (Z.of_nat n)) = Ok (s.1, log_2_of (i + Z.of_nat n) s.2).
Proof.
  revert i r F. induction n as [|n IH]; intros i r F Hi Hn Hr s.
  { subst s. cbn. by rewrite Z.add_0_r. }
  rewrite seqZ_cons by lia. cbn [try_fold]. rewrite log_step_square by lia. cbn [mbind result_bind].
  pose proof (square_mantissa r F Hr) as Hr'. subst s. rewrite Nat.iter_succ_r.
  destruct (square_step (r, F)) as [r' F']. cbn [fst snd] in *.
  replace (Z.pred (Z.of_nat (S n))) with (Z.of_nat n) by lia. rewrite <-Z.add_1_r, IH by lia.
  do 3 f_equal; lia.
Qed.

(** * The candidate ticks *)

(** The fourteen-bit logarithm, with the point after bit 128 of the fraction. *)
Definition log14 (p : Z) : Z := (log_state 14 (p * 2 ^ 32)).2 - 128 * 2 ^ 14.

Definition LOG_FACTOR : Z := 255738958999603826347141.
Definition LOW_ERROR : Z := 3402992956809132418596140100660247210.
Definition HIGH_ERROR : Z := 291339464771989622907027621153398088495.

Definition tick_low (p : Z) : Z := (log14 p * 2 ^ 50 * LOG_FACTOR - LOW_ERROR) / 2 ^ 128.
Definition tick_high (p : Z) : Z := (log14 p * 2 ^ 50 * LOG_FACTOR + HIGH_ERROR) / 2 ^ 128.

Lemma mantissa_source x :
  0 < x < 2 ^ 256 ->
  (if 128 <=? Z.log2 x then Z.shiftr x (Z.log2 x - 127) else wrap 256 (Z.shiftl x (127 - Z.log2 x))) = (mantissa x).1
  /\ 2 ^ 127 <= (mantissa x).1 < 2 ^ 128.
Proof.
  intros Hx. pose proof (mantissa_approx x ltac:(lia)) as [Hm _ _ _]. split; [|done].
  unfold mantissa in *. cbn [fst snd] in *. destruct (Z.leb_spec 128 (Z.log2 x)), (Z.leb_spec 127 (Z.log2 x)); try lia.
  - rewrite Z.shiftr_div_pow2 by lia. done.
  - replace (Z.log2 x) with 127 in * by lia. change (127 - 127) with 0 in *. rewrite Z.shiftl_0_r, wrap_small by (unfold in_range; lia).
    change (2 ^ 0) with 1. by rewrite Z.div_1_r.
  - rewrite Z.shiftl_mul_pow2 by lia. rewrite wrap_small; [done|]. unfold in_range. lia.
Qed.

Definition price_ok (p : Z) : Prop := MIN_SQRT_RATIO <= p < MAX_SQRT_RATIO.

Lemma price_ok_range p : price_ok p -> 2 ^ 32 <= p < 2 ^ 160.
Proof. unfold price_ok. change MIN_SQRT_RATIO with 4295128739. change MAX_SQRT_RATIO with 1461446703485210103287273052203988822378723970342. lia. Qed.

Lemma log14_range p : price_ok p -> - 2 ^ 21 <= log14 p <= 2 ^ 21.
Proof.
  intros Hp. apply price_ok_range in Hp. unfold log14. pose proof (log_prefix 0 14 (p * 2 ^ 32)) as H. cbv zeta in H.
  change (14 + 0)%nat with 14%nat in H. change (2 ^ Z.of_nat 14) with (2 ^ 14) in H.
  change (log_state 0 (p * 2 ^ 32)).2 with (Z.log2 (p * 2 ^ 32)) in H.
  assert (0 <= Z.log2 (p * 2 ^ 32) <= 192) by (split; [apply Z.log2_nonneg|transitivity (Z.log2 (2 ^ 192)); [apply Z.log2_le_mono; lia|vm_compute; discriminate]]).
  lia.
Qed.

(** The ticks are small, so that no shift or product of the source wraps around. *)
Lemma candidates_range p : price_ok p -> - 2 ^ 24 <= tick_low p <= tick_high p /\ tick_high p <= 2 ^ 24.
Proof.
  intros Hp. pose proof (log14_range p Hp). unfold tick_low, tick_high, LOG_FACTOR, LOW_ERROR, HIGH_ERROR. split_and!.
  - apply Z.div_le_lower_bound; lia.
  - apply Z.div_le_mono; lia.
  - apply Z.div_le_upper_bound; lia.
Qed.

Lemma tick_at_candidates p :
  price_ok p ->
  get_tick_at_sqrt_ratio p =
    if tick_low p =? tick_high p then Ok (tick_low p)
    else high_price ← get_sqrt_ratio_at_tick (tick_high p);
         Ok (if high_price <=? p then tick_high p else tick_low p).
Proof.
  intros Hp. pose proof (price_ok_range p Hp) as Hr. pose proof (log14_range p Hp) as HE.
  pose proof (candidates_range p Hp) as Hc. unfold get_tick_at_sqrt_ratio.
  destruct (Z.ltb_spec p MIN_SQRT_RATIO), (Z.leb_spec MAX_SQRT_RATIO p); unfold price_ok in Hp; try lia. cbn [orb].
  rewrite Z.shiftl_mul_pow2, wrap_small by (unfold in_range; lia).
  set (x := p * 2 ^ 32) in *. assert (0 < x < 2 ^ 256) as Hx by lia.
  unfold most_significant_bit, bit_length. destruct (Z.eqb_spec x 0); [lia|]. cbn [mbind result_bind].
  replace (Z.log2 x + 1 - 1) with (Z.log2 x) by lia.
  destruct (mantissa_source x Hx) as [-> Hm].
  assert (0 <= Z.log2 x < 256) as Hl by (split; [apply Z.log2_nonneg|apply Z.log2_lt_pow2; lia]).
  assert (swrap 256 (Z.shiftl (Z.log2 x - 128) 64) = log_2_of 0 (mantissa x).2) as ->.
  { rewrite Z.shiftl_mul_pow2, swrap_small by (unfold in_srange; lia). unfold log_2_of, mantissa. cbn [snd]. lia. }
  change LOG_BITS with (seqZ 0 (Z.of_nat 14)). pose proof (log_loop 14 0 (mantissa x).1 (mantissa x).2 ltac:(lia) ltac:(lia) Hm) as Hloop.
  cbv zeta in Hloop. rewrite Hloop. cbn [mbind result_bind]. rewrite <-surjective_pairing.
  change (Nat.iter 14 square_step (mantissa x)) with (log_state 14 x).
  replace (log_2_of (0 + Z.of_nat 14) (log_state 14 x).2) with (log14 p * 2 ^ 50) by (unfold log14, log_2_of; fold x; lia).
  change (limbs 11745905768312294533 13863 0 0) with LOG_FACTOR.
  change (limbs 6552757943157144234 184476617836266586 0 0) with LOW_ERROR.
  change (limbs 4998474450511881007 15793544031827761793 0 0) with HIGH_ERROR. cbv zeta.
  rewrite (swrap_small 256 (log14 p * 2 ^ 50 * LOG_FACTOR)) by (unfold in_srange, LOG_FACTOR; lia).
  rewrite !(swrap_small 256) by (unfold in_srange, LOG_FACTOR, LOW_ERROR, HIGH_ERROR; lia).
  rewrite !Z.shiftr_div_pow2 by lia. fold (tick_low p) (tick_high p).
  rewrite !(swrap_small 32) by (unfold in_srange; lia). done.
Qed.

(** * Prices between the candidates *)

Definition N : Z := 128 * M.

Lemma price_log14 p :
  price_ok p -> 2 ^ (N + log14 p * 2 ^ 26) <= (p * 2 ^ 32) ^ M < 2 ^ (N + ((log14 p + 1) * 2 ^ 26 + 1)).
Proof.
  intros Hp. apply price_ok_range in Hp. pose proof (log_bounds 40 (p * 2 ^ 32) ltac:(lia) ltac:(lia)) as (H0 & Hlo & Hup).
  pose proof (log_prefix 14 26 (p * 2 ^ 32)) as Hpre. cbv zeta in Hpre. change (26 + 14)%nat with 40%nat in Hpre.
  change (2 ^ Z.of_nat 26) with (2 ^ 26) in Hpre. change (2 ^ Z.of_nat 40) with M in *. unfold log14.
  assert (N = 128 * 2 ^ 14 * 2 ^ 26) as HN by reflexivity. set (F := (log_state 14 (p * 2 ^ 32)).2) in *.
  set (G := (log_state 40 (p * 2 ^ 32)).2) in *. clearbody F G. split.
  - etransitivity; [|exact Hlo]. apply Z.pow_le_mono_r; lia.
  - eapply Z.lt_le_trans; [exact Hup|]. apply Z.pow_le_mono_r; lia.
Qed.

Lemma tick_log t :
  MIN_TICK <= t <= MAX_TICK ->
  exists a b, linear t 3200 a /\ linear t 3200 b /\ log_between (price_of t * 2 ^ 32) a b.
Proof.
  intros Ht. destruct (unrounded_log t Ht) as (Hv & a & b & Ha & Hb & Hlo & Hup). rewrite price_unrounded.
  set (v := unrounded t) in *. clearbody v. pose proof (Z.div_mod (v + (2 ^ 32 - 1)) (2 ^ 32) ltac:(lia)).
  pose proof (Z.mod_pos_bound (v + (2 ^ 32 - 1)) (2 ^ 32) ltac:(lia)). set (q := (v + (2 ^ 32 - 1)) / 2 ^ 32) in *. clearbody q.
  exists a, (b + 1024). split_and!; [unfold linear in *; lia|unfold linear in *; lia|].
  unfold log_between. fold N in *. pose proof (linear_range _ _ _ Hb Ht ltac:(lia)).
  assert (66 * 2 ^ 40 <= N) as HN by (vm_compute; discriminate). split.
  - etransitivity; [exact Hlo|]. apply pow_M_mono; lia.
  - apply (near_upper v); [lia..|exact Hup].
Qed.

Lemma pow2_le a b : 0 <= a -> 0 <= b -> 2 ^ a <= 2 ^ b -> a <= b.
Proof. intros Ha Hb H. apply (Z.pow_le_mono_r_iff 2); lia. Qed.

Lemma pow2_lt a b : 0 <= a -> 0 <= b -> 2 ^ a < 2 ^ b -> a < b.
Proof. intros Ha Hb H. apply (Z.pow_lt_mono_r_iff 2); lia. Qed.

Lemma MIN_TICK_ok : MIN_TICK <= MIN_TICK <= MAX_TICK.
Proof. unfold MIN_TICK, MAX_TICK. lia. Qed.

Lemma MAX_TICK_ok : MIN_TICK <= MAX_TICK <= MAX_TICK.
Proof. unfold MIN_TICK, MAX_TICK. lia. Qed.

Lemma N_large : 2 ^ 47 <= N.
Proof. vm_compute. discriminate. Qed.

(** A price above that of a tick has the greater logarithm. *)
Lemma log14_above p t :
  price_ok p -> MIN_TICK <= t <= MAX_TICK -> price_of t <= p ->
  LAMBDA * t - 2 ^ 24 * 3200 <= 2 ^ 24 * ((log14 p + 1) * 2 ^ 26 + 1).
Proof.
  intros Hp Ht Htp. pose proof (price_log14 p Hp) as [_ Hup]. pose proof (log14_range p Hp) as HE.
  destruct (tick_log t Ht) as (a & b & Ha & _ & Hlo & _). pose proof (price_range t Ht) as Hpr.
  assert (0 < MIN_SQRT_RATIO) by reflexivity.
  assert ((price_of t * 2 ^ 32) ^ M <= (p * 2 ^ 32) ^ M) as Hm by (apply pow_M_mono; lia).
  pose proof (linear_range _ _ _ Ha Ht ltac:(lia)). pose proof N_large. fold N in *. 
  assert (N + a <= N + ((log14 p + 1) * 2 ^ 26 + 1)); [|unfold linear in *; lia].
  apply pow2_le; [lia|lia|]. etransitivity; [exact Hlo|]. etransitivity; [exact Hm|]. by apply Z.lt_le_incl.
Qed.

Lemma log14_below p t :
  price_ok p -> MIN_TICK <= t <= MAX_TICK -> p <= price_of t -> 2 ^ 24 * (log14 p * 2 ^ 26) <= LAMBDA * t + 2 ^ 24 * 3200.
Proof.
  intros Hp Ht Htp. pose proof (price_log14 p Hp) as [Hlo _]. pose proof (log14_range p Hp) as HE.
  destruct (tick_log t Ht) as (a & b & _ & Hb & _ & Hup). pose proof (price_ok_range p Hp).
  assert ((p * 2 ^ 32) ^ M <= (price_of t * 2 ^ 32) ^ M) as Hm by (apply pow_M_mono; lia).
  pose proof (linear_range _ _ _ Hb Ht ltac:(lia)). pose proof N_large. fold N in *.
  assert (N + log14 p * 2 ^ 26 <= N + b); [|unfold linear in *; lia].
  apply pow2_le; [lia|lia|]. etransitivity; [exact Hlo|]. etransitivity; [exact Hm|done].
Qed.

(** The logarithm of an accepted price is between those of the extreme ticks. *)
Lemma log14_ends p :
  price_ok p -> LAMBDA * MIN_TICK - 2 ^ 24 * 3200 <= 2 ^ 24 * ((log14 p + 1) * 2 ^ 26 + 1) /\
  2 ^ 24 * (log14 p * 2 ^ 26) <= LAMBDA * MAX_TICK + 2 ^ 24 * 3200.
Proof.
  intros Hp. destruct price_ends as [E1 E2]. split.
  - apply log14_above; [done|apply MIN_TICK_ok|]. rewrite E1. apply Hp.
  - apply log14_below; [done|apply MAX_TICK_ok|]. rewrite E2. apply Z.lt_le_incl, Hp.
Qed.

Lemma candidates p :
  price_ok p ->
  MIN_TICK - 1 <= tick_low p /\ MIN_TICK <= tick_high p <= MAX_TICK /\ tick_high p <= tick_low p + 1.
Proof.
  intros Hp. destruct (log14_ends p Hp) as [H1 H2]. unfold tick_low, tick_high, LAMBDA, MIN_TICK, MAX_TICK in *.
  pose proof (Z.div_mod (log14 p * 2 ^ 50 * LOG_FACTOR - LOW_ERROR) (2 ^ 128) ltac:(lia)).
  pose proof (Z.mod_pos_bound (log14 p * 2 ^ 50 * LOG_FACTOR - LOW_ERROR) (2 ^ 128) ltac:(lia)).
  pose proof (Z.div_mod (log14 p * 2 ^ 50 * LOG_FACTOR + HIGH_ERROR) (2 ^ 128) ltac:(lia)).
  pose proof (Z.mod_pos_bound (log14 p * 2 ^ 50 * LOG_FACTOR + HIGH_ERROR) (2 ^ 128) ltac:(lia)).
  unfold LOG_FACTOR, LOW_ERROR, HIGH_ERROR in *. set (E := log14 p) in *. clearbody E. lia.
Qed.

Lemma low_price p t : price_ok p -> MIN_TICK <= t <= MAX_TICK -> t <= tick_low p -> price_of t <= p.
Proof.
  intros Hp Ht Hlow. destruct (tick_log t Ht) as (a & b & Ha & Hb & Hlo' & Hup'). pose proof (price_log14 p Hp) as [Hlo _].
  pose proof (log14_range p Hp). pose proof (price_range t Ht) as Hpr. apply price_ok_range in Hp.
  enough (price_of t * 2 ^ 32 <= p * 2 ^ 32) by lia.
  assert (0 < MIN_SQRT_RATIO) by (vm_compute; reflexivity). apply pow_M_le; [lia| |lia].
  etransitivity; [exact Hup'|]. etransitivity; [|exact Hlo]. fold N. apply Z.pow_le_mono_r; [lia|].
  unfold tick_low, linear, LAMBDA, LOG_FACTOR, LOW_ERROR, MIN_TICK, MAX_TICK in *.
  pose proof (Z.mul_div_le (log14 p * 2 ^ 50 * 255738958999603826347141 - 3402992956809132418596140100660247210) (2 ^ 128) ltac:(lia)).
  set (q := _ / 2 ^ 128) in *. clearbody q. set (E := log14 p) in *. clearbody E. lia.
Qed.

Lemma high_price p t : price_ok p -> MIN_TICK <= t <= MAX_TICK -> tick_high p < t -> p < price_of t.
Proof.
  intros Hp Ht Hhigh. destruct (tick_log t Ht) as (a & b & Ha & Hb & Hlo' & Hup'). pose proof (price_log14 p Hp) as [_ Hup].
  pose proof (log14_range p Hp). pose proof (price_range t Ht) as Hpr. apply price_ok_range in Hp.
  enough (p * 2 ^ 32 < price_of t * 2 ^ 32) by lia.
  assert (0 < MIN_SQRT_RATIO) by (vm_compute; reflexivity). apply pow_M_lt; [lia| |lia].
  eapply Z.lt_le_trans; [exact Hup|]. etransitivity; [|exact Hlo']. fold N. apply Z.pow_le_mono_r; [lia|].
  unfold tick_high, linear, LAMBDA, LOG_FACTOR, HIGH_ERROR, MIN_TICK, MAX_TICK in *.
  pose proof (Z.mul_succ_div_gt (log14 p * 2 ^ 50 * 255738958999603826347141 + 291339464771989622907027621153398088495) (2 ^ 128) ltac:(lia)).
  set (q := _ / 2 ^ 128) in *. clearbody q. set (E := log14 p) in *. clearbody E. lia.
Qed.

(** The tick of a price: the last one whose price does not exceed it. *)
Lemma tick_at_price p :
  price_ok p -> exists t, get_tick_at_sqrt_ratio p = Ok t /\ MIN_TICK <= t < MAX_TICK /\ price_of t <= p < price_of (t + 1).
Proof.
  intros Hp. rewrite tick_at_candidates by done. destruct (candidates p Hp) as (Hl & Hh & Hlh).
  pose proof (low_price p) as HL. pose proof (high_price p) as HH. destruct price_ends as [E1 E2].
  assert (tick_low p <= tick_high p) by (pose proof (candidates_range p Hp); lia).
  destruct (Z.eqb_spec (tick_low p) (tick_high p)) as [He|Hne].
  - exists (tick_low p). split; [done|].
    assert (tick_low p <> MAX_TICK).
    { intros Hm. specialize (HL MAX_TICK Hp MAX_TICK_ok ltac:(lia)). unfold price_ok in Hp. lia. }
    split_and!; [lia..|apply HL; [done|lia..]|apply HH; [done|lia..]].
  - rewrite sqrt_ratio_value by done. cbn [mbind result_bind].
    destruct (Z.leb_spec (price_of (tick_high p)) p) as [Hle|Hgt].
    + exists (tick_high p). split; [done|].
      assert (tick_high p <> MAX_TICK) by (intros Hm; rewrite Hm in Hle; unfold price_ok in Hp; lia).
      split_and!; [lia..|apply HH; [done|lia..]].
    + exists (tick_low p). split; [done|].
      assert (tick_high p <> MIN_TICK) by (intros Hm; rewrite Hm in Hgt; unfold price_ok in Hp; lia).
      split_and!; [lia..|apply HL; [done|lia..]|]. by replace (tick_low p + 1) with (tick_high p) by lia.
Qed.

Lemma tick_of_own_price t : MIN_TICK <= t < MAX_TICK -> get_tick_at_sqrt_ratio (price_of t) = Ok t.
Proof.
  intros Ht. pose proof (price_range t ltac:(lia)) as Hr. destruct price_ends as [_ E2].
  assert (price_ok (price_of t)) as Hp.
  { split; [lia|]. rewrite <-E2. apply price_increasing; lia. }
  destruct (tick_at_price _ Hp) as (u & -> & Hu & Hle & Hlt). f_equal.
  destruct (Z.lt_trichotomy t u) as [H|[H|H]]; [|done|].
  - pose proof (price_increasing t u ltac:(lia) ltac:(lia)). lia.
  - destruct (decide (u + 1 = t)) as [<-|]; [lia|]. pose proof (price_increasing (u + 1) t ltac:(lia) ltac:(lia)). lia.
Qed.

(** C12. [get_tick_at_sqrt_ratio] inverts [get_sqrt_ratio_at_tick].  It answers every price from
    [MIN_SQRT_RATIO] up to, not including, [MAX_SQRT_RATIO] with the one tick whose price is the
    last not above it, although it computes only fourteen fractional bits of a logarithm; it
    refuses every other price; and the price of a tick gives the tick back. *)
Theorem tick_of_price_correct (p : Z) :
  if decide (MIN_SQRT_RATIO <= p < MAX_SQRT_RATIO) then
    exists t below above, get_tick_at_sqrt_ratio p = Ok t /\ MIN_TICK <= t < MAX_TICK /\
      get_sqrt_ratio_at_tick t = Ok below /\ get_sqrt_ratio_at_tick (t + 1) = Ok above /\
      below <= p < above /\ get_tick_at_sqrt_ratio below = Ok t
  else exists msg, get_tick_at_sqrt_ratio p = Err (FatalError msg).
Proof.
  case_decide as Hp.
  - destruct (tick_at_price p Hp) as (t & Hget & Ht & Hb). exists t, (price_of t), (price_of (t + 1)).
    rewrite !sqrt_ratio_value, tick_of_own_price by lia. done.
  - unfold get_tick_at_sqrt_ratio. destruct (Z.ltb_spec p MIN_SQRT_RATIO), (Z.leb_spec MAX_SQRT_RATIO p); cbn [orb]; [by eexists..|].
    lia.
Qed.
