(* ===== verification/TickList.v ===== *)
(** The ordered list of the initialized ticks of a pool:
    [tycho_simulation::evm::protocol::utils::uniswap::tick_list].

    Indices are [i32] and liquidity is [i128]; operators on them wrap. *)

From S2P Require Import Prelude SafeMath TickMath.

Open Scope Z_scope.

Module TickInfo.
Record t := mk { index : Z; net_liquidity : Z; sqrt_price : Z }.
#[global] Instance eq_dec : EqDecision t.
Proof. solve_decision. Defined.

Definition new (index net_liquidity : Z) : result SimulationError t :=
  sqrt_price ← get_sqrt_ratio_at_tick index;
  Ok (mk index net_liquidity sqrt_price).
End TickInfo.

Inductive TickListErrorKind := NotFound | BelowSmallest | AtOrAboveLargest | TicksExeeded.
#[global] Instance tick_list_error_eq_dec : EqDecision TickListErrorKind.
Proof. solve_decision. Defined.

(** * [slice::binary_search_by] on the index of a tick

    The standard library halves the part from [base] of length [size] until one element is
    left.  [Ok] is the position of a match, [Err] the position where the key belongs. *)
Fixpoint search_loop (fuel : nat) (key : Z) (l : list TickInfo.t) (base size : nat) : nat :=
  match fuel with
  | O => base
  | S fuel' =>
      if (size <=? 1)%nat then base
      else
        let half := Nat.div2 size in
        let mid := (base + half)%nat in
        let base' :=
          match l !! mid with
          | Some t => if key <? TickInfo.index t then base else mid
          | None => base
          end in
        search_loop fuel' key l base' (size - half)
  end.

Definition binary_search (key : Z) (l : list TickInfo.t) : result nat nat :=
  let base := search_loop (length l) key l 0 (length l) in
  match l !! base with
  | None => Err O
  | Some t =>
      match TickInfo.index t ?= key with
      | Eq => Ok base
      | Lt => Err (S base)
      | Gt => Err base
      end
  end.

(** [Vec::insert]. *)
Definition vec_insert {A} (i : nat) (x : A) (l : list A) : list A := take i l ++ x :: drop i l.

Definition div_floor {E} (lhs rhs : Z) : result E Z :=
  if rhs =? 0 then Panic
  else
    let d := Z.quot lhs rhs in
    let r := Z.rem lhs rhs in
    Ok (if ((0 <? r) && (rhs <? 0)) || ((r <? 0) && (0 <? rhs)) then d - 1 else d).

Module TickList.
Record t := mk { tick_spacing : Z; ticks : list TickInfo.t }.
#[global] Instance eq_dec : EqDecision t.
Proof. solve_decision. Defined.

Definition set_ticks (ticks : list TickInfo.t) (self : t) : t := mk (tick_spacing self) ticks.

(** [for i in 0..len - 1 { if ticks[i] > ticks[i + 1] { return Err } }] *)
Fixpoint ordered (l : list TickInfo.t) : result SimulationError unit :=
  match l with
  | t :: (u :: _) as l' =>
      if TickInfo.index u <? TickInfo.index t then Err (FatalError "Ticks are not ordered") else ordered l'
  | _ => Ok tt
  end.

Definition valid_ticks (self : t) : result SimulationError unit :=
  if tick_spacing self =? 0 then Err (FatalError "Tick spacing is 0")
  else
    _ ← try_fold (fun _ t =>
          if negb (Z.rem (TickInfo.index t) (tick_spacing self) =? 0)
          then Err (FatalError "Tick index not aligned with tick spacing") else Ok tt) tt (ticks self);
    ordered (ticks self).

Definition from (spacing : Z) (ticks : list TickInfo.t) : result SimulationError t :=
  let tick_list := mk spacing ticks in
  _ ← valid_ticks tick_list;
  Ok tick_list.

(** The common part of [upsert_tick] and [set_tick_liquidity]: [f] gives the new liquidity
    of an existing tick, [liquidity] is that of a new one. *)
Definition put_tick (tick : Z) (f : Z → Z) (liquidity : Z) : stm t SimulationError unit := fun self =>
  match binary_search tick (ticks self) with
  | Ok existing_idx =>
      match ticks self !! existing_idx with
      | None => (Panic, self)
      | Some info =>
          let info' := TickInfo.mk (TickInfo.index info) (f (TickInfo.net_liquidity info)) (TickInfo.sqrt_price info) in
          if TickInfo.net_liquidity info' =? 0
          then (Ok tt, set_ticks (delete existing_idx (ticks self)) self)
          else (Ok tt, set_ticks (<[existing_idx := info']> (ticks self)) self)
      end
  | Err insert_idx =>
      match TickInfo.new tick liquidity with
      | Ok info => (Ok tt, set_ticks (vec_insert insert_idx info (ticks self)) self)
      | Err e => (Err e, self)
      | Panic => (Panic, self)
      end
  | Panic => (Panic, self)
  end.

Definition upsert_tick (tick delta : Z) : stm t SimulationError unit :=
  put_tick tick (fun net_liquidity => swrap 128 (net_liquidity + delta)) delta.

Definition set_tick_liquidity (tick liquidity : Z) : stm t SimulationError unit :=
  put_tick tick (fun _ => liquidity) liquidity.

Open Scope tycho_scope.
Definition apply_liquidity_change (lower upper delta : Z) : stm t SimulationError unit :=
  upsert_tick lower delta ;? upsert_tick upper (swrap 128 (- delta)) ;? st_ret tt.
Close Scope tycho_scope.

(** Indexing an empty list unwinds. *)
Definition smallest {E} (self : t) : result E TickInfo.t := unwrap (head (ticks self)).
Definition largest {E} (self : t) : result E TickInfo.t := unwrap (last (ticks self)).

Definition is_below_smallest {E} (tick : Z) (self : t) : result E bool :=
  s ← smallest self; Ok (tick <? TickInfo.index s).
Definition is_below_safe_tick {E} (tick : Z) (self : t) : result E bool :=
  s ← smallest self;
  let minimum := swrap 32 (TickInfo.index s - tick_spacing self) in
  Ok ((tick <? minimum) || (tick <? MIN_TICK)).
Definition is_at_or_above_largest {E} (tick : Z) (self : t) : result E bool :=
  s ← largest self; Ok (TickInfo.index s <=? tick).
Definition is_at_or_above_safe_tick {E} (tick : Z) (self : t) : result E bool :=
  s ← largest self;
  let maximum := swrap 32 (TickInfo.index s + tick_spacing self) in
  Ok ((maximum <=? tick) || (MAX_TICK <=? tick)).

Definition get_tick (index : Z) (self : t) : result TickListErrorKind TickInfo.t :=
  match binary_search index (ticks self) with
  | Ok idx => unwrap (ticks self !! idx)
  | Err _ => Err NotFound
  | Panic => Panic
  end.

Definition has_initialized_ticks (self : t) : bool :=
  existsb (fun t => negb (TickInfo.net_liquidity t =? 0)) (ticks self).

Definition next_initialized_tick (index : Z) (lte : bool) (self : t) : result TickListErrorKind TickInfo.t :=
  if lte then
    below ← is_below_smallest index self;
    if (below : bool) then Err BelowSmallest
    else
      above ← is_at_or_above_largest index self;
      if (above : bool) then largest self
      else
        match binary_search index (ticks self) with
        | Ok idx => unwrap (ticks self !! idx)
        | Err idx => unwrap (ticks self !! (idx - 1)%nat)
        | Panic => Panic
        end
  else
    above ← is_at_or_above_largest index self;
    if (above : bool) then Err AtOrAboveLargest
    else
      below ← is_below_smallest index self;
      if (below : bool) then smallest self
      else
        match binary_search index (ticks self) with
        | Ok idx => unwrap (ticks self !! (idx + 1)%nat)
        | Err idx => unwrap (ticks self !! idx)
        | Panic => Panic
        end.

Definition next_initialized_tick_within_one_word (tick : Z) (lte : bool) (self : t) :
    result TickListErrorKind (Z * bool) :=
  let spacing := tick_spacing self in
  compressed ← div_floor tick spacing;
  if lte then
    let word_pos := Z.shiftr compressed 8 in
    let min_in_word := swrap 32 (swrap 32 (Z.shiftl word_pos 8) * spacing) in
    exceeded ← is_below_safe_tick tick self;
    if (exceeded : bool) then Err TicksExeeded
    else
      below ← is_below_smallest tick self;
      if (below : bool) then
        s ← smallest self;
        Ok (Z.max (swrap 32 (TickInfo.index s - spacing)) min_in_word, false)
      else
        info ← next_initialized_tick tick lte self;
        let idx := TickInfo.index info in
        let next_tick_idx := Z.max idx min_in_word in
        Ok (next_tick_idx, next_tick_idx =? idx)
  else
    let word_pos := Z.shiftr (swrap 32 (compressed + 1)) 8 in
    let max_in_word := swrap 32 ((swrap 32 (Z.shiftl (word_pos + 1) 8) - 1) * spacing) in
    exceeded ← is_at_or_above_safe_tick tick self;
    if (exceeded : bool) then Err TicksExeeded
    else
      above ← is_at_or_above_largest tick self;
      if (above : bool) then
        s ← largest self;
        Ok (Z.min (swrap 32 (TickInfo.index s + spacing)) max_in_word, false)
      else
        info ← next_initialized_tick tick lte self;
        let idx := TickInfo.index info in
        let next_tick_idx := Z.min max_in_word idx in
        Ok (next_tick_idx, next_tick_idx =? idx).
End TickList.
