(* ===== verification/TickListSpec.v ===== *)
(** What the tick list guarantees: the binary search finds a tick or the place where it
    belongs, updates keep the list strictly ordered and change one tick, and the search for
    the next tick within a word returns the nearest initialized tick or the end of the word. *)

From S2P Require Import Prelude SafeMath TickMath TickMathSpec TickList.

Open Scope Z_scope.

Abbreviation ordered_ticks l := (increasing TickInfo.index l).

(** * Ordered lists *)

Lemma ordered_lookup_lt l i j t u :
  ordered_ticks l -> (i < j)%nat -> l !! i = Some t -> l !! j = Some u -> TickInfo.index t < TickInfo.index u.
Proof.
  intros Hl Hij Hi Hj. rewrite <-(take_drop j l) in Hl. apply increasing_app in Hl as (_ & _ & Hlt).
  apply Hlt.
  - apply (list_elem_of_lookup_2 _ i). by rewrite lookup_take_lt.
  - apply (list_elem_of_lookup_2 _ 0). by rewrite lookup_drop, Nat.add_0_r.
Qed.

Lemma ordered_index_inj l t u :
  ordered_ticks l -> t ∈ l -> u ∈ l -> TickInfo.index t = TickInfo.index u -> t = u.
Proof.
  intros Hl (i & Hi)%list_elem_of_lookup (j & Hj)%list_elem_of_lookup He.
  destruct (Nat.lt_trichotomy i j) as [Hlt|[->|Hlt]]; [|congruence|].
  - pose proof (ordered_lookup_lt _ _ _ _ _ Hl Hlt Hi Hj). lia.
  - pose proof (ordered_lookup_lt _ _ _ _ _ Hl Hlt Hj Hi). lia.
Qed.

(** * Binary search *)

(** The part searched: nothing before [base] and nothing from [base + size] on can match,
    and the tick at [base] is not above the key unless the part starts the list. *)
Definition search_inv (key : Z) (l : list TickInfo.t) (base size : nat) : Prop :=
  (base + size <= length l)%nat /\ (1 <= size)%nat /\
  (base = O \/ exists t, l !! base = Some t /\ TickInfo.index t <= key) /\
  (forall j t, (base + size <= j)%nat -> l !! j = Some t -> key < TickInfo.index t).

Lemma search_loop_inv key l fuel base size :
  ordered_ticks l -> (size <= fuel)%nat -> search_inv key l base size ->
  search_inv key l (search_loop fuel key l base size) 1.
Proof.
  intros Hl. revert base size. induction fuel as [|fuel IH]; intros base size Hf (Hb & Hs & Hlo & Hhi); [lia|].
  cbn [search_loop]. destruct (Nat.leb_spec size 1) as [Hle|Hgt].
  { replace size with 1%nat in * by lia. by split_and!. }
  pose proof (Nat.div2_odd size) as Hh. pose proof (Nat.b2n_le_1 (Nat.odd size)).
  set (half := Nat.div2 size) in *. destruct (l !! (base + half)%nat) as [t|] eqn:Ht.
  2: { apply lookup_ge_None in Ht. lia. }
  apply IH; [lia|]. destruct (Z.ltb_spec key (TickInfo.index t)) as [Hk|Hk].
  - split_and!; [lia|lia|done|]. intros j u Hj Hu. destruct (decide (base + half = j)%nat) as [<-|Hne].
    + rewrite Ht in Hu. congruence.
    + pose proof (ordered_lookup_lt l (base + half) j t u Hl ltac:(lia) Ht Hu). lia.
  - split_and!; [lia|lia|right; eauto|]. intros j u Hj Hu. apply (Hhi j u); [lia|done].
Qed.

(** A match is at its position; otherwise the ticks below the key are those before it. *)
Lemma binary_search_spec key l :
  ordered_ticks l ->
  match binary_search key l with
  | Ok i => exists t, l !! i = Some t /\ TickInfo.index t = key
  | Err i => (i <= length l)%nat /\
      (forall j t, l !! j = Some t -> TickInfo.index t < key /\ (j < i)%nat \/ key < TickInfo.index t /\ (i <= j)%nat)
  | Panic => False
  end.
Proof.
  intros Hl. unfold binary_search. destruct l as [|t0 l0] eqn:El.
  { cbn. split; [lia|]. intros j t Hj. by rewrite lookup_nil in Hj. }
  rewrite <-El in *. assert (1 <= length l)%nat by (rewrite El; simpl; lia).
  destruct (search_loop_inv key l (length l) 0 (length l) Hl) as (Hb & _ & Hlo & Hhi); [lia| |].
  { split_and!; [lia|lia|by left|]. intros j t Hj Ht. apply lookup_lt_Some in Ht. lia. }
  set (base := search_loop _ _ _ _ _) in *. destruct (l !! base) as [t|] eqn:Ht.
  2: { apply lookup_ge_None in Ht. lia. }
  assert (forall j u, l !! j = Some u -> (j < base)%nat -> TickInfo.index u < TickInfo.index t) as Hbelow
    by (intros; by eapply ordered_lookup_lt).
  destruct (Z.compare_spec (TickInfo.index t) key) as [He|Hlt|Hgt]; [by eauto| |].
  - split; [lia|]. intros j u Hu. destruct (Nat.lt_trichotomy j base) as [Hj|[->|Hj]].
    + left. pose proof (Hbelow j u Hu Hj). lia.
    + left. rewrite Ht in Hu. injection Hu as <-. lia.
    + right. pose proof (Hhi j u ltac:(lia) Hu). lia.
  - destruct Hlo as [Hz|(t' & Ht' & Hle)]; [|assert (t' = t) as -> by congruence; lia].
    split; [lia|]. intros j u Hu. right. split; [|lia]. destruct (decide (j = base)) as [->|Hj].
    + rewrite Ht in Hu. by injection Hu as <-.
    + apply (Hhi j u); [lia|done].
Qed.

(** * The list as a map *)

(** The net liquidity recorded at an index. *)
Definition net_at (k : Z) (l : list TickInfo.t) : option Z :=
  TickInfo.net_liquidity <$> List.find (fun t => TickInfo.index t =? k) l.

Lemma net_at_app k l1 l2 :
  net_at k (l1 ++ l2) = match net_at k l1 with Some n => Some n | None => net_at k l2 end.
Proof.
  unfold net_at. induction l1 as [|t l1 IH]; simpl; [done|]. destruct (TickInfo.index t =? k); [done|apply IH].
Qed.

Lemma net_at_cons k t l :
  net_at k (t :: l) = if TickInfo.index t =? k then Some (TickInfo.net_liquidity t) else net_at k l.
Proof. unfold net_at. simpl. by destruct (_ =? _). Qed.

Lemma net_at_absent k l : (forall t, t ∈ l -> TickInfo.index t <> k) -> net_at k l = None.
Proof.
  induction l as [|t l IH]; intros H; [done|]. rewrite net_at_cons.
  destruct (Z.eqb_spec (TickInfo.index t) k) as [He|_]; [by destruct (H t ltac:(left))|].
  apply IH. intros; apply H. by right.
Qed.

Lemma net_at_is_Some k l : is_Some (net_at k l) <-> exists t, t ∈ l /\ TickInfo.index t = k.
Proof.
  induction l as [|t l IH].
  - split; [intros [? ?]; done|]. intros (t & Ht & _). by apply elem_of_nil in Ht.
  - rewrite net_at_cons. destruct (Z.eqb_spec (TickInfo.index t) k) as [He|He].
    + split; [|done]. intros _. exists t. split; [left|done].
    + rewrite IH. split; intros (u & Hu & Hk); exists u; (split; [|done]).
      * by right.
      * by apply elem_of_cons in Hu as [->|?].
Qed.

(** A position splits an ordered list into the ticks below and above. *)
Lemma ordered_middle l1 t l2 :
  ordered_ticks (l1 ++ t :: l2) ->
  ordered_ticks (l1 ++ l2) /\ (forall u, u ∈ l1 ++ l2 -> TickInfo.index u <> TickInfo.index t) /\
  (forall t', TickInfo.index t' = TickInfo.index t -> ordered_ticks (l1 ++ t' :: l2)).
Proof.
  intros (H1 & H2 & H12)%increasing_app. apply StronglySorted_inv in H2 as [H2 Ht]. rewrite Forall_forall in Ht.
  assert (forall t', TickInfo.index t' = TickInfo.index t -> increasing TickInfo.index (t' :: l2)).
  { intros t' Ht'. constructor; [done|]. apply Forall_forall. intros u Hu. rewrite Ht'. by apply Ht. }
  split_and!.
  - apply increasing_app. split_and!; [done|done|]. intros a b Ha Hb. apply H12; [done|by right].
  - intros u [Hu|Hu]%elem_of_app; [specialize (H12 u t Hu ltac:(left)); lia|specialize (Ht u Hu); lia].
  - intros t' Ht'. apply increasing_app. split_and!; [done|by auto|].
    intros a b Ha [->|Hb]%elem_of_cons; [rewrite Ht'; apply H12; [done|by left]|apply H12; [done|by right]].
Qed.

Lemma ordered_insert l i t :
  ordered_ticks l ->
  (forall j u, l !! j = Some u ->
    TickInfo.index u < TickInfo.index t /\ (j < i)%nat \/ TickInfo.index t < TickInfo.index u /\ (i <= j)%nat) ->
  ordered_ticks (vec_insert i t l) /\ (forall u, u ∈ l -> TickInfo.index u <> TickInfo.index t).
Proof.
  intros Hl Hi. unfold vec_insert. split.
  - rewrite <-(take_drop i l) in Hl. apply increasing_app in Hl as (H1 & H2 & H12).
    assert (forall u, u ∈ drop i l -> TickInfo.index t < TickInfo.index u) as Hd.
    { intros u (j & Hj)%list_elem_of_lookup. rewrite lookup_drop in Hj. destruct (Hi _ _ Hj); lia. }
    assert (forall u, u ∈ take i l -> TickInfo.index u < TickInfo.index t) as Hb.
    { intros u (j & [Hj ?]%lookup_take_Some)%list_elem_of_lookup. destruct (Hi _ _ Hj); lia. }
    apply increasing_app. split_and!; [done| |].
    + constructor; [done|]. by apply Forall_forall.
    + intros a b Ha [->|Hb']%elem_of_cons; [by apply Hb|by apply H12].
  - intros u (j & Hj)%list_elem_of_lookup. destruct (Hi _ _ Hj); lia.
Qed.

(** Replacing one tick changes the map at its index only. *)
Lemma net_at_middle k l1 t l2 :
  (forall u, u ∈ l1 ++ l2 -> TickInfo.index u <> TickInfo.index t) ->
  net_at k (l1 ++ t :: l2) =
    if decide (k = TickInfo.index t) then Some (TickInfo.net_liquidity t) else net_at k (l1 ++ l2).
Proof.
  intros Hne. rewrite !net_at_app, net_at_cons. case_decide as Hk.
  - subst k. rewrite Z.eqb_refl, net_at_absent; [done|]. intros u Hu. apply Hne. apply elem_of_app. by left.
  - by destruct (Z.eqb_spec (TickInfo.index t) k) as [He|_]; [congruence|].
Qed.

(** What [put_tick] leaves. *)
Lemma put_tick_spec tick f liquidity self :
  ordered_ticks (TickList.ticks self) ->
  match TickList.put_tick tick f liquidity self with
  | (Ok _, self') =>
      ordered_ticks (TickList.ticks self') /\ TickList.tick_spacing self' = TickList.tick_spacing self /\
      forall k, net_at k (TickList.ticks self') =
        if decide (k = tick) then
          match net_at tick (TickList.ticks self) with
          | Some n => if f n =? 0 then None else Some (f n)
          | None => Some liquidity
          end
        else net_at k (TickList.ticks self)
  | (Err e, self') =>
      self' = self /\ net_at tick (TickList.ticks self) = None /\ get_sqrt_ratio_at_tick tick = Err e
  | (Panic, self') =>
      self' = self /\ net_at tick (TickList.ticks self) = None /\ get_sqrt_ratio_at_tick tick = Panic
  end.
Proof.
  intros Hl. unfold TickList.put_tick. pose proof (binary_search_spec tick _ Hl) as Hs.
  destruct (binary_search tick _) as [i|i|]; [| |done].
  - destruct Hs as (t & Ht & Hk). rewrite Ht. pose proof (take_drop_middle _ _ _ Ht) as Hsp.
    set (l1 := take i (TickList.ticks self)) in *. set (l2 := drop (S i) (TickList.ticks self)) in *.
    rewrite <-Hsp in Hl. destruct (ordered_middle _ _ _ Hl) as (Hd & Hne & Hr). subst tick.
    assert (net_at (TickInfo.index t) (l1 ++ t :: l2) = Some (TickInfo.net_liquidity t)) as Hat
      by (rewrite net_at_middle by done; by rewrite decide_True).
    cbn [TickInfo.net_liquidity]. destruct (Z.eqb_spec (f (TickInfo.net_liquidity t)) 0) as [Hz|Hz].
    + cbn [TickList.set_ticks TickList.ticks TickList.tick_spacing]. rewrite delete_take_drop. fold l1 l2.
      split_and!; [done|done|]. intros k. rewrite <-Hsp, Hat. case_decide as Hk.
      * subst k. rewrite (proj2 (Z.eqb_eq _ _) Hz). by apply net_at_absent.
      * rewrite net_at_middle by done. by rewrite decide_False.
    + cbn [TickList.set_ticks TickList.ticks TickList.tick_spacing].
      rewrite insert_take_drop by (by eapply lookup_lt_Some). fold l1 l2.
      split_and!; [by apply Hr|done|]. intros k. rewrite <-Hsp, Hat, !net_at_middle by done.
      cbn [TickInfo.index TickInfo.net_liquidity]. case_decide; [|done]. by rewrite (proj2 (Z.eqb_neq _ _) Hz).
  - destruct Hs as [_ Hs]. pose proof (ordered_insert _ _ (TickInfo.mk tick 0 0) Hl Hs) as [_ Hne].
    cbn [TickInfo.index] in Hne. pose proof (net_at_absent _ _ Hne) as Habs.
    unfold TickInfo.new. destruct (get_sqrt_ratio_at_tick tick) as [p|e|]; cbn [mbind result_bind]; [|done|done].
    destruct (ordered_insert _ _ (TickInfo.mk tick liquidity p) Hl Hs) as [Ho _].
    cbn [TickList.set_ticks TickList.ticks TickList.tick_spacing]. split_and!; [done|done|]. intros k.
    unfold vec_insert. rewrite net_at_middle; rewrite take_drop; [|done]. by rewrite Habs.
Qed.

(** Setting the liquidity of a tick keeps the list strictly ordered and changes the
    liquidity recorded at this tick only: an existing tick is overwritten, or removed when
    its liquidity becomes zero; a new tick is recorded with whatever liquidity is given, zero
    included.  It fails exactly for a new tick outside the valid range, and then changes
    nothing. *)
Theorem set_tick_liquidity_updates (tick liquidity : Z) (self : TickList.t)
    (Hord : ordered_ticks (TickList.ticks self)) (Htick : in_srange 32 tick) (Hmin : tick <> - 2 ^ 31) :
  let at_tick := net_at tick (TickList.ticks self) in
  match TickList.set_tick_liquidity tick liquidity self with
  | (Ok _, self') =>
      ordered_ticks (TickList.ticks self') /\ TickList.tick_spacing self' = TickList.tick_spacing self /\
      forall k, net_at k (TickList.ticks self') =
        if decide (k = tick) then
          if decide (is_Some at_tick /\ liquidity = 0) then None else Some liquidity
        else net_at k (TickList.ticks self)
  | (Err _, self') => self' = self /\ at_tick = None /\ ~ MIN_TICK <= tick <= MAX_TICK
  | (Panic, _) => False
  end.
Proof.
  pose proof (put_tick_spec tick (fun _ => liquidity) liquidity self Hord) as Hp. cbv zeta.
  unfold TickList.set_tick_liquidity. destruct (TickList.put_tick _ _ _ _) as [[u|e|] self'].
  - destruct Hp as (Ho & Hsp & Hat). split_and!; [done|done|]. intros k. rewrite Hat. case_decide; [|done].
    destruct (net_at tick _) as [n|]; [|by rewrite decide_False by (intros [[] _]; done)].
    destruct (Z.eqb_spec liquidity 0); [rewrite decide_True by eauto|rewrite decide_False by naive_solver]; done.
  - destruct Hp as (-> & Hn & He). rewrite sqrt_ratio_total in He by done. by case_decide.
  - destruct Hp as (_ & _ & He). rewrite sqrt_ratio_total in He by done. by case_decide.
Qed.

(** * The next tick *)

(** A non-empty list as pools have it. *)
Record ticks_ok (self : TickList.t) : Prop := {
  ok_spacing : 0 < TickList.tick_spacing self < 2 ^ 16;
  ok_ordered : ordered_ticks (TickList.ticks self);
  ok_range : Forall (fun t => MIN_TICK <= TickInfo.index t <= MAX_TICK) (TickList.ticks self);
  ok_nonempty : TickList.ticks self <> []
}.

Lemma smallest_spec {E} self :
  ticks_ok self ->
  exists s, TickList.smallest (E := E) self = Ok s /\ s ∈ TickList.ticks self /\
    MIN_TICK <= TickInfo.index s <= MAX_TICK /\
    forall u, u ∈ TickList.ticks self -> TickInfo.index s <= TickInfo.index u.
Proof.
  intros [_ Ho Hr Hn]. unfold TickList.smallest. destruct (TickList.ticks self) as [|t l]; [done|].
  exists t. rewrite Forall_cons in Hr. split_and!; [done|left|lia|lia|]. intros u [->|Hu]%elem_of_cons; [lia|].
  apply StronglySorted_inv in Ho as [_ Ho]. rewrite Forall_forall in Ho. specialize (Ho u Hu). lia.
Qed.

Lemma largest_spec {E} self :
  ticks_ok self ->
  exists s, TickList.largest (E := E) self = Ok s /\ s ∈ TickList.ticks self /\
    MIN_TICK <= TickInfo.index s <= MAX_TICK /\
    forall u, u ∈ TickList.ticks self -> TickInfo.index u <= TickInfo.index s.
Proof.
  intros [_ Ho Hr Hn]. unfold TickList.largest.
  destruct (last (TickList.ticks self)) as [t|] eqn:Hl; [|by apply last_None in Hl].
  apply last_Some in Hl as [l Hl]. rewrite Hl in *. rewrite Forall_app, Forall_singleton in Hr.
  exists t. split_and!; [done|apply elem_of_app; right; left|lia|lia|].
  apply increasing_app in Ho as (_ & _ & Ho). intros u [Hu|Hu]%elem_of_app.
  - specialize (Ho u t Hu ltac:(left)). lia.
  - apply list_elem_of_singleton in Hu as ->. lia.
Qed.

Lemma next_tick_lte self tick :
  ticks_ok self -> TickList.is_below_smallest (E := TickListErrorKind) tick self = Ok false ->
  exists info, TickList.next_initialized_tick tick true self = Ok info /\ info ∈ TickList.ticks self /\
    TickInfo.index info <= tick /\
    forall u, u ∈ TickList.ticks self -> TickInfo.index u <= tick -> TickInfo.index u <= TickInfo.index info.
Proof.
  intros Hok Hb. destruct (smallest_spec (E := TickListErrorKind) self Hok) as (s & Hs & Hsin & _ & Hsle).
  destruct (largest_spec (E := TickListErrorKind) self Hok) as (m & Hm & Hmin & _ & Hmle).
  unfold TickList.next_initialized_tick. rewrite Hb. cbn [mbind result_bind].
  unfold TickList.is_below_smallest in Hb. rewrite Hs in Hb. cbn in Hb. injection Hb as Hb. apply Z.ltb_ge in Hb.
  unfold TickList.is_at_or_above_largest. rewrite Hm. cbn [mbind result_bind].
  destruct (Z.leb_spec (TickInfo.index m) tick) as [Hle|Hgt].
  { exists m. split_and!; [done|done|lia|]. intros u Hu _. by apply Hmle. }
  pose proof (binary_search_spec tick _ (ok_ordered _ Hok)) as Hbs.
  destruct (binary_search tick _) as [i|i|]; [| |done].
  - destruct Hbs as (t & Ht & <-). rewrite Ht. exists t.
    split_and!; [done|by eapply list_elem_of_lookup_2|lia|]. intros; lia.
  - destruct Hbs as [Hi Hbs]. apply list_elem_of_lookup in Hsin as [j Hj]. destruct (Hbs j s Hj) as [[? ?]|[? ?]]; [|lia].
    destruct (TickList.ticks self !! (i - 1)%nat) as [t|] eqn:Ht; [|apply lookup_ge_None in Ht; lia].
    exists t. destruct (Hbs _ _ Ht) as [[? ?]|[? ?]]; [|lia].
    split_and!; [done|by eapply list_elem_of_lookup_2|lia|].
    intros u (k & Hk)%list_elem_of_lookup Hu. destruct (Hbs _ _ Hk) as [[? ?]|[? ?]]; [|lia].
    destruct (decide (k = i - 1)%nat) as [->|]; [assert (u = t) by congruence; subst; lia|].
    pose proof (ordered_lookup_lt _ k (i - 1) _ _ (ok_ordered _ Hok) ltac:(lia) Hk Ht). lia.
Qed.

Lemma next_tick_gt self tick :
  ticks_ok self -> TickList.is_at_or_above_largest (E := TickListErrorKind) tick self = Ok false ->
  exists info, TickList.next_initialized_tick tick false self = Ok info /\ info ∈ TickList.ticks self /\
    tick < TickInfo.index info /\
    forall u, u ∈ TickList.ticks self -> tick < TickInfo.index u -> TickInfo.index info <= TickInfo.index u.
Proof.
  intros Hok Hb. destruct (smallest_spec (E := TickListErrorKind) self Hok) as (s & Hs & Hsin & _ & Hsle).
  destruct (largest_spec (E := TickListErrorKind) self Hok) as (m & Hm & Hmin & _ & Hmle).
  unfold TickList.next_initialized_tick. rewrite Hb. cbn [mbind result_bind].
  unfold TickList.is_at_or_above_largest in Hb. rewrite Hm in Hb. cbn in Hb. injection Hb as Hb. apply Z.leb_gt in Hb.
  unfold TickList.is_below_smallest. rewrite Hs. cbn [mbind result_bind].
  destruct (Z.ltb_spec tick (TickInfo.index s)) as [Hle|Hgt].
  { exists s. split_and!; [done|done|lia|]. intros u Hu _. by apply Hsle. }
  pose proof (binary_search_spec tick _ (ok_ordered _ Hok)) as Hbs. apply list_elem_of_lookup in Hmin as [j Hj].
  assert (forall i t, TickList.ticks self !! i = Some t -> tick < TickInfo.index t ->
    (forall k u, TickList.ticks self !! k = Some u -> tick < TickInfo.index u -> (i <= k)%nat) ->
    exists info, Ok (E := TickListErrorKind) t = Ok info /\ info ∈ TickList.ticks self /\ tick < TickInfo.index info /\
      forall u, u ∈ TickList.ticks self -> tick < TickInfo.index u -> TickInfo.index info <= TickInfo.index u) as Hfirst.
  { intros i t Ht Hlt Hle. exists t. split_and!; [done|by eapply list_elem_of_lookup_2|done|].
    intros u (k & Hk)%list_elem_of_lookup Hu. specialize (Hle k u Hk Hu).
    destruct (decide (k = i)) as [->|]; [assert (u = t) by congruence; subst; lia|].
    pose proof (ordered_lookup_lt _ i k _ _ (ok_ordered _ Hok) ltac:(lia) Ht Hk). lia. }
  destruct (binary_search tick _) as [i|i|]; [| |done].
  - destruct Hbs as (t & Ht & Htk).
    assert (forall k u, TickList.ticks self !! k = Some u -> tick < TickInfo.index u -> (i + 1 <= k)%nat) as Habove.
    { intros k u Hk Hu. destruct (decide (k <= i)%nat) as [Hki|]; [|lia].
      destruct (decide (k = i)) as [->|]; [assert (u = t) by congruence; subst; lia|].
      pose proof (ordered_lookup_lt _ k i _ _ (ok_ordered _ Hok) ltac:(lia) Hk Ht). lia. }
    pose proof (Habove j m Hj Hb) as Hij. apply lookup_lt_Some in Hj as Hjl.
    destruct (TickList.ticks self !! (i + 1)%nat) as [u|] eqn:Hu; [|apply lookup_ge_None in Hu; lia].
    apply (Hfirst (i + 1)%nat u); [done| |done].
    rewrite <-Htk. by apply (ordered_lookup_lt _ i (i + 1) _ _ (ok_ordered _ Hok) ltac:(lia)).
  - destruct Hbs as [Hi Hbs]. destruct (Hbs j m Hj) as [[? ?]|[? Hij]]; [lia|]. apply lookup_lt_Some in Hj as Hjl.
    destruct (TickList.ticks self !! i) as [t|] eqn:Ht; [|apply lookup_ge_None in Ht; lia].
    destruct (Hbs _ _ Ht) as [[? ?]|[? ?]]; [lia|]. apply (Hfirst i t); [done|done|].
    intros k u Hk Hu. destruct (Hbs _ _ Hk); lia.
Qed.

Lemma div_floor_spec {E} a b : 0 < b -> div_floor (E := E) a b = Ok (a / b).
Proof.
  intros Hb. unfold div_floor. destruct (Z.eqb_spec b 0); [lia|]. f_equal.
  pose proof (Z.quot_rem' a b) as Hqr. pose proof (Z.rem_bound_abs a b ltac:(lia)) as Hrb.
  replace (b <? 0) with false by (symmetry; apply Z.ltb_ge; lia).
  replace (0 <? b) with true by (symmetry; apply Z.ltb_lt; lia). rewrite andb_false_r, andb_true_r. cbn [orb].
  destruct (Z.ltb_spec (Z.rem a b) 0).
  - apply Z.div_unique with (Z.rem a b + b); lia.
  - apply Z.div_unique with (Z.rem a b); lia.
Qed.

(** The ends of the word of a tick, without overflow. *)
Lemma word_start tick spacing :
  0 < spacing < 2 ^ 16 -> Z.abs tick <= 2 ^ 20 ->
  let w := swrap 32 (swrap 32 (Z.shiftl (Z.shiftr (tick / spacing) 8) 8) * spacing) in
  w = tick / spacing / 256 * 256 * spacing /\ w <= tick.
Proof.
  intros Hs Ht. cbv zeta. rewrite Z.shiftl_mul_pow2, Z.shiftr_div_pow2 by lia. change (2 ^ 8) with 256.
  pose proof (Z.div_mod tick spacing ltac:(lia)). pose proof (Z.mod_pos_bound tick spacing ltac:(lia)).
  set (c := tick / spacing) in *. pose proof (Z.div_mod c 256 ltac:(lia)). pose proof (Z.mod_pos_bound c 256 ltac:(lia)).
  set (q := c / 256) in *. assert (Z.abs c <= 2 ^ 20) by nia. assert (q * 256 * spacing <= tick) by nia.
  assert (- 2 ^ 30 <= q * 256 * spacing) by nia.
  rewrite (swrap_small 32 (q * 256)) by (unfold in_srange; lia).
  rewrite swrap_small by (unfold in_srange; lia). lia.
Qed.

Lemma word_end tick spacing :
  0 < spacing < 2 ^ 16 -> Z.abs tick <= 2 ^ 20 ->
  let w := swrap 32 ((swrap 32 (Z.shiftl (Z.shiftr (swrap 32 (tick / spacing + 1)) 8 + 1) 8) - 1) * spacing) in
  w = ((tick / spacing + 1) / 256 * 256 + 255) * spacing /\ tick < w.
Proof.
  intros Hs Ht. cbv zeta.
  pose proof (Z.div_mod tick spacing ltac:(lia)). pose proof (Z.mod_pos_bound tick spacing ltac:(lia)).
  set (c := tick / spacing) in *. assert (Z.abs c <= 2 ^ 20) by nia.
  rewrite (swrap_small 32 (c + 1)) by (unfold in_srange; lia).
  rewrite Z.shiftl_mul_pow2, Z.shiftr_div_pow2 by lia. change (2 ^ 8) with 256.
  pose proof (Z.div_mod (c + 1) 256 ltac:(lia)). pose proof (Z.mod_pos_bound (c + 1) 256 ltac:(lia)).
  set (q := (c + 1) / 256) in *. assert ((c + 1) * spacing <= (q * 256 + 255) * spacing) by nia.
  assert ((q * 256 + 255) * spacing <= 2 ^ 30) by nia.
  rewrite (swrap_small 32 ((q + 1) * 256)) by (unfold in_srange; lia).
  rewrite swrap_small by (unfold in_srange; nia). split; [lia|nia].
Qed.

(** What a search below [tick] promises. *)
Definition next_below (self : TickList.t) (tick n : Z) (init : bool) : Prop :=
  n <= tick /\ n / TickList.tick_spacing self / 256 = tick / TickList.tick_spacing self / 256 /\
  (init = true <-> is_Some (net_at n (TickList.ticks self))) /\
  forall u, u ∈ TickList.ticks self -> ~ n < TickInfo.index u <= tick.

(** What a search above [tick] promises. *)
Definition next_above (self : TickList.t) (tick n : Z) (init : bool) : Prop :=
  tick < n /\ n / TickList.tick_spacing self / 256 <= (tick / TickList.tick_spacing self + 1) / 256 /\
  (init = true <-> is_Some (net_at n (TickList.ticks self))) /\
  forall u, u ∈ TickList.ticks self -> ~ tick < TickInfo.index u < n.

Lemma next_word_lte self tick :
  ticks_ok self -> Z.abs tick <= 2 ^ 20 ->
  match TickList.next_initialized_tick_within_one_word tick true self with
  | Ok (n, init) => MIN_TICK <= tick /\ next_below self tick n init
  | Err e => e = TicksExeeded /\
      (tick < MIN_TICK \/ forall u, u ∈ TickList.ticks self -> tick < TickInfo.index u - TickList.tick_spacing self)
  | Panic => False
  end.
Proof.
  intros Hok Ht. pose proof (ok_spacing _ Hok) as Hsp.
  destruct (smallest_spec (E := TickListErrorKind) self Hok) as (s & Hs & Hsin & Hsr & Hsle).
  pose proof (word_start tick _ Hsp Ht) as Hw. cbv zeta in Hw.
  unfold TickList.next_initialized_tick_within_one_word. rewrite div_floor_spec by lia. cbn [mbind result_bind].
  set (w := swrap 32 (swrap 32 _ * _)) in *. destruct Hw as [Hw Hwt].
  assert (forall n, w <= n <= tick -> n / TickList.tick_spacing self / 256 = tick / TickList.tick_spacing self / 256) as Hword.
  { intros n [Hn1 Hn2]. apply Z.le_antisymm; [repeat (apply Z.div_le_mono; [lia|]); lia|].
    apply Z.div_le_lower_bound; [lia|]. apply Z.div_le_lower_bound; [lia|]. rewrite Hw in Hn1. lia. }
  unfold TickList.is_below_safe_tick, TickList.is_below_smallest at 1. rewrite Hs. cbn [mbind result_bind].
  rewrite (swrap_small 32 (TickInfo.index s - _)) by (unfold in_srange, MIN_TICK, MAX_TICK in *; lia).
  destruct (Z.ltb_spec tick (TickInfo.index s - TickList.tick_spacing self)) as [Hx|Hx]; cbn [orb].
  { split; [done|]. right. intros u Hu. specialize (Hsle u Hu). lia. }
  destruct (Z.ltb_spec tick MIN_TICK) as [Hm|Hm]; [split; [done|by left]|].
  destruct (Z.ltb_spec tick (TickInfo.index s)) as [Hb|Hb].
  - split; [done|]. split_and!; [lia|apply Hword; lia| |].
    + split; [done|]. intros (u & Hu & Hue)%net_at_is_Some. specialize (Hsle u Hu). lia.
    + intros u Hu. specialize (Hsle u Hu). lia.
  - destruct (next_tick_lte self tick Hok) as (info & Hi & Hin & Hle & Hbest).
    { unfold TickList.is_below_smallest. rewrite Hs. cbn. f_equal. apply Z.ltb_ge. lia. }
    rewrite Hi. cbn [mbind result_bind]. split; [done|]. split_and!; [lia|apply Hword; lia| |].
    + rewrite Z.eqb_eq, net_at_is_Some. split; [intros Hn; exists info; split; [done|lia]|].
      intros (u & Hu & Hue). specialize (Hbest u Hu). lia.
    + intros u Hu. specialize (Hbest u Hu). lia.
Qed.

Lemma next_word_gt self tick :
  ticks_ok self -> Z.abs tick <= 2 ^ 20 ->
  match TickList.next_initialized_tick_within_one_word tick false self with
  | Ok (n, init) => tick < MAX_TICK /\ next_above self tick n init
  | Err e => e = TicksExeeded /\
      (MAX_TICK <= tick \/ forall u, u ∈ TickList.ticks self -> TickInfo.index u + TickList.tick_spacing self <= tick)
  | Panic => False
  end.
Proof.
  intros Hok Ht. pose proof (ok_spacing _ Hok) as Hsp.
  destruct (largest_spec (E := TickListErrorKind) self Hok) as (s & Hs & Hsin & Hsr & Hsle).
  pose proof (word_end tick _ Hsp Ht) as Hw. cbv zeta in Hw.
  unfold TickList.next_initialized_tick_within_one_word. rewrite div_floor_spec by lia. cbn [mbind result_bind].
  set (w := swrap 32 ((swrap 32 _ - 1) * _)) in *. destruct Hw as [Hw Hwt].
  assert (forall n, n <= w -> n / TickList.tick_spacing self / 256 <= (tick / TickList.tick_spacing self + 1) / 256) as Hword.
  { intros n Hn. set (q := (tick / TickList.tick_spacing self + 1) / 256) in *.
    apply Z.lt_succ_r, Z.div_lt_upper_bound; [lia|]. apply Z.div_lt_upper_bound; nia. }
  unfold TickList.is_at_or_above_safe_tick, TickList.is_at_or_above_largest at 1. rewrite Hs. cbn [mbind result_bind].
  rewrite (swrap_small 32 (TickInfo.index s + _)) by (unfold in_srange, MIN_TICK, MAX_TICK in *; lia).
  destruct (Z.leb_spec (TickInfo.index s + TickList.tick_spacing self) tick) as [Hx|Hx]; cbn [orb].
  { split; [done|]. right. intros u Hu. specialize (Hsle u Hu). lia. }
  destruct (Z.leb_spec MAX_TICK tick) as [Hm|Hm]; [split; [done|by left]|].
  destruct (Z.leb_spec (TickInfo.index s) tick) as [Hb|Hb].
  - split; [done|]. split_and!; [lia|apply Hword; lia| |].
    + split; [done|]. intros (u & Hu & Hue)%net_at_is_Some. specialize (Hsle u Hu). lia.
    + intros u Hu. specialize (Hsle u Hu). lia.
  - destruct (next_tick_gt self tick Hok) as (info & Hi & Hin & Hle & Hbest).
    { unfold TickList.is_at_or_above_largest. rewrite Hs. cbn. f_equal. apply Z.leb_gt. lia. }
    rewrite Hi. cbn [mbind result_bind]. split; [done|]. split_and!; [lia|apply Hword; lia| |].
    + rewrite Z.eqb_eq, net_at_is_Some. split; [intros Hn; exists info; split; [done|lia]|].
      intros (u & Hu & Hue). specialize (Hbest u Hu). lia.
    + intros u Hu. specialize (Hbest u Hu). lia.
Qed.

(** The search for the next tick within one word of the tick bitmap returns, in the
    direction of the swap, the nearest recorded tick of the word or else an unrecorded tick
    with none in between: it always moves in the direction of the swap, never leaves the
    word, skips no recorded tick, and reports a tick as initialized exactly when it is
    recorded.  It fails only with [TicksExeeded], and only beyond the outermost recorded tick
    by the tick spacing or outside the valid ticks. *)
Theorem next_tick_within_word (self : TickList.t) (tick : Z)
    (Hok : ticks_ok self) (Htick : Z.abs tick <= 2 ^ 20) :
  match TickList.next_initialized_tick_within_one_word tick true self with
  | Ok (n, init) => MIN_TICK <= tick /\ next_below self tick n init
  | Err e => e = TicksExeeded /\
      (tick < MIN_TICK \/ forall u, u ∈ TickList.ticks self -> tick < TickInfo.index u - TickList.tick_spacing self)
  | Panic => False
  end /\
  match TickList.next_initialized_tick_within_one_word tick false self with
  | Ok (n, init) => tick < MAX_TICK /\ next_above self tick n init
  | Err e => e = TicksExeeded /\
      (MAX_TICK <= tick \/ forall u, u ∈ TickList.ticks self -> TickInfo.index u + TickList.tick_spacing self <= tick)
  | Panic => False
  end.
Proof. split; [by apply next_word_lte|by apply next_word_gt]. Qed.

Module TickListExamples.
Definition info (i n : Z) : TickInfo.t := TickInfo.mk i n (price_of i).
Definition sample : TickList.t := TickList.mk 60 [info (-120) 500; info 60 200; info 600 (-700)].
Lemma sample_ok : ticks_ok sample.
Proof.
  split; [cbn; lia| | |done]; repeat constructor; vm_compute; (reflexivity || discriminate).
Qed.
End TickListExamples.

Lemma set_tick_liquidity_updates_witness :
  exists self', TickList.set_tick_liquidity 60 0 TickListExamples.sample = (Ok tt, self') /\
    net_at 60 (TickList.ticks self') = None /\ net_at 600 (TickList.ticks self') = Some (-700).
Proof.
  pose proof (set_tick_liquidity_updates 60 0 TickListExamples.sample
    (ok_ordered _ TickListExamples.sample_ok) ltac:(unfold in_srange; lia) ltac:(lia)) as H.
  destruct (TickList.set_tick_liquidity 60 0 TickListExamples.sample) as [[[]|e|] self'] eqn:E;
    try (vm_compute in E; discriminate E).
  exists self'. destruct H as (_ & _ & H). split; [reflexivity|]. rewrite !H. split; vm_compute; reflexivity.
Defined.

Lemma next_tick_within_word_witness :
  TickList.next_initialized_tick_within_one_word 100 true TickListExamples.sample = Ok (60, true) /\
  next_below TickListExamples.sample 100 60 true.
Proof.
  pose proof (next_tick_within_word TickListExamples.sample 100 TickListExamples.sample_ok ltac:(lia)) as [H _].
  assert (TickList.next_initialized_tick_within_one_word 100 true TickListExamples.sample = Ok (60, true)) as E
    by (vm_compute; reflexivity).
  split; [exact E|]. rewrite E in H. apply H.
Defined.
