(* ===== verification/SwapMath.v ===== *)
(** One step of a concentrated-liquidity swap:
    [tycho_simulation::evm::protocol::utils::uniswap::{sqrt_price_math, swap_math,
    liquidity_math}].

    Prices are square roots with 96 fractional bits ([U256]), liquidity is [u128], an amount
    left to swap is an [I256], positive for an exact input.  [sqrt_price_q96_to_f64] works on
    floats and is not modelled. *)

From S2P Require Import Prelude Collections Bytes Models SafeMath Cpmm TickMath.

Open Scope Z_scope.

(** * sqrt_price_math.rs *)

Definition Q96 : Z := limbs 0 4294967296 0 0.
Definition Q192 : Z := limbs 0 0 0 1.
Definition RESOLUTION : Z := 96.
Definition U160_MAX : Z := limbs (2 ^ 64 - 1) (2 ^ 64 - 1) 4294967295 0.

Definition maybe_flip_ratios (a b : Z) : Z * Z := if b <? a then (b, a) else (a, b).

Definition div_rounding_up (a b : Z) : result SimulationError Z :=
  '(result, rest) ← div_mod_u256 a b;
  if 0 <? rest then safe_add_u256 result 1 else Ok result.

Definition get_amount0_delta (a b liquidity : Z) (round_up : bool) : result SimulationError Z :=
  let '(sqrt_ratio_a, sqrt_ratio_b) := maybe_flip_ratios a b in
  if sqrt_ratio_a =? 0 then Err (FatalError "sqrt_ratio_a must be greater than zero")
  else
    let numerator1 := wrap 256 (Z.shiftl liquidity RESOLUTION) in
    let numerator2 := wrap 256 (sqrt_ratio_b - sqrt_ratio_a) in
    if round_up then
      amount ← mul_div_rounding_up numerator1 numerator2 sqrt_ratio_b;
      div_rounding_up amount sqrt_ratio_a
    else
      amount ← mul_div_rounding_up numerator1 numerator2 sqrt_ratio_b;
      safe_div_u256 amount sqrt_ratio_a.

Definition get_amount1_delta (a b liquidity : Z) (round_up : bool) : result SimulationError Z :=
  let '(sqrt_ratio_a, sqrt_ratio_b) := maybe_flip_ratios a b in
  if round_up then mul_div_rounding_up liquidity (wrap 256 (sqrt_ratio_b - sqrt_ratio_a)) Q96
  else
    diff ← safe_sub_u256 sqrt_ratio_b sqrt_ratio_a;
    product ← safe_mul_u256 liquidity diff;
    safe_div_u256 product Q96.

(** [product / amount] of the non-zero [amount]; [overflowing_mul] wraps. *)
Definition get_next_sqrt_price_from_amount0_rounding_up (sqrt_price liquidity amount : Z) (add : bool) :
    result SimulationError Z :=
  if amount =? 0 then Ok sqrt_price
  else
    let numerator1 := wrap 256 (Z.shiftl liquidity RESOLUTION) in
    let product := wrap 256 (amount * sqrt_price) in
    if add then
      let overflow_case :=
        quotient ← safe_div_u256 numerator1 sqrt_price;
        denominator ← safe_add_u256 quotient amount;
        div_rounding_up numerator1 denominator in
      if product / amount =? sqrt_price then
        denominator ← safe_add_u256 numerator1 product;
        if numerator1 <=? denominator then mul_div_rounding_up numerator1 sqrt_price denominator
        else overflow_case
      else overflow_case
    else
      quotient ← safe_div_u256 product amount;
      if negb (quotient =? sqrt_price) || (numerator1 <=? product) then
        Err (FatalError "sqrt_price_math: overflow in get_next_sqrt_price_from_amount0")
      else
        denominator ← safe_sub_u256 numerator1 product;
        mul_div_rounding_up numerator1 sqrt_price denominator.

Definition get_next_sqrt_price_from_amount1_rounding_down (sqrt_price liquidity amount : Z) (add : bool) :
    result SimulationError Z :=
  if add then
    quotient ← (if amount <=? U160_MAX
                then safe_div_u256 (wrap 256 (Z.shiftl amount RESOLUTION)) liquidity
                else mul_div amount Q96 liquidity);
    safe_add_u256 sqrt_price quotient
  else
    quotient ← (if amount <=? U160_MAX
                then div_rounding_up (wrap 256 (Z.shiftl amount RESOLUTION)) liquidity
                else mul_div_rounding_up amount Q96 liquidity);
    if sqrt_price <=? quotient then
      Err (FatalError "sqrt_price_math: sqrt_price underflow in get_next_sqrt_price_from_amount1")
    else safe_sub_u256 sqrt_price quotient.

Definition get_next_sqrt_price_from_input (sqrt_price liquidity amount_in : Z) (zero_for_one : bool) :
    result SimulationError Z :=
  if sqrt_price =? 0 then Err (FatalError "sqrt_price must be greater than zero")
  else if zero_for_one then get_next_sqrt_price_from_amount0_rounding_up sqrt_price liquidity amount_in true
  else get_next_sqrt_price_from_amount1_rounding_down sqrt_price liquidity amount_in true.

Definition get_next_sqrt_price_from_output (sqrt_price liquidity amount_in : Z) (zero_for_one : bool) :
    result SimulationError Z :=
  if sqrt_price =? 0 then Err (FatalError "sqrt_price must be greater than zero")
  else if liquidity =? 0 then Err (FatalError "liquidity must be greater than zero")
  else if zero_for_one then get_next_sqrt_price_from_amount1_rounding_down sqrt_price liquidity amount_in false
  else get_next_sqrt_price_from_amount0_rounding_up sqrt_price liquidity amount_in false.

(** [sqrt_u256] has a result for every [U256]: see [sqrt_u256_floor]. *)
Definition get_sqrt_price_q96 (price_0 price_1 : Z) : result SimulationError Z :=
  ratio ← mul_div price_0 Q192 price_1;
  root ← unwrap (sqrt_u256 ratio);
  root.

Definition get_sqrt_price_limit (token_in token_out : Bytes) (target_price : Price.t) (fee_tier : Z) :
    result SimulationError Z :=
  let zero_for_one := bytes_ltb token_in token_out in
  swap_price_numerator ← biguint_to_u256 (Price.denominator target_price);
  swap_price_denominator ← biguint_to_u256 (Price.numerator target_price);
  let fee_precision := limbs 1000000 0 0 0 in
  sell_price_after_fee ←
    safe_div_u256 (wrap 256 (swap_price_numerator * wrap 256 (fee_precision - fee_tier))) fee_precision;
  let buy_price := swap_price_denominator in
  let '(price_0, price_1) :=
    if zero_for_one then (sell_price_after_fee, buy_price) else (buy_price, sell_price_after_fee) in
  get_sqrt_price_q96 price_1 price_0.

(** * liquidity_math.rs *)

Definition add_liquidity_delta (x y : Z) : result SimulationError Z :=
  if y <? 0 then ok_or (checked 128 (x - wrap 128 (swrap 128 (- y)))) (FatalError "Underflow: Result is negative")
  else Ok (wrap 128 (x + y)).

(** * swap_math.rs *)

(** [amount_remaining.abs().into_raw()] is [Z.abs] (the absolute value of the smallest [I256]
    wraps to itself, whose raw value is its absolute value); [into_raw] of a non-negative
    value is the value. *)
Definition compute_swap_step (sqrt_ratio_current sqrt_ratio_target liquidity amount_remaining fee_pips : Z) :
    result SimulationError (Z * Z * Z * Z) :=
  let zero_for_one := sqrt_ratio_target <=? sqrt_ratio_current in
  let exact_in := 0 <=? amount_remaining in
  '(sqrt_ratio_next, amount_in, amount_out) ←
    (if exact_in then
       amount_remaining_less_fee ←
         mul_div amount_remaining (wrap 32 (1000000 - fee_pips)) 1000000;
       amount_in ←
         (if zero_for_one
          then get_amount0_delta sqrt_ratio_target sqrt_ratio_current liquidity true
          else get_amount1_delta sqrt_ratio_current sqrt_ratio_target liquidity true);
       sqrt_ratio_next ←
         (if amount_in <=? amount_remaining_less_fee then Ok sqrt_ratio_target
          else get_next_sqrt_price_from_input sqrt_ratio_current liquidity
                 amount_remaining_less_fee zero_for_one);
       Ok (sqrt_ratio_next, amount_in, 0)
     else
       amount_out ←
         (if zero_for_one
          then get_amount1_delta sqrt_ratio_target sqrt_ratio_current liquidity false
          else get_amount0_delta sqrt_ratio_current sqrt_ratio_target liquidity false);
       sqrt_ratio_next ←
         (if amount_out <? Z.abs amount_remaining then Ok sqrt_ratio_target
          else get_next_sqrt_price_from_output sqrt_ratio_current liquidity
                 (Z.abs amount_remaining) zero_for_one);
       Ok (sqrt_ratio_next, 0, amount_out));
  let max := sqrt_ratio_target =? sqrt_ratio_next in
  amount_in ←
    (if max && exact_in then Ok amount_in
     else if zero_for_one then get_amount0_delta sqrt_ratio_next sqrt_ratio_current liquidity true
     else get_amount1_delta sqrt_ratio_current sqrt_ratio_next liquidity true);
  amount_out ←
    (if max && negb exact_in then Ok amount_out
     else if zero_for_one then get_amount1_delta sqrt_ratio_next sqrt_ratio_current liquidity false
     else get_amount0_delta sqrt_ratio_current sqrt_ratio_next liquidity false);
  let amount_out :=
    if negb exact_in && (Z.abs amount_remaining <? amount_out) then Z.abs amount_remaining else amount_out in
  fee_amount ←
    (if exact_in && negb (sqrt_ratio_next =? sqrt_ratio_target)
     then safe_sub_u256 (Z.abs amount_remaining) amount_in
     else mul_div_rounding_up amount_in fee_pips (wrap 32 (1000000 - fee_pips)));
  Ok (sqrt_ratio_next, amount_in, amount_out, fee_amount).
