(* ===== verification/SwapMathSpec.v ===== *)
(** What one swap step guarantees.

    The amounts of a step between two prices are the exact ones rounded in favour of the
    pool, except for an output of token 0, which rounds up before its last division; a step
    with an exact input never passes the target price, never takes more than the input, and
    takes all of it unless it reaches the target. *)

From S2P Require Import Prelude Collections Bytes Models SafeMath SafeMathSpec Cpmm TickMath SwapMath.

Open Scope Z_scope.

Definition overflow : SimulationError := FatalError "U256 arithmetic overflow".

Lemma safe_add_eq a b : 0 <= a + b -> safe_add_u256 a b = if a + b <? 2 ^ 256 then Ok (a + b) else Err overflow.
Proof.
  intros H. unfold safe_add_u256, _construc_result_u256, checked, fits. rewrite (proj2 (Z.leb_le _ _) H). cbn [andb].
  by destruct (_ <? _).
Qed.

Lemma safe_mul_eq a b : 0 <= a * b -> safe_mul_u256 a b = if a * b <? 2 ^ 256 then Ok (a * b) else Err overflow.
Proof.
  intros H. unfold safe_mul_u256, _construc_result_u256, checked, fits. rewrite (proj2 (Z.leb_le _ _) H). cbn [andb].
  by destruct (_ <? _).
Qed.

Lemma safe_div_eq a b : in_range 256 a -> 0 < b -> safe_div_u256 a b = Ok (a / b).
Proof. intros Ha Hb. apply safe_div_ok. split_and!; [lia|done|by apply div_range]. Qed.

Lemma safe_sub_eq a b : 0 <= b <= a -> a < 2 ^ 256 -> safe_sub_u256 a b = Ok (a - b).
Proof. intros. apply safe_sub_ok. split; [done|]. unfold in_range. lia. Qed.

Lemma div_rounding_up_eq a b : 0 <= a < 2 ^ 256 - 1 -> 0 < b -> div_rounding_up a b = Ok (cdiv a b).
Proof.
  intros Ha Hb. unfold div_rounding_up, div_mod_u256. replace (b =? 0) with false by lia. cbn [mbind result_bind].
  pose proof (Z.div_mod a b ltac:(lia)). pose proof (Z.mod_pos_bound a b Hb).
  assert (0 <= a / b <= a) by (split; [apply Z.div_pos; lia|apply Z.div_le_upper_bound; nia]).
  unfold cdiv. destruct (Z.ltb_spec 0 (a mod b)).
  - rewrite safe_add_eq by lia. replace (a / b + 1 <? 2 ^ 256) with true by lia. f_equal.
    apply Z.div_unique with (a mod b - 1); lia.
  - f_equal. apply Z.div_unique with (b - 1); lia.
Qed.

Lemma mul_div_up_eq a b d :
  in_range 256 a -> in_range 256 b -> 0 < d -> a * b <= d * (2 ^ 256 - 1) ->
  mul_div_rounding_up a b d = Ok (cdiv (a * b) d).
Proof.
  intros Ha Hb Hd Hle. rewrite mul_div_rounding_up_exact by done.
  change ((a * b + d - 1) / d) with (cdiv (a * b) d). apply (cdiv_le (a * b) d _ Hd) in Hle.
  by replace (_ <? _) with true by lia.
Qed.

Lemma mul_div_down_eq a b d :
  in_range 256 a -> in_range 256 b -> 0 < d -> a * b < d * 2 ^ 256 -> mul_div a b d = Ok (a * b / d).
Proof.
  intros Ha Hb Hd Hlt. rewrite mul_div_exact by done. apply Z.div_lt_upper_bound in Hlt; [|done].
  by replace (_ <? _) with true by lia.
Qed.

(** * Amounts between two prices *)

Section amounts.
Context (a b L : Z) (Ha : 0 < a <= b) (Hb : b < 2 ^ 160) (HL : 0 <= L < 2 ^ 128).

(** The liquidity with 96 fractional bits. *)
Lemma numerator1_eq : wrap 256 (Z.shiftl L RESOLUTION) = L * 2 ^ 96 /\ 0 <= L * 2 ^ 96 < 2 ^ 224.
Proof using HL.
  unfold RESOLUTION. rewrite Z.shiftl_mul_pow2 by lia. split; [apply wrap_small; unfold in_range; lia|lia].
Qed.

Lemma flip_eq : maybe_flip_ratios a b = (a, b) /\ maybe_flip_ratios b a = (a, b).
Proof using Ha.
  unfold maybe_flip_ratios. destruct (Z.ltb_spec b a); [lia|]. destruct (Z.ltb_spec a b); [done|].
  by replace b with a by lia.
Qed.

Lemma amount0_numerator : 0 <= cdiv (L * 2 ^ 96 * (b - a)) b <= L * 2 ^ 96.
Proof using Ha HL. split; [apply cdiv_nonneg; nia|apply cdiv_le; nia]. Qed.

Lemma amount0_delta_eq (up : bool) :
  let m := cdiv (L * 2 ^ 96 * (b - a)) b in
  let r := Ok (E := SimulationError) (if up then cdiv m a else m / a) in
  get_amount0_delta a b L up = r /\ get_amount0_delta b a L up = r.
Proof using Ha Hb HL.
  cbv zeta. unfold get_amount0_delta. destruct flip_eq as [-> ->]. replace (a =? 0) with false by lia.
  destruct numerator1_eq as [-> HN]. rewrite (wrap_small 256 (b - a)) by (unfold in_range; lia).
  rewrite mul_div_up_eq by (unfold in_range; nia). pose proof amount0_numerator as Hm. cbn [mbind result_bind].
  rewrite div_rounding_up_eq, safe_div_eq by (unfold in_range; lia). by destruct up.
Qed.

Lemma Q96_eq : Q96 = 2 ^ 96.
Proof using. reflexivity. Qed.

Lemma amount1_up_eq :
  get_amount1_delta a b L true = Ok (cdiv (L * (b - a)) (2 ^ 96)) /\
  get_amount1_delta b a L true = Ok (cdiv (L * (b - a)) (2 ^ 96)).
Proof using Ha Hb HL.
  unfold get_amount1_delta. destruct flip_eq as [-> ->]. rewrite Q96_eq.
  rewrite (wrap_small 256 (b - a)) by (unfold in_range; lia).
  by rewrite mul_div_up_eq by (unfold in_range; nia).
Qed.

Lemma amount1_down_eq :
  let r := if L * (b - a) <? 2 ^ 256 then Ok (L * (b - a) / 2 ^ 96) else Err overflow in
  get_amount1_delta a b L false = r /\ get_amount1_delta b a L false = r.
Proof using Ha Hb HL.
  unfold get_amount1_delta. destruct flip_eq as [-> ->]. rewrite Q96_eq.
  rewrite safe_sub_eq by lia. cbn [mbind result_bind]. rewrite safe_mul_eq by nia.
  destruct (Z.ltb_spec (L * (b - a)) (2 ^ 256)); [|done]. cbn [mbind result_bind].
  by rewrite safe_div_eq by (unfold in_range; nia).
Qed.
End amounts.

(** * The price after an input *)

Section next_price.
Context (P L A : Z) (HP : 0 < P < 2 ^ 160) (HL : 0 < L < 2 ^ 128) (HA : 0 <= A < 2 ^ 256).

(** Token 0 in: the price falls to at least the exact one, [N * P / (N + A * P)]. *)
Lemma next_price_amount0_in :
  let N := L * 2 ^ 96 in
  match get_next_sqrt_price_from_amount0_rounding_up P L A true with
  | Ok r => N * P <= r * (N + A * P) /\ 0 < r <= P
  | Err e => e = overflow /\ 2 ^ 256 <= N + A * P
  | Panic => False
  end.
Proof using HP HL HA.
  cbv zeta. unfold get_next_sqrt_price_from_amount0_rounding_up. destruct (Z.eqb_spec A 0) as [->|HA0]; [lia|].
  destruct (numerator1_eq L ltac:(lia)) as [-> HN]. set (N := L * 2 ^ 96) in *. assert (0 < N) by lia.
  assert (match quotient ← safe_div_u256 N P; denominator ← safe_add_u256 quotient A; div_rounding_up N denominator with
          | Ok r => N * P <= r * (N + A * P) /\ 0 < r <= P
          | Err e => e = overflow /\ 2 ^ 256 <= N + A * P
          | Panic => False
          end) as Hover.
  { rewrite safe_div_eq by (unfold in_range; lia). cbn [mbind result_bind].
    pose proof (Z.mul_div_le N P ltac:(lia)). pose proof (Z.mul_succ_div_gt N P ltac:(lia)).
    assert (0 <= N / P) by (apply Z.div_pos; lia). set (q := N / P) in *. rewrite safe_add_eq by lia.
    destruct (Z.ltb_spec (q + A) (2 ^ 256)); cbn [mbind result_bind]; [|split; [done|nia]].
    rewrite div_rounding_up_eq by lia. pose proof (cdiv_lower N (q + A) ltac:(lia)).
    assert (cdiv N (q + A) <= P) by (apply cdiv_le; nia). set (r := cdiv N (q + A)) in *.
    split; [|nia]. assert (N * P <= r * (P * q + A * P)) by nia. nia. }
  destruct (Z.eqb_spec (wrap 256 (A * P) / A) P) as [He|]; [|exact Hover].
  assert (wrap 256 (A * P) = A * P) as Hw.
  { unfold wrap in *. pose proof (Z.div_mod (A * P) (2 ^ 256) ltac:(lia)).
    pose proof (Z.mod_pos_bound (A * P) (2 ^ 256) ltac:(lia)). set (m := (A * P) mod 2 ^ 256) in *.
    pose proof (Z.mul_div_le m A ltac:(lia)). rewrite He in *. nia. }
  rewrite Hw, safe_add_eq by nia. destruct (Z.ltb_spec (N + A * P) (2 ^ 256)); cbn [mbind result_bind]; [|done].
  replace (N <=? N + A * P) with true by (symmetry; apply Z.leb_le; nia).
  rewrite mul_div_up_eq by (unfold in_range; nia).
  pose proof (cdiv_lower (N * P) (N + A * P) ltac:(nia)).
  assert (cdiv (N * P) (N + A * P) <= P) by (apply cdiv_le; nia). split; [lia|nia].
Qed.

(** Token 1 in: the price rises by the exact quotient, rounded down. *)
Lemma next_price_amount1_in :
  get_next_sqrt_price_from_amount1_rounding_down P L A true =
    if A * 2 ^ 96 / L <? 2 ^ 256 then
      if P + A * 2 ^ 96 / L <? 2 ^ 256 then Ok (P + A * 2 ^ 96 / L) else Err overflow
    else Err (FatalError "Overflow: Value exceeds 256 bits").
Proof using HP HL HA.
  unfold get_next_sqrt_price_from_amount1_rounding_down.
  assert (0 <= A * 2 ^ 96 / L) by (apply Z.div_pos; lia).
  assert ((if A <=? U160_MAX then safe_div_u256 (wrap 256 (Z.shiftl A RESOLUTION)) L else mul_div A Q96 L) =
    if A * 2 ^ 96 / L <? 2 ^ 256 then Ok (A * 2 ^ 96 / L) else Err (FatalError "Overflow: Value exceeds 256 bits")) as ->.
  { destruct (Z.leb_spec A U160_MAX) as [Hle|Hgt].
    - change U160_MAX with (2 ^ 160 - 1) in Hle. unfold RESOLUTION. rewrite Z.shiftl_mul_pow2 by lia.
      rewrite wrap_small, safe_div_eq by (unfold in_range; lia).
      pose proof (div_range 256 (A * 2 ^ 96) L ltac:(unfold in_range; lia) ltac:(lia)) as [_ Hr].
      by rewrite (proj2 (Z.ltb_lt _ _) Hr).
    - rewrite Q96_eq, mul_div_exact by (unfold in_range; lia). done. }
  destruct (A * 2 ^ 96 / L <? 2 ^ 256); [|done]. cbn [mbind result_bind]. by rewrite safe_add_eq by lia.
Qed.
End next_price.

(** * Steps with an exact input *)

(** What a step from [P] towards [T] with [rem] to spend promises of its result. *)
Record step_ok (P T L rem next ain aout fee : Z) : Prop := {
  step_between : Z.min P T <= next <= Z.max P T;
  step_nonneg : 0 <= ain /\ 0 <= aout /\ 0 <= fee;
  step_affordable : ain + fee <= rem;
  step_exhausts : next <> T -> ain + fee = rem;
  step_rounding :
    if T <=? P
    then L * 2 ^ 96 * (P - next) <= ain * (P * next) /\ aout * 2 ^ 96 <= L * (P - next)
    else L * (next - P) <= ain * 2 ^ 96 /\ (aout * P - 1) * next < L * 2 ^ 96 * (next - P)
}.

Section exact_input.
Context (P T L rem f : Z).
Context (HP : 0 < P < 2 ^ 160) (HT : 0 < T < 2 ^ 160) (HL : 0 <= L < 2 ^ 128).
Context (Hrem : 0 <= rem < 2 ^ 255) (Hf : 0 <= f < 1000000).

(** The input after the fee. *)
Let A := rem * (1000000 - f) / 1000000.

Lemma less_fee : mul_div rem (wrap 32 (1000000 - f)) 1000000 = Ok A /\ 0 <= A <= rem /\ 1000000 * A <= rem * (1000000 - f).
Proof using Hrem Hf.
  rewrite (wrap_small 32) by (unfold in_range; lia).
  rewrite mul_div_down_eq by (unfold in_range; nia). subst A.
  pose proof (Z.mul_div_le (rem * (1000000 - f)) 1000000 ltac:(lia)).
  assert (0 <= rem * (1000000 - f) / 1000000) by (apply Z.div_pos; nia). split; [done|]. nia.
Qed.

(** Reaching the target: the fee on top of the amount in stays within the input. *)
Lemma fee_at_target ain :
  0 <= ain <= A ->
  exists fee, mul_div_rounding_up ain f (wrap 32 (1000000 - f)) = Ok fee /\ 0 <= fee /\ ain + fee <= rem.
Proof using Hrem Hf.
  intros Hin. rewrite (wrap_small 32) by (unfold in_range; lia).
  pose proof less_fee as (_ & HA & HAf). rewrite mul_div_up_eq by (unfold in_range; nia).
  eexists. split; [done|]. split; [apply cdiv_nonneg; nia|].
  assert (cdiv (ain * f) (1000000 - f) <= rem - ain); [apply cdiv_le; nia|lia].
Qed.

(** Stopping before the target: the fee is the rest of the input. *)
Lemma fee_before_target ain : 0 <= ain <= rem -> safe_sub_u256 (Z.abs rem) ain = Ok (rem - ain).
Proof using A Hrem. intros Hin. by rewrite Z.abs_eq, safe_sub_eq by lia. Qed.

Abbreviation step := (compute_swap_step P T L rem f).

(** What is proved of both directions. *)
Definition step_result : Prop :=
  match step with
  | Ok (next, ain, aout, fee) => step_ok P T L rem next ain aout fee
  | Err e => e = overflow /\ (2 ^ 256 <= L * Z.abs (P - T) \/ 2 ^ 256 <= L * 2 ^ 96 + rem * P)
  | Panic => False
  end.

(** Both roundings of token 1 between two prices. *)
Lemma floor_scaled x : x / 2 ^ 96 * 2 ^ 96 <= x.
Proof using A. pose proof (Z.mul_div_le x (2 ^ 96) ltac:(lia)). lia. Qed.

Lemma swap_down : T <= P -> step_result.
Proof using HP HT HL Hrem Hf.
  intros Hdir. unfold step_result, compute_swap_step. replace (T <=? P) with true by lia. replace (0 <=? rem) with true by lia.
  destruct less_fee as (-> & HA & HAf). cbn [mbind result_bind].
  destruct (amount0_delta_eq T P L ltac:(lia) ltac:(lia) HL true) as [-> _]. cbn [mbind result_bind].
  set (m := cdiv (L * 2 ^ 96 * (P - T)) P). assert (0 <= m) by (apply cdiv_nonneg; nia).
  assert (0 <= cdiv m T) by (apply cdiv_nonneg; lia).
  destruct (Z.leb_spec (cdiv m T) A) as [Hle|Hgt]; cbn [mbind result_bind andb negb].
  - rewrite Z.eqb_refl. cbn [mbind result_bind andb negb].
    destruct (amount1_down_eq T P L ltac:(lia) ltac:(lia) HL) as [-> _].
    destruct (Z.ltb_spec (L * (P - T)) (2 ^ 256)); cbn [mbind result_bind andb negb]; [|split; [done|left; lia]].
    destruct (fee_at_target (cdiv m T)) as (fee & -> & Hfee & Hsum); [lia|]. cbn [mbind result_bind].
    split; [lia| |done|done|].
    + split_and!; [done|apply Z.div_pos; nia|done].
    + replace (T <=? P) with true by lia. split; [|apply floor_scaled].
      pose proof (cdiv_lower (L * 2 ^ 96 * (P - T)) P ltac:(lia)) as Hm. fold m in Hm.
      pose proof (cdiv_lower m T ltac:(lia)). nia.
  - assert (P * (T * A) < L * 2 ^ 96 * (P - T)) as Hshort.
    { apply Z.nle_gt. intros Hle. apply cdiv_le in Hle; [|lia]. fold m in Hle. apply cdiv_le in Hle; lia. }
    assert (0 < L) by nia. unfold get_next_sqrt_price_from_input. replace (P =? 0) with false by lia.
    pose proof (next_price_amount0_in P L A HP ltac:(lia) ltac:(lia)) as Hn. cbv zeta in Hn.
    destruct (get_next_sqrt_price_from_amount0_rounding_up P L A true) as [r|e|]; cbn [mbind result_bind]; [| |done].
    2: { destruct Hn as [-> Hn]. split; [done|]. right. nia. }
    destruct Hn as [Hr HrP]. assert (T < r) by nia. replace (T =? r) with false by lia. cbn [andb].
    destruct (amount0_delta_eq r P L ltac:(lia) ltac:(lia) HL true) as [-> _]. cbn [mbind result_bind].
    destruct (amount1_down_eq r P L ltac:(lia) ltac:(lia) HL) as [-> _].
    destruct (Z.ltb_spec (L * (P - r)) (2 ^ 256)); cbn [mbind result_bind andb negb]; [|split; [done|left; nia]].
    replace (r =? T) with false by lia. cbn [negb].
    pose proof (cdiv_lower (L * 2 ^ 96 * (P - r)) P ltac:(lia)) as Hm.
    assert (cdiv (L * 2 ^ 96 * (P - r)) P <= r * A) by (apply cdiv_le; nia).
    set (m' := cdiv (L * 2 ^ 96 * (P - r)) P) in *. assert (0 <= m') by (apply cdiv_nonneg; nia).
    assert (cdiv m' r <= A) by (apply cdiv_le; lia). assert (0 <= cdiv m' r) by (apply cdiv_nonneg; lia).
    rewrite fee_before_target by lia. cbn [mbind result_bind]. split; [lia| |lia|lia|].
    + split_and!; [done|apply Z.div_pos; nia|lia].
    + replace (T <=? P) with true by lia. split; [|apply floor_scaled].
      pose proof (cdiv_lower m' r ltac:(lia)). nia.
Qed.

(** The output of token 0 between [P] and [n]. *)
Lemma amount0_down_bound n :
  P <= n -> let m := cdiv (L * 2 ^ 96 * (n - P)) n in 0 <= m / P /\ (m / P * P - 1) * n < L * 2 ^ 96 * (n - P).
Proof using A HP HL.
  intros Hn. cbv zeta. pose proof (cdiv_upper (L * 2 ^ 96 * (n - P)) n ltac:(lia)).
  assert (0 <= cdiv (L * 2 ^ 96 * (n - P)) n) by (apply cdiv_nonneg; nia). set (m := cdiv _ _) in *.
  pose proof (Z.mul_div_le m P ltac:(lia)). split; [apply Z.div_pos; lia|nia].
Qed.

Lemma swap_up : P < T -> step_result.
Proof using HP HT HL Hrem Hf.
  intros Hdir. unfold step_result, compute_swap_step. replace (T <=? P) with false by lia. replace (0 <=? rem) with true by lia.
  destruct less_fee as (-> & HA & HAf). cbn [mbind result_bind].
  destruct (amount1_up_eq P T L ltac:(lia) ltac:(lia) HL) as [-> _]. cbn [mbind result_bind].
  set (m := cdiv (L * (T - P)) (2 ^ 96)). assert (0 <= m) by (apply cdiv_nonneg; nia).
  destruct (Z.leb_spec m A) as [Hle|Hgt]; cbn [mbind result_bind andb negb].
  - rewrite Z.eqb_refl. cbn [mbind result_bind andb negb].
    destruct (amount0_delta_eq P T L ltac:(lia) ltac:(lia) HL false) as [-> _]. cbn [mbind result_bind andb negb].
    destruct (fee_at_target m) as (fee & -> & Hfee & Hsum); [lia|]. cbn [mbind result_bind].
    pose proof (amount0_down_bound T ltac:(lia)) as [? ?]. split; [lia|by split_and!|done|done|].
    replace (T <=? P) with false by lia. split; [|done].
    pose proof (cdiv_lower (L * (T - P)) (2 ^ 96) ltac:(lia)) as Hm. fold m in Hm. lia.
  - assert (2 ^ 96 * A < L * (T - P)) as Hshort.
    { apply Z.nle_gt. intros Hle. apply cdiv_le in Hle; [|lia]. fold m in Hle. lia. }
    assert (0 < L) by nia. unfold get_next_sqrt_price_from_input. replace (P =? 0) with false by lia.
    rewrite (next_price_amount1_in P L A) by lia. pose proof (Z.mul_div_le (A * 2 ^ 96) L ltac:(lia)) as Hq.
    assert (0 <= A * 2 ^ 96 / L) by (apply Z.div_pos; lia).
    assert (A * 2 ^ 96 / L < T - P) by (apply Z.div_lt_upper_bound; lia).
    replace (A * 2 ^ 96 / L <? 2 ^ 256) with true by lia. replace (P + A * 2 ^ 96 / L <? 2 ^ 256) with true by lia.
    cbn [mbind result_bind]. set (r := P + A * 2 ^ 96 / L) in *. replace (A * 2 ^ 96 / L) with (r - P) in * by lia.
    replace (T =? r) with false by lia. cbn [andb].
    destruct (amount1_up_eq P r L ltac:(lia) ltac:(lia) HL) as [-> _]. cbn [mbind result_bind].
    destruct (amount0_delta_eq P r L ltac:(lia) ltac:(lia) HL false) as [-> _]. cbn [mbind result_bind andb negb].
    replace (r =? T) with false by lia. cbn [negb].
    assert (cdiv (L * (r - P)) (2 ^ 96) <= A) by (apply cdiv_le; lia).
    assert (0 <= cdiv (L * (r - P)) (2 ^ 96)) by (apply cdiv_nonneg; nia).
    rewrite fee_before_target by lia. cbn [mbind result_bind].
    pose proof (amount0_down_bound r ltac:(lia)) as [? ?]. split; [lia|split_and!; lia|lia|lia|].
    replace (T <=? P) with false by lia. split; [|done].
    pose proof (cdiv_lower (L * (r - P)) (2 ^ 96) ltac:(lia)). lia.
Qed.

Lemma step_total : step_result.
Proof using HP HT HL Hrem Hf. destruct (Z.le_gt_cases T P); [by apply swap_down|by apply swap_up]. Qed.
End exact_input.

Lemma cdiv_zero b : 0 < b -> cdiv 0 b = 0.
Proof. intros Hb. unfold cdiv. apply Z.div_small. lia. Qed.

(** At a fee of the whole input nothing is left to move the price: a step that needs no input to
    reach its target divides by zero, and any other one takes the input as a fee. *)
Lemma whole_fee_step P T L rem :
  0 < P < 2 ^ 160 -> 0 < T < 2 ^ 160 -> 0 <= L < 2 ^ 128 -> 0 <= rem < 2 ^ 255 ->
  compute_swap_step P T L rem 1000000 =
    if L * (P - T) =? 0 then Err (FatalError "Division by zero") else Ok (P, 0, 0, rem).
Proof.
  intros HP HT HL Hrem. unfold compute_swap_step. replace (0 <=? rem) with true by lia.
  change (wrap 32 (1000000 - 1000000)) with 0. rewrite mul_div_down_eq by (unfold in_range; lia).
  rewrite Z.mul_0_r. change (0 / 1000000) with 0. cbn [mbind result_bind].
  assert (mul_div_rounding_up 0 1000000 0 = Err (FatalError "Division by zero")) as Hzero by (vm_compute; reflexivity).
  assert (safe_sub_u256 (Z.abs rem) 0 = Ok rem) as Hrest by (rewrite Z.abs_eq, safe_sub_eq by lia; f_equal; lia).
  destruct (Z.leb_spec T P) as [Hdir|Hdir].
  - destruct (amount0_delta_eq T P L ltac:(lia) ltac:(lia) HL true) as [-> _]. cbn [mbind result_bind].
    pose proof (cdiv_lower (L * 2 ^ 96 * (P - T)) P ltac:(lia)) as Hm. set (m := cdiv (L * 2 ^ 96 * (P - T)) P) in *.
    pose proof (cdiv_lower m T ltac:(lia)) as Hm'. destruct (Z.eqb_spec (L * (P - T)) 0) as [E|E].
    + replace m with 0 by (unfold m; replace (L * 2 ^ 96 * (P - T)) with 0 by lia; symmetry; apply cdiv_zero; lia).
      rewrite cdiv_zero by lia. change (0 <=? 0) with true. cbn [mbind result_bind andb negb].
      rewrite Z.eqb_refl. cbn [mbind result_bind andb negb].
      destruct (amount1_down_eq T P L ltac:(lia) ltac:(lia) HL) as [-> _]. rewrite E. change (0 <? 2 ^ 256) with true.
      cbn [mbind result_bind andb negb]. by rewrite Hzero.
    + assert (0 < L * (P - T)) by nia. assert (0 < m) by nia. replace (cdiv m T <=? 0) with false by nia.
      unfold get_next_sqrt_price_from_input. replace (P =? 0) with false by lia.
      unfold get_next_sqrt_price_from_amount0_rounding_up. rewrite Z.eqb_refl. cbn [mbind result_bind andb negb].
      replace (T =? P) with false by nia. cbn [mbind result_bind andb negb].
      destruct (amount0_delta_eq P P L ltac:(lia) ltac:(lia) HL true) as [-> _].
      destruct (amount1_down_eq P P L ltac:(lia) ltac:(lia) HL) as [-> _].
      rewrite Z.sub_diag, !Z.mul_0_r, !cdiv_zero by lia.
      change (0 <? 2 ^ 256) with true. change (0 / 2 ^ 96) with 0.
      cbn [mbind result_bind andb negb]. replace (P =? T) with false by nia. cbn [negb]. by rewrite Hrest.
  - destruct (amount1_up_eq P T L ltac:(lia) ltac:(lia) HL) as [-> _]. cbn [mbind result_bind].
    pose proof (cdiv_lower (L * (T - P)) (2 ^ 96) ltac:(lia)) as Hm. set (m := cdiv (L * (T - P)) (2 ^ 96)) in *.
    destruct (Z.eqb_spec (L * (P - T)) 0) as [E|E].
    + assert (L = 0) as -> by nia. replace m with 0 by (unfold m; vm_compute; reflexivity).
      change (0 <=? 0) with true. cbn [mbind result_bind andb negb]. rewrite Z.eqb_refl. cbn [mbind result_bind andb negb].
      destruct (amount0_delta_eq P T 0 ltac:(lia) ltac:(lia) HL false) as [-> _]. cbn [mbind result_bind andb negb]. by rewrite Hzero.
    + assert (0 < L * (T - P)) by nia. replace (m <=? 0) with false by nia.
      unfold get_next_sqrt_price_from_input. replace (P =? 0) with false by lia.
      rewrite (next_price_amount1_in P L 0) by lia. change (0 * 2 ^ 96) with 0. rewrite Zdiv_0_l, Z.add_0_r.
      change (0 <? 2 ^ 256) with true. replace (P <? 2 ^ 256) with true by lia. cbn [mbind result_bind andb negb].
      replace (T =? P) with false by lia. cbn [mbind result_bind andb negb].
      destruct (amount1_up_eq P P L ltac:(lia) ltac:(lia) HL) as [-> _].
      destruct (amount0_delta_eq P P L ltac:(lia) ltac:(lia) HL false) as [-> _].
      rewrite Z.sub_diag, !Z.mul_0_r. change (cdiv 0 (2 ^ 96)) with 0.
      rewrite cdiv_zero, Zdiv_0_l by lia.
      cbn [mbind result_bind andb negb]. replace (P =? T) with false by lia. cbn [negb]. by rewrite Hrest.
Qed.

(** C30. One step of a swap with an exact input, in either direction, at any fee up to 100%, between
    prices of 160 bits.  It never unwinds.  It fails with an overflow only when an intermediate
    product leaves 256 bits; and, only at a fee of exactly 100% and when no input is needed to reach
    the target, with a division by zero.  When it succeeds, the next price is between the current
    and the target price; the amount in and the fee together fit the remaining amount, and use all
    of it unless the target is reached; the amount in covers the exact one for the move; and the
    amount out never exceeds the exact one for token 1, and by at most one unit for token 0. *)
Theorem swap_step_exact_input (current target liquidity remaining fee : Z)
    (Hcurrent : 0 < current < 2 ^ 160) (Htarget : 0 < target < 2 ^ 160) (Hliquidity : 0 <= liquidity < 2 ^ 128)
    (Hremaining : 0 <= remaining < 2 ^ 255) (Hfee : 0 <= fee <= 1000000) :
  match compute_swap_step current target liquidity remaining fee with
  | Ok (next, amount_in, amount_out, fee_amount) =>
      step_ok current target liquidity remaining next amount_in amount_out fee_amount
  | Err e =>
      e = FatalError "U256 arithmetic overflow" /\
        (2 ^ 256 <= liquidity * Z.abs (current - target) \/ 2 ^ 256 <= liquidity * 2 ^ 96 + remaining * current) \/
      e = FatalError "Division by zero" /\ fee = 1000000 /\ liquidity * (current - target) = 0
  | Panic => False
  end.
Proof.
  destruct (Z.eq_dec fee 1000000) as [->|Hne].
  - rewrite whole_fee_step by done. destruct (Z.eqb_spec (liquidity * (current - target)) 0); [by right|].
    split; [lia|lia|lia|lia|]. destruct (Z.leb_spec target current); lia.
  - pose proof (step_total current target liquidity remaining fee Hcurrent Htarget Hliquidity Hremaining ltac:(lia)) as Hs.
    unfold step_result in Hs. destruct (compute_swap_step _ _ _ _ _) as [[[[n i] o] f]|e|]; [done|by left|done].
Qed.

(** A million units into a pool at price one, towards the price of tick -60. *)
Lemma swap_step_exact_input_witness :
  match compute_swap_step (2 ^ 96) (2 ^ 96 - 2 ^ 88) (10 ^ 18) (10 ^ 6) 3000 with
  | Ok (next, amount_in, amount_out, fee_amount) =>
      step_ok (2 ^ 96) (2 ^ 96 - 2 ^ 88) (10 ^ 18) (10 ^ 6) next amount_in amount_out fee_amount
  | _ => False
  end.
Proof.
  pose proof (swap_step_exact_input (2 ^ 96) (2 ^ 96 - 2 ^ 88) (10 ^ 18) (10 ^ 6) 3000 ltac:(lia) ltac:(lia) ltac:(lia) ltac:(lia) ltac:(lia)) as H.
  destruct (compute_swap_step _ _ _ _ _) as [[[[n i] o] f]|e|]; [done|lia|done].
Defined.

(** Amounts of token 0 between two prices.  Rounded up, the amount is never below the exact
    one; rounded down, it is the exact quotient or one above it, because the first of its two
    divisions rounds up as well. *)
Theorem amount0_delta_rounding (a b liquidity : Z)
    (Ha : 0 < a <= b) (Hb : b < 2 ^ 160) (Hliquidity : 0 <= liquidity < 2 ^ 128) :
  let exact := liquidity * 2 ^ 96 * (b - a) in
  exists up down, get_amount0_delta a b liquidity true = Ok up /\ get_amount0_delta a b liquidity false = Ok down /\
    exact <= up * (a * b) /\ exact / (a * b) <= down <= exact / (a * b) + 1.
Proof.
  cbv zeta. destruct (amount0_delta_eq a b liquidity Ha Hb Hliquidity true) as [-> _].
  destruct (amount0_delta_eq a b liquidity Ha Hb Hliquidity false) as [-> _]. do 2 eexists. split; [done|]. split; [done|].
  set (x := liquidity * 2 ^ 96 * (b - a)). assert (0 <= x) by (unfold x; nia). clearbody x.
  pose proof (cdiv_lower x b ltac:(lia)) as H1. pose proof (cdiv_upper x b ltac:(lia)) as H2.
  assert (0 <= cdiv x b) as H0 by (apply cdiv_nonneg; lia). set (m := cdiv x b) in *. clearbody m.
  pose proof (cdiv_lower m a ltac:(lia)) as H3. split; [nia|].
  pose proof (Z.mul_div_le m a ltac:(lia)). pose proof (Z.mul_succ_div_gt m a ltac:(lia)).
  set (d := m / a) in *. clearbody d. split.
  - apply Z.lt_succ_r, Z.div_lt_upper_bound; nia.
  - enough (d - 1 <= x / (a * b)) by lia. apply Z.div_le_lower_bound; [nia|].
    destruct (decide (d = 0)); nia.
Qed.

Lemma amount0_delta_rounding_witness :
  exists up down, get_amount0_delta (2 ^ 96) (2 ^ 96 + 2 ^ 90) (10 ^ 18) true = Ok up /\
    get_amount0_delta (2 ^ 96) (2 ^ 96 + 2 ^ 90) (10 ^ 18) false = Ok down /\ down <= up.
Proof.
  destruct (amount0_delta_rounding (2 ^ 96) (2 ^ 96 + 2 ^ 90) (10 ^ 18) ltac:(lia) ltac:(lia) ltac:(lia)) as (up & down & Hu & Hd & _).
  exists up, down. split; [done|]. split; [done|]. vm_compute in Hu, Hd. injection Hu as <-. injection Hd as <-. vm_compute. discriminate.
Defined.

(** The amount of token 0 that is asked to be rounded down can exceed the exact amount: with
    [round_up] unset, [get_amount0_delta] still rounds its first division up, and between the
    prices [2 ^ 33 + 1] and [2 ^ 33 + 3] it answers one unit more than the liquidity holds. *)
Theorem amount0_delta_exceeds_exact :
  exists a b liquidity down, 0 < a < b /\ 0 <= liquidity < 2 ^ 128 /\
    get_amount0_delta a b liquidity false = Ok down /\ liquidity * 2 ^ 96 * (b - a) < down * (a * b).
Proof.
  exists (2 ^ 33 + 1), (2 ^ 33 + 3), 51924168544497687067, 111506302833380574825351391915.
  split; [lia|]. split; [lia|]. split; [vm_compute; reflexivity|lia].
Qed.
