(* ===== verification/Clmm.v ===== *)
(** Concentrated-liquidity pools:
    [tycho_simulation::evm::protocol::{clmm, uniswap_v3, velodrome_slipstreams, ramses_v3}] and
    [utils::uniswap::mod].

    The pools share one swap loop; they differ in the fee, the gas they account and when they
    report no liquidity.  The loop is [clmm_swap], with the gas schedule as a record whose
    zero entries stand for the additions a pool does not make.  Float prices ([fee],
    [spot_price]) are not modelled. *)

From Stdlib Require Import Ascii.
From S2P Require Import Prelude Collections Bytes Models SafeMath Cpmm TickMath TickList SwapMath.

Open Scope Z_scope.

(** * utils/uniswap/mod.rs *)

Module SwapState.
Record t := mk { amount_remaining : Z; amount_calculated : Z; sqrt_price : Z; tick : Z; liquidity : Z }.
End SwapState.

Module SwapResults.
Record t := mk { amount_calculated : Z; amount_specified : Z; amount_remaining : Z; sqrt_price : Z;
                 liquidity : Z; tick : Z; gas_used : Z }.
Definition default_ : t := mk 0 0 0 0 0 0 0.
End SwapResults.

(** Shifts by the width or more are taken modulo the width. *)
Definition shl_i32 (x n : Z) : Z := swrap 32 (Z.shiftl x (n mod 32)).

Definition i24_be_bytes_to_i32 (val : Bytes) : Z :=
  let bytes_len := Z.of_nat (length val) in
  let result := foldl (fun acc '(i, byte) =>
      Z.lor acc (shl_i32 (b2z byte) (8 * (bytes_len - 1 - Z.of_nat i)))) 0 (imap pair val) in
  match val with
  | b :: _ => if Z.land (b2z b) 128 =? 0 then result else Z.lor result (shl_i32 (-1) (8 * bytes_len))
  | [] => result
  end.

(** * The swap loop *)

Module GasSchedule.
Record t := mk {
  base : Z;        (* before the loop *)
  per_word : Z;    (* for a search in the tick bitmap *)
  per_step : Z;    (* for the arithmetic of a turn *)
  per_cross : Z;   (* for crossing an initialized tick *)
  per_loop : Z;    (* at the end of a turn *)
  first_loop : Z;  (* at the end of the first turn *)
  settlement : Z   (* after the loop *)
}.
End GasSchedule.

Definition get_sqrt_ratio_target (sqrt_price_next sqrt_price_limit : Z) (zero_for_one : bool) : Z :=
  let cond1 := if zero_for_one then sqrt_price_next <? sqrt_price_limit else sqrt_price_limit <? sqrt_price_next in
  if cond1 then sqrt_price_limit else sqrt_price_next.

(** [I256::checked_from_sign_and_abs(Sign::Positive, v).unwrap()] *)
Definition i256_unwrap (v : Z) : result SimulationError Z := if v <? 2 ^ 255 then Ok v else Panic.

(** [i32::clamp]. *)
Definition clamp (x lo hi : Z) : Z := Z.min (Z.max x lo) hi.

Section swap.
Context (ticks : TickList.t) (fee : Z) (gas : GasSchedule.t).
Context (zero_for_one exact_input : bool) (price_limit : Z).

(** What the loop changes: the swap state, the gas, and whether no turn has run yet. *)
Record loop_state := { ls_state : SwapState.t; ls_gas : Z; ls_first : bool }.

(** The search for the next tick, and the error it is turned into. *)
Definition find_next_tick (state : SwapState.t) (gas_used : Z) : result SimulationError (Z * bool * Z) :=
  match TickList.next_initialized_tick_within_one_word (SwapState.tick state) zero_for_one ticks with
  | Ok (tick, init) => gas_used ← safe_add_u256 gas_used (GasSchedule.per_word gas); Ok (tick, init, gas_used)
  | Err TicksExeeded =>
      Err (InvalidInput "Ticks exceeded" (Some (PartialResult.mk
        (Z.abs (SwapState.amount_calculated state)) gas_used
        (SwapState.liquidity state) (SwapState.sqrt_price state) (SwapState.tick state))))
  | Err _ => Err (FatalError "Unknown error")
  | Panic => Panic
  end.

(** [amount_remaining] and [amount_calculated] after a step. *)
Definition account_step (state : SwapState.t) (amount_in amount_out fee_amount : Z) :
    result SimulationError (Z * Z) :=
  if exact_input then
    total ← safe_add_u256 amount_in fee_amount;
    spent ← i256_unwrap total;
    received ← i256_unwrap amount_out;
    Ok (swrap 256 (SwapState.amount_remaining state - spent),
        swrap 256 (SwapState.amount_calculated state - received))
  else
    received ← i256_unwrap amount_out;
    total ← safe_add_u256 amount_in fee_amount;
    spent ← i256_unwrap total;
    Ok (swrap 256 (SwapState.amount_remaining state + received),
        swrap 256 (SwapState.amount_calculated state + spent)).

(** [self.ticks.get_tick(tick_next).unwrap().net_liquidity], negated when going down. *)
Definition cross_tick (tick_next liquidity : Z) : result SimulationError Z :=
  match TickList.get_tick tick_next ticks with
  | Ok info =>
      let liquidity_raw := TickInfo.net_liquidity info in
      add_liquidity_delta liquidity (if zero_for_one then swrap 128 (- liquidity_raw) else liquidity_raw)
  | _ => Panic
  end.

(** One turn of the loop. *)
Definition swap_turn (s : loop_state) : result SimulationError loop_state :=
  let state := ls_state s in
  '(next_tick, initialized, gas_used) ← find_next_tick state (ls_gas s);
  let next_tick := clamp next_tick MIN_TICK MAX_TICK in
  let sqrt_price_start := SwapState.sqrt_price state in
  sqrt_price_next ← get_sqrt_ratio_at_tick next_tick;
  '(sqrt_price, amount_in, amount_out, fee_amount) ←
    compute_swap_step sqrt_price_start (get_sqrt_ratio_target sqrt_price_next price_limit zero_for_one)
      (SwapState.liquidity state) (SwapState.amount_remaining state) fee;
  gas_used ← safe_add_u256 gas_used (GasSchedule.per_step gas);
  '(amount_remaining, amount_calculated) ← account_step state amount_in amount_out fee_amount;
  '(liquidity, tick, gas_used) ←
    (if sqrt_price =? sqrt_price_next then
       '(liquidity, gas_used) ←
         (if (initialized : bool) then
            liquidity ← cross_tick next_tick (SwapState.liquidity state);
            gas_used ← safe_add_u256 gas_used (GasSchedule.per_cross gas);
            Ok (liquidity, gas_used)
          else Ok (SwapState.liquidity state, gas_used));
       Ok (liquidity, if zero_for_one then swrap 32 (next_tick - 1) else next_tick, gas_used)
     else if negb (sqrt_price =? sqrt_price_start) then
       tick ← get_tick_at_sqrt_ratio sqrt_price;
       Ok (SwapState.liquidity state, tick, gas_used)
     else Ok (SwapState.liquidity state, SwapState.tick state, gas_used));
  gas_used ← safe_add_u256 gas_used (GasSchedule.per_loop gas);
  gas_used ← (if ls_first s then safe_add_u256 gas_used (GasSchedule.first_loop gas) else Ok gas_used);
  Ok {| ls_state := SwapState.mk amount_remaining amount_calculated sqrt_price tick liquidity;
        ls_gas := gas_used; ls_first := false |}.

(** [while state.amount_remaining != 0 && state.sqrt_price != price_limit] *)
Definition swap_continues (s : loop_state) : bool :=
  negb (SwapState.amount_remaining (ls_state s) =? 0) && negb (SwapState.sqrt_price (ls_state s) =? price_limit).

Definition swap_step (s : loop_state) : loop_state + result SimulationError loop_state :=
  if swap_continues s then
    match swap_turn s with
    | Ok s' => inl s'
    | Err e => inr (Err e)
    | Panic => inr Panic
    end
  else inr (Ok s).
End swap.

(** [2 ^ 21] turns: more than there are ticks. *)
Definition SWAP_DOUBLINGS : nat := 21.

(** The limit of the price, or why the swap is refused. *)
Definition swap_price_limit (no_liquidity : bool) (sqrt_price : Z) (zero_for_one : bool) (sqrt_price_limit : option Z) :
    result SimulationError Z :=
  if no_liquidity then Err (RecoverableError "No liquidity")
  else
    price_limit ←
      (match sqrt_price_limit with
       | Some limit => Ok limit
       | None => if zero_for_one then safe_add_u256 MIN_SQRT_RATIO 1 else safe_sub_u256 MAX_SQRT_RATIO 1
       end);
    let price_limit_valid :=
      if zero_for_one then (MIN_SQRT_RATIO <? price_limit) && (price_limit <? sqrt_price)
      else (price_limit <? MAX_SQRT_RATIO) && (sqrt_price <? price_limit) in
    if negb price_limit_valid then Err (InvalidInput "Price limit out of range" None)
    else Ok price_limit.

(** The loop and its result.  [None] is an exhausted budget. *)
Definition swap_to_limit (ticks : TickList.t) (fee : Z) (gas : GasSchedule.t) (liquidity sqrt_price tick : Z)
    (zero_for_one : bool) (amount_specified price_limit : Z) : option (result SimulationError SwapResults.t) :=
  let exact_input := 0 <? amount_specified in
  let s0 := {| ls_state := SwapState.mk amount_specified 0 sqrt_price tick liquidity;
               ls_gas := GasSchedule.base gas; ls_first := true |} in
  match iterate SWAP_DOUBLINGS (swap_step ticks fee gas zero_for_one exact_input price_limit) s0 with
  | inl _ => None
  | inr r => Some (
      s ← r;
      gas_used ← safe_add_u256 (ls_gas s) (GasSchedule.settlement gas);
      Ok (SwapResults.mk (SwapState.amount_calculated (ls_state s)) amount_specified
            (SwapState.amount_remaining (ls_state s)) (SwapState.sqrt_price (ls_state s))
            (SwapState.liquidity (ls_state s)) (SwapState.tick (ls_state s)) gas_used))
  end.

(** [swap]. *)
Definition clmm_swap (ticks : TickList.t) (fee : Z) (gas : GasSchedule.t) (no_liquidity : bool)
    (liquidity sqrt_price tick : Z) (zero_for_one : bool) (amount_specified : Z) (sqrt_price_limit : option Z) :
    option (result SimulationError SwapResults.t) :=
  match swap_price_limit no_liquidity sqrt_price zero_for_one sqrt_price_limit with
  | Ok price_limit => swap_to_limit ticks fee gas liquidity sqrt_price tick zero_for_one amount_specified price_limit
  | Err e => Some (Err e)
  | Panic => Some Panic
  end.
