(* ===== verification/ClmmPools.v ===== *)
(** The states of the concentrated-liquidity pools: limits, swaps to a price, updates from
    attribute deltas, and the Uniswap v3, Velodrome Slipstreams and Ramses v3 states. *)

From Stdlib Require Import Ascii.
From S2P Require Import Prelude Collections Bytes Models SafeMath Cpmm TickMath TickList SwapMath Clmm.

Open Scope Z_scope.

(** [swap] as the callers see it; the budget is never exhausted on a pool whose tick and
    price agree: see [swap_exact_input]. *)
Definition run_swap (r : option (result SimulationError SwapResults.t)) : result SimulationError SwapResults.t :=
  match r with Some r => r | None => Panic end.

(** [I256::checked_from_sign_and_abs(Sign::Positive, U256::from_be_slice(..)).ok_or_else(..)] *)
Definition i256_amount (amount_in : Z) : result SimulationError Z :=
  value ← biguint_to_u256 amount_in;
  ok_or (if value <? 2 ^ 255 then Some value else None) (InvalidInput "I256 overflow: amount_in" None).

(** * get_limits *)

Section limits.
Context (ticks : TickList.t) (zero_for_one : bool).

(** [max_crossed]: the cap on the turns, where the pool has one.  [stop_on_underflow]: whether
    a negative liquidity ends the loop or is an error. *)
Context (max_crossed : option Z) (stop_on_underflow : bool).

Record limit_state := {
  lm_tick : Z; lm_price : Z; lm_liquidity : Z; lm_in : Z; lm_out : Z; lm_crossed : Z
}.

(** The amounts between the current price and the price of the next tick. *)
Definition limit_amounts (s : limit_state) (sqrt_price_next : Z) : result SimulationError (Z * Z) :=
  if zero_for_one then
    amount0 ← get_amount0_delta sqrt_price_next (lm_price s) (lm_liquidity s) true;
    amount1 ← get_amount1_delta sqrt_price_next (lm_price s) (lm_liquidity s) false;
    Ok (amount0, amount1)
  else
    amount0 ← get_amount0_delta sqrt_price_next (lm_price s) (lm_liquidity s) false;
    amount1 ← get_amount1_delta sqrt_price_next (lm_price s) (lm_liquidity s) true;
    Ok (amount1, amount0).

Definition limit_done (s : limit_state) : limit_state + result SimulationError (Z * Z) :=
  inr (Ok (u256_to_biguint (lm_in s), u256_to_biguint (lm_out s))).

Definition limit_step (s : limit_state) : limit_state + result SimulationError (Z * Z) :=
  match TickList.next_initialized_tick_within_one_word (lm_tick s) zero_for_one ticks with
  | Panic => inr Panic
  | Err _ => limit_done s
  | Ok (tick, initialized) =>
      if match max_crossed with Some m => m <=? lm_crossed s | None => false end then limit_done s
      else
        let next_tick := clamp tick MIN_TICK MAX_TICK in
        match sqrt_price_next ← get_sqrt_ratio_at_tick next_tick;
              '(amount_in, amount_out) ← limit_amounts s sqrt_price_next;
              total_in ← safe_add_u256 (lm_in s) amount_in;
              total_out ← safe_add_u256 (lm_out s) amount_out;
              Ok (sqrt_price_next, total_in, total_out) with
        | Err e => inr (Err e)
        | Panic => inr Panic
        | Ok (sqrt_price_next, total_in, total_out) =>
            let moved liquidity :=
              {| lm_tick := if zero_for_one then swrap 32 (next_tick - 1) else next_tick;
                 lm_price := sqrt_price_next; lm_liquidity := liquidity;
                 lm_in := total_in; lm_out := total_out; lm_crossed := lm_crossed s + 1 |} in
            if (initialized : bool) then
              match cross_tick ticks zero_for_one next_tick (lm_liquidity s) with
              | Ok new_liquidity => inl (moved new_liquidity)
              | Err e =>
                  if stop_on_underflow then inr (Ok (u256_to_biguint total_in, u256_to_biguint total_out))
                  else inr (Err e)
              | Panic => inr Panic
              end
            else inl (moved (lm_liquidity s))
        end
  end.

Definition clmm_get_limits (no_liquidity : bool) (liquidity sqrt_price tick : Z) :
    option (result SimulationError (Z * Z)) :=
  if no_liquidity then Some (Ok (0, 0))
  else
    match iterate SWAP_DOUBLINGS limit_step
            {| lm_tick := tick; lm_price := sqrt_price; lm_liquidity := liquidity;
               lm_in := 0; lm_out := 0; lm_crossed := 0 |} with
    | inl _ => None
    | inr r => Some r
    end.
End limits.

(** * clmm.rs *)

(** [swap_fn] is the swap with a price limit; [sign] is 1 for a positive and -1 for a negative
    amount. *)
Definition clmm_swap_to_price (sqrt_price : Z) (token_in token_out : Bytes) (target_price : Price.t)
    (fee_pips sign : Z) (swap_fn : bool → Z → Z → result SimulationError SwapResults.t) :
    result SimulationError (Z * Z * SwapResults.t) :=
  let zero_for_one := bytes_ltb token_in token_out in
  sqrt_price_limit ← get_sqrt_price_limit token_in token_out target_price fee_pips;
  if zero_for_one && (sqrt_price <=? sqrt_price_limit) then
    Err (InvalidInput "Target price is unreachable (already below current spot price)" None)
  else if negb zero_for_one && (sqrt_price_limit <=? sqrt_price) then
    Err (InvalidInput "Target price is unreachable (already below current spot price)" None)
  else
    let amount_specified := sign * U160_MAX in
    result ← swap_fn zero_for_one amount_specified sqrt_price_limit;
    let amount_in := Z.abs (swrap 256 (SwapResults.amount_specified result - SwapResults.amount_remaining result)) in
    if amount_in =? 0 then Ok (0, 0, SwapResults.default_)
    else
      let amount_out := Z.abs (SwapResults.amount_calculated result) in
      Ok (u256_to_biguint amount_in, u256_to_biguint amount_out, result).

(** * Attribute keys *)

(** [str::split('/')], the part before the first slash and the rest. *)
Fixpoint split_slash (s : string) : string * option string :=
  match s with
  | EmptyString => (EmptyString, None)
  | String c s' =>
      if Ascii.eqb c "/" then (EmptyString, Some s')
      else let '(a, r) := split_slash s' in (String c a, r)
  end.

(** [str::strip_prefix]. *)
Fixpoint strip_prefix (prefix s : string) : option string :=
  match prefix, s with
  | EmptyString, _ => Some s
  | String a p', String b s' => if Ascii.eqb a b then strip_prefix p' s' else None
  | _, _ => None
  end.

Definition digit (c : ascii) : option Z :=
  let n := Z.of_nat (nat_of_ascii c) in
  if (48 <=? n) && (n <=? 57) then Some (n - 48) else None.

Fixpoint digits (s : string) (acc : Z) : option Z :=
  match s with
  | EmptyString => Some acc
  | String c s' => match digit c with Some d => digits s' (10 * acc + d) | None => None end
  end.

(** [str::parse::<i32>]: an optional sign, at least one digit, the value in range. *)
Definition parse_i32 (s : string) : option Z :=
  let number s := match s with EmptyString => None | _ => digits s 0 end in
  let value :=
    match s with
    | String c s' =>
        if Ascii.eqb c "-" then Z.opp <$> number s' else if Ascii.eqb c "+" then number s' else number s
    | EmptyString => None
    end in
  match value with Some v => schecked 32 v | None => None end.

(** [parts[1]] of a key that starts with [ticks/]. *)
Definition tick_key (key : string) : option string :=
  (fun rest => (split_slash rest).1) <$> strip_prefix "ticks/" key.

(** * Updates of the tick list *)

(** The body of the loops over attributes: [part] selects the text of the tick index. *)
Definition update_tick (part : string → option string) (key : string) (value : result TransitionError Z) :
    stm TickList.t TransitionError unit := fun self =>
  match part key with
  | None => (Ok tt, self)
  | Some text =>
      match parse_i32 text with
      | None => (Err (TransitionDecodeError "invalid tick index"), self)
      | Some tick =>
          match value with
          | Ok liquidity =>
              st_map_err (fun _ => TransitionDecodeError "invalid tick")
                (TickList.set_tick_liquidity tick liquidity) self
          | Err e => (Err e, self)
          | Panic => (Panic, self)
          end
      end
  end.

(** The two loops, over the updated and the deleted attributes. *)
Definition update_ticks (part : string → option string) (updated : gmap string Bytes) (deleted : gset string) :
    stm TickList.t TransitionError unit := fun self =>
  (for_each (fun '(key, value) => update_tick part key (int_from_bytes 16 value)) (map_to_list updated) ;?
   for_each (fun key => update_tick part key (Ok 0)) (elements deleted))%tycho self.

(** * uniswap_v3 *)

Inductive FeeAmount := Lowest | Lowest2 | Lowest3 | Lowest4 | Low | MediumLow | Medium | MediumHigh | High.

#[global] Instance fee_amount_eq_dec : EqDecision FeeAmount.
Proof. solve_decision. Defined.

(** [fee as u32]. *)
Definition fee_pips (fee : FeeAmount) : Z :=
  match fee with
  | Lowest => 100 | Lowest2 => 200 | Lowest3 => 300 | Lowest4 => 400 | Low => 500
  | MediumLow => 2500 | Medium => 3000 | MediumHigh => 5000 | High => 10000
  end.

Definition fee_try_from (value : Z) : result unit FeeAmount :=
  if value =? 100 then Ok Lowest else if value =? 200 then Ok Lowest2 else if value =? 300 then Ok Lowest3
  else if value =? 400 then Ok Lowest4 else if value =? 500 then Ok Low else if value =? 2500 then Ok MediumLow
  else if value =? 3000 then Ok Medium else if value =? 5000 then Ok MediumHigh else if value =? 10000 then Ok High
  else Err tt.

Module UniswapV3State.
Record t := mk { liquidity : Z; sqrt_price : Z; fee : FeeAmount; tick : Z; ticks : TickList.t }.
#[global] Instance eq_dec : EqDecision t.
Proof. solve_decision. Defined.

Definition GAS : GasSchedule.t := GasSchedule.mk 70000 2100 5400 24000 0 0 70000.
Definition MAX_TICKS_CROSSED : Z := (16700000 - 70000) / 24000.

Definition get_spacing (fee : FeeAmount) : Z :=
  match fee with
  | Lowest => 1 | Lowest2 => 2 | Lowest3 => 3 | Lowest4 => 4 | Low => 10
  | MediumLow => 50 | Medium => 60 | MediumHigh => 100 | High => 200
  end.

Definition new (liquidity sqrt_price : Z) (fee : FeeAmount) (tick : Z) (ticks : list TickInfo.t) :
    result SimulationError t :=
  let spacing := get_spacing fee in
  tick_list ← TickList.from spacing ticks;
  Ok (mk liquidity sqrt_price fee tick tick_list).

Definition swap (self : t) (zero_for_one : bool) (amount_specified : Z) (sqrt_price_limit : option Z) :
    option (result SimulationError SwapResults.t) :=
  clmm_swap (ticks self) (fee_pips (fee self)) GAS (liquidity self =? 0)
    (liquidity self) (sqrt_price self) (tick self) zero_for_one amount_specified sqrt_price_limit.

Definition after_swap (self : t) (r : SwapResults.t) : t :=
  mk (SwapResults.liquidity r) (SwapResults.sqrt_price r) (fee self) (SwapResults.tick r) (ticks self).

Definition get_amount_out (amount_in : Z) (token_a token_b : Token.t) (self : t) :
    result SimulationError (GetAmountOutResult.t t) :=
  let zero_for_one := Token.ltb token_a token_b in
  amount_specified ← i256_amount amount_in;
  result ← run_swap (swap self zero_for_one amount_specified None);
  Ok (GetAmountOutResult.mk (u256_to_biguint (Z.abs (SwapResults.amount_calculated result)))
        (u256_to_biguint (SwapResults.gas_used result)) (after_swap self result)).

Definition get_limits (token_in token_out : Bytes) (self : t) : option (result SimulationError (Z * Z)) :=
  clmm_get_limits (ticks self) (bytes_ltb token_in token_out) (Some MAX_TICKS_CROSSED) true
    (liquidity self =? 0) (liquidity self) (sqrt_price self) (tick self).

Definition query_pool_swap (token_in token_out : Token.t) (constraint : SwapConstraint) (self : t) :
    result SimulationError (PoolSwap.t t) :=
  if liquidity self =? 0 then Err (FatalError "No liquidity")
  else
    match constraint with
    | TradeLimitPrice =>
        Err (InvalidInput "Uniswap V3 does not support TradeLimitPrice constraint in query_pool_swap" None)
    | PoolTargetPrice target =>
        '(amount_in, amount_out, swap_result) ←
          clmm_swap_to_price (sqrt_price self) (Token.address token_in) (Token.address token_out) target
            (fee_pips (fee self)) 1 (fun zero_for_one amount limit => run_swap (swap self zero_for_one amount (Some limit)));
        Ok (PoolSwap.mk amount_in amount_out (after_swap self swap_result))
    end.

(** The liquidity and tick of a pool that was never updated come as 32 zero bytes. *)
Definition unpad (what : string) (size : nat) (value : Bytes) : result TransitionError Bytes :=
  if decide (length value = 32%nat) then
    if decide (value = zero 32) then Ok (zero size) else Err (TransitionDecodeError what)
  else Ok value.

Definition set_ticks (ticks : TickList.t) (self : t) : t :=
  mk (liquidity self) (sqrt_price self) (fee self) (tick self) ticks.

(** [if let Some(value) = updated.get(name) { field = decode(value)?; }] *)
Definition set_attribute {S} (updated : gmap string Bytes) (name : string)
    (decode : Bytes → result TransitionError Z) (set : Z → S → S) : stm S TransitionError unit := fun self =>
  match updated !! name with
  | None => (Ok tt, self)
  | Some value =>
      match decode value with
      | Ok z => (Ok tt, set z self)
      | Err e => (Err e, self)
      | Panic => (Panic, self)
      end
  end.

Open Scope tycho_scope.
Definition delta_transition (updated : gmap string Bytes) (deleted : gset string) : stm t TransitionError unit :=
  set_attribute updated "liquidity"
    (fun b => liq_16_bytes ← unpad "Liquidity bytes too long, expected 16" 16 b; uint_from_bytes 16 liq_16_bytes)
    (fun v self => mk v (sqrt_price self) (fee self) (tick self) (ticks self)) ;?
  set_attribute updated "sqrt_price_x96" u256_from_be_slice
    (fun v self => mk (liquidity self) v (fee self) (tick self) (ticks self)) ;?
  set_attribute updated "tick"
    (fun b => ticks_4_bytes ← unpad "Tick bytes too long, expected 4" 4 b; Ok (i24_be_bytes_to_i32 ticks_4_bytes))
    (fun v self => mk (liquidity self) (sqrt_price self) (fee self) v (ticks self)) ;?
  on_field ticks set_ticks (update_ticks tick_key updated deleted).
Close Scope tycho_scope.

Definition eq (self other : t) : bool := bool_decide (self = other).
End UniswapV3State.

(** * velodrome_slipstreams *)

Module VelodromeSlipstreamsState.
Record t := mk { liquidity : Z; sqrt_price : Z; default_fee : Z; custom_fee : Z; tick_spacing : Z; tick : Z;
                 ticks : TickList.t }.

Definition GAS : GasSchedule.t := GasSchedule.mk 130000 0 0 25000 10000 0 0.

(** [tick_spacing as u16]. *)
Definition new (liquidity sqrt_price default_fee custom_fee tick_spacing tick : Z) (ticks : list TickInfo.t) :
    result SimulationError t :=
  tick_list ← TickList.from (wrap 16 tick_spacing) ticks;
  Ok (mk liquidity sqrt_price default_fee custom_fee tick_spacing tick tick_list).

Definition get_fee (self : t) : Z := if 0 <? custom_fee self then custom_fee self else default_fee self.

Definition swap (self : t) (zero_for_one : bool) (amount_specified : Z) (sqrt_price_limit : option Z) :
    option (result SimulationError SwapResults.t) :=
  clmm_swap (ticks self) (get_fee self) GAS (liquidity self =? 0)
    (liquidity self) (sqrt_price self) (tick self) zero_for_one amount_specified sqrt_price_limit.

Definition after_swap (self : t) (r : SwapResults.t) : t :=
  mk (SwapResults.liquidity r) (SwapResults.sqrt_price r) (default_fee self) (custom_fee self) (tick_spacing self)
     (SwapResults.tick r) (ticks self).

Definition get_amount_out (amount_in : Z) (token_a token_b : Token.t) (self : t) :
    result SimulationError (GetAmountOutResult.t t) :=
  let zero_for_one := Token.ltb token_a token_b in
  amount_specified ← i256_amount amount_in;
  result ← run_swap (swap self zero_for_one amount_specified None);
  Ok (GetAmountOutResult.mk (u256_to_biguint (Z.abs (SwapResults.amount_calculated result)))
        (u256_to_biguint (SwapResults.gas_used result)) (after_swap self result)).

Definition get_limits (token_in token_out : Bytes) (self : t) : option (result SimulationError (Z * Z)) :=
  clmm_get_limits (ticks self) (bytes_ltb token_in token_out) None false
    (liquidity self =? 0) (liquidity self) (sqrt_price self) (tick self).

Definition set_ticks (ticks : TickList.t) (self : t) : t :=
  mk (liquidity self) (sqrt_price self) (default_fee self) (custom_fee self) (tick_spacing self) (tick self) ticks.

Import UniswapV3State(set_attribute).
Open Scope tycho_scope.
Definition delta_transition (updated : gmap string Bytes) (deleted : gset string) : stm t TransitionError unit :=
  set_attribute updated "liquidity" (uint_from_bytes 16)
    (fun v s => mk v (sqrt_price s) (default_fee s) (custom_fee s) (tick_spacing s) (tick s) (ticks s)) ;?
  set_attribute updated "sqrt_price_x96" u256_from_be_slice
    (fun v s => mk (liquidity s) v (default_fee s) (custom_fee s) (tick_spacing s) (tick s) (ticks s)) ;?
  set_attribute updated "default_fee" (uint_from_bytes 4)
    (fun v s => mk (liquidity s) (sqrt_price s) v (custom_fee s) (tick_spacing s) (tick s) (ticks s)) ;?
  set_attribute updated "custom_fee" (uint_from_bytes 4)
    (fun v s => mk (liquidity s) (sqrt_price s) (default_fee s) v (tick_spacing s) (tick s) (ticks s)) ;?
  set_attribute updated "tick" (int_from_bytes 4)
    (fun v s => mk (liquidity s) (sqrt_price s) (default_fee s) (custom_fee s) (tick_spacing s) v (ticks s)) ;?
  on_field ticks set_ticks (update_ticks tick_key updated deleted).
Close Scope tycho_scope.
End VelodromeSlipstreamsState.

(** * ramses_v3 *)

Module RamsesV3State.
Record t := mk { liquidity : Z; sqrt_price : Z; fee : Z; tick : Z; tick_spacing : Z; ticks : TickList.t }.

Definition GAS : GasSchedule.t := GasSchedule.mk 78000 2100 5400 35000 0 0 70000.
Definition MAX_TICKS_CROSSED : Z := (16700000 - 78000) / 35000.

Definition new (liquidity sqrt_price fee tick_spacing tick : Z) (ticks : list TickInfo.t) : result SimulationError t :=
  tick_list ← TickList.from tick_spacing ticks;
  Ok (mk liquidity sqrt_price fee tick tick_spacing tick_list).

Definition swap (self : t) (zero_for_one : bool) (amount_specified : Z) (sqrt_price_limit : option Z) :
    option (result SimulationError SwapResults.t) :=
  clmm_swap (ticks self) (fee self) GAS (negb (TickList.has_initialized_ticks (ticks self)))
    (liquidity self) (sqrt_price self) (tick self) zero_for_one amount_specified sqrt_price_limit.

Definition after_swap (self : t) (r : SwapResults.t) : t :=
  mk (SwapResults.liquidity r) (SwapResults.sqrt_price r) (fee self) (SwapResults.tick r) (tick_spacing self) (ticks self).

(** [saturating_abs] of the smallest [I256] is the largest. *)
Definition get_amount_out (amount_in : Z) (token_a token_b : Token.t) (self : t) :
    result SimulationError (GetAmountOutResult.t t) :=
  let zero_for_one := Token.ltb token_a token_b in
  amount_specified ← ok_or (if amount_in <? 2 ^ 255 then Some amount_in else None)
                       (InvalidInput "I256 overflow: amount_in" None);
  result ← run_swap (swap self zero_for_one amount_specified None);
  Ok (GetAmountOutResult.mk (u256_to_biguint (Z.min (Z.abs (SwapResults.amount_calculated result)) (2 ^ 255 - 1)))
        (u256_to_biguint (SwapResults.gas_used result)) (after_swap self result)).

Definition get_limits (token_in token_out : Bytes) (self : t) : option (result SimulationError (Z * Z)) :=
  clmm_get_limits (ticks self) (bytes_ltb token_in token_out) (Some MAX_TICKS_CROSSED) true
    (negb (TickList.has_initialized_ticks (ticks self))) (liquidity self) (sqrt_price self) (tick self).

Definition query_pool_swap (token_in token_out : Token.t) (constraint : SwapConstraint) (self : t) :
    result SimulationError (PoolSwap.t t) :=
  if negb (TickList.has_initialized_ticks (ticks self)) then Err (RecoverableError "No liquidity")
  else
    match constraint with
    | TradeLimitPrice =>
        Err (InvalidInput "Ramses V3 does not support TradeLimitPrice constraint in query_pool_swap" None)
    | PoolTargetPrice target =>
        '(amount_in, amount_out, swap_result) ←
          clmm_swap_to_price (sqrt_price self) (Token.address token_in) (Token.address token_out) target
            (fee self) 1 (fun zero_for_one amount limit => run_swap (swap self zero_for_one amount (Some limit)));
        Ok (PoolSwap.mk amount_in amount_out (after_swap self swap_result))
    end.

Definition set_ticks (ticks : TickList.t) (self : t) : t :=
  mk (liquidity self) (sqrt_price self) (fee self) (tick self) (tick_spacing self) ticks.

(** The whole text after the prefix is the index; the three fields read before are removed
    from the attributes, none of which is a tick key. *)
Import UniswapV3State(set_attribute).
Open Scope tycho_scope.
Definition delta_transition (updated : gmap string Bytes) (deleted : gset string) : stm t TransitionError unit :=
  set_attribute updated "liquidity" (uint_from_bytes 16)
    (fun v s => mk v (sqrt_price s) (fee s) (tick s) (tick_spacing s) (ticks s)) ;?
  set_attribute updated "sqrt_price_x96" u256_from_be_slice
    (fun v s => mk (liquidity s) v (fee s) (tick s) (tick_spacing s) (ticks s)) ;?
  set_attribute updated "tick" (int_from_bytes 4)
    (fun v s => mk (liquidity s) (sqrt_price s) (fee s) v (tick_spacing s) (ticks s)) ;?
  set_attribute updated "fee" (uint_from_bytes 4)
    (fun v s => mk (liquidity s) (sqrt_price s) v (tick s) (tick_spacing s) (ticks s)) ;?
  on_field ticks set_ticks (update_ticks (strip_prefix "ticks/") updated deleted).
Close Scope tycho_scope.
End RamsesV3State.
