(* ===== verification/ClmmSpec.v ===== *)
(** What the swap loop of the concentrated-liquidity pools guarantees.

    A pool is well formed when its tick and its price agree; the loop keeps them in agreement,
    moves the price only towards the limit, never spends more than the input, and comes to an
    end because every turn that does not end it moves the tick in the direction of the swap. *)

From S2P Require Import Prelude Collections Bytes Models SafeMath SafeMathSpec Cpmm TickMath TickMathSpec TickInverse.
From S2P Require Import TickList TickListSpec SwapMath SwapMathSpec Clmm ClmmPools.

Open Scope Z_scope.

(** The errors of a swap whose price limit is accepted. *)
Definition swap_error (e : SimulationError) : Prop :=
  e = overflow \/ e = FatalError "Underflow: Result is negative" \/
  exists partial, e = InvalidInput "Ticks exceeded" (Some partial).

(** The price lies in the interval of the tick, both ends included. *)
Definition tick_agrees (tick price : Z) : Prop :=
  MIN_TICK <= tick < MAX_TICK /\ price_of tick <= price <= price_of (tick + 1).

Lemma tick_agrees_price tick price : tick_agrees tick price -> MIN_SQRT_RATIO <= price <= MAX_SQRT_RATIO.
Proof.
  intros [Ht Hp]. pose proof (price_range tick ltac:(lia)). pose proof (price_range (tick + 1) ltac:(lia)). lia.
Qed.

Lemma sqrt_ratio_bounds : 0 < MIN_SQRT_RATIO /\ MIN_SQRT_RATIO < MAX_SQRT_RATIO /\ MAX_SQRT_RATIO < 2 ^ 160.
Proof. vm_compute. done. Qed.

Lemma tick_constants : MIN_TICK = -887272 /\ MAX_TICK = 887272.
Proof. done. Qed.

Lemma clamp_spec x lo hi : lo <= hi -> lo <= clamp x lo hi <= hi /\ (lo <= x <= hi -> clamp x lo hi = x).
Proof. unfold clamp. lia. Qed.

Lemma price_mono t u : MIN_TICK <= t -> t <= u -> u <= MAX_TICK -> price_of t <= price_of u.
Proof. intros. destruct (decide (t = u)) as [->|]; [lia|]. apply Z.lt_le_incl, price_increasing; lia. Qed.

(** * Results with a postcondition *)

(** [r] does not unwind, an error satisfies [E], a value [Q]. *)
Definition ends {Err A} (E : Err -> Prop) (Q : A -> Prop) (r : result Err A) : Prop :=
  match r with Ok a => Q a | Err e => E e | Panic => False end.

Lemma ends_bind {Err A B} (E : Err -> Prop) (Q : B -> Prop) (r : result Err A) (f : A -> result Err B) :
  ends E (fun a => ends E Q (f a)) r -> ends E Q (r ≫= f).
Proof. by destruct r. Qed.

Lemma ends_mono {Err A} (E : Err -> Prop) (P Q : A -> Prop) (r : result Err A) :
  ends E P r -> (forall a, P a -> Q a) -> ends E Q r.
Proof. destruct r; cbn; auto. Qed.

Abbreviation swap_ends := (ends swap_error).

Lemma add_ends a b : swap_ends (fun _ => True) (safe_add_u256 a b).
Proof. unfold safe_add_u256. destruct (checked 256 (a + b)); cbn; [done|by left]. Qed.

Lemma recorded_range ticks n : ticks_ok ticks -> is_Some (net_at n (TickList.ticks ticks)) -> MIN_TICK <= n <= MAX_TICK.
Proof.
  intros Hok (t & Hin & <-)%net_at_is_Some. pose proof (ok_range _ Hok) as Hr. rewrite Forall_forall in Hr. by apply Hr.
Qed.

(** Crossing a recorded tick finds it and keeps the liquidity in range. *)
Lemma cross_tick_ends ticks zfo n liq :
  ticks_ok ticks -> is_Some (net_at n (TickList.ticks ticks)) -> 0 <= liq < 2 ^ 128 ->
  swap_ends (fun liq' => 0 <= liq' < 2 ^ 128) (cross_tick ticks zfo n liq).
Proof.
  intros Hok Hn Hl. unfold cross_tick, TickList.get_tick.
  pose proof (binary_search_spec n (TickList.ticks ticks) (ok_ordered _ Hok)) as Hs.
  destruct (binary_search n (TickList.ticks ticks)) as [i|i|]; [|exfalso|done].
  2: { apply net_at_is_Some in Hn as (t & Ht & Hi). apply list_elem_of_lookup in Ht as [j Hj].
       destruct (proj2 Hs j t Hj); lia. }
  destruct Hs as (t & -> & _). cbn [unwrap]. set (d := if zfo then _ else _). unfold add_liquidity_delta.
  destruct (d <? 0).
  - unfold checked. destruct (fits _ _) eqn:Hf; cbn [ok_or ends]; [by apply fits_spec in Hf|right; by left].
  - cbn. apply (wrap_range 128). lia.
Qed.

(** * The next tick *)

(** The tick found, after clamping: on the way, and recorded if reported as initialized. *)
Definition next_ok (ticks : TickList.t) (zfo : bool) (tick n : Z) (init : bool) : Prop :=
  MIN_TICK <= n <= MAX_TICK /\ (if zfo then n <= tick else (tick < n)) /\
  (init = true -> is_Some (net_at n (TickList.ticks ticks))).

Lemma word_next ticks zfo tick :
  ticks_ok ticks -> MIN_TICK - 1 <= tick <= MAX_TICK ->
  match TickList.next_initialized_tick_within_one_word tick zfo ticks with
  | Ok (n, init) => next_ok ticks zfo tick (clamp n MIN_TICK MAX_TICK) init
  | Err e => e = TicksExeeded
  | Panic => False
  end.
Proof.
  intros Hok Ht. destruct tick_constants as [Hmin Hmax]. unfold next_ok.
  assert (Z.abs tick <= 2 ^ 20) as Ha by lia. pose proof (recorded_range ticks) as Hrec.
  pose proof (next_word_lte ticks _ Hok Ha) as Hlte. pose proof (next_word_gt ticks _ Hok Ha) as Hgt. destruct zfo.
  - destruct (TickList.next_initialized_tick_within_one_word _ true ticks) as [[n init]|e|]; [|apply Hlte|done].
    destruct Hlte as (Hin & Hn & _ & Hi & _). destruct (clamp_spec n MIN_TICK MAX_TICK ltac:(lia)) as [Hc Heq].
    split_and!; [lia|lia|unfold clamp; lia|]. intros Hi'. apply Hi in Hi'. rewrite Heq; [done|]. by apply Hrec.
  - destruct (TickList.next_initialized_tick_within_one_word _ false ticks) as [[n init]|e|]; [|apply Hgt|done].
    destruct Hgt as (Hin & Hn & _ & Hi & _). destruct (clamp_spec n MIN_TICK MAX_TICK ltac:(lia)) as [Hc Heq].
    split_and!; [lia|lia|unfold clamp; lia|]. intros Hi'. apply Hi in Hi'. rewrite Heq; [done|]. by apply Hrec.
Qed.

(** * One turn *)

Section turn.
Context (ticks : TickList.t) (fee : Z) (gas : GasSchedule.t) (zfo : bool) (limit amount start : Z).
Context (Hticks : ticks_ok ticks) (Hfee : 0 <= fee < 1000000).
Context (Hlimit : MIN_SQRT_RATIO < limit < MAX_SQRT_RATIO) (Hamount : 0 <= amount < 2 ^ 255).

Abbreviation continues := (swap_continues limit).

(** The price is between the starting price and the limit. *)
Definition towards (price : Z) : Prop := if zfo then limit <= price <= start else (start <= price <= limit).

(** The turns that can still follow. *)
Definition turns_left (s : loop_state) : Z :=
  if continues s then
    (if zfo then SwapState.tick (ls_state s) - MIN_TICK + 2 else MAX_TICK - SwapState.tick (ls_state s) + 1)
  else 0.

Record swap_inv (s : loop_state) : Prop := {
  inv_remaining : 0 <= SwapState.amount_remaining (ls_state s) <= amount;
  inv_liquidity : 0 <= SwapState.liquidity (ls_state s) < 2 ^ 128;
  inv_price : towards (SwapState.sqrt_price (ls_state s));
  inv_tick : tick_agrees (SwapState.tick (ls_state s)) (SwapState.sqrt_price (ls_state s));
  inv_calculated : - 2 ^ 224 * (2 ^ 21 - turns_left s) <= SwapState.amount_calculated (ls_state s) <= 0
}.

Lemma turns_left_range s : swap_inv s -> 0 <= turns_left s < 2 ^ 21.
Proof using.
  intros [_ _ _ [Ht _] _]. unfold turns_left. destruct tick_constants. destruct (continues s), zfo; lia.
Qed.

Lemma find_next_tick_ends s g :
  MIN_TICK <= SwapState.tick s < MAX_TICK ->
  swap_ends (fun '(n, init, _) => next_ok ticks zfo (SwapState.tick s) (clamp n MIN_TICK MAX_TICK) init) (find_next_tick ticks gas zfo s g).
Proof using Hticks.
  intros Ht. pose proof (word_next ticks zfo (SwapState.tick s) Hticks ltac:(lia)) as Hn. unfold find_next_tick.
  destruct (TickList.next_initialized_tick_within_one_word _ _ _) as [[n init]|e|]; [| |done].
  - apply ends_bind, (ends_mono _ _ _ _ (add_ends _ _)). done.
  - rewrite Hn. right. right. by eexists.
Qed.

(** The state of a turn: the tick and price before, the tick found. *)
Context (s : loop_state) (Hinv : swap_inv s) (Hcont : continues s = true).
Abbreviation P := (SwapState.sqrt_price (ls_state s)).
Abbreviation L := (SwapState.liquidity (ls_state s)).
Abbreviation rem := (SwapState.amount_remaining (ls_state s)).
Abbreviation calc := (SwapState.amount_calculated (ls_state s)).
Abbreviation tick := (SwapState.tick (ls_state s)).

Section found.
Context (n : Z) (init : bool) (Hn : next_ok ticks zfo tick n init).
Abbreviation T := (get_sqrt_ratio_target (price_of n) limit zfo).

Lemma target_spec :
  T = (if zfo then Z.max (price_of n) limit else Z.min (price_of n) limit) /\
  (if zfo then T <= P else P <= T) /\ 0 < P < 2 ^ 160 /\ 0 < T < 2 ^ 160.
Proof using Hinv Hn Hlimit.
  destruct Hinv as [_ _ Hprice Htick _]. pose proof (tick_agrees_price _ _ Htick). destruct Htick as [Ht Hag].
  destruct Hn as (Hr & Hdir & _). pose proof (price_range n Hr). pose proof sqrt_ratio_bounds.
  unfold get_sqrt_ratio_target, towards in *. destruct zfo.
  - pose proof (price_mono n tick ltac:(lia) ltac:(lia) ltac:(lia)). destruct (Z.ltb_spec (price_of n) limit); lia.
  - pose proof (price_mono (tick + 1) n ltac:(lia) ltac:(lia) ltac:(lia)). destruct (Z.ltb_spec limit (price_of n)); lia.
Qed.

Context (next ain aout fee_amount : Z) (Hstep : step_ok P T L rem next ain aout fee_amount).

Lemma next_towards : towards next /\ (if zfo then T <= next <= P else P <= next <= T).
Proof using Hinv Hn Hlimit Hstep.
  destruct target_spec as (HT & Hdir & _). pose proof (step_between _ _ _ _ _ _ _ _ Hstep).
  pose proof (inv_price _ Hinv) as Hp. unfold towards in *. destruct zfo; lia.
Qed.

Lemma step_out_bound : aout <= 2 ^ 224.
Proof using Hinv Hn Hlimit Hstep.
  destruct target_spec as (_ & _ & HP & HT). destruct Hstep as [Hb (_ & Ho & _) _ _ Hr].
  pose proof (inv_liquidity _ Hinv) as HL. destruct (Z.leb_spec T P).
  - destruct Hr as [_ Hr]. assert (L * (P - next) <= 2 ^ 128 * 2 ^ 160) by (apply Z.mul_le_mono_nonneg; lia). lia.
  - destruct Hr as [_ Hr]. assert (0 < next) by lia. assert (aout * P - 1 < L * 2 ^ 96) by nia. nia.
Qed.

Lemma account_ends :
  swap_ends (fun '(rem', calc') => rem' = rem - (ain + fee_amount) /\ calc' = calc - aout)
    (account_step true (ls_state s) ain aout fee_amount).
Proof using Hinv Hn Hlimit Hstep Hamount.
  pose proof step_out_bound. pose proof (step_affordable _ _ _ _ _ _ _ _ Hstep). pose proof (step_nonneg _ _ _ _ _ _ _ _ Hstep).
  pose proof (inv_remaining _ Hinv). pose proof (inv_calculated _ Hinv). pose proof (turns_left_range s Hinv).
  unfold account_step, i256_unwrap. rewrite safe_add_eq by lia. replace (ain + fee_amount <? 2 ^ 256) with true by lia.
  cbn [mbind result_bind]. replace (ain + fee_amount <? 2 ^ 255) with true by lia. cbn [mbind result_bind].
  replace (aout <? 2 ^ 255) with true by lia. cbn [mbind result_bind ends].
  assert (- 2 ^ 246 <= calc) by nia.
  rewrite !swrap_small by (unfold in_srange; lia). done.
Qed.

(** The tick after the turn. *)
Definition tick_after (tick' : Z) : Prop :=
  tick_agrees tick' next /\ (next = price_of n -> tick' = if zfo then n - 1 else n).

Lemma reached_tick : next = price_of n -> tick_after (if zfo then n - 1 else n).
Proof using Hinv Hn Hlimit Hstep.
  intros He. split; [|done]. destruct next_towards as [Hto _]. destruct price_ends as [E1 E2].
  destruct Hn as (Hr & _ & _). unfold towards, tick_agrees in *. destruct zfo.
  - assert (n <> MIN_TICK) by (intros ->; lia). pose proof (price_mono (n - 1) n ltac:(lia) ltac:(lia) ltac:(lia)).
    replace (n - 1 + 1) with n by lia. lia.
  - assert (n <> MAX_TICK) by (intros ->; lia). pose proof (price_mono n (n + 1) ltac:(lia) ltac:(lia) ltac:(lia)). lia.
Qed.

Lemma found_tick_ends : next <> price_of n -> next <> P -> swap_ends tick_after (get_tick_at_sqrt_ratio next).
Proof using Hinv Hn Hlimit Hstep.
  intros Hne HneP. destruct next_towards as [Hto Hb]. pose proof (tick_agrees_price _ _ (inv_tick _ Hinv)).
  destruct (tick_at_price next) as (t & -> & Ht & Hpt).
  { unfold price_ok, towards in *. destruct zfo; lia. }
  cbn. split; [|done]. split; [done|lia].
Qed.
End found.
Lemma step_ends n init :
  next_ok ticks zfo tick n init ->
  swap_ends (fun '(next, ain, aout, fee_amount) =>
      step_ok P (get_sqrt_ratio_target (price_of n) limit zfo) L rem next ain aout fee_amount)
    (compute_swap_step P (get_sqrt_ratio_target (price_of n) limit zfo) L rem fee).
Proof using Hinv Hlimit Hfee Hamount.
  intros Hn. destruct (target_spec n init Hn) as (_ & _ & HP & HT).
  pose proof (inv_remaining _ Hinv). pose proof (inv_liquidity _ Hinv).
  pose proof (step_total P _ L rem fee HP HT ltac:(lia) ltac:(lia) Hfee) as Hs. unfold step_result in Hs.
  destruct (compute_swap_step _ _ _ _ _) as [[[[next ain] aout] fa]|e|]; [done| |done]. destruct Hs as [-> _]. by left.
Qed.

(** What is left of the turn once the liquidity and the tick are known. *)
Lemma turn_result n init next ain aout fa liq' tick' g :
  next_ok ticks zfo tick n init ->
  step_ok P (get_sqrt_ratio_target (price_of n) limit zfo) L rem next ain aout fa ->
  0 <= liq' < 2 ^ 128 -> tick_after n next tick' ->
  let s' := {| ls_state := SwapState.mk (rem - (ain + fa)) (calc - aout) next tick' liq'; ls_gas := g; ls_first := false |} in
  swap_inv s' /\ 0 <= turns_left s' < turns_left s.
Proof using Hinv Hlimit Hcont Hamount.
  intros Hn Hs Hl [Hag Hreach] s'. destruct (target_spec n init Hn) as (HT & Hdir & _).
  destruct (next_towards n init Hn _ _ _ _ Hs) as [Hto Hb]. pose proof (step_out_bound n init Hn _ _ _ _ Hs) as Ho.
  pose proof (turns_left_range s Hinv) as Htl. destruct Hinv as [Hrem HL _ [Ht _] Hc].
  destruct Hs as [_ Hnn Haf Hex _].
  assert (0 <= turns_left s' < turns_left s) as Hm.
  { unfold turns_left in *. rewrite Hcont in *. cbv iota in Htl |- *. destruct (decide (next = price_of n)) as [He|Hne].
    - specialize (Hreach He). destruct Hn as (Hr & Hd & _), Hag as [Hag _]. unfold s'. cbn [ls_state SwapState.tick].
      match goal with |- context [continues ?x] => destruct (continues x) end; destruct zfo; lia.
    - assert (continues s' = false) as ->.
      { unfold swap_continues, s'. cbn [ls_state SwapState.amount_remaining SwapState.sqrt_price].
        destruct (Z.eqb_spec (rem - (ain + fa)) 0); [done|]. destruct (Z.eqb_spec next limit); [done|].
        destruct zfo; lia. }
      destruct tick_constants, zfo; lia. }
  split; [|done]. split; unfold s' in *; cbn [ls_state SwapState.amount_remaining SwapState.liquidity SwapState.sqrt_price
    SwapState.tick SwapState.amount_calculated]; [lia|done|done|done|]. nia.
Qed.

Lemma swap_turn_ends :
  swap_ends (fun s' => swap_inv s' /\ 0 <= turns_left s' < turns_left s) (swap_turn ticks fee gas zfo true limit s).
Proof using All.
  pose proof (inv_tick _ Hinv) as [Ht Hag]. pose proof (inv_liquidity _ Hinv) as HL. destruct tick_constants as [Hmin Hmax].
  unfold swap_turn. cbv zeta. apply ends_bind, (ends_mono _ _ _ _ (find_next_tick_ends (ls_state s) (ls_gas s) Ht)).
  intros [[n0 init] g1] Hn. set (n := clamp n0 MIN_TICK MAX_TICK) in *. clearbody n.
  rewrite sqrt_ratio_value by apply Hn. cbn [mbind result_bind].
  apply ends_bind, (ends_mono _ _ _ _ (step_ends n init Hn)). intros [[[next ain] aout] fa] Hs.
  apply ends_bind, (ends_mono _ _ _ _ (add_ends _ _)). intros g2 _.
  apply ends_bind, (ends_mono _ _ _ _ (account_ends n init Hn _ _ _ _ Hs)). intros [rem' calc'] [-> ->].
  apply ends_bind.
  apply (ends_mono _ (fun '(liq', tick', _) => 0 <= liq' < 2 ^ 128 /\ tick_after n next tick')).
  - destruct (Z.eqb_spec next (price_of n)) as [He|Hne]; [|destruct (Z.eqb_spec next P) as [HeP|HneP]]; cbn [negb].
    + pose proof (reached_tick n init Hn _ _ _ _ Hs He) as Hta.
      replace (if zfo then swrap 32 (n - 1) else n) with (if zfo then n - 1 else n)
        by (destruct Hn as [? _], zfo; [rewrite swrap_small by (unfold in_srange; lia)|]; done).
      apply ends_bind, (ends_mono _ (fun '(liq', _) => 0 <= liq' < 2 ^ 128)); [|by intros [liq' g']].
      destruct init; [|done]. apply ends_bind, (ends_mono _ _ _ _ (cross_tick_ends ticks zfo n L Hticks (proj2 (proj2 Hn) eq_refl) HL)).
      intros liq' Hl. apply ends_bind, (ends_mono _ _ _ _ (add_ends _ _)). done.
    + cbn. split; [done|]. split; [|done]. rewrite HeP. done.
    + apply ends_bind, (ends_mono _ _ _ _ (found_tick_ends n init Hn _ _ _ _ Hs Hne HneP)). done.
  - intros [[liq' tick'] g3] [Hl Hta]. apply ends_bind, (ends_mono _ _ _ _ (add_ends _ _)). intros g4 _.
    apply ends_bind, (ends_mono _ (fun _ => True)); [destruct (ls_first s); [apply add_ends|done]|]. intros g5 _.
    cbn [ends]. by apply (turn_result n init).
Qed.
End turn.

(** * The loop *)

(** The part of a pool's state that a swap changes, in agreement with the part it does not. *)
Record clmm_ok (ticks : TickList.t) (liquidity price tick : Z) : Prop := {
  clmm_ticks : ticks_ok ticks;
  clmm_liquidity : 0 <= liquidity < 2 ^ 128;
  clmm_tick : tick_agrees tick price
}.

Definition limit_of (zfo : bool) (limit : option Z) : Z :=
  match limit with Some l => l | None => if zfo then MIN_SQRT_RATIO + 1 else MAX_SQRT_RATIO - 1 end.

Definition limit_valid (zfo : bool) (price limit : Z) : Prop :=
  if zfo then MIN_SQRT_RATIO < limit < price else price < limit < MAX_SQRT_RATIO.

(** What a completed swap with an exact input promises. *)
Record swap_ok (ticks : TickList.t) (zfo : bool) (amount price limit : Z) (r : SwapResults.t) : Prop := {
  swap_specified : SwapResults.amount_specified r = amount;
  swap_remaining : 0 <= SwapResults.amount_remaining r <= amount;
  swap_complete : SwapResults.amount_remaining r = 0 \/ SwapResults.sqrt_price r = limit;
  swap_price : if zfo then limit <= SwapResults.sqrt_price r <= price else price <= SwapResults.sqrt_price r <= limit;
  swap_received : - 2 ^ 245 <= SwapResults.amount_calculated r <= 0;
  swap_state : clmm_ok ticks (SwapResults.liquidity r) (SwapResults.sqrt_price r) (SwapResults.tick r)
}.

Section loop.
Context (ticks : TickList.t) (fee : Z) (gas : GasSchedule.t) (zfo : bool) (liquidity price tick amount limit : Z).
Context (Hok : clmm_ok ticks liquidity price tick) (Hfee : 0 <= fee < 1000000) (Hamount : 0 <= amount < 2 ^ 255).
Context (Hvalid : limit_valid zfo price limit).

Abbreviation start_state :=
  {| ls_state := SwapState.mk amount 0 price tick liquidity; ls_gas := GasSchedule.base gas; ls_first := true |}.
Abbreviation inv := (swap_inv zfo limit amount price).
Abbreviation step := (swap_step ticks fee gas zfo true limit).

Lemma limit_range : MIN_SQRT_RATIO < limit < MAX_SQRT_RATIO.
Proof using Hok Hvalid. pose proof (tick_agrees_price _ _ (clmm_tick _ _ _ _ Hok)). unfold limit_valid in Hvalid. destruct zfo; lia. Qed.

Lemma start_inv : inv start_state.
Proof using Hok Hamount Hvalid.
  destruct Hok as [_ Hl Ht].
  assert (0 <= turns_left zfo limit start_state < 2 ^ 21) as Hm.
  { unfold turns_left. destruct Ht as [Ht _], tick_constants. cbn [ls_state SwapState.tick].
    match goal with |- context [swap_continues ?l ?x] => destruct (swap_continues l x) end; destruct zfo; lia. }
  split; cbn [ls_state SwapState.amount_remaining SwapState.liquidity SwapState.sqrt_price SwapState.tick SwapState.amount_calculated];
    [lia|done| |done|nia].
  unfold towards, limit_valid in *. destruct zfo; lia.
Qed.

Lemma step_inl s s' : inv s -> step s = inl s' -> inv s' /\ 0 <= turns_left zfo limit s' < turns_left zfo limit s.
Proof using Hok Hfee Hamount Hvalid.
  intros Hi. unfold swap_step. destruct (swap_continues limit s) eqn:Hc; [|done].
  pose proof (swap_turn_ends ticks fee gas zfo limit amount price (clmm_ticks _ _ _ _ Hok) Hfee limit_range ltac:(lia) s Hi Hc) as Hs.
  destruct (swap_turn _ _ _ _ _ _ _) as [s1|e|]; [|done|done]. intros [= <-]. exact Hs.
Qed.

Lemma step_inr s r :
  inv s -> step s = inr r -> swap_ends (fun s' => inv s' /\ swap_continues limit s' = false) r.
Proof using Hok Hfee Hamount Hvalid.
  intros Hi. unfold swap_step. destruct (swap_continues limit s) eqn:Hc; [|by intros [= <-]].
  pose proof (swap_turn_ends ticks fee gas zfo limit amount price (clmm_ticks _ _ _ _ Hok) Hfee limit_range ltac:(lia) s Hi Hc) as Hs.
  destruct (swap_turn _ _ _ _ _ _ _) as [s1|e|]; [done| |done]. by intros [= <-].
Qed.

Lemma loop_ends :
  exists r, iterate SWAP_DOUBLINGS step start_state = inr r /\ swap_ends (fun s' => inv s' /\ swap_continues limit s' = false) r.
Proof using Hok Hfee Hamount Hvalid.
  pose proof (turns_left_range zfo limit amount price _ start_inv) as Hm.
  destruct (iterate_terminates step inv (turns_left zfo limit) step_inl SWAP_DOUBLINGS start_state start_inv) as [r Hr]; [apply Hm|].
  exists r. split; [done|]. eapply (iterate_inr step inv (turns_left zfo limit) step_inl _ SWAP_DOUBLINGS); [|apply start_inv|exact Hr].
  apply step_inr.
Qed.

Lemma loop_result s g :
  inv s -> swap_continues limit s = false ->
  swap_ok ticks zfo amount price limit
    (SwapResults.mk (SwapState.amount_calculated (ls_state s)) amount (SwapState.amount_remaining (ls_state s))
       (SwapState.sqrt_price (ls_state s)) (SwapState.liquidity (ls_state s)) (SwapState.tick (ls_state s)) g).
Proof using Hok.
  intros Hi Hc. pose proof (turns_left_range zfo limit amount price _ Hi). destruct Hi as [Hrem Hl Hp Ht Hcalc].
  unfold swap_continues in Hc. apply andb_false_iff in Hc. rewrite !negb_false_iff, !Z.eqb_eq in Hc.
  split; cbn [SwapResults.amount_specified SwapResults.amount_remaining SwapResults.sqrt_price SwapResults.amount_calculated
    SwapResults.liquidity SwapResults.tick]; [done|lia|done|done|nia|].
  split; [apply Hok|lia|done].
Qed.
End loop.

(** The errors a swap can report before its loop. *)
Definition refused (no_liquidity : bool) (zfo : bool) (price limit : Z) (e : SimulationError) : Prop :=
  no_liquidity = true /\ e = RecoverableError "No liquidity" \/
  no_liquidity = false /\ ~ limit_valid zfo price limit /\ e = InvalidInput "Price limit out of range" None.

Lemma limit_valid_spec (zfo : bool) price limit :
  (if zfo then (MIN_SQRT_RATIO <? limit) && (limit <? price) else (limit <? MAX_SQRT_RATIO) && (price <? limit)) = true <->
  limit_valid zfo price limit.
Proof. unfold limit_valid. destruct zfo; rewrite andb_true_iff, !Z.ltb_lt; lia. Qed.

Lemma swap_price_limit_spec no_liquidity price zfo limit :
  ends (refused no_liquidity zfo price (limit_of zfo limit))
       (fun l => no_liquidity = false /\ l = limit_of zfo limit /\ limit_valid zfo price l)
       (swap_price_limit no_liquidity price zfo limit).
Proof.
  unfold swap_price_limit. destruct no_liquidity; [by left|].
  replace (match limit with Some l => Ok (E := SimulationError) l | None => if zfo then safe_add_u256 MIN_SQRT_RATIO 1 else safe_sub_u256 MAX_SQRT_RATIO 1 end)
    with (Ok (E := SimulationError) (limit_of zfo limit)) by (destruct limit, zfo; done).
  cbn [mbind result_bind]. pose proof (limit_valid_spec zfo price (limit_of zfo limit)) as Hv.
  destruct (if zfo then _ else _) eqn:Hb; cbn [negb ends].
  - split_and!; [done|done|]. by apply Hv.
  - right. split_and!; [done| |done]. intros Hl. by apply Hv in Hl.
Qed.

(** The loop with an exact input and a valid limit. *)
Lemma swap_to_limit_total ticks fee gas liquidity price tick zfo amount l :
  clmm_ok ticks liquidity price tick -> 0 <= fee < 1000000 -> 0 <= amount < 2 ^ 255 -> limit_valid zfo price l ->
  exists r, swap_to_limit ticks fee gas liquidity price tick zfo amount l = Some r /\ swap_ends (swap_ok ticks zfo amount price l) r.
Proof.
  intros Hok Hfee Hamount Hval. unfold swap_to_limit.
  assert (exists r, iterate SWAP_DOUBLINGS (swap_step ticks fee gas zfo (0 <? amount) l)
      {| ls_state := SwapState.mk amount 0 price tick liquidity; ls_gas := GasSchedule.base gas; ls_first := true |} = inr r /\
    swap_ends (fun s => swap_inv zfo l amount price s /\ swap_continues l s = false) r) as (r & -> & Hr).
  { destruct (Z.ltb_spec 0 amount); [by eapply loop_ends|]. replace amount with 0 in * by lia. eexists. split.
    - apply iterate_now. unfold swap_step. cbn. reflexivity.
    - split; [by eapply start_inv|done]. }
  eexists. split; [reflexivity|]. apply ends_bind, (ends_mono _ _ _ _ Hr). intros s [Hi Hc].
  apply ends_bind, (ends_mono _ _ _ _ (add_ends _ _)). intros g _. by eapply loop_result.
Qed.

(** A swap with an exact input, on every path. *)
Lemma swap_total ticks fee gas no_liquidity liquidity price tick zfo amount limit :
  clmm_ok ticks liquidity price tick -> 0 <= fee < 1000000 -> 0 <= amount < 2 ^ 255 ->
  exists r, clmm_swap ticks fee gas no_liquidity liquidity price tick zfo amount limit = Some r /\
    ends (fun e => refused no_liquidity zfo price (limit_of zfo limit) e \/ swap_error e)
         (swap_ok ticks zfo amount price (limit_of zfo limit)) r.
Proof.
  intros Hok Hfee Hamount. unfold clmm_swap. pose proof (swap_price_limit_spec no_liquidity price zfo limit) as Hl.
  destruct (swap_price_limit _ _ _ _) as [l|e|]; [|eexists; split; [reflexivity|by left]|done].
  destruct Hl as (_ & -> & Hval).
  destruct (swap_to_limit_total ticks fee gas liquidity price tick zfo amount _ Hok Hfee Hamount Hval) as (r & Hr & He).
  exists r. split; [done|]. destruct r as [res|e|]; [done|by right|done].
Qed.

(** * The limits loop *)

(** A price inside the range of prices. *)
Definition price_valid (p : Z) : Prop := MIN_SQRT_RATIO <= p <= MAX_SQRT_RATIO.

Lemma price_valid_range p : price_valid p -> 0 < p < 2 ^ 160.
Proof. unfold price_valid. pose proof sqrt_ratio_bounds. lia. Qed.

Section deltas.
Context (p q L : Z) (Hp : price_valid p) (Hq : price_valid q) (HL : 0 <= L < 2 ^ 128).

Lemma amount0_delta_ends up : swap_ends (fun v => 0 <= v) (get_amount0_delta p q L up).
Proof using Hp Hq HL.
  apply price_valid_range in Hp, Hq.
  assert (forall a b, 0 < a <= b -> 0 <= cdiv (L * 2 ^ 96 * (b - a)) b) as Hm by (intros; apply cdiv_nonneg; nia).
  destruct (Z.le_ge_cases p q).
  - destruct (amount0_delta_eq p q L ltac:(lia) ltac:(lia) HL up) as [-> _]. specialize (Hm p q ltac:(lia)).
    cbn. destruct up; [apply cdiv_nonneg; lia|apply Z.div_pos; lia].
  - destruct (amount0_delta_eq q p L ltac:(lia) ltac:(lia) HL up) as [_ ->]. specialize (Hm q p ltac:(lia)).
    cbn. destruct up; [apply cdiv_nonneg; lia|apply Z.div_pos; lia].
Qed.

Lemma amount1_delta_ends up : swap_ends (fun v => 0 <= v) (get_amount1_delta p q L up).
Proof using Hp Hq HL.
  apply price_valid_range in Hp, Hq.
  assert (forall d, 0 <= d -> swap_ends (fun v => 0 <= v)
    (if L * d <? 2 ^ 256 then Ok (L * d / 2 ^ 96) else Err overflow)) as Hdown.
  { intros d Hd. destruct (_ <? _); cbn; [apply Z.div_pos; nia|by left]. }
  assert (forall d, 0 <= d -> 0 <= cdiv (L * d) (2 ^ 96)) as Hup by (intros; apply cdiv_nonneg; nia).
  destruct (Z.le_ge_cases p q), up.
  - destruct (amount1_up_eq p q L ltac:(lia) ltac:(lia) HL) as [-> _]. apply Hup. lia.
  - destruct (amount1_down_eq p q L ltac:(lia) ltac:(lia) HL) as [-> _]. apply Hdown. lia.
  - destruct (amount1_up_eq q p L ltac:(lia) ltac:(lia) HL) as [_ ->]. apply Hup. lia.
  - destruct (amount1_down_eq q p L ltac:(lia) ltac:(lia) HL) as [_ ->]. apply Hdown. lia.
Qed.
End deltas.

Section limit_loop.
Context (ticks : TickList.t) (zfo : bool) (max_crossed : option Z) (stop : bool) (Hticks : ticks_ok ticks).

Abbreviation step := (limit_step ticks zfo max_crossed stop).

Record limit_inv (s : limit_state) : Prop := {
  li_tick : MIN_TICK - 1 <= lm_tick s <= MAX_TICK;
  li_price : price_valid (lm_price s);
  li_liquidity : 0 <= lm_liquidity s < 2 ^ 128;
  li_in : in_range 256 (lm_in s);
  li_out : in_range 256 (lm_out s)
}.

Definition ticks_left (s : limit_state) : Z := if zfo then lm_tick s - MIN_TICK + 1 else MAX_TICK - lm_tick s.

Definition limits_ok (l : Z * Z) : Prop := in_range 256 l.1 /\ in_range 256 l.2.

Lemma add_range_ends a b : 0 <= a -> 0 <= b -> swap_ends (in_range 256) (safe_add_u256 a b).
Proof using. intros. rewrite safe_add_eq by lia. destruct (Z.ltb_spec (a + b) (2 ^ 256)); cbn; [unfold in_range; lia|by left]. Qed.

Lemma limit_amounts_ends s n :
  limit_inv s -> price_valid n -> swap_ends (fun '(x, y) => 0 <= x /\ 0 <= y) (limit_amounts zfo s n).
Proof using.
  intros [_ Hp HL _ _] Hn. unfold limit_amounts.
  destruct zfo; apply ends_bind, (ends_mono _ _ _ _ (amount0_delta_ends _ _ _ Hn Hp HL _)); intros x Hx;
    apply ends_bind, (ends_mono _ _ _ _ (amount1_delta_ends _ _ _ Hn Hp HL _)); intros y Hy; done.
Qed.

(** One turn: it goes on with fewer ticks to visit, or answers. *)
Lemma limit_step_spec s :
  limit_inv s ->
  match step s with
  | inl s' => limit_inv s' /\ 0 <= ticks_left s' < ticks_left s
  | inr r => swap_ends limits_ok r
  end.
Proof using Hticks.
  intros Hi. unfold limit_step, limit_done. pose proof (word_next ticks zfo (lm_tick s) Hticks (li_tick _ Hi)) as Hn.
  assert (swap_ends limits_ok (Ok (E := SimulationError) (lm_in s, lm_out s))) as Hdone by (split; apply Hi).
  destruct (TickList.next_initialized_tick_within_one_word _ zfo ticks) as [[n0 init]|e|]; [|done|done].
  destruct (match max_crossed with Some m => _ | None => false end); [done|].
  set (n := clamp n0 MIN_TICK MAX_TICK) in *. clearbody n. destruct Hn as (Hr & Hd & Hrec).
  rewrite sqrt_ratio_value by done. cbn [mbind result_bind]. assert (price_valid (price_of n)) as Hpn by (by apply price_range).
  assert (swap_ends (fun '(p, tin, tout) => p = price_of n /\ in_range 256 tin /\ in_range 256 tout)
    ('(amount_in, amount_out) ← limit_amounts zfo s (price_of n);
     total_in ← safe_add_u256 (lm_in s) amount_in; total_out ← safe_add_u256 (lm_out s) amount_out;
     Ok (price_of n, total_in, total_out))) as Hsum.
  { apply ends_bind, (ends_mono _ _ _ _ (limit_amounts_ends s _ Hi Hpn)). intros [x y] [Hx Hy].
    apply ends_bind, (ends_mono _ _ _ _ (add_range_ends _ _ (proj1 (li_in _ Hi)) Hx)). intros tin Htin.
    apply ends_bind, (ends_mono _ _ _ _ (add_range_ends _ _ (proj1 (li_out _ Hi)) Hy)). intros tout Htout. done. }
  match goal with |- context [match ?r with Ok _ => _ | Err _ => _ | Panic => _ end] => destruct r as [[[p tin] tout]|e|] end;
    cbn [ends] in Hsum; [|done|done]. destruct Hsum as (-> & Htin & Htout).
  assert (forall liq, 0 <= liq < 2 ^ 128 ->
    let s' := {| lm_tick := if zfo then swrap 32 (n - 1) else n; lm_price := price_of n; lm_liquidity := liq;
                 lm_in := tin; lm_out := tout; lm_crossed := lm_crossed s + 1 |} in
    limit_inv s' /\ 0 <= ticks_left s' < ticks_left s) as Hmoved.
  { intros liq Hl s'. destruct tick_constants as [Hmin Hmax].
    assert (lm_tick s' = if zfo then n - 1 else n) as Hts
      by (unfold s'; cbn [lm_tick]; destruct zfo; [apply swrap_small; unfold in_srange; lia|done]).
    split; [split|]; [rewrite Hts; destruct zfo; lia|done|done|done|done|]. unfold ticks_left. rewrite Hts. destruct zfo; lia. }
  destruct init; [|apply Hmoved, Hi].
  pose proof (cross_tick_ends ticks zfo n (lm_liquidity s) Hticks (Hrec eq_refl) (li_liquidity _ Hi)) as Hc.
  destruct (cross_tick _ _ _ _) as [liq|e|]; cbn [ends] in Hc; [by apply Hmoved| |done]. by destruct stop.
Qed.

Lemma limits_total no_liquidity liquidity price tick :
  clmm_ok ticks liquidity price tick ->
  exists r, clmm_get_limits ticks zfo max_crossed stop no_liquidity liquidity price tick = Some r /\ swap_ends limits_ok r.
Proof using Hticks.
  intros [_ Hl Ht]. unfold clmm_get_limits. destruct no_liquidity; [eexists; split; [reflexivity|split; split; cbn; lia]|].
  set (s0 := Build_limit_state _ _ _ _ _ _).
  assert (limit_inv s0) as Hi.
  { pose proof (tick_agrees_price _ _ Ht). destruct Ht as [Ht _]. split; unfold s0, in_range; cbn; try lia. done. }
  assert (ticks_left s0 < 2 ^ Z.of_nat SWAP_DOUBLINGS) as Hm.
  { destruct Ht as [Ht _], tick_constants. unfold ticks_left, s0. cbn [lm_tick]. change (2 ^ Z.of_nat SWAP_DOUBLINGS) with (2 ^ 21). destruct zfo; lia. }
  assert (forall s s', limit_inv s -> step s = inl s' -> limit_inv s' /\ 0 <= ticks_left s' < ticks_left s) as Hinl.
  { intros s s' Hs He. pose proof (limit_step_spec s Hs) as H. by rewrite He in H. }
  destruct (iterate_terminates step limit_inv ticks_left Hinl SWAP_DOUBLINGS s0 Hi Hm) as [r Hr].
  rewrite Hr. eexists. split; [reflexivity|]. eapply (iterate_inr step limit_inv ticks_left Hinl _ SWAP_DOUBLINGS); [|exact Hi|exact Hr].
  intros s r' Hs He. pose proof (limit_step_spec s Hs) as H. by rewrite He in H.
Qed.
End limit_loop.
