(* ===== verification/ClmmPoolsSpec.v ===== *)
(** What the concentrated-liquidity pools promise.

    The pools share the swap loop; [ClmmPool] is what a pool state gives to it and gets back
    from it.  The theorems are proved once against the class, and the Uniswap v3, Velodrome
    Slipstreams and Ramses v3 states are its instances. *)

From S2P Require Import Prelude Collections Bytes Models SafeMath SafeMathSpec Cpmm TickMath TickMathSpec TickInverse.
From S2P Require Import TickList TickListSpec SwapMath SwapMathSpec Clmm ClmmPools ClmmSpec.

Open Scope Z_scope.

(** C3. A swap with an exact input below [2 ^ 255], at a fee below 100%, on a pool with recorded ticks,
    in order, whose tick and price agree always comes to an end:
    the loop never runs out of its budget of [2 ^ 21] turns and never unwinds.  When it
    completes, it has spent no more than the input, and all of it unless the price limit is
    reached; the price has moved towards the limit and not past it; and liquidity, price and
    tick form a pool whose tick and price agree again.  It is refused only without liquidity
    or with a limit on the wrong side of the price, and fails only with an overflow, a
    liquidity below zero, or past the last recorded tick. *)
Theorem swap_exact_input (ticks : TickList.t) (fee : Z) (gas : GasSchedule.t) (no_liquidity : bool)
    (liquidity price tick : Z) (zero_for_one : bool) (amount : Z) (limit : option Z)
    (Hok : clmm_ok ticks liquidity price tick) (Hfee : 0 <= fee < 1000000) (Hamount : 0 <= amount < 2 ^ 255) :
  exists r, clmm_swap ticks fee gas no_liquidity liquidity price tick zero_for_one amount limit = Some r /\
    match r with
    | Ok res => swap_ok ticks zero_for_one amount price (limit_of zero_for_one limit) res
    | Err e => refused no_liquidity zero_for_one price (limit_of zero_for_one limit) e \/ swap_error e
    | Panic => False
    end.
Proof. exact (swap_total ticks fee gas no_liquidity liquidity price tick zero_for_one amount limit Hok Hfee Hamount). Qed.

(** * Pools as clients of the loop *)

Definition too_large : SimulationError := InvalidInput "I256 overflow: amount_in" None.

Class ClmmPool (S : Type) := {
  pool_ticks : S -> TickList.t;
  pool_liquidity : S -> Z;
  pool_price : S -> Z;
  pool_tick : S -> Z;
  pool_fee : S -> Z;
  pool_empty : S -> bool;
  pool_after : S -> SwapResults.t -> S;
  pool_swap : S -> bool -> Z -> option Z -> option (result SimulationError SwapResults.t);
  pool_amount_out : Z -> Token.t -> Token.t -> S -> result SimulationError (GetAmountOutResult.t S);
  (** a swap is the loop at the pool's own gas costs *)
  pool_swap_loop : forall s, exists gas, forall zfo amount limit,
    pool_swap s zfo amount limit =
      clmm_swap (pool_ticks s) (pool_fee s) gas (pool_empty s) (pool_liquidity s) (pool_price s) (pool_tick s) zfo amount limit;
  (** a swap replaces liquidity, price and tick *)
  pool_after_swap : forall s r,
    pool_ticks (pool_after s r) = pool_ticks s /\ pool_fee (pool_after s r) = pool_fee s /\
    pool_liquidity (pool_after s r) = SwapResults.liquidity r /\
    pool_price (pool_after s r) = SwapResults.sqrt_price r /\ pool_tick (pool_after s r) = SwapResults.tick r;
  (** an amount out is the result of a swap without a limit *)
  pool_amount_out_swap : forall amount a b s, 0 <= amount < 2 ^ 255 ->
    (forall r, pool_swap s (Token.ltb a b) amount None = Some (Ok r) -> Z.abs (SwapResults.amount_calculated r) < 2 ^ 255) ->
    pool_amount_out amount a b s =
      (r ← run_swap (pool_swap s (Token.ltb a b) amount None);
       Ok (GetAmountOutResult.mk (Z.abs (SwapResults.amount_calculated r)) (SwapResults.gas_used r) (pool_after s r)));
  (** an amount that does not fit a signed number is refused *)
  pool_amount_out_large : forall amount a b s, 2 ^ 255 <= amount < 2 ^ 256 -> pool_amount_out amount a b s = Err too_large
}.

(** The pool's tick and price agree, its fee is a part of a million. *)
Definition pool_ok {S} `{ClmmPool S} (s : S) : Prop :=
  clmm_ok (pool_ticks s) (pool_liquidity s) (pool_price s) (pool_tick s) /\ 0 <= pool_fee s < 1000000.

Lemma i256_amount_large amount : 2 ^ 255 <= amount < 2 ^ 256 -> i256_amount amount = Err too_large.
Proof.
  intros H. unfold i256_amount, biguint_to_u256. replace (amount <? 2 ^ 256) with true by lia. cbn [mbind result_bind].
  by replace (amount <? 2 ^ 255) with false by lia.
Qed.

Lemma i256_amount_ok amount : 0 <= amount < 2 ^ 255 -> i256_amount amount = Ok amount.
Proof.
  intros H. unfold i256_amount, biguint_to_u256. replace (amount <? 2 ^ 256) with true by lia. cbn [mbind result_bind].
  by replace (amount <? 2 ^ 255) with true by lia.
Qed.

#[export] Instance uniswap_v3_pool : ClmmPool UniswapV3State.t.
Proof.
  refine {| pool_ticks := UniswapV3State.ticks; pool_liquidity := UniswapV3State.liquidity;
    pool_price := UniswapV3State.sqrt_price; pool_tick := UniswapV3State.tick;
    pool_fee := fun s => fee_pips (UniswapV3State.fee s); pool_empty := fun s => UniswapV3State.liquidity s =? 0;
    pool_after := UniswapV3State.after_swap; pool_swap := UniswapV3State.swap;
    pool_amount_out := UniswapV3State.get_amount_out |}.
  - intros s. by exists UniswapV3State.GAS.
  - done.
  - intros amount a b s Ha _. unfold UniswapV3State.get_amount_out. by rewrite i256_amount_ok.
  - intros amount a b s Ha. unfold UniswapV3State.get_amount_out. by rewrite i256_amount_large.
Defined.

#[export] Instance velodrome_slipstreams_pool : ClmmPool VelodromeSlipstreamsState.t.
Proof.
  refine {| pool_ticks := VelodromeSlipstreamsState.ticks; pool_liquidity := VelodromeSlipstreamsState.liquidity;
    pool_price := VelodromeSlipstreamsState.sqrt_price; pool_tick := VelodromeSlipstreamsState.tick;
    pool_fee := VelodromeSlipstreamsState.get_fee; pool_empty := fun s => VelodromeSlipstreamsState.liquidity s =? 0;
    pool_after := VelodromeSlipstreamsState.after_swap; pool_swap := VelodromeSlipstreamsState.swap;
    pool_amount_out := VelodromeSlipstreamsState.get_amount_out |}.
  - intros s. by exists VelodromeSlipstreamsState.GAS.
  - done.
  - intros amount a b s Ha _. unfold VelodromeSlipstreamsState.get_amount_out. by rewrite i256_amount_ok.
  - intros amount a b s Ha. unfold VelodromeSlipstreamsState.get_amount_out. by rewrite i256_amount_large.
Defined.

#[export] Instance ramses_v3_pool : ClmmPool RamsesV3State.t.
Proof.
  refine {| pool_ticks := RamsesV3State.ticks; pool_liquidity := RamsesV3State.liquidity;
    pool_price := RamsesV3State.sqrt_price; pool_tick := RamsesV3State.tick; pool_fee := RamsesV3State.fee;
    pool_empty := fun s => negb (TickList.has_initialized_ticks (RamsesV3State.ticks s));
    pool_after := RamsesV3State.after_swap; pool_swap := RamsesV3State.swap;
    pool_amount_out := RamsesV3State.get_amount_out |}.
  - intros s. by exists RamsesV3State.GAS.
  - done.
  - intros amount a b s Ha Hcalc. unfold RamsesV3State.get_amount_out. replace (amount <? 2 ^ 255) with true by lia.
    cbn [ok_or mbind result_bind]. unfold run_swap. destruct (RamsesV3State.swap _ _ _ _) as [[r|e|]|] eqn:Hr; [|done..].
    cbn [mbind result_bind]. specialize (Hcalc r eq_refl). unfold u256_to_biguint. by rewrite Z.min_l by lia.
  - intros amount a b s Ha. unfold RamsesV3State.get_amount_out. by replace (amount <? 2 ^ 255) with false by lia.
Defined.

Section pool.
Context {S : Type} `{ClmmPool S}.

Lemma pool_swap_total (s : S) zfo amount :
  pool_ok s -> 0 <= amount < 2 ^ 255 ->
  exists r, pool_swap s zfo amount None = Some r /\
    ends (fun e => refused (pool_empty s) zfo (pool_price s) (limit_of zfo None) e \/ swap_error e)
         (swap_ok (pool_ticks s) zfo amount (pool_price s) (limit_of zfo None)) r.
Proof.
  intros [Hok Hfee] Ha. destruct (pool_swap_loop s) as [gas Hs]. rewrite Hs. by apply swap_total.
Qed.

(** The pool after a completed swap. *)
Lemma pool_after_ok (s : S) zfo amount limit r :
  pool_ok s -> swap_ok (pool_ticks s) zfo amount (pool_price s) limit r -> pool_ok (pool_after s r).
Proof.
  intros [_ Hfee] Hr. destruct (pool_after_swap s r) as (Ht & Hf & Hl & Hp & Hk). unfold pool_ok.
  rewrite Ht, Hf, Hl, Hp, Hk. split; [apply Hr|done].
Qed.
End pool.

(** C26. A Uniswap v3, Velodrome Slipstreams or Ramses v3 pool that is well formed (at least one
    recorded tick, ticks in order and in range, tick and price in agreement, a liquidity of 128
    bits, a fee below 100%) quotes an exact input of up to 256 bits without unwinding: the amount
    out is below [2 ^ 246], the pool after the swap is well formed again, keeps its ticks and its
    fee, and its price has moved down for token 0 in and up for token 1 in.  A quote is refused
    only for an empty pool, a price already at the end of the range, an overflow, a liquidity
    below zero, when the recorded ticks are exhausted, or for an input of [2 ^ 255] or more, which
    always is.  Proved for every instance of [ClmmPool].  Without recorded ticks
    ([no_ticks_unwind]) or with a larger input ([oversized_input_unwinds]) a quote may unwind. *)
Theorem clmm_get_amount_out {S} `{ClmmPool S} (amount : Z) (token_a token_b : Token.t) (s : S)
    (Hok : pool_ok s) (Hamount : 0 <= amount < 2 ^ 256) :
  match pool_amount_out amount token_a token_b s with
  | Ok res =>
      let s' := GetAmountOutResult.new_state res in
      amount < 2 ^ 255 /\ 0 <= GetAmountOutResult.amount res < 2 ^ 246 /\ pool_ok s' /\
      pool_ticks s' = pool_ticks s /\ pool_fee s' = pool_fee s /\
      (if Token.ltb token_a token_b then pool_price s' <= pool_price s else (pool_price s <= pool_price s'))
  | Err e =>
      let zfo := Token.ltb token_a token_b in
      2 ^ 255 <= amount /\ e = too_large \/
      amount < 2 ^ 255 /\ (refused (pool_empty s) zfo (pool_price s) (limit_of zfo None) e \/ swap_error e)
  | Panic => False
  end.
Proof.
  destruct (Z.lt_ge_cases amount (2 ^ 255)) as [Hlt|Hge]; last first.
  { rewrite pool_amount_out_large by lia. by left. }
  destruct (pool_swap_total s (Token.ltb token_a token_b) amount Hok ltac:(lia)) as (r & Hr & Hres).
  rewrite pool_amount_out_swap; [|lia|].
  2: { intros r' Hr'. rewrite Hr in Hr'. injection Hr' as ->. pose proof (swap_received _ _ _ _ _ _ Hres). lia. }
  rewrite Hr. unfold run_swap. destruct r as [res|e|]; cbn [ends mbind result_bind] in *; [|by right|done].
  cbv zeta. cbn [GetAmountOutResult.amount GetAmountOutResult.new_state].
  pose proof (pool_after_ok s _ _ _ _ Hok Hres). destruct (pool_after_swap s res) as (Ht & Hf & _ & Hp & _).
  pose proof (swap_received _ _ _ _ _ _ Hres). pose proof (swap_price _ _ _ _ _ _ Hres) as Hprice.
  rewrite Hp. split_and!; [done|lia|lia|done|done|done|]. destruct (Token.ltb _ _); lia.
Qed.

(** The trade limits of a pool whose tick and price agree are always found: the walk over the
    ticks visits each at most once in its direction, so it ends within its budget of [2 ^ 21]
    turns, with or without the cap on crossed ticks; it never unwinds; both limits fit 256 bits,
    and it fails only with an overflow or, where the pool asks for it, on a liquidity below
    zero. *)
Theorem clmm_limits_terminate (ticks : TickList.t) (zero_for_one : bool) (max_crossed : option Z) (stop no_liquidity : bool)
    (liquidity price tick : Z) (Hok : clmm_ok ticks liquidity price tick) :
  exists r, clmm_get_limits ticks zero_for_one max_crossed stop no_liquidity liquidity price tick = Some r /\
    match r with
    | Ok (limit_in, limit_out) => in_range 256 limit_in /\ in_range 256 limit_out
    | Err e => swap_error e
    | Panic => False
    end.
Proof.
  destruct (limits_total ticks zero_for_one max_crossed stop (clmm_ticks _ _ _ _ Hok) no_liquidity liquidity price tick Hok) as (r & Hr & He).
  exists r. split; [exact Hr|]. by destruct r as [[]| |].
Qed.

Module ClmmExamples.
Import TickListExamples.

(** The pool of the repository's own test [test_get_amount_out], in both directions. *)
Definition wbtc_weth : result SimulationError UniswapV3State.t :=
  ticks ← try_fold (fun acc '(i, n) => t ← TickInfo.new i n; Ok (acc ++ [t])) []
    [(255760, 1759015528199933); (255770, 6393138051835308); (255780, 228206673808681); (255820, 1319490609195820);
     (255830, 678916926147901); (255840, 12208947683433103); (255850, 1177970713095301); (255860, 8752304680520407);
     (255880, 1486478248067104); (255890, 1878744276123248); (255900, 77340284046725227)];
  UniswapV3State.new 377952820878029838 28437325270877025820973479874632004 Low 255830 ticks.

Definition sold (zfo : bool) (amount : Z) : result SimulationError Z :=
  pool ← wbtc_weth; r ← run_swap (UniswapV3State.swap pool zfo amount None); Ok (Z.abs (SwapResults.amount_calculated r)).

Example sell_wbtc :
  map (sold true) [500000000; 550000000; 600000000; 1000000000; 3000000000] =
  [Ok 64352395915550406461; Ok 70784271504035662865; Ok 77215534856185613494; Ok 128643569649663616249; Ok 385196519076234662939].
Proof. vm_compute. reflexivity. Qed.

Definition token (b : Byte.byte) : Token.t := Token.mk [b] "T" 18 0 [] Ethereum 100.

(** A pool whose price is at a recorded tick below which there is no liquidity. *)
Definition at_edge : UniswapV3State.t := UniswapV3State.mk 500 (price_of (-120)) Medium (-120) sample.

Lemma at_edge_ok : pool_ok at_edge.
Proof.
  split; [split|]; [apply sample_ok| | |]; [vm_compute; split; [discriminate|reflexivity]| |vm_compute; split; [discriminate|reflexivity]].
  split; vm_compute; (split; first [discriminate|reflexivity]).
Qed.
End ClmmExamples.

Lemma swap_exact_input_witness :
  exists res, clmm_swap TickListExamples.sample 3000 UniswapV3State.GAS false 500 (price_of (-120)) (-120) false 10 None = Some (Ok res) /\
    swap_ok TickListExamples.sample false 10 (price_of (-120)) (limit_of false None) res.
Proof.
  destruct (swap_exact_input TickListExamples.sample 3000 UniswapV3State.GAS false 500 (price_of (-120)) (-120) false 10 None
    (proj1 ClmmExamples.at_edge_ok) ltac:(lia) ltac:(lia)) as (r & Hr & Hres).
  destruct r as [res|e|]; [exists res; exact (conj Hr Hres)|vm_compute in Hr; discriminate Hr..].
Defined.

Lemma clmm_get_amount_out_witness :
  match UniswapV3State.get_amount_out 10 (ClmmExamples.token Byte.x02) (ClmmExamples.token Byte.x01) ClmmExamples.at_edge with
  | Ok res => GetAmountOutResult.amount res = 4 /\ pool_ok (GetAmountOutResult.new_state res)
  | _ => False
  end.
Proof.
  pose proof (clmm_get_amount_out 10 (ClmmExamples.token Byte.x02) (ClmmExamples.token Byte.x01) ClmmExamples.at_edge
    ClmmExamples.at_edge_ok ltac:(lia)) as H.
  change (pool_amount_out 10 ?a ?b ?s) with (UniswapV3State.get_amount_out 10 a b s) in H.
  destruct (UniswapV3State.get_amount_out _ _ _ _) as [res|e|] eqn:E; vm_compute in E; [|discriminate E|discriminate E].
  destruct H as (_ & _ & Hok & _). split; [|exact Hok]. injection E as <-. reflexivity.
Defined.

(** A pool with liquidity and no recorded tick, and an input that does not fit 256 bits. *)
Lemma no_ticks_unwind :
  UniswapV3State.get_amount_out 10 (ClmmExamples.token Byte.x02) (ClmmExamples.token Byte.x01)
    (UniswapV3State.mk 500 (price_of (-120)) Medium (-120) (TickList.mk 60 [])) = Panic.
Proof. vm_compute. reflexivity. Qed.

Lemma oversized_input_unwinds :
  UniswapV3State.get_amount_out (2 ^ 256) (ClmmExamples.token Byte.x02) (ClmmExamples.token Byte.x01) ClmmExamples.at_edge = Panic.
Proof. vm_compute. reflexivity. Qed.

Lemma clmm_limits_terminate_witness :
  clmm_get_limits TickListExamples.sample false None true false 500 (price_of (-120)) (-120) = Some (Ok (25, 21)) /\
  exists r, clmm_get_limits TickListExamples.sample true (Some 5) false false 500 (price_of (-120)) (-120) = Some r.
Proof.
  split; [vm_compute; reflexivity|].
  destruct (clmm_limits_terminate TickListExamples.sample true (Some 5) false false 500 (price_of (-120)) (-120)
    (proj1 ClmmExamples.at_edge_ok)) as (r & Hr & _). by exists r.
Defined.

(** Swapping to a price that no amount is needed to reach loses the pool.  When the price is
    at a recorded tick with no liquidity beyond it, [query_pool_swap] towards a price inside
    the empty range answers amounts of zero, and, as the state after the swap, a pool whose
    liquidity, price and tick are zero: [clmm_swap_to_price] answers a default result there,
    from which the new state is built.  The pool that comes out is not well formed. *)
Theorem query_pool_swap_zero_amount_loses_state :
  exists (pool : UniswapV3State.t) token_in token_out target res,
    pool_ok pool /\ UniswapV3State.liquidity pool <> 0 /\
    UniswapV3State.query_pool_swap token_in token_out (PoolTargetPrice target) pool = Ok res /\
    PoolSwap.amount_in res = 0 /\ PoolSwap.amount_out res = 0 /\
    UniswapV3State.sqrt_price (PoolSwap.new_state res) = 0 /\ UniswapV3State.liquidity (PoolSwap.new_state res) = 0 /\
    ~ pool_ok (PoolSwap.new_state res).
Proof.
  exists ClmmExamples.at_edge, (ClmmExamples.token Byte.x01), (ClmmExamples.token Byte.x02), (Price.mk 982150000 1000000000).
  eexists. split; [apply ClmmExamples.at_edge_ok|]. split; [done|]. split; [vm_compute; reflexivity|].
  split_and!; [done..|]. intros [[_ _ Ht] _]. apply tick_agrees_price in Ht as [Ht _]. vm_compute in Ht. by apply Ht.
Qed.
