(* ===== verification/Slipstreams.v ===== *)
(** Slipstreams pools with a dynamic fee:
    [tycho_simulation::evm::protocol::utils::slipstreams::{observations, dynamic_fee_module}]
    and [aerodrome_slipstreams::state].

    The fee follows the distance of the current tick from its average over ten minutes, which
    is read from a ring buffer of observations by binary search.  The search is a [loop] that
    ends by finding the target, so every function that calls it takes a budget: [fuel] allows
    [2 ^ fuel] turns, and [None] is an exhausted budget.  Unsigned and signed arithmetic that
    the source does not check wraps around, as in a release build. *)

From Stdlib Require Import Ascii.
From S2P Require Import Prelude Collections Bytes Models SafeMath Cpmm TickMath TickList SwapMath Clmm ClmmPools.

Open Scope Z_scope.

Open Scope tycho_scope.

(** * observations.rs *)

Module Observation.
Record t := mk { block_timestamp : Z; tick_cumulative : Z; seconds_per_liquidity_cumulative_x128 : Z;
                 initialized : bool; index : Z }.
#[global] Instance eq_dec : EqDecision t.
Proof. solve_decision. Defined.

Definition default_ : t := mk 0 0 0 false 0.

Definition from_attribute (index : Z) (bytes : Bytes) : result SimulationError t :=
  if negb (Nat.eqb (length bytes) 32) then Err (FatalError "Invalid observation length")
  else
    value ← u256_from_be_slice bytes;
    let block_timestamp := Z.land value (2 ^ 32 - 1) in
    let tick_bits := Z.land (Z.shiftr value 32) (2 ^ 56 - 1) in
    let tick_cumulative := if Z.testbit tick_bits 55 then tick_bits - 2 ^ 56 else tick_bits in
    let seconds_per_liquidity_cumulative_x128 := Z.land (Z.shiftr value 88) (2 ^ 160 - 1) in
    let initialized := Z.land (Z.shiftr value 248) 1 =? 1 in
    Ok (mk block_timestamp tick_cumulative seconds_per_liquidity_cumulative_x128 initialized index).
End Observation.

(** [a <= b] on a clock that wraps around, seen from [time]. *)
Definition lte (time a b : Z) : bool :=
  if (a <=? time) && (b <=? time) then a <=? b
  else
    let a_adjusted := if time <? a then a else a + 2 ^ 32 in
    let b_adjusted := if time <? b then b else b + 2 ^ 32 in
    a_adjusted <=? b_adjusted.

Definition transform (before : Observation.t) (target tick liquidity : Z) : result SimulationError Observation.t :=
  let delta := wrap 32 (target - Observation.block_timestamp before) in
  let tick_cumulative := swrap 64 (Observation.tick_cumulative before + swrap 64 (tick * delta)) in
  seconds ←
    (if 0 <? liquidity then
       safe_add_u256 (Observation.seconds_per_liquidity_cumulative_x128 before) (wrap 256 (Z.shiftl delta 128) / liquidity)
     else Ok (Observation.seconds_per_liquidity_cumulative_x128 before));
  Ok (Observation.mk target tick_cumulative seconds true (Observation.index before)).

Module Observations.
(** The vector of observations. *)
Abbreviation t := (list Observation.t).

Definition observation_index_err : SimulationError := FatalError "Observation index out of bounds".

(** The guard and the access that follow each other everywhere. *)
Definition get (idx : Z) (self : t) : result SimulationError Observation.t :=
  ok_or (self !! Z.to_nat idx) observation_index_err.

(** [index as usize] of a negative index is beyond every length; reserving room up to it
    overflows the capacity.  An empty value removes the element. *)
Definition upsert_observation (index : Z) (bytes : Bytes) : stm t SimulationError unit := fun self =>
  let idx := wrap 64 index in
  let len := Z.of_nat (length self) in
  match bytes with
  | [] =>
      if idx <? len then (Ok tt, delete (Z.to_nat idx) self)
      else (Err (FatalError "Cannot delete: index out of bounds"), self)
  | _ =>
      match Observation.from_attribute index bytes with
      | Ok obs =>
          if idx <? len then (Ok tt, <[Z.to_nat idx := obs]> self)
          else if index <? 0 then (Panic, self)
          else (Ok tt, self ++ replicate (Z.to_nat idx - length self) Observation.default_ ++ [obs])
      | Err e => (Err e, self)
      | Panic => (Panic, self)
      end
  end.

Definition timestamp_at (index : Z) (self : t) : result SimulationError Z :=
  o ← get index self; Ok (Observation.block_timestamp o).

(** One turn of the search, on [(l, r)]. *)
Definition search_step (self : t) (time target cardinality : Z) (s : Z * Z) :
    (Z * Z) + result SimulationError (Observation.t * Observation.t) :=
  let '(l, r) := s in
  let i := (l + r) / 2 in
  match get (i mod cardinality) self with
  | Ok before_or_at =>
      if negb (Observation.initialized before_or_at) then inl (i + 1, r)
      else
        match get ((i + 1) mod cardinality) self with
        | Ok at_or_after =>
            let target_at_or_after := lte time (Observation.block_timestamp before_or_at) target in
            if target_at_or_after && lte time target (Observation.block_timestamp at_or_after) then
              inr (Ok (before_or_at, at_or_after))
            else if negb target_at_or_after then
              if i =? 0 then inr (Err (FatalError "Binary search failed: inconsistent oracle data"))
              else inl (l, i - 1)
            else inl (i + 1, r)
        | Err e => inr (Err e)
        | Panic => inr Panic
        end
  | Err e => inr (Err e)
  | Panic => inr Panic
  end.

Definition binary_search (fuel : nat) (time target index cardinality : Z) (self : t) :
    timed SimulationError (Observation.t * Observation.t) :=
  match self with
  | [] => Some (Err (FatalError "No observations available"))
  | _ =>
      if cardinality =? 0 then Some Panic
      else
        let l := (index + 1) mod cardinality in
        let r := l + cardinality - 1 in
        match iterate fuel (search_step self time target cardinality) (l, r) with
        | inr answer => Some answer
        | inl _ => None
        end
  end.

Definition get_surrounding_observations (fuel : nat) (time target tick index liquidity cardinality : Z) (self : t) :
    timed SimulationError (Observation.t * Observation.t) :=
  newest <~ Some (get index self);
  if lte time (Observation.block_timestamp newest) target then
    if Observation.block_timestamp newest =? target then Some (Ok (newest, newest))
    else
      after <~ Some (transform newest target tick liquidity);
      Some (Ok (newest, after))
  else if cardinality =? 0 then Some Panic
  else
    next <~ Some (get ((index + 1) mod cardinality) self);
    oldest <~ (if negb (Observation.initialized next) then
                 match self with [] => Some (Err (FatalError "No observations available")) | o :: _ => Some (Ok o) end
               else Some (Ok next));
    if negb (lte time (Observation.block_timestamp oldest) target) then
      Some (Err (FatalError "Target too old (after oldest observation)"))
    else binary_search fuel time target index cardinality self.

(** [/] of two [i64]. *)
Definition div_i64 {E} (a b : Z) : result E Z := if b =? 0 then Panic else Ok (swrap 64 (Z.quot a b)).

Definition observe_single (fuel : nat) (time seconds_ago tick index liquidity cardinality : Z) (self : t) :
    timed SimulationError (Z * Z) :=
  if seconds_ago =? 0 then
    last <~ Some (get index self);
    last <~ Some (if negb (Observation.block_timestamp last =? time) then transform last time tick liquidity else Ok last);
    Some (Ok (Observation.tick_cumulative last, Observation.seconds_per_liquidity_cumulative_x128 last))
  else
    let target := wrap 32 (time - seconds_ago) in
    '(before_or_at, at_or_after) <~ get_surrounding_observations fuel time target tick index liquidity cardinality self;
    if target =? Observation.block_timestamp before_or_at then
      Some (Ok (Observation.tick_cumulative before_or_at, Observation.seconds_per_liquidity_cumulative_x128 before_or_at))
    else if target =? Observation.block_timestamp at_or_after then
      Some (Ok (Observation.tick_cumulative at_or_after, Observation.seconds_per_liquidity_cumulative_x128 at_or_after))
    else
      let observation_time_delta :=
        wrap 32 (Observation.block_timestamp at_or_after - Observation.block_timestamp before_or_at) in
      let target_delta := wrap 32 (target - Observation.block_timestamp before_or_at) in
      Some (
        share ← div_i64 (swrap 64 (swrap 64 (Observation.tick_cumulative at_or_after - Observation.tick_cumulative before_or_at)
                                   * target_delta)) observation_time_delta;
        let tick_cumulative := swrap 64 (Observation.tick_cumulative before_or_at + share) in
        delta ← safe_sub_u256 (Observation.seconds_per_liquidity_cumulative_x128 at_or_after)
                  (Observation.seconds_per_liquidity_cumulative_x128 before_or_at);
        product ← safe_mul_u256 delta target_delta;
        scaled ← safe_div_u256 product observation_time_delta;
        seconds ← safe_add_u256 (Observation.seconds_per_liquidity_cumulative_x128 before_or_at) scaled;
        Ok (tick_cumulative, seconds)).

(** The loop over [seconds_agos], and the two vectors it fills. *)
Fixpoint observe_each (fuel : nat) (time tick index liquidity cardinality : Z) (self : t) (seconds_agos : list Z) :
    timed SimulationError (list Z * list Z) :=
  match seconds_agos with
  | [] => Some (Ok ([], []))
  | seconds_ago :: rest =>
      '(tick_cum, sec_liq) <~ observe_single fuel time seconds_ago tick index liquidity cardinality self;
      '(ticks, secs) <~ observe_each fuel time tick index liquidity cardinality self rest;
      Some (Ok (tick_cum :: ticks, sec_liq :: secs))
  end.

Definition observe (fuel : nat) (time : Z) (seconds_agos : list Z) (tick index liquidity cardinality : Z) (self : t) :
    timed SimulationError (list Z * list Z) :=
  if cardinality =? 0 then Some (Err (FatalError "Cardinality must be > 0"))
  else observe_each fuel time tick index liquidity cardinality self seconds_agos.
End Observations.

(** * dynamic_fee_module.rs *)

Definition ZERO_FEE_INDICATOR : Z := 420.
Definition DEFAULT_SECONDS_AGO : Z := 600.
Definition MIN_SECONDS_AGO : Z := 2.
Definition DEFAULT_SCALING_FACTOR : Z := 0.
Definition DEFAULT_FEE_CAP : Z := 30000.
Definition SCALING_PRECISION : Z := 1000000.
Definition SUPPORTED_DYNAMIC_FEE_MODULES : list Bytes := [
  [Byte.x09; Byte.x0b; Byte.x2a; Byte.x6b; Byte.xb4; Byte.x75; Byte.xc0; Byte.x0e; Byte.x22; Byte.x56; Byte.xe2; Byte.x09; Byte.x5a; Byte.x60; Byte.x88; Byte.x7c; Byte.xd7; Byte.x10; Byte.x80; Byte.x3b];
  [Byte.xf4; Byte.xec; Byte.xd7; Byte.x8e; Byte.xbe; Byte.xb6; Byte.xd3; Byte.x6c; Byte.xf7; Byte.xf8; Byte.x0b; Byte.x5b; Byte.x6b; Byte.x41; Byte.x45; Byte.x35; Byte.x15; Byte.xfe; Byte.x27; Byte.x85]].

Definition is_supported_dynamic_fee_module (fee_module : Bytes) : bool :=
  existsb (fun supported => bool_decide (supported = fee_module)) SUPPORTED_DYNAMIC_FEE_MODULES.

Module DynamicFeeConfig.
Record t := mk { base_fee : Z; fee_cap : Z; scaling_factor : Z; initial_fee_enabled : bool; initial_fee : Z }.
#[global] Instance eq_dec : EqDecision t.
Proof. solve_decision. Defined.

Definition default_ : t := mk 0 0 0 false 0.

Definition any_nonzero (b : Bytes) : bool := existsb (fun byte => negb (b2z byte =? 0)) b.

(** The error is the text of the missing attribute. *)
Definition from_attributes (attributes : gmap string Bytes) : result string t :=
  if negb (match attributes !! "dynamic_fee_module" with
           | Some module => is_supported_dynamic_fee_module module
           | None => false
           end) then Ok default_
  else
    b ← ok_or (attributes !! "dfc_baseFee") "missing dynamic fee attribute `dfc_baseFee`";
    base_fee ← uint_from_bytes 4 b;
    b ← ok_or (attributes !! "dfc_feeCap") "missing dynamic fee attribute `dfc_feeCap`";
    fee_cap ← uint_from_bytes 4 b;
    b ← ok_or (attributes !! "dfc_scalingFactor") "missing dynamic fee attribute `dfc_scalingFactor`";
    scaling_factor ← uint_from_bytes 8 b;
    let initial_fee_enabled :=
      match attributes !! "dfc_initialFeeEnabled" with Some value => any_nonzero value | None => false end in
    initial_fee ← (match attributes !! "dfc_initialFee" with Some b => uint_from_bytes 4 b | None => Ok 0 end);
    Ok (mk base_fee fee_cap scaling_factor initial_fee_enabled initial_fee).

(** [if let Some(value) = attributes.get(name) { field = decode(value); }] *)
Definition set_field (attributes : gmap string Bytes) (name : string) (decode : Bytes -> result string Z) (set : Z -> t -> t) :
    stm t string unit := fun self =>
  match attributes !! name with
  | None => (Ok tt, self)
  | Some value =>
      match decode value with
      | Ok z => (Ok tt, set z self)
      | Err e => (Err e, self)
      | Panic => (Panic, self)
      end
  end.

Definition update_from_attributes (attributes : gmap string Bytes) : stm t string unit := fun self =>
  match attributes !! "dynamic_fee_module" with
  | Some _ =>
      match from_attributes attributes with
      | Ok config => (Ok tt, config)
      | Err e => (Err e, self)
      | Panic => (Panic, self)
      end
  | None =>
      (set_field attributes "dfc_baseFee" (uint_from_bytes 4)
         (fun v s => mk v (fee_cap s) (scaling_factor s) (initial_fee_enabled s) (initial_fee s)) ;?
       set_field attributes "dfc_feeCap" (uint_from_bytes 4)
         (fun v s => mk (base_fee s) v (scaling_factor s) (initial_fee_enabled s) (initial_fee s)) ;?
       set_field attributes "dfc_scalingFactor" (uint_from_bytes 8)
         (fun v s => mk (base_fee s) (fee_cap s) v (initial_fee_enabled s) (initial_fee s)) ;?
       set_field attributes "dfc_initialFeeEnabled" (fun b => Ok (if any_nonzero b then 1 else 0))
         (fun v s => mk (base_fee s) (fee_cap s) (scaling_factor s) (v =? 1) (initial_fee s)) ;?
       set_field attributes "dfc_initialFee" (uint_from_bytes 4)
         (fun v s => mk (base_fee s) (fee_cap s) (scaling_factor s) (initial_fee_enabled s) v)) self
  end.
End DynamicFeeConfig.

(** A failed observation counts as no dynamic part. *)
Definition calculate_dynamic_fee (fuel : nat) (current_tick liquidity observation_index observation_cardinality : Z)
    (observations : Observations.t) (blocktime scaling_factor : Z) : timed SimulationError Z :=
  if observation_cardinality <? DEFAULT_SECONDS_AGO / MIN_SECONDS_AGO then Some (Ok 0)
  else
    match Observations.observe fuel blocktime [DEFAULT_SECONDS_AGO; 0] current_tick observation_index liquidity
            observation_cardinality observations with
    | None => None
    | Some Panic => Some Panic
    | Some (Err _) => Some (Ok 0)
    | Some (Ok (tick_cumulatives, _)) =>
        match tick_cumulatives with
        | c0 :: c1 :: _ =>
            let tw_avg_tick := swrap 32 (Z.quot (swrap 64 (c1 - c0)) DEFAULT_SECONDS_AGO) in
            let abs_tick_delta := Z.abs (swrap 32 (current_tick - tw_avg_tick)) in
            let dynamic_fee := abs_tick_delta * scaling_factor / SCALING_PRECISION in
            Some (Ok (wrap 32 dynamic_fee))
        | _ => Some (Ok 0)
        end
    end.

(** The last part of [get_dynamic_fee]: the base fee with the dynamic part, capped. *)
Definition capped_fee (fuel : nat) (dfc : DynamicFeeConfig.t) (base_fee current_tick liquidity
    observation_index observation_cardinality : Z) (observations : Observations.t) (blocktime : Z) : timed SimulationError Z :=
  let scaling_factor :=
    if negb (DynamicFeeConfig.scaling_factor dfc =? 0) then DynamicFeeConfig.scaling_factor dfc else DEFAULT_SCALING_FACTOR in
  let fee_cap :=
    if negb (DynamicFeeConfig.scaling_factor dfc =? 0) then DynamicFeeConfig.fee_cap dfc else DEFAULT_FEE_CAP in
  dynamic_fee <~ calculate_dynamic_fee fuel current_tick liquidity observation_index observation_cardinality
                   observations blocktime scaling_factor;
  Some (Ok (Z.min (wrap 32 (base_fee + dynamic_fee)) fee_cap)).

Definition get_dynamic_fee (fuel : nat) (dfc : DynamicFeeConfig.t) (default_base_fee current_tick liquidity
    observation_index observation_cardinality : Z) (observations : Observations.t) (blocktime : Z) : timed SimulationError Z :=
  if DynamicFeeConfig.base_fee dfc =? ZERO_FEE_INDICATOR then Some (Ok 0)
  else
    let base_fee := if negb (DynamicFeeConfig.base_fee dfc =? 0) then DynamicFeeConfig.base_fee dfc else default_base_fee in
    let dynamic := capped_fee fuel dfc base_fee current_tick liquidity observation_index observation_cardinality
                     observations blocktime in
    if DynamicFeeConfig.initial_fee_enabled dfc then
      timestamp <~ Some (Observations.timestamp_at observation_index observations);
      if negb (timestamp =? blocktime) then
        Some (Ok (if DynamicFeeConfig.initial_fee dfc =? 0 then base_fee
                  else if DynamicFeeConfig.initial_fee dfc =? ZERO_FEE_INDICATOR then 0
                  else DynamicFeeConfig.initial_fee dfc))
      else dynamic
    else dynamic.

(** * aerodrome_slipstreams/state.rs *)

Module AerodromeSlipstreamsState.
Record t := mk {
  id : string; block_timestamp : Z; liquidity : Z; sqrt_price : Z; observation_index : Z; observation_cardinality : Z;
  default_fee : Z; tick_spacing : Z; tick : Z; ticks : TickList.t; observations : Observations.t; dfc : DynamicFeeConfig.t
}.

Definition new (id : string) (block_timestamp liquidity sqrt_price observation_index observation_cardinality default_fee
    tick_spacing tick : Z) (ticks : list TickInfo.t) (observations : Observations.t) (dfc : DynamicFeeConfig.t) :
    result SimulationError t :=
  tick_list ← TickList.from (wrap 16 tick_spacing) ticks;
  Ok (mk id block_timestamp liquidity sqrt_price observation_index observation_cardinality default_fee tick_spacing tick
        tick_list observations dfc).

Definition get_fee (fuel : nat) (self : t) : timed SimulationError Z :=
  get_dynamic_fee fuel (dfc self) (default_fee self) (tick self) (liquidity self) (observation_index self)
    (observation_cardinality self) (observations self) (wrap 32 (block_timestamp self)).

Definition gas (self : t) : GasSchedule.t :=
  let twap_overhead := if negb (DynamicFeeConfig.scaling_factor (dfc self) =? 0) then 65000 else 0 in
  GasSchedule.mk (125000 + twap_overhead) 0 0 70000 12500 15000 0.

Definition MAX_TICKS_CROSSED : Z := (16700000 - 125000) / 70000.

(** The fee is computed once, after the guards. *)
Definition swap (fuel : nat) (self : t) (zero_for_one : bool) (amount_specified : Z) (sqrt_price_limit : option Z) :
    timed SimulationError SwapResults.t :=
  price_limit <~ Some (swap_price_limit (liquidity self =? 0) (sqrt_price self) zero_for_one sqrt_price_limit);
  fee <~ get_fee fuel self;
  swap_to_limit (ticks self) fee (gas self) (liquidity self) (sqrt_price self) (tick self) zero_for_one
    amount_specified price_limit.

Definition after_swap (self : t) (r : SwapResults.t) : t :=
  mk (id self) (block_timestamp self) (SwapResults.liquidity r) (SwapResults.sqrt_price r) (observation_index self)
     (observation_cardinality self) (default_fee self) (tick_spacing self) (SwapResults.tick r) (ticks self)
     (observations self) (dfc self).

Definition get_amount_out (fuel : nat) (amount_in : Z) (token_a token_b : Token.t) (self : t) :
    timed SimulationError (GetAmountOutResult.t t) :=
  let zero_for_one := Token.ltb token_a token_b in
  amount_specified <~ Some (i256_amount amount_in);
  result <~ swap fuel self zero_for_one amount_specified None;
  Some (Ok (GetAmountOutResult.mk (u256_to_biguint (Z.abs (SwapResults.amount_calculated result)))
              (u256_to_biguint (SwapResults.gas_used result)) (after_swap self result))).

Definition get_limits (token_in token_out : Bytes) (self : t) : option (result SimulationError (Z * Z)) :=
  clmm_get_limits (ticks self) (bytes_ltb token_in token_out) (Some MAX_TICKS_CROSSED) false
    (liquidity self =? 0) (liquidity self) (sqrt_price self) (tick self).

(** [BigInt::from_signed_bytes_be(b).to_u64().unwrap()] *)
Definition signed_u64 {E} (b : Bytes) : result E Z :=
  let v := match b with
           | first :: _ => if 128 <=? b2z first then be_value b - 2 ^ (8 * Z.of_nat (length b)) else be_value b
           | [] => 0
           end in
  unwrap (checked 64 v).

Definition set_ticks (v : TickList.t) (s : t) : t :=
  mk (id s) (block_timestamp s) (liquidity s) (sqrt_price s) (observation_index s) (observation_cardinality s)
     (default_fee s) (tick_spacing s) (tick s) v (observations s) (dfc s).
Definition set_observations (v : Observations.t) (s : t) : t :=
  mk (id s) (block_timestamp s) (liquidity s) (sqrt_price s) (observation_index s) (observation_cardinality s)
     (default_fee s) (tick_spacing s) (tick s) (ticks s) v (dfc s).
Definition set_dfc (v : DynamicFeeConfig.t) (s : t) : t :=
  mk (id s) (block_timestamp s) (liquidity s) (sqrt_price s) (observation_index s) (observation_cardinality s)
     (default_fee s) (tick_spacing s) (tick s) (ticks s) (observations s) v.

(** An unreadable index and a failed update are ignored. *)
Definition update_observation (key : string) (value : Bytes) : stm Observations.t TransitionError unit := fun self =>
  match strip_prefix "observations/" key with
  | None => (Ok tt, self)
  | Some idx_str =>
      match parse_i32 idx_str with
      | None => (Ok tt, self)
      | Some idx =>
          match Observations.upsert_observation idx value self with
          | (Panic, self') => (Panic, self')
          | (_, self') => (Ok tt, self')
          end
      end
  end.

Definition update_entry (key : string) (liquidity : result TransitionError Z) (value : Bytes) : stm t TransitionError unit :=
  on_field ticks set_ticks (update_tick tick_key key liquidity) ;?
  on_field observations set_observations (update_observation key value).

Import UniswapV3State(set_attribute, unpad).
Definition delta_transition (updated : gmap string Bytes) (deleted : gset string) : stm t TransitionError unit :=
  set_attribute updated "block_timestamp" signed_u64
    (fun v s => mk (id s) v (liquidity s) (sqrt_price s) (observation_index s) (observation_cardinality s) (default_fee s)
                   (tick_spacing s) (tick s) (ticks s) (observations s) (dfc s)) ;?
  set_attribute updated "liquidity"
    (fun b => liq_16_bytes ← unpad "Liquidity bytes too long, expected 16" 16 b; uint_from_bytes 16 liq_16_bytes)
    (fun v s => mk (id s) (block_timestamp s) v (sqrt_price s) (observation_index s) (observation_cardinality s) (default_fee s)
                   (tick_spacing s) (tick s) (ticks s) (observations s) (dfc s)) ;?
  set_attribute updated "sqrt_price_x96" u256_from_be_slice
    (fun v s => mk (id s) (block_timestamp s) (liquidity s) v (observation_index s) (observation_cardinality s) (default_fee s)
                   (tick_spacing s) (tick s) (ticks s) (observations s) (dfc s)) ;?
  set_attribute updated "observationIndex" (uint_from_bytes 2)
    (fun v s => mk (id s) (block_timestamp s) (liquidity s) (sqrt_price s) v (observation_cardinality s) (default_fee s)
                   (tick_spacing s) (tick s) (ticks s) (observations s) (dfc s)) ;?
  set_attribute updated "observationCardinality" (uint_from_bytes 2)
    (fun v s => mk (id s) (block_timestamp s) (liquidity s) (sqrt_price s) (observation_index s) v (default_fee s)
                   (tick_spacing s) (tick s) (ticks s) (observations s) (dfc s)) ;?
  set_attribute updated "default_fee" (uint_from_bytes 4)
    (fun v s => mk (id s) (block_timestamp s) (liquidity s) (sqrt_price s) (observation_index s) (observation_cardinality s) v
                   (tick_spacing s) (tick s) (ticks s) (observations s) (dfc s)) ;?
  on_field dfc set_dfc
    (st_map_err (fun _ => TransitionDecodeError "Failed to update dynamic fee module config")
       (DynamicFeeConfig.update_from_attributes updated)) ;?
  set_attribute updated "tick"
    (fun b => ticks_4_bytes ← unpad "Tick bytes too long, expected 4" 4 b; Ok (i24_be_bytes_to_i32 ticks_4_bytes))
    (fun v s => mk (id s) (block_timestamp s) (liquidity s) (sqrt_price s) (observation_index s) (observation_cardinality s)
                   (default_fee s) (tick_spacing s) v (ticks s) (observations s) (dfc s)) ;?
  for_each (fun '(key, value) => update_entry key (int_from_bytes 16 value) value) (map_to_list updated) ;?
  for_each (fun key => update_entry key (Ok 0) []) (elements deleted).

(** Two states with a failing fee are unequal. *)
Definition eq (fuel : nat) (self other : t) : timed SimulationError bool :=
  match get_fee fuel self, get_fee fuel other with
  | None, _ => None
  | Some Panic, _ => Some Panic
  | Some (Err _), _ => Some (Ok false)
  | Some (Ok _), None => None
  | Some (Ok _), Some Panic => Some Panic
  | Some (Ok _), Some (Err _) => Some (Ok false)
  | Some (Ok self_fee), Some (Ok other_fee) =>
      Some (Ok ((liquidity self =? liquidity other) && (sqrt_price self =? sqrt_price other) && (self_fee =? other_fee) &&
                (tick self =? tick other) && bool_decide (ticks self = ticks other)))
  end.
End AerodromeSlipstreamsState.
