(* ===== verification/SlipstreamsSpec.v ===== *)
(** What the dynamic fee of the Slipstreams pools promises.

    On a ring buffer in order, the search for the observations around a time ends and finds
    neighbours on both sides of it, so that a pool whose ring is in order quotes like every
    other concentrated-liquidity pool.  On a ring with gaps, as it is indexed when some
    observations are missing, the search can go on forever. *)

From S2P Require Import Prelude Collections Bytes Models SafeMath SafeMathSpec Cpmm TickMath TickMathSpec TickInverse.
From S2P Require Import TickList TickListSpec SwapMath SwapMathSpec Clmm ClmmPools ClmmSpec ClmmPoolsSpec Slipstreams.

Open Scope Z_scope.

(** * Times on a wrapping clock *)

(** The time [x], not after [now], on a clock without wrap-around. *)
Definition unwrapped (now x : Z) : Z := if now <? x then x else x + 2 ^ 32.

Lemma lte_unwrapped now a b :
  0 <= a < 2 ^ 32 -> 0 <= b < 2 ^ 32 -> lte now a b = true <-> unwrapped now a <= unwrapped now b.
Proof.
  intros Ha Hb. unfold lte, unwrapped.
  destruct (Z.leb_spec a now), (Z.leb_spec b now), (Z.ltb_spec now a), (Z.ltb_spec now b); cbn [andb];
    rewrite ?Z.leb_le; lia.
Qed.

(** * Rings in order *)

Section ring.
Context (now : Z) (obs : Observations.t) (index c : Z).

(** The [j]-th observation after the newest, round the ring. *)
Definition slot (j : Z) : Observation.t := default Observation.default_ (obs !! Z.to_nat ((index + 1 + j) mod c)).
Abbreviation stamp o := (unwrapped now (Observation.block_timestamp o)).

(** [k] slots never written, then the observations from the oldest to the newest. *)
Record ring_ok (k : Z) : Prop := {
  ring_cardinality : 0 < c < 2 ^ 16;
  ring_index : 0 <= index < c;
  ring_length : c <= Z.of_nat (length obs);
  ring_gap : 0 <= k < c;
  ring_unwritten : forall j, 0 <= j < k -> Observation.initialized (slot j) = false;
  ring_written : forall j, k <= j < c -> Observation.initialized (slot j) = true;
  ring_times : forall j, k <= j < c -> 0 <= Observation.block_timestamp (slot j) < 2 ^ 32;
  ring_sorted : forall j j', k <= j <= j' -> j' < c -> stamp (slot j) <= stamp (slot j');
  ring_oldest : k = 0 \/ (index + 1 + k) mod c = 0
}.

Context (k target : Z) (Hring : ring_ok k) (Htarget : 0 <= target < 2 ^ 32).
Abbreviation T := (unwrapped now target).
Abbreviation base := ((index + 1) mod c).

Lemma get_slot i j : i = base + j -> 0 <= j -> Observations.get (i mod c) obs = Ok (slot j).
Proof using Hring.
  intros -> Hj. destruct Hring as [Hc Hi Hl _ _ _ _ _ _]. unfold Observations.get, slot.
  rewrite Zplus_mod_idemp_l. pose proof (Z.mod_pos_bound (index + 1 + j) c ltac:(lia)).
  destruct (lookup_lt_is_Some_2 obs (Z.to_nat ((index + 1 + j) mod c)) ltac:(lia)) as [o ->]. done.
Qed.

Lemma lte_slot j : k <= j < c -> lte now (Observation.block_timestamp (slot j)) target = (stamp (slot j) <=? T).
Proof using Hring Htarget.
  intros Hj. apply Bool.eq_iff_eq_true. rewrite Z.leb_le. apply lte_unwrapped; [|done]. by apply (ring_times _ Hring).
Qed.

Lemma target_lte_slot j : k <= j < c -> lte now target (Observation.block_timestamp (slot j)) = (T <=? stamp (slot j)).
Proof using Hring Htarget.
  intros Hj. apply Bool.eq_iff_eq_true. rewrite Z.leb_le. apply lte_unwrapped; [done|]. by apply (ring_times _ Hring).
Qed.

(** The target is not older than the oldest observation and older than the newest. *)
Context (Hold : stamp (slot k) <= T) (Hnew : T < stamp (slot (c - 1))).

(** The slots [a .. b] of the search hold the target. *)
Record search_inv (s : Z * Z) : Prop := {
  si_order : base <= s.1 <= s.2;
  si_high : s.2 - base < c /\ k <= s.2 - base;
  si_below : s.1 - base <= k \/ stamp (slot (s.1 - base)) <= T;
  si_above : T < stamp (slot (s.2 - base)) \/ s.2 - base + 1 < c /\ T < stamp (slot (s.2 - base + 1))
}.

Abbreviation step := (Observations.search_step obs now target c).

Definition brackets (r : result SimulationError (Observation.t * Observation.t)) : Prop :=
  exists j, k <= j < c - 1 /\ r = Ok (slot j, slot (j + 1)) /\ stamp (slot j) <= T <= stamp (slot (j + 1)).

Lemma search_start : search_inv (base, base + c - 1).
Proof using Hring Hold Hnew.
  destruct Hring as [Hc Hi _ Hk _ _ _ _ _]. split; cbn [fst snd]; [lia|lia|lia|].
  left. replace (base + c - 1 - base) with (c - 1) by lia. done.
Qed.

Lemma search_turn s :
  search_inv s ->
  match step s with
  | inl s' => search_inv s' /\ 0 <= s'.2 - s'.1 < s.2 - s.1
  | inr r => brackets r
  end.
Proof using Hring Htarget Hold Hnew.
  destruct s as [l r]. intros [Ho [Hh1 Hh2] Hb Ha]. cbn [fst snd] in *. pose proof (ring_cardinality _ Hring) as Hc.
  pose proof (ring_gap _ Hring) as Hk.
  assert (l <= (l + r) / 2 <= r) as Hi by (split; [apply Z.div_le_lower_bound|apply Z.div_le_upper_bound]; lia).
  unfold Observations.search_step. set (i := (l + r) / 2) in *. clearbody i. set (j := i - base).
  assert (0 <= base) as Hbase by (apply Z.mod_pos_bound; lia).
  rewrite (get_slot i j), (get_slot (i + 1) (j + 1)) by (unfold j; lia).
  destruct (Z.lt_ge_cases j k) as [Hjk|Hjk].
  { rewrite (ring_unwritten _ Hring) by (unfold j in *; lia). cbn [negb].
    split; [|cbn; unfold j in *; lia]. split; cbn [fst snd]; [unfold j in *; lia|lia|left; unfold j in *; lia|done]. }
  rewrite (ring_written _ Hring) by (unfold j in *; lia). cbn [negb].
  rewrite lte_slot by (unfold j in *; lia). destruct (Z.leb_spec (stamp (slot j)) T) as [Hle|Hgt]; cbn [andb negb].
  - assert (j < c - 1) as Hjc.
    { apply Z.nle_gt. intros Hj. replace (c - 1) with j in Hnew by (unfold j in *; lia). lia. }
    rewrite target_lte_slot by lia. destruct (Z.leb_spec T (stamp (slot (j + 1)))) as [Hle2|Hgt2].
    + exists j. split; [lia|]. done.
    + assert (i <> r) as Hir.
      { intros ->. unfold j in *. destruct Ha as [Ha|[_ Ha]]; lia. }
      split; [|cbn; lia]. split; cbn [fst snd]; [lia|lia| |done].
      right. replace (i + 1 - base) with (j + 1) by (unfold j; lia). lia.
  - assert (j <> k) as Hne by (intros Hjk'; rewrite Hjk' in Hgt; lia).
    assert (i <> l) as Hil.
    { intros ->. unfold j in *. destruct Hb as [Hb|Hb]; lia. }
    destruct (Z.eqb_spec i 0) as [Hz|_]; [lia|]. split; [|cbn; lia].
    split; cbn [fst snd]; [lia|unfold j in *; lia|done|]. right.
    replace (i - 1 - base + 1) with j by (unfold j; lia). split; [unfold j; lia|done].
Qed.

Lemma search_finds : exists r, Observations.binary_search 16 now target index c obs = Some r /\ brackets r.
Proof using Hring Htarget Hold Hnew.
  pose proof (ring_cardinality _ Hring) as Hc. pose proof (ring_length _ Hring) as Hl.
  unfold Observations.binary_search. destruct obs as [|o0 rest] eqn:Eo; [cbn in Hl; lia|]. rewrite <-Eo in *. clear o0 rest Eo.
  replace (c =? 0) with false by lia.
  assert (forall s s', search_inv s -> step s = inl s' -> search_inv s' /\ 0 <= s'.2 - s'.1 < s.2 - s.1) as Hinl.
  { intros s s' Hs He. pose proof (search_turn s Hs) as H. by rewrite He in H. }
  destruct (iterate_terminates step search_inv (fun s => s.2 - s.1) Hinl 16 (base, base + c - 1) search_start) as [r Hr].
  { change (2 ^ Z.of_nat 16) with (2 ^ 16). cbn [fst snd]. lia. }
  cbv zeta. rewrite Hr. exists r. split; [done|].
  eapply (iterate_inr step search_inv (fun s => s.2 - s.1) Hinl brackets 16); [|apply search_start|exact Hr].
  intros s r' Hs He. pose proof (search_turn s Hs) as H. by rewrite He in H.
Qed.
End ring.

(** * Observing on a ring in order *)

(** The computation ends, with a value that satisfies [Q] or an error. *)
Definition completes {E A} (Q : A -> Prop) (m : timed E A) : Prop := exists r, m = Some r /\ ends (fun _ => True) Q r.

Lemma completes_bind {E A B} (P : A -> Prop) (Q : B -> Prop) (m : timed E A) (f : A -> timed E B) :
  completes P m -> (forall a, P a -> completes Q (f a)) -> completes Q (t_bind m f).
Proof.
  intros (r & -> & Hr) Hf. destruct r as [a|e|]; cbn [ends] in Hr; [by apply Hf|by eexists|done].
Qed.

Lemma completes_now {E A} (Q : A -> Prop) (r : result E A) : ends (fun _ => True) Q r -> completes Q (Some r).
Proof. intros H. by exists r. Qed.

Lemma completes_ok {E A} (Q : A -> Prop) (a : A) : Q a -> completes (E := E) Q (Some (Ok a)).
Proof. intros H. by exists (Ok a). Qed.

#[local] Hint Resolve completes_ok : tycho.

Lemma t_bind_ok {E A B} (a : A) (f : A -> timed E B) : t_bind (Some (Ok a)) f = f a.
Proof. done. Qed.

Lemma checked_ends o : ends (fun _ => True) (fun _ => True) (_construc_result_u256 o).
Proof. by destruct o. Qed.

Lemma transform_ends o target tick liquidity :
  ends (fun _ => True) (fun o' => Observation.block_timestamp o' = target) (transform o target tick liquidity).
Proof.
  unfold transform. apply ends_bind, (ends_mono _ (fun _ => True)); [|done].
  destruct (0 <? liquidity); [|done]. apply checked_ends.
Qed.

Lemma unwrapped_inj now a b : 0 <= a < 2 ^ 32 -> 0 <= b < 2 ^ 32 -> unwrapped now a = unwrapped now b -> a = b.
Proof. unfold unwrapped. intros Ha Hb. destruct (Z.ltb_spec now a), (Z.ltb_spec now b); lia. Qed.

(** A pair as the interpolation needs it: distinct times unless the target is one of them. *)
Definition around (target : Z) (p : Observation.t * Observation.t) : Prop :=
  target = Observation.block_timestamp p.1 \/ target = Observation.block_timestamp p.2 \/
  wrap 32 (Observation.block_timestamp p.2 - Observation.block_timestamp p.1) <> 0.

Lemma wrap_diff_zero a b : 0 <= a < 2 ^ 32 -> 0 <= b < 2 ^ 32 -> wrap 32 (a - b) = 0 -> a = b.
Proof.
  intros Ha Hb. unfold wrap. intros H. apply Z.mod_divide in H as [q Hq]; [|lia]. nia.
Qed.

Section observing.
Context (now : Z) (obs : Observations.t) (index c k tick liquidity : Z).
Context (Hring : ring_ok now obs index c k).

Abbreviation slot := (slot obs index c).

Lemma newest_slot : Observations.get index obs = Ok (slot (c - 1)).
Proof using Hring.
  pose proof (ring_index _ _ _ _ _ Hring). pose proof (ring_cardinality _ _ _ _ _ Hring).
  rewrite <-(get_slot now obs index c k Hring ((index + 1) mod c + (c - 1)) (c - 1)) by lia.
  rewrite Zplus_mod_idemp_l. replace (index + 1 + (c - 1)) with (index + 1 * c) by lia.
  by rewrite Z.mod_add, Z.mod_small by lia.
Qed.

(** The oldest observation, as the source finds it. *)
Lemma oldest_slot :
  (if negb (Observation.initialized (slot 0)) then
     match obs with [] => Some (Err (FatalError "No observations available")) | o :: _ => Some (Ok o) end
   else Some (Ok (E := SimulationError) (slot 0))) = Some (Ok (slot k)).
Proof using Hring.
  pose proof (ring_gap _ _ _ _ _ Hring) as Hk. destruct (decide (k = 0)) as [->|Hne].
  - by rewrite (ring_written _ _ _ _ _ Hring) by lia.
  - rewrite (ring_unwritten _ _ _ _ _ Hring) by lia. cbn [negb].
    destruct (ring_oldest _ _ _ _ _ Hring) as [|Hz]; [done|]. unfold slot. rewrite Hz.
    pose proof (ring_length _ _ _ _ _ Hring). pose proof (ring_cardinality _ _ _ _ _ Hring).
    destruct obs; [cbn in *; lia|done].
Qed.

Lemma surrounding_completes target :
  0 <= target < 2 ^ 32 ->
  completes (around target) (Observations.get_surrounding_observations 16 now target tick index liquidity c obs).
Proof using Hring.
  intros Ht. pose proof (ring_gap _ _ _ _ _ Hring) as Hk. pose proof (ring_cardinality _ _ _ _ _ Hring) as Hc.
  unfold Observations.get_surrounding_observations. rewrite newest_slot, t_bind_ok.
  rewrite (lte_slot now obs index c k target Hring Ht) by lia.
  destruct (Z.leb_spec (unwrapped now (Observation.block_timestamp (slot (c - 1)))) (unwrapped now target)) as [Hle|Hgt].
  { destruct (Z.eqb_spec (Observation.block_timestamp (slot (c - 1))) target) as [He|Hne].
    - apply completes_ok. by left.
    - eapply completes_bind; [apply completes_now, transform_ends|]. intros o' Ho'. apply completes_ok. right. by left. }
  replace (c =? 0) with false by lia.
  replace (Observations.get ((index + 1) mod c) obs) with (Ok (E := SimulationError) (slot 0)).
  2: { rewrite <-(get_slot now obs index c k Hring ((index + 1) mod c + 0) 0) by lia. by rewrite Z.add_0_r, Zmod_mod. }
  rewrite t_bind_ok.
  match goal with |- context [t_bind ?m _] => replace m with (Some (Ok (E := SimulationError) (slot k))) by (symmetry; exact oldest_slot) end.
  rewrite t_bind_ok. rewrite (lte_slot now obs index c k target Hring Ht) by lia.
  destruct (Z.leb_spec (unwrapped now (Observation.block_timestamp (slot k))) (unwrapped now target)) as [Hold|]; cbn [negb];
    [|by eexists].
  destruct (search_finds now obs index c k target Hring Ht Hold Hgt) as (r & Hr & j & Hj & -> & Hb1 & Hb2).
  rewrite Hr. apply completes_ok. unfold around. cbn [fst snd].
  pose proof (ring_times _ _ _ _ _ Hring j ltac:(lia)) as H1. pose proof (ring_times _ _ _ _ _ Hring (j + 1) ltac:(lia)) as H2.
  destruct (decide (wrap 32 (Observation.block_timestamp (slot (j + 1)) - Observation.block_timestamp (slot j)) = 0)) as [Hw|Hw].
  - apply wrap_diff_zero in Hw; [|done|done]. left. apply (unwrapped_inj now); [done|done|]. rewrite Hw in Hb2. lia.
  - right. by right.
Qed.

Lemma observe_single_completes seconds_ago :
  completes (fun _ => True) (Observations.observe_single 16 now seconds_ago tick index liquidity c obs).
Proof using Hring.
  unfold Observations.observe_single. destruct (seconds_ago =? 0).
  - rewrite newest_slot, t_bind_ok. eapply (completes_bind (fun _ => True)); [|by auto with tycho].
    apply completes_now. destruct (negb _); [|done]. by eapply ends_mono; [apply transform_ends|].
  - set (target := wrap 32 (now - seconds_ago)). assert (0 <= target < 2 ^ 32) as Ht by (apply (wrap_range 32); lia).
    cbv zeta. eapply completes_bind; [by apply surrounding_completes|]. intros [b a] Ha. unfold around in Ha. cbn [fst snd] in Ha.
    destruct (Z.eqb_spec target (Observation.block_timestamp b)); [by apply completes_ok|].
    destruct (Z.eqb_spec target (Observation.block_timestamp a)); [by apply completes_ok|].
    destruct Ha as [?|[?|Hd]]; [done..|]. apply completes_now.
    unfold Observations.div_i64. rewrite (proj2 (Z.eqb_neq _ _) Hd). cbn [mbind result_bind].
    apply ends_bind, (ends_mono _ (fun _ => True)); [apply checked_ends|]. intros delta _.
    apply ends_bind, (ends_mono _ (fun _ => True)); [apply checked_ends|]. intros product _.
    apply ends_bind, (ends_mono _ (fun _ => True)); [unfold safe_div_u256; destruct (_ =? 0); [done|apply checked_ends]|]. intros scaled _.
    apply ends_bind, (ends_mono _ (fun _ => True)); [apply checked_ends|]. done.
Qed.

(** The dynamic part of the fee has 32 bits. *)
Lemma dynamic_part scaling :
  exists v, calculate_dynamic_fee 16 tick liquidity index c obs now scaling = Some (Ok v) /\ 0 <= v < 2 ^ 32.
Proof using Hring.
  unfold calculate_dynamic_fee. destruct (c <? _); [by exists 0|].
  pose proof (ring_cardinality _ _ _ _ _ Hring). unfold Observations.observe. replace (c =? 0) with false by lia. cbn [Observations.observe_each].
  destruct (observe_single_completes DEFAULT_SECONDS_AGO) as (r1 & -> & H1). destruct (observe_single_completes 0) as (r2 & -> & H2).
  destruct r1 as [[t1 l1]|e|]; cbn [t_bind]; [|by exists 0|done].
  destruct r2 as [[t2 l2]|e|]; cbn [t_bind]; [|by exists 0|done].
  eexists. split; [reflexivity|]. apply (wrap_range 32). lia.
Qed.
End observing.

(** * Fees and quotes *)

Abbreviation state := AerodromeSlipstreamsState.t.

(** The configured fees are parts of a million. *)
Record fees_ok (s : state) : Prop := {
  fee_base : 0 <= DynamicFeeConfig.base_fee (AerodromeSlipstreamsState.dfc s) < 1000000;
  fee_default : 0 <= AerodromeSlipstreamsState.default_fee s < 1000000;
  fee_initial : 0 <= DynamicFeeConfig.initial_fee (AerodromeSlipstreamsState.dfc s) < 1000000;
  fee_capped : 0 <= DynamicFeeConfig.fee_cap (AerodromeSlipstreamsState.dfc s) < 1000000
}.

(** The ring of a pool is in order at the time of the pool's block. *)
Definition observations_ok (s : state) : Prop :=
  exists k, ring_ok (wrap 32 (AerodromeSlipstreamsState.block_timestamp s)) (AerodromeSlipstreamsState.observations s)
    (AerodromeSlipstreamsState.observation_index s) (AerodromeSlipstreamsState.observation_cardinality s) k.

Lemma get_fee_ok s :
  fees_ok s -> observations_ok s ->
  exists fee, AerodromeSlipstreamsState.get_fee 16 s = Some (Ok fee) /\ 0 <= fee < 1000000.
Proof.
  intros [Hb Hd Hi Hc] [k Hring]. unfold AerodromeSlipstreamsState.get_fee, get_dynamic_fee.
  destruct (_ =? ZERO_FEE_INDICATOR); [by exists 0|].
  set (base := if negb (DynamicFeeConfig.base_fee _ =? 0) then _ else _).
  assert (0 <= base < 1000000) as Hbase by (unfold base; destruct (negb _); done). clearbody base. cbv zeta.
  assert (exists fee, capped_fee 16 (AerodromeSlipstreamsState.dfc s) base (AerodromeSlipstreamsState.tick s) (AerodromeSlipstreamsState.liquidity s)
    (AerodromeSlipstreamsState.observation_index s) (AerodromeSlipstreamsState.observation_cardinality s)
    (AerodromeSlipstreamsState.observations s) (wrap 32 (AerodromeSlipstreamsState.block_timestamp s)) = Some (Ok fee) /\ 0 <= fee < 1000000) as Hdyn.
  { unfold capped_fee. cbv zeta.
    destruct (dynamic_part _ _ _ _ k (AerodromeSlipstreamsState.tick s) (AerodromeSlipstreamsState.liquidity s) Hring
      (if negb (DynamicFeeConfig.scaling_factor (AerodromeSlipstreamsState.dfc s) =? 0)
       then DynamicFeeConfig.scaling_factor (AerodromeSlipstreamsState.dfc s) else DEFAULT_SCALING_FACTOR)) as (v & -> & Hv).
    cbn [t_bind]. eexists. split; [reflexivity|]. pose proof (wrap_range 32 (base + v) ltac:(lia)) as Hw.
    unfold in_range, DEFAULT_FEE_CAP in *. destruct (negb _); lia. }
  destruct (DynamicFeeConfig.initial_fee_enabled _); [|done].
  unfold Observations.timestamp_at. rewrite (newest_slot _ _ _ _ _ Hring). cbn [mbind result_bind t_bind].
  destruct (negb _); [|done]. eexists. split; [reflexivity|].
  destruct (_ =? 0); [done|]. destruct (_ =? ZERO_FEE_INDICATOR); [lia|done].
Qed.

(** Searching the ring of observations, when its [k] unwritten slots come first and the
    others follow in the order of their times: for a target not before the oldest and before
    the newest observation, the search ends within [2 ^ 16] turns and returns two neighbouring
    observations with the target between them, on the clock that wraps around. *)
Theorem observation_search_brackets (now : Z) (obs : Observations.t) (index cardinality k target : Z)
    (Hring : ring_ok now obs index cardinality k) (Htarget : 0 <= target < 2 ^ 32)
    (Hold : unwrapped now (Observation.block_timestamp (slot obs index cardinality k)) <= unwrapped now target)
    (Hnew : unwrapped now target < unwrapped now (Observation.block_timestamp (slot obs index cardinality (cardinality - 1)))) :
  exists j, let before := slot obs index cardinality j in let after := slot obs index cardinality (j + 1) in
    k <= j < cardinality - 1 /\
    Observations.binary_search 16 now target index cardinality obs = Some (Ok (before, after)) /\
    unwrapped now (Observation.block_timestamp before) <= unwrapped now target <=
      unwrapped now (Observation.block_timestamp after).
Proof.
  destruct (search_finds now obs index cardinality k target Hring Htarget Hold Hnew) as (r & Hr & j & Hj & -> & Hb).
  by exists j.
Qed.

(** A pool in order: tick and price agree, the fees are parts of a million, the ring is in
    order. *)
Definition slipstreams_ok (s : state) : Prop :=
  clmm_ok (AerodromeSlipstreamsState.ticks s) (AerodromeSlipstreamsState.liquidity s) (AerodromeSlipstreamsState.sqrt_price s)
    (AerodromeSlipstreamsState.tick s) /\ fees_ok s /\ observations_ok s.

(** A Slipstreams pool in order quotes an exact input: computing the dynamic fee and running
    the swap both end within their budgets and never unwind, the amount out is below
    [2 ^ 246], and the pool after the swap is in order again.  The quote is refused only for an
    empty pool, a price at the end of the range, an overflow, a liquidity below zero, or when
    the recorded ticks are exhausted; a failing fee is not among the reasons. *)
Theorem slipstreams_get_amount_out (amount : Z) (token_a token_b : Token.t) (s : state)
    (Hok : slipstreams_ok s) (Hamount : 0 <= amount < 2 ^ 255) :
  exists r, AerodromeSlipstreamsState.get_amount_out 16 amount token_a token_b s = Some r /\
    let zfo := Token.ltb token_a token_b in
    match r with
    | Ok res => 0 <= GetAmountOutResult.amount res < 2 ^ 246 /\ slipstreams_ok (GetAmountOutResult.new_state res)
    | Err e =>
        refused (AerodromeSlipstreamsState.liquidity s =? 0) zfo (AerodromeSlipstreamsState.sqrt_price s) (limit_of zfo None) e \/
        swap_error e
    | Panic => False
    end.
Proof.
  destruct Hok as (Hclmm & Hfees & Hobs). cbv zeta. set (zfo := Token.ltb token_a token_b).
  unfold AerodromeSlipstreamsState.get_amount_out, AerodromeSlipstreamsState.swap. rewrite i256_amount_ok by done. cbv zeta. rewrite t_bind_ok.
  fold zfo. pose proof (swap_price_limit_spec (AerodromeSlipstreamsState.liquidity s =? 0) (AerodromeSlipstreamsState.sqrt_price s) zfo None) as Hl.
  destruct (swap_price_limit _ _ _ _) as [l|e|]; [|eexists; split; [reflexivity|by left]|done].
  destruct Hl as (_ & -> & Hval). rewrite t_bind_ok. destruct (get_fee_ok s Hfees Hobs) as (fee & -> & Hfee). rewrite t_bind_ok.
  destruct (swap_to_limit_total _ fee (AerodromeSlipstreamsState.gas s) _ _ _ zfo amount _ Hclmm Hfee Hamount Hval) as (r & -> & Hr).
  destruct r as [res|e|]; cbn [t_bind ends] in *; [|eexists; split; [reflexivity|by right]|done].
  eexists. split; [reflexivity|]. cbn [GetAmountOutResult.amount GetAmountOutResult.new_state].
  unfold u256_to_biguint. pose proof (swap_received _ _ _ _ _ _ Hr). split; [lia|].
  split_and!; [apply Hr|destruct Hfees; by split|exact Hobs].
Qed.

Module SlipstreamsExamples.

Definition attribute (value : Z) : Bytes := to_be 32 value.

(** The observations of the repository's test [test_get_dynamic_fee]: a ring of which only the
    slots the search visits are present. *)
Definition test_ring : result SimulationError unit * Observations.t :=
  for_each (fun '(i, v) => Observations.upsert_observation i (attribute v))
    [(534, 0x01000006a0000001485073e3b9c1b1ba599e933717fff778eb3ff056690b05a1);
     (535, 0x01000006a0000001485072f3c785d8212da7414577fff77952e1b5ec690ae2d7);
     (2039, 0x01000006a00000014850737217b73678a71c3a98fdfff7791d60d77e690af4cd);
     (2040, 0x01000006a00000014850737239d75dce70d02120fffff7791d5ae25e690af4cf);
     (2792, 0x01000006a0000001485073a83aca03f518567293a7fff779047fd580690afd27);
     (2793, 0x01000006a0000001485073a84425ed86707cf3426afff7790473eae0690afd2b);
     (158, 0x01000006a0000001485073c3bd34f1a8b1e3595ef2fff778f7fab090690b015b);
     (159, 0x01000006a0000001485073c3bfcaf719d5a10d1babfff778f7f4bb8c690b015d);
     (346, 0x01000006a0000001485073d0992e1120d6162dec08fff778f1d01820690b036d);
     (347, 0x01000006a0000001485073d0a6e39cdb5daeb0b3dcfff778f1be390e690b0373);
     (252, 0x01000006a0000001485073ca9b84bedd861255f8f6fff778f4ca8f18690b026d);
     (253, 0x01000006a0000001485073caa9f9acbba60b0ac592fff778f4c49a22690b026f);
     (299, 0x01000006a0000001485073cc668d277afc9908bf5afff778f35f3120690b02e7);
     (300, 0x01000006a0000001485073cc6cec51a251dcd597a7fff778f3593c34690b02e9);
     (322, 0x01000006a0000001485073ce6eb2883c6b9c109292fff778f2a688ec690b0325);
     (323, 0x01000006a0000001485073ce7c9a63260beda5874ffff778f2a09414690b0327);
     (334, 0x01000006a0000001485073cf5c7f6da6dee6f54694fff778f21d8926690b0353);
     (335, 0x01000006a0000001485073cf7b9869740c05f0bf44fff778f2179430690b0355);
     (328, 0x01000006a0000001485073cecedc4b2732bd3fb882fff778f24d3044690b0343);
     (329, 0x01000006a0000001485073ced7e92fc61bfda7ccd4fff778f2414694690b0347);
     (331, 0x01000006a0000001485073cee01b7e722a6b0763d3fff778f2355ce2690b034b);
     (332, 0x01000006a0000001485073ceff347a3f578a02dc83fff778f22f67f6690b034d)] [].

Example test_get_dynamic_fee :
  get_dynamic_fee 16 (DynamicFeeConfig.mk 350 550 3000000 false 0) 362 (-195239) 1102101691356476042 534 3010
    test_ring.2 1762330021 = Some (Ok 380).
Proof. vm_compute. reflexivity. Qed.

Definition observed (time : Z) : Observation.t := Observation.mk time (5 * time) 7 true 0.

(** A ring of four with one unwritten slot. *)
Definition small_ring : Observations.t := [observed 100; observed 200; observed 300; Observation.default_].

Lemma small_ring_ok : ring_ok 400 small_ring 2 4 1.
Proof.
  split; [lia|lia|cbn; lia|lia| | | | |by right].
  - intros j Hj. replace j with 0 by lia. reflexivity.
  - intros j Hj. assert (j = 1 \/ j = 2 \/ j = 3) as [->|[->| ->]] by lia; reflexivity.
  - intros j Hj. assert (j = 1 \/ j = 2 \/ j = 3) as [->|[->| ->]] by lia; vm_compute; split; discriminate || reflexivity.
  - intros j j' Hj Hj'.
    assert (j = 1 \/ j = 2 \/ j = 3) as [->|[->| ->]] by lia;
      (assert (j' = 1 \/ j' = 2 \/ j' = 3) as [->|[->| ->]] by lia); first [lia|vm_compute; discriminate].
Qed.

Definition pool (observations : Observations.t) (index cardinality block_timestamp : Z) : state :=
  AerodromeSlipstreamsState.mk "pool" block_timestamp 500 (price_of (-120)) index cardinality 3000 60 (-120)
    TickListExamples.sample observations (DynamicFeeConfig.mk 0 10000 1000000 false 0).

Lemma pool_clmm observations index cardinality block_timestamp :
  let s := pool observations index cardinality block_timestamp in
  clmm_ok (AerodromeSlipstreamsState.ticks s) (AerodromeSlipstreamsState.liquidity s) (AerodromeSlipstreamsState.sqrt_price s)
    (AerodromeSlipstreamsState.tick s) /\ fees_ok s.
Proof. split; [apply ClmmExamples.at_edge_ok|split; cbn; lia]. Qed.

(** A ring of 300 slots of which only the slots 0 and 5 are known: a later observation pads the
    vector with defaults. *)
Definition gap_ring : Observations.t :=
  [observed 10; Observation.default_; Observation.default_; Observation.default_; Observation.default_; observed 1000] ++
  replicate 294 Observation.default_.

(** The states of the search for time 400, the last of which it repeats. *)
Definition orbit : list (Z * Z) :=
  [(6, 305); (156, 305); (231, 305); (269, 305); (288, 305); (297, 305); (302, 305); (304, 305); (305, 305); (305, 304)].

Lemma orbit_closed s :
  s ∈ orbit -> exists s', Observations.search_step gap_ring 1000 400 300 s = inl s' /\ s' ∈ orbit.
Proof.
  unfold orbit. intros Hs. repeat (apply elem_of_cons in Hs as [->|Hs]; [eexists; split; [vm_compute; reflexivity|apply (bool_decide_unpack _); vm_compute; reflexivity]|]).
  by apply elem_of_nil in Hs.
Qed.
End SlipstreamsExamples.

Import SlipstreamsExamples.

Lemma gap_search_diverges fuel : Observations.binary_search fuel 1000 400 5 300 gap_ring = None.
Proof.
  change (Observations.binary_search fuel 1000 400 5 300 gap_ring) with
    (match iterate fuel (Observations.search_step gap_ring 1000 400 300) (6, 305) with
     | inr answer => Some answer | inl _ => None end).
  destruct (iterate_diverges (Observations.search_step gap_ring 1000 400 300) (fun s => s ∈ orbit) orbit_closed fuel (6, 305)) as (s & -> & _);
    [left|done].
Qed.

(** The fee, before its observations are searched. *)
Lemma gap_fee fuel :
  AerodromeSlipstreamsState.get_fee fuel (pool gap_ring 5 300 1000) =
  t_bind (match Observations.observe fuel 1000 [600; 0] (-120) 5 500 300 gap_ring with
          | None => None | Some Panic => Some Panic | Some (Err _) => Some (Ok 0)
          | Some (Ok (tick_cumulatives, _)) =>
              match tick_cumulatives with
              | c0 :: c1 :: _ =>
                  Some (Ok (wrap 32 (Z.abs (swrap 32 (-120 - swrap 32 (Z.quot (swrap 64 (c1 - c0)) 600))) * 1000000 / 1000000)))
              | _ => Some (Ok 0)
              end
          end) (fun dynamic_fee => Some (Ok (Z.min (wrap 32 (3000 + dynamic_fee)) 10000))).
Proof. reflexivity. Qed.

(** A ring buffer with gaps makes a quote hang.  When an observation is indexed beyond the
    known ones, the slots in between are filled with defaults; the pool below knows the slots 0
    and 5 of 300.  The binary search for the time ten minutes ago ends up in a state it
    repeats forever, so that the fee, and with it every quote of a pool that is otherwise in
    order, has no result whatever the budget.  Comments and tests describe a partially
    indexed ring as a failed observation, which falls back to the base fee. *)
Theorem gap_in_ring_hangs_quote (fuel : nat) (amount : Z) :
  let s := pool gap_ring 5 300 1000 in
  clmm_ok (AerodromeSlipstreamsState.ticks s) (AerodromeSlipstreamsState.liquidity s) (AerodromeSlipstreamsState.sqrt_price s)
    (AerodromeSlipstreamsState.tick s) /\ fees_ok s /\
  AerodromeSlipstreamsState.get_fee fuel s = None /\
  AerodromeSlipstreamsState.swap fuel s true amount None = None.
Proof.
  cbv zeta. destruct (pool_clmm gap_ring 5 300 1000) as [Hc Hf]. split; [exact Hc|]. split; [exact Hf|].
  assert (AerodromeSlipstreamsState.get_fee fuel (pool gap_ring 5 300 1000) = None) as Hfee.
  { rewrite gap_fee. unfold Observations.observe. change (300 =? 0) with false. cbv iota.
    cbn [Observations.observe_each]. unfold Observations.observe_single at 1. change (600 =? 0) with false. cbv iota zeta.
    change (wrap 32 (1000 - 600)) with 400.
    change (Observations.get_surrounding_observations fuel 1000 400 (-120) 5 500 300 gap_ring) with
      (Observations.binary_search fuel 1000 400 5 300 gap_ring).
    rewrite gap_search_diverges. reflexivity. }
  split; [exact Hfee|]. unfold AerodromeSlipstreamsState.swap.
  replace (swap_price_limit _ _ _ _) with (Ok (E := SimulationError) (MIN_SQRT_RATIO + 1)) by (vm_compute; reflexivity).
  rewrite t_bind_ok, Hfee. reflexivity.
Qed.

(** Deleting observations depends on the order of the deletions.  An observation is deleted by
    removing it from the vector, which moves every later one down a slot, so that deleting the
    slots 1 and 2 keeps another observation in each order; the deleted attributes of a message
    are a set, which has no order. *)
Theorem observation_deletions_depend_on_order :
  exists obs : Observations.t,
    let delete_slot i := Observations.upsert_observation i [] in
    for_each delete_slot [1; 2] obs <> for_each delete_slot [2; 1] obs /\
    (for_each delete_slot [1; 2] obs).1 = Ok tt /\ (for_each delete_slot [2; 1] obs).1 = Ok tt.
Proof.
  exists [observed 100; observed 200; observed 300; observed 400]. split; [vm_compute; discriminate|done].
Qed.

Lemma observation_search_brackets_witness :
  exists before after, Observations.binary_search 16 400 250 2 4 small_ring = Some (Ok (before, after)) /\
    Observation.block_timestamp before = 200 /\ Observation.block_timestamp after = 300.
Proof.
  destruct (observation_search_brackets 400 small_ring 2 4 1 250 small_ring_ok ltac:(lia) ltac:(vm_compute; discriminate) ltac:(vm_compute; reflexivity))
    as (j & _ & Hs & _).
  revert Hs. generalize (slot small_ring 2 4 j) (slot small_ring 2 4 (j + 1)). intros before after Hs.
  exists before, after. split; [exact Hs|]. vm_compute in Hs. injection Hs as <- <-. split; reflexivity.
Defined.

Lemma slipstreams_get_amount_out_witness :
  exists r, AerodromeSlipstreamsState.get_amount_out 16 10 (ClmmExamples.token Byte.x02) (ClmmExamples.token Byte.x01) (pool small_ring 2 4 400) = Some (Ok r) /\
    slipstreams_ok (GetAmountOutResult.new_state r).
Proof.
  assert (slipstreams_ok (pool small_ring 2 4 400)) as Hok.
  { destruct (pool_clmm small_ring 2 4 400) as [Hc Hf]. split; [exact Hc|]. split; [exact Hf|]. exists 1. exact small_ring_ok. }
  destruct (slipstreams_get_amount_out 10 (ClmmExamples.token Byte.x02) (ClmmExamples.token Byte.x01) (pool small_ring 2 4 400) Hok ltac:(lia)) as (r & Hr & Hres).
  destruct r as [res|e|]; [exists res; exact (conj Hr (proj2 Hres))|vm_compute in Hr; discriminate Hr..].
Defined.
