(* ===== verification/Encoding.v ===== *)
(** Swaps and solutions to encode: [tycho-execution/src/encoding].

    The models of the encoding crate ([models.rs], [errors.rs]), the native and wrapped
    tokens of a chain ([tycho-common/src/models/mod.rs]), the constants and the helpers of
    [evm/utils.rs].

    A split is an [f64], [spec_float].  A [BigUint] is a [Z].  The [protocol_state] of a
    swap, which no operation modelled here reads, is left out.  What the code calls of the
    [alloy] crates is an argument (class [Alloy]), with its documented behaviour as
    [AlloyLaws].  Messages are kept without the values [format!] renders into them. *)

From Stdlib Require Import Strings.Byte SpecFloat Ascii.
From S2P Require Import Prelude Collections Bytes Models.

Open Scope Z_scope.
Open Scope tycho_scope.

(** * f64 *)

Definition f64_one : f64 := S754_finite false 4503599627370496 (-52).
Definition f64_of_Z (z : Z) : f64 := binary_normalize 53 1024 z 0 false.
Definition f64_add : f64 → f64 → f64 := SFadd 53 1024.
Definition f64_mul : f64 → f64 → f64 := SFmul 53 1024.
Definition f64_div : f64 → f64 → f64 := SFdiv 53 1024.

(** [f64::round]: to the nearest integer, halves away from zero. *)
Definition f64_round (x : f64) : f64 :=
  match x with
  | S754_finite s m e =>
      if 0 <=? e then x
      else
        let q := (Z.pos m + 2 ^ (- e - 1)) / 2 ^ (- e) in
        if q =? 0 then S754_zero s else binary_normalize 53 1024 (if s then - q else q) 0 s
  | _ => x
  end.

Definition is_zero_split (split : f64) : bool := SFeqb split f64_zero.

(** * What the code uses of alloy *)

(** Values that are ABI encoded: an [Address], a [bool], an unsigned integer with its size
    in bytes, [Vec<u8>] or [[u8; N]]. *)
Inductive SolValue :=
| SAddress (a : Bytes)
| SBool (b : bool)
| SUint (size : nat) (v : Z)
| SBytes (b : Bytes).

Class Alloy := {
  abi_encode_packed : list SolValue → Bytes;
  address_from_str : string → option Bytes;
  u24_from_f64 : f64 → option Z
}.

(** Solidity's packed encoding of one value. *)
Definition sol_packed (v : SolValue) : Bytes :=
  match v with
  | SAddress a => a
  | SBool b => [if b then x01 else x00]
  | SUint size v => to_be size v
  | SBytes b => b
  end.

Class AlloyLaws `{Alloy} := {
  abi_encode_packed_concat vs : abi_encode_packed vs = concat (sol_packed <$> vs);
  address_from_str_length s a : address_from_str s = Some a → length a = 20%nat;
  u24_from_f64_zero s : u24_from_f64 (S754_zero s) = Some 0;
  u24_from_f64_nan : u24_from_f64 S754_nan = None
}.

(** A model of the operations of alloy: packed concatenation, hexadecimal addresses, and the
    integer part of a float in range. *)
Definition hex_digit (c : ascii) : option Z :=
  let n := Z.of_nat (nat_of_ascii c) in
  if (48 <=? n) && (n <=? 57) then Some (n - 48)
  else if (65 <=? n) && (n <=? 70) then Some (n - 55)
  else if (97 <=? n) && (n <=? 102) then Some (n - 87)
  else None.

Fixpoint hex_value (s : string) (acc : Z) : option Z :=
  match s with
  | EmptyString => Some acc
  | String c s' => d ← hex_digit c; hex_value s' (acc * 16 + d)
  end.

Definition alloy_model : Alloy := {|
  abi_encode_packed vs := concat (sol_packed <$> vs);
  address_from_str s :=
    if (String.length s =? 42)%nat then to_be 20 <$> hex_value (String.substring 2 40 s) 0 else None;
  u24_from_f64 x :=
    match x with
    | S754_zero _ => Some 0
    | S754_finite false m e =>
        let v := if 0 <=? e then Z.pos m * 2 ^ e else Z.pos m / 2 ^ (- e) in
        if v <? 2 ^ 24 then Some v else None
    | _ => None
    end
|}.

Lemma alloy_model_laws : @AlloyLaws alloy_model.
Proof.
  split; [done| |done|done]. intros s a. cbn [address_from_str alloy_model]. case_if; [|done].
  intros (z & _ & ->)%fmap_Some. apply length_to_be.
Qed.

(** * models/mod.rs: the tokens of a chain *)

Module ChainTokenConfig.
Record t := mk { address : Bytes; symbol : string; decimals : Z }.
End ChainTokenConfig.

(** The fields of [CustomChainConfig] that tokens are made of. *)
Module CustomChainConfig.
Record t := mk { native : ChainTokenConfig.t; wrapped_native : ChainTokenConfig.t }.
End CustomChainConfig.

Definition ZERO_ADDRESS : Bytes := to_be 20 0.

Definition native_as (symbol : string) (chain : Chain) : Token.t :=
  Token.mk ZERO_ADDRESS symbol 18 0 [Some 2300] chain 100.
Definition native_eth := native_as "ETH".
Definition native_bsc := native_as "BNB".
Definition native_pol := native_as "POL".
Definition native_xpl := native_as "XPL".

Definition wrapped_as (symbol : string) (chain : Chain) (address : Z) : Token.t :=
  Token.mk (to_be 20 address) symbol 18 0 [Some 2300] chain 100.
Definition wrapped_native_eth := wrapped_as "WETH".
Definition wrapped_native_bsc := wrapped_as "WBNB".
Definition wrapped_native_pol := wrapped_as "WMATIC".
Definition wrapped_native_xpl := wrapped_as "WXPL".

Definition custom_token (chain : Chain) (cfg : ChainTokenConfig.t) : Token.t :=
  Token.mk (ChainTokenConfig.address cfg) (ChainTokenConfig.symbol cfg)
    (ChainTokenConfig.decimals cfg) 0 [Some 2300] chain 100.
Definition native_custom (chain : Chain) (cfg : CustomChainConfig.t) : Token.t :=
  custom_token chain (CustomChainConfig.native cfg).
Definition wrapped_native_custom (chain : Chain) (cfg : CustomChainConfig.t) : Token.t :=
  custom_token chain (CustomChainConfig.wrapped_native cfg).

Section chain_tokens.
Context (registry : gmap string CustomChainConfig.t).

(** [None]: [ChainConfigError::UnknownChain]. *)
Definition try_native_token (self : Chain) : option Token.t :=
  match self with
  | Ethereum | Starknet | ZkSync | Arbitrum | Base | Unichain | Robinhood => Some (native_eth self)
  | Bsc => Some (native_bsc self)
  | Polygon => Some (native_pol self)
  | Plasma => Some (native_xpl self)
  | Custom id => native_custom self <$> registry !! id
  end.

Definition try_wrapped_native_token (self : Chain) : option Token.t :=
  match self with
  | Ethereum => Some (wrapped_native_eth self 0xC02aaA39b223FE8D0A0e5C4F27eAD9083C756Cc2)
  | Starknet => Some (wrapped_native_eth self 0x0000000000000000000000000000000000000000)
  | ZkSync => Some (wrapped_native_eth self 0x5AEa5775959fBC2557Cc8789bC1bf90A239D9a91)
  | Arbitrum => Some (wrapped_native_eth self 0x82aF49447D8a07e3bd95BD0d56f35241523fBab1)
  | Base => Some (wrapped_native_eth self 0x4200000000000000000000000000000000000006)
  | Bsc => Some (wrapped_native_bsc self 0xbb4CdB9CBd36B01bD1cBaEBF2De08d9173bc095c)
  | Unichain => Some (wrapped_native_eth self 0x4200000000000000000000000000000000000006)
  | Polygon => Some (wrapped_native_pol self 0x0d500B1d8E8eF31E21C99d1Db9A6444d3ADf1270)
  | Plasma => Some (wrapped_native_xpl self 0x6100E367285b01F48D07953803A2d8dCA5D19873)
  | Robinhood => Some (wrapped_native_eth self 0x0Bd7D308f8E1639FAb988df18A8011f41EAcAD73)
  | Custom id => wrapped_native_custom self <$> registry !! id
  end.

(** [expect_registered]. *)
Definition native_token {E} (self : Chain) : result E Token.t := unwrap (try_native_token self).
Definition wrapped_native_token {E} (self : Chain) : result E Token.t :=
  unwrap (try_wrapped_native_token self).
End chain_tokens.

(** * errors.rs, models.rs *)

Inductive EncodingError :=
| InvalidInput (msg : string)
| FatalError (msg : string)
| RecoverableError (msg : string)
| NotImplementedError (msg : string).

#[global] Instance encoding_error_eq_dec : EqDecision EncodingError.
Proof. solve_decision. Defined.

Inductive UserTransferType := TransferFromPermit2 | TransferFrom | UseVaultsFunds.

#[global] Instance user_transfer_type_eq_dec : EqDecision UserTransferType.
Proof. solve_decision. Defined.

Inductive Strategy := Single | Sequential | Split.

#[global] Instance strategy_eq_dec : EqDecision Strategy.
Proof. solve_decision. Defined.

#[global] Instance protocol_component_eq_dec : EqDecision ProtocolComponent.t.
Proof. solve_decision. Defined.

Module Swap.
Record t := mk {
  component : ProtocolComponent.t;
  token_in : Token.t;
  token_out : Token.t;
  split : f64;
  user_data : option Bytes;
  estimated_amount_in : option Z;
  estimated_gas : Z
}.

Definition new (component : ProtocolComponent.t) (token_in token_out : Token.t) (estimated_gas : Z) : t :=
  mk component token_in token_out f64_zero None None estimated_gas.
Definition with_split (split : f64) (self : t) : t :=
  mk (component self) (token_in self) (token_out self) split (user_data self)
     (estimated_amount_in self) (estimated_gas self).

Definition eqb (self other : t) : bool :=
  bool_decide (component self = component other) &&
  bool_decide (Token.address (token_in self) = Token.address (token_in other)) &&
  bool_decide (Token.address (token_out self) = Token.address (token_out other)) &&
  SFeqb (split self) (split other) &&
  bool_decide (user_data self = user_data other) &&
  bool_decide (estimated_amount_in self = estimated_amount_in other) &&
  bool_decide (estimated_gas self = estimated_gas other).

(** The addresses the code reads through [token_in().address]. *)
Definition addr_in (self : t) : Bytes := Token.address (token_in self).
Definition addr_out (self : t) : Bytes := Token.address (token_out self).
Definition protocol (self : t) : string := ProtocolComponent.protocol_system (component self).
End Swap.

Module Solution.
Record t := mk {
  sender : Bytes;
  receiver : Bytes;
  token_in : Bytes;
  amount_in : Z;
  token_out : Bytes;
  min_amount_out : Z;
  swaps : list Swap.t;
  user_transfer_type : UserTransferType
}.

Definition new (sender receiver token_in token_out : Bytes) (amount_in min_amount_out : Z)
    (swaps : list Swap.t) : t :=
  mk sender receiver token_in amount_in token_out min_amount_out swaps TransferFrom.
Definition with_swaps (swaps : list Swap.t) (self : t) : t :=
  mk (sender self) (receiver self) (token_in self) (amount_in self) (token_out self)
     (min_amount_out self) swaps (user_transfer_type self).
Definition with_user_transfer_type (ty : UserTransferType) (self : t) : t :=
  mk (sender self) (receiver self) (token_in self) (amount_in self) (token_out self)
     (min_amount_out self) (swaps self) ty.
End Solution.

Module EncodingContext.
Record t := mk { router_address : option Bytes; group_token_in : Bytes; group_token_out : Bytes }.
End EncodingContext.

Module EncodedSolution.
Record t := mk {
  swaps : Bytes;
  interacting_with : Bytes;
  function_signature : string;
  n_tokens : nat;
  estimated_gas : Z
}.

(** [split('(').next()]. *)
Fixpoint before_paren (s : string) : string :=
  match s with
  | EmptyString => EmptyString
  | String c s' => if Ascii.eqb c "(" then EmptyString else String c (before_paren s')
  end.

Definition client_fee_signature_offset (self : t) : Z :=
  let name := before_paren (function_signature self) in
  let head_params :=
    if bool_decide (name ∈ ["singleSwap"; "singleSwapUsingVault"; "sequentialSwap";
                            "sequentialSwapUsingVault"]) then 7
    else if bool_decide (name ∈ ["splitSwap"; "splitSwapUsingVault"]) then 8
    else if bool_decide (name ∈ ["singleSwapPermit2"; "sequentialSwapPermit2"]) then 14
    else if bool_decide (name = "splitSwapPermit2") then 15
    else 0 in
  4 + head_params * 32 + 192.
End EncodedSolution.

(** * constants.rs *)

Definition ROUTER_ETH_ADDRESS : Bytes := to_be 20 0xEeeeeEeeeEeEeeEeEeEeeEEEeeeeEeeeeeeeEEeE.

Definition GROUPABLE_PROTOCOLS : list string :=
  ["uniswap_v4"; "uniswap_v4_hooks"; "vm:balancer_v3"; "ekubo_v2"; "ekubo_v3"].

Definition NON_PLE_ENCODED_PROTOCOLS : list string := ["ekubo_v2"; "ekubo_v3"].

Definition contains (l : list string) (s : string) : bool := bool_decide (s ∈ l).

(** * utils.rs *)

Definition convert_to_router_token (addr : Bytes) : Bytes :=
  if bool_decide (addr = ZERO_ADDRESS) then ROUTER_ETH_ADDRESS else addr.

Definition bytes_to_address (address : Bytes) : result EncodingError Bytes :=
  if bool_decide (length address = 20%nat) then Ok address
  else Err (InvalidInput "Invalid address").

Definition get_token_position (tokens : list Bytes) (token : Bytes) : result EncodingError Z :=
  match position (fun t => bool_decide (t = token)) tokens with
  | None => Err (InvalidInput "Token not found in tokens array")
  | Some i => if Z.of_nat i <? 256 then Ok (Z.of_nat i) else Panic
  end.

Definition pad_or_truncate_to_size (n : nat) (input : Bytes) : Bytes :=
  if (length input <=? n)%nat then replicate (n - length input) x00 ++ input
  else drop (length input - n) input.

Definition get_static_attribute (swap : Swap.t) (attribute_name : string) : result EncodingError Bytes :=
  ok_or (ProtocolComponent.static_attributes (Swap.component swap) !! attribute_name)
    (FatalError "Attribute not found").

Section utils.
Context `{Alloy}.

Definition MAX_UINT24 : Z := 16777215.

Definition percentage_to_uint24 (decimal : f64) : result EncodingError Z :=
  let scaled := f64_mul (f64_div decimal f64_one) (f64_of_Z MAX_UINT24) in
  unwrap (u24_from_f64 (f64_round scaled)).

Definition ple_encode (action_data_array : list Bytes) : Bytes :=
  foldl (fun encoded_action_data action_data =>
    abi_encode_packed [SBytes encoded_action_data; SUint 2 (wrap 16 (Z.of_nat (length action_data)));
                       SBytes action_data])
    [] action_data_array.
End utils.
