(* ===== verification/GroupSwaps.v ===== *)
(** Grouping of swaps and gas: [tycho-execution/src/encoding/evm/{group_swaps,gas_estimator}.rs].

    [group_swaps] is the fold of [group_step] over the swaps; its state has the variables
    that the loop of the source carries.  Indexing the swaps of a group, which are never
    empty, unwinds on an empty one as the source would. *)

From Stdlib Require Import SpecFloat.
From S2P Require Import Prelude Collections Bytes Models Encoding.

Open Scope Z_scope.

(** * group_swaps.rs *)

Module SwapGroup.
Record t := mk {
  token_in : Bytes;
  token_out : Bytes;
  protocol_system : string;
  swaps : list Swap.t;
  split : f64;
  estimated_gas : Z
}.

Definition set_gas (gas : Z) (self : t) : t :=
  mk (token_in self) (token_out self) (protocol_system self) (swaps self) (split self) gas.

(** [group.swaps.push(swap); group.token_out = swap.token_out]. *)
Definition push (swap : Swap.t) (self : t) : t :=
  mk (token_in self) (Swap.addr_out swap) (protocol_system self) (swaps self ++ [swap])
     (split self) (estimated_gas self).
End SwapGroup.

Definition safe_sub (t v : Z) : Z := if v <=? t then t - v else 0.

Definition sum_gas (swaps : list Swap.t) : Z :=
  foldl Z.add 0 (Swap.estimated_gas <$> swaps).

Definition compute_group_gas (swaps : list Swap.t) : Z :=
  let total_gas := sum_gas swaps in
  match swaps with
  | first :: (_ :: _) as rest =>
      let total_gas := safe_sub total_gas (Token.gas_usage (Swap.token_out first)) in
      let total_gas := foldl (fun total swap =>
        safe_sub (safe_sub total (Token.gas_usage (Swap.token_in swap)))
                 (Token.gas_usage (Swap.token_out swap)))
        total_gas (take (length rest - 1) rest) in
      match last rest with
      | Some last => safe_sub total_gas (Token.gas_usage (Swap.token_in last))
      | None => total_gas
      end
  | _ => total_gas
  end.

(** [uniswap_v4_hooks] counts as [uniswap_v4]. *)
Definition normalize_protocol (protocol : string) : string :=
  if bool_decide (protocol = "uniswap_v4_hooks") then "uniswap_v4" else protocol.

Module GroupState.
Record t := mk {
  grouped_swaps : list SwapGroup.t;
  current_group : option SwapGroup.t;
  last_swap_protocol : string;
  last_swap_out_token : Bytes
}.
Definition initial : t := mk [] None "" [].

(** Push the current group, if there is one, with its gas. *)
Definition flush (self : t) : list SwapGroup.t :=
  match current_group self with
  | Some group =>
      grouped_swaps self ++ [SwapGroup.set_gas (compute_group_gas (SwapGroup.swaps group)) group]
  | None => grouped_swaps self
  end.
End GroupState.

Definition new_group (protocol : string) (swap : Swap.t) : SwapGroup.t :=
  SwapGroup.mk (Swap.addr_in swap) (Swap.addr_out swap) protocol [swap] (Swap.split swap) 0.

Definition group_step (st : GroupState.t) (swap : Swap.t) : GroupState.t :=
  let current_swap_protocol := normalize_protocol (Swap.protocol swap) in
  let groupable_protocol := contains GROUPABLE_PROTOCOLS current_swap_protocol in
  let no_split := is_zero_split (Swap.split swap) &&
    bool_decide (Swap.addr_in swap = GroupState.last_swap_out_token st) in
  let no_cycle :=
    match GroupState.current_group st with
    | Some g => bool_decide (Swap.addr_out swap ≠ SwapGroup.token_in g)
    | None => true
    end in
  if bool_decide (current_swap_protocol = GroupState.last_swap_protocol st) &&
     groupable_protocol && no_split && no_cycle
  then
    GroupState.mk (GroupState.grouped_swaps st) (SwapGroup.push swap <$> GroupState.current_group st)
      current_swap_protocol (Swap.addr_out swap)
  else
    GroupState.mk (GroupState.flush st) (Some (new_group current_swap_protocol swap))
      current_swap_protocol (Swap.addr_out swap).

Definition group_swaps (swaps : list Swap.t) : list SwapGroup.t :=
  GroupState.flush (foldl group_step GroupState.initial swaps).

(** * gas_estimator.rs *)

Definition DEFAULT_TOKEN_TRANSFER_GAS : Z := 40000.
Definition TOKEN_APPROVAL_GAS : Z := 25000.
Definition USER_PERMIT2_TRANSFER : Z := 80000.

Definition PROTOCOLS_CALLBACK : list string :=
  ["uniswap_v3"; "pancakeswap_v3"; "uniswap_v4"; "uniswap_v4_hooks"; "ekubo_v2"; "ekubo_v3";
   "aerodrome_slipstreams"; "velodrome_slipstreams"; "vm:balancer_v3"].
Definition PROTOCOLS_OPTIMIZABLE_TRANSFER_IN : list string :=
  ["erc4626"; "maverick_v2"; "uniswap_v2"; "sushiswap_v2"; "pancakeswap_v2"; "quickswap_v2"].
Definition PROTOCOLS_NEEDING_APPROVAL : list string :=
  ["vm:balancer_v2"; "vm:curve"; "rfq:bebop"; "rfq:hashflow"; "rfq:liquorice"; "rfq:metric";
   "erc4626"; "ring_swap_v2"].
Definition PROTOCOLS_OUTPUT_TO_ROUTER : list string :=
  ["vm:curve"; "rocketpool"; "fluid_v1"; "native_wrapper"].
Definition ROUTER_FEES_ACTIVE : bool := true.

Definition transfer_token_gas (token : Token.t) : Z :=
  let measured := Token.gas_usage token in
  if measured =? 0 then DEFAULT_TOKEN_TRANSFER_GAS else measured.

Definition estimate_transfer_overhead (protocol_system : string) (token_in token_out : Token.t)
    (strategy : Strategy) : Z :=
  (if negb (contains PROTOCOLS_CALLBACK protocol_system) &&
      (negb (contains PROTOCOLS_OPTIMIZABLE_TRANSFER_IN protocol_system) ||
       bool_decide (strategy = Split))
   then transfer_token_gas token_in else 0) +
  (if contains PROTOCOLS_NEEDING_APPROVAL protocol_system then TOKEN_APPROVAL_GAS else 0) +
  (if contains PROTOCOLS_OUTPUT_TO_ROUTER protocol_system then transfer_token_gas token_out else 0).

(** The first and the last swap of a group. *)
Definition group_ends {E} (group : SwapGroup.t) : result E (Swap.t * Swap.t) :=
  first ← unwrap (head (SwapGroup.swaps group));
  last ← unwrap (last (SwapGroup.swaps group));
  Ok (first, last).

(** Transfer overhead and pool gas of one group. *)
Definition group_usage {E} (strategy : Strategy) (total_gas : Z) (group : SwapGroup.t) : result E Z :=
  '(first_swap, last_swap) ← group_ends group;
  Ok (total_gas +
      (estimate_transfer_overhead (SwapGroup.protocol_system group) (Swap.token_in first_swap)
         (Swap.token_out last_swap) strategy + SwapGroup.estimated_gas group)).

Definition full_transfer (user_transfer_type : UserTransferType) : Z :=
  match user_transfer_type with
  | TransferFromPermit2 => USER_PERMIT2_TRANSFER
  | _ => DEFAULT_TOKEN_TRANSFER_GAS
  end.

(** What the user's transfer to the router adds. *)
Definition user_transfer_usage (strategy : Strategy) (user_transfer_type : UserTransferType)
    (swap_groups : list SwapGroup.t) : Z :=
  if bool_decide (strategy ≠ Split) then
    match head swap_groups with
    | Some first_group =>
        if contains PROTOCOLS_CALLBACK (SwapGroup.protocol_system first_group) then
          if bool_decide (user_transfer_type = TransferFromPermit2)
          then USER_PERMIT2_TRANSFER - DEFAULT_TOKEN_TRANSFER_GAS else 0
        else full_transfer user_transfer_type
    | None => 0
    end
  else full_transfer user_transfer_type.

(** The extra transfer of the fee path. *)
Definition fee_usage {E} (strategy : Strategy) (swap_groups : list SwapGroup.t) : result E Z :=
  match last swap_groups with
  | Some last_group =>
      '(_, last_swap) ← group_ends last_group;
      Ok (if (ROUTER_FEES_ACTIVE || bool_decide (strategy = Split)) &&
             negb (contains PROTOCOLS_OUTPUT_TO_ROUTER (Swap.protocol last_swap))
          then transfer_token_gas (Swap.token_out last_swap) else 0)
  | None => Ok 0
  end.

Definition estimate_gas_usage {E} (solution : Solution.t) (strategy : Strategy) : result E Z :=
  let swap_groups := group_swaps (Solution.swaps solution) in
  total_gas ← try_fold (group_usage strategy) 0 swap_groups;
  let total_gas := total_gas +
    user_transfer_usage strategy (Solution.user_transfer_type solution) swap_groups in
  fees ← fee_usage strategy swap_groups;
  Ok (total_gas + fees).
