(* ===== verification/GroupSwapsSpec.v ===== *)
(** Grouping of swaps: the groups are the unique maximal division of the swaps, and what the
    gas estimate adds up. *)

From Stdlib Require Import SpecFloat.
From S2P Require Import Prelude Collections Bytes Models Encoding GroupSwaps.

Open Scope Z_scope.

(** * The division into groups *)

(** [s] may follow [p] in a group that starts at the token [start]. *)
Definition joins (start : Bytes) (p s : Swap.t) : Prop :=
  normalize_protocol (Swap.protocol s) = normalize_protocol (Swap.protocol p) ∧
  contains GROUPABLE_PROTOCOLS (normalize_protocol (Swap.protocol s)) = true ∧
  is_zero_split (Swap.split s) = true ∧
  Swap.addr_in s = Swap.addr_out p ∧
  Swap.addr_out s ≠ start.

#[global] Instance joins_dec start p s : Decision (joins start p s).
Proof. unfold joins. apply _. Defined.

(** The group that a list of swaps makes. *)
Definition group_of (first last : Swap.t) (swaps : list Swap.t) : SwapGroup.t :=
  SwapGroup.mk (Swap.addr_in first) (Swap.addr_out last) (normalize_protocol (Swap.protocol first))
    swaps (Swap.split first) (compute_group_gas swaps).

(** A group: at least one swap, each joining the one before it. *)
Definition is_group (g : SwapGroup.t) : Prop :=
  ∃ first last_, head (SwapGroup.swaps g) = Some first ∧ last (SwapGroup.swaps g) = Some last_ ∧
    g = group_of first last_ (SwapGroup.swaps g) ∧
    adjacent (joins (Swap.addr_in first)) (SwapGroup.swaps g).

(** The second group could not have gone on with the first one. *)
Definition separate (g1 g2 : SwapGroup.t) : Prop :=
  ∀ p s, last (SwapGroup.swaps g1) = Some p → head (SwapGroup.swaps g2) = Some s →
    ¬ joins (SwapGroup.token_in g1) p s.

(** The swaps in order, divided into groups none of which can be extended. *)
Definition is_grouping (swaps : list Swap.t) (gs : list SwapGroup.t) : Prop :=
  concat (SwapGroup.swaps <$> gs) = swaps ∧ Forall is_group gs ∧ adjacent separate gs.

(** * One step of the loop *)

Definition finished (g : SwapGroup.t) : SwapGroup.t :=
  SwapGroup.set_gas (compute_group_gas (SwapGroup.swaps g)) g.

(** The variables of the loop after the swaps [l]. *)
Definition loop_inv (l : list Swap.t) (st : GroupState.t) : Prop :=
  match last l with
  | None => st = GroupState.initial
  | Some p =>
      ∃ gs g, st = GroupState.mk gs (Some g) (normalize_protocol (Swap.protocol p)) (Swap.addr_out p) ∧
        last (SwapGroup.swaps g) = Some p ∧ is_grouping l (gs ++ [finished g])
  end.

Lemma adjacent_one {A} (R : A → A → Prop) x : adjacent R [x].
Proof. intros i a b _ Hb. simpl in Hb. by rewrite lookup_nil in Hb. Qed.

Lemma is_group_single s :
  is_group (finished (new_group (normalize_protocol (Swap.protocol s)) s)).
Proof.
  exists s, s. split_and!; [done..|]. apply adjacent_one.
Qed.

Lemma is_group_push g p s :
  is_group (finished g) → last (SwapGroup.swaps g) = Some p → joins (SwapGroup.token_in g) p s →
  is_group (finished (SwapGroup.push s g)).
Proof.
  intros (f & l & Hf & Hl & E & Hadj) Hp Hj. simpl in *. assert (l = p) as -> by congruence.
  assert (SwapGroup.token_in g = Swap.addr_in f) as Ei by (by apply (f_equal SwapGroup.token_in) in E).
  assert (SwapGroup.protocol_system g = normalize_protocol (Swap.protocol f)) as Ep
    by (by apply (f_equal SwapGroup.protocol_system) in E).
  assert (SwapGroup.split g = Swap.split f) as Es by (by apply (f_equal SwapGroup.split) in E).
  exists f, s. simpl. split_and!.
  - destruct (SwapGroup.swaps g); [done|]. done.
  - by rewrite last_snoc.
  - unfold finished, SwapGroup.push, SwapGroup.set_gas, group_of. simpl. by rewrite Ei, Ep, Es.
  - apply adjacent_snoc; [done|]. intros a Ha. rewrite Hp in Ha. injection Ha as <-.
    by rewrite <-Ei.
Qed.

Lemma is_grouping_snoc l gs g s :
  is_grouping l (gs ++ [g]) → (∀ p, last (SwapGroup.swaps g) = Some p → ¬ joins (SwapGroup.token_in g) p s) →
  is_grouping (l ++ [s]) ((gs ++ [g]) ++ [finished (new_group (normalize_protocol (Swap.protocol s)) s)]).
Proof.
  intros (Hc & Hf & Ha) Hs. split_and!.
  - rewrite fmap_app, concat_app, Hc. done.
  - apply Forall_app. split; [done|]. constructor; [apply is_group_single|constructor].
  - apply adjacent_snoc; [done|]. intros g' Hg'. rewrite last_snoc in Hg'. injection Hg' as <-.
    intros p s' Hp [= <-]. by apply Hs.
Qed.

Lemma is_grouping_push l gs g p s :
  is_grouping l (gs ++ [finished g]) → last (SwapGroup.swaps g) = Some p →
  joins (SwapGroup.token_in g) p s → is_grouping (l ++ [s]) (gs ++ [finished (SwapGroup.push s g)]).
Proof.
  intros (Hc & Hf & Ha) Hp Hj. apply Forall_app in Hf as [Hf Hg]. apply Forall_cons in Hg as [Hg _].
  split_and!.
  - rewrite fmap_app, concat_app in *. simpl in *. rewrite app_nil_r in *. by rewrite app_assoc, Hc.
  - apply Forall_app. split; [done|]. constructor; [by eapply is_group_push|constructor].
  - apply adjacent_snoc.
    + intros i a b Hi Hb. apply (Ha i a b); by apply lookup_app_l_Some.
    + intros a Hl. intros q s' Hq Hs'.
      assert (separate a (finished g)) as Hsep.
      { apply (Ha (length gs - 1)%nat).
        - rewrite last_lookup in Hl. rewrite lookup_app_l; [by rewrite Nat.sub_1_r|].
          apply lookup_lt_Some in Hl. lia.
        - rewrite last_lookup in Hl. apply lookup_lt_Some in Hl.
          rewrite lookup_app_r by lia. by replace (S (length gs - 1) - length gs)%nat with 0%nat by lia. }
      apply Hsep; [done|]. simpl in *. destruct (SwapGroup.swaps g); [done|]. done.
Qed.

Lemma group_step_first s :
  group_step GroupState.initial s =
  GroupState.mk [] (Some (new_group (normalize_protocol (Swap.protocol s)) s))
    (normalize_protocol (Swap.protocol s)) (Swap.addr_out s).
Proof.
  unfold group_step. simpl. assert (contains GROUPABLE_PROTOCOLS "" = false) as Hn by reflexivity.
  destruct (bool_decide_reflect (normalize_protocol (Swap.protocol s) = "")) as [->|E]; [|done].
  by rewrite Hn.
Qed.

Lemma group_step_inv l st s : loop_inv l st → loop_inv (l ++ [s]) (group_step st s).
Proof.
  unfold loop_inv at 2. rewrite last_snoc. unfold loop_inv. destruct (last l) as [p|] eqn:El.
  - intros (gs & g & -> & Hp & Hg). unfold group_step. simpl.
    destruct (decide (joins (SwapGroup.token_in g) p s)) as [Hj|Hj].
    + pose proof Hj as (E1 & E2 & E3 & E4 & E5). rewrite E2, E3. simpl.
      rewrite !bool_decide_true by done. simpl.
      exists gs, (SwapGroup.push s g). split; [done|]. split; [simpl; by rewrite last_snoc|].
      by eapply is_grouping_push.
    + assert (bool_decide (normalize_protocol (Swap.protocol s) = normalize_protocol (Swap.protocol p)) &&
        contains GROUPABLE_PROTOCOLS (normalize_protocol (Swap.protocol s)) &&
        (is_zero_split (Swap.split s) && bool_decide (Swap.addr_in s = Swap.addr_out p)) &&
        bool_decide (Swap.addr_out s ≠ SwapGroup.token_in g) = false) as ->.
      { apply not_true_iff_false. rewrite !andb_true_iff, !bool_decide_eq_true. unfold joins in Hj. tauto. }
      exists (gs ++ [finished g]), (new_group (normalize_protocol (Swap.protocol s)) s).
      split_and!; [done..|]. eapply is_grouping_snoc; [done|]. simpl. intros q Hq.
      by assert (q = p) as -> by congruence.
  - intros ->. apply last_None in El as ->. rewrite group_step_first.
    exists [], (new_group (normalize_protocol (Swap.protocol s)) s). split_and!; [done..|].
    split; [done|]. split; [repeat constructor; apply is_group_single|apply adjacent_one].
Qed.

Lemma group_swaps_grouping l : is_grouping l (group_swaps l).
Proof.
  assert (loop_inv l (foldl group_step GroupState.initial l)) as H.
  { induction l as [|s l IH] using rev_ind; [done|]. rewrite foldl_snoc. by apply group_step_inv. }
  unfold group_swaps. unfold loop_inv in H. destruct (last l) as [p|] eqn:El.
  - destruct H as (gs & g & -> & _ & H). exact H.
  - rewrite H. apply last_None in El as ->. split_and!; [done|constructor|apply adjacent_nil].
Qed.

(** * A division is unique *)

Lemma is_group_swaps g1 g2 :
  is_group g1 → is_group g2 → SwapGroup.swaps g1 = SwapGroup.swaps g2 → g1 = g2.
Proof. intros (f & l & Hf & Hl & -> & _) (f' & l' & Hf' & Hl' & -> & _) E. simpl in *. congruence. Qed.

Lemma is_group_nonempty g : is_group g → ∃ s l, SwapGroup.swaps g = s :: l ∧ SwapGroup.token_in g = Swap.addr_in s.
Proof.
  intros (f & l & Hf & _ & -> & _). simpl in *. destruct (SwapGroup.swaps g) as [|s k]; [done|].
  injection Hf as ->. by exists f, k.
Qed.

(** A first group cannot be a proper prefix of another first group. *)
Lemma first_group_maximal g1 gs1 g2 x l :
  is_grouping (SwapGroup.swaps g2 ++ l) (g1 :: gs1) → is_group g2 →
  SwapGroup.swaps g2 ≠ SwapGroup.swaps g1 ++ x :: drop (S (length (SwapGroup.swaps g1))) (SwapGroup.swaps g2).
Proof.
  intros (Hc & Hf & Ha) Hg2 E. apply Forall_cons in Hf as [Hg1 Hf].
  destruct (is_group_nonempty _ Hg1) as (s1 & k1 & E1 & Ei1).
  destruct Hg1 as (f1 & p & _ & Hp & _ & _). destruct Hg2 as (f2 & _ & Hf2 & _ & _ & Hadj).
  assert (f2 = s1) as -> by (rewrite E, E1 in Hf2; by injection Hf2).
  simpl in Hc. rewrite E, <-app_assoc in Hc. apply app_inv_head in Hc.
  destruct gs1 as [|g gs1]; [done|]. apply Forall_cons in Hf as [Hg _].
  destruct (is_group_nonempty _ Hg) as (s & k & Es & _). simpl in Hc. rewrite Es in Hc.
  injection Hc as -> _. apply (Ha 0%nat g1 g eq_refl eq_refl p x Hp); [by rewrite Es|].
  rewrite Ei1. rewrite last_lookup in Hp. rewrite E in Hadj.
  assert (length (SwapGroup.swaps g1) ≠ 0%nat) by (by rewrite E1).
  apply (Hadj (pred (length (SwapGroup.swaps g1)))).
  - rewrite lookup_app_l; [done|lia].
  - rewrite lookup_app_r by lia.
    by replace (S (pred (length (SwapGroup.swaps g1))) - length (SwapGroup.swaps g1))%nat with 0%nat by lia.
Qed.

Lemma is_grouping_unique l gs1 gs2 : is_grouping l gs1 → is_grouping l gs2 → gs1 = gs2.
Proof.
  revert l gs2. induction gs1 as [|g1 gs1 IH]; intros l gs2 H1 H2; pose proof H1 as (Hc1 & Hf1 & Ha1);
    pose proof H2 as (Hc2 & Hf2 & Ha2).
  - destruct gs2 as [|g2 gs2]; [done|]. apply Forall_cons in Hf2 as [Hg2 _].
    destruct (is_group_nonempty _ Hg2) as (s & k & E & _). simpl in *. rewrite E in Hc2. by subst l.
  - apply Forall_cons in Hf1 as [Hg1 Hf1]. destruct gs2 as [|g2 gs2].
    { destruct (is_group_nonempty _ Hg1) as (s & k & E & _). simpl in *. rewrite E in Hc1. by subst l. }
    apply Forall_cons in Hf2 as [Hg2 Hf2].
    assert (SwapGroup.swaps g1 = SwapGroup.swaps g2) as E.
    { simpl in Hc1, Hc2. rewrite <-Hc1 in Hc2, H2. symmetry in Hc2.
      apply app_eq_inv in Hc2 as [(k & E1 & E2)|(k & E1 & E2)].
      - destruct k as [|x k]; [by rewrite app_nil_r in E1|]. exfalso.
        apply (first_group_maximal g2 gs2 g1 x (concat (SwapGroup.swaps <$> gs1))); [exact H2|done|].
        rewrite E1 at 1. f_equal. rewrite E1. by rewrite drop_app_ge, Nat.sub_succ_l, Nat.sub_diag by lia.
      - destruct k as [|x k]; [by rewrite app_nil_r in E1|]. exfalso.
        apply (first_group_maximal g1 gs1 g2 x (concat (SwapGroup.swaps <$> gs2))); [|done|].
        + replace (_ ++ _) with l; [exact H1|]. rewrite <-Hc1, E1, <-app_assoc. f_equal. exact E2.
        + rewrite E1 at 1. f_equal. rewrite E1. by rewrite drop_app_ge, Nat.sub_succ_l, Nat.sub_diag by lia. }
    f_equal; [by apply is_group_swaps|].
    apply (IH (concat (SwapGroup.swaps <$> gs1))); [split_and!; [done..|]|].
    + intros i a b. apply (Ha1 (S i)).
    + split_and!; [|done|].
      * rewrite <-Hc1 in Hc2. simpl in Hc2. rewrite E in Hc2. by apply app_inv_head in Hc2.
      * intros i a b. apply (Ha2 (S i)).
Qed.

(** * Gas *)

(** The transfers that a group saves: between two swaps, the output of the first and the
    input of the second. *)
Fixpoint saved_transfers (swaps : list Swap.t) : Z :=
  match swaps with
  | p :: ((s :: _) as rest) =>
      Token.gas_usage (Swap.token_out p) + Token.gas_usage (Swap.token_in s) + saved_transfers rest
  | _ => 0
  end.

Definition measured (s : Swap.t) : Prop :=
  0 ≤ Swap.estimated_gas s ∧ 0 ≤ Token.gas_usage (Swap.token_in s) ∧ 0 ≤ Token.gas_usage (Swap.token_out s).

Lemma safe_sub_max t v : safe_sub (Z.max 0 t) v = Z.max 0 (t - v) ∨ v < 0.
Proof. unfold safe_sub. destruct (Z.leb_spec v (Z.max 0 t)); lia. Qed.

Lemma safe_sub_floor t v : 0 ≤ v → safe_sub (Z.max 0 t) v = Z.max 0 (t - v).
Proof. destruct (safe_sub_max t v); lia. Qed.

(** The sum over the swaps after the first, and the subtractions made one at a time. *)
Lemma middle_discounts (p : Swap.t) (mid : list Swap.t) (last_ : Swap.t) t :
  Forall measured (mid ++ [last_]) →
  safe_sub (foldl (fun total swap =>
    safe_sub (safe_sub total (Token.gas_usage (Swap.token_in swap))) (Token.gas_usage (Swap.token_out swap)))
    (Z.max 0 (t - Token.gas_usage (Swap.token_out p))) mid) (Token.gas_usage (Swap.token_in last_)) =
  Z.max 0 (t - saved_transfers (p :: mid ++ [last_])).
Proof.
  revert p t. induction mid as [|m mid IH]; intros p t H.
  - apply Forall_cons in H as [(H0 & H1 & H2) _]. simpl. rewrite safe_sub_floor by done. f_equal. lia.
  - apply Forall_cons in H as [(H0 & H1 & H2) H]. simpl foldl.
    rewrite safe_sub_floor by done.
    rewrite safe_sub_floor by done.
    rewrite (IH m (t - Token.gas_usage (Swap.token_out p) - Token.gas_usage (Swap.token_in m))) by done.
    cbn [app saved_transfers]. f_equal. lia.
Qed.

Lemma sum_gas_from l z : foldl Z.add z (Swap.estimated_gas <$> l) = z + sum_gas l.
Proof.
  unfold sum_gas. revert z. induction l as [|s l IH]; intros z; [simpl; lia|].
  rewrite fmap_cons. cbn [foldl]. rewrite (IH (z + _)), (IH (0 + _)). lia.
Qed.

Lemma sum_gas_nonneg l : Forall measured l → 0 ≤ sum_gas l.
Proof.
  induction 1 as [|s l (? & _) _ IH]; [done|]. unfold sum_gas. simpl. rewrite sum_gas_from. lia.
Qed.

Lemma compute_group_gas_value l :
  Forall measured l → compute_group_gas l = Z.max 0 (sum_gas l - saved_transfers l).
Proof.
  intros H. pose proof (sum_gas_nonneg l H) as Hs. destruct l as [|p [|s l]]; [simpl; lia..|].
  destruct (exists_last (l := s :: l)) as (mid & last_ & E); [done|]. unfold compute_group_gas.
  rewrite E in *. apply Forall_cons in H as [(_ & _ & H0) H].
  destruct (mid ++ [last_]) as [|s' l'] eqn:El; [by destruct mid|]. rewrite <-El in *.
  rewrite last_snoc, length_app, Nat.add_sub, take_app_length.
  rewrite <-(middle_discounts p mid last_ _ H). f_equal. f_equal.
  rewrite <-safe_sub_floor by done. f_equal. lia.
Qed.

(** * The estimate *)

Lemma group_ends_ok {E} g : is_group g → ∃ f l, group_ends (E := E) g = Ok (f, l) ∧ head (SwapGroup.swaps g) = Some f.
Proof. intros (f & l & Hf & Hl & _). exists f, l. unfold group_ends. by rewrite Hf, Hl. Qed.

Lemma group_usage_total {E} strategy gs z :
  Forall is_group gs → ∃ r, try_fold (E := E) (group_usage strategy) z gs = Ok r.
Proof.
  intros H. apply try_fold_total. intros b g Hg. rewrite Forall_forall in H. unfold group_usage.
  destruct (group_ends_ok (E := E) g (H g Hg)) as (f & l & -> & _). by eexists.
Qed.

Lemma fee_usage_total {E} strategy gs : Forall is_group gs → ∃ r, fee_usage (E := E) strategy gs = Ok r.
Proof.
  intros H. unfold fee_usage. destruct (last gs) as [g|] eqn:El; [|by eexists].
  assert (is_group g) as Hg.
  { rewrite last_lookup in El. by eapply Forall_lookup_1. }
  destruct (group_ends_ok (E := E) g Hg) as (f & l & -> & _). by eexists.
Qed.

Lemma estimate_total {E} solution strategy :
  ∃ pools fees, estimate_gas_usage (E := E) solution strategy =
    Ok (pools + user_transfer_usage strategy (Solution.user_transfer_type solution)
          (group_swaps (Solution.swaps solution)) + fees) ∧
  ∀ ty, estimate_gas_usage (E := E) (Solution.with_user_transfer_type ty solution) strategy =
    Ok (pools + user_transfer_usage strategy ty (group_swaps (Solution.swaps solution)) + fees).
Proof.
  destruct (group_swaps_grouping (Solution.swaps solution)) as (_ & Hg & _).
  destruct (group_usage_total (E := E) strategy _ 0 Hg) as [pools Ep].
  destruct (fee_usage_total (E := E) strategy _ Hg) as [fees Ef].
  exists pools, fees. unfold estimate_gas_usage. simpl. rewrite Ep, Ef. done.
Qed.

Lemma group_swaps_nonempty l : l ≠ [] → group_swaps l ≠ [].
Proof. intros Hl E. destruct (group_swaps_grouping l) as (Hc & _). rewrite E in Hc. by simpl in Hc; subst. Qed.

(** * The guarantees *)

(** C23. [group_swaps] divides the swaps, in their order, into groups: every swap of a group but
    the first has the protocol of the group, which is groupable, no split, starts from the
    token the swap before it ends in and does not close a cycle; a group has the tokens and
    the split of its ends; and no group can be extended by the swap after it.  This
    determines the groups.  The gas of a group is the gas of its swaps less the transfers
    between them, or 0. *)
Theorem group_swaps_division l gs :
  (group_swaps l = gs ↔ is_grouping l gs) ∧
  (Forall measured l → Forall (fun g => SwapGroup.estimated_gas g =
     Z.max 0 (sum_gas (SwapGroup.swaps g) - saved_transfers (SwapGroup.swaps g))) (group_swaps l)).
Proof.
  pose proof (group_swaps_grouping l) as H. split.
  - split; [by intros <-|]. by apply is_grouping_unique.
  - intros Hm. destruct H as (Hc & Hg & _). rewrite <-Hc in Hm. rewrite Forall_concat, Forall_fmap in Hm.
    apply Forall_forall. intros g Hin. rewrite Forall_forall in Hg, Hm.
    destruct (Hg g Hin) as (f & la & _ & _ & E & _). rewrite E at 1. simpl.
    apply compute_group_gas_value. by apply (Hm g).
Qed.

(** The gas estimate exists for every solution and strategy, whatever the pools: the code
    does not unwind.  Paying from the vault costs what a transfer costs, and Permit2 costs
    exactly 40000 more, whichever strategy and protocols are used. *)
Theorem gas_estimate_user_transfer (E : Type) solution strategy :
  Solution.swaps solution ≠ [] →
  ∃ gas, estimate_gas_usage (E := E) (Solution.with_user_transfer_type TransferFrom solution) strategy = Ok gas ∧
    estimate_gas_usage (E := E) (Solution.with_user_transfer_type UseVaultsFunds solution) strategy = Ok gas ∧
    estimate_gas_usage (E := E) (Solution.with_user_transfer_type TransferFromPermit2 solution) strategy = Ok (gas + 40000).
Proof.
  intros Hn. destruct (estimate_total (E := E) solution strategy) as (pools & fees & _ & H).
  exists (pools + user_transfer_usage strategy TransferFrom (group_swaps (Solution.swaps solution)) + fees).
  rewrite !H. apply group_swaps_nonempty in Hn. unfold user_transfer_usage.
  destruct (group_swaps (Solution.swaps solution)) as [|g gs]; [done|]. simpl.
  repeat case_if; split_and!; try done; f_equal; unfold USER_PERMIT2_TRANSFER, DEFAULT_TOKEN_TRANSFER_GAS; lia.
Qed.

(** * Examples *)

Definition example_token (n : Z) : Token.t := Token.mk (to_be 20 n) "" 18 0 [Some 60000] Ethereum 100.

Definition example_component (protocol : string) : ProtocolComponent.t :=
  ProtocolComponent.mk "pool" protocol "" Ethereum [] [] ∅ Creation [] 0.

Definition example_swap (protocol : string) (from to : Z) : Swap.t :=
  Swap.new (example_component protocol) (example_token from) (example_token to) 100000.

(** Two Uniswap v4 swaps make a group, the third would close a cycle. *)
Lemma group_swaps_division_witness :
  Forall (fun g => SwapGroup.estimated_gas g =
    Z.max 0 (sum_gas (SwapGroup.swaps g) - saved_transfers (SwapGroup.swaps g)))
    (group_swaps [example_swap "uniswap_v4" 1 2; example_swap "uniswap_v4_hooks" 2 3;
                  example_swap "uniswap_v4" 3 1]) ∧
  SwapGroup.estimated_gas <$> group_swaps [example_swap "uniswap_v4" 1 2;
    example_swap "uniswap_v4_hooks" 2 3; example_swap "uniswap_v4" 3 1] = [80000; 100000].
Proof.
  split; [|reflexivity]. apply (group_swaps_division _ []).
  repeat constructor; vm_compute; congruence.
Defined.

Lemma gas_estimate_user_transfer_witness :
  ∃ gas, estimate_gas_usage (E := unit)
    (Solution.new [] [] (to_be 20 1) (to_be 20 2) 1000 0 [example_swap "uniswap_v2" 1 2]) Single = Ok gas.
Proof.
  destruct (gas_estimate_user_transfer unit
    (Solution.new [] [] (to_be 20 1) (to_be 20 2) 1000 0 [example_swap "uniswap_v2" 1 2]) Single) as (gas & H & _).
  - discriminate.
  - exists gas. exact H.
Defined.
