(* ===== verification/SwapValidators.v ===== *)
(** Validation of swaps: [tycho-execution/src/encoding/evm/strategy_encoder/strategy_validators.rs].

    The order in which a [HashMap] or a [HashSet] is iterated is left open by Rust: it is the
    class [HashOrder], and the laws say that an iteration visits every entry once.  The
    breadth-first search of [validate_swap_path] runs on a budget of one turn more than
    there are entries it can put in the queue. *)

From Stdlib Require Import SpecFloat.
From S2P Require Import Prelude Collections Bytes Models Encoding.

Open Scope Z_scope.
Open Scope tycho_scope.

Class HashOrder := {
  iter_set : gset Bytes → list Bytes;
  iter_map : gmap Bytes (list Swap.t) → list (Bytes * list Swap.t)
}.

Class HashOrderLaws `{HashOrder} := {
  iter_set_elements s : iter_set s ≡ₚ elements s;
  iter_map_entries m : iter_map m ≡ₚ map_to_list m
}.

(** One order there is. *)
Definition canonical_order : HashOrder :=
  {| iter_set := elements; iter_map := map_to_list |}.

Lemma canonical_order_laws : @HashOrderLaws canonical_order.
Proof. by split. Qed.

(** * validate_swap_path *)

Section path.
Context `{HashOrder}.

(** [graph.entry(token_in).or_default().insert(token_out)]. *)
Definition add_edge (graph : gmap Bytes (gset Bytes)) (swap : Swap.t) : gmap Bytes (gset Bytes) :=
  <[Swap.addr_in swap := {[Swap.addr_out swap]} ∪ default ∅ (graph !! Swap.addr_in swap)]> graph.

Definition token_graph (swaps : list Swap.t) : gmap Bytes (gset Bytes) := foldl add_edge ∅ swaps.

Definition all_tokens (swaps : list Swap.t) : gset Bytes :=
  foldl (fun tokens swap => tokens ∪ {[Swap.addr_in swap]} ∪ {[Swap.addr_out swap]}) ∅ swaps.

(** The [while let] loop: [inl] the early success, [inr] the visited tokens at its end. *)
Fixpoint bfs (fuel : nat) (graph : gmap Bytes (gset Bytes)) (tokens : gset Bytes) (checked_token : Bytes)
    (visited : gset Bytes) (queue : list Bytes) : option (unit + gset Bytes) :=
  match fuel with
  | O => None
  | S fuel' =>
      match queue with
      | [] => Some (inr visited)
      | token :: queue =>
          if decide (token ∈ visited) then bfs fuel' graph tokens checked_token visited queue
          else
            let visited := {[token]} ∪ visited in
            if bool_decide (token = checked_token) && bool_decide (size visited = size tokens)
            then Some (inl tt)
            else
              let next_tokens :=
                match graph !! token with
                | Some next => filter (fun t => t ∉ visited) (iter_set next)
                | None => []
                end in
              bfs fuel' graph tokens checked_token visited (queue ++ next_tokens)
      end
  end.

Definition validate_swap_path (swaps : list Swap.t) (given_token checked_token : Bytes) :
    timed EncodingError unit :=
  let tokens := all_tokens swaps in
  match bfs (S (S (length swaps))) (token_graph swaps) tokens checked_token ∅ [given_token] with
  | None => None
  | Some (inl _) => Some (Ok tt)
  | Some (inr visited) =>
      Some (if bool_decide (checked_token ∈ visited) && bool_decide (size visited = size tokens) then Ok tt
            else if negb (bool_decide (checked_token ∈ visited))
            then Err (InvalidInput "Checked token is not reachable through swap path")
            else Err (InvalidInput "Some tokens are not connected to the main path"))
  end.

(** * validate_split_percentages *)

Definition split_too_large := InvalidInput "Split percentage must be less than 1 (100%)".

(** The first loop: reject a split of 100% or more, and collect the swaps of every token. *)
Definition collect_swap (swaps_by_token : gmap Bytes (list Swap.t)) (swap : Swap.t) :
    result EncodingError (gmap Bytes (list Swap.t)) :=
  if f64_ge (Swap.split swap) f64_one then Err split_too_large
  else Ok (<[Swap.addr_in swap := default [] (swaps_by_token !! Swap.addr_in swap) ++ [swap]]> swaps_by_token).

(** The loop over the swaps of one token, with its variables [found_zero_split] and
    [total_percentage]. *)
Fixpoint check_splits (swaps : list Swap.t) (found_zero_split : bool) (total_percentage : f64) :
    result EncodingError (bool * f64) :=
  match swaps with
  | [] => Ok (found_zero_split, total_percentage)
  | swap :: rest =>
      match is_zero_split (Swap.split swap), bool_decide (rest = []) with
      | true, false => Err (InvalidInput "The 0% split must be the last swap")
      | true, true => check_splits rest true total_percentage
      | false, _ =>
          if SFltb (Swap.split swap) f64_zero then Err (InvalidInput "All splits must be >= 0%")
          else check_splits rest found_zero_split (f64_add total_percentage (Swap.split swap))
      end
  end.

Definition check_token (token_swaps : list Swap.t) : result EncodingError unit :=
  match token_swaps with
  | [swap] =>
      if is_zero_split (Swap.split swap) then Ok tt
      else Err (InvalidInput "Single swap must have 0% split")
  | _ =>
      '(found_zero_split, total_percentage) ← check_splits token_swaps false f64_zero;
      if negb found_zero_split then Err (InvalidInput "Token must have exactly one 0% split for remainder handling")
      else if f64_ge total_percentage f64_one
      then Err (InvalidInput "Total of non-remainder splits must be <100%")
      else Ok tt
  end.

Definition validate_split_percentages (swaps : list Swap.t) : result EncodingError unit :=
  swaps_by_token ← try_fold collect_swap ∅ swaps;
  try_fold (fun _ entry => check_token entry.2) tt (iter_map swaps_by_token).

End path.
