(* ===== verification/SwapValidatorsSpec.v ===== *)
(** Validation of swaps: the search of [validate_swap_path] decides reachability, and
    [validate_split_percentages] accepts exactly the splits that pass the comparisons of its
    documentation, in whatever order the maps are iterated. *)

From Stdlib Require Import SpecFloat.
From S2P Require Import Prelude Collections Bytes Models Encoding GroupSwaps GroupSwapsSpec SwapValidators.

Open Scope Z_scope.

(** * The graph of the swaps *)

(** Some swap goes from [a] to [b]. *)
Definition flows (swaps : list Swap.t) (a b : Bytes) : Prop :=
  ∃ s, s ∈ swaps ∧ Swap.addr_in s = a ∧ Swap.addr_out s = b.

Definition reaches (swaps : list Swap.t) : Bytes → Bytes → Prop := rtc (flows swaps).

Lemma flows_snoc swaps s a b :
  flows (swaps ++ [s]) a b ↔ flows swaps a b ∨ (Swap.addr_in s = a ∧ Swap.addr_out s = b).
Proof.
  unfold flows. split.
  - intros (x & [Hx|Hx%list_elem_of_singleton]%elem_of_app & H); [left; by exists x|right; by subst].
  - intros [(x & Hx & H)|H]; [exists x|exists s]; (split; [apply elem_of_app|done]); [by left|right; by left].
Qed.

Lemma token_graph_flows swaps a b : b ∈ default ∅ (token_graph swaps !! a) ↔ flows swaps a b.
Proof.
  revert a b. induction swaps as [|s swaps IH] using rev_ind; intros a b.
  { unfold token_graph. simpl. rewrite lookup_empty. simpl. split; [set_solver|].
    intros (x & Hx & _). by apply elem_of_nil in Hx. }
  unfold token_graph in *. rewrite foldl_snoc, flows_snoc, <-IH. unfold add_edge.
  destruct (decide (Swap.addr_in s = a)) as [<-|Hne].
  - rewrite lookup_insert_eq. simpl. set_solver.
  - rewrite lookup_insert_ne by done. set_solver.
Qed.

Lemma all_tokens_spec swaps t :
  t ∈ all_tokens swaps ↔ ∃ s, s ∈ swaps ∧ (t = Swap.addr_in s ∨ t = Swap.addr_out s).
Proof.
  induction swaps as [|s swaps IH] using rev_ind.
  { unfold all_tokens. simpl. split; [set_solver|]. intros (x & Hx & _). by apply elem_of_nil in Hx. }
  unfold all_tokens in *. rewrite foldl_snoc, !elem_of_union, !elem_of_singleton, IH. split.
  - intros [[(x & Hx & H)|H]|H]; [exists x|exists s|exists s]; (split; [apply elem_of_app|tauto]);
      [by left|right; by left|right; by left].
  - intros (x & [Hx|Hx%list_elem_of_singleton]%elem_of_app & H); [left; left; by exists x|subst x; tauto].
Qed.

Lemma flows_tokens swaps a b : flows swaps a b → a ∈ all_tokens swaps ∧ b ∈ all_tokens swaps.
Proof. intros (s & Hs & <- & <-). rewrite !all_tokens_spec. split; exists s; tauto. Qed.

Lemma reaches_tokens swaps a b : a ∈ all_tokens swaps → reaches swaps a b → b ∈ all_tokens swaps.
Proof. intros Ha. induction 1 as [|? ? ? Hf _ IH]; [done|]. apply IH. by eapply flows_tokens. Qed.

Lemma reaches_foreign swaps a b : a ∉ all_tokens swaps → reaches swaps a b → b = a.
Proof. intros Ha H. destruct H as [|? ? ? Hf]; [done|]. by apply flows_tokens in Hf as [? _]. Qed.

(** * The search *)

(** The swaps whose token has not been expanded yet. *)
Definition pending (swaps : list Swap.t) (visited : gset Bytes) : nat :=
  length (filter (fun s => Swap.addr_in s ∉ visited) swaps).

Lemma pending_visit swaps visited token :
  token ∉ visited →
  (pending swaps ({[token]} ∪ visited) + length (filter (fun s => Swap.addr_in s = token) swaps))%nat =
  pending swaps visited.
Proof.
  intros Ht. unfold pending. induction swaps as [|s swaps IH]; [done|]. rewrite !filter_cons.
  destruct (decide (Swap.addr_in s = token)) as [E|E].
  - rewrite decide_False by set_solver. rewrite (decide_True _ _ (P := Swap.addr_in s ∉ visited)) by set_solver.
    simpl. lia.
  - destruct (decide (Swap.addr_in s ∉ visited)).
    + rewrite decide_True by set_solver. simpl. lia.
    + rewrite decide_False by set_solver. done.
Qed.

Lemma size_list_to_set_le (l : list Bytes) : (size (list_to_set l : gset Bytes) ≤ length l)%nat.
Proof.
  induction l as [|x l IH]; [done|]. simpl.
  rewrite size_union_alt, size_singleton.
  assert (list_to_set l ∖ {[x]} ⊆ (list_to_set l : gset Bytes)) as Hs%subseteq_size by set_solver. lia.
Qed.

Section search.
Context `{HashOrderLaws} (swaps : list Swap.t) (given_token checked_token : Bytes).

(** The number of tokens that expanding a token puts in the queue. *)
Lemma next_tokens_length (token : Bytes) (next visited : gset Bytes) :
  token_graph swaps !! token = Some next →
  (length (filter (fun t => t ∉ visited) (iter_set next)) ≤
   length (filter (fun s => Swap.addr_in s = token) swaps))%nat.
Proof.
  intros E. etrans; [apply length_filter|]. rewrite iter_set_elements.
  change (length (elements next)) with (size next).
  assert (next = list_to_set (Swap.addr_out <$> filter (fun s => Swap.addr_in s = token) swaps)) as ->.
  { apply set_eq. intros b. rewrite elem_of_list_to_set, list_elem_of_fmap.
    pose proof (token_graph_flows swaps token b) as Hf. rewrite E in Hf. simpl in Hf. rewrite Hf.
    unfold flows. setoid_rewrite list_elem_of_filter. naive_solver. }
  rewrite <-(length_fmap Swap.addr_out). apply size_list_to_set_le.
Qed.

(** What holds at every turn: the visited and queued tokens are reachable, the token the
    search starts from is among them, and so are the successors of the visited ones. *)
Definition search_inv (visited : gset Bytes) (queue : list Bytes) : Prop :=
  (∀ t, t ∈ visited ∨ t ∈ queue → reaches swaps given_token t) ∧
  (given_token ∈ visited ∨ given_token ∈ queue) ∧
  (∀ a b, a ∈ visited → flows swaps a b → b ∈ visited ∨ b ∈ queue).

Definition next_tokens (token : Bytes) (visited : gset Bytes) : list Bytes :=
  match token_graph swaps !! token with
  | Some next => filter (fun t => t ∉ visited) (iter_set next)
  | None => []
  end.

Lemma elem_of_next_tokens token visited t : t ∈ next_tokens token visited ↔ flows swaps token t ∧ t ∉ visited.
Proof.
  unfold next_tokens. rewrite <-token_graph_flows. destruct (token_graph swaps !! token) as [next|]; simpl.
  - rewrite list_elem_of_filter, iter_set_elements, elem_of_elements. tauto.
  - rewrite elem_of_nil. set_solver.
Qed.

Lemma search_inv_skip visited token queue :
  token ∈ visited → search_inv visited (token :: queue) → search_inv visited queue.
Proof.
  intros Ht (H1 & H2 & H3). split_and!.
  - intros t [?|?]; apply H1; [by left|right; by right].
  - destruct H2 as [?|[->|?]%elem_of_cons]; auto.
  - intros a b Ha Hf. destruct (H3 a b Ha Hf) as [?|[->|?]%elem_of_cons]; auto.
Qed.

Lemma search_inv_visit visited token queue :
  search_inv visited (token :: queue) →
  search_inv ({[token]} ∪ visited) (queue ++ next_tokens token ({[token]} ∪ visited)).
Proof.
  intros (H1 & H2 & H3). assert (reaches swaps given_token token) as Ht by (apply H1; right; by left).
  split_and!.
  - intros t. rewrite elem_of_union, elem_of_singleton, elem_of_app, elem_of_next_tokens.
    intros [[->|?]|[?|[? _]]]; [done|apply H1; by left|apply H1; right; by right|]. by eapply rtc_r.
  - rewrite elem_of_union, elem_of_singleton, elem_of_app.
    destruct H2 as [?|[->|?]%elem_of_cons]; auto.
  - intros a b Ha Hf. destruct (decide (b ∈ ({[token]} ∪ visited : gset Bytes))) as [|Hb]; [by left|].
    right. apply elem_of_app. apply elem_of_union in Ha as [->%elem_of_singleton|Ha].
    + right. by apply elem_of_next_tokens.
    + left. destruct (H3 a b Ha Hf) as [?|[->|?]%elem_of_cons]; set_solver.
Qed.

(** The search ends on its budget: early, with every token visited, or with exactly the
    reachable tokens. *)
Lemma bfs_total fuel visited queue :
  search_inv visited queue → (length queue + pending swaps visited < fuel)%nat →
  ∃ r, bfs fuel (token_graph swaps) (all_tokens swaps) checked_token visited queue = Some r ∧
  match r with
  | inl _ => ∃ V : gset Bytes, (∀ t, t ∈ V → reaches swaps given_token t) ∧ checked_token ∈ V ∧ size V = size (all_tokens swaps)
  | inr V => ∀ t, t ∈ V ↔ reaches swaps given_token t
  end.
Proof.
  revert visited queue. induction fuel as [|fuel IH]; intros visited queue Hinv Hf; [lia|].
  destruct queue as [|token queue]; cbn [bfs].
  - eexists. split; [done|]. simpl. destruct Hinv as (H1 & H2 & H3). intros t. split; [intros; apply H1; by left|].
    revert t. apply (rtc_ind_r (R := flows swaps) (fun t => t ∈ visited) given_token).
    + destruct H2 as [?|Hn]; [done|by apply elem_of_nil in Hn].
    + intros a b _ Hab Ha. destruct (H3 a b Ha Hab) as [?|Hn]; [done|by apply elem_of_nil in Hn].
  - destruct (decide (token ∈ visited)) as [Ht|Ht].
    { apply IH; [by eapply search_inv_skip|simpl in Hf; lia]. }
    pose proof (search_inv_visit _ _ _ Hinv) as Hv.
    destruct (bool_decide (token = checked_token) && bool_decide (size ({[token]} ∪ visited : gset Bytes) = size (all_tokens swaps))) eqn:E.
    + eexists. split; [done|]. simpl. apply andb_true_iff in E as [E1 E2].
      apply bool_decide_eq_true in E1, E2. exists ({[token]} ∪ visited). split_and!; [|set_solver|done].
      intros t Hin. apply (proj1 Hv). by left.
    + apply IH; [exact Hv|]. fold (next_tokens token ({[token]} ∪ visited)). rewrite length_app.
      pose proof (pending_visit swaps visited token Ht). simpl in Hf.
      assert (length (next_tokens token ({[token]} ∪ visited)) ≤ length (filter (fun s => Swap.addr_in s = token) swaps))%nat; [|lia].
      unfold next_tokens. destruct (token_graph swaps !! token) eqn:En; [by apply next_tokens_length|simpl; lia].
Qed.

(** The search has visited as many tokens as there are only if it has visited them all, or
    started from a token of no swap. *)
Lemma visited_all (V : gset Bytes) :
  given_token ∈ all_tokens swaps → (∀ t, t ∈ V → reaches swaps given_token t) →
  size V = size (all_tokens swaps) → V = all_tokens swaps.
Proof.
  intros Hg HV Hs. apply set_eq. assert (V ⊆ all_tokens swaps) as Hsub.
  { intros t Ht. by eapply reaches_tokens, HV. }
  destruct (decide (all_tokens swaps ⊆ V)) as [?|Hn]; [set_solver|].
  pose proof (subset_size V (all_tokens swaps) (conj Hsub Hn)). lia.
Qed.

Lemma swap_path_search :
  ∃ r, validate_swap_path swaps given_token checked_token = Some r ∧
  ((∃ V : gset Bytes, (∀ t, t ∈ V → reaches swaps given_token t) ∧ checked_token ∈ V ∧
      size V = size (all_tokens swaps) ∧ r = Ok tt) ∨
   ∃ V : gset Bytes, (∀ t, t ∈ V ↔ reaches swaps given_token t) ∧
     r = if bool_decide (checked_token ∈ V) && bool_decide (size V = size (all_tokens swaps)) then Ok tt
         else if negb (bool_decide (checked_token ∈ V))
         then Err (InvalidInput "Checked token is not reachable through swap path")
         else Err (InvalidInput "Some tokens are not connected to the main path")).
Proof.
  unfold validate_swap_path.
  destruct (bfs_total (S (S (length swaps))) ∅ [given_token]) as (r & -> & Hr).
  - split_and!; [|right; by left|set_solver]. intros t [?| ->%list_elem_of_singleton]; [set_solver|apply rtc_refl].
  - assert (pending swaps ∅ ≤ length swaps)%nat by apply length_filter. cbn [length]. lia.
  - destruct r as [u|V]; (eexists; split; [done|]).
    + left. destruct Hr as (V & ? & ? & ?). by exists V.
    + right. by exists V.
Qed.
End search.

(** * Split percentages *)

(** The splits of one token as documented: a single swap has none; several have a share
    each, not negative, and the last one takes the remainder. *)
Definition valid_splits (l : list Swap.t) : Prop :=
  match l with
  | [swap] => is_zero_split (Swap.split swap) = true
  | _ => ∃ shares remainder, l = shares ++ [remainder] ∧ is_zero_split (Swap.split remainder) = true ∧
      Forall (fun s => is_zero_split (Swap.split s) = false ∧ SFltb (Swap.split s) f64_zero = false) shares ∧
      f64_ge (foldl f64_add f64_zero (Swap.split <$> shares)) f64_one = false
  end.

Lemma check_splits_spec l total z :
  check_splits l false total = Ok (true, z) ↔
  ∃ shares remainder, l = shares ++ [remainder] ∧ is_zero_split (Swap.split remainder) = true ∧
    Forall (fun s => is_zero_split (Swap.split s) = false ∧ SFltb (Swap.split s) f64_zero = false) shares ∧
    z = foldl f64_add total (Swap.split <$> shares).
Proof.
  revert total. induction l as [|s l IH]; intros total; cbn [check_splits].
  { split; [done|]. intros (shares & r & E & _). by destruct shares. }
  destruct (is_zero_split (Swap.split s)) eqn:Ez.
  - destruct (bool_decide_reflect (l = [])) as [->|Hl]; simpl; split; try done.
    + intros [= <-]. by exists [], s.
    + intros ([|x [|]] & r & E & Hr & Hf & ->); by simplify_eq/=.
    + intros ([|x sh] & r & E & Hr & Hf & ->); simplify_eq/=; try congruence.
      apply Forall_cons in Hf as [[? _] _]. congruence.
  - destruct (SFltb (Swap.split s) f64_zero) eqn:En; [split; [done|]|rewrite IH; split].
    + intros ([|x sh] & r & E & Hr & Hf & ->); simplify_eq/=; try congruence.
      apply Forall_cons in Hf as [[_ ?] _]. congruence.
    + intros (sh & r & -> & Hr & Hf & ->). exists (s :: sh), r. split_and!; [done|done|by constructor|done].
    + intros ([|x sh] & r & E & Hr & Hf & ->); simplify_eq/=; try congruence.
      apply Forall_cons in Hf as [_ Hf]. by exists sh, r.
Qed.

Lemma check_splits_no_panic l found total : check_splits l found total ≠ Panic.
Proof.
  revert found total. induction l as [|s l IH]; intros found total; cbn [check_splits]; [done|].
  repeat case_match; done || apply IH.
Qed.

Lemma check_token_spec l : check_token l = Ok tt ↔ valid_splits l.
Proof.
  assert ((∃ s, l = [s]) ∨ ¬ ∃ s, l = [s]) as [[s ->]|Hs] by (destruct l as [|? [|]]; naive_solver).
  { simpl. by destruct (is_zero_split (Swap.split s)). }
  assert (check_token l = ('(found, total) ← check_splits l false f64_zero;
    if negb found then Err (InvalidInput "Token must have exactly one 0% split for remainder handling")
    else if f64_ge total f64_one then Err (InvalidInput "Total of non-remainder splits must be <100%") else Ok tt)) as ->.
  { destruct l as [|? [|]]; [done| |done]. exfalso. apply Hs. by eexists. }
  assert (valid_splits l ↔ ∃ z, check_splits l false f64_zero = Ok (true, z) ∧ f64_ge z f64_one = false) as ->.
  { setoid_rewrite check_splits_spec. transitivity (∃ shares remainder, l = shares ++ [remainder] ∧
      is_zero_split (Swap.split remainder) = true ∧
      Forall (fun s => is_zero_split (Swap.split s) = false ∧ SFltb (Swap.split s) f64_zero = false) shares ∧
      f64_ge (foldl f64_add f64_zero (Swap.split <$> shares)) f64_one = false); [|naive_solver].
    destruct l as [|? [|]]; [done| |done]. exfalso. apply Hs. by eexists. }
  destruct (check_splits l false f64_zero) as [[[] z]| |] eqn:E; simpl;
    [|split; [done|by intros (? & ? & _)]..].
  destruct (f64_ge z f64_one) eqn:Eg; (split; [intros H|intros (z' & [= <-] & H)]); try done.
  - congruence.
  - by exists z.
Qed.

Lemma check_token_no_panic l : check_token l ≠ Panic.
Proof.
  unfold check_token. destruct l as [|s [|]]; [done|by destruct (is_zero_split _)|].
  destruct (check_splits _ _ _) as [[f z]| |] eqn:E; simpl; [by destruct (negb f), (f64_ge z f64_one)|done|].
  by apply check_splits_no_panic in E.
Qed.

(** The swaps that start from a token, in order. *)
Definition swaps_from (token : Bytes) (swaps : list Swap.t) : list Swap.t :=
  filter (fun s => Swap.addr_in s = token) swaps.

Definition collected (swaps : list Swap.t) (m : gmap Bytes (list Swap.t)) : Prop :=
  ∀ t, m !! t = match swaps_from t swaps with [] => None | l => Some l end.

Lemma collect_all swaps :
  match try_fold collect_swap ∅ swaps with
  | Ok m => Forall (fun s => f64_ge (Swap.split s) f64_one = false) swaps ∧ collected swaps m
  | Err e => e = split_too_large ∧ ¬ Forall (fun s => f64_ge (Swap.split s) f64_one = false) swaps
  | Panic => False
  end.
Proof.
  induction swaps as [|s swaps IH] using rev_ind; [done|]. rewrite try_fold_app.
  destruct (try_fold collect_swap ∅ swaps) as [m|e|]; simpl; [|by rewrite Forall_app; naive_solver|done].
  destruct IH as [Hf Hm]. unfold collect_swap. destruct (f64_ge (Swap.split s) f64_one) eqn:E; simpl.
  - split; [done|]. rewrite Forall_app, Forall_singleton. intros [_ ?]. congruence.
  - split; [by apply Forall_app; repeat constructor|]. intros t. unfold swaps_from. rewrite filter_app.
    change (filter (fun s => Swap.addr_in s = t) swaps) with (swaps_from t swaps).
    destruct (decide (Swap.addr_in s = t)) as [<-|Hne].
    + rewrite lookup_insert_eq, Hm, filter_cons_True by done. simpl. by destruct (swaps_from (Swap.addr_in s) swaps).
    + rewrite lookup_insert_ne, Hm, filter_cons_False by done. by rewrite app_nil_r.
Qed.

(** Checks in any order succeed if all of them do. *)
Lemma try_fold_checks {A} (check : A → result EncodingError unit) l :
  (∀ a, check a ≠ Panic) →
  try_fold (fun _ a => check a) tt l ≠ Panic ∧
  (try_fold (fun _ a => check a) tt l = Ok tt ↔ Forall (fun a => check a = Ok tt) l).
Proof.
  intros Hp. induction l as [|a l [IH1 IH2]]; simpl; [by split|].
  destruct (check a) as [[]| |] eqn:E; simpl; [| |by apply Hp in E].
  - split; [done|]. rewrite IH2, Forall_cons. tauto.
  - rewrite Forall_cons. split; [done|]. split; [done|]. intros [? _]. congruence.
Qed.

Lemma swap_path_decision `{HashOrderLaws} swaps given_token checked_token :
  given_token ∈ all_tokens swaps →
  ∃ r, validate_swap_path swaps given_token checked_token = Some r ∧
    (r = Ok tt ↔ reaches swaps given_token checked_token ∧
                 ∀ t, t ∈ all_tokens swaps → reaches swaps given_token t) ∧
    (r = Err (InvalidInput "Checked token is not reachable through swap path") ↔
       ¬ reaches swaps given_token checked_token) ∧
    (r = Err (InvalidInput "Some tokens are not connected to the main path") ↔
       reaches swaps given_token checked_token ∧
       ¬ ∀ t, t ∈ all_tokens swaps → reaches swaps given_token t).
Proof.
  intros Hg. destruct (swap_path_search swaps given_token checked_token) as (r & Hr & [(V & HV & Hc & Hs & ->)|(V & HV & ->)]);
    (eexists; split; [exact Hr|]).
  - pose proof (visited_all swaps given_token V Hg HV Hs) as ->.
    assert (reaches swaps given_token checked_token) by (by apply HV). naive_solver.
  - assert (size V = size (all_tokens swaps) ↔ ∀ t, t ∈ all_tokens swaps → reaches swaps given_token t) as Hall.
    { split.
      - intros Hs. pose proof (visited_all swaps given_token V Hg (fun t => proj1 (HV t)) Hs) as ->. apply HV.
      - intros Hall. f_equal. apply set_eq. intros t. rewrite HV. split; [by apply reaches_tokens|apply Hall]. }
    rewrite <-Hall, <-HV. repeat case_bool_decide; simpl; naive_solver.
Qed.

(** * The guarantees *)

(** From a token that no swap mentions nothing is reached, and yet the path is accepted
    when the checked token is that token and all the swaps are loops on one other token. *)
Lemma swap_path_from_foreign_token `{HashOrderLaws} swaps given_token checked_token :
  given_token ∉ all_tokens swaps →
  ∃ r, validate_swap_path swaps given_token checked_token = Some r ∧
    (r = Ok tt ↔ checked_token = given_token ∧ size (all_tokens swaps) = 1%nat) ∧
    (r = Err (InvalidInput "Checked token is not reachable through swap path") ↔ checked_token ≠ given_token) ∧
    (r = Err (InvalidInput "Some tokens are not connected to the main path") ↔
       checked_token = given_token ∧ size (all_tokens swaps) ≠ 1%nat).
Proof.
  intros Hg. destruct (swap_path_search swaps given_token checked_token) as (r & Hr & [(V & HV & Hc & Hs & ->)|(V & HV & ->)]);
    (eexists; split; [exact Hr|]).
  - assert (V = {[given_token]}) as ->.
    { apply set_eq. intros t. rewrite elem_of_singleton. split; [intros Ht; by eapply reaches_foreign, HV|].
      intros ->. apply HV in Hc as Hc'. apply reaches_foreign in Hc'; [|done]. by subst. }
    rewrite elem_of_singleton in Hc. rewrite size_singleton in Hs. naive_solver.
  - assert (V = {[given_token]}) as ->.
    { apply set_eq. intros t. rewrite HV, elem_of_singleton. split; [by apply reaches_foreign|intros ->; apply rtc_refl]. }
    rewrite size_singleton. assert (checked_token ∈ ({[given_token]} : gset Bytes) ↔ checked_token = given_token) by set_solver.
    repeat case_bool_decide; simpl; naive_solver.
Qed.

(** C21. [validate_swap_path] ends for all swaps and tokens, in every iteration order.  It
    accepts exactly if the token it starts from is one of the swaps and the checked token and every
    token of the swaps can be reached from it through the swaps; or, since only numbers of tokens are
    compared, if it starts from a token of no swap that is also the checked one, and all swaps are
    loops on one other token.  The error for an unreachable checked token is returned exactly when it
    cannot be reached, and the other one in all remaining cases. *)
Theorem swap_path_decides_reachability `{HashOrderLaws} swaps given_token checked_token :
  let connected := given_token ∈ all_tokens swaps ∧ reaches swaps given_token checked_token ∧
                   ∀ t, t ∈ all_tokens swaps → reaches swaps given_token t in
  let loops := given_token ∉ all_tokens swaps ∧ checked_token = given_token ∧ size (all_tokens swaps) = 1%nat in
  ∃ r, validate_swap_path swaps given_token checked_token = Some r ∧
    (r = Ok tt ↔ connected ∨ loops) ∧
    (r = Err (InvalidInput "Checked token is not reachable through swap path") ↔
       ¬ reaches swaps given_token checked_token) ∧
    (r = Err (InvalidInput "Some tokens are not connected to the main path") ↔
       reaches swaps given_token checked_token ∧ ¬ connected ∧ ¬ loops).
Proof.
  intros connected loops. destruct (decide (given_token ∈ all_tokens swaps)) as [Hg|Hg].
  - destruct (swap_path_decision swaps given_token checked_token Hg) as (r & Hr & H1 & H2 & H3).
    exists r. subst connected loops. rewrite H1, H2, H3. tauto.
  - destruct (swap_path_from_foreign_token swaps given_token checked_token Hg) as (r & Hr & H1 & H2 & H3).
    assert (reaches swaps given_token checked_token ↔ checked_token = given_token) as Hreach.
    { split; [by apply reaches_foreign|intros ->; apply rtc_refl]. }
    exists r. subst connected loops. rewrite H1, H2, H3, Hreach. tauto.
Qed.

(** C36. [validate_split_percentages] accepts exactly the swaps of which no split compares as
    100% or more and whose splits are, token by token, as follows: the split of a single
    swap is 0; several swaps of one token are shares that do not compare as 0 or as negative and
    whose sum, rounded as [f64] rounds, does not compare as 100% or more, and last a swap with the
    split 0 for the remainder.  The comparisons are those of [f64], which a NaN passes.  It never
    unwinds, and the order in which the tokens are checked does not matter. *)
Theorem split_percentages_valid `{HashOrderLaws} swaps :
  validate_split_percentages swaps ≠ Panic ∧
  (validate_split_percentages swaps = Ok tt ↔
   Forall (fun s => f64_ge (Swap.split s) f64_one = false ∧ valid_splits (swaps_from (Swap.addr_in s) swaps)) swaps).
Proof.
  unfold validate_split_percentages. pose proof (collect_all swaps) as Hc.
  destruct (try_fold collect_swap ∅ swaps) as [m|e|]; simpl.
  - destruct Hc as [Hf Hm].
    destruct (try_fold_checks (fun entry : Bytes * list Swap.t => check_token entry.2) (iter_map m)
      (fun a => check_token_no_panic a.2)) as [Hp Hok]. split; [done|].
    rewrite Hok, iter_map_entries, Forall_and, (Forall_forall _ (map_to_list m)). split.
    + intros Ha. split; [done|]. apply Forall_forall. intros s Hs. apply check_token_spec.
      apply (Ha (Swap.addr_in s, swaps_from (Swap.addr_in s) swaps)), elem_of_map_to_list. rewrite Hm.
      assert (s ∈ swaps_from (Swap.addr_in s) swaps) as Hin by (by apply list_elem_of_filter).
      destruct (swaps_from (Swap.addr_in s) swaps); [by apply elem_of_nil in Hin|done].
    + intros [_ Ha] [t l] Hin%elem_of_map_to_list. rewrite Hm in Hin. simpl. apply check_token_spec.
      destruct (swaps_from t swaps) as [|s l'] eqn:E; [done|]. injection Hin as <-. rewrite <-E.
      assert (s ∈ swaps_from t swaps) as [<- Hs]%list_elem_of_filter by (rewrite E; by left).
      rewrite Forall_forall in Ha. by apply Ha.
  - split; [done|]. split; [done|]. rewrite Forall_and. intros [? _]. naive_solver.
  - done.
Qed.

(** * Examples *)

Lemma swap_path_decides_reachability_witness :
  ∃ r, @validate_swap_path canonical_order [example_swap "uniswap_v2" 1 2; example_swap "uniswap_v2" 2 3]
      (to_be 20 1) (to_be 20 3) = Some r ∧ r = Ok tt.
Proof.
  destruct (@swap_path_decides_reachability canonical_order canonical_order_laws
    [example_swap "uniswap_v2" 1 2; example_swap "uniswap_v2" 2 3] (to_be 20 1) (to_be 20 3)) as (r & H1 & H2 & _).
  exists r. split; [exact H1|]. vm_compute in H1. injection H1 as <-. reflexivity.
Defined.

Lemma split_percentages_valid_witness :
  Forall (fun s => f64_ge (Swap.split s) f64_one = false ∧
    valid_splits (swaps_from (Swap.addr_in s) [example_swap "uniswap_v2" 1 2; example_swap "uniswap_v2" 2 3]))
    [example_swap "uniswap_v2" 1 2; example_swap "uniswap_v2" 2 3].
Proof.
  apply (proj1 (proj2 (@split_percentages_valid canonical_order canonical_order_laws
    [example_swap "uniswap_v2" 1 2; example_swap "uniswap_v2" 2 3]))). vm_compute. reflexivity.
Defined.
