(* ===== verification/Encoders.v ===== *)
(** Encoders: [tycho-execution/src/encoding/{swap_encoder,evm/swap_encoder,evm/strategy_encoder,evm/tycho_encoders}].

    A [SwapEncoder] is a record of its two methods, as the strategies only see the trait
    object; the encoders of Uniswap v2 and v3, Slipstreams, Aerodrome v1, Balancer v3, Ring swap
    v2, Ekubo and native wrapping are instances of it.  The three strategies and the two encoders on top of them follow the
    source; the loop over the swaps of a group, which the source repeats in each of them, is
    [encode_group].  The decoding of prefix-length data is the router's
    ([contracts/lib/bytes/LibPrefixLengthEncodedByteArray.sol]). *)

From Stdlib Require Import Strings.Byte SpecFloat.
From S2P Require Import Prelude Collections Bytes Models Encoding GroupSwaps SwapValidators.

Open Scope Z_scope.
Open Scope tycho_scope.

(** * swap_encoder.rs *)

Module SwapEncoder.
Record t := mk {
  encode_swap : Swap.t → EncodingContext.t → result EncodingError Bytes;
  executor_address : Bytes
}.
End SwapEncoder.

Section swap_encoders.
Context `{Alloy}.

(** uniswap_v2.rs *)
Definition uniswap_v2_encode_swap (swap : Swap.t) (_ : EncodingContext.t) : result EncodingError Bytes :=
  token_in_address ← bytes_to_address (Swap.addr_in swap);
  token_out_address ← bytes_to_address (Swap.addr_out swap);
  component_id ← ok_or (address_from_str (ProtocolComponent.id (Swap.component swap)))
    (FatalError "Invalid USV2 component id");
  Ok (abi_encode_packed [SAddress component_id; SAddress token_in_address; SAddress token_out_address]).

Definition get_zero_to_one (sell_token_address buy_token_address : Bytes) : bool :=
  bytes_ltb sell_token_address buy_token_address.

(** uniswap_v3.rs *)
Definition uniswap_v3_encode_swap (swap : Swap.t) (_ : EncodingContext.t) : result EncodingError Bytes :=
  token_in_address ← bytes_to_address (Swap.addr_in swap);
  token_out_address ← bytes_to_address (Swap.addr_out swap);
  let zero_to_one := get_zero_to_one token_in_address token_out_address in
  component_id ← ok_or (address_from_str (ProtocolComponent.id (Swap.component swap)))
    (FatalError "Invalid USV3 component id");
  pool_fee_bytes ← get_static_attribute swap "fee";
  let pool_fee_u24 := pad_or_truncate_to_size 3 pool_fee_bytes in
  Ok (abi_encode_packed [SAddress token_in_address; SAddress token_out_address; SBytes pool_fee_u24;
                         SAddress component_id; SBool zero_to_one]).

(** slipstreams.rs *)
Definition slipstreams_encode_swap (swap : Swap.t) (_ : EncodingContext.t) : result EncodingError Bytes :=
  token_in_address ← bytes_to_address (Swap.addr_in swap);
  token_out_address ← bytes_to_address (Swap.addr_out swap);
  let zero_to_one := get_zero_to_one token_in_address token_out_address in
  component_id ← ok_or (address_from_str (ProtocolComponent.id (Swap.component swap)))
    (FatalError "Invalid Slipstreams component id");
  tick_spacing_bytes ← get_static_attribute swap "tick_spacing";
  let tick_spacing_bytes_u24 := pad_or_truncate_to_size 3 tick_spacing_bytes in
  Ok (abi_encode_packed [SAddress token_in_address; SAddress token_out_address;
                         SBytes tick_spacing_bytes_u24; SAddress component_id; SBool zero_to_one]).

(** aerodrome_v1.rs *)
Definition aerodrome_v1_encode_swap (swap : Swap.t) (_ : EncodingContext.t) : result EncodingError Bytes :=
  token_in_address ← bytes_to_address (Swap.addr_in swap);
  token_out_address ← bytes_to_address (Swap.addr_out swap);
  let zero_for_one := bytes_ltb token_in_address token_out_address in
  component_id ← ok_or (address_from_str (ProtocolComponent.id (Swap.component swap)))
    (FatalError "Invalid aerodrome_v1 component id");
  Ok (abi_encode_packed [SAddress component_id; SAddress token_in_address; SAddress token_out_address;
                         SBool zero_for_one]).

(** balancer_v3.rs *)
Definition balancer_v3_encode_swap (swap : Swap.t) (_ : EncodingContext.t) : result EncodingError Bytes :=
  pool ← ok_or (address_from_str (ProtocolComponent.id (Swap.component swap)))
    (FatalError "Invalid pool address for Balancer v3");
  token_in_address ← bytes_to_address (Swap.addr_in swap);
  token_out_address ← bytes_to_address (Swap.addr_out swap);
  Ok (abi_encode_packed [SAddress token_in_address; SAddress token_out_address; SAddress pool]).

(** ring_swap_v2.rs *)
Definition static_attribute_address (swap : Swap.t) (attribute_name : string) : result EncodingError Bytes :=
  value ← get_static_attribute swap attribute_name;
  bytes_to_address value.

Definition ring_swap_v2_encode_swap (swap : Swap.t) (_ : EncodingContext.t) : result EncodingError Bytes :=
  token_in_address ← bytes_to_address (Swap.addr_in swap);
  token_out_address ← bytes_to_address (Swap.addr_out swap);
  component_id ← ok_or (address_from_str (ProtocolComponent.id (Swap.component swap)))
    (FatalError "Invalid ring_swap_v2 component id");
  fw_token0 ← static_attribute_address swap "fw_token0";
  fw_token1 ← static_attribute_address swap "fw_token1";
  underlying_token0 ← static_attribute_address swap "underlying_token0";
  underlying_token1 ← static_attribute_address swap "underlying_token1";
  '(fw_token_in, fw_token_out) ←
    (if bool_decide (token_in_address = underlying_token0) && bool_decide (token_out_address = underlying_token1)
     then Ok (fw_token0, fw_token1)
     else if bool_decide (token_in_address = underlying_token1) && bool_decide (token_out_address = underlying_token0)
     then Ok (fw_token1, fw_token0)
     else Err (InvalidInput "Tokens do not match Ring Swap V2 component"));
  Ok (abi_encode_packed [SAddress component_id; SAddress token_in_address; SAddress token_out_address;
                         SAddress fw_token_in; SAddress fw_token_out]).

(** ekubo.rs: [try_into] an array of [n] bytes. *)
Definition try_into_array (n : nat) (b : Bytes) (err : string) : result EncodingError Bytes :=
  if bool_decide (length b = n) then Ok b else Err (FatalError err).

Definition ekubo_encode_swap (swap : Swap.t) (encoding_context : EncodingContext.t) : result EncodingError Bytes :=
  fee_bytes ← get_static_attribute swap "fee";
  fee_array ← try_into_array 8 fee_bytes "fee should be an u64";
  let fee := be_value fee_array in
  tick_spacing_bytes ← get_static_attribute swap "tick_spacing";
  tick_spacing_array ← try_into_array 4 tick_spacing_bytes "tick_spacing should be an u32";
  let tick_spacing := be_value tick_spacing_array in
  extension_bytes ← get_static_attribute swap "extension";
  extension ← try_into_array 20 extension_bytes "extension should be an address";
  encoded ←
    (if bool_decide (EncodingContext.group_token_in encoding_context = Swap.addr_in swap) then
       token_in ← bytes_to_address (Swap.addr_in swap);
       Ok (convert_to_router_token token_in)
     else Ok []);
  token_out ← bytes_to_address (Swap.addr_out swap);
  Ok (encoded ++ convert_to_router_token token_out ++
      abi_encode_packed [SAddress extension; SUint 8 fee; SUint 4 tick_spacing]).

(** native_wrap.rs *)
Definition wrap_encode_swap (native_token_address : Bytes) (swap : Swap.t) (_ : EncodingContext.t) :
    result EncodingError Bytes :=
  let is_wrapping := bool_decide (Swap.addr_in swap = native_token_address) in
  Ok (abi_encode_packed [SBool is_wrapping]).

Definition uniswap_v2_new (executor_address : Bytes) : SwapEncoder.t :=
  SwapEncoder.mk uniswap_v2_encode_swap executor_address.
Definition uniswap_v3_new (executor_address : Bytes) : SwapEncoder.t :=
  SwapEncoder.mk uniswap_v3_encode_swap executor_address.
Definition slipstreams_new (executor_address : Bytes) : SwapEncoder.t :=
  SwapEncoder.mk slipstreams_encode_swap executor_address.
Definition aerodrome_v1_new (executor_address : Bytes) : SwapEncoder.t :=
  SwapEncoder.mk aerodrome_v1_encode_swap executor_address.
Definition balancer_v3_new (executor_address : Bytes) : SwapEncoder.t :=
  SwapEncoder.mk balancer_v3_encode_swap executor_address.
Definition ring_swap_v2_new (executor_address : Bytes) : SwapEncoder.t :=
  SwapEncoder.mk ring_swap_v2_encode_swap executor_address.
Definition ekubo_new (executor_address : Bytes) : SwapEncoder.t :=
  SwapEncoder.mk ekubo_encode_swap executor_address.

(** The native token comes from the chain. *)
Definition wrap_new (registry : gmap string CustomChainConfig.t) (executor_address : Bytes) (chain : Chain) :
    result EncodingError SwapEncoder.t :=
  native ← native_token registry chain;
  Ok (SwapEncoder.mk (wrap_encode_swap (Token.address native)) executor_address).
End swap_encoders.

(** * swap_encoder_registry.rs *)

Module SwapEncoderRegistry.
Record t := mk { chain : Chain; encoders : gmap string SwapEncoder.t }.
Definition new (chain : Chain) : t := mk chain ∅.
Definition register_encoder (protocol : string) (encoder : SwapEncoder.t) (self : t) : t :=
  mk (chain self) (<[protocol := encoder]> (encoders self)).
Definition get_encoder (protocol_system : string) (self : t) : option SwapEncoder.t :=
  encoders self !! protocol_system.
End SwapEncoderRegistry.

(** * Encoding one group *)

Section groups.
Context `{Alloy}.

(** [initial_protocol_data] and [grouped_protocol_data] after one more swap of the group. *)
Definition encode_group_swap (swap_encoder : SwapEncoder.t) (context : EncodingContext.t)
    (data : Bytes * list Bytes) (swap : Swap.t) : result EncodingError (Bytes * list Bytes) :=
  let '(initial_protocol_data, grouped_protocol_data) := data in
  protocol_data ← SwapEncoder.encode_swap swap_encoder swap context;
  Ok (if bool_decide (EncodingContext.group_token_in context = Swap.addr_in swap)
      then (protocol_data, grouped_protocol_data)
      else (initial_protocol_data, grouped_protocol_data ++ [protocol_data])).

Definition encode_group_swaps (swap_encoder : SwapEncoder.t) (context : EncodingContext.t)
    (swaps : list Swap.t) : result EncodingError (Bytes * list Bytes) :=
  try_fold (encode_group_swap swap_encoder context) ([], []) swaps.

(** Join the data of a group: the later swaps are prefixed with their length, or not. *)
Definition join_group_data (protocol_system : string) (data : Bytes * list Bytes) : Bytes :=
  let '(initial_protocol_data, grouped_protocol_data) := data in
  match grouped_protocol_data with
  | [] => initial_protocol_data
  | _ =>
      if contains NON_PLE_ENCODED_PROTOCOLS protocol_system
      then foldl (++) initial_protocol_data grouped_protocol_data
      else initial_protocol_data ++ ple_encode grouped_protocol_data
  end.

Definition group_context (router_address : option Bytes) (grouped_swap : SwapGroup.t) : EncodingContext.t :=
  EncodingContext.mk router_address (SwapGroup.token_in grouped_swap) (SwapGroup.token_out grouped_swap).

Definition encoder_not_found := InvalidInput "Swap encoder not found for protocol".

(** The executor's address and the data of a group. *)
Definition encode_group (registry : SwapEncoderRegistry.t) (router_address : Bytes) (grouped_swap : SwapGroup.t) :
    result EncodingError (Bytes * Bytes) :=
  let protocol := SwapGroup.protocol_system grouped_swap in
  swap_encoder ← ok_or (SwapEncoderRegistry.get_encoder protocol registry) encoder_not_found;
  data ← encode_group_swaps swap_encoder (group_context (Some router_address) grouped_swap)
           (SwapGroup.swaps grouped_swap);
  Ok (SwapEncoder.executor_address swap_encoder, join_group_data protocol data).

Definition encode_swap_header (executor_address protocol_data : Bytes) : Bytes :=
  executor_address ++ protocol_data.

Definition encode_split_header (token_in token_out split : Z) (executor_address protocol_data : Bytes) : Bytes :=
  to_be 1 token_in ++ to_be 1 token_out ++ to_be 3 split ++ executor_address ++ protocol_data.
End groups.

(** * strategy_encoders.rs *)

(** The signatures have a part for the fees of the client and, for Permit2, for the permit. *)
Definition single_signature (user_transfer_type : UserTransferType) : string :=
  match user_transfer_type with
  | TransferFromPermit2 => "singleSwapPermit2(uint256,address,address,uint256,address,(uint16,address,uint256,uint256,bytes),((address,uint160,uint48,uint48),address,uint256),bytes,bytes)"
  | TransferFrom => "singleSwap(uint256,address,address,uint256,address,(uint16,address,uint256,uint256,bytes),bytes)"
  | UseVaultsFunds => "singleSwapUsingVault(uint256,address,address,uint256,address,(uint16,address,uint256,uint256,bytes),bytes)"
  end.

Definition sequential_signature (user_transfer_type : UserTransferType) : string :=
  match user_transfer_type with
  | TransferFromPermit2 => "sequentialSwapPermit2(uint256,address,address,uint256,address,(uint16,address,uint256,uint256,bytes),((address,uint160,uint48,uint48),address,uint256),bytes,bytes)"
  | TransferFrom => "sequentialSwap(uint256,address,address,uint256,address,(uint16,address,uint256,uint256,bytes),bytes)"
  | UseVaultsFunds => "sequentialSwapUsingVault(uint256,address,address,uint256,address,(uint16,address,uint256,uint256,bytes),bytes)"
  end.

Definition split_signature (user_transfer_type : UserTransferType) : string :=
  match user_transfer_type with
  | TransferFromPermit2 => "splitSwapPermit2(uint256,address,address,uint256,uint256,address,(uint16,address,uint256,uint256,bytes),((address,uint160,uint48,uint48),address,uint256),bytes,bytes)"
  | TransferFrom => "splitSwap(uint256,address,address,uint256,uint256,address,(uint16,address,uint256,uint256,bytes),bytes)"
  | UseVaultsFunds => "splitSwapUsingVault(uint256,address,address,uint256,uint256,address,(uint16,address,uint256,uint256,bytes),bytes)"
  end.

Module SingleSwapStrategyEncoder.
Record t := mk { swap_encoder_registry : SwapEncoderRegistry.t; router_address : Bytes }.

Definition encode_strategy `{Alloy} (solution : Solution.t) (self : t) : result EncodingError EncodedSolution.t :=
  let function_signature := single_signature (Solution.user_transfer_type solution) in
  match group_swaps (Solution.swaps solution) with
  | [grouped_swap] =>
      if negb (is_zero_split (SwapGroup.split grouped_swap)) then
        Err (InvalidInput "Splits not supported for single swaps.")
      else
        '(executor_address, protocol_data) ← encode_group (swap_encoder_registry self) (router_address self) grouped_swap;
        let swap_data := encode_swap_header executor_address protocol_data in
        gas_usage ← estimate_gas_usage solution Single;
        Ok (EncodedSolution.mk swap_data (router_address self) function_signature 0 gas_usage)
  | _ => Err (InvalidInput "Single strategy only supports exactly one swap for non-groupable protocols.")
  end.
End SingleSwapStrategyEncoder.

Module SequentialSwapStrategyEncoder.
Record t := mk { swap_encoder_registry : SwapEncoderRegistry.t; router_address : Bytes }.

(** The data of the groups, in order. *)
Definition push_swap `{Alloy} (self : t) (swaps : list Bytes) (grouped_swap : SwapGroup.t) :
    result EncodingError (list Bytes) :=
  '(executor_address, protocol_data) ← encode_group (swap_encoder_registry self) (router_address self) grouped_swap;
  Ok (swaps ++ [encode_swap_header executor_address protocol_data]).

Definition encode_strategy `{Alloy, HashOrder} (solution : Solution.t) (self : t) :
    timed EncodingError EncodedSolution.t :=
  let function_signature := sequential_signature (Solution.user_transfer_type solution) in
  _ <~ validate_swap_path (Solution.swaps solution) (Solution.token_in solution) (Solution.token_out solution);
  Some (
    swaps ← try_fold (push_swap self) [] (group_swaps (Solution.swaps solution));
    let encoded_swaps := ple_encode swaps in
    gas_usage ← estimate_gas_usage solution Sequential;
    Ok (EncodedSolution.mk encoded_swaps (router_address self) function_signature 0 gas_usage)).
End SequentialSwapStrategyEncoder.

Module SplitSwapStrategyEncoder.
Record t := mk { swap_encoder_registry : SwapEncoderRegistry.t; router_address : Bytes }.

(** [intermediary_tokens.sort()], on distinct tokens. *)
Fixpoint insert_token (x : Bytes) (l : list Bytes) : list Bytes :=
  match l with
  | [] => [x]
  | y :: l' => if bytes_ltb x y then x :: y :: l' else y :: insert_token x l'
  end.

(** The tokens array: the token sold, the tokens in between in order, the token bought. *)
Definition tokens_array `{HashOrder} (solution : Solution.t) (grouped_swaps : list SwapGroup.t) : list Bytes :=
  let solution_tokens : gset Bytes := {[Solution.token_in solution; Solution.token_out solution]} in
  let intermediary_tokens : gset Bytes :=
    list_to_set (grouped_swaps ≫= fun g => [SwapGroup.token_in g; SwapGroup.token_out g]) in
  let intermediary_tokens := foldr insert_token [] (iter_set (intermediary_tokens ∖ solution_tokens)) in
  [Solution.token_in solution] ++ intermediary_tokens ++ [Solution.token_out solution].

Definition push_swap `{Alloy} (self : t) (tokens : list Bytes) (swaps : list Bytes) (grouped_swap : SwapGroup.t) :
    result EncodingError (list Bytes) :=
  '(executor_address, protocol_data) ← encode_group (swap_encoder_registry self) (router_address self) grouped_swap;
  token_in ← get_token_position tokens (SwapGroup.token_in grouped_swap);
  token_out ← get_token_position tokens (SwapGroup.token_out grouped_swap);
  split ← percentage_to_uint24 (SwapGroup.split grouped_swap);
  Ok (swaps ++ [encode_split_header token_in token_out split executor_address protocol_data]).

Definition encode_strategy `{Alloy, HashOrder} (solution : Solution.t) (self : t) :
    timed EncodingError EncodedSolution.t :=
  let function_signature := split_signature (Solution.user_transfer_type solution) in
  _ <~ Some (validate_split_percentages (Solution.swaps solution));
  _ <~ validate_swap_path (Solution.swaps solution) (Solution.token_in solution) (Solution.token_out solution);
  Some (
    let grouped_swaps := group_swaps (Solution.swaps solution) in
    let tokens := tokens_array solution grouped_swaps in
    swaps ← try_fold (push_swap self tokens) [] grouped_swaps;
    let encoded_swaps := ple_encode swaps in
    let tokens_len :=
      if bool_decide (Solution.token_in solution = Solution.token_out solution)
      then (length tokens - 1)%nat else length tokens in
    gas_usage ← estimate_gas_usage solution Split;
    Ok (EncodedSolution.mk encoded_swaps (router_address self) function_signature tokens_len gas_usage)).
End SplitSwapStrategyEncoder.

(** * tycho_encoders.rs *)

Definition wrap_component : ProtocolComponent.t :=
  ProtocolComponent.mk "" "native_wrapper" "" Ethereum [] [] ∅ Update [] 0.

Module TychoRouterEncoder.
Record t := mk {
  chain : Chain;
  single_swap_strategy : SingleSwapStrategyEncoder.t;
  sequential_swap_strategy : SequentialSwapStrategyEncoder.t;
  split_swap_strategy : SplitSwapStrategyEncoder.t
}.

Definition new (chain : Chain) (swap_encoder_registry : SwapEncoderRegistry.t) (router_address : Bytes) : t :=
  mk chain (SingleSwapStrategyEncoder.mk swap_encoder_registry router_address)
    (SequentialSwapStrategyEncoder.mk swap_encoder_registry router_address)
    (SplitSwapStrategyEncoder.mk swap_encoder_registry router_address).

(** One turn of the loop of [validate_solution]: the tokens that the solution goes
    through and the tokens that were split. *)
Definition considered_token (st : list Bytes * gset Bytes) (swap : Swap.t) : list Bytes * gset Bytes :=
  let '(solution_tokens, split_tokens_already_considered) := st in
  let token := Swap.addr_in swap in
  if decide (token ∈ split_tokens_already_considered) then st
  else
    (solution_tokens ++ [token],
     if is_zero_split (Swap.split swap) then split_tokens_already_considered
     else {[token]} ∪ split_tokens_already_considered).

Definition solution_tokens (swaps : list Swap.t) : list Bytes :=
  let '(tokens, _) := foldl considered_token ([], ∅) swaps in
  match last swaps with Some swap => tokens ++ [Swap.addr_out swap] | None => tokens end.

Definition validate_solution (solution : Solution.t) : result EncodingError unit :=
  let swaps := Solution.swaps solution in
  match head swaps, last swaps with
  | Some first_swap, Some last_swap =>
      let tokens := solution_tokens swaps in
      if bool_decide (length tokens ≠ size (list_to_set tokens : gset Bytes)) &&
         bool_decide (Swap.addr_in first_swap ≠ Swap.addr_out last_swap)
      then Err (FatalError "Cyclical swaps are only allowed if they are the first and last token of a solution")
      else Ok tt
  | _, _ => Err (FatalError "No swaps found in solution")
  end.

Section wrapping.
Context (registry : gmap string CustomChainConfig.t).

Definition _wrapping_bridge (token_a token_b : Bytes) (chain : Chain) : result EncodingError (option Swap.t) :=
  native ← native_token registry chain;
  wrapped_native ← wrapped_native_token registry chain;
  Ok (if bool_decide (token_a = Token.address wrapped_native) && bool_decide (token_b = Token.address native)
      then Some (Swap.new wrap_component wrapped_native native 14000)
      else if bool_decide (token_a = Token.address native) && bool_decide (token_b = Token.address wrapped_native)
      then Some (Swap.new wrap_component native wrapped_native 7000)
      else None).

Definition push_bridge (token_a token_b : Bytes) (chain : Chain) (new_swaps : list Swap.t) :
    result EncodingError (list Swap.t) :=
  bridge ← _wrapping_bridge token_a token_b chain;
  Ok (match bridge with Some s => new_swaps ++ [s] | None => new_swaps end).

(** The loop over the swaps: each, and a bridge to the next one if needed. *)
Fixpoint bridge_swaps (chain : Chain) (swaps new_swaps : list Swap.t) : result EncodingError (list Swap.t) :=
  match swaps with
  | [] => Ok new_swaps
  | swap :: rest =>
      let new_swaps := new_swaps ++ [swap] in
      match rest with
      | [] => Ok new_swaps
      | next :: _ =>
          new_swaps ← push_bridge (Swap.addr_out swap) (Swap.addr_in next) chain new_swaps;
          bridge_swaps chain rest new_swaps
      end
  end.

Definition add_native_wrap_swaps (solution : Solution.t) (chain : Chain) : result EncodingError Solution.t :=
  let swaps := Solution.swaps solution in
  first_swap ← unwrap (head swaps);
  new_swaps ← push_bridge (Solution.token_in solution) (Swap.addr_in first_swap) chain [];
  new_swaps ← bridge_swaps chain swaps new_swaps;
  new_swaps ←
    (match last swaps with
     | Some last_swap => push_bridge (Swap.addr_out last_swap) (Solution.token_out solution) chain new_swaps
     | None => Ok new_swaps
     end);
  Ok (Solution.with_swaps new_swaps solution).

Definition encode_solution `{Alloy, HashOrder} (solution : Solution.t) (self : t) :
    timed EncodingError EncodedSolution.t :=
  _ <~ Some (validate_solution solution);
  solution <~ Some (add_native_wrap_swaps solution (chain self));
  let groups := group_swaps (Solution.swaps solution) in
  if bool_decide (length groups = 1%nat) then
    Some (SingleSwapStrategyEncoder.encode_strategy solution (single_swap_strategy self))
  else if forallb (fun swap => is_zero_split (Swap.split swap)) (Solution.swaps solution) then
    SequentialSwapStrategyEncoder.encode_strategy solution (sequential_swap_strategy self)
  else SplitSwapStrategyEncoder.encode_strategy solution (split_swap_strategy self).

Fixpoint encode_solutions `{Alloy, HashOrder} (solutions : list Solution.t) (self : t) :
    timed EncodingError (list EncodedSolution.t) :=
  match solutions with
  | [] => Some (Ok [])
  | solution :: rest =>
      encoded_solution <~ encode_solution solution self;
      encoded <~ encode_solutions rest self;
      Some (Ok (encoded_solution :: encoded))
  end.
End wrapping.
End TychoRouterEncoder.

Module TychoExecutorEncoder.
Record t := mk { swap_encoder_registry : SwapEncoderRegistry.t }.

Definition encode_executor_calldata `{Alloy} (solution : Solution.t) (self : t) :
    result EncodingError EncodedSolution.t :=
  let grouped_swaps := group_swaps (Solution.swaps solution) in
  if (1 <? length grouped_swaps)%nat then Err (InvalidInput "Tycho executor encoder only supports one swap.")
  else
    grouped_swap ← ok_or (head grouped_swaps) (FatalError "Swap grouping failed");
    swap_encoder ← ok_or (SwapEncoderRegistry.get_encoder (SwapGroup.protocol_system grouped_swap)
                            (swap_encoder_registry self)) encoder_not_found;
    '(initial_protocol_data, grouped_protocol_data) ←
      encode_group_swaps swap_encoder (group_context None grouped_swap) (SwapGroup.swaps grouped_swap);
    let protocol_data :=
      match grouped_protocol_data with
      | [] => initial_protocol_data
      | _ => initial_protocol_data ++ ple_encode grouped_protocol_data
      end in
    Ok (EncodedSolution.mk protocol_data (SwapEncoder.executor_address swap_encoder) "" 0
          (SwapGroup.estimated_gas grouped_swap)).

Definition encode_solutions `{Alloy} (solutions : list Solution.t) (self : t) :
    result EncodingError (list EncodedSolution.t) :=
  solution ← ok_or (head solutions) (FatalError "No solutions found");
  encoded_solution ← encode_executor_calldata solution self;
  Ok [encoded_solution].
End TychoExecutorEncoder.

(** * LibPrefixLengthEncodedByteArray.sol: [next], read until the data is used up.  [None]:
    an element would end behind the data. *)
Fixpoint ple_decode (fuel : nat) (encoded : Bytes) : option (list Bytes) :=
  match fuel, encoded with
  | _, [] => Some []
  | O, _ => None
  | S fuel', b1 :: b2 :: rest =>
      let l := Z.to_nat (be_value [b1; b2]) in
      if (length rest <? l)%nat then None
      else cons (take l rest) <$> ple_decode fuel' (drop l rest)
  | S _, [_] => None
  end.

Definition to_array (encoded : Bytes) : option (list Bytes) := ple_decode (length encoded) encoded.
