(* ===== verification/EncodersSpec.v ===== *)
(** Encoders: what the router decodes is, group by group, what the swap encoders produced;
    the token positions of split swaps; wrapping of the native token; and that sound
    solutions are encoded. *)

From Stdlib Require Import Strings.Byte SpecFloat Ascii.
From S2P Require Import Prelude Collections Bytes Models Encoding GroupSwaps GroupSwapsSpec SwapValidators SwapValidatorsSpec Encoders.

Open Scope Z_scope.

(** * Prefix-length encoding *)

(** One entry: its length in two bytes, and itself. *)
Definition ple_entry (data : Bytes) : Bytes := to_be 2 (Z.of_nat (length data)) ++ data.

Lemma z2b_mod z n : (256 | n) → z2b (z mod n) = z2b z.
Proof. intros H. unfold z2b. by rewrite Z.mod_mod_divide. Qed.

Lemma to_be_wrap n z : to_be n (wrap (8 * Z.of_nat n) z) = to_be n z.
Proof.
  unfold wrap. revert z. induction n as [|n IH]; intros z; [done|].
  rewrite Nat2Z.inj_succ. cbn [to_be].
  assert (2 ^ (8 * Z.succ (Z.of_nat n)) = 256 * 2 ^ (8 * Z.of_nat n)) as E.
  { rewrite Z.mul_succ_r, Z.pow_add_r by lia. change (2 ^ 8) with 256. lia. }
  rewrite E. f_equal.
  - rewrite <-(IH (z / 256)). f_equal. rewrite Z.rem_mul_r by lia.
    rewrite (Z.mul_comm 256), Z.div_add by lia. rewrite Z.div_small; [done|]. apply Z.mod_pos_bound. lia.
  - f_equal. apply z2b_mod. by exists (2 ^ (8 * Z.of_nat n)); rewrite Z.mul_comm.
Qed.

Lemma ple_encode_snoc `{AlloyLaws} l d : ple_encode (l ++ [d]) = ple_encode l ++ ple_entry d.
Proof.
  unfold ple_encode at 1. rewrite foldl_snoc. fold (ple_encode l).
  rewrite abi_encode_packed_concat. cbn [fmap list_fmap concat sol_packed]. unfold ple_entry.
  rewrite (to_be_wrap 2), app_nil_r. done.
Qed.

Lemma ple_encode_concat `{AlloyLaws} l : ple_encode l = concat (ple_entry <$> l).
Proof.
  induction l as [|d l IH] using rev_ind; [done|].
  by rewrite ple_encode_snoc, IH, fmap_app, concat_app; simpl; rewrite app_nil_r.
Qed.

Definition fits_prefix (data : Bytes) : Prop := Z.of_nat (length data) < 65536.

Lemma ple_decode_entry fuel d rest :
  fits_prefix d → ple_decode (S fuel) (ple_entry d ++ rest) = cons d <$> ple_decode fuel rest.
Proof.
  intros Hd. unfold ple_entry. rewrite <-app_assoc.
  pose proof (be_value_to_be 2 (Z.of_nat (length d))) as E. pose proof (length_to_be 2 (Z.of_nat (length d))) as Hl.
  destruct (to_be 2 (Z.of_nat (length d))) as [|b1 [|b2 [|]]]; try done.
  rewrite Z.mod_small in E by (unfold fits_prefix in Hd; simpl; lia).
  cbn [app ple_decode]. rewrite E, Nat2Z.id, length_app.
  rewrite (proj2 (Nat.ltb_ge _ _)) by lia. by rewrite take_app_length, drop_app_length.
Qed.

Lemma ple_decode_all l fuel :
  Forall fits_prefix l → (length l ≤ fuel)%nat → ple_decode fuel (concat (ple_entry <$> l)) = Some l.
Proof.
  intros H. revert fuel. induction H as [|d l Hd _ IH]; intros fuel Hf; [by destruct fuel|].
  simpl in Hf. destruct fuel as [|fuel]; [lia|]. cbn [fmap list_fmap concat].
  change (list_fmap Bytes Bytes ple_entry l) with (ple_entry <$> l). rewrite ple_decode_entry by done.
  rewrite IH by lia. done.
Qed.

Lemma ple_entries_length l : (length l ≤ length (concat (ple_entry <$> l)))%nat.
Proof.
  induction l as [|d l IH]; [done|]. rewrite fmap_cons. cbn [concat length]. rewrite length_app.
  unfold ple_entry at 1. rewrite length_app, length_to_be. lia.
Qed.

Lemma to_array_ple `{AlloyLaws} l : Forall fits_prefix l → to_array (ple_encode l) = Some l.
Proof.
  intros Hl. unfold to_array. rewrite ple_encode_concat. apply ple_decode_all; [done|apply ple_entries_length].
Qed.

(** * The data of a group *)

Definition no_loop (s : Swap.t) : Prop := Swap.addr_in s ≠ Swap.addr_out s.

#[global] Instance no_loop_dec s : Decision (no_loop s).
Proof. unfold no_loop. apply _. Defined.

(** Only the first swap of a group starts from the token of the group. *)
Lemma group_rest_token g first rest :
  is_group g → SwapGroup.swaps g = first :: rest → Forall no_loop (SwapGroup.swaps g) →
  SwapGroup.token_in g = Swap.addr_in first ∧ Forall (fun s => Swap.addr_in s ≠ SwapGroup.token_in g) rest.
Proof.
  intros (f & l & Hf & _ & E & Hadj) Es Hn. rewrite Es in *. simpl in Hf. injection Hf as <-.
  assert (SwapGroup.token_in g = Swap.addr_in first) as Ei by (by rewrite E).
  split; [done|]. rewrite Ei. apply Forall_lookup. intros i s Hs.
  destruct i as [|i].
  - destruct (Hadj 0%nat first s eq_refl Hs) as (_ & _ & _ & -> & _). apply Forall_cons in Hn as [Hn _].
    by apply not_eq_sym.
  - destruct (lookup_lt_is_Some_2 rest i) as [p Hp]; [apply lookup_lt_Some in Hs; lia|].
    destruct (Hadj (S i) p s Hp Hs) as (_ & _ & _ & -> & _).
    destruct (lookup_lt_is_Some_2 (first :: rest) i) as [q Hq]; [apply lookup_lt_Some in Hp; simpl; lia|].
    by destruct (Hadj i q p Hq Hp) as (_ & _ & _ & _ & ?).
Qed.

Lemma encode_group_first enc ctx i ds s :
  Swap.addr_in s = EncodingContext.group_token_in ctx →
  encode_group_swap enc ctx (i, ds) s = (d ← SwapEncoder.encode_swap enc s ctx; Ok (d, ds)).
Proof.
  intros Hs. unfold encode_group_swap. rewrite bool_decide_true by done. done.
Qed.

Lemma encode_group_later enc ctx i ds s :
  Swap.addr_in s ≠ EncodingContext.group_token_in ctx →
  encode_group_swap enc ctx (i, ds) s = (d ← SwapEncoder.encode_swap enc s ctx; Ok (i, ds ++ [d])).
Proof.
  intros Hs. unfold encode_group_swap. rewrite bool_decide_false by auto. done.
Qed.

Lemma encode_group_rest enc ctx l i ds :
  Forall (fun s => Swap.addr_in s ≠ EncodingContext.group_token_in ctx) l →
  try_fold (encode_group_swap enc ctx) (i, ds) l =
  (more ← mapM (fun s => SwapEncoder.encode_swap enc s ctx) l; Ok (i, ds ++ more)).
Proof.
  intros H. revert ds. induction H as [|s l Hs _ IH]; intros ds; [cbn; by rewrite app_nil_r|].
  cbn [try_fold mapM]. rewrite encode_group_later by done.
  destruct (SwapEncoder.encode_swap enc s ctx) as [d| |]; simpl; [|done..]. rewrite IH.
  destruct (mapM _ l) as [more| |]; simpl; [by rewrite <-app_assoc|done..].
Qed.

(** The loop over a group keeps the data of its first swap apart and the others in order. *)
Lemma encode_group_swaps_data enc ctx g :
  is_group g → Forall no_loop (SwapGroup.swaps g) → EncodingContext.group_token_in ctx = SwapGroup.token_in g →
  encode_group_swaps enc ctx (SwapGroup.swaps g) =
  (ds ← mapM (fun s => SwapEncoder.encode_swap enc s ctx) (SwapGroup.swaps g); Ok (default [] (head ds), tail ds)).
Proof.
  intros Hg Hn Hctx. destruct (is_group_nonempty g Hg) as (first & rest & Es & _).
  destruct (group_rest_token g first rest Hg Es Hn) as [Ei Hr]. rewrite Es, <-Hctx in *.
  unfold encode_group_swaps. cbn [try_fold mapM]. rewrite encode_group_first by done.
  destruct (SwapEncoder.encode_swap enc first ctx) as [d| |]; simpl; [|done..].
  rewrite encode_group_rest by done.
  by destruct (mapM _ rest).
Qed.

(** What the encoding of a group should be: the executor and the data of the swaps in
    order, the later ones prefixed with their length unless the protocol has fixed-size
    hops. *)
Definition group_calldata `{Alloy} (registry : SwapEncoderRegistry.t) (router_address : Bytes) (g : SwapGroup.t) :
    result EncodingError Bytes :=
  enc ← ok_or (SwapEncoderRegistry.get_encoder (SwapGroup.protocol_system g) registry) encoder_not_found;
  ds ← mapM (fun s => SwapEncoder.encode_swap enc s (group_context (Some router_address) g)) (SwapGroup.swaps g);
  Ok (SwapEncoder.executor_address enc ++ default [] (head ds) ++
      (if contains NON_PLE_ENCODED_PROTOCOLS (SwapGroup.protocol_system g) then concat (tail ds)
       else concat (ple_entry <$> tail ds))).

Lemma foldl_append (d : Bytes) ds : foldl (++) d ds = d ++ concat ds.
Proof. revert d. induction ds as [|x ds IH]; intros d; simpl; [by rewrite app_nil_r|]. by rewrite IH, app_assoc. Qed.

Lemma join_group_data_concat `{AlloyLaws} protocol d ds :
  join_group_data protocol (d, ds) =
  d ++ (if contains NON_PLE_ENCODED_PROTOCOLS protocol then concat ds else concat (ple_entry <$> ds)).
Proof.
  unfold join_group_data. destruct ds as [|x ds]; [case_if; simpl; by rewrite app_nil_r|].
  case_if; [apply foldl_append|by rewrite ple_encode_concat].
Qed.

Lemma encode_group_calldata `{AlloyLaws} registry router_address g :
  is_group g → Forall no_loop (SwapGroup.swaps g) →
  ('(executor, data) ← encode_group registry router_address g; Ok (encode_swap_header executor data)) =
  group_calldata registry router_address g.
Proof.
  intros Hg Hn. unfold encode_group, group_calldata.
  destruct (SwapEncoderRegistry.get_encoder _ _) as [enc|]; simpl; [|done].
  rewrite encode_group_swaps_data by done.
  destruct (mapM _ _) as [ds| |]; cbn [mbind result_bind]; [|done..]. unfold encode_swap_header.
  by rewrite join_group_data_concat.
Qed.

(** * The strategies *)

Lemma group_swaps_no_loop l g :
  Forall no_loop l → g ∈ group_swaps l → is_group g ∧ Forall no_loop (SwapGroup.swaps g).
Proof.
  intros Hl Hg. destruct (group_swaps_grouping l) as (Hc & Hf & _). rewrite <-Hc in Hl.
  rewrite Forall_concat, Forall_fmap in Hl. rewrite Forall_forall in Hf, Hl. split; [by apply Hf|by apply (Hl g)].
Qed.

Lemma sequential_entries `{AlloyLaws} (self : SequentialSwapStrategyEncoder.t) l :
  Forall no_loop l →
  try_fold (SequentialSwapStrategyEncoder.push_swap self) [] (group_swaps l) =
  mapM (group_calldata (SequentialSwapStrategyEncoder.swap_encoder_registry self)
          (SequentialSwapStrategyEncoder.router_address self)) (group_swaps l).
Proof.
  intros Hl. etrans; [apply (try_fold_push _ (group_calldata (SequentialSwapStrategyEncoder.swap_encoder_registry self)
    (SequentialSwapStrategyEncoder.router_address self)))|by destruct (mapM _ _)].
  - intros acc g Hg. destruct (group_swaps_no_loop l g Hl Hg) as [H1 H2].
    rewrite <-encode_group_calldata by done. unfold SequentialSwapStrategyEncoder.push_swap.
    by destruct (encode_group _ _ _) as [[]| |].
Qed.

(** An entry of a split swap: the positions of the tokens, the split, and the group. *)
Definition split_entry `{Alloy} (registry : SwapEncoderRegistry.t) (router_address : Bytes) (tokens : list Bytes)
    (g : SwapGroup.t) : result EncodingError Bytes :=
  data ← group_calldata registry router_address g;
  token_in ← get_token_position tokens (SwapGroup.token_in g);
  token_out ← get_token_position tokens (SwapGroup.token_out g);
  split ← percentage_to_uint24 (SwapGroup.split g);
  Ok (to_be 1 token_in ++ to_be 1 token_out ++ to_be 3 split ++ data).

Lemma split_entries `{AlloyLaws} (self : SplitSwapStrategyEncoder.t) tokens l :
  Forall no_loop l →
  try_fold (SplitSwapStrategyEncoder.push_swap self tokens) [] (group_swaps l) =
  mapM (split_entry (SplitSwapStrategyEncoder.swap_encoder_registry self)
          (SplitSwapStrategyEncoder.router_address self) tokens) (group_swaps l).
Proof.
  intros Hl. etrans; [apply (try_fold_push _ (split_entry (SplitSwapStrategyEncoder.swap_encoder_registry self)
    (SplitSwapStrategyEncoder.router_address self) tokens))|by destruct (mapM _ _)].
  - intros acc g Hg. destruct (group_swaps_no_loop l g Hl Hg) as [H1 H2].
    unfold split_entry. rewrite <-encode_group_calldata by done. unfold SplitSwapStrategyEncoder.push_swap.
    destruct (encode_group _ _ _) as [[]| |]; simpl; [|done..].
    destruct (get_token_position tokens (SwapGroup.token_in g)); simpl; [|done..].
    destruct (get_token_position tokens (SwapGroup.token_out g)); simpl; [|done..].
    by destruct (percentage_to_uint24 (SwapGroup.split g)).
Qed.

(** ** The tokens array of a split swap *)

Lemma insert_token_perm x l : SplitSwapStrategyEncoder.insert_token x l ≡ₚ x :: l.
Proof.
  induction l as [|y l IH]; simpl; [done|]. destruct (bytes_ltb x y); [done|]. rewrite IH. apply perm_swap.
Qed.

Lemma sort_tokens_perm l : foldr SplitSwapStrategyEncoder.insert_token [] l ≡ₚ l.
Proof. induction l as [|x l IH]; simpl; [done|]. by rewrite insert_token_perm, IH. Qed.

(** The tokens between the first and the last are distinct and other than these, and every
    token of a group is in the array. *)
Lemma tokens_array_parts `{HashOrderLaws} solution groups :
  ∃ mid, SplitSwapStrategyEncoder.tokens_array solution groups =
    [Solution.token_in solution] ++ mid ++ [Solution.token_out solution] ∧
  NoDup mid ∧ Solution.token_in solution ∉ mid ∧ Solution.token_out solution ∉ mid ∧
  ∀ g, g ∈ groups → ∀ t, t = SwapGroup.token_in g ∨ t = SwapGroup.token_out g →
    t ∈ SplitSwapStrategyEncoder.tokens_array solution groups.
Proof.
  unfold SplitSwapStrategyEncoder.tokens_array. eexists. split; [done|].
  set (S := list_to_set _ : gset Bytes). set (mid := foldr _ _ _).
  assert (mid ≡ₚ elements (S ∖ {[Solution.token_in solution; Solution.token_out solution]})) as Hm.
  { unfold mid. by rewrite sort_tokens_perm, iter_set_elements. }
  assert (∀ t, t ∈ mid ↔ t ∈ S ∧ t ≠ Solution.token_in solution ∧ t ≠ Solution.token_out solution) as Hin.
  { intros t. rewrite Hm, elem_of_elements. set_solver. }
  split_and!.
  - rewrite Hm. apply NoDup_elements.
  - rewrite Hin. tauto.
  - rewrite Hin. tauto.
  - intros g Hg t Ht. rewrite !elem_of_app, !list_elem_of_singleton, Hin.
    assert (t ∈ S) as HS.
    { unfold S. rewrite elem_of_list_to_set, list_elem_of_bind. exists g. split; [|done].
      destruct Ht as [->| ->]; [left|right; left]. }
    destruct (decide (t = Solution.token_in solution)), (decide (t = Solution.token_out solution)); tauto.
Qed.

Lemma get_token_position_first tokens t a :
  get_token_position tokens t = Ok a →
  ∃ i, a = Z.of_nat i ∧ a < 256 ∧ tokens !! i = Some t ∧ ∀ j, (j < i)%nat → tokens !! j ≠ Some t.
Proof.
  unfold get_token_position. destruct (position _ tokens) as [i|] eqn:E; [|done].
  destruct (Z.ltb_spec (Z.of_nat i) 256); [|done]. intros [= <-]. exists i.
  apply position_spec in E as [(t' & Ht & Hd%bool_decide_eq_true) Hj]. subst t'. split_and!; [done..|].
  intros j Hji Hjt. specialize (Hj j t Hji Hjt). by rewrite bool_decide_true in Hj.
Qed.

(** The last position the router counts: it has no place for the token sold a second time. *)
Definition n_tokens_of (token_in token_out : Bytes) (tokens : list Bytes) : nat :=
  if bool_decide (token_in = token_out) then length tokens - 1 else length tokens.

Lemma first_position token_in token_out mid t i :
  let tokens := [token_in] ++ mid ++ [token_out] in
  token_in ∉ mid → token_out ∉ mid → tokens !! i = Some t → (∀ j, (j < i)%nat → tokens !! j ≠ Some t) →
  (i < n_tokens_of token_in token_out tokens)%nat ∧ (t = token_in ↔ i = 0%nat) ∧
  (t = token_out ↔ i = if bool_decide (token_in = token_out) then 0%nat
                       else (n_tokens_of token_in token_out tokens - 1)%nat).
Proof.
  intros tokens Hin Hout Hi Hfirst.
  assert (length tokens = S (S (length mid))) as Hlen by (unfold tokens; simpl; rewrite length_app; simpl; lia).
  assert (t = token_in ↔ i = 0%nat) as H0.
  { split; [intros ->; destruct i as [|i]; [done|]; by destruct (Hfirst 0%nat ltac:(lia))|intros ->; by injection Hi]. }
  assert (tokens !! S (length mid) = Some token_out) as Hl by (unfold tokens; simpl; by rewrite lookup_app_r, Nat.sub_diag).
  apply lookup_lt_Some in Hi as Hlt. unfold n_tokens_of. case_bool_decide as E; (split_and!; [|done|]).
  - destruct (decide (i = S (length mid))) as [->|]; [|lia]. rewrite Hl in Hi. injection Hi as <-.
    discriminate (proj1 H0 (eq_sym E)).
  - rewrite <-E. exact H0.
  - done.
  - split.
    + intros ->. destruct (decide (i = S (length mid))) as [->|Hn]; [lia|]. destruct i as [|i].
      { injection Hi as ->. done. }
      unfold tokens in Hi. simpl in Hi. rewrite lookup_app_l in Hi by lia. by apply list_elem_of_lookup_2 in Hi.
    + intros Hn. assert (i = S (length mid)) as -> by lia. congruence.
Qed.

(** What the router needs of one entry of a split swap. *)
Definition split_entry_ok `{Alloy} (registry : SwapEncoderRegistry.t) (router_address token_in token_out : Bytes)
    (tokens : list Bytes) (g : SwapGroup.t) (entry : Bytes) : Prop :=
  ∃ i j split data,
    entry = to_be 1 (Z.of_nat i) ++ to_be 1 (Z.of_nat j) ++ to_be 3 split ++ data ∧
    group_calldata registry router_address g = Ok data ∧ percentage_to_uint24 (SwapGroup.split g) = Ok split ∧
    (i < 256)%nat ∧ (j < 256)%nat ∧
    tokens !! i = Some (SwapGroup.token_in g) ∧ tokens !! j = Some (SwapGroup.token_out g) ∧
    (i < n_tokens_of token_in token_out tokens)%nat ∧ (j < n_tokens_of token_in token_out tokens)%nat ∧
    (SwapGroup.token_in g = token_in ↔ i = 0%nat) ∧
    (SwapGroup.token_out g = token_out ↔
       j = if bool_decide (token_in = token_out) then 0%nat else (n_tokens_of token_in token_out tokens - 1)%nat).

Lemma split_entry_positions `{AlloyLaws, HashOrderLaws} registry router_address solution groups g entry :
  split_entry registry router_address (SplitSwapStrategyEncoder.tokens_array solution groups) g = Ok entry →
  split_entry_ok registry router_address (Solution.token_in solution) (Solution.token_out solution)
    (SplitSwapStrategyEncoder.tokens_array solution groups) g entry.
Proof.
  intros H'. unfold split_entry in H'. destruct (tokens_array_parts solution groups) as (mid & ET & _ & Hi & Ho & _).
  rewrite ET in *. inv_ok. rename x into data, x0 into a, x1 into b, x2 into split.
  apply get_token_position_first in E0 as (i & -> & Ha & Hti & Hfi).
  apply get_token_position_first in E1 as (j & -> & Hb & Htj & Hfj).
  destruct (first_position _ _ mid _ _ Hi Ho Hti Hfi) as (? & ? & _).
  destruct (first_position _ _ mid _ _ Hi Ho Htj Hfj) as (? & _ & ?).
  exists i, j, split, data. split_and!; try done; lia.
Qed.

(** * The data of the swap encoders *)

Lemma bytes_to_address_ok b a : bytes_to_address b = Ok a → a = b ∧ length a = 20%nat.
Proof. unfold bytes_to_address. case_bool_decide; [by intros [= <-]|done]. Qed.

Lemma length_pad_or_truncate n b : length (pad_or_truncate_to_size n b) = n.
Proof.
  unfold pad_or_truncate_to_size. destruct (Nat.leb_spec (length b) n).
  - rewrite length_app, length_replicate. lia.
  - rewrite length_drop. lia.
Qed.

Lemma try_into_array_ok n b err a : try_into_array n b err = Ok a → a = b ∧ length a = n.
Proof. unfold try_into_array. case_bool_decide; [by intros [= <-]|done]. Qed.

Lemma length_convert_to_router_token a : length a = 20%nat → length (convert_to_router_token a) = 20%nat.
Proof. unfold convert_to_router_token. by case_bool_decide. Qed.

(** The parts of a byte string, cut at the given lengths. *)
Fixpoint fields (lengths : list nat) (data : Bytes) : list Bytes :=
  match lengths with
  | [] => [data]
  | n :: rest => take n data :: fields rest (drop n data)
  end.

Lemma fields_app n rest (x y : Bytes) : length x = n → fields (n :: rest) (x ++ y) = x :: fields rest y.
Proof. intros <-. cbn [fields]. by rewrite take_app_length, drop_app_length. Qed.

(** * The guarantees *)

(** The router reads back, entry by entry, what was encoded, if every entry is shorter than
    64 KiB; the length of a longer entry is cut to 16 bits and the entry is not read back. *)
Theorem ple_roundtrip `{AlloyLaws} l :
  (Forall fits_prefix l → to_array (ple_encode l) = Some l) ∧
  (∀ d, length d = Z.to_nat 65536 → to_array (ple_encode [d]) ≠ Some [d]).
Proof.
  split; [by apply to_array_ple|]. intros d Hd. unfold to_array. rewrite ple_encode_concat.
  cbn [fmap list_fmap concat]. rewrite app_nil_r. unfold ple_entry. rewrite length_app, length_to_be.
  pose proof (be_value_to_be 2 (Z.of_nat (length d))) as E. pose proof (length_to_be 2 (Z.of_nat (length d))) as Hl.
  destruct (to_be 2 (Z.of_nat (length d))) as [|b1 [|b2 [|]]]; try done.
  rewrite Hd, Z2Nat.id in E by lia. change (65536 mod 256 ^ Z.of_nat 2) with 0 in E.
  change (2 + length d)%nat with (S (S (length d))). cbn [app ple_decode]. rewrite E.
  change (Z.to_nat 0) with 0%nat. cbn [Nat.ltb Nat.leb take drop].
  intros (rest & _ & [= Hnil _])%fmap_Some. apply (f_equal length) in Hnil. rewrite length_take in Hnil. lia.
Qed.

(** The sequential strategy: if no swap goes from a token to itself, the router reads one
    entry per group, in order: the executor registered for the protocol of the group, the
    data of its first swap and the data of the others, prefixed with their length unless the
    protocol has hops of a fixed size. *)
Theorem sequential_calldata `{AlloyLaws, HashOrderLaws} solution self encoded :
  Forall no_loop (Solution.swaps solution) →
  SequentialSwapStrategyEncoder.encode_strategy solution self = Some (Ok encoded) →
  ∃ entries,
    Forall2 (fun g entry => group_calldata (SequentialSwapStrategyEncoder.swap_encoder_registry self)
      (SequentialSwapStrategyEncoder.router_address self) g = Ok entry)
      (group_swaps (Solution.swaps solution)) entries ∧
    EncodedSolution.swaps encoded = ple_encode entries ∧
    (Forall fits_prefix entries → to_array (EncodedSolution.swaps encoded) = Some entries).
Proof.
  intros Hl. unfold SequentialSwapStrategyEncoder.encode_strategy.
  destruct (validate_swap_path _ _ _) as [[[]| |]|]; simpl; intros E; try done. injection E as E.
  rewrite sequential_entries in E by done. inv_ok. exists x. split; [by apply mapM_ok|].
  split; [done|]. apply to_array_ple.
Qed.

(** C24. The split strategy: the router reads one entry per group, in order; its two bytes of
    position index the tokens of the group in the array of tokens, inside the count the
    router is told; the position of the input is 0 exactly for the token sold, and that of
    the output is the one for which the router pays the receiver exactly for the token
    bought: the last one, or 0 if the token bought is the one sold. *)
Theorem split_calldata_positions `{AlloyLaws, HashOrderLaws} solution self encoded :
  Forall no_loop (Solution.swaps solution) →
  SplitSwapStrategyEncoder.encode_strategy solution self = Some (Ok encoded) →
  ∃ entries,
    let tokens := SplitSwapStrategyEncoder.tokens_array solution (group_swaps (Solution.swaps solution)) in
    Forall2 (split_entry_ok (SplitSwapStrategyEncoder.swap_encoder_registry self)
      (SplitSwapStrategyEncoder.router_address self) (Solution.token_in solution) (Solution.token_out solution) tokens)
      (group_swaps (Solution.swaps solution)) entries ∧
    EncodedSolution.n_tokens encoded = n_tokens_of (Solution.token_in solution) (Solution.token_out solution) tokens ∧
    (Forall fits_prefix entries → to_array (EncodedSolution.swaps encoded) = Some entries).
Proof.
  intros Hl. unfold SplitSwapStrategyEncoder.encode_strategy.
  destruct (validate_split_percentages _) as [[]| |]; simpl; intros E; try done.
  destruct (validate_swap_path _ _ _) as [[[]| |]|]; simpl in E; try done. injection E as E.
  rewrite split_entries in E by done. inv_ok. exists x. cbv zeta. split; [|split; [done|apply to_array_ple]].
  apply mapM_ok in E0. eapply Forall2_impl; [exact E0|]. intros g entry. apply split_entry_positions.
Qed.

Lemma to_be_be_value n (b : Bytes) : length b = n → to_be n (be_value b) = b.
Proof.
  revert b; induction n as [|n IH]; intros b Hb; [by destruct b|].
  destruct b as [|x b] using rev_ind; [done|]. clear IHb. rewrite length_app in Hb. simpl in Hb.
  rewrite be_value_snoc. pose proof (b2z_range x). cbn [to_be].
  replace ((be_value b * 256 + b2z x) / 256) with (be_value b) by (rewrite Z.div_add_l, Z.div_small by lia; lia).
  rewrite IH by lia. do 2 f_equal. apply b2z_inj. rewrite b2z_z2b, Z.add_comm, Z_mod_plus_full. apply Z.mod_small. lia.
Qed.

(** Take apart a successful encoding: addresses are the given bytes, 20 of them. *)
Ltac inv_encoded :=
  inv_ok;
  repeat match goal with
  | E : bytes_to_address _ = Ok _ |- _ => apply bytes_to_address_ok in E as [? ?]
  | E : try_into_array _ _ _ = Ok _ |- _ => apply try_into_array_ok in E as [? ?]
  | E : address_from_str _ = Some _ |- _ => pose proof (address_from_str_length _ _ E); revert E
  end; intros; subst;
  rewrite ?abi_encode_packed_concat; cbn [fmap list_fmap sol_packed concat]; rewrite ?app_nil_r.

Lemma static_attribute_address_ok swap name a :
  static_attribute_address swap name = Ok a → get_static_attribute swap name = Ok a ∧ length a = 20%nat.
Proof.
  unfold static_attribute_address. destruct (get_static_attribute swap name) as [v| |]; [|done..].
  cbn [mbind result_bind]. by intros [-> ?]%bytes_to_address_ok.
Qed.

(** The layouts, of data with the fields [fs] of these lengths and nothing after them. *)
Definition layout (lengths : list nat) (data : Bytes) (fs : list Bytes) : Prop :=
  data = concat fs ∧ length <$> fs = lengths.

Lemma layout_fields lengths last data fs :
  layout (lengths ++ [last]) data fs → fields lengths data = fs ∧ length data = (sum_list lengths + last)%nat.
Proof.
  intros [-> Hl]. revert lengths Hl. induction fs as [|f fs IH]; intros lengths Hl; [by destruct lengths|].
  simpl in Hl. destruct lengths as [|n lengths]; simpl in Hl.
  - injection Hl as Hf Hfs. destruct fs; [|done]. simpl. rewrite app_nil_r. by rewrite Hf.
  - injection Hl as Hf Hfs. destruct (IH lengths Hfs) as [H1 H2]. cbn [concat]. split.
    + rewrite fields_app by done. by rewrite H1.
    + rewrite length_app, H2, Hf. simpl. lia.
Qed.

(** C40. The data of the swap encoders for Uniswap v2 and v3, Slipstreams, Aerodrome v1, Balancer v3,
    Ring swap v2, Ekubo and native wrapping is the concatenation of fields of fixed lengths
    and values, from which the executor contracts cut it: 60 bytes for Uniswap v2 (pool, token
    in, token out), 61 for Aerodrome v1 (the same and the direction), 60 for Balancer v3 (token in,
    token out, pool), 64 for Uniswap v3 and Slipstreams (token in, token out, the last three bytes
    of the attribute fee or tick_spacing, filled up with zeros on the left, pool, direction), 100
    for Ring swap v2 (pool, tokens, and the wrapped tokens of the side each is on), 52 for a later
    hop of Ekubo (token out, and the attributes extension, fee and tick_spacing of 20, 8 and 4
    bytes), 72 for the first one, which has the token in before it, and one byte for wrapping.  The
    other encoders are not modelled. *)
Theorem swap_data_layouts `{AlloyLaws} swap ctx data :
  let pool := address_from_str (ProtocolComponent.id (Swap.component swap)) in
  let token_in := Swap.addr_in swap in
  let token_out := Swap.addr_out swap in
  let direction := [if bytes_ltb token_in token_out then x01 else x00] in
  (uniswap_v2_encode_swap swap ctx = Ok data →
   ∃ p, pool = Some p ∧ layout [20; 20; 20]%nat data [p; token_in; token_out]) ∧
  (aerodrome_v1_encode_swap swap ctx = Ok data →
   ∃ p, pool = Some p ∧ layout [20; 20; 20; 1]%nat data [p; token_in; token_out; direction]) ∧
  (balancer_v3_encode_swap swap ctx = Ok data →
   ∃ p, pool = Some p ∧ layout [20; 20; 20]%nat data [token_in; token_out; p]) ∧
  (uniswap_v3_encode_swap swap ctx = Ok data →
   ∃ p fee, pool = Some p ∧ get_static_attribute swap "fee" = Ok fee ∧
     layout [20; 20; 3; 20; 1]%nat data [token_in; token_out; pad_or_truncate_to_size 3 fee; p; direction]) ∧
  (slipstreams_encode_swap swap ctx = Ok data →
   ∃ p spacing, pool = Some p ∧ get_static_attribute swap "tick_spacing" = Ok spacing ∧
     layout [20; 20; 3; 20; 1]%nat data [token_in; token_out; pad_or_truncate_to_size 3 spacing; p; direction]) ∧
  (ring_swap_v2_encode_swap swap ctx = Ok data →
   ∃ p wrapped_in wrapped_out (side : bool), pool = Some p ∧
     let name (b : bool) := if b then "0" else "1" in
     get_static_attribute swap (String.append "underlying_token" (name side)) = Ok token_in ∧
     get_static_attribute swap (String.append "underlying_token" (name (negb side))) = Ok token_out ∧
     get_static_attribute swap (String.append "fw_token" (name side)) = Ok wrapped_in ∧
     get_static_attribute swap (String.append "fw_token" (name (negb side))) = Ok wrapped_out ∧
     layout [20; 20; 20; 20; 20]%nat data [p; token_in; token_out; wrapped_in; wrapped_out]) ∧
  (ekubo_encode_swap swap ctx = Ok data →
   ∃ extension fee spacing, get_static_attribute swap "extension" = Ok extension ∧
     get_static_attribute swap "fee" = Ok fee ∧ get_static_attribute swap "tick_spacing" = Ok spacing ∧
     let hop := [convert_to_router_token token_out; extension; fee; spacing] in
     if bool_decide (EncodingContext.group_token_in ctx = token_in)
     then layout [20; 20; 20; 8; 4]%nat data (convert_to_router_token token_in :: hop)
     else layout [20; 20; 8; 4]%nat data hop) ∧
  (∀ native, wrap_encode_swap native swap ctx = Ok data →
     layout [1]%nat data [[if bool_decide (token_in = native) then x01 else x00]]).
Proof.
  intros pool token_in token_out direction. subst pool token_in token_out direction.
  unfold layout. split_and!.
  - intros E. unfold uniswap_v2_encode_swap in E. inv_encoded. eexists. split_and!; [reflexivity|by cbn [concat]; rewrite ?app_nil_r|cbn [length]; congruence].
  - intros E. unfold aerodrome_v1_encode_swap in E. inv_encoded. eexists. split_and!; [reflexivity|by cbn [concat]; rewrite ?app_nil_r|cbn [length]; congruence].
  - intros E. unfold balancer_v3_encode_swap in E. inv_encoded. eexists. split_and!; [reflexivity|by cbn [concat]; rewrite ?app_nil_r|cbn [length]; congruence].
  - intros E. unfold uniswap_v3_encode_swap in E. inv_encoded. eexists _, _. split_and!; [reflexivity|reflexivity|by cbn [concat]; rewrite ?app_nil_r|].
    rewrite length_pad_or_truncate. cbn [length]. congruence.
  - intros E. unfold slipstreams_encode_swap in E. inv_encoded. eexists _, _. split_and!; [reflexivity|reflexivity|by cbn [concat]; rewrite ?app_nil_r|].
    rewrite length_pad_or_truncate. cbn [length]. congruence.
  - intros E. unfold ring_swap_v2_encode_swap in E. inv_encoded.
    repeat match goal with E : static_attribute_address _ _ = Ok _ |- _ => apply static_attribute_address_ok in E as [? ?] end.
    match goal with E : (if _ then _ else _) = Ok ?x |- _ =>
      destruct x as [wrapped_in wrapped_out]; rename E into Hside end.
    injection E as <-. rewrite abi_encode_packed_concat. cbn [fmap list_fmap sol_packed concat].
    destruct (bool_decide _ && bool_decide _) eqn:Eside; [|clear Eside; destruct (bool_decide _ && bool_decide _) eqn:Eside; [|done]];
      apply andb_true_iff in Eside as [Ein%bool_decide_eq_true Eout%bool_decide_eq_true]; injection Hside as <- <-; subst.
    + eexists _, _, _, true. split_and!; first [reflexivity|eassumption|congruence].
    + eexists _, _, _, false. split_and!; first [reflexivity|eassumption|congruence].
  - intros E. unfold ekubo_encode_swap in E. inv_encoded.
    eexists _, _, _. split_and!; [reflexivity..|]. rewrite !to_be_be_value by done.
    match goal with E : (if _ then _ else _) = Ok _ |- _ => rename E into Hfirst end.
    pose proof (length_convert_to_router_token (Swap.addr_out swap)) as Hout.
    case_bool_decide; inv_encoded; rewrite ?app_nil_r; (split; [done|]).
    + rewrite (length_convert_to_router_token (Swap.addr_in swap)), Hout by done. congruence.
    + rewrite Hout by done. congruence.
  - intros native [= <-]. by rewrite abi_encode_packed_concat.
Qed.

(** * Examples *)

(** A swap encoder that writes the two tokens. *)
Definition example_encoder : SwapEncoder.t :=
  SwapEncoder.mk (fun s _ => Ok (Swap.addr_in s ++ Swap.addr_out s)) (to_be 20 77).

Definition example_registry : SwapEncoderRegistry.t :=
  SwapEncoderRegistry.register_encoder "uniswap_v2" example_encoder
    (SwapEncoderRegistry.register_encoder "ekubo_v2" example_encoder
      (SwapEncoderRegistry.register_encoder "native_wrapper" example_encoder (SwapEncoderRegistry.new Ethereum))).

Definition example_solution (from to : Z) (swaps : list Swap.t) : Solution.t :=
  Solution.new [] [] (to_be 20 from) (to_be 20 to) 1000 1 swaps.

Lemma ple_roundtrip_witness :
  @to_array (@ple_encode alloy_model [[x01; x02]; []; [x03]]) = Some [[x01; x02]; []; [x03]].
Proof.
  apply (proj1 (@ple_roundtrip alloy_model alloy_model_laws [[x01; x02]; []; [x03]])).
  repeat constructor.
Defined.

Definition example_route : Solution.t :=
  example_solution 3 5 [example_swap "uniswap_v2" 3 4; example_swap "uniswap_v2" 4 5].

Lemma example_route_no_loop : Forall no_loop (Solution.swaps example_route).
Proof. apply (bool_decide_unpack _). vm_compute. exact I. Qed.

Lemma sequential_calldata_witness :
  ∃ encoded entries, @SequentialSwapStrategyEncoder.encode_strategy alloy_model canonical_order
      example_route (SequentialSwapStrategyEncoder.mk example_registry []) = Some (Ok encoded) ∧
    EncodedSolution.swaps encoded = @ple_encode alloy_model entries.
Proof.
  assert (∃ encoded, @SequentialSwapStrategyEncoder.encode_strategy alloy_model canonical_order
      example_route (SequentialSwapStrategyEncoder.mk example_registry []) = Some (Ok encoded)) as [encoded H]
    by (eexists; vm_compute; reflexivity).
  destruct (@sequential_calldata alloy_model alloy_model_laws canonical_order canonical_order_laws _ _ _
    example_route_no_loop H) as (entries & _ & H2 & _).
  exists encoded, entries. exact (conj H H2).
Defined.

(** A quarter to one pool, the remainder to another. *)
Definition f64_quarter : f64 := S754_finite false 4503599627370496 (-54).

Definition example_split : Solution.t :=
  example_solution 3 4 [Swap.with_split f64_quarter (example_swap "uniswap_v2" 3 4); example_swap "uniswap_v2" 3 4].

Lemma example_split_no_loop : Forall no_loop (Solution.swaps example_split).
Proof. apply (bool_decide_unpack _). vm_compute. exact I. Qed.

Lemma split_calldata_positions_witness :
  ∃ encoded, @SplitSwapStrategyEncoder.encode_strategy alloy_model canonical_order
      example_split (SplitSwapStrategyEncoder.mk example_registry []) = Some (Ok encoded) ∧
    EncodedSolution.n_tokens encoded = 2%nat.
Proof.
  assert (∃ encoded, @SplitSwapStrategyEncoder.encode_strategy alloy_model canonical_order
      example_split (SplitSwapStrategyEncoder.mk example_registry []) = Some (Ok encoded)) as [encoded H]
    by (eexists; vm_compute; reflexivity).
  destruct (@split_calldata_positions alloy_model alloy_model_laws canonical_order canonical_order_laws _ _ _
    example_split_no_loop H) as (entries & _ & H2 & _).
  exists encoded. split; [exact H|]. rewrite H2. vm_compute. reflexivity.
Defined.

(** * Splits that the validation lets through *)

Definition f64_tiny : f64 := S754_finite false 4503599627370496 (-78).

(** A share of less than one in [2 * 16777215] is accepted but encoded as 0, which the router
    takes for all that remains. *)
Lemma tiny_split_encoded_as_remainder `{AlloyLaws} :
  @validate_split_percentages canonical_order
    [Swap.with_split f64_tiny (example_swap "uniswap_v2" 3 4); example_swap "uniswap_v2" 3 4] = Ok tt ∧
  is_zero_split f64_tiny = false ∧ percentage_to_uint24 f64_tiny = Ok 0.
Proof.
  split; [vm_compute; reflexivity|]. split; [reflexivity|]. unfold percentage_to_uint24.
  replace (f64_round _) with (S754_zero false) by (vm_compute; reflexivity). by rewrite u24_from_f64_zero.
Qed.

(** A share that is not a number is accepted, and encoding it unwinds. *)
Lemma nan_split_unwinds `{AlloyLaws} :
  @validate_split_percentages canonical_order
    [Swap.with_split S754_nan (example_swap "uniswap_v2" 3 4); example_swap "uniswap_v2" 3 4] = Ok tt ∧
  percentage_to_uint24 S754_nan = Panic.
Proof.
  split; [vm_compute; reflexivity|]. unfold percentage_to_uint24.
  replace (f64_round _) with S754_nan by (vm_compute; reflexivity). by rewrite u24_from_f64_nan.
Qed.

Definition example_pool_swap : Swap.t :=
  Swap.new (ProtocolComponent.mk "0x88e6A0c2dDD26FEEb64F039a2c41296FcB3f5640" "uniswap_v3" "" Ethereum [] []
    {["fee" := [x01; xf4]]} Creation [] 0) (example_token 3) (example_token 4) 100000.

Lemma swap_data_layouts_witness :
  ∃ data pool, @uniswap_v3_encode_swap alloy_model example_pool_swap (EncodingContext.mk None [] []) = Ok data ∧
    fields [20; 20; 3; 20]%nat data = [to_be 20 3; to_be 20 4; [x00; x01; xf4]; pool; [x01]].
Proof.
  assert (∃ data, @uniswap_v3_encode_swap alloy_model example_pool_swap (EncodingContext.mk None [] []) = Ok data)
    as [data H] by (eexists; vm_compute; reflexivity).
  destruct (@swap_data_layouts alloy_model alloy_model_laws example_pool_swap (EncodingContext.mk None [] []) data)
    as (_ & _ & _ & H3 & _).
  destruct (H3 H) as (pool & fee & _ & Hfee & Hl).
  exists data, pool. split; [exact H|]. injection Hfee as <-.
  apply (layout_fields [20; 20; 3; 20]%nat 1) in Hl as [-> _]. vm_compute. reflexivity.
Defined.
