(* ===== verification/RouterSpec.v ===== *)
(** The router's encoder: wrapping of the native token, solutions that are encoded, what the
    signature offset means, and the executor's encoder compared with it. *)

From Stdlib Require Import Strings.Byte SpecFloat Ascii.
From S2P Require Import Prelude Collections Bytes Models Encoding GroupSwaps GroupSwapsSpec SwapValidators SwapValidatorsSpec Encoders EncodersSpec.

Open Scope Z_scope.

(** * Bridging native and wrapped tokens *)

(** The swaps lead from [a] to [b], each starting where the one before it ends. *)
Fixpoint connects (a : Bytes) (swaps : list Swap.t) (b : Bytes) : Prop :=
  match swaps with
  | [] => a = b
  | s :: rest => Swap.addr_in s = a ∧ connects (Swap.addr_out s) rest b
  end.

Section bridging.
Context (native wrapped : Token.t).

(** [b] is [a], or one is the native token and the other its wrapped form. *)
Definition same_asset (a b : Bytes) : Prop :=
  a = b ∨ (a = Token.address native ∧ b = Token.address wrapped) ∨
  (a = Token.address wrapped ∧ b = Token.address native).

(** The swaps lead from [a] to [b] if native and wrapped token count as one. *)
Fixpoint connects_assets (a : Bytes) (swaps : list Swap.t) (b : Bytes) : Prop :=
  match swaps with
  | [] => same_asset a b
  | s :: rest => same_asset a (Swap.addr_in s) ∧ connects_assets (Swap.addr_out s) rest b
  end.

Definition wraps : Swap.t := Swap.new wrap_component native wrapped 7000.
Definition unwraps : Swap.t := Swap.new wrap_component wrapped native 14000.

(** The bridge from [a] to [b], if there is one. *)
Definition link (a b : Bytes) : list Swap.t :=
  if bool_decide (a = Token.address wrapped ∧ b = Token.address native) then [unwraps]
  else if bool_decide (a = Token.address native ∧ b = Token.address wrapped) then [wraps]
  else [].

Fixpoint bridged (a : Bytes) (swaps : list Swap.t) (b : Bytes) : list Swap.t :=
  match swaps with
  | [] => link a b
  | s :: rest => link a (Swap.addr_in s) ++ s :: bridged (Swap.addr_out s) rest b
  end.

Context (registry : gmap string CustomChainConfig.t) (chain : Chain).
Context (Hnative : try_native_token registry chain = Some native).
Context (Hwrapped : try_wrapped_native_token registry chain = Some wrapped).

Lemma push_bridge_link a b l :
  TychoRouterEncoder.push_bridge registry a b chain l = Ok (l ++ link a b).
Proof using Hnative Hwrapped.
  unfold TychoRouterEncoder.push_bridge, TychoRouterEncoder._wrapping_bridge, native_token, wrapped_native_token, link.
  rewrite Hnative, Hwrapped. simpl. repeat case_bool_decide; simpl; try tauto; by rewrite ?app_nil_r.
Qed.

(** The loop and the bridge after it. *)
Lemma bridge_swaps_bridged swaps s acc b :
  (new ← TychoRouterEncoder.bridge_swaps registry chain (s :: swaps) acc;
   match last (s :: swaps) with
   | Some l => TychoRouterEncoder.push_bridge registry (Swap.addr_out l) b chain new
   | None => Ok new
   end) = Ok (acc ++ s :: bridged (Swap.addr_out s) swaps b).
Proof using Hnative Hwrapped.
  revert s acc. induction swaps as [|s' swaps IH]; intros s acc.
  - cbn [TychoRouterEncoder.bridge_swaps last bridged]. cbn [mbind result_bind].
    by rewrite push_bridge_link, <-app_assoc.
  - cbn [TychoRouterEncoder.bridge_swaps]. rewrite push_bridge_link. cbn [mbind result_bind].
    specialize (IH s' ((acc ++ [s]) ++ link (Swap.addr_out s) (Swap.addr_in s'))).
    cbn [TychoRouterEncoder.bridge_swaps last] in *. rewrite IH. cbn [bridged].
    by rewrite <-!app_assoc.
Qed.

Lemma add_native_wrap_bridged solution :
  Solution.swaps solution ≠ [] →
  TychoRouterEncoder.add_native_wrap_swaps registry solution chain =
  Ok (Solution.with_swaps
    (bridged (Solution.token_in solution) (Solution.swaps solution) (Solution.token_out solution)) solution).
Proof using Hnative Hwrapped.
  intros Hn. unfold TychoRouterEncoder.add_native_wrap_swaps.
  destruct (Solution.swaps solution) as [|s swaps]; [done|]. cbn [head unwrap mbind result_bind].
  rewrite push_bridge_link. cbn [mbind result_bind app].
  pose proof (bridge_swaps_bridged swaps s (link (Solution.token_in solution) (Swap.addr_in s)) (Solution.token_out solution)) as H.
  destruct (TychoRouterEncoder.bridge_swaps registry chain (s :: swaps) _) as [new| |]; simpl in H |- *; [|done..].
  change (match swaps with [] => Some s | _ => last swaps end) with (last (s :: swaps)) in *.
  destruct (last (s :: swaps)) as [l|]; [rewrite H; done|]. injection H as ->. done.
Qed.

Lemma bridged_sublist a swaps b : swaps `sublist_of` bridged a swaps b.
Proof.
  revert a. induction swaps as [|s swaps IH]; intros a; cbn [bridged]; [apply sublist_nil_l|].
  apply sublist_inserts_l. by apply sublist_skip.
Qed.

Lemma bridged_new a swaps b s : s ∈ bridged a swaps b → s ∈ swaps ∨ s = wraps ∨ s = unwraps.
Proof.
  assert (∀ a b, s ∈ link a b → s = wraps ∨ s = unwraps) as Hl.
  { intros a' b'. unfold link. repeat case_bool_decide; rewrite ?list_elem_of_singleton, ?elem_of_nil; tauto. }
  revert a. induction swaps as [|s' swaps IH]; intros a; cbn [bridged]; [intros H; right; by eapply Hl|].
  rewrite elem_of_app, !elem_of_cons. intros [H|[H|H]]; [right; by eapply Hl|auto|].
  destruct (IH _ H); auto.
Qed.

Context (Hne : Token.address native ≠ Token.address wrapped).

Lemma link_same a : link a a = [].
Proof using Hne. unfold link. repeat case_bool_decide; naive_solver. Qed.

Lemma connects_app a l1 b l2 c : connects a l1 b → connects b l2 c → connects a (l1 ++ l2) c.
Proof. revert a. induction l1 as [|s l1 IH]; intros a; simpl; [by intros ->|]. intros [? ?] ?. auto. Qed.

Lemma connects_link a b : same_asset a b → connects a (link a b) b.
Proof using Hne.
  intros [->|[[-> ->]|[-> ->]]]; [by rewrite link_same|unfold link..].
  - rewrite bool_decide_false by naive_solver. by rewrite bool_decide_true.
  - by rewrite bool_decide_true.
Qed.

Lemma connects_bridged a swaps b : connects_assets a swaps b → connects a (bridged a swaps b) b.
Proof using Hne.
  revert a. induction swaps as [|s swaps IH]; intros a; cbn [connects_assets bridged]; [apply connects_link|].
  intros [H1 H2]. eapply connects_app; [by apply connects_link|]. simpl. auto.
Qed.

Lemma bridged_connected a swaps b : connects a swaps b → bridged a swaps b = swaps.
Proof using Hne.
  revert a. induction swaps as [|s swaps IH]; intros a; cbn [connects bridged]; [intros ->; apply link_same|].
  intros [<- H]. by rewrite link_same, IH.
Qed.
End bridging.

(** * Connected swaps are a valid path *)

Lemma connects_reaches swaps a b l :
  connects a l b → (∀ s, s ∈ l → s ∈ swaps) →
  reaches swaps a b ∧ ∀ s, s ∈ l → reaches swaps a (Swap.addr_in s) ∧ reaches swaps a (Swap.addr_out s).
Proof.
  revert a. induction l as [|s l IH]; intros a; simpl.
  { intros -> _. split; [apply rtc_refl|]. intros s Hs. by apply elem_of_nil in Hs. }
  intros [<- Hc] Hsub. destruct (IH (Swap.addr_out s) Hc) as [H1 H2]; [intros; apply Hsub; by right|].
  assert (flows swaps (Swap.addr_in s) (Swap.addr_out s)) as Hf by (exists s; split; [apply Hsub; by left|done]).
  split; [by eapply rtc_l|]. intros s' [->|Hs]%elem_of_cons.
  - split; [apply rtc_refl|by apply rtc_once].
  - destruct (H2 s' Hs). split; by eapply rtc_l.
Qed.

Lemma connected_path_valid `{HashOrderLaws} swaps a b :
  swaps ≠ [] → connects a swaps b → validate_swap_path swaps a b = Some (Ok tt).
Proof.
  intros Hn Hc. destruct (connects_reaches swaps a b swaps Hc ltac:(done)) as [H1 H2].
  assert (a ∈ all_tokens swaps) as Ha.
  { destruct swaps as [|s swaps]; [done|]. destruct Hc as [<- _]. apply all_tokens_spec.
    exists s. split; [by left|by left]. }
  destruct (swap_path_decision swaps a b Ha) as (r & -> & Hok & _). f_equal. apply Hok. split; [done|].
  intros t (s & Hs & [-> | ->])%all_tokens_spec; by apply H2.
Qed.

(** * Solutions that are encoded *)

(** The swap encoder of its protocol encodes the swap, whatever group it is in. *)
Definition encodable (registry : SwapEncoderRegistry.t) (s : Swap.t) : Prop :=
  ∃ enc, SwapEncoderRegistry.get_encoder (normalize_protocol (Swap.protocol s)) registry = Some enc ∧
    ∀ ctx, ∃ data, SwapEncoder.encode_swap enc s ctx = Ok data.

Lemma group_protocol g s :
  is_group g → s ∈ SwapGroup.swaps g → normalize_protocol (Swap.protocol s) = SwapGroup.protocol_system g.
Proof.
  intros (f & l & Hf & _ & -> & Hadj) Hs. simpl in *. apply list_elem_of_lookup in Hs as [i Hi].
  revert s Hi. induction i as [|i IH]; intros s Hi.
  - rewrite <-head_lookup in Hi. congruence.
  - destruct (lookup_lt_is_Some_2 (SwapGroup.swaps g) i) as [p Hp]; [apply lookup_lt_Some in Hi; lia|].
    destruct (Hadj i p s Hp Hi) as (-> & _). by apply IH.
Qed.

Lemma encode_group_total `{Alloy} registry router_address g :
  is_group g → Forall (encodable registry) (SwapGroup.swaps g) →
  ∃ r, encode_group registry router_address g = Ok r.
Proof.
  intros Hg He. destruct (is_group_nonempty g Hg) as (s & rest & Es & _).
  rewrite Forall_forall in He. destruct (He s) as (enc & Henc & _); [rewrite Es; by left|].
  rewrite (group_protocol g s Hg) in Henc by (rewrite Es; by left). unfold encode_group. rewrite Henc. simpl.
  destruct (try_fold_total (encode_group_swap enc (group_context (Some router_address) g)) ([], []) (SwapGroup.swaps g)) as [data Hd].
  - intros [i ds] x Hx. destruct (He x Hx) as (enc' & Henc' & Hok).
    rewrite (group_protocol g x Hg Hx), Henc in Henc'. injection Henc' as <-.
    unfold encode_group_swap. destruct (Hok (group_context (Some router_address) g)) as [d ->]. by eexists.
  - unfold encode_group_swaps. rewrite Hd. by eexists.
Qed.

Section encoding.
Context `{Alloy, HashOrderLaws} (registry : SwapEncoderRegistry.t) (router_address : Bytes).

Lemma groups_encodable l g :
  Forall (encodable registry) l → g ∈ group_swaps l → ∃ r, encode_group registry router_address g = Ok r.
Proof.
  intros Hl Hg. destruct (group_swaps_grouping l) as (Hc & Hf & _). rewrite <-Hc in Hl.
  rewrite Forall_concat, Forall_fmap in Hl. rewrite Forall_forall in Hf, Hl.
  apply encode_group_total; [by apply Hf|by apply (Hl g)].
Qed.

Lemma sequential_total solution :
  Solution.swaps solution ≠ [] → Forall (encodable registry) (Solution.swaps solution) →
  connects (Solution.token_in solution) (Solution.swaps solution) (Solution.token_out solution) →
  ∃ encoded, SequentialSwapStrategyEncoder.encode_strategy solution
    (SequentialSwapStrategyEncoder.mk registry router_address) = Some (Ok encoded).
Proof.
  intros Hn He Hc. unfold SequentialSwapStrategyEncoder.encode_strategy.
  rewrite connected_path_valid by done. simpl.
  destruct (try_fold_total (SequentialSwapStrategyEncoder.push_swap (SequentialSwapStrategyEncoder.mk registry router_address))
    [] (group_swaps (Solution.swaps solution))) as [swaps ->].
  - intros acc g Hg. unfold SequentialSwapStrategyEncoder.push_swap. simpl.
    destruct (groups_encodable _ g He Hg) as [[x d] ->]. by eexists.
  - destruct (estimate_total (E := EncodingError) solution Sequential) as (p & f & -> & _). by eexists.
Qed.

Lemma single_total solution g :
  group_swaps (Solution.swaps solution) = [g] → Forall (encodable registry) (Solution.swaps solution) →
  Forall (fun s => is_zero_split (Swap.split s) = true) (Solution.swaps solution) →
  ∃ encoded, SingleSwapStrategyEncoder.encode_strategy solution
    (SingleSwapStrategyEncoder.mk registry router_address) = Ok encoded.
Proof.
  intros Eg He Hz. unfold SingleSwapStrategyEncoder.encode_strategy.
  destruct (groups_encodable _ g He) as [[x d] Hx]; [rewrite Eg; by left|].
  pose proof (group_swaps_grouping (Solution.swaps solution)) as (Hc & Hf & _). rewrite Eg in *.
  apply Forall_cons in Hf as [(f & l & Hhd & _ & E & _) _].
  assert (is_zero_split (SwapGroup.split g) = true) as ->.
  { rewrite E. simpl in Hc |- *. rewrite app_nil_r in Hc. rewrite <-Hc in Hz.
    destruct (SwapGroup.swaps g); [done|]. injection Hhd as ->. by apply Forall_cons in Hz as [? _]. }
  simpl. rewrite Hx. simpl.
  destruct (estimate_total (E := EncodingError) solution Single) as (p & fe & -> & _). by eexists.
Qed.
End encoding.

(** * The offset of the client's signature *)

(** The words that the parameters of a signature take in the head of the call data: a
    static type takes one, a static tuple those of its members, [bytes] and a tuple with
    [bytes] inside one, for their offset.  The stack has the words and whether there was
    [bytes] so far of every parenthesis that is open. *)
Definition end_token (token : string) (frame : Z * bool) : Z * bool :=
  match token with
  | EmptyString => frame
  | _ => (frame.1 + 1, frame.2 || String.eqb token "bytes")
  end.

Fixpoint count_words (s token : string) (stack : list (Z * bool)) : Z :=
  match s, stack with
  | String c s', frame :: frames =>
      if Ascii.eqb c "(" then count_words s' "" ((0, false) :: stack)
      else if Ascii.eqb c "," then count_words s' "" (end_token token frame :: frames)
      else if Ascii.eqb c ")" then
        let '(words, dynamic) := end_token token frame in
        match frames with
        | [] => words
        | (words', dynamic') :: frames' =>
            count_words s' "" ((words' + (if dynamic then 1 else words), dynamic' || dynamic) :: frames')
        end
      else count_words s' (token ++ String c EmptyString) stack
  | _, _ => 0
  end.

Fixpoint parameters (s : string) : string :=
  match s with
  | EmptyString => EmptyString
  | String c s' => if Ascii.eqb c "(" then s' else parameters s'
  end.

Definition head_words (signature : string) : Z := count_words (parameters signature) "" [(0, false)].

(** The signature comes after the selector, the head, the five words of the head of the
    fee parameters, which are the first to be laid out after the head, and its length. *)
Definition signature_offset (signature : string) : Z := 4 + 32 * head_words signature + 32 * 5 + 32.

Lemma strategy_signature_offset encoded ty :
  EncodedSolution.function_signature encoded ∈ [single_signature ty; sequential_signature ty; split_signature ty] →
  EncodedSolution.client_fee_signature_offset encoded =
  signature_offset (EncodedSolution.function_signature encoded).
Proof.
  unfold EncodedSolution.client_fee_signature_offset. rewrite !elem_of_cons, elem_of_nil.
  intros [->|[->|[->|[]]]]; destruct ty; vm_compute; reflexivity.
Qed.

Lemma encoded_signature `{Alloy, HashOrder} registry solution self encoded :
  TychoRouterEncoder.encode_solution registry solution self = Some (Ok encoded) →
  ∃ ty, EncodedSolution.function_signature encoded ∈ [single_signature ty; sequential_signature ty; split_signature ty].
Proof.
  unfold TychoRouterEncoder.encode_solution. destruct (TychoRouterEncoder.validate_solution solution) as [[]| |]; simpl; try done.
  destruct (TychoRouterEncoder.add_native_wrap_swaps _ _ _) as [sol| |]; simpl; try done.
  case_bool_decide; [|case_if].
  - unfold SingleSwapStrategyEncoder.encode_strategy. intros E. injection E as E.
    destruct (group_swaps _) as [|g [|]]; try done. destruct (negb _); [done|]. inv_ok. destruct x. inv_ok.
    eexists. simpl. left.
  - unfold SequentialSwapStrategyEncoder.encode_strategy.
    destruct (validate_swap_path _ _ _) as [[[]| |]|]; simpl; intros E; try done. injection E as E. inv_ok.
    eexists. simpl. right. left.
  - unfold SplitSwapStrategyEncoder.encode_strategy.
    destruct (validate_split_percentages _) as [[]| |]; simpl; try done.
    destruct (validate_swap_path _ _ _) as [[[]| |]|]; simpl; intros E; try done. injection E as E. inv_ok.
    eexists. simpl. right. right. left.
Qed.

(** * The guarantees *)

(** Bridging: a solution of at least one swap keeps its swaps in order, and only wrapping or
    unwrapping swaps are added.  If the swaps connect the token sold with the token bought
    up to wrapping, they connect them after bridging; if they connect them as they are,
    nothing is added. *)
Theorem native_wraps_connect registry chain native wrapped solution :
  try_native_token registry chain = Some native → try_wrapped_native_token registry chain = Some wrapped →
  Token.address native ≠ Token.address wrapped → Solution.swaps solution ≠ [] →
  ∃ new, TychoRouterEncoder.add_native_wrap_swaps registry solution chain = Ok (Solution.with_swaps new solution) ∧
    Solution.swaps solution `sublist_of` new ∧
    (∀ s, s ∈ new → s ∈ Solution.swaps solution ∨ s = wraps native wrapped ∨ s = unwraps native wrapped) ∧
    (connects_assets native wrapped (Solution.token_in solution) (Solution.swaps solution) (Solution.token_out solution) →
     connects (Solution.token_in solution) new (Solution.token_out solution)) ∧
    (connects (Solution.token_in solution) (Solution.swaps solution) (Solution.token_out solution) →
     new = Solution.swaps solution).
Proof.
  intros Hn Hw Hne Hs.
  exists (bridged native wrapped (Solution.token_in solution) (Solution.swaps solution) (Solution.token_out solution)).
  split_and!.
  - by apply add_native_wrap_bridged.
  - apply bridged_sublist.
  - intros s. apply bridged_new.
  - by apply connects_bridged.
  - by apply bridged_connected.
Qed.

(** C20. A valid solution without splits, whose swaps connect the token sold with the token
    bought up to wrapping of the native token, is encoded if the registered encoders encode its
    swaps and those that wrap and unwrap the native token, which the chain has and which differs
    from its wrapped token: grouping, bridging, validation of the path and the choice of the
    strategy never get in the way. *)
Theorem connected_solution_encoded `{AlloyLaws, HashOrderLaws} custom_chains chain native wrapped registry router_address solution :
  try_native_token custom_chains chain = Some native → try_wrapped_native_token custom_chains chain = Some wrapped →
  Token.address native ≠ Token.address wrapped →
  TychoRouterEncoder.validate_solution solution = Ok tt →
  connects_assets native wrapped (Solution.token_in solution) (Solution.swaps solution) (Solution.token_out solution) →
  Forall (fun s => is_zero_split (Swap.split s) = true) (Solution.swaps solution) →
  Forall (encodable registry) (wraps native wrapped :: unwraps native wrapped :: Solution.swaps solution) →
  ∃ encoded, TychoRouterEncoder.encode_solution custom_chains solution
    (TychoRouterEncoder.new chain registry router_address) = Some (Ok encoded).
Proof.
  intros Hn Hw Hne Hv Hc Hz He. unfold TychoRouterEncoder.encode_solution. rewrite Hv. simpl.
  assert (Solution.swaps solution ≠ []) as Hs.
  { unfold TychoRouterEncoder.validate_solution in Hv. by destruct (Solution.swaps solution). }
  rewrite (add_native_wrap_bridged native wrapped) by done. simpl.
  set (new := bridged native wrapped _ _ _).
  assert (∀ s, s ∈ new → encodable registry s ∧ is_zero_split (Swap.split s) = true) as Hnew.
  { apply Forall_cons in He as [Hwr [Hun He]%Forall_cons]. rewrite Forall_forall in He, Hz.
    intros s Hin. apply bridged_new in Hin as [Hin|[->| ->]]; auto. }
  assert (Forall (encodable registry) new ∧ Forall (fun s => is_zero_split (Swap.split s) = true) new) as [He' Hz']
    by (rewrite !Forall_forall; naive_solver).
  assert (new ≠ []) as Hne'.
  { intros E. pose proof (bridged_sublist native wrapped (Solution.token_in solution) (Solution.swaps solution) (Solution.token_out solution)) as Hsub.
    fold new in Hsub. rewrite E in Hsub. by apply sublist_nil_r in Hsub. }
  case_bool_decide as Hlen.
  - destruct (group_swaps new) as [|g [|]] eqn:Eg; try done.
    destruct (single_total registry router_address (Solution.with_swaps new solution) g) as [e ->]; [done..|]. by eexists.
  - assert (forallb (fun swap => is_zero_split (Swap.split swap)) new = true) as ->.
    { apply forallb_forall. intros s Hin. apply Hnew. by apply list_elem_of_In. }
    apply sequential_total; [done..|]. by apply connects_bridged.
Qed.

(** The offset at which a client finds its fee signature is right for every solution that
    is encoded: it is the one that the parameters of the function signature give. *)
Theorem signature_offset_matches `{AlloyLaws, HashOrderLaws} custom_chains solution self encoded :
  TychoRouterEncoder.encode_solution custom_chains solution self = Some (Ok encoded) →
  EncodedSolution.client_fee_signature_offset encoded =
  signature_offset (EncodedSolution.function_signature encoded).
Proof. intros [ty Hty]%encoded_signature. by eapply strategy_signature_offset. Qed.

(** The executor's encoder and the router's agree on the data of a group if the protocol
    prefixes hops with their length or the group is one swap, and only then: for the
    protocols with hops of a fixed size the executor's encoder adds the prefixes that the
    router's leaves out. *)
Theorem executor_data_agrees `{AlloyLaws} solution g registry router_address enc d ds :
  group_swaps (Solution.swaps solution) = [g] → is_zero_split (SwapGroup.split g) = true →
  SwapEncoderRegistry.get_encoder (SwapGroup.protocol_system g) registry = Some enc →
  encode_group_swaps enc (group_context (Some router_address) g) (SwapGroup.swaps g) = Ok (d, ds) →
  encode_group_swaps enc (group_context None g) (SwapGroup.swaps g) = Ok (d, ds) →
  ∃ router executor,
    SingleSwapStrategyEncoder.encode_strategy solution (SingleSwapStrategyEncoder.mk registry router_address) = Ok router ∧
    TychoExecutorEncoder.encode_solutions [solution] (TychoExecutorEncoder.mk registry) = Ok [executor] ∧
    EncodedSolution.interacting_with executor = SwapEncoder.executor_address enc ∧
    (EncodedSolution.swaps router = SwapEncoder.executor_address enc ++ EncodedSolution.swaps executor ↔
     contains NON_PLE_ENCODED_PROTOCOLS (SwapGroup.protocol_system g) = false ∨ ds = []).
Proof.
  intros Eg Hz Henc Hr He. unfold SingleSwapStrategyEncoder.encode_strategy, TychoExecutorEncoder.encode_solutions,
    TychoExecutorEncoder.encode_executor_calldata. simpl. rewrite Eg. simpl. rewrite Hz, Henc. simpl.
  unfold encode_group. rewrite Henc. cbn [ok_or mbind result_bind]. rewrite Hr, He. cbn [mbind result_bind].
  destruct (estimate_total (E := EncodingError) solution Single) as (p & f & -> & _). cbn [mbind result_bind].
  eexists _, _. split; [done|]. split; [done|]. split; [done|]. cbn [EncodedSolution.swaps].
  rewrite join_group_data_concat. unfold encode_swap_header.
  replace (match ds with [] => d | _ => d ++ ple_encode ds end) with (d ++ concat (ple_entry <$> ds))
    by (destruct ds; [simpl; by rewrite app_nil_r|by rewrite ple_encode_concat]).
  split.
  - destruct (contains _ _); [|by left]. intros Ed%app_inv_head%app_inv_head. right.
    apply (f_equal length) in Ed. destruct ds as [|x ds]; [done|]. exfalso.
    assert (∀ l, (length (concat l) + 2 * length l = length (concat (ple_entry <$> l)))%nat) as Hl.
    { intros l. induction l as [|y l IH]; [done|]. rewrite fmap_cons. cbn [concat length].
      rewrite !length_app, <-IH. unfold ple_entry. rewrite length_app, length_to_be. lia. }
    rewrite <-Hl in Ed. simpl length in Ed. lia.
  - intros [-> | ->]; [done|]. by destruct (contains _ _).
Qed.

(** * Examples *)

Definition WETH : Z := 0xC02aaA39b223FE8D0A0e5C4F27eAD9083C756Cc2.

Lemma example_encodable s :
  normalize_protocol (Swap.protocol s) ∈ ["uniswap_v2"; "ekubo_v2"; "native_wrapper"] → encodable example_registry s.
Proof.
  intros Hs. exists example_encoder. split; [|by eexists].
  rewrite !elem_of_cons, elem_of_nil in Hs. destruct Hs as [->|[->|[->|[]]]]; reflexivity.
Qed.

(** Native ether is sold to a pool of the wrapped token: the solution is encoded. *)
Lemma connected_solution_encoded_witness :
  ∃ encoded, @TychoRouterEncoder.encode_solution ∅ alloy_model canonical_order
    (example_solution 0 5 [example_swap "uniswap_v2" WETH 4; example_swap "uniswap_v2" 4 5])
    (TychoRouterEncoder.new Ethereum example_registry []) = Some (Ok encoded).
Proof.
  refine (@connected_solution_encoded _ alloy_model_laws _ canonical_order_laws ∅ Ethereum
    (native_eth Ethereum) (wrapped_native_eth Ethereum WETH) example_registry []
    (example_solution 0 5 [example_swap "uniswap_v2" WETH 4; example_swap "uniswap_v2" 4 5])
    eq_refl eq_refl _ _ _ _ _).
  - vm_compute. discriminate.
  - vm_compute. reflexivity.
  - split; [right; left; split; vm_compute; reflexivity|].
    split; [left; vm_compute; reflexivity|left; vm_compute; reflexivity].
  - repeat constructor.
  - repeat constructor; apply example_encodable; vm_compute; repeat constructor.
Defined.

Lemma native_wraps_connect_witness :
  ∃ new, TychoRouterEncoder.add_native_wrap_swaps ∅
      (example_solution 0 4 [example_swap "uniswap_v2" WETH 4]) Ethereum =
    Ok (Solution.with_swaps new (example_solution 0 4 [example_swap "uniswap_v2" WETH 4])) ∧
    connects (to_be 20 0) new (to_be 20 4).
Proof.
  destruct (native_wraps_connect ∅ Ethereum (native_eth Ethereum) (wrapped_native_eth Ethereum WETH)
    (example_solution 0 4 [example_swap "uniswap_v2" WETH 4]) eq_refl eq_refl) as (new & H1 & _ & _ & H2 & _).
  - vm_compute. discriminate.
  - discriminate.
  - exists new. split; [exact H1|]. apply H2.
    split; [right; left; split; vm_compute; reflexivity|left; vm_compute; reflexivity].
Defined.

Lemma signature_offset_matches_witness :
  ∃ encoded, @TychoRouterEncoder.encode_solution ∅ alloy_model canonical_order
      (example_solution 3 5 [example_swap "uniswap_v2" 3 4; example_swap "uniswap_v2" 4 5])
      (TychoRouterEncoder.new Ethereum example_registry []) = Some (Ok encoded) ∧
    EncodedSolution.client_fee_signature_offset encoded = 420.
Proof.
  assert (∃ encoded, @TychoRouterEncoder.encode_solution ∅ alloy_model canonical_order
      (example_solution 3 5 [example_swap "uniswap_v2" 3 4; example_swap "uniswap_v2" 4 5])
      (TychoRouterEncoder.new Ethereum example_registry []) = Some (Ok encoded) ∧
      signature_offset (EncodedSolution.function_signature encoded) = 420) as (encoded & H1 & H2).
  { eexists. split; [vm_compute; reflexivity|vm_compute; reflexivity]. }
  exists encoded. split; [exact H1|].
  rewrite (@signature_offset_matches _ alloy_model_laws _ canonical_order_laws _ _ _ _ H1). exact H2.
Defined.

(** Two swaps on Ekubo: the executor's data has a prefix too much. *)
Lemma executor_data_agrees_witness :
  ∃ router executor,
    @SingleSwapStrategyEncoder.encode_strategy alloy_model
      (example_solution 3 5 [example_swap "ekubo_v2" 3 4; example_swap "ekubo_v2" 4 5])
      (SingleSwapStrategyEncoder.mk example_registry []) = Ok router ∧
    @TychoExecutorEncoder.encode_solutions alloy_model
      [example_solution 3 5 [example_swap "ekubo_v2" 3 4; example_swap "ekubo_v2" 4 5]]
      (TychoExecutorEncoder.mk example_registry) = Ok [executor] ∧
    EncodedSolution.swaps router ≠ to_be 20 77 ++ EncodedSolution.swaps executor.
Proof.
  destruct (@executor_data_agrees alloy_model alloy_model_laws
    (example_solution 3 5 [example_swap "ekubo_v2" 3 4; example_swap "ekubo_v2" 4 5])
    (SwapGroup.mk (to_be 20 3) (to_be 20 5) "ekubo_v2" [example_swap "ekubo_v2" 3 4; example_swap "ekubo_v2" 4 5]
       f64_zero 80000)
    example_registry [] example_encoder (to_be 20 3 ++ to_be 20 4) [to_be 20 4 ++ to_be 20 5])
    as (router & executor & H1 & H2 & _ & H3); [vm_compute; reflexivity..|].
  exists router, executor. split; [exact H1|]. split; [exact H2|].
  intros H. apply H3 in H as [H|H]; discriminate H.
Defined.
