(* ===== verification/ClientRpc.v ===== *)
(** The client's access to the server: [tycho_client::rpc], with the requests for the pages
    of a long answer, and the server's side of one such request
    ([tycho_indexer::services::rpc], [get_protocol_components] and
    [get_protocol_components_inner], with the cache of [services/cache.rs]).

    The trait [RPCClient] is the class of that name: its methods are the answers of the
    server for the time of one call.  Its provided methods, which split a long request into
    pages, are definitions over the class.  [try_join_all] starts all requests and returns
    all answers or an error; the model returns the error of the first one that has one. *)

From Stdlib Require Import SpecFloat.
From S2P Require Import Prelude Collections Bytes Models Blockchain.

Open Scope tycho_scope.

(** * Snapshots ([feed/synchronizer.rs]) *)

Abbreviation TracedEntryPoints :=
  (gmap string (list (EntryPointWithTracingParams.t * TracingResult.t))).

Module ComponentWithState.
Record t := mk {
  state : ProtocolComponentState.t;
  component : ProtocolComponent.t;
  component_tvl : option f64;
  entrypoints : list (EntryPointWithTracingParams.t * TracingResult.t)
}.
Definition set_state (x : ProtocolComponentState.t) (self : t) : t :=
  mk x (component self) (component_tvl self) (entrypoints self).
End ComponentWithState.

Module Snapshot.
Record t := mk {
  states : gmap string ComponentWithState.t;
  vm_storage : gmap Bytes Account.t
}.
Definition default_ : t := mk ∅ ∅.
Definition extend (self other : t) : t :=
  mk (Collections.extend (states self) (states other))
     (Collections.extend (vm_storage self) (vm_storage other)).
End Snapshot.

(** * Requests *)

Module VersionParam.
(** The hash, chain and number of a [BlockParam]. *)
Record t := mk {
  timestamp : option Z;
  block : option (option Bytes * option Chain * option Z)
}.
Definition at_block (chain : Chain) (block_number : Z) : t :=
  mk None (Some (None, Some chain, Some (swrap 64 block_number))).
End VersionParam.

Inductive RPCError :=
| UrlParsing (uri reason : string)
| FormatRequest (reason : string)
| HttpClient (reason : string)
| ParseResponse (reason : string)
| StaleBlock (reason : string)
| UnknownExtractor (reason : string)
| Fatal (reason : string)
| RateLimited (until : option Z)
| ServerUnreachable (reason : string).

Module Page.
Record t (A : Type) := mk { data : A; total : Z; page : Z; page_size : Z }.
Arguments mk {A}.
Arguments data {A}.
Arguments total {A}.
Arguments page_size {A}.
End Page.

Module ContractStateParams.
Record t := mk {
  chain : Chain; protocol_system : string; contract_ids : option (list Bytes);
  version : VersionParam.t; page : Z; page_size : Z
}.
End ContractStateParams.

Module ProtocolComponentsParams.
Record t := mk {
  chain : Chain; protocol_system : string; component_ids : option (list string);
  tvl_gt : option f64; page : Z; page_size : Z
}.
Definition MAX_PAGE_SIZE_COMPRESSED : Z := 2550.
Definition new (chain : Chain) (protocol_system : string) : t :=
  mk chain protocol_system None None 0 MAX_PAGE_SIZE_COMPRESSED.
Definition with_component_ids (ids : list string) (self : t) : t :=
  mk (chain self) (protocol_system self) (Some ids) (tvl_gt self) (page self) (page_size self).
Definition with_tvl_gt (tvl : f64) (self : t) : t :=
  mk (chain self) (protocol_system self) (component_ids self) (Some tvl) (page self) (page_size self).
Definition with_pagination (page page_size : Z) (self : t) : t :=
  mk (chain self) (protocol_system self) (component_ids self) (tvl_gt self) page page_size.
End ProtocolComponentsParams.

Module ProtocolStatesParams.
Record t := mk {
  chain : Chain; protocol_system : string; protocol_ids : option (list string);
  include_balances : bool; version : VersionParam.t; page : Z; page_size : Z
}.
End ProtocolStatesParams.

Module TokensParams.
Record t := mk {
  chain : Chain; min_quality : option Z; traded_n_days_ago : option Z; page : Z; page_size : Z
}.
End TokensParams.

Module ComponentTvlParams.
Record t := mk {
  chain : Chain; protocol_system : option string; component_ids : option (list string);
  page : Z; page_size : Z
}.
End ComponentTvlParams.

Module TracedEntryPointsParams.
Record t := mk {
  chain : Chain; protocol_system : string; component_ids : option (list string);
  page : Z; page_size : Z
}.
End TracedEntryPointsParams.

Module SnapshotParameters.
Record t := mk {
  chain : Chain;
  protocol_system : string;
  components : gmap string ProtocolComponent.t;
  entrypoints : option TracedEntryPoints;
  contract_ids : list Bytes;
  block_number : Z;
  include_balances : bool;
  include_tvl : bool
}.
End SnapshotParameters.

Class RPCClient := {
  compression : bool;
  get_contract_state : ContractStateParams.t → result RPCError (Page.t (list Account.t));
  get_protocol_components :
    ProtocolComponentsParams.t → result RPCError (Page.t (list ProtocolComponent.t));
  get_protocol_states :
    ProtocolStatesParams.t → result RPCError (Page.t (list ProtocolComponentState.t));
  get_tokens : TokensParams.t → result RPCError (Page.t (list Token.t));
  get_component_tvl : ComponentTvlParams.t → result RPCError (Page.t (gmap string f64));
  get_traced_entry_points :
    TracedEntryPointsParams.t → result RPCError (Page.t TracedEntryPoints)
}.

(** * Pages *)

(** [impl_pagination_limits!] *)
Inductive RequestBody :=
| StateRequestBody | TokensRequestBody | ProtocolComponentsRequestBody | ProtocolStateRequestBody
| ProtocolSystemsRequestBody | ComponentTvlRequestBody | TracedEntryPointRequestBody.

Definition max_page_size_compressed (body : RequestBody) : Z :=
  match body with
  | StateRequestBody => 1200
  | TokensRequestBody => 12900
  | ProtocolComponentsRequestBody => 2550
  | ProtocolStateRequestBody => 360
  | ProtocolSystemsRequestBody => 100
  | ComponentTvlRequestBody => 100
  | TracedEntryPointRequestBody => 100
  end.

Definition max_page_size_uncompressed (body : RequestBody) : Z :=
  match body with
  | StateRequestBody => 100
  | TokensRequestBody => 3000
  | ProtocolComponentsRequestBody => 500
  | ProtocolStateRequestBody => 100
  | ProtocolSystemsRequestBody => 100
  | ComponentTvlRequestBody => 100
  | TracedEntryPointRequestBody => 100
  end.

Definition effective_max_page_size (body : RequestBody) (compression : bool) : Z :=
  if compression then max_page_size_compressed body else max_page_size_uncompressed body.

(** The order [Vec<Bytes>::sort] uses. *)
Definition bytes_le (a b : Bytes) : Prop := bytes_ltb b a = false.
#[global] Instance bytes_le_dec : RelDecision bytes_le.
Proof. intros a b. unfold bytes_le. apply _. Defined.

(** [slice::chunks] with its length as a bound for the number of chunks. *)
Fixpoint chunks_go {A} (n : nat) (fuel : nat) (l : list A) : list (list A) :=
  match fuel, l with
  | S fuel', _ :: _ => take n l :: chunks_go n fuel' (drop n l)
  | _, _ => []
  end.

(** [slice::chunks] unwinds for chunks of length zero. *)
Definition chunks {E A} (n : nat) (l : list A) : result E (list (list A)) :=
  if decide (n = 0) then Panic else Ok (chunks_go n (length l) l).

(** [(total as f64 / chunk_size as f64).ceil() as i64]: for a count below [2^53] and a positive
    chunk size the quotient is rounded to a float with the same ceiling; a division by zero
    gives an infinity or NaN, which the cast saturates or sends to zero. *)
Definition total_pages (total : Z) (chunk_size : nat) : Z :=
  if decide (chunk_size = 0) then
    if (total =? 0)%Z then 0 else if (0 <? total)%Z then 2 ^ 63 - 1 else - 2 ^ 63
  else (- (- total / Z.of_nat chunk_size))%Z.

(** The loop over the pages from [page] on, at most [concurrency] at a time. *)
Fixpoint fetch_pages {A B} (get : Z → result RPCError A) (add : B → A → B) (total_pages : Z)
    (concurrency : Z) (fuel : nat) (page : Z) (all : B) : timed RPCError B :=
  match fuel with
  | O => None
  | S fuel' =>
      if (page <? total_pages)%Z then
        let requests := Z.min (total_pages - page) concurrency in
        responses <~ Some (mapM get ((fun iter => page + Z.of_nat iter)%Z <$> seq 0 (Z.to_nat requests)));
        fetch_pages get add total_pages concurrency fuel' (page + requests) (foldl add all responses)
      else Some (Ok all)
  end.

Section paginated.
Context `{!RPCClient}.

Definition get_contract_state_paginated (chain : Chain) (protocol_system : string)
    (contract_ids : list Bytes) (version : VersionParam.t) (chunk_size : option nat) :
    result RPCError (list Account.t) :=
  let sorted_ids := merge_sort bytes_le contract_ids in
  let chunk_size :=
    default (Z.to_nat (effective_max_page_size StateRequestBody compression)) chunk_size in
  cs ← chunks chunk_size sorted_ids;
  pages ← mapM (fun chunk =>
    get_contract_state (ContractStateParams.mk chain protocol_system (Some chunk) version 0
                          (Z.of_nat chunk_size))) cs;
  Ok (mjoin (Page.data <$> pages)).

(** The request for page [page] of the components, [chunk] when it is given. *)
Definition components_request (chain : Chain) (protocol_system : string)
    (chunk : option (list string)) (tvl_gt : option f64) (page : Z) (chunk_size : nat) :
    ProtocolComponentsParams.t :=
  let base := ProtocolComponentsParams.new chain protocol_system in
  let base := match chunk with
              | Some ids => ProtocolComponentsParams.with_component_ids ids base
              | None => base
              end in
  let base := ProtocolComponentsParams.with_pagination page (Z.of_nat chunk_size) base in
  match tvl_gt with Some tvl => ProtocolComponentsParams.with_tvl_gt tvl base | None => base end.

Definition get_protocol_components_paginated (chain : Chain) (protocol_system : string)
    (component_ids : option (list string)) (tvl_gt : option f64) (chunk_size : option nat)
    (concurrency : nat) : timed RPCError (list ProtocolComponent.t) :=
  let chunk_size :=
    default (Z.to_nat (effective_max_page_size ProtocolComponentsRequestBody compression)) chunk_size in
  match component_ids with
  | Some ids =>
      Some (cs ← chunks chunk_size ids;
            pages ← mapM (fun '(index, chunk) =>
              get_protocol_components
                (components_request chain protocol_system (Some chunk) tvl_gt (Z.of_nat index) chunk_size))
              (imap pair cs);
            Ok (mjoin (Page.data <$> pages)))
  | None =>
      let get page :=
        get_protocol_components
          (components_request chain protocol_system None tvl_gt page chunk_size) in
      first_page <~ Some (get 0%Z);
      let total_pages := total_pages (Page.total first_page) chunk_size in
      fetch_pages get (fun all resp => all ++ Page.data resp) total_pages (Z.of_nat concurrency)
        (S (Z.to_nat total_pages)) 1 (Page.data first_page)
  end.

Definition get_protocol_states_paginated (chain : Chain) (protocol_system : string)
    (protocol_ids : list string) (include_balances : bool) (version : VersionParam.t)
    (chunk_size : option nat) : result RPCError (list ProtocolComponentState.t) :=
  let chunk_size :=
    default (Z.to_nat (effective_max_page_size ProtocolStateRequestBody compression)) chunk_size in
  cs ← chunks chunk_size protocol_ids;
  pages ← mapM (fun chunk =>
    get_protocol_states (ProtocolStatesParams.mk chain protocol_system (Some chunk) include_balances
                           version 0 (Z.of_nat chunk_size))) cs;
  Ok (mjoin (Page.data <$> pages)).

Definition get_all_tokens (chain : Chain) (min_quality traded_n_days_ago : option Z)
    (chunk_size : option nat) : result RPCError (list Token.t) :=
  let chunk_size :=
    default (Z.to_nat (effective_max_page_size TokensRequestBody compression)) chunk_size in
  if (2 ^ 63 <=? Z.of_nat chunk_size)%Z
  then Err (FormatRequest "Failed to convert chunk_size into i64")
  else
    let request page :=
      TokensParams.mk chain min_quality traded_n_days_ago page (Z.of_nat chunk_size) in
    first_page ← get_tokens (request 0%Z);
    let total_pages := total_pages (Page.total first_page) chunk_size in
    if (total_pages <=? 1)%Z then Ok (Page.data first_page)
    else
      pages ← mapM (fun page => get_tokens (request (Z.of_nat page)))
                (seq 1 (Z.to_nat (total_pages - 1)));
      Ok (Page.data first_page ++ mjoin (Page.data <$> pages)).

(** [*merged_tvl.entry(key).or_insert(0.0) = value] for the entries of a page. *)
Definition merge_tvl (merged : gmap string f64) (page : Page.t (gmap string f64)) : gmap string f64 :=
  upsert_all (fun value _ => value) merged (Page.data page).

(** The branch of [get_component_tvl_paginated] for given ids. *)
Definition component_tvl_of_ids (chain : Chain) (protocol_system : option string)
    (ids : list string) (chunk_size : option nat) : result RPCError (gmap string f64) :=
  let chunk_size :=
    default (Z.to_nat (effective_max_page_size ComponentTvlRequestBody compression)) chunk_size in
  cs ← chunks chunk_size ids;
  pages ← mapM (fun '(index, chunk) =>
    get_component_tvl (ComponentTvlParams.mk chain protocol_system (Some chunk) (Z.of_nat index)
                         (Z.of_nat chunk_size))) (imap pair cs);
  Ok (foldl merge_tvl ∅ pages).

Definition get_component_tvl_paginated (chain : Chain) (protocol_system : option string)
    (component_ids : option (list string)) (chunk_size : option nat) (concurrency : nat) :
    timed RPCError (gmap string f64) :=
  match component_ids with
  | Some ids => Some (component_tvl_of_ids chain protocol_system ids chunk_size)
  | None =>
      let chunk_size :=
        default (Z.to_nat (effective_max_page_size ComponentTvlRequestBody compression)) chunk_size in
      let get page :=
        get_component_tvl (ComponentTvlParams.mk chain protocol_system None page (Z.of_nat chunk_size)) in
      first_page <~ Some (get 0%Z);
      let total_pages := total_pages (Page.total first_page) chunk_size in
      fetch_pages get merge_tvl total_pages (Z.of_nat concurrency)
        (S (Z.to_nat total_pages)) 1 (Page.data first_page)
  end.

Definition get_traced_entry_points_paginated (chain : Chain) (protocol_system : string)
    (component_ids : list string) (chunk_size : option nat) : result RPCError TracedEntryPoints :=
  let chunk_size :=
    default (Z.to_nat (effective_max_page_size TracedEntryPointRequestBody compression)) chunk_size in
  cs ← chunks chunk_size component_ids;
  pages ← mapM (fun chunk =>
    get_traced_entry_points (TracedEntryPointsParams.mk chain protocol_system (Some chunk) 0
                               (Z.of_nat chunk_size))) cs;
  Ok (foldl (fun m p => extend m (Page.data p)) ∅ pages).

(** * Snapshots of components ([HttpRPCClient::get_snapshots]) *)

(** One turn over [components.values()]; [protocol_states] loses the state it gives away. *)
Definition take_state (request : SnapshotParameters.t) (component_tvl : gmap string f64)
    (acc : gmap string ProtocolComponentState.t * gmap string ComponentWithState.t)
    (component : ProtocolComponent.t) :
    gmap string ProtocolComponentState.t * gmap string ComponentWithState.t :=
  let id := ProtocolComponent.id component in
  match acc.1 !! id with
  | Some state =>
      (delete id acc.1,
       <[id := ComponentWithState.mk state component (component_tvl !! id)
                 (default [] (SnapshotParameters.entrypoints request ≫= lookup id))]> acc.2)
  | None => acc
  end.

Definition get_snapshots (request : SnapshotParameters.t) (chunk_size : option nat) :
    result RPCError Snapshot.t :=
  let components := SnapshotParameters.components request in
  let component_ids := (map_to_list components).*1 in
  let chain := SnapshotParameters.chain request in
  let system := SnapshotParameters.protocol_system request in
  component_tvl ←
    (if SnapshotParameters.include_tvl request && negb (bool_decide (component_ids = []))
     then component_tvl_of_ids chain None component_ids None
     else Ok ∅);
  let version := VersionParam.at_block chain (SnapshotParameters.block_number request) in
  protocol_states ←
    (if decide (component_ids = []) then Ok []
     else get_protocol_states_paginated chain system component_ids
            (SnapshotParameters.include_balances request) version None);
  let states :=
    (foldl (take_state request component_tvl)
       (foldl (fun m s => <[ProtocolComponentState.component_id s := s]> m) ∅ protocol_states, ∅)
       (map_to_list components).*2).2 in
  vm_storage ←
    (if decide (SnapshotParameters.contract_ids request = []) then Ok ∅
     else
       accounts ← get_contract_state_paginated chain system
                    (SnapshotParameters.contract_ids request) version chunk_size;
       let contract_states :=
         foldl (fun m acc => <[Account.address acc := acc]> m) (∅ : gmap Bytes Account.t) accounts in
       Ok (foldl (fun m address =>
             match contract_states !! address with
             | Some state => <[address := state]> m
             | None => m
             end) (∅ : gmap Bytes Account.t) (SnapshotParameters.contract_ids request)));
  Ok (Snapshot.mk states vm_storage).

End paginated.

(** * The server's answer ([services/rpc.rs])

    [db] are the components of the database that fit the request, in the order of their
    ids, [buffered_components] the ones of the blocks that are not yet written. *)
Module ServerPages.

(** [limit(page_size).offset(page * page_size)] *)
Definition db_page {A} (db : list A) (page page_size : Z) : list A :=
  take (Z.to_nat page_size) (drop (Z.to_nat (page * page_size)) db).

Definition get_protocol_components_inner (requested_ids : option (list string))
    (db buffered_components : list ProtocolComponent.t) (page page_size : Z) :
    result RPCError (Page.t (list ProtocolComponent.t)) :=
  let total := Z.of_nat (length buffered_components) in
  let fetched_ids : gset string := list_to_set (ProtocolComponent.id <$> buffered_components) in
  if match requested_ids with
     | Some ids => bool_decide (length ids = size fetched_ids)
     | None => false
     end
  then
    Ok (Page.mk
          (take (Z.to_nat page_size)
             (drop (Z.to_nat (Z.min (page * page_size) total)) buffered_components))
          total page page_size)
  else
    let db_total := Z.of_nat (length db) in
    let components := db_page db page page_size in
    let buffer_offset := (page * page_size - db_total)%Z in
    let components :=
      if (0 <? buffer_offset)%Z then
        take (Z.to_nat page_size) (drop (Z.to_nat buffer_offset) buffered_components)
      else
        let remaining_capacity := Z.to_nat page_size - length components in
        if 0 <? remaining_capacity
        then components ++ take remaining_capacity buffered_components
        else components in
    Ok (Page.mk components (db_total + total) page page_size).

(** ** The cache of answers *)

(** [1e-6] *)
Definition tvl_tolerance : f64 := S754_finite false 4722366482869645 (-72).

(** [impl PartialEq for ProtocolComponentsRequestBody]: bounds on the TVL are compared up to a
    tolerance. *)
Definition request_eqb (a b : ProtocolComponentsParams.t) : bool :=
  let tvl_close_enough :=
    match ProtocolComponentsParams.tvl_gt a, ProtocolComponentsParams.tvl_gt b with
    | Some x, Some y => SFltb (SFabs (SFsub 53 1024 x y)) tvl_tolerance
    | None, None => true
    | _, _ => false
    end in
  bool_decide (ProtocolComponentsParams.protocol_system a = ProtocolComponentsParams.protocol_system b) &&
  bool_decide (ProtocolComponentsParams.component_ids a = ProtocolComponentsParams.component_ids b) &&
  tvl_close_enough &&
  bool_decide (ProtocolComponentsParams.chain a = ProtocolComponentsParams.chain b) &&
  (ProtocolComponentsParams.page a =? ProtocolComponentsParams.page b)%Z &&
  (ProtocolComponentsParams.page_size a =? ProtocolComponentsParams.page_size b)%Z.

Abbreviation components_page := (Page.t (list ProtocolComponent.t)).

(** The cache of [mini_moka]: what it finds was inserted for an equal request, and an entry may
    be gone at any time, because it expired or was evicted. *)
Class PageCache (C : Type) := {
  cache_get : ProtocolComponentsParams.t → C → option components_page;
  cache_insert : ProtocolComponentsParams.t → components_page → C → C;
  cache_invalidate : ProtocolComponentsParams.t → C → C
}.

Class PageCacheLaws (C : Type) `{!PageCache C} := {
  cache_get_insert k v p c v' :
    cache_get p (cache_insert k v c) = Some v' →
    request_eqb k p = true ∧ v' = v ∨ cache_get p c = Some v';
  cache_get_invalidate k p c v : cache_get p (cache_invalidate k c) = Some v → cache_get p c = Some v
}.

Section cache.
Context {C : Type} `{!PageCache C}.

(** [RpcCache::get], for requests that do not overlap: the placeholder of a request in flight
    counts as a miss. *)
Definition rpc_cache_get (request : ProtocolComponentsParams.t)
    (fallback : ProtocolComponentsParams.t → result RPCError (components_page * bool)) (cache : C) :
    result RPCError components_page * C :=
  match cache_get request cache with
  | Some res => (Ok res, cache)
  | None =>
      match fallback request with
      | Ok (response, should_cache) =>
          (Ok response, if should_cache : bool then cache_insert request response cache else cache_invalidate request cache)
      | Err e => (Err e, cache_invalidate request cache)
      | Panic => (Panic, cache)
      end
  end.

(** [PaginationResponse::total_pages] *)
Definition response_total_pages (p : components_page) : result RPCError Z :=
  if (Page.page_size p =? 0)%Z then Panic
  else Ok (Z.quot (Page.total p + Page.page_size p - 1) (Page.page_size p)).

(** The answer and whether it is kept: one for ids if all of them were found, any other if it is
    not the last page. *)
Definition answer_with_policy (db buffered_components : ProtocolComponentsParams.t → list ProtocolComponent.t)
    (r : ProtocolComponentsParams.t) : result RPCError (components_page * bool) :=
  res ← get_protocol_components_inner (ProtocolComponentsParams.component_ids r) (db r) (buffered_components r)
          (ProtocolComponentsParams.page r) (ProtocolComponentsParams.page_size r);
  match ProtocolComponentsParams.component_ids r with
  | Some ids => Ok (res, (Z.of_nat (length ids) =? Page.total res)%Z)
  | None =>
      n ← response_total_pages res;
      Ok (res, (ProtocolComponentsParams.page r <? n - 1)%Z)
  end.

(** [RpcHandler::get_protocol_components]: [db] and [buffered_components] are what the queries
    find for a request at this time, before paging. *)
Definition get_protocol_components (db buffered_components : ProtocolComponentsParams.t → list ProtocolComponent.t)
    (request : ProtocolComponentsParams.t) : C → result RPCError components_page * C :=
  rpc_cache_get request (answer_with_policy db buffered_components).
End cache.

End ServerPages.
