(* ===== verification/ClientRpcSpec.v ===== *)
(** Theorems on paged requests: the pages of the server are the consecutive pieces of one
    list, the client that follows the total collects the whole list, and a request by ids is
    answered for its first chunk only. *)

From S2P Require Import Prelude Collections Bytes Models Blockchain ClientRpc.

Open Scope tycho_scope.
Import ServerPages(request_eqb, PageCache, PageCacheLaws, cache_get, cache_insert, cache_invalidate,
  cache_get_insert, cache_get_invalidate).

(** * Pieces of a list *)

Definition piece {A} (n : nat) (l : list A) (i : nat) : list A := take n (drop (i * n) l).

Lemma take_drop_piece {A} n (l : list A) i :
  take (i * n) l ++ piece n l i = take (S i * n) l.
Proof.
  unfold piece. replace (S i * n) with (i * n + n) by lia.
  rewrite take_drop_commute. rewrite <-(take_drop (i * n) (take (i * n + n) l)) at 2.
  rewrite take_take. by rewrite Nat.min_l by lia.
Qed.

Lemma join_pieces {A} n (l : list A) i k :
  take (i * n) l ++ mjoin (piece n l <$> seq i k) = take ((i + k) * n) l.
Proof.
  revert i; induction k as [|k IH]; intros i; cbn [seq fmap list_fmap mjoin list_join].
  - rewrite app_nil_r. do 2 f_equal. lia.
  - rewrite app_assoc, take_drop_piece, IH. do 2 f_equal. lia.
Qed.

Lemma cdiv_covers (n : nat) (total : nat) : 0 < n → total ≤ Z.to_nat (total_pages (Z.of_nat total) n) * n.
Proof.
  intros Hn. unfold total_pages. rewrite decide_False by lia.
  pose proof (Z.mod_pos_bound (- Z.of_nat total) (Z.of_nat n) ltac:(lia)) as Hm.
  pose proof (Z.div_mod (- Z.of_nat total) (Z.of_nat n) ltac:(lia)) as Hd.
  assert (0 ≤ - (- Z.of_nat total / Z.of_nat n))%Z.
  { pose proof (Z.div_le_upper_bound (- Z.of_nat total) (Z.of_nat n) 0 ltac:(lia) ltac:(lia)). lia. }
  apply Nat2Z.inj_le. rewrite Nat2Z.inj_mul, Z2Nat.id by lia. nia.
Qed.

(** * The loop over the pages *)

Section loop.
Context {A B : Type} (get : Z → result RPCError A) (add : B → A → B) (answer : nat → A).
Context (get_answer : ∀ i, get (Z.of_nat i) = Ok (answer i)).

Lemma mapM_get page n :
  mapM get ((fun iter => Z.of_nat page + Z.of_nat iter)%Z <$> seq 0 n) = Ok (answer <$> seq page n).
Proof.
  apply mapM_ok. replace (seq page n) with (Nat.add page <$> seq 0 n)
    by (rewrite fmap_add_seq; f_equal; lia).
  apply Forall2_fmap_l, Forall2_fmap_r, Forall2_fmap_r, Forall_Forall2_diag, Forall_forall.
  intros x _. simpl. by rewrite <-Nat2Z.inj_add, get_answer.
Qed.

Lemma fetch_pages_all (last concurrency : nat) fuel page all :
  0 < concurrency → last - page < fuel →
  fetch_pages get add (Z.of_nat last) (Z.of_nat concurrency) fuel (Z.of_nat page) all =
    Some (Ok (foldl add all (answer <$> seq page (last - page)))).
Proof.
  intros Hc. revert page all; induction fuel as [|fuel IH]; intros page all Hf; [lia|].
  cbn [fetch_pages]. destruct (Z.ltb_spec (Z.of_nat page) (Z.of_nat last)) as [Hlt|Hge]; last first.
  { by replace (last - page) with 0 by lia. }
  set (k := Nat.min (last - page) concurrency).
  replace (Z.min (Z.of_nat last - Z.of_nat page) (Z.of_nat concurrency)) with (Z.of_nat k) by lia.
  rewrite Nat2Z.id, mapM_get. cbn [t_bind]. rewrite <-Nat2Z.inj_add, IH by lia.
  replace (last - page) with (k + (last - (page + k))) by lia.
  by rewrite seq_app, fmap_app, foldl_app.
Qed.

End loop.

Lemma foldl_pages {A} (pages : list (Page.t (list A))) acc :
  foldl (fun all resp => all ++ Page.data resp) acc pages = acc ++ mjoin (Page.data <$> pages).
Proof.
  revert acc; induction pages as [|p pages IH]; intros acc; [by rewrite app_nil_r|].
  cbn [foldl fmap list_fmap mjoin list_join]. rewrite IH. by rewrite app_assoc.
Qed.

(** * The server's pages *)

Section server.

(** A page holds the next elements of the database's components followed by the buffered
    ones. *)
Lemma inner_piece ids db buffered (i n : nat) :
  0 < n →
  match ids with Some l => length l ≠ size (list_to_set (ProtocolComponent.id <$> buffered) : gset string)
            | None => True end →
  ServerPages.get_protocol_components_inner ids db buffered (Z.of_nat i) (Z.of_nat n) =
    Ok (Page.mk (piece n (db ++ buffered) i) (Z.of_nat (length (db ++ buffered))) (Z.of_nat i) (Z.of_nat n)).
Proof.
  intros Hn Hids. unfold ServerPages.get_protocol_components_inner, ServerPages.db_page.
  replace (match ids with Some ids => _ | None => false end) with false; last first.
  { destruct ids; [|done]. by rewrite bool_decide_false. }
  rewrite <-Nat2Z.inj_mul, !Nat2Z.id, length_app, Nat2Z.inj_add. f_equal. f_equal.
  unfold piece. destruct (Z.ltb_spec 0 (Z.of_nat (i * n) - Z.of_nat (length db))) as [H|H].
  - rewrite drop_app_ge by lia. do 2 f_equal. lia.
  - rewrite drop_app_le by lia. rewrite take_app, length_take, length_drop.
    destruct (Nat.ltb_spec 0 (n - Nat.min n (length db - i * n))); [f_equal; f_equal; lia|].
    replace (n - (length db - i * n)) with 0 by lia. by rewrite take_0, app_nil_r.
Qed.

(** When the buffer covers all requested ids, the pages are those of the buffer. *)
Lemma inner_buffered ids db buffered (i n : nat) :
  length ids = size (list_to_set (ProtocolComponent.id <$> buffered) : gset string) →
  ServerPages.get_protocol_components_inner (Some ids) db buffered (Z.of_nat i) (Z.of_nat n) =
    Ok (Page.mk (piece n buffered i) (Z.of_nat (length buffered)) (Z.of_nat i) (Z.of_nat n)).
Proof.
  intros Hids. unfold ServerPages.get_protocol_components_inner. rewrite bool_decide_true by done.
  rewrite <-Nat2Z.inj_mul, <-Nat2Z.inj_min, !Nat2Z.id. do 2 f_equal. unfold piece.
  destruct (decide (i * n ≤ length buffered)); [by rewrite Nat.min_l by lia|].
  rewrite Nat.min_r, !drop_ge by lia. done.
Qed.

End server.

Lemma piece_past {A} n (l : list A) i : length l ≤ i * n → piece n l i = [].
Proof. intros H. unfold piece. rewrite drop_ge by done. by rewrite take_nil. Qed.

Lemma piece_first {A} n (l : list A) : length l ≤ n → piece n l 0 = l.
Proof. intros H. unfold piece. simpl. rewrite drop_0. by apply take_ge. Qed.

Lemma chunks_go_cons {A} n fuel (l : list A) :
  0 < n → l ≠ [] → length l ≤ fuel →
  ∃ rest, chunks_go n fuel l = take n l :: rest ∧ Forall (fun c => length c ≤ n) rest.
Proof.
  intros Hn Hl Hf. destruct fuel as [|fuel], l as [|a l]; simpl in *; try done; [lia|].
  eexists. split; [done|]. clear Hl Hf. generalize (drop n (a :: l)) as k.
  induction fuel as [|fuel IH]; intros [|b k]; simpl; constructor; [rewrite length_take; lia|apply IH].
Qed.

Lemma NoDup_incl_length (l : list ProtocolComponent.t) (ids : list string) :
  NoDup (ProtocolComponent.id <$> l) → (∀ c, c ∈ l → ProtocolComponent.id c ∈ ids) →
  length l ≤ length ids.
Proof.
  intros Hnd Hin. rewrite <-(length_fmap ProtocolComponent.id l).
  apply submseteq_length, NoDup_submseteq; [done|].
  intros x (c & -> & Hc)%list_elem_of_fmap. by apply Hin.
Qed.

Lemma mapM_singleton_rest {E X Y} (f : X → result E (Page.t (list Y))) (l : list X) :
  (∀ x, x ∈ l → ∃ p, f x = Ok p ∧ Page.data p = []) →
  ∃ ps, mapM f l = Ok ps ∧ mjoin (Page.data <$> ps) = [].
Proof.
  induction l as [|x l IH]; intros Hf; [by eexists|].
  destruct (Hf x ltac:(left)) as (p & Hp & Hd), IH as (ps & Hps & Hj); [intros; apply Hf; by right|].
  exists (p :: ps). cbn [mapM]. rewrite Hp. simpl. rewrite Hps. simpl. split; [done|].
  cbn [fmap list_fmap mjoin list_join]. by rewrite Hd.
Qed.

(** * The cache of the server *)

Section cache.
Context {C : Type} `{!PageCache C}.
Context (db buffered : ProtocolComponentsParams.t → list ProtocolComponent.t).

(** What the server computes for a request, from what it finds now. *)
Definition computed (p : ProtocolComponentsParams.t) : result RPCError (Page.t (list ProtocolComponent.t)) :=
  ServerPages.get_protocol_components_inner (ProtocolComponentsParams.component_ids p) (db p) (buffered p)
    (ProtocolComponentsParams.page p) (ProtocolComponentsParams.page_size p).

(** Every cached page is what the server would compute now. *)
Definition current (cache : C) : Prop := ∀ p v, cache_get p cache = Some v → computed p = Ok v.

Lemma current_answer p cache :
  current cache → (0 < ProtocolComponentsParams.page_size p)%Z →
  (ServerPages.get_protocol_components db buffered p cache).1 = computed p.
Proof.
  intros Hc Hp. unfold ServerPages.get_protocol_components, ServerPages.rpc_cache_get.
  destruct (cache_get p cache) as [v|] eqn:E; [by apply Hc in E as ->|].
  unfold ServerPages.answer_with_policy. fold (computed p). destruct (computed p) as [v|e|] eqn:Ec; [|done..].
  assert (Page.page_size v = ProtocolComponentsParams.page_size p) as Hs.
  { revert Ec. unfold computed, ServerPages.get_protocol_components_inner. case_match; intros [= <-]; done. }
  simpl. destruct (ProtocolComponentsParams.component_ids p); [done|].
  unfold ServerPages.response_total_pages. rewrite Hs.
  destruct (Z.eqb_spec (ProtocolComponentsParams.page_size p) 0); [lia|done].
Qed.

(** Requests keep it that way as long as the data does not change, if no component has a TVL
    between bounds that count as equal. *)
Lemma current_kept `{!PageCacheLaws C} p cache :
  (∀ k p, request_eqb k p = true → computed k = computed p) →
  current cache → current (ServerPages.get_protocol_components db buffered p cache).2.
Proof.
  intros Heq Hc. unfold ServerPages.get_protocol_components, ServerPages.rpc_cache_get.
  destruct (cache_get p cache) as [v|] eqn:E; [done|].
  assert (current (cache_invalidate p cache)) as Hinv by (intros q v ?%cache_get_invalidate; by apply Hc).
  destruct (ServerPages.answer_with_policy db buffered p) as [[res keep]|e|] eqn:Ea; [|done..]. simpl.
  destruct keep; [|done]. intros q v [[Hq ->]|?]%cache_get_insert; [|by apply Hc].
  rewrite <-(Heq p q Hq). revert Ea. unfold ServerPages.answer_with_policy. fold (computed p).
  destruct (computed p) as [v|e|]; simpl; [|done..]. destruct (ProtocolComponentsParams.component_ids p).
  - by intros [= <- _].
  - unfold ServerPages.response_total_pages. case_if; simpl; [done|]. by intros [= <- _].
Qed.
End cache.

(** * The client with this server

    [db] and [buffered] are what the queries of the server return for a request, before
    paging: they depend on its chain, system, ids and TVL bound. *)
Section composed.
Context {C : Type} `{!PageCache C}.
Context (db buffered : Chain → string → option (list string) → option f64 → list ProtocolComponent.t).
Context `{!RPCClient}.

Definition for_request (f : Chain → string → option (list string) → option f64 → list ProtocolComponent.t)
    (p : ProtocolComponentsParams.t) : list ProtocolComponent.t :=
  f (ProtocolComponentsParams.chain p) (ProtocolComponentsParams.protocol_system p)
    (ProtocolComponentsParams.component_ids p) (ProtocolComponentsParams.tvl_gt p).

(** The server answers every request from the same data, with a cache that holds at most pages
    of this data when the request arrives. *)
Definition answers_pages : Prop := ∀ p, ∃ cache : C,
  current (for_request db) (for_request buffered) cache ∧
  get_protocol_components p =
    (ServerPages.get_protocol_components (for_request db) (for_request buffered) p cache).1.

(** An id names one component, and a request by ids gets no other. *)
Definition found (chain : Chain) (system : string) (o : option (list string)) (tvl : option f64) :
    list ProtocolComponent.t := db chain system o tvl ++ buffered chain system o tvl.
Definition ids_unique : Prop := ∀ chain system ids tvl,
  NoDup (ProtocolComponent.id <$> found chain system (Some ids) tvl) ∧
  ∀ c, c ∈ found chain system (Some ids) tvl → ProtocolComponent.id c ∈ ids.

Lemma request_ids chain system chunk tvl page n :
  let p := components_request chain system chunk tvl page n in
  ProtocolComponentsParams.chain p = chain ∧ ProtocolComponentsParams.protocol_system p = system ∧
  ProtocolComponentsParams.component_ids p = chunk ∧ ProtocolComponentsParams.tvl_gt p = tvl ∧
  ProtocolComponentsParams.page p = page ∧ ProtocolComponentsParams.page_size p = Z.of_nat n.
Proof. by destruct chunk, tvl. Qed.

Lemma get_page chain system chunk tvl (i n : nat) :
  answers_pages → 0 < n →
  get_protocol_components (components_request chain system chunk tvl (Z.of_nat i) n) =
    ServerPages.get_protocol_components_inner chunk (db chain system chunk tvl) (buffered chain system chunk tvl)
      (Z.of_nat i) (Z.of_nat n).
Proof.
  intros Hs Hn. destruct (request_ids chain system chunk tvl (Z.of_nat i) n) as (E5 & E6 & E1 & E2 & E3 & E4).
  destruct (Hs (components_request chain system chunk tvl (Z.of_nat i) n)) as (cache & Hc & ->).
  rewrite current_answer by (done || lia). unfold computed, for_request. by rewrite E1, E2, E3, E4, E5, E6.
Qed.

(** The page of a chunk of ids: its components on page zero, nothing on later ones. *)
Lemma chunk_page chain system ids tvl (i n : nat) :
  answers_pages → ids_unique → 0 < n → length ids ≤ n →
  ∃ p, get_protocol_components (components_request chain system (Some ids) tvl (Z.of_nat i) n) = Ok p ∧
    Page.data p = if decide (i = 0) then found chain system (Some ids) tvl else [].
Proof.
  intros Hs Hu Hn Hids. rewrite get_page by done.
  destruct (Hu chain system ids tvl) as [Hnd Hin].
  pose proof (NoDup_incl_length _ _ Hnd Hin) as Hlen. unfold found in *.
  assert (∀ l : list ProtocolComponent.t, length l ≤ length ids →
    piece n l i = if decide (i = 0) then l else []) as Hp.
  { intros l Hl. destruct (decide (i = 0)) as [->|]; [apply piece_first; lia|apply piece_past; nia]. }
  destruct (decide (length ids = size (list_to_set (ProtocolComponent.id <$> buffered chain system (Some ids) tvl) : gset string)))
    as [He|Hne].
  - rewrite inner_buffered by done. eexists. split; [done|]. simpl. rewrite length_app in Hlen.
    assert (length ids ≤ length (buffered chain system (Some ids) tvl)).
    { rewrite He, <-(length_fmap ProtocolComponent.id).
      generalize (ProtocolComponent.id <$> buffered chain system (Some ids) tvl) as l. clear.
      induction l as [|x l IH]; [done|]. simpl list_to_set. simpl length.
      pose proof (size_union_alt {[x]} (list_to_set l : gset string)) as E. rewrite E, size_singleton.
      pose proof (subseteq_size (list_to_set l ∖ {[x]}) (list_to_set l : gset string) ltac:(set_solver)).
      lia. }
    rewrite Hp by lia. by rewrite (nil_length_inv (db chain system (Some ids) tvl)) by lia.
  - rewrite inner_piece by done. eexists. split; [done|]. simpl. by apply Hp.
Qed.


(** A client that asks for components by id splits the ids into chunks and asks for page [i] of
    chunk [i]: the answer has the components of the first chunk only. *)
Theorem paginated_ids_first_chunk chain system ids tvl chunk_size concurrency :
  answers_pages → ids_unique → 0 < chunk_size → ids ≠ [] →
  get_protocol_components_paginated chain system (Some ids) tvl (Some chunk_size) concurrency =
    Some (Ok (found chain system (Some (take chunk_size ids)) tvl)).
Proof.
  intros Hs Hu Hn Hids. unfold get_protocol_components_paginated, chunks. simpl default.
  rewrite decide_False by lia. cbn [mbind result_bind].
  destruct (chunks_go_cons chunk_size (length ids) ids Hn Hids) as (rest & -> & Hrest); [done|].
  rewrite imap_cons. cbn [mapM].
  destruct (chunk_page chain system (take chunk_size ids) tvl 0 chunk_size Hs Hu Hn)
    as (p & Hp & Hd); [rewrite length_take; lia|]. rewrite Hp. simpl mbind.
  destruct (mapM_singleton_rest
    (fun '(index, chunk) => get_protocol_components
       (components_request chain system (Some chunk) tvl (Z.of_nat index) chunk_size))
    (imap (pair ∘ S) rest)) as (ps & -> & Hj).
  { intros x Hx. apply elem_of_lookup_imap in Hx as (j & c & -> & Hc). simpl.
    destruct (chunk_page chain system c tvl (S j) chunk_size Hs Hu Hn) as (q & Hq & Hqd).
    { apply (Forall_lookup_1 _ _ _ _ Hrest Hc). }
    exists q. split; [done|]. by rewrite decide_False in Hqd by lia. }
  cbn [mret result_ret mbind result_bind].
  change (mjoin (Page.data <$> p :: ps)) with (Page.data p ++ mjoin (Page.data <$> ps)).
  by rewrite Hj, Hd, app_nil_r.
Qed.

End composed.

(** * Witnesses *)

Section witnesses.

Definition component (name : string) : ProtocolComponent.t :=
  ProtocolComponent.mk name "uniswap_v2" "pool" Ethereum [] [] ∅ Creation [] 0.

Definition requested (o : option (list string)) (c : ProtocolComponent.t) : Prop :=
  match o with Some ids => ProtocolComponent.id c ∈ ids | None => True end.
#[local] Instance requested_dec o c : Decision (requested o c).
Proof. destruct o; simpl; apply _. Defined.

Definition having (names : list string) (_ : Chain) (_ : string) (o : option (list string)) (_ : option f64) :
    list ProtocolComponent.t := filter (requested o) (component <$> names).

(** Three components in the database, one in the buffer. *)
Definition stored := having ["a"; "b"; "c"].
Definition pending := having ["d"].

(** A cache that keeps everything. *)
Abbreviation entries := (list (ProtocolComponentsParams.t * Page.t (list ProtocolComponent.t))).
#[local] Instance entries_cache : PageCache entries := {
  cache_get p c := snd <$> (snd <$> list_find (fun e => request_eqb e.1 p = true) c);
  cache_insert k v c := (k, v) :: c;
  cache_invalidate k c := c
}.

Lemma entries_laws : PageCacheLaws entries.
Proof.
  split; [|done]. intros k v p c v'. simpl. case_decide as Hk; simpl; [intros [= <-]; by left|].
  intros Hf. right. rewrite <-Hf. by destruct (list_find _ c) as [[i e]|].
Qed.

(** A client of a server with the components [names] in the database, [new] in the buffer and
    [cache] at every request. *)
Definition client_of (names new : list string) (cache : entries) : RPCClient := {|
  compression := true;
  get_contract_state _ := Err (Fatal "");
  get_protocol_components p :=
    (ServerPages.get_protocol_components (for_request (having names)) (for_request (having new)) p cache).1;
  get_protocol_states _ := Err (Fatal "");
  get_tokens _ := Err (Fatal "");
  get_component_tvl _ := Err (Fatal "");
  get_traced_entry_points _ := Err (Fatal "")
|}.
#[local] Instance example_client : RPCClient := client_of ["a"; "b"; "c"] ["d"] [].

Lemma example_answers : answers_pages (C := entries) stored pending.
Proof. intros p. exists []. split; [by intros q v|done]. Qed.


(** A page that was cached when there were three components, and what a client then gets when
    there are five: the total of the old page leaves the last one out. *)
Lemma stale_page_misses_components :
  let first := components_request Ethereum "uniswap_v2" None None 0 2 in
  let cache : entries :=
    (ServerPages.get_protocol_components (for_request (having ["a"; "b"; "c"])) (for_request (having [])) first []).2 in
  get_protocol_components_paginated (H := client_of ["a"; "b"; "c"; "d"; "e"] [] cache)
    Ethereum "uniswap_v2" None None (Some 2) 2 = Some (Ok (component <$> ["a"; "b"; "c"; "d"])).
Proof. vm_compute. reflexivity. Qed.

Lemma example_ids_unique : ids_unique stored pending.
Proof.
  intros chain system ids tvl. unfold found, stored, pending, having.
  rewrite <-filter_app, <-fmap_app. simpl app. split.
  - apply (sublist_NoDup _ (ProtocolComponent.id <$> (component <$> ["a"; "b"; "c"; "d"]))).
    + apply (bool_decide_unpack _). vm_compute. exact I.
    + apply fmap_sublist, sublist_filter.
  - by intros c [Hc _]%list_elem_of_filter.
Qed.

Lemma paginated_ids_first_chunk_witness :
  get_protocol_components_paginated Ethereum "uniswap_v2" (Some ["a"; "c"; "b"]) None (Some 2) 2 =
    Some (Ok (component <$> ["a"; "c"])).
Proof.
  apply (paginated_ids_first_chunk (C := entries) stored pending);
    [apply example_answers|apply example_ids_unique|lia|done].
Defined.

End witnesses.
