(* ===== verification/ComponentTracker.v ===== *)
(** Which components and contracts a client follows:
    [tycho_client::feed::component_tracker].

    The tracker keeps the tracked components, the traced entry points with the components
    and contracts they relate, and the set of contracts whose changes are let through. *)

From Stdlib Require Import SpecFloat Ascii.
From S2P Require Import Prelude Collections Bytes Models Blockchain ClientRpc.

Open Scope tycho_scope.

(** [str::to_lowercase] on the characters an id has: letters, digits and punctuation of
    ASCII; other bytes are left as they are. *)
Definition ascii_lower (c : ascii) : ascii :=
  let n := nat_of_ascii c in
  if ((65 <=? n) && (n <=? 90))%nat then ascii_of_nat (n + 32) else c.
Fixpoint to_lowercase (s : string) : string :=
  match s with
  | EmptyString => EmptyString
  | String c s' => String (ascii_lower c) (to_lowercase s')
  end.

(** [a < b] and [a > b] on [f64]: false when either side is NaN. *)
Definition f64_lt (a b : f64) : bool := SFltb a b.
Definition f64_gt (a b : f64) : bool := SFltb b a.

Module ComponentFilter.

(** [ComponentFilterVariant] *)
Inductive t :=
| VIds (ids : list string)
| MinimumTVLRange (remove add : f64) (blocklisted_ids : gset string).

Definition MinimumTVL (min_tvl : f64) : t := MinimumTVLRange min_tvl min_tvl ∅.

Definition with_tvl_range (remove_tvl_threshold add_tvl_threshold : f64) : t :=
  MinimumTVLRange remove_tvl_threshold add_tvl_threshold ∅.

Definition Ids (ids : list string) : t := VIds (to_lowercase <$> ids).

Definition blocklist (ids : list string) (self : t) : t :=
  match self with
  | VIds _ => self
  | MinimumTVLRange remove add blocklisted_ids =>
      MinimumTVLRange remove add (blocklisted_ids ∪ list_to_set (to_lowercase <$> ids))
  end.

Definition is_blocklisted (id : string) (self : t) : bool :=
  match self with
  | VIds _ => false
  | MinimumTVLRange _ _ blocklisted_ids => bool_decide (to_lowercase id ∈ blocklisted_ids)
  end.

End ComponentFilter.

Module EntrypointRelations.
Record t := mk { components : gset string; contracts : gset Bytes }.
Definition default_ : t := mk ∅ ∅.
Definition add_contracts (cs : gset Bytes) (self : t) : t := mk (components self) (contracts self ∪ cs).
Definition add_component (id : string) (self : t) : t := mk (components self ∪ {[id]}) (contracts self).
End EntrypointRelations.

Module ComponentTracker.
Record t := mk {
  chain : Chain;
  protocol_system : string;
  filter : ComponentFilter.t;
  components : gmap string ProtocolComponent.t;
  entrypoints : gmap string EntrypointRelations.t;
  contracts : gset Bytes
}.

Definition new (chain : Chain) (protocol_system : string) (filter : ComponentFilter.t) : t :=
  mk chain protocol_system filter ∅ ∅ ∅.

Definition set_components (x : gmap string ProtocolComponent.t) (self : t) : t :=
  mk (chain self) (protocol_system self) (filter self) x (entrypoints self) (contracts self).
Definition set_entrypoints (x : gmap string EntrypointRelations.t) (self : t) : t :=
  mk (chain self) (protocol_system self) (filter self) (components self) x (contracts self).
Definition set_contracts (x : gset Bytes) (self : t) : t :=
  mk (chain self) (protocol_system self) (filter self) (components self) (entrypoints self) x.

Definition contract_set (comp : ProtocolComponent.t) : gset Bytes :=
  list_to_set (ProtocolComponent.contract_addresses comp).

(** [for entrypoint in self.entrypoints.values()]: the contracts of those linked to [ids]. *)
Definition extend_linked (ids : gset string) (self : t) : t :=
  foldl (fun s entrypoint =>
    if decide (EntrypointRelations.components entrypoint ## ids) then s
    else set_contracts (contracts s ∪ EntrypointRelations.contracts entrypoint) s)
    self (map_to_list (entrypoints self)).*2.

Definition reinitialize_contracts (self : t) : t :=
  let self := set_contracts
    (⋃ (contract_set <$> (map_to_list (components self)).*2)) self in
  extend_linked (dom (components self)) self.

(** The first loop of [update_contracts], with the set [tracked_component_ids]. *)
Definition update_component (acc : t * gset string) (comp : string) : t * gset string :=
  match components acc.1 !! comp with
  | Some component =>
      (set_contracts (contracts acc.1 ∪ contract_set component) acc.1, acc.2 ∪ {[comp]})
  | None => acc
  end.

Definition update_contracts (ids : list string) (self : t) : t :=
  let '(self, tracked_component_ids) := foldl update_component (self, ∅) ids in
  extend_linked tracked_component_ids self.

(** [.map(|comp| (comp.id.clone(), comp)).collect::<HashMap<_, _>>()] *)
Definition by_id (l : list ProtocolComponent.t) : gmap string ProtocolComponent.t :=
  foldl (fun m comp => <[ProtocolComponent.id comp := comp]> m) ∅ l.

Section rpc.
Context `{!RPCClient}.

Definition RPC_CLIENT_CONCURRENCY : nat := 4.

(** The request of [initialise_components]. *)
Definition request_components (self : t) : timed RPCError (list ProtocolComponent.t) :=
  match filter self with
  | ComponentFilter.VIds ids =>
      get_protocol_components_paginated (chain self) (protocol_system self) (Some ids) None None
        RPC_CLIENT_CONCURRENCY
  | ComponentFilter.MinimumTVLRange _ upper_tvl_threshold _ =>
      get_protocol_components_paginated (chain self) (protocol_system self) None
        (Some upper_tvl_threshold) None RPC_CLIENT_CONCURRENCY
  end.

Definition initialise_components (self : t) : timed RPCError t :=
  comps <~ request_components self;
  Some (Ok (reinitialize_contracts
    (set_components
       (by_id (base.filter (fun comp => is_true (negb
          (ComponentFilter.is_blocklisted (ProtocolComponent.id comp) (filter self)))) comps)) self))).

Definition start_tracking (new_components : list string) (self : t) : result RPCError t :=
  let new_components :=
    base.filter (fun id => is_true (negb (ComponentFilter.is_blocklisted id (filter self)))) new_components in
  if decide (new_components = []) then Ok self
  else
    page ← get_protocol_components
             (ProtocolComponentsParams.with_component_ids new_components
                (ProtocolComponentsParams.new (chain self) (protocol_system self)));
    let comps := by_id (Page.data page) in
    Ok (update_contracts (map_to_list comps).*1
          (set_components (extend (components self) comps) self)).

End rpc.

(** The loop of [stop_tracking], with [removed_components]. *)
Definition remove_component (acc : t * gmap string ProtocolComponent.t) (component_id : string) :
    t * gmap string ProtocolComponent.t :=
  match components acc.1 !! component_id with
  | Some component =>
      (set_components (delete component_id (components acc.1)) acc.1,
       <[component_id := component]> acc.2)
  | None => acc
  end.

Definition stop_tracking (to_remove : list string) (self : t) :
    t * gmap string ProtocolComponent.t :=
  let '(self, removed_components) := foldl remove_component (self, ∅) to_remove in
  (reinitialize_contracts self, removed_components).

(** [for (entrypoint, traces) in &dci_update.trace_results] *)
Definition add_trace (self : t) (kv : string * TracingResult.t) : t :=
  set_entrypoints
    (upsert (fun traces o =>
       EntrypointRelations.add_contracts (dom (TracingResult.accessed_slots traces))
         (default EntrypointRelations.default_ o)) (entrypoints self) kv) self.

(** The body of the inner loop over the entry points of a component. *)
Definition link_entrypoint (component : string) (self : t) (entrypoint : EntryPoint.t) : t :=
  let info := EntrypointRelations.add_component component
    (default EntrypointRelations.default_ (entrypoints self !! EntryPoint.external_id entrypoint)) in
  let self := set_entrypoints (<[EntryPoint.external_id entrypoint := info]> (entrypoints self)) self in
  if decide (is_Some (components self !! component))
  then set_contracts (contracts self ∪ EntrypointRelations.contracts info) self
  else self.

Definition link_component (self : t) (kv : string * gset EntryPoint.t) : t :=
  foldl (link_entrypoint kv.1) self (elements kv.2).

Definition process_entrypoints (dci_update : DCIUpdate.t) (self : t) : t :=
  foldl link_component
    (foldl add_trace self (map_to_list (DCIUpdate.trace_results dci_update)))
    (map_to_list (DCIUpdate.new_entrypoints dci_update)).

(** The contracts of one id, [None] when it is not tracked. *)
Definition contracts_of (self : t) (cid : string) : option (gset Bytes) :=
  comp ← components self !! cid;
  let dci_contracts := ⋃ (EntrypointRelations.contracts <$>
    base.filter (fun ep => cid ∈ EntrypointRelations.components ep) (map_to_list (entrypoints self)).*2) in
  Some (contract_set comp ∪ dci_contracts).

Definition get_contracts_by_component (ids : list string) (self : t) : gset Bytes :=
  ⋃ omap (contracts_of self) ids.

Definition get_tracked_component_ids (self : t) : list string := (map_to_list (components self)).*1.

Definition filter_updated_components (deltas : BlockAggregatedChanges.t) (self : t) :
    list string * list string :=
  match filter self with
  | ComponentFilter.VIds _ => ([], [])
  | ComponentFilter.MinimumTVLRange remove_tvl add_tvl _ =>
      let tvls := BlockAggregatedChanges.component_tvl deltas in
      let moved := (base.filter (fun kv : string * f64 =>
        is_true (f64_lt kv.2 remove_tvl || f64_gt kv.2 add_tvl)) (map_to_list tvls)).*1 in
      let above id := match tvls !! id with Some tvl => f64_gt tvl add_tvl | None => false end in
      let to_add := base.filter (fun id => is_true (above id)) moved in
      let to_remove := base.filter (fun id => ~ is_true (above id)) moved in
      (base.filter (fun id => is_true (negb (ComponentFilter.is_blocklisted id (filter self)))) to_add,
       foldl (fun to_remove id =>
         if ComponentFilter.is_blocklisted id (filter self) && negb (bool_decide (id ∈ to_remove))
         then to_remove ++ [id] else to_remove) to_remove (get_tracked_component_ids self))
  end.

End ComponentTracker.
