(* ===== verification/ComponentTrackerSpec.v ===== *)
(** Theorems on the component tracker: the set of followed contracts covers every contract
    of a tracked component under all operations, is exact after a removal, and the decisions
    on the TVL of components. *)

From Stdlib Require Import SpecFloat Strings.Byte.
From S2P Require Import Prelude Collections Bytes Models Blockchain ClientRpc ComponentTracker.
Import ComponentTracker.

Open Scope tycho_scope.

(** [c] is a contract of the entry point [ep], which is linked to [id]. *)
Definition linked (s : t) (id : string) (c : Bytes) : Prop :=
  ∃ e ep, entrypoints s !! e = Some ep ∧ id ∈ EntrypointRelations.components ep ∧
    c ∈ EntrypointRelations.contracts ep.

(** [c] is needed to simulate the tracked component [id]. *)
Definition needs (s : t) (id : string) (c : Bytes) : Prop :=
  ∃ comp, components s !! id = Some comp ∧ (c ∈ contract_set comp ∨ linked s id c).

(** Every needed contract is followed. *)
Definition covered (s : t) : Prop := ∀ id c, needs s id c → c ∈ contracts s.

(** * The operations *)

Lemma not_disjoint (X Y : gset string) : ¬ X ## Y → ∃ x, x ∈ X ∧ x ∈ Y.
Proof.
  intros Hd. destruct (set_choose_or_empty (X ∩ Y)) as [[x Hx]|He]; [exists x; set_solver|].
  exfalso. apply Hd. set_solver.
Qed.

Lemma extend_linked_spec ids s :
  components (extend_linked ids s) = components s ∧
  entrypoints (extend_linked ids s) = entrypoints s ∧
  filter (extend_linked ids s) = filter s ∧
  ∀ c, c ∈ contracts (extend_linked ids s) ↔ c ∈ contracts s ∨ ∃ id, id ∈ ids ∧ linked s id c.
Proof.
  unfold extend_linked. set (step := fun (s : t) (entrypoint : EntrypointRelations.t) => _).
  assert (∀ l s0,
    let r := foldl step s0 l in
    components r = components s0 ∧ entrypoints r = entrypoints s0 ∧ filter r = filter s0 ∧
    ∀ c, c ∈ contracts r ↔ c ∈ contracts s0 ∨ ∃ ep id, ep ∈ l ∧ id ∈ ids ∧
      id ∈ EntrypointRelations.components ep ∧ c ∈ EntrypointRelations.contracts ep) as Hgen.
  { induction l as [|ep l IH]; intros s0; simpl.
    { split_and!; [done..|]. intros c. split; [by left|]. intros [?|(? & ? & H & _)]; [done|].
      by apply not_elem_of_nil in H. }
    destruct (IH (step s0 ep)) as (-> & -> & -> & Hc).
    unfold step at 1 2 3. case_decide as Hd; (split_and!; [done..|]); intros c; rewrite Hc;
      unfold step; [rewrite decide_True by done|rewrite decide_False by done];
      setoid_rewrite elem_of_cons.
    - set_solver.
    - apply not_disjoint in Hd as (id & Hid1 & Hid2). simpl. rewrite elem_of_union. naive_solver. }
  destruct (Hgen (map_to_list (entrypoints s)).*2 s) as (E1 & E2 & E3 & E4).
  split_and!; [done..|]. intros c. rewrite E4. unfold linked.
  split; intros [Hc|H]; try (by left); right.
  - destruct H as (ep & id & ((e & ep') & -> & He%elem_of_map_to_list)%list_elem_of_fmap & Hid & Hl & Hc).
    exists id. split; [done|]. by exists e, ep'.
  - destruct H as (id & Hid & e & ep & He & Hl & Hc). exists ep, id. split_and!; try done.
    apply list_elem_of_fmap. exists (e, ep). split; [done|]. by apply elem_of_map_to_list.
Qed.

Lemma reinitialize_spec s :
  components (reinitialize_contracts s) = components s ∧
  entrypoints (reinitialize_contracts s) = entrypoints s ∧
  filter (reinitialize_contracts s) = filter s ∧
  ∀ c, c ∈ contracts (reinitialize_contracts s) ↔ ∃ id, needs s id c.
Proof.
  unfold reinitialize_contracts. set (s0 := set_contracts _ s).
  destruct (extend_linked_spec (dom (components s0)) s0) as (E1 & E2 & E3 & E4).
  split_and!; [done..|]. intros c. rewrite E4. unfold needs. simpl.
  rewrite elem_of_union_list. setoid_rewrite elem_of_dom. split.
  - intros [(X & (comp & -> & ((id & ?) & -> & H%elem_of_map_to_list)%list_elem_of_fmap)%list_elem_of_fmap
              & Hc)|(id & [comp Hid] & Hl)].
    + exists id. eexists. split; [exact H|]. by left.
    + exists id, comp. split; [done|]. by right.
  - intros (id & comp & Hid & [Hc|Hl]); [left|right].
    + exists (contract_set comp). split; [|done]. apply list_elem_of_fmap. exists comp. split; [done|].
      apply list_elem_of_fmap. exists (id, comp). split; [done|]. by apply elem_of_map_to_list.
    + exists id. split; [by exists comp|done].
Qed.

Lemma update_contracts_spec ids s :
  components (update_contracts ids s) = components s ∧
  entrypoints (update_contracts ids s) = entrypoints s ∧
  filter (update_contracts ids s) = filter s ∧
  ∀ c, c ∈ contracts (update_contracts ids s) ↔ c ∈ contracts s ∨ ∃ id, id ∈ ids ∧ needs s id c.
Proof.
  unfold update_contracts.
  assert (∀ l acc,
    let r := foldl update_component acc l in
    components r.1 = components acc.1 ∧ entrypoints r.1 = entrypoints acc.1 ∧
    filter r.1 = filter acc.1 ∧
    (∀ id, id ∈ r.2 ↔ id ∈ acc.2 ∨ id ∈ l ∧ is_Some (components acc.1 !! id)) ∧
    ∀ c, c ∈ contracts r.1 ↔ c ∈ contracts acc.1 ∨ ∃ id comp, id ∈ l ∧
      components acc.1 !! id = Some comp ∧ c ∈ contract_set comp) as Hgen.
  { induction l as [|id l IH]; intros acc; simpl.
    { split_and!; [done..| |]; set_solver. }
    destruct (IH (update_component acc id)) as (-> & -> & -> & HT & Hc).
    assert (components (update_component acc id).1 = components acc.1) as Ecomp.
    { unfold update_component. by destruct (components acc.1 !! id). }
    split_and!; [done|unfold update_component; by destruct (components acc.1 !! id)..| |].
    - intros id'. rewrite HT, Ecomp, elem_of_cons. unfold update_component.
      destruct (components acc.1 !! id) eqn:E; simpl; [rewrite elem_of_union, elem_of_singleton|].
      + split; [intros [[|]|[]]|intros [|[[|] ?]]]; subst; rewrite ?E; eauto.
      + split; [intros [|[]]|intros [|[[->|] Hs]]]; eauto. rewrite E in Hs. by destruct Hs.
    - intros c. rewrite Hc, Ecomp. setoid_rewrite elem_of_cons. unfold update_component.
      destruct (components acc.1 !! id) eqn:E; simpl; [rewrite elem_of_union|].
      + split; [intros [[|]|(?&?&?&?&?)]|intros [|(?&?&[|]&?&?)]]; simplify_eq; eauto 10.
      + split; [intros [|(?&?&?&?&?)]|intros [|(?&?&[|]&?&?)]]; simplify_eq; eauto 10. }
  specialize (Hgen ids (s, ∅)). destruct (foldl update_component (s, ∅) ids) as [s1 T].
  simpl in Hgen. destruct Hgen as (E1 & E2 & E3 & HT & Hc).
  destruct (extend_linked_spec T s1) as (F1 & F2 & F3 & F4).
  rewrite F1, F2, F3. split_and!; [done..|]. intros c. rewrite F4, Hc. setoid_rewrite HT.
  unfold needs, linked. rewrite E2. unfold is_Some. set_solver.
Qed.

(** What an entry point relates, nothing when it is unknown. *)
Definition ep_components (s : t) (e : string) : gset string :=
  default ∅ (EntrypointRelations.components <$> entrypoints s !! e).
Definition ep_contracts (s : t) (e : string) : gset Bytes :=
  default ∅ (EntrypointRelations.contracts <$> entrypoints s !! e).

Lemma linked_alt s id c : linked s id c ↔ ∃ e, id ∈ ep_components s e ∧ c ∈ ep_contracts s e.
Proof.
  unfold linked, ep_components, ep_contracts. split.
  - intros (e & ep & He & ? & ?). exists e. by rewrite He.
  - intros (e & H1 & H2). destruct (entrypoints s !! e) as [ep|] eqn:E; [|set_solver]. by exists e, ep.
Qed.

(** The update traces [c] for the entry point [e]; it announces [e] for the component [id]. *)
Definition traced (u : DCIUpdate.t) (e : string) : gset Bytes :=
  default ∅ ((dom ∘ TracingResult.accessed_slots) <$> DCIUpdate.trace_results u !! e).
Definition announced (u : DCIUpdate.t) (id e : string) : Prop :=
  ∃ eps x, DCIUpdate.new_entrypoints u !! id = Some eps ∧ x ∈ eps ∧ EntryPoint.external_id x = e.

Lemma add_traces_spec u s :
  let r := foldl add_trace s (map_to_list (DCIUpdate.trace_results u)) in
  components r = components s ∧ filter r = filter s ∧ contracts r = contracts s ∧
  ∀ e, ep_components r e = ep_components s e ∧ ep_contracts r e = ep_contracts s e ∪ traced u e.
Proof.
  set (f := fun (traces : TracingResult.t) (o : option EntrypointRelations.t) =>
    EntrypointRelations.add_contracts (dom (TracingResult.accessed_slots traces))
      (default EntrypointRelations.default_ o)).
  assert (∀ l s0, foldl add_trace s0 l = set_entrypoints (foldl (upsert f) (entrypoints s0) l) s0) as Hf.
  { induction l as [|kv l IH]; intros [] ; simpl; [done|]. by rewrite IH. }
  simpl. rewrite Hf. split_and!; [done..|]. intros e. unfold ep_components, ep_contracts, traced. simpl.
  change (foldl (upsert f) (entrypoints s) (map_to_list (DCIUpdate.trace_results u)))
    with (upsert_all f (entrypoints s) (DCIUpdate.trace_results u)).
  rewrite lookup_upsert_all.
  destruct (DCIUpdate.trace_results u !! e) as [tr|], (entrypoints s !! e) as [ep|]; simpl; set_solver.
Qed.

Lemma link_entrypoint_spec id s x :
  let r := link_entrypoint id s x in
  components r = components s ∧ filter r = filter s ∧
  (∀ e, ep_components r e = ep_components s e ∪ (if decide (e = EntryPoint.external_id x) then {[id]} else ∅)) ∧
  (∀ e, ep_contracts r e = ep_contracts s e) ∧
  contracts r = contracts s ∪
    (if decide (is_Some (components s !! id)) then ep_contracts s (EntryPoint.external_id x) else ∅).
Proof.
  unfold link_entrypoint. simpl. unfold ep_components, ep_contracts.
  set (e0 := EntryPoint.external_id x).
  set (m := <[e0 := _]> (entrypoints s)).
  assert (∀ e,
    default ∅ (EntrypointRelations.components <$> m !! e) =
      default ∅ (EntrypointRelations.components <$> entrypoints s !! e) ∪
        (if decide (e = e0) then {[id]} else ∅) ∧
    default ∅ (EntrypointRelations.contracts <$> m !! e) =
      default ∅ (EntrypointRelations.contracts <$> entrypoints s !! e)) as He.
  { intros e. unfold m. case_decide as Hd;
      [subst e; rewrite lookup_insert_eq|rewrite lookup_insert_ne by done; set_solver].
    destruct (entrypoints s !! e0); simpl; split; set_solver. }
  case_decide as Hc; simpl; (split_and!; [done|done|..]).
  1, 2, 4, 5: intros e; apply He.
  - f_equal. by destruct (entrypoints s !! e0).
  - set_solver.
Qed.

Lemma link_component_spec s id (eps : gset EntryPoint.t) :
  let r := link_component s (id, eps) in
  components r = components s ∧ filter r = filter s ∧
  (∀ e id', id' ∈ ep_components r e ↔ id' ∈ ep_components s e ∨
     id' = id ∧ ∃ x, x ∈ eps ∧ EntryPoint.external_id x = e) ∧
  (∀ e, ep_contracts r e = ep_contracts s e) ∧
  (∀ c, c ∈ contracts r ↔ c ∈ contracts s ∨
     is_Some (components s !! id) ∧ ∃ x, x ∈ eps ∧ c ∈ ep_contracts s (EntryPoint.external_id x)).
Proof.
  unfold link_component. simpl. setoid_rewrite <-(elem_of_elements eps). generalize (elements eps) as l.
  intros l. revert s; induction l as [|x l IH]; intros s; simpl.
  { split_and!; [done..| | |]; set_solver. }
  destruct (link_entrypoint_spec id s x) as (E1 & E2 & E3 & E4 & E5).
  destruct (IH (link_entrypoint id s x)) as (-> & -> & F3 & F4 & F5).
  split_and!; [done..| | |].
  - intros e id'. rewrite F3, E3, elem_of_union. setoid_rewrite elem_of_cons.
    clear IH E1 E2 E3 E4 E5 F3 F4 F5. case_decide; set_solver.
  - intros e. by rewrite F4.
  - intros c. rewrite F5, E5, E1, elem_of_union. setoid_rewrite E4. setoid_rewrite elem_of_cons.
    clear IH E1 E2 E3 E4 E5 F3 F4 F5. case_decide; set_solver.
Qed.

(** [process_entrypoints]: entry points gain what is traced and announced, contracts are
    followed when their entry point is announced for a tracked component. *)
Lemma process_entrypoints_spec u s :
  let r := process_entrypoints u s in
  components r = components s ∧ filter r = filter s ∧
  (∀ e id, id ∈ ep_components r e ↔ id ∈ ep_components s e ∨ announced u id e) ∧
  (∀ e, ep_contracts r e = ep_contracts s e ∪ traced u e) ∧
  (∀ c, c ∈ contracts r ↔ c ∈ contracts s ∨
     ∃ id e, announced u id e ∧ is_Some (components s !! id) ∧ c ∈ ep_contracts s e ∪ traced u e).
Proof.
  unfold process_entrypoints, announced. simpl.
  destruct (add_traces_spec u s) as (E1 & E2 & E3 & E4).
  set (s1 := foldl add_trace s _) in *. clearbody s1.
  assert (∀ l s0,
    let r := foldl link_component s0 l in
    components r = components s0 ∧ filter r = filter s0 ∧
    (∀ e id', id' ∈ ep_components r e ↔ id' ∈ ep_components s0 e ∨
       ∃ eps x, (id', eps) ∈ l ∧ x ∈ eps ∧ EntryPoint.external_id x = e) ∧
    (∀ e, ep_contracts r e = ep_contracts s0 e) ∧
    (∀ c, c ∈ contracts r ↔ c ∈ contracts s0 ∨
       ∃ id eps x, (id, eps) ∈ l ∧ x ∈ eps ∧ is_Some (components s0 !! id) ∧
         c ∈ ep_contracts s0 (EntryPoint.external_id x))) as Hgen.
  { induction l as [|[id eps] l IH]; intros s0; simpl.
    { split_and!; [done..| | |]; set_solver. }
    destruct (link_component_spec s0 id eps) as (A1 & A2 & A3 & A4 & A5).
    destruct (IH (link_component s0 (id, eps))) as (-> & -> & F3 & F4 & F5).
    split_and!; [done..| | |].
    - intros e id'. rewrite F3, A3. setoid_rewrite elem_of_cons.
      clear IH A1 A2 A3 A4 A5 F3 F4 F5 E4. set_solver.
    - intros e. by rewrite F4.
    - intros c. rewrite F5, A5, A1. setoid_rewrite A4. setoid_rewrite elem_of_cons.
      clear IH A1 A2 A3 A4 A5 F3 F4 F5 E4. set_solver. }
  destruct (Hgen (map_to_list (DCIUpdate.new_entrypoints u)) s1) as (-> & -> & F3 & F4 & F5).
  split_and!; [done..| | |].
  - intros e id. rewrite F3. setoid_rewrite elem_of_map_to_list. by rewrite (proj1 (E4 e)).
  - intros e. rewrite F4. apply E4.
  - intros c. rewrite F5, E3, E1. setoid_rewrite elem_of_map_to_list.
    setoid_rewrite (fun e => proj2 (E4 e)). clear F3 F4 F5 E4 Hgen. set_solver.
Qed.

(** * Runs of the tracker *)

(** Entry points that were linked to a tracked component before gain no contract that is not
    followed already, unless the update announces them again. *)
Definition no_late_trace (exempt : gset string) (u : DCIUpdate.t) (s : t) : Prop :=
  ∀ id e, is_Some (components s !! id) → id ∉ exempt → id ∈ ep_components s e →
    announced u id e ∨ traced u e ⊆ contracts s.

(** The answer to a request by ids has no other components. *)
Definition only_requested `{!RPCClient} : Prop := ∀ p page ids c,
  get_protocol_components p = Ok page → ProtocolComponentsParams.component_ids p = Some ids →
  c ∈ Page.data page → ProtocolComponent.id c ∈ ids.

(** What happens to new components once their snapshot has arrived
    ([drain_completed_snapshots] of the synchronizer). *)
Definition adopt (comps : gmap string ProtocolComponent.t) (u : DCIUpdate.t) (s : t) : t :=
  update_contracts (map_to_list comps).*1
    (process_entrypoints u (set_components (extend (components s) comps) s)).

Inductive step `{!RPCClient} : t → t → Prop :=
| step_initialise s s' : initialise_components s = Some (Ok s') → step s s'
| step_start ids s s' : start_tracking ids s = Ok s' → step s s'
| step_stop ids s : step s (stop_tracking ids s).1
| step_dci u s : no_late_trace ∅ u s → step s (process_entrypoints u s)
| step_adopt comps u s :
    no_late_trace (dom comps) u s →
    (∀ id, id ∈ dom comps → ComponentFilter.is_blocklisted id (filter s) = false) →
    step s (adopt comps u s).

Lemma needs_ext s s' id c :
  components s' = components s → entrypoints s' = entrypoints s → needs s' id c ↔ needs s id c.
Proof. unfold needs, linked. by intros -> ->. Qed.

Lemma reinitialize_covered s : covered (reinitialize_contracts s).
Proof.
  intros id c. destruct (reinitialize_spec s) as (E1 & E2 & _ & E4).
  rewrite (needs_ext s _ id c E1 E2), E4. by exists id.
Qed.

(** [update_contracts] covers the given components and keeps what was covered. *)
Lemma update_covered ids s :
  (∀ id c, id ∉ ids → needs s id c → c ∈ contracts s) → covered (update_contracts ids s).
Proof.
  intros H id c. destruct (update_contracts_spec ids s) as (E1 & E2 & _ & E4).
  rewrite (needs_ext s _ id c E1 E2), E4. intros Hn.
  destruct (decide (id ∈ ids)); [right; by exists id|left; by apply (H id)].
Qed.

Lemma process_covered exempt u s :
  no_late_trace exempt u s →
  (∀ id c, id ∉ exempt → needs s id c → c ∈ contracts s) →
  ∀ id c, id ∉ exempt → needs (process_entrypoints u s) id c → c ∈ contracts (process_entrypoints u s).
Proof.
  intros Hu Hs id c Hex. destruct (process_entrypoints_spec u s) as (E1 & _ & E3 & E4 & E5).
  unfold needs. rewrite E1, E5. intros (comp & Hid & [Hc|Hl]).
  { left. apply (Hs id); [done|]. exists comp. split; [done|]. by left. }
  apply linked_alt in Hl as (e & He & Hc). rewrite E3 in He. rewrite E4, elem_of_union in Hc.
  destruct He as [He|Ha]; last first.
  { right. exists id, e. split_and!; [done|by exists comp|set_solver]. }
  destruct Hc as [Hc|Hc].
  - left. apply (Hs id); [done|]. exists comp. split; [done|]. right. apply linked_alt. by exists e.
  - destruct (Hu id e) as [Ha|Hsub]; [by exists comp|done|done| |left; set_solver].
    right. exists id, e. split_and!; [done|by exists comp|set_solver].
Qed.

Lemma elem_of_keys {V} (m : gmap string V) id : id ∈ (map_to_list m).*1 ↔ id ∈ dom m.
Proof.
  rewrite list_elem_of_fmap, elem_of_dom. split.
  - intros ([k v] & -> & H%elem_of_map_to_list). by exists v.
  - intros [v H]. exists (id, v). split; [done|]. by apply elem_of_map_to_list.
Qed.

Lemma adopt_covered comps u s :
  no_late_trace (dom comps) u s → covered s → covered (adopt comps u s).
Proof.
  intros Hu Hs. apply update_covered. intros id c Hid. rewrite elem_of_keys in Hid.
  assert (∀ id, id ∉ dom comps → extend (components s) comps !! id = components s !! id) as Hext.
  { intros i Hi. rewrite lookup_extend. by apply not_elem_of_dom in Hi as ->. }
  apply (process_covered (dom comps)); [|..|done].
  - intros i e Hi Hex He. simpl in Hi. rewrite Hext in Hi by done. by apply (Hu i e).
  - intros i x Hi (comp & Hc & Hn). simpl in Hc. rewrite Hext in Hc by done.
    apply (Hs i). by exists comp.
Qed.

Lemma step_covered `{!RPCClient} s s' : step s s' → covered s → covered s'.
Proof.
  intros Hstep Hs. destruct Hstep as [s s' Hi|ids s s' Hi|ids s|u s Hu|comps u s Hu _].
  - unfold initialise_components in Hi. destruct (request_components s) as [[comps| |]|]; [|done..].
    injection Hi as <-. apply reinitialize_covered.
  - unfold start_tracking in Hi. case_decide; [by injection Hi as <-|]. inv_ok.
    apply update_covered. intros id c Hid (comp & Hc & Hn). rewrite elem_of_keys in Hid.
    simpl in Hc. rewrite lookup_extend in Hc. apply not_elem_of_dom in Hid. rewrite Hid in Hc.
    apply (Hs id). by exists comp.
  - unfold stop_tracking. destruct (foldl remove_component (s, ∅) ids). apply reinitialize_covered.
  - intros id c. apply (process_covered ∅ u s Hu); [|set_solver]. intros i x _. apply Hs.
  - by apply adopt_covered.
Qed.

Lemma contracts_of_needs s id c :
  (∃ X, contracts_of s id = Some X ∧ c ∈ X) ↔ needs s id c.
Proof.
  unfold contracts_of, needs. destruct (components s !! id) as [comp|] eqn:E; simpl.
  - split.
    + intros (X & [= <-] & Hc). exists comp. split; [done|]. apply elem_of_union in Hc as [Hc|Hc]; [by left|right].
      apply elem_of_union_list in Hc as (Y & (ep & -> & Hep)%list_elem_of_fmap & Hc).
      apply list_elem_of_filter in Hep as [Hid ((e & ep') & -> & He%elem_of_map_to_list)%list_elem_of_fmap].
      by exists e, ep'.
    + intros (? & [= <-] & Hn). eexists. split; [done|]. apply elem_of_union.
      destruct Hn as [Hc|(e & ep & He & Hid & Hc)]; [by left|right].
      apply elem_of_union_list. exists (EntrypointRelations.contracts ep). split; [|done].
      apply list_elem_of_fmap. exists ep. split; [done|]. apply list_elem_of_filter. split; [done|].
      apply list_elem_of_fmap. exists (e, ep). split; [done|]. by apply elem_of_map_to_list.
  - split; [intros (? & [=] & _)|intros (? & [=] & _)].
Qed.

Lemma by_contracts_needs ids s c :
  c ∈ get_contracts_by_component ids s ↔ ∃ id, id ∈ ids ∧ needs s id c.
Proof.
  unfold get_contracts_by_component. rewrite elem_of_union_list.
  setoid_rewrite list_elem_of_omap. setoid_rewrite <-contracts_of_needs. naive_solver.
Qed.

(** Removing components one by one. *)
Lemma remove_components_spec ids s :
  let r := foldl remove_component (s, ∅) ids in
  entrypoints r.1 = entrypoints s ∧ filter r.1 = filter s ∧
  (∀ id, components r.1 !! id = if decide (id ∈ ids) then None else components s !! id) ∧
  (∀ id, r.2 !! id = if decide (id ∈ ids) then components s !! id else None).
Proof.
  assert (∀ l acc,
    let r := foldl remove_component acc l in
    entrypoints r.1 = entrypoints acc.1 ∧ filter r.1 = filter acc.1 ∧
    (∀ id, components r.1 !! id = if decide (id ∈ l) then None else components acc.1 !! id) ∧
    (∀ id, r.2 !! id = if decide (id ∈ l)
       then match components acc.1 !! id with Some x => Some x | None => acc.2 !! id end
       else acc.2 !! id)) as Hgen.
  { induction l as [|i l IH]; intros acc; simpl; [done|].
    destruct (IH (remove_component acc i)) as (-> & -> & E3 & E4). unfold remove_component in *.
    destruct (components acc.1 !! i) as [x|] eqn:E; simpl in *; (split_and!; [done..| |]); intros id.
    - rewrite E3. destruct (decide (id = i)) as [->|Hne].
      + rewrite (decide_True (P := i ∈ i :: l)) by set_solver. case_decide; [done|]. apply lookup_delete_eq.
      + rewrite lookup_delete_ne by done. do 2 case_decide; set_solver.
    - rewrite E4. destruct (decide (id = i)) as [->|Hne].
      + rewrite (decide_True (P := i ∈ i :: l)) by set_solver.
        rewrite lookup_delete_eq, lookup_insert_eq, E. by case_decide.
      + rewrite lookup_delete_ne, lookup_insert_ne by done. do 2 case_decide; set_solver.
    - rewrite E3. destruct (decide (id = i)) as [->|Hne]; do 2 case_decide; set_solver.
    - rewrite E4. destruct (decide (id = i)) as [->|Hne]; [rewrite E|]; do 2 case_decide; set_solver. }
  destruct (Hgen ids (s, ∅)) as (E1 & E2 & E3 & E4). split_and!; [done..|].
  intros id. rewrite E4. simpl. rewrite lookup_empty. case_decide; [|done].
  by destruct (components s !! id).
Qed.

Lemma push_blocklisted_spec (flt : ComponentFilter.t) l acc id :
  id ∈ foldl (fun to_remove id =>
         if ComponentFilter.is_blocklisted id flt && negb (bool_decide (id ∈ to_remove))
         then to_remove ++ [id] else to_remove) acc l ↔
  id ∈ acc ∨ id ∈ l ∧ ComponentFilter.is_blocklisted id flt = true.
Proof.
  revert acc; induction l as [|i l IH]; intros acc; simpl; [set_solver|].
  rewrite IH, elem_of_cons. destruct (ComponentFilter.is_blocklisted i flt) eqn:E; simpl.
  - case_bool_decide; simpl; [|rewrite elem_of_app, list_elem_of_singleton];
      destruct (decide (id = i)) as [->|]; naive_solver.
  - destruct (decide (id = i)) as [->|]; [rewrite E|]; naive_solver.
Qed.

(** The components whose TVL left the range. *)
Lemma moved_spec (tvl : gmap string f64) remove_tvl add_tvl id :
  id ∈ (base.filter (fun kv : string * f64 =>
          is_true (f64_lt kv.2 remove_tvl || f64_gt kv.2 add_tvl)) (map_to_list tvl)).*1 ↔
  ∃ x, tvl !! id = Some x ∧ (f64_lt x remove_tvl = true ∨ f64_gt x add_tvl = true).
Proof.
  rewrite list_elem_of_fmap. setoid_rewrite list_elem_of_filter. split.
  - intros ([k x] & -> & Hx & He%elem_of_map_to_list). exists x. split; [done|]. by apply orb_true_iff.
  - intros (x & Hx & Hor). exists (id, x). split; [done|]. split; [by apply orb_true_iff|].
    by apply elem_of_map_to_list.
Qed.

(** No component on the blocklist is tracked. *)
Definition unblocked (s : t) : Prop := ∀ id,
  is_Some (components s !! id) → ComponentFilter.is_blocklisted id (filter s) = false.

Lemma by_id_dom l id : is_Some (by_id l !! id) → ∃ c, c ∈ l ∧ ProtocolComponent.id c = id.
Proof.
  unfold by_id.
  assert (∀ m : gmap string ProtocolComponent.t,
    is_Some (foldl (fun m comp => <[ProtocolComponent.id comp := comp]> m) m l !! id) →
    is_Some (m !! id) ∨ ∃ c, c ∈ l ∧ ProtocolComponent.id c = id) as Hgen.
  { induction l as [|c l IH]; intros m; simpl; [by left|]. intros [H|H]%IH; [|set_solver].
    destruct (decide (ProtocolComponent.id c = id)); [set_solver|].
    rewrite lookup_insert_ne in H by done. by left. }
  intros [H|H]%Hgen; [|done]. rewrite lookup_empty in H. by destruct H.
Qed.

Lemma step_unblocked `{!RPCClient} s s' : only_requested → step s s' → unblocked s → unblocked s'.
Proof.
  intros Honly Hstep Hs. destruct Hstep as [s s' Hi|ids s s' Hi|ids s|u s _|comps u s _ Hb].
  - unfold initialise_components in Hi. destruct (request_components s) as [[comps| |]|]; [|done..].
    injection Hi as <-. set (s0 := set_components _ s).
    destruct (reinitialize_spec s0) as (E1 & _ & E3 & _). intros id. rewrite E1, E3.
    intros (c & [Hc _]%list_elem_of_filter & <-)%by_id_dom. by apply negb_true_iff in Hc.
  - unfold start_tracking in Hi. case_decide; [by injection Hi as <-|]. inv_ok.
    match goal with |- unblocked (update_contracts ?l ?s0) =>
      destruct (update_contracts_spec l s0) as (E1 & _ & E3 & _) end.
    intros id. rewrite E1, E3. simpl. rewrite lookup_extend.
    destruct (by_id (Page.data x) !! id) eqn:Eid; [|apply Hs]. intros _.
    destruct (by_id_dom (Page.data x) id) as (c & Hc & <-); [by rewrite Eid|].
    pose proof (Honly _ _ _ c E ltac:(done) Hc) as Hin.
    apply list_elem_of_filter in Hin as [Hn _]. by apply negb_true_iff in Hn.
  - unfold stop_tracking. destruct (remove_components_spec ids s) as (_ & E2 & E3 & _).
    destruct (foldl remove_component (s, ∅) ids) as [s1 removed]. simpl in *.
    destruct (reinitialize_spec s1) as (F1 & _ & F3 & _). intros id. rewrite F1, F3, E2, E3.
    case_decide; [by intros []|apply Hs].
  - destruct (process_entrypoints_spec u s) as (E1 & E2 & _). intros id. rewrite E1, E2. apply Hs.
  - unfold adopt. match goal with |- unblocked (update_contracts ?l ?s0) =>
      destruct (update_contracts_spec l s0) as (E1 & _ & E3 & _) end.
    destruct (process_entrypoints_spec u (set_components (extend (components s) comps) s)) as (F1 & F2 & _).
    intros id. rewrite E1, E3, F1, F2. simpl. rewrite lookup_extend.
    destruct (comps !! id) eqn:Eid; [|apply Hs]. intros _. apply Hb. by apply elem_of_dom_2 in Eid.
Qed.

(** * Theorems *)

(** C22. Whatever the client does, the contracts of every tracked component, those its traced entry
    points access included, are in the set whose changes are let through, as long as no update
    traces new contracts for an entry point without announcing it again. *)
Theorem tracked_contracts_followed `{!RPCClient} chain system flt s ids :
  rtc step (new chain system flt) s → get_contracts_by_component ids s ⊆ contracts s.
Proof.
  intros Hr c (id & _ & Hn)%by_contracts_needs. revert id c Hn. change (covered s).
  remember (new chain system flt) as s0 eqn:E0.
  assert (covered s0) as H0.
  { subst. intros id c (comp & Hc & _). simpl in Hc. by rewrite lookup_empty in Hc. }
  clear E0. induction Hr as [|s0 s1 s2 Hs _ IH]; [done|]. apply IH. by eapply step_covered.
Qed.

(** An update that traces a new contract for an entry point already linked to a tracked
    component, and announces nothing, leaves a contract of the component that is not followed. *)
Theorem late_trace_not_followed s u id e c :
  is_Some (components s !! id) → id ∈ ep_components s e →
  DCIUpdate.new_entrypoints u = ∅ → c ∈ traced u e → c ∉ contracts s →
  let s' := process_entrypoints u s in
  c ∈ get_contracts_by_component [id] s' ∧ c ∉ contracts s'.
Proof.
  intros [comp Hid] He Hnew Hc Hn. simpl.
  destruct (process_entrypoints_spec u s) as (E1 & _ & E3 & E4 & E5). split.
  - apply by_contracts_needs. exists id. split; [by left|]. exists comp. rewrite E1. split; [done|].
    right. apply linked_alt. exists e. rewrite E3, E4. set_solver.
  - rewrite E5. intros [|(i & e' & (eps & x & Hx & _) & _)]; [done|]. by rewrite Hnew, lookup_empty in Hx.
Qed.

(** Removing components removes exactly those, returns them, and leaves exactly the contracts
    that the remaining components need. *)
Theorem stop_tracking_exact ids s :
  let '(s', removed) := stop_tracking ids s in
  (∀ id, components s' !! id = if decide (id ∈ ids) then None else components s !! id) ∧
  (∀ id, removed !! id = if decide (id ∈ ids) then components s !! id else None) ∧
  entrypoints s' = entrypoints s ∧
  contracts s' = get_contracts_by_component (get_tracked_component_ids s') s'.
Proof.
  unfold stop_tracking. destruct (remove_components_spec ids s) as (E1 & E2 & E3 & E4).
  destruct (foldl remove_component (s, ∅) ids) as [s1 removed]. simpl in *.
  destruct (reinitialize_spec s1) as (F1 & F2 & _ & F4). rewrite F1, F2.
  split_and!; [done..|]. apply set_eq. intros c. rewrite F4, by_contracts_needs.
  unfold get_tracked_component_ids. setoid_rewrite elem_of_keys. rewrite F1.
  setoid_rewrite (fun id => needs_ext s1 _ id c F1 F2). split.
  - intros (id & Hn). exists id. split; [|done]. destruct Hn as (comp & Hc & _). by apply elem_of_dom_2 in Hc.
  - naive_solver.
Qed.

(** No component on the blocklist is ever tracked. *)
Theorem blocklist_respected `{!RPCClient} chain system flt s id :
  only_requested → rtc step (new chain system flt) s →
  is_Some (components s !! id) → ComponentFilter.is_blocklisted id (filter s) = false.
Proof.
  intros Honly Hr. revert id. change (unblocked s). remember (new chain system flt) as s0 eqn:E0.
  assert (unblocked s0) as H0.
  { subst. intros id Hc. simpl in Hc. rewrite lookup_empty in Hc. by destruct Hc. }
  clear E0. induction Hr as [|s0 s1 s2 Hs _ IH]; [done|]. apply IH. by eapply step_unblocked.
Qed.

(** A block's TVL changes add exactly the components above the upper threshold that are not
    blocklisted, remove exactly those below the lower one and the tracked ones that are
    blocklisted, and never both. *)
Theorem tvl_decisions deltas s remove_tvl add_tvl blocked :
  filter s = ComponentFilter.MinimumTVLRange remove_tvl add_tvl blocked →
  let '(to_add, to_remove) := filter_updated_components deltas s in
  let tvl := BlockAggregatedChanges.component_tvl deltas in
  (∀ id, id ∈ to_add ↔
     ∃ x, tvl !! id = Some x ∧ f64_gt x add_tvl = true ∧ to_lowercase id ∉ blocked) ∧
  (∀ id, id ∈ to_remove ↔
     (∃ x, tvl !! id = Some x ∧ f64_lt x remove_tvl = true ∧ f64_gt x add_tvl = false) ∨
     is_Some (components s !! id) ∧ to_lowercase id ∈ blocked) ∧
  (∀ id, id ∈ to_add → id ∉ to_remove).
Proof.
  intros Hf. unfold filter_updated_components. rewrite Hf. cbn zeta.
  set (tvl := BlockAggregatedChanges.component_tvl deltas).
  set (above id := match tvl !! id with Some x => f64_gt x add_tvl | None => false end).
  set (moved := (base.filter _ (map_to_list tvl)).*1).
  pose proof (moved_spec tvl remove_tvl add_tvl : ∀ id, id ∈ moved ↔ _) as Hm.
  assert (∀ id x, tvl !! id = Some x → above id = f64_gt x add_tvl) as Ha
    by (intros id x E; unfold above; by rewrite E).
  assert (∀ id, ComponentFilter.is_blocklisted id (ComponentFilter.MinimumTVLRange remove_tvl add_tvl blocked)
    = bool_decide (to_lowercase id ∈ blocked)) as Hb by done.
  assert (∀ id, id ∈ base.filter (fun id => is_true (negb (ComponentFilter.is_blocklisted id
      (ComponentFilter.MinimumTVLRange remove_tvl add_tvl blocked)))) (base.filter (fun id => is_true (above id)) moved)
    ↔ ∃ x, tvl !! id = Some x ∧ f64_gt x add_tvl = true ∧ to_lowercase id ∉ blocked) as Hadd.
  { intros id. rewrite !list_elem_of_filter, Hm, Hb, <-bool_decide_not. split.
    - intros (Hn & Hab & x & Hx & _). exists x. rewrite (Ha id x Hx) in Hab.
      split_and!; [done..|]. by apply bool_decide_eq_true in Hn.
    - intros (x & Hx & Hgt & Hn). split_and!; [by apply bool_decide_eq_true|unfold above; by rewrite Hx|].
      exists x. tauto. }
  assert (∀ id, id ∈ base.filter (fun id => ~ is_true (above id)) moved ↔
    ∃ x, tvl !! id = Some x ∧ f64_lt x remove_tvl = true ∧ f64_gt x add_tvl = false) as Hrem.
  { intros id. rewrite list_elem_of_filter, Hm. split.
    - intros (Hn & x & Hx & Hor). exists x. rewrite (Ha id x Hx) in Hn.
      destruct (f64_gt x add_tvl); [by destruct Hn|]. naive_solver.
    - intros (x & Hx & Hlt & Hgt). rewrite (Ha id x Hx), Hgt. split; [done|]. exists x. tauto. }
  pose proof (push_blocklisted_spec (ComponentFilter.MinimumTVLRange remove_tvl add_tvl blocked)
    (get_tracked_component_ids s) (base.filter (fun id => ~ is_true (above id)) moved)) as Hpush.
  split; [exact Hadd|]. split; intros id.
  - etrans; [apply Hpush|]. rewrite Hrem, Hb, bool_decide_eq_true. unfold get_tracked_component_ids.
    by rewrite elem_of_keys, elem_of_dom.
  - intros (x & Hx & Hgt & Hn)%Hadd Hr%Hpush. rewrite Hrem, Hb, bool_decide_eq_true in Hr.
    destruct Hr as [(y & Hy & _ & Hgt')|[_ Hbl]]; [congruence|done].
Qed.

(** * Witnesses *)

Section witnesses.

Definition pool (name : string) (contract : Bytes) : ProtocolComponent.t :=
  ProtocolComponent.mk name "vm:curve" "pool" Ethereum [] [contract] ∅ Creation [] 0.
Definition c1 : Bytes := [x01].
Definition c2 : Bytes := [x02].
Definition c3 : Bytes := [x03].

Definition tvl_of (e : Z) : f64 := S754_finite false 4503599627370496 e.

(** A server that knows two pools; the second one is on the blocklist. *)
#[local] Instance example_client : RPCClient := {
  compression := true;
  get_contract_state _ := Err (Fatal "");
  get_protocol_components p :=
    let l := match ProtocolComponentsParams.component_ids p with
             | Some ids => base.filter (fun c => ProtocolComponent.id c ∈ ids) [pool "a" c1; pool "B" c2]
             | None => [pool "a" c1; pool "B" c2]
             end in
    Ok (Page.mk l (Z.of_nat (length l)) 0 10);
  get_protocol_states _ := Err (Fatal "");
  get_tokens _ := Err (Fatal "");
  get_component_tvl _ := Err (Fatal "");
  get_traced_entry_points _ := Err (Fatal "")
}.

Definition range : ComponentFilter.t :=
  ComponentFilter.blocklist ["b"] (ComponentFilter.with_tvl_range (tvl_of (-50)) (tvl_of (-49))).
Definition fresh : t := new Ethereum "vm:curve" range.
Definition started : t :=
  match initialise_components fresh with Some (Ok s) => s | _ => fresh end.

Definition slots_of (c : Bytes) : TracingResult.t := TracingResult.mk ∅ {[c := ∅]}.
Definition entry : EntryPoint.t := EntryPoint.mk "e" c1 "f()".
Definition link_a : DCIUpdate.t := DCIUpdate.mk {["a" := {[entry]}]} ∅ {["e" := slots_of c2]}.
Definition retrace : DCIUpdate.t := DCIUpdate.mk ∅ ∅ {["e" := slots_of c3]}.
Definition linked_a : t := process_entrypoints link_a started.

Lemma started_step : step fresh started.
Proof. apply step_initialise. vm_compute. reflexivity. Qed.

Lemma linked_a_step : step started linked_a.
Proof.
  apply step_dci. intros id e _ _ He. exfalso. revert He. unfold ep_components.
  replace (entrypoints started) with (∅ : gmap string EntrypointRelations.t) by (vm_compute; reflexivity).
  rewrite lookup_empty. simpl. set_solver.
Qed.

Lemma tracked_contracts_followed_witness : get_contracts_by_component ["a"] linked_a ⊆ {[c1; c2]}.
Proof.
  replace {[c1; c2]} with (contracts linked_a) by (vm_compute; reflexivity).
  apply (tracked_contracts_followed Ethereum "vm:curve" range).
  eapply rtc_l; [apply started_step|]. eapply rtc_l; [apply linked_a_step|]. apply rtc_refl.
Defined.

Lemma late_trace_not_followed_witness :
  let s' := process_entrypoints retrace linked_a in
  c3 ∈ get_contracts_by_component ["a"] s' ∧ c3 ∉ contracts s'.
Proof.
  apply (late_trace_not_followed linked_a retrace "a" "e" c3).
  - apply (bool_decide_unpack _). vm_compute. exact I.
  - apply (bool_decide_unpack _). vm_compute. exact I.
  - reflexivity.
  - apply (bool_decide_unpack _). vm_compute. exact I.
  - apply (bool_decide_unpack _). vm_compute. exact I.
Defined.

Lemma example_only_requested : only_requested.
Proof.
  intros p page ids c [= <-] -> Hc. simpl in Hc. by apply list_elem_of_filter in Hc as [Hc _].
Qed.

Lemma blocklist_respected_witness :
  is_Some (components started !! "a") ∧ ComponentFilter.is_blocklisted "a" (filter started) = false.
Proof.
  assert (is_Some (components started !! "a")) as Ha by (apply (bool_decide_unpack _); vm_compute; exact I).
  split; [exact Ha|]. apply (blocklist_respected Ethereum "vm:curve" range started "a").
  - apply example_only_requested.
  - eapply rtc_l; [apply started_step|]. apply rtc_refl.
  - exact Ha.
Defined.

Definition tvl_change : BlockAggregatedChanges.t :=
  BlockAggregatedChanges.mk "vm:curve" Ethereum Block.default_ 0 None false ∅ ∅ ∅ ∅ ∅ ∅ ∅
    {["a" := tvl_of (-51); "x" := tvl_of (-48); "B" := tvl_of (-48)]} DCIUpdate.default_ None.

Definition blocked_b : gset string := {["b"]}.

Lemma tvl_decisions_witness : ∃ to_add to_remove,
  filter_updated_components tvl_change started = (to_add, to_remove) ∧
  "x" ∈ to_add ∧ "B" ∉ to_add ∧ "a" ∈ to_remove.
Proof.
  pose proof (tvl_decisions tvl_change started (tvl_of (-50)) (tvl_of (-49)) blocked_b ltac:(vm_compute; reflexivity))
    as H.
  destruct (filter_updated_components tvl_change started) as [to_add to_remove].
  destruct H as (Ha & Hr & _). exists to_add, to_remove. split; [done|]. split_and!.
  - apply Ha. exists (tvl_of (-48)). split_and!; [vm_compute; reflexivity..|].
    apply (bool_decide_unpack _). vm_compute. exact I.
  - intros (x & _ & _ & Hn)%Ha. apply Hn. apply (bool_decide_unpack _). vm_compute. exact I.
  - apply Hr. left. exists (tvl_of (-51)). split_and!; vm_compute; reflexivity.
Defined.

End witnesses.
