(* ===== verification/Synchronizer.v ===== *)
(** The synchronizer of one protocol: [tycho_client::feed::synchronizer].

    It receives the block messages of an extractor, requests snapshots of the components
    that come into view in background tasks, and emits messages from which a client
    reconstructs the states of the tracked components.  A background task is known by its
    receiver; what the receiver holds when it is polled, and what the server answers to the
    task, are arguments. *)

From S2P Require Import Prelude Collections Bytes Models Blockchain BlockHistory ClientRpc ComponentTracker.

Open Scope tycho_scope.

Inductive SynchronizerError :=
| SRPCError (e : RPCError)
| ChannelError (reason : string)
| Timeout (reason : string)
| CloseError (reason : string)
| ConnectionError (reason : string)
| ConnectionClosed
| Internal (reason : string).

Definition is_transient (self : SynchronizerError) : bool :=
  match self with
  | SRPCError (HttpClient _) | SRPCError (RateLimited _) | SRPCError (ServerUnreachable _)
  | SRPCError (StaleBlock _) => true
  | SRPCError _ => false
  | Timeout _ | ConnectionError _ | ConnectionClosed => true
  | _ => false
  end.

(** * Messages *)

Module StateSyncMessage.
Record t (H : Type) := mk {
  header : H;
  snapshots : Snapshot.t;
  deltas : option BlockAggregatedChanges.t;
  removed_components : gmap string ProtocolComponent.t
}.
Arguments mk {H}.
Arguments header {H}.
Arguments snapshots {H}.
Arguments deltas {H}.
Arguments removed_components {H}.

Definition contains {V} (m : gmap string V) (k : string) : bool := bool_decide (is_Some (m !! k)).

Definition merge {H} (self other : t H) : t H :=
  let removed := retain (fun k => negb (contains (Snapshot.states (snapshots other)) k))
                   (removed_components self) in
  let states := retain (fun k => negb (contains (removed_components other) k))
                  (Snapshot.states (snapshots self)) in
  mk (header other)
     (Snapshot.extend (Snapshot.mk states (Snapshot.vm_storage (snapshots self))) (snapshots other))
     (match deltas self, deltas other with
      | Some l, Some r => Some (BlockAggregatedChanges.merge l r)
      | None, Some r => Some r
      | Some l, None => Some l
      | None, None => None
      end)
     (extend removed (removed_components other)).
End StateSyncMessage.

(** * Snapshot requests *)

Inductive SnapshotStatus := SDeferred | InFlight | RetryNext | Blacklisted.
#[global] Instance snapshot_status_eq_dec : EqDecision SnapshotStatus.
Proof. solve_decision. Defined.

Module SnapshotFetchResult.
Record t := mk {
  components : gmap string ProtocolComponent.t;
  contract_ids : gset Bytes;
  dci_update : DCIUpdate.t;
  snapshot : Snapshot.t;
  snapshot_block : Z
}.
End SnapshotFetchResult.

Module SnapshotTask.
Record t := mk { component_ids : list string; snapshot_block : Z; receiver : nat }.
End SnapshotTask.

(** What [oneshot::Receiver::try_recv] returns. *)
Inductive TryRecv :=
| Received (res : SnapshotFetchResult.t + SynchronizerError)
| Empty
| Closed.

Module FetchSnapshotParams.
Record t := mk {
  chain : Chain;
  protocol_system : string;
  block_number : Z;
  uses_dci : bool;
  retrieve_balances : bool;
  include_tvl : bool
}.
End FetchSnapshotParams.

Section fetch.
Context `{!RPCClient}.

(** The contracts that the traces of all components access. *)
Definition dci_contracts (traced : TracedEntryPoints) : gset Bytes :=
  ⋃ ((fun kv => ⋃ ((fun tr : EntryPointWithTracingParams.t * TracingResult.t =>
        dom (TracingResult.accessed_slots tr.2)) <$> kv.2)) <$> map_to_list traced).

Definition fetch_snapshot (components : gmap string ProtocolComponent.t) (contract_ids : gset Bytes)
    (params : FetchSnapshotParams.t) :
    result SynchronizerError (Snapshot.t * DCIUpdate.t * gset Bytes) :=
  if decide (components = ∅) then Ok (Snapshot.default_, DCIUpdate.default_, contract_ids)
  else
    let component_ids := (map_to_list components).*1 in
    '(dci_update, eps, contract_ids) ←
      (if FetchSnapshotParams.uses_dci params then
         traced ← map_err SRPCError
           (get_traced_entry_points_paginated (FetchSnapshotParams.chain params)
              (FetchSnapshotParams.protocol_system params) component_ids None);
         Ok (DCIUpdate.of_traced traced, traced, contract_ids ∪ dci_contracts traced)
       else Ok (DCIUpdate.default_, ∅, contract_ids));
    let request :=
      SnapshotParameters.mk (FetchSnapshotParams.chain params)
        (FetchSnapshotParams.protocol_system params) components (Some eps) (elements contract_ids)
        (FetchSnapshotParams.block_number params) (FetchSnapshotParams.retrieve_balances params)
        (FetchSnapshotParams.include_tvl params) in
    snapshot ← map_err SRPCError (get_snapshots request None);
    Ok (snapshot, dci_update, contract_ids).

Definition fetch_snapshot_background (component_ids : list string) (params : FetchSnapshotParams.t) :
    result SynchronizerError SnapshotFetchResult.t :=
  if decide (component_ids = []) then
    Ok (SnapshotFetchResult.mk ∅ ∅ DCIUpdate.default_ Snapshot.default_
          (FetchSnapshotParams.block_number params))
  else
    page ← map_err SRPCError
      (get_protocol_components (ProtocolComponentsParams.with_component_ids component_ids
         (ProtocolComponentsParams.new (FetchSnapshotParams.chain params)
            (FetchSnapshotParams.protocol_system params))));
    let components := ComponentTracker.by_id (Page.data page) in
    let contract_ids :=
      ⋃ (ComponentTracker.contract_set <$> (map_to_list components).*2) in
    '(snapshot, dci_update, contract_ids) ← fetch_snapshot components contract_ids params;
    Ok (SnapshotFetchResult.mk components contract_ids dci_update snapshot
          (FetchSnapshotParams.block_number params)).

End fetch.

(** * Bringing a snapshot up to date *)

(** [if let Some(v) = map.get_mut(k) { f(v) }] *)
Definition update_entry {K V} `{Countable K} (f : V → V) (k : K) (m : gmap K V) : gmap K V :=
  match m !! k with Some v => <[k := f v]> m | None => m end.

Definition apply_state_delta (d : ProtocolComponentStateDelta.t) (cws : ComponentWithState.t) :
    ComponentWithState.t :=
  let st := ComponentWithState.state cws in
  let attributes := extend (ProtocolComponentState.attributes st)
                      (ProtocolComponentStateDelta.updated_attributes d) in
  let attributes := set_fold (fun key m => delete key m) attributes
                      (ProtocolComponentStateDelta.deleted_attributes d) in
  ComponentWithState.set_state
    (ProtocolComponentState.mk (ProtocolComponentState.component_id st) attributes
       (ProtocolComponentState.balances st)) cws.

Definition apply_balances (token_balances : gmap Bytes ComponentBalance.t)
    (cws : ComponentWithState.t) : ComponentWithState.t :=
  let st := ComponentWithState.state cws in
  ComponentWithState.set_state
    (ProtocolComponentState.mk (ProtocolComponentState.component_id st)
       (ProtocolComponentState.attributes st)
       (foldl (fun m kv => <[kv.1 := ComponentBalance.balance kv.2]> m)
          (ProtocolComponentState.balances st) (map_to_list token_balances))) cws.

(** The slots with a value replace those of the account, deleted slots stay. *)
Definition apply_account_delta (d : AccountDelta.t) (account : Account.t) : Account.t :=
  Account.mk (Account.chain account) (Account.address account) (Account.title account)
    (extend (Account.slots account) (omap id (AccountDelta.slots d)))
    (match AccountDelta.balance d with Some b => b | None => Account.native_balance account end)
    (Account.token_balances account)
    (match AccountDelta.code d with Some c => c | None => Account.code account end)
    (Account.code_hash account) (Account.balance_modify_tx account)
    (Account.code_modify_tx account) (Account.creation_tx account).

Definition apply_delta_to_snapshot (contract_ids : gset Bytes) (snapshot : Snapshot.t)
    (delta : BlockAggregatedChanges.t) : Snapshot.t :=
  let states := foldl (fun m kv => update_entry (apply_state_delta kv.2) kv.1 m)
                  (Snapshot.states snapshot)
                  (map_to_list (BlockAggregatedChanges.state_deltas delta)) in
  let states := foldl (fun m kv => update_entry (apply_balances kv.2) kv.1 m) states
                  (map_to_list (BlockAggregatedChanges.component_balances delta)) in
  let vm_storage := foldl (fun m kv =>
      if decide (kv.1 ∈ contract_ids) then update_entry (apply_account_delta kv.2) kv.1 m else m)
      (Snapshot.vm_storage snapshot)
      (map_to_list (BlockAggregatedChanges.account_deltas delta)) in
  Snapshot.mk states vm_storage.

Definition delta_number (d : BlockAggregatedChanges.t) : Z :=
  Block.number (BlockAggregatedChanges.block d).

Definition apply_deltas_to_snapshot (buffered_deltas : list BlockAggregatedChanges.t)
    (snapshot : Snapshot.t) (snapshot_block : Z) (contract_ids : gset Bytes) : Snapshot.t :=
  foldl (fun snapshot delta =>
    if (delta_number delta <=? snapshot_block)%Z then snapshot
    else apply_delta_to_snapshot contract_ids snapshot delta) snapshot buffered_deltas.

(** * The synchronizer *)

Module ExtractorIdentity.
Record t := mk { chain : Chain; name : string }.
#[global] Instance eq_dec : EqDecision t.
Proof. solve_decision. Defined.
End ExtractorIdentity.

Module ProtocolStateSynchronizer.
Record t := mk {
  extractor_id : ExtractorIdentity.t;
  retrieve_balances : bool;
  include_snapshots : bool;
  component_tracker : ComponentTracker.t;
  last_synced_block : option BlockHeader.t;
  include_tvl : bool;
  partial_blocks : bool;
  uses_dci : bool;
  snapshot_tasks : list SnapshotTask.t;
  buffered_deltas : list BlockAggregatedChanges.t;
  snapshot_queue : gmap string SnapshotStatus
}.

Definition new (extractor_id : ExtractorIdentity.t) (retrieve_balances : bool)
    (component_filter : ComponentFilter.t) (include_snapshots include_tvl : bool) : t :=
  mk extractor_id retrieve_balances include_snapshots
     (ComponentTracker.new (ExtractorIdentity.chain extractor_id)
        (ExtractorIdentity.name extractor_id) component_filter)
     None include_tvl false false [] [] ∅.

Definition with_dci (x : bool) (s : t) : t :=
  mk (extractor_id s) (retrieve_balances s) (include_snapshots s) (component_tracker s)
     (last_synced_block s) (include_tvl s) (partial_blocks s) x (snapshot_tasks s)
     (buffered_deltas s) (snapshot_queue s).
Definition with_partial_blocks (x : bool) (s : t) : t :=
  mk (extractor_id s) (retrieve_balances s) (include_snapshots s) (component_tracker s)
     (last_synced_block s) (include_tvl s) x (uses_dci s) (snapshot_tasks s)
     (buffered_deltas s) (snapshot_queue s).

Definition set_tracker (x : ComponentTracker.t) (s : t) : t :=
  mk (extractor_id s) (retrieve_balances s) (include_snapshots s) x
     (last_synced_block s) (include_tvl s) (partial_blocks s) (uses_dci s) (snapshot_tasks s)
     (buffered_deltas s) (snapshot_queue s).
Definition set_last_synced (x : option BlockHeader.t) (s : t) : t :=
  mk (extractor_id s) (retrieve_balances s) (include_snapshots s) (component_tracker s)
     x (include_tvl s) (partial_blocks s) (uses_dci s) (snapshot_tasks s)
     (buffered_deltas s) (snapshot_queue s).
Definition set_tasks (x : list SnapshotTask.t) (s : t) : t :=
  mk (extractor_id s) (retrieve_balances s) (include_snapshots s) (component_tracker s)
     (last_synced_block s) (include_tvl s) (partial_blocks s) (uses_dci s) x
     (buffered_deltas s) (snapshot_queue s).
Definition set_buffered (x : list BlockAggregatedChanges.t) (s : t) : t :=
  mk (extractor_id s) (retrieve_balances s) (include_snapshots s) (component_tracker s)
     (last_synced_block s) (include_tvl s) (partial_blocks s) (uses_dci s) (snapshot_tasks s)
     x (snapshot_queue s).
Definition set_queue (x : gmap string SnapshotStatus) (s : t) : t :=
  mk (extractor_id s) (retrieve_balances s) (include_snapshots s) (component_tracker s)
     (last_synced_block s) (include_tvl s) (partial_blocks s) (uses_dci s) (snapshot_tasks s)
     (buffered_deltas s) x.

Definition is_next_expected (incoming : BlockHeader.t) (self : t) : bool :=
  match last_synced_block self with
  | Some block => bool_decide (BlockHeader.parent_hash incoming = BlockHeader.hash block)
  | None => false
  end.

Definition filter_deltas (deltas : BlockAggregatedChanges.t) (self : t) : BlockAggregatedChanges.t :=
  let tracker := component_tracker self in
  BlockAggregatedChanges.filter_by_contract
    (fun id => bool_decide (id ∈ ComponentTracker.contracts tracker))
    (BlockAggregatedChanges.filter_by_component
       (fun id => bool_decide (is_Some (ComponentTracker.components tracker !! id))) deltas).

Definition fetch_params (block_number : Z) (self : t) : FetchSnapshotParams.t :=
  FetchSnapshotParams.mk (ExtractorIdentity.chain (extractor_id self))
    (ExtractorIdentity.name (extractor_id self)) block_number (uses_dci self)
    (retrieve_balances self) (include_tvl self).

(** [for id in ids { queue.insert(id, status) }] and [for id in ids { queue.remove(id) }] *)
Definition queue_all (status : SnapshotStatus) (ids : list string) (s : t) : t :=
  set_queue (foldl (fun q id => <[id := status]> q) (snapshot_queue s) ids) s.
Definition unqueue_all (ids : list string) (s : t) : t :=
  set_queue (foldl (fun q id => delete id q) (snapshot_queue s) ids) s.

(** [rx] is the receiver of the channel [oneshot::channel()] creates; the task it is given to
    runs [fetch_snapshot_background] with [fetch_params]. *)
Definition spawn_snapshot_task (rx : nat) (component_ids : list string)
    (snapshot_header : BlockHeader.t) (current_delta : BlockAggregatedChanges.t) (self : t) : t :=
  let self := match snapshot_tasks self with
              | [] => set_buffered (buffered_deltas self ++ [current_delta]) self
              | _ => self
              end in
  let self := queue_all InFlight component_ids self in
  set_tasks (snapshot_tasks self ++
    [SnapshotTask.mk component_ids (BlockHeader.number snapshot_header) rx]) self.

(** The arm for a fetched snapshot: the tracker follows the components of the answer. *)
Definition adopt_snapshot (p : SnapshotTask.t) (r : SnapshotFetchResult.t) (self : t) :
    t * Snapshot.t :=
  let self := unqueue_all (SnapshotTask.component_ids p) self in
  let comps := SnapshotFetchResult.components r in
  let tracker := component_tracker self in
  let tracker := ComponentTracker.set_components
    (extend (ComponentTracker.components tracker) comps) tracker in
  let tracker := ComponentTracker.process_entrypoints (SnapshotFetchResult.dci_update r) tracker in
  let tracker := ComponentTracker.update_contracts (map_to_list comps).*1 tracker in
  (set_tracker tracker self,
   apply_deltas_to_snapshot (buffered_deltas self) (SnapshotFetchResult.snapshot r)
     (SnapshotFetchResult.snapshot_block r) (SnapshotFetchResult.contract_ids r)).

(** One turn of [for mut p in pending]. *)
Definition drain_task (poll : nat → TryRecv) (acc : t * Snapshot.t) (p : SnapshotTask.t) :
    t * Snapshot.t :=
  let '(self, result) := acc in
  match poll (SnapshotTask.receiver p) with
  | Received (inl fetch_result) =>
      let '(self, snapshot) := adopt_snapshot p fetch_result self in
      (self, Snapshot.extend result snapshot)
  | Received (inr e) =>
      (queue_all (if is_transient e then RetryNext else Blacklisted)
         (SnapshotTask.component_ids p) self, result)
  | Empty => (set_tasks (snapshot_tasks self ++ [p]) self, result)
  | Closed => (unqueue_all (SnapshotTask.component_ids p) self, result)
  end.

Definition drain_completed_snapshots (poll : nat → TryRecv) (self : t) : t * Snapshot.t :=
  foldl (drain_task poll) (set_tasks [] self, Snapshot.default_) (snapshot_tasks self).

(** The blocks that no pending task needs are dropped. *)
Definition oldest_pending_block (tasks : list SnapshotTask.t) : option Z :=
  match SnapshotTask.snapshot_block <$> tasks with
  | [] => None
  | b :: bs => Some (foldl Z.min b bs)
  end.

Definition trim_buffered (self : t) : t :=
  match oldest_pending_block (snapshot_tasks self) with
  | None => set_buffered [] self
  | Some oldest =>
      set_buffered (base.filter (fun d => (oldest < delta_number d)%Z) (buffered_deltas self)) self
  end.

Definition ids_with (status : SnapshotStatus) (self : t) : list string :=
  (base.filter (fun kv : string * SnapshotStatus => kv.2 = status) (map_to_list (snapshot_queue self))).*1.

(** [truly_new]: neither tracked nor staged, without repetition. *)
Definition truly_new (candidates : list string) (self : t) : list string :=
  foldl (fun acc id =>
    if decide (ComponentTracker.components (component_tracker self) !! id = None ∧
               snapshot_queue self !! id = None ∧ id ∉ acc)
    then acc ++ [id] else acc) [] candidates.

(** [BlockHeader { number, hash, ..Default::default() }] *)
Definition parent_header (header : BlockHeader.t) : BlockHeader.t :=
  BlockHeader.mk (BlockHeader.parent_hash header) (BlockHeader.number header - 1) [] false 0 None.
(** [BlockHeader { revert: false, ..header }] *)
Definition unreverted (header : BlockHeader.t) : BlockHeader.t :=
  BlockHeader.mk (BlockHeader.hash header) (BlockHeader.number header) (BlockHeader.parent_hash header)
    false (BlockHeader.timestamp header) (BlockHeader.partial_block_index header).

(** The snapshot requests for the new components of a block. *)
Definition stage_new (rx : nat) (header : BlockHeader.t) (deltas : BlockAggregatedChanges.t)
    (new_ids : list string) (self : t) : t :=
  if partial_blocks self then
    let is_new_block := match last_synced_block self with
                        | Some b => (BlockHeader.number b <? BlockHeader.number header)%Z
                        | None => true
                        end in
    let to_fire := ids_with SDeferred self in
    let self :=
      if is_new_block && negb (bool_decide (to_fire = [])) && (0 <? BlockHeader.number header)%Z
      then spawn_snapshot_task rx to_fire (parent_header header) deltas (unqueue_all to_fire self)
      else self in
    queue_all SDeferred new_ids self
  else if decide (new_ids = []) then self
  else spawn_snapshot_task rx new_ids (unreverted header) deltas self.

(** The arm of the main loop for a message of the subscription.  Sending the message is
    taken to succeed; when the receiver is gone the loop ends. *)
Definition process_delta (poll : nat → TryRecv) (rx : nat) (deltas : BlockAggregatedChanges.t)
    (self : t) : t * StateSyncMessage.t BlockHeader.t :=
  let header := BlockHeader.of_changes deltas in
  let self := match snapshot_tasks self with
              | [] => self
              | _ => set_buffered (buffered_deltas self ++ [deltas]) self
              end in
  let '(self, background_snapshots) := drain_completed_snapshots poll self in
  let self := trim_buffered self in
  let '(to_add, to_remove) :=
    ComponentTracker.filter_updated_components deltas (component_tracker self) in
  let retry_ids := ids_with RetryNext self in
  let self := unqueue_all retry_ids self in
  let self := stage_new rx header deltas (truly_new (to_add ++ retry_ids) self) self in
  let '(tracker, removed_components) :=
    match to_remove with
    | [] => (component_tracker self, ∅)
    | _ => ComponentTracker.stop_tracking to_remove (component_tracker self)
    end in
  let tracker := ComponentTracker.process_entrypoints (BlockAggregatedChanges.dci_update deltas) tracker in
  let self := set_tracker tracker self in
  let next := StateSyncMessage.mk header background_snapshots (Some (filter_deltas deltas self))
                removed_components in
  (set_last_synced (Some header) self, next).

(** * The first message *)

(** One message of the inner loop: is it a candidate to start from, and the number of the
    last block seen.  Without partial blocks every message is one. *)
Definition candidate (last_block_number : option Z) (msg : BlockAggregatedChanges.t) (self : t) :
    bool * option Z :=
  let incoming := BlockHeader.of_changes msg in
  if partial_blocks self then
    match BlockAggregatedChanges.partial_block_index msg with
    | None => (true, Some (BlockHeader.number incoming))
    | Some _ =>
        (match last_block_number with
         | Some prev_block => (prev_block <? BlockHeader.number incoming)%Z
         | None => false
         end, Some (BlockHeader.number incoming))
    end
  else (true, last_block_number).

Definition already_synced (incoming : BlockHeader.t) (self : t) : bool :=
  match last_synced_block self with
  | Some current =>
      (BlockHeader.number incoming <=? BlockHeader.number current)%Z && negb (is_next_expected incoming self)
  | None => false
  end.

Definition MAX_STALE_RETRIES : nat := 5.

Section init.
Context `{!RPCClient}.

Definition initial_snapshot (snapshot_header : BlockHeader.t) (self : t) :
    result SynchronizerError (Snapshot.t * t) :=
  let tracker := component_tracker self in
  let component_ids := ComponentTracker.get_tracked_component_ids tracker in
  if negb (include_snapshots self) || bool_decide (component_ids = []) then Ok (Snapshot.default_, self)
  else
    '(snap, dci_update, _) ← fetch_snapshot (ComponentTracker.components tracker)
       (ComponentTracker.get_contracts_by_component component_ids tracker)
       (fetch_params (BlockHeader.number snapshot_header) self);
    Ok (snap, set_tracker (ComponentTracker.process_entrypoints dci_update tracker) self).

(** What the initialisation does with a first message. *)
Inductive init_outcome :=
| Started (msg : StateSyncMessage.t BlockHeader.t) (header : BlockHeader.t) (self : t)
| Stale (reason : string)
| Failed (e : SynchronizerError)
| Unwound.

Definition init_from (first_msg : BlockAggregatedChanges.t) (self : t) : init_outcome :=
  let first_msg := filter_deltas first_msg self in
  let header := BlockHeader.of_changes first_msg in
  let deltas_msg := StateSyncMessage.mk header Snapshot.default_ (Some first_msg) ∅ in
  if is_next_expected header self then Started deltas_msg header self
  else
    let snapshot_header :=
      if partial_blocks self && (0 <? BlockHeader.number header)%Z then parent_header header
      else unreverted header in
    match initial_snapshot snapshot_header self with
    | Ok (init_snapshot, self) =>
        Started (StateSyncMessage.merge (StateSyncMessage.mk snapshot_header init_snapshot None ∅) deltas_msg)
          header self
    | Err (SRPCError (StaleBlock reason)) => Stale reason
    | Err e => Failed e
    | Panic => Unwound
    end.

(** The outer loop over the messages that arrive; [None]: it still waits. *)
Fixpoint init_loop (msgs : list BlockAggregatedChanges.t) (last_block_number : option Z)
    (stale_retries : nat) (self : t) :
    option (result SynchronizerError (StateSyncMessage.t BlockHeader.t * t)) :=
  match msgs with
  | [] => None
  | msg :: msgs' =>
      let '(ok, last_block_number) := candidate last_block_number msg self in
      if negb ok || already_synced (BlockHeader.of_changes msg) self
      then init_loop msgs' last_block_number stale_retries self
      else
        match init_from msg self with
        | Started m header self => Some (Ok (m, set_last_synced (Some header) self))
        | Stale reason =>
            if MAX_STALE_RETRIES <? S stale_retries then Some (Err (SRPCError (StaleBlock reason)))
            else init_loop msgs' last_block_number (S stale_retries) self
        | Failed e => Some (Err e)
        | Unwound => Some Panic
        end
  end.

End init.

End ProtocolStateSynchronizer.
