(* ===== verification/SynchronizerSpec.v ===== *)
(** Theorems on the synchronizer of a protocol: snapshots fetched in the background are
    brought up to the block they are emitted with, a component is requested once at a time,
    and merged messages have the effect of the messages in order. *)

From Stdlib Require Import Strings.Byte.
From S2P Require Import Prelude Collections Bytes Models Blockchain Deltas BlockHistory ClientRpc ComponentTracker ComponentTrackerSpec Synchronizer.
Import ProtocolStateSynchronizer.

Open Scope tycho_scope.

(** * Applying block messages to a snapshot *)

(** [for (k, w) in other { if let Some(v) = m.get_mut(k) { f(w, v) } }] *)
Lemma lookup_update_entries {K V W} `{Countable K} (f : W → V → V) (m : gmap K V) (other : gmap K W) k :
  foldl (fun m kv => update_entry (f kv.2) kv.1 m) m (map_to_list other) !! k =
    match other !! k with Some w => f w <$> m !! k | None => m !! k end.
Proof.
  assert (∀ l (m : gmap K V), NoDup l.*1 →
    foldl (fun m kv => update_entry (f kv.2) kv.1 m) m l !! k =
      match (list_to_map l : gmap K W) !! k with Some w => f w <$> m !! k | None => m !! k end) as Hgen.
  { clear m. induction l as [|[k' w] l IH]; intros m Hnd; simpl; [by rewrite lookup_empty|].
    apply NoDup_cons in Hnd as [Hk Hnd]. rewrite IH by done. unfold update_entry.
    destruct (decide (k = k')) as [->|Hne].
    - rewrite lookup_insert_eq, (not_elem_of_list_to_map_1 l k') by done.
      destruct (m !! k') eqn:E; [by rewrite lookup_insert_eq|by rewrite E].
    - rewrite lookup_insert_ne by done.
      destruct (m !! k'); [by rewrite lookup_insert_ne by done|done]. }
  rewrite Hgen by apply NoDup_fst_map_to_list. by rewrite list_to_map_to_list.
Qed.

(** The same with a test on the key. *)
Lemma lookup_update_entries_in {K V W} `{Countable K} (X : gset K) (f : W → V → V) (m : gmap K V)
    (other : gmap K W) k :
  foldl (fun m kv => if decide (kv.1 ∈ X) then update_entry (f kv.2) kv.1 m else m) m (map_to_list other) !! k =
    match other !! k with
    | Some w => if decide (k ∈ X) then f w <$> m !! k else m !! k
    | None => m !! k
    end.
Proof.
  assert (∀ l (m : gmap K V), NoDup l.*1 →
    foldl (fun m kv => if decide (kv.1 ∈ X) then update_entry (f kv.2) kv.1 m else m) m l !! k =
      match (list_to_map l : gmap K W) !! k with
      | Some w => if decide (k ∈ X) then f w <$> m !! k else m !! k
      | None => m !! k
      end) as Hgen.
  { clear m. induction l as [|[k' w] l IH]; intros m Hnd; simpl; [by rewrite lookup_empty|].
    apply NoDup_cons in Hnd as [Hk Hnd]. rewrite IH by done. unfold update_entry.
    destruct (decide (k = k')) as [->|Hne].
    - rewrite lookup_insert_eq, (not_elem_of_list_to_map_1 l k') by done.
      destruct (decide (k' ∈ X)); [|done].
      destruct (m !! k') eqn:E; [by rewrite lookup_insert_eq|by rewrite E].
    - rewrite lookup_insert_ne by done. destruct (decide (k' ∈ X)); [|done].
      destruct (m !! k'); [by rewrite lookup_insert_ne by done|done]. }
  rewrite Hgen by apply NoDup_fst_map_to_list. by rewrite list_to_map_to_list.
Qed.

(** The updates are the ones of the models. *)
Lemma apply_state_delta_model d cws :
  apply_state_delta d cws =
    ComponentWithState.set_state
      (ProtocolComponentState.with_state_delta d (ComponentWithState.state cws)) cws.
Proof.
  unfold apply_state_delta, ProtocolComponentState.with_state_delta. do 2 f_equal.
  apply map_eq. intros k. rewrite lookup_set_fold_delete, lookup_retain.
  case_decide; [by rewrite bool_decide_true|by rewrite bool_decide_false].
Qed.

Lemma foldl_insert_extend {K V W} `{Countable K} (f : W → V) (m : gmap K V) (other : gmap K W) :
  foldl (fun m kv => <[kv.1 := f kv.2]> m) m (map_to_list other) = extend m (f <$> other).
Proof.
  change (foldl (upsert (fun w _ => f w)) m (map_to_list other) = extend m (f <$> other)).
  apply map_eq. intros k. etrans; [apply (lookup_upsert_all (fun w _ => f w))|].
  rewrite lookup_extend, lookup_fmap. by destruct (other !! k).
Qed.

Lemma apply_balances_model b cws :
  apply_balances b cws =
    ComponentWithState.set_state
      (ProtocolComponentState.with_balance_delta b (ComponentWithState.state cws)) cws.
Proof.
  unfold apply_balances, ProtocolComponentState.with_balance_delta. do 2 f_equal.
  apply foldl_insert_extend.
Qed.

(** A delta that deletes no slot. *)
Definition writes_only (d : AccountDelta.t) : Prop := ∀ k, AccountDelta.slots d !! k ≠ Some None.

Lemma apply_account_delta_model d account :
  writes_only d → apply_account_delta d account = Account.with_delta d account.
Proof.
  intros Hd. unfold apply_account_delta, Account.with_delta. f_equal. f_equal.
  apply map_eq. intros k. unfold written_slots. rewrite lookup_omap, lookup_fmap.
  specialize (Hd k). by destruct (AccountDelta.slots d !! k) as [[]|].
Qed.

(** ** The state of one component, and of one account, after a message *)

Definition next_state (id : string) (st : ProtocolComponentState.t) (d : BlockAggregatedChanges.t) :
    ProtocolComponentState.t :=
  let st := match BlockAggregatedChanges.state_deltas d !! id with
            | Some sd => ProtocolComponentState.with_state_delta sd st
            | None => st
            end in
  match BlockAggregatedChanges.component_balances d !! id with
  | Some b => ProtocolComponentState.with_balance_delta b st
  | None => st
  end.

Definition next_account (address : Bytes) (account : Account.t) (d : BlockAggregatedChanges.t) : Account.t :=
  match BlockAggregatedChanges.account_deltas d !! address with
  | Some ad => Account.with_delta ad account
  | None => account
  end.

(** The messages of blocks after [b]. *)
Definition newer (b : Z) (l : list BlockAggregatedChanges.t) : list BlockAggregatedChanges.t :=
  base.filter (fun d => (b < delta_number d)%Z) l.

Lemma apply_deltas_newer l snap b cids :
  apply_deltas_to_snapshot l snap b cids = foldl (apply_delta_to_snapshot cids) snap (newer b l).
Proof.
  unfold apply_deltas_to_snapshot, newer. revert snap; induction l as [|d l IH]; intros snap; [done|].
  rewrite filter_cons. simpl. destruct (Z.leb_spec (delta_number d) b); case_decide; try lia; apply IH.
Qed.

Lemma apply_delta_state cids snap d id :
  Snapshot.states (apply_delta_to_snapshot cids snap d) !! id =
    (fun cws => ComponentWithState.set_state (next_state id (ComponentWithState.state cws) d) cws)
      <$> Snapshot.states snap !! id.
Proof.
  unfold apply_delta_to_snapshot, next_state. simpl. rewrite !lookup_update_entries.
  destruct (BlockAggregatedChanges.state_deltas d !! id) as [sd|],
    (BlockAggregatedChanges.component_balances d !! id) as [b|],
    (Snapshot.states snap !! id) as [cws|]; simpl;
    rewrite ?apply_balances_model, ?apply_state_delta_model; try done. by destruct cws.
Qed.

Lemma apply_deltas_state l snap b cids id :
  Snapshot.states (apply_deltas_to_snapshot l snap b cids) !! id =
    (fun cws => ComponentWithState.set_state
       (foldl (next_state id) (ComponentWithState.state cws) (newer b l)) cws)
      <$> Snapshot.states snap !! id.
Proof.
  rewrite apply_deltas_newer. generalize (newer b l) as k. intros k.
  revert snap; induction k as [|d k IH]; intros snap; simpl.
  - destruct (Snapshot.states snap !! id) as [[]|]; done.
  - rewrite IH, apply_delta_state. by destruct (Snapshot.states snap !! id).
Qed.

Lemma apply_deltas_account l snap b cids a :
  a ∈ cids → Forall (fun d => ∀ ad, BlockAggregatedChanges.account_deltas d !! a = Some ad → writes_only ad) l →
  Snapshot.vm_storage (apply_deltas_to_snapshot l snap b cids) !! a =
    (fun account => foldl (next_account a) account (newer b l)) <$> Snapshot.vm_storage snap !! a.
Proof.
  intros Ha Hw. rewrite apply_deltas_newer.
  assert (Forall (fun d => ∀ ad, BlockAggregatedChanges.account_deltas d !! a = Some ad → writes_only ad)
            (newer b l)) as Hw'.
  { apply Forall_forall. intros d [_ Hd]%list_elem_of_filter. by eapply Forall_forall in Hw. }
  revert Hw'. generalize (newer b l) as k. intros k. clear Hw.
  revert snap; induction k as [|d k IH]; intros snap Hw; simpl.
  - by destruct (Snapshot.vm_storage snap !! a).
  - apply Forall_cons in Hw as [Hd Hw]. rewrite IH by done. unfold apply_delta_to_snapshot at 1. simpl.
    rewrite lookup_update_entries_in. unfold next_account at 3.
    destruct (BlockAggregatedChanges.account_deltas d !! a) as [ad|] eqn:E;
      rewrite ?decide_True by done; destruct (Snapshot.vm_storage snap !! a); simpl; try done.
    by rewrite apply_account_delta_model by (by apply Hd).
Qed.

(** * Pending tasks and buffered messages *)

(** A task's result is a snapshot at the block of the task. *)
Definition honest (poll : nat → TryRecv) (p : SnapshotTask.t) : Prop :=
  ∀ r, poll (SnapshotTask.receiver p) = Received (inl r) →
    SnapshotFetchResult.snapshot_block r = SnapshotTask.snapshot_block p.

(** [log] are the messages received since the loop began: the buffer has all that a pending
    task will need. *)
Definition feeds (log : list BlockAggregatedChanges.t) (s : t) : Prop :=
  (∀ p, p ∈ snapshot_tasks s →
    newer (SnapshotTask.snapshot_block p) (buffered_deltas s) = newer (SnapshotTask.snapshot_block p) log) ∧
  (∀ d, d ∈ buffered_deltas s → d ∈ log).

(** Nothing received and nothing requested lies after block [n]. *)
Definition until (n : Z) (log : list BlockAggregatedChanges.t) (s : t) : Prop :=
  (∀ d, d ∈ log → delta_number d ≤ n)%Z ∧
  (∀ p, p ∈ snapshot_tasks s → SnapshotTask.snapshot_block p ≤ n)%Z.

Record buffer_inv (log : list BlockAggregatedChanges.t) (s : t) : Prop := {
  inv_feeds : feeds log s;
  inv_idle : snapshot_tasks s = [] → buffered_deltas s = [];
  inv_synced : is_Some (last_synced_block s);
  inv_until : ∀ h, last_synced_block s = Some h → until (BlockHeader.number h) log s
}.

Lemma newer_app b l k : newer b (l ++ k) = newer b l ++ newer b k.
Proof. apply filter_app. Qed.

Lemma newer_nil b l : (∀ d, d ∈ l → delta_number d ≤ b)%Z → newer b l = [].
Proof.
  unfold newer. induction l as [|d l IH]; intros Hl; [done|].
  rewrite filter_cons_False; [apply IH; intros; apply Hl; by right|].
  pose proof (Hl d ltac:(left)). lia.
Qed.

Lemma newer_newer a b l : (a ≤ b)%Z → newer b (newer a l) = newer b l.
Proof. intros Hab. apply list_filter_filter_l. intros d Hd. lia. Qed.

(** ** Draining *)

Definition is_pending (poll : nat → TryRecv) (p : SnapshotTask.t) : bool :=
  match poll (SnapshotTask.receiver p) with Empty => true | _ => false end.

(** The tasks whose snapshot has arrived. *)
Definition completed (poll : nat → TryRecv) (l : list SnapshotTask.t) :
    list (SnapshotTask.t * SnapshotFetchResult.t) :=
  omap (fun p => match poll (SnapshotTask.receiver p) with
                 | Received (inl r) => Some (p, r)
                 | _ => None
                 end) l.

Definition caught_up (l : list BlockAggregatedChanges.t) (r : SnapshotFetchResult.t) : Snapshot.t :=
  apply_deltas_to_snapshot l (SnapshotFetchResult.snapshot r) (SnapshotFetchResult.snapshot_block r)
    (SnapshotFetchResult.contract_ids r).

Lemma drain_tasks_spec poll l s result :
  let r := foldl (drain_task poll) (s, result) l in
  snapshot_tasks r.1 = snapshot_tasks s ++ base.filter (fun p => is_pending poll p = true) l ∧
  buffered_deltas r.1 = buffered_deltas s ∧ last_synced_block r.1 = last_synced_block s ∧
  partial_blocks r.1 = partial_blocks s ∧
  r.2 = foldl (fun acc pr => Snapshot.extend acc (caught_up (buffered_deltas s) pr.2)) result (completed poll l).
Proof.
  revert s result; induction l as [|p l IH]; intros s result; simpl; [by rewrite app_nil_r|].
  unfold completed. simpl.
  destruct (is_pending poll p) eqn:Ep;
    [rewrite filter_cons_True by done|rewrite filter_cons_False by (by rewrite Ep)];
    unfold is_pending in Ep; destruct (poll (SnapshotTask.receiver p)) as [[fr|e]| |]; try done; simpl;
    match goal with |- context [foldl (drain_task poll) (?s', ?res) l] =>
      destruct (IH s' res) as (-> & -> & -> & -> & ->) end; simpl;
    rewrite <-?app_assoc; done.
Qed.

Lemma drain_spec poll s :
  let r := drain_completed_snapshots poll s in
  snapshot_tasks r.1 = base.filter (fun p => is_pending poll p = true) (snapshot_tasks s) ∧
  buffered_deltas r.1 = buffered_deltas s ∧ last_synced_block r.1 = last_synced_block s ∧
  partial_blocks r.1 = partial_blocks s ∧
  r.2 = foldl (fun acc pr => Snapshot.extend acc (caught_up (buffered_deltas s) pr.2)) Snapshot.default_
          (completed poll (snapshot_tasks s)).
Proof.
  unfold drain_completed_snapshots.
  destruct (drain_tasks_spec poll (snapshot_tasks s) (set_tasks [] s) Snapshot.default_)
    as (E1 & E2 & E3 & E4 & E5). simpl in *. by rewrite E1, E2, E3, E4, E5.
Qed.

(** ** Trimming *)

Lemma oldest_le tasks oldest p :
  oldest_pending_block tasks = Some oldest → p ∈ tasks → (oldest ≤ SnapshotTask.snapshot_block p)%Z.
Proof.
  unfold oldest_pending_block. intros Ho Hp.
  assert (∀ bs b x, x = b ∨ x ∈ bs → (foldl Z.min b bs ≤ x)%Z) as Hmin.
  { induction bs as [|b' bs IH]; intros b x; simpl; [set_solver by lia|].
    intros [->|[->|Hx]%elem_of_cons]; [..|apply IH; by right];
      (etrans; [apply (IH (b `min` b')%Z _); by left|lia]). }
  apply (list_elem_of_fmap_2 SnapshotTask.snapshot_block) in Hp.
  destruct (SnapshotTask.snapshot_block <$> tasks) as [|b bs]; [done|]. injection Ho as <-.
  apply Hmin. by apply elem_of_cons.
Qed.

Lemma trim_feeds log s :
  feeds log s →
  feeds log (trim_buffered s) ∧ (snapshot_tasks s = [] → buffered_deltas (trim_buffered s) = []) ∧
  snapshot_tasks (trim_buffered s) = snapshot_tasks s ∧
  last_synced_block (trim_buffered s) = last_synced_block s ∧
  partial_blocks (trim_buffered s) = partial_blocks s.
Proof.
  intros [Hn Hs]. unfold trim_buffered.
  destruct (oldest_pending_block (snapshot_tasks s)) as [oldest|] eqn:Ho; simpl.
  - split_and!; try done; [split; simpl|].
    + intros p Hp. rewrite <-Hn by done. apply newer_newer. by eapply oldest_le.
    + intros d [_ Hd]%list_elem_of_filter. by apply Hs.
    + intros E. by rewrite E in Ho.
  - assert (snapshot_tasks s = []) as Et.
    { unfold oldest_pending_block in Ho. by destruct (snapshot_tasks s). }
    split_and!; try done. split; simpl; [rewrite Et|]; set_solver.
Qed.

(** ** Requesting *)

(** A task spawned at block [b] with the message [d] in hand. *)
Lemma spawn_feeds rx ids header d log s :
  let b := BlockHeader.number header in
  feeds (log ++ [d]) s → (snapshot_tasks s = [] → buffered_deltas s = []) →
  (∀ x, x ∈ log → delta_number x ≤ b)%Z →
  (∀ p, p ∈ snapshot_tasks s → SnapshotTask.snapshot_block p ≤ b)%Z →
  feeds (log ++ [d]) (spawn_snapshot_task rx ids header d s) ∧
  (snapshot_tasks (spawn_snapshot_task rx ids header d s) ≠ []) ∧
  last_synced_block (spawn_snapshot_task rx ids header d s) = last_synced_block s ∧
  (∀ p, p ∈ snapshot_tasks (spawn_snapshot_task rx ids header d s) →
     p ∈ snapshot_tasks s ∨ SnapshotTask.snapshot_block p = b).
Proof.
  intros b [Hn Hs] Hidle Hlog Hbuf. unfold spawn_snapshot_task.
  assert (newer b (log ++ [d]) = newer b [d]) as Hall by (by rewrite newer_app, newer_nil by done).
  destruct (snapshot_tasks s) as [|p0 tasks] eqn:Et; simpl.
  - rewrite Hidle by done. rewrite Et. simpl.
    split_and!; [split; simpl| done|done|set_solver].
    + intros p ->%list_elem_of_singleton. simpl. fold b. by rewrite Hall.
    + intros x ->%list_elem_of_singleton. set_solver.
  - rewrite Et. split_and!; [split; simpl|done|done|set_solver].
    + intros p Hp. rewrite app_comm_cons, elem_of_app, list_elem_of_singleton in Hp.
      destruct Hp as [Hp| ->]; [by apply Hn|]. simpl. fold b.
      rewrite <-(newer_newer (SnapshotTask.snapshot_block p0) b), Hn by (try apply Hbuf; by left).
      apply newer_newer, Hbuf. by left.
    + exact Hs.
Qed.

(** Staging new components: a request is for the block of the message, or for the one before
    when the message is the first of its block. *)
Lemma stage_feeds rx d new_ids log s h :
  feeds (log ++ [d]) s → (snapshot_tasks s = [] → buffered_deltas s = []) →
  last_synced_block s = Some h → until (BlockHeader.number h) log s →
  (BlockHeader.number h ≤ delta_number d)%Z →
  let s' := stage_new rx (BlockHeader.of_changes d) d new_ids s in
  feeds (log ++ [d]) s' ∧ (snapshot_tasks s' = [] → buffered_deltas s' = []) ∧
  (∀ p, p ∈ snapshot_tasks s' → SnapshotTask.snapshot_block p ≤ delta_number d)%Z.
Proof.
  intros Hf Hidle Hh [Hlog Htasks] Hd. unfold stage_new. rewrite Hh.
  assert (∀ s1 (ids : list string) header, snapshot_tasks s1 = snapshot_tasks s →
    buffered_deltas s1 = buffered_deltas s →
    (BlockHeader.number h ≤ BlockHeader.number header ≤ delta_number d)%Z →
    let s' := spawn_snapshot_task rx ids header d s1 in
    feeds (log ++ [d]) s' ∧ (snapshot_tasks s' = [] → buffered_deltas s' = []) ∧
    (∀ p, p ∈ snapshot_tasks s' → SnapshotTask.snapshot_block p ≤ delta_number d)%Z) as Hspawn.
  { intros s1 ids header Et Eb Hb.
    destruct (spawn_feeds rx ids header d log s1) as (H1 & H2 & _ & H4).
    - unfold feeds. by rewrite Et, Eb.
    - by rewrite Et, Eb.
    - intros x Hx. specialize (Hlog x Hx). lia.
    - intros p Hp. rewrite Et in Hp. specialize (Htasks p Hp). lia.
    - split_and!; [done..|]. intros p [Hp| ->]%H4; [|lia]. rewrite Et in Hp.
      specialize (Htasks p Hp). lia. }
  assert (feeds (log ++ [d]) s ∧ (snapshot_tasks s = [] → buffered_deltas s = []) ∧
    (∀ p, p ∈ snapshot_tasks s → SnapshotTask.snapshot_block p ≤ delta_number d)%Z) as Hstay.
  { split_and!; [done..|]. intros p Hp. specialize (Htasks p Hp). lia. }
  destruct (partial_blocks s); [|case_decide; [exact Hstay|apply Hspawn; [done..|]]].
  2: { change (BlockHeader.number h ≤ delta_number d ≤ delta_number d)%Z. lia. }
  destruct ((BlockHeader.number h <? _)%Z && _ && _) eqn:Hnew; [|exact Hstay].
  apply andb_true_iff in Hnew as [[Hlt%Z.ltb_lt _]%andb_true_iff _].
  apply (Hspawn (unqueue_all (ids_with SDeferred s) s)); [done..|].
  change (BlockHeader.number (BlockHeader.of_changes d)) with (delta_number d) in *. simpl.
  change (Block.number (BlockAggregatedChanges.block d)) with (delta_number d) in *. lia.
Qed.

(** ** The loop *)

(** One turn of the loop keeps the invariant and emits caught-up snapshots. *)
Lemma process_delta_inv poll rx d log s h :
  buffer_inv log s → last_synced_block s = Some h → (BlockHeader.number h ≤ delta_number d)%Z →
  let '(s', msg) := process_delta poll rx d s in
  buffer_inv (log ++ [d]) s' ∧
  StateSyncMessage.snapshots msg =
    foldl (fun acc pr => Snapshot.extend acc
             (caught_up (match snapshot_tasks s with [] => [] | _ => buffered_deltas s ++ [d] end) pr.2))
      Snapshot.default_ (completed poll (snapshot_tasks s)).
Proof.
  intros [[Hn Hs] Hidle _ Huntil] Hh Hd. destruct (Huntil h Hh) as [Hlog Htasks]. unfold process_delta.
  set (s1 := match snapshot_tasks s with [] => s | _ => _ end).
  assert (snapshot_tasks s1 = snapshot_tasks s ∧ last_synced_block s1 = Some h) as [Et1 Eh1]
    by (unfold s1; by destruct (snapshot_tasks s) eqn:E; simpl; rewrite ?E).
  assert (feeds (log ++ [d]) s1) as Hf1.
  { unfold feeds. rewrite Et1. unfold s1. destruct (snapshot_tasks s) as [|p0 l] eqn:E.
    - split; [set_solver|]. rewrite (Hidle eq_refl). set_solver.
    - simpl. split; [|set_solver]. intros p Hp. by rewrite !newer_app, Hn by done. }
  assert (buffered_deltas s1 = match snapshot_tasks s with [] => [] | _ => buffered_deltas s ++ [d] end) as Eb1.
  { unfold s1. destruct (snapshot_tasks s) eqn:E; simpl; [by apply Hidle|done]. }
  destruct (drain_spec poll s1) as (Et2 & Eb2 & Eh2 & _ & Esnap).
  destruct (drain_completed_snapshots poll s1) as [s2 snap]. simpl in Et2, Eb2, Eh2, Esnap.
  assert (∀ p, p ∈ snapshot_tasks s2 → p ∈ snapshot_tasks s) as Hsub2.
  { intros p. rewrite Et2, Et1. by intros [_ ?]%list_elem_of_filter. }
  assert (feeds (log ++ [d]) s2) as Hf2.
  { destruct Hf1 as [Ha Hb]. unfold feeds. rewrite Eb2. split; [|done]. intros p Hp. apply Ha.
    rewrite Et1. by apply Hsub2. }
  destruct (trim_feeds _ _ Hf2) as (Hf3 & Hidle3 & Et3 & Eh3 & _).
  destruct (ComponentTracker.filter_updated_components d (component_tracker (trim_buffered s2))) as [to_add to_remove].
  set (s4 := unqueue_all (ids_with RetryNext (trim_buffered s2)) (trim_buffered s2)).
  match goal with |- context [stage_new rx _ d ?ids s4] => set (new_ids := ids) end.
  destruct (stage_feeds rx d new_ids log s4 h) as (Hf5 & Hidle5 & Hb5).
  { exact Hf3. }
  { simpl. rewrite Et3. exact Hidle3. }
  { simpl. by rewrite Eh3, Eh2. }
  { split; [done|]. simpl. rewrite Et3. intros p Hp. by apply Htasks, Hsub2. }
  { done. }
  destruct (match to_remove with [] => _ | _ => _ end) as [tracker removed]. simpl.
  split; [|by rewrite Esnap, Et1, Eb1].
  split; simpl; [exact Hf5|exact Hidle5|by eexists|]. intros h' [= <-]. split; [|exact Hb5].
  intros x [Hx| ->%list_elem_of_singleton]%elem_of_app; [|done].
  change (delta_number x ≤ delta_number d)%Z. specialize (Hlog x Hx). lia.
Qed.

(** The main loop, from the state the initialisation leaves, over messages whose block
    numbers do not decrease. *)
Inductive run : list BlockAggregatedChanges.t → t → Prop :=
| run_start s :
    snapshot_tasks s = [] → buffered_deltas s = [] → is_Some (last_synced_block s) → run [] s
| run_step log s h poll rx d :
    run log s → last_synced_block s = Some h → (BlockHeader.number h ≤ delta_number d)%Z →
    run (log ++ [d]) (process_delta poll rx d s).1.

Lemma run_inv log s : run log s → buffer_inv log s.
Proof.
  induction 1 as [s Ht Hb Hh|log s h poll rx d _ IH Hh Hd].
  - split; [split|done|done|].
    + rewrite Ht. set_solver.
    + rewrite Hb. set_solver.
    + intros h _. split; [set_solver|]. rewrite Ht. set_solver.
  - pose proof (process_delta_inv poll rx d log s h IH Hh Hd) as Hp.
    destruct (process_delta poll rx d s). by destruct Hp.
Qed.

(** What a buffer gives to a completed task is what the whole log gives. *)
Lemma caught_up_log poll log d s p r :
  buffer_inv log s → (p, r) ∈ completed poll (snapshot_tasks s) → honest poll p →
  newer (SnapshotFetchResult.snapshot_block r)
    (match snapshot_tasks s with [] => [] | _ => buffered_deltas s ++ [d] end) =
  newer (SnapshotTask.snapshot_block p) (log ++ [d]).
Proof.
  intros [[Hn _] _ _ _] (q & Hq & Hr)%list_elem_of_omap Hhon.
  destruct (poll (SnapshotTask.receiver q)) as [[r'|]| |] eqn:E; try done. injection Hr as -> ->.
  rewrite (Hhon r E). destruct (snapshot_tasks s) as [|p0 l] eqn:Et; [set_solver|].
  rewrite !newer_app. by rewrite Hn.
Qed.

(** The states of merged snapshots come from one of them. *)
Lemma extend_all_lookup {A} (f : A → Snapshot.t) l acc id x :
  Snapshot.states (foldl (fun acc a => Snapshot.extend acc (f a)) acc l) !! id = Some x →
  Snapshot.states acc !! id = Some x ∨ ∃ a, a ∈ l ∧ Snapshot.states (f a) !! id = Some x.
Proof.
  revert acc; induction l as [|a l IH]; intros acc; simpl; [by left|].
  intros [H|(b & Hb & H)]%IH; [|right; exists b; set_solver].
  simpl in H. rewrite lookup_extend in H. destruct (Snapshot.states (f a) !! id) eqn:E; [|by left].
  right. exists a. split; [left|congruence].
Qed.

(** * One request at a time *)

Definition task_ids (s : t) : list string := mjoin (SnapshotTask.component_ids <$> snapshot_tasks s).

(** The components [ids] of the pending tasks are exactly those in flight, each in one task;
    what is staged is not tracked. *)
Record queue_ok (ids : list string) (s : t) : Prop := {
  q_nodup : NoDup ids;
  q_inflight : ∀ id, id ∈ ids ↔ snapshot_queue s !! id = Some InFlight;
  q_untracked : ∀ id, is_Some (snapshot_queue s !! id) →
    ComponentTracker.components (component_tracker s) !! id = None
}.

Definition queue_inv (s : t) : Prop := queue_ok (task_ids s) s.

(** An answer has only components that the task asked for. *)
Definition answers_task (poll : nat → TryRecv) (p : SnapshotTask.t) : Prop :=
  ∀ r id, poll (SnapshotTask.receiver p) = Received (inl r) →
    is_Some (SnapshotFetchResult.components r !! id) → id ∈ SnapshotTask.component_ids p.

Lemma lookup_queue_all status ids s id :
  snapshot_queue (queue_all status ids s) !! id =
    if decide (id ∈ ids) then Some status else snapshot_queue s !! id.
Proof.
  unfold queue_all. simpl. generalize (snapshot_queue s) as q.
  induction ids as [|i ids IH]; intros q; simpl; [done|].
  rewrite IH. destruct (decide (id = i)) as [->|Hne].
  - rewrite lookup_insert_eq, (decide_True (P := i ∈ i :: ids)) by set_solver. by case_decide.
  - rewrite lookup_insert_ne by done. do 2 case_decide; set_solver.
Qed.

Lemma lookup_unqueue_all ids s id :
  snapshot_queue (unqueue_all ids s) !! id =
    if decide (id ∈ ids) then None else snapshot_queue s !! id.
Proof.
  unfold unqueue_all. simpl. generalize (snapshot_queue s) as q.
  induction ids as [|i ids IH]; intros q; simpl; [done|].
  rewrite IH. destruct (decide (id = i)) as [->|Hne].
  - rewrite lookup_delete_eq, (decide_True (P := i ∈ i :: ids)) by set_solver. by case_decide.
  - rewrite lookup_delete_ne by done. do 2 case_decide; set_solver.
Qed.

(** The components of a task leave flight, for a status other than in flight or for none. *)
Lemma queue_ok_settle ids done rest (s s' : t) (o : option SnapshotStatus) :
  queue_ok (ids ++ done ++ rest) s → o ≠ Some InFlight →
  (∀ id, snapshot_queue s' !! id = if decide (id ∈ done) then o else snapshot_queue s !! id) →
  (∀ id, is_Some (snapshot_queue s' !! id) →
     ComponentTracker.components (component_tracker s') !! id =
     ComponentTracker.components (component_tracker s) !! id) →
  queue_ok (ids ++ rest) s'.
Proof.
  intros [Hnd Hin Hun] Ho Hq Hc. apply NoDup_app in Hnd as (Hnd1 & Hd1 & (Hnd2 & Hd2 & Hnd3)%NoDup_app).
  split.
  - apply NoDup_app. set_solver.
  - intros id. rewrite Hq, elem_of_app. specialize (Hin id). rewrite !elem_of_app in Hin.
    case_decide as Hd; [|tauto]. split; [|done]. intros [Hi|Hi]; exfalso; [|by eapply Hd2].
    eapply Hd1; [done|]. set_solver.
  - intros id Hs. rewrite Hc by done. apply Hun. rewrite Hq in Hs. case_decide as Hd; [|done].
    exists InFlight. apply Hin. set_solver.
Qed.

Lemma drain_task_queue poll p rest s result :
  answers_task poll p →
  queue_ok (task_ids s ++ SnapshotTask.component_ids p ++ rest) s →
  let r := drain_task poll (s, result) p in
  queue_ok (task_ids r.1 ++ rest) r.1.
Proof.
  intros Hans Hq. unfold drain_task.
  destruct (poll (SnapshotTask.receiver p)) as [[fr|e]| |] eqn:Ep; simpl.
  - eapply (queue_ok_settle (task_ids s) (SnapshotTask.component_ids p) rest s _ None Hq); [done| |].
    + intros id. apply (lookup_unqueue_all (SnapshotTask.component_ids p) s).
    + intros id Hs. simpl.
      match goal with |- context [ComponentTracker.update_contracts ?l ?t0] =>
        destruct (update_contracts_spec l t0) as (-> & _) end.
      match goal with |- context [ComponentTracker.process_entrypoints ?u ?t0] =>
        destruct (process_entrypoints_spec u t0) as (-> & _) end.
      simpl. rewrite lookup_extend. destruct (SnapshotFetchResult.components fr !! id) eqn:E; [|done].
      exfalso. assert (id ∈ SnapshotTask.component_ids p) as Hid by (by apply (Hans fr)).
      pose proof (lookup_unqueue_all (SnapshotTask.component_ids p) s id) as Hl.
      rewrite decide_True in Hl by done. simpl in Hs, Hl. rewrite Hl in Hs. by destruct Hs.
  - eapply (queue_ok_settle (task_ids s) (SnapshotTask.component_ids p) rest s _
              (Some (if is_transient e then RetryNext else Blacklisted)) Hq);
      [by destruct (is_transient e)| |done].
    intros id. apply lookup_queue_all.
  - unfold task_ids. simpl. rewrite fmap_app. simpl. rewrite join_app. simpl. rewrite app_nil_r, <-app_assoc.
    by destruct Hq.
  - eapply (queue_ok_settle (task_ids s) (SnapshotTask.component_ids p) rest s _ None Hq); [done| |done].
    intros id. apply (lookup_unqueue_all (SnapshotTask.component_ids p) s).
Qed.

Lemma drain_queue poll s :
  (∀ p, p ∈ snapshot_tasks s → answers_task poll p) → queue_inv s →
  queue_inv (drain_completed_snapshots poll s).1.
Proof.
  intros Hans Hq. unfold drain_completed_snapshots, queue_inv.
  assert (∀ l acc, (∀ p, p ∈ l → answers_task poll p) →
    queue_ok (task_ids acc.1 ++ mjoin (SnapshotTask.component_ids <$> l)) acc.1 →
    queue_ok (task_ids (foldl (drain_task poll) acc l).1) (foldl (drain_task poll) acc l).1) as Hgen.
  { induction l as [|p l IH]; intros [s0 res] Ha H0; simpl in *; [by rewrite app_nil_r in H0|].
    apply IH; [set_solver|]. apply (drain_task_queue poll p); [set_solver|done]. }
  apply Hgen; [done|]. by destruct Hq.
Qed.

Lemma ids_with_spec status s :
  NoDup (ids_with status s) ∧ ∀ id, id ∈ ids_with status s ↔ snapshot_queue s !! id = Some status.
Proof.
  unfold ids_with. split.
  - eapply sublist_NoDup; [apply (NoDup_fst_map_to_list (snapshot_queue s))|].
    apply fmap_sublist, sublist_filter.
  - intros id. rewrite list_elem_of_fmap. setoid_rewrite list_elem_of_filter. split.
    + intros ([k x] & -> & Hx & Hin%elem_of_map_to_list). simpl in *. congruence.
    + intros H. exists (id, status). split; [done|]. split; [done|]. by apply elem_of_map_to_list.
Qed.

Lemma truly_new_spec candidates s :
  NoDup (truly_new candidates s) ∧
  ∀ id, id ∈ truly_new candidates s →
    id ∈ candidates ∧ ComponentTracker.components (component_tracker s) !! id = None ∧
    snapshot_queue s !! id = None.
Proof.
  unfold truly_new. set (step := fun (acc : list string) (id : string) => _).
  assert (∀ l acc, NoDup acc → (∀ id, id ∈ acc → id ∈ candidates ∧
      ComponentTracker.components (component_tracker s) !! id = None ∧ snapshot_queue s !! id = None) →
    (∀ id, id ∈ l → id ∈ candidates) →
    NoDup (foldl step acc l) ∧ ∀ id, id ∈ foldl step acc l → id ∈ candidates ∧
      ComponentTracker.components (component_tracker s) !! id = None ∧ snapshot_queue s !! id = None) as Hgen.
  { induction l as [|i l IH]; intros acc Hnd Hacc Hl; simpl; [done|]. apply IH; [..|set_solver].
    - unfold step. case_decide as Hd; [|done]. apply NoDup_app. split_and!; [done|set_solver|apply NoDup_singleton].
    - unfold step. case_decide as Hd; [|done]. intros id [?| ->%list_elem_of_singleton]%elem_of_app; [by apply Hacc|].
      destruct Hd as (? & ? & _). split_and!; [apply Hl; left|done|done]. }
  apply Hgen; [constructor|set_solver|done].
Qed.

(** Changes of the queue and the tracker that leave flights alone. *)
Lemma queue_ok_same ids (s s' : t) :
  queue_ok ids s →
  (∀ id, snapshot_queue s' !! id = Some InFlight ↔ snapshot_queue s !! id = Some InFlight) →
  (∀ id, is_Some (snapshot_queue s' !! id) →
     ComponentTracker.components (component_tracker s') !! id = None) →
  queue_ok ids s'.
Proof. intros [H1 H2 _] Hq Hc. split; [done| |done]. intros id. by rewrite H2, Hq. Qed.

Lemma spawn_queue rx ids header d s :
  queue_inv s → NoDup ids →
  (∀ id, id ∈ ids → snapshot_queue s !! id ≠ Some InFlight ∧
     ComponentTracker.components (component_tracker s) !! id = None) →
  queue_inv (spawn_snapshot_task rx ids header d s).
Proof.
  intros [Hnd Hin Hun] Hids Hnew. unfold spawn_snapshot_task, queue_inv.
  set (s1 := match snapshot_tasks s with [] => _ | _ => s end).
  assert (snapshot_tasks s1 = snapshot_tasks s ∧ snapshot_queue s1 = snapshot_queue s ∧
    component_tracker s1 = component_tracker s) as (Et & Eq & Ec)
    by (unfold s1; by destruct (snapshot_tasks s) eqn:E; simpl; rewrite ?E).
  unfold task_ids. simpl. rewrite Et, fmap_app, join_app. simpl. rewrite app_nil_r.
  fold (task_ids s). split.
  - apply NoDup_app. split_and!; [done| |done]. intros id Hi%Hin Hid. by destruct (Hnew id Hid).
  - intros id. pose proof (lookup_queue_all InFlight ids s1 id) as Hl. simpl in *. rewrite Hl, Eq, elem_of_app, Hin.
    case_decide; tauto.
  - intros id. pose proof (lookup_queue_all InFlight ids s1 id) as Hl. simpl in *. rewrite Hl, Eq, Ec.
    case_decide as Hd; [intros _; by apply Hnew|apply Hun].
Qed.

Lemma stage_queue rx header d candidates s :
  queue_inv s → queue_inv (stage_new rx header d (truly_new candidates s) s).
Proof.
  intros Hq. destruct (truly_new_spec candidates s) as [Hnd Hnew].
  set (new_ids := truly_new candidates s) in *. unfold stage_new.
  destruct (partial_blocks s); last first.
  { case_decide; [done|]. apply spawn_queue; [done..|]. intros id (_ & Hc & Hn)%Hnew. by rewrite Hn. }
  destruct (ids_with_spec SDeferred s) as [Hdn Hdef]. set (to_fire := ids_with SDeferred s) in *.
  match goal with |- context [queue_all SDeferred new_ids ?x] => set (s1 := x) end.
  assert (queue_inv s1 ∧ component_tracker s1 = component_tracker s ∧
    ∀ id, id ∈ new_ids → snapshot_queue s1 !! id = None) as (Hq1 & Ec & Hnone).
  { unfold s1. case_match; [|split_and!; [done..|]; by intros id (_ & _ & ?)%Hnew].
    assert (queue_inv (unqueue_all to_fire s)) as Hq'.
    { eapply (queue_ok_same (task_ids s) s); [exact Hq|..]; intros id; rewrite lookup_unqueue_all.
      - case_decide as Hd; [|done]. apply Hdef in Hd. rewrite Hd. done.
      - case_decide; [by intros []|]. apply Hq. }
    split_and!.
    - apply spawn_queue; [done..|]. intros id Hid. rewrite lookup_unqueue_all, decide_True by done.
      split; [done|]. apply Hq. exists SDeferred. by apply Hdef.
    - unfold spawn_snapshot_task. simpl. by destruct (snapshot_tasks s).
    - intros id Hid. unfold spawn_snapshot_task.
      set (s2 := match snapshot_tasks (unqueue_all to_fire s) with [] => _ | _ => _ end).
      assert (snapshot_queue s2 = snapshot_queue (unqueue_all to_fire s)) as Es2
        by (unfold s2; by destruct (snapshot_tasks (unqueue_all to_fire s))).
      pose proof (lookup_queue_all InFlight to_fire s2 id) as Hl. simpl in *. rewrite Hl, Es2.
      destruct (Hnew id Hid) as (_ & _ & Hn). rewrite decide_False by (rewrite Hdef; congruence).
      pose proof (lookup_unqueue_all to_fire s id) as Hu. simpl in Hu. rewrite Hu.
      by rewrite decide_False by (rewrite Hdef; congruence). }
  eapply (queue_ok_same (task_ids s1) s1); [exact Hq1|..]; intros id; rewrite lookup_queue_all.
  - case_decide as Hd; [|done]. rewrite (Hnone id Hd). done.
  - simpl. rewrite Ec. case_decide as Hd; [intros _; by apply Hnew|]. rewrite <-Ec. apply Hq1.
Qed.

(** ** The permanently failed components *)

Definition blacklisted (id : string) (s : t) : Prop := snapshot_queue s !! id = Some Blacklisted.

Lemma drain_blacklisted poll s id :
  queue_inv s → blacklisted id s → blacklisted id (drain_completed_snapshots poll s).1.
Proof.
  intros Hq Hb. unfold drain_completed_snapshots.
  assert (id ∉ task_ids s) as Hid.
  { rewrite (q_inflight _ _ Hq id). unfold blacklisted in Hb. congruence. }
  assert (∀ l acc, id ∉ mjoin (SnapshotTask.component_ids <$> l) → blacklisted id acc.1 →
    blacklisted id (foldl (drain_task poll) acc l).1) as Hgen.
  { induction l as [|p l IH]; intros [s0 res] Hl H0; simpl in *; [done|].
    apply not_elem_of_app in Hl as [Hp Hl]. apply IH; [done|]. unfold drain_task, blacklisted.
    destruct (poll (SnapshotTask.receiver p)) as [[fr|e]| |]; simpl fst.
    - change (snapshot_queue (unqueue_all (SnapshotTask.component_ids p) s0) !! id = Some Blacklisted).
      by rewrite lookup_unqueue_all, decide_False.
    - by rewrite lookup_queue_all, decide_False.
    - exact H0.
    - by rewrite lookup_unqueue_all, decide_False. }
  by apply Hgen.
Qed.

Lemma spawn_blacklisted rx ids header d s id :
  id ∉ ids → blacklisted id s → blacklisted id (spawn_snapshot_task rx ids header d s).
Proof.
  intros Hid Hb. unfold spawn_snapshot_task, blacklisted.
  match goal with |- context [queue_all InFlight ids ?x] => set (s1 := x) end.
  change (snapshot_queue (queue_all InFlight ids s1) !! id = Some Blacklisted).
  rewrite lookup_queue_all, decide_False by done. unfold s1. by destruct (snapshot_tasks s).
Qed.

Lemma stage_blacklisted rx header d candidates s id :
  blacklisted id s → blacklisted id (stage_new rx header d (truly_new candidates s) s).
Proof.
  intros Hb. destruct (truly_new_spec candidates s) as [_ Hnew]. unfold stage_new.
  assert (id ∉ truly_new candidates s) as Hid.
  { intros (_ & _ & Hn)%Hnew. unfold blacklisted in Hb. congruence. }
  destruct (partial_blocks s); [|case_decide; [done|by apply spawn_blacklisted]].
  unfold blacklisted. rewrite lookup_queue_all, decide_False by done.
  assert (id ∉ ids_with SDeferred s) as Hdef.
  { destruct (ids_with_spec SDeferred s) as [_ Hd]. rewrite Hd. unfold blacklisted in Hb. congruence. }
  case_match; [|exact Hb]. apply spawn_blacklisted; [done|]. unfold blacklisted.
  by rewrite lookup_unqueue_all, decide_False.
Qed.

Lemma queue_inv_ext (s s' : t) :
  snapshot_tasks s' = snapshot_tasks s → snapshot_queue s' = snapshot_queue s →
  component_tracker s' = component_tracker s → queue_inv s → queue_inv s'.
Proof.
  intros Et Eq Ec [H1 H2 H3]. unfold queue_inv, task_ids. rewrite Et. fold (task_ids s).
  split; rewrite ?Eq, ?Ec; done.
Qed.

(** The failed requests leave the queue to be tried again. *)
Lemma retry_queue s :
  queue_inv s →
  queue_inv (unqueue_all (ids_with RetryNext s) s) ∧
  ∀ id, blacklisted id s → blacklisted id (unqueue_all (ids_with RetryNext s) s).
Proof.
  intros Hq. destruct (ids_with_spec RetryNext s) as [_ Hr]. split.
  - eapply (queue_ok_same (task_ids s) s); [exact Hq|..]; intros id; rewrite lookup_unqueue_all.
    + case_decide as Hd; [|done]. apply Hr in Hd. by rewrite Hd.
    + case_decide; [by intros []|]. apply Hq.
  - intros id Hb. unfold blacklisted. rewrite lookup_unqueue_all, decide_False; [done|].
    rewrite Hr. unfold blacklisted in Hb. congruence.
Qed.

(** Removals and entry points track no further component. *)
Lemma update_tracker_untracked u to_remove tracker tracker' removed id :
  match to_remove with
  | [] => (tracker, ∅)
  | _ => ComponentTracker.stop_tracking to_remove tracker
  end = (tracker', removed) →
  ComponentTracker.components tracker !! id = None →
  ComponentTracker.components (ComponentTracker.process_entrypoints u tracker') !! id = None.
Proof.
  intros Et Hun. destruct (process_entrypoints_spec u tracker') as (-> & _).
  destruct to_remove as [|i l]; [by injection Et as <- _|].
  destruct (remove_components_spec (i :: l) tracker) as (_ & _ & Hc & _).
  unfold ComponentTracker.stop_tracking in Et.
  destruct (foldl ComponentTracker.remove_component (tracker, ∅) (i :: l)) as [t1 rm].
  injection Et as <- _. destruct (reinitialize_spec t1) as (-> & _). simpl in Hc. rewrite Hc. by case_decide.
Qed.

(** One turn of the loop. *)
Lemma process_delta_queue poll rx d s :
  (∀ p, p ∈ snapshot_tasks s → answers_task poll p) → queue_inv s →
  queue_inv (process_delta poll rx d s).1 ∧
  ∀ id, blacklisted id s → blacklisted id (process_delta poll rx d s).1.
Proof.
  intros Hans Hq. unfold process_delta.
  match goal with |- context [drain_completed_snapshots poll ?x] => set (s1 := x) end.
  assert (snapshot_tasks s1 = snapshot_tasks s ∧ queue_inv s1 ∧ ∀ id, blacklisted id s → blacklisted id s1)
    as (Et1 & Hq1 & Hb1).
  { unfold s1. destruct (snapshot_tasks s) eqn:E; [done|]. split_and!; [done| |done].
    by apply (queue_inv_ext s). }
  pose proof (drain_queue poll s1 ltac:(by rewrite Et1) Hq1) as Hq2.
  pose proof (fun id => drain_blacklisted poll s1 id Hq1) as Hb2.
  destruct (drain_completed_snapshots poll s1) as [s2 snap]. simpl in Hq2, Hb2.
  assert (queue_inv (trim_buffered s2) ∧ ∀ id, blacklisted id s2 → blacklisted id (trim_buffered s2)) as [Hq3 Hb3].
  { unfold trim_buffered. destruct (oldest_pending_block (snapshot_tasks s2));
      (split; [by apply (queue_inv_ext s2)|done]). }
  destruct (ComponentTracker.filter_updated_components d (component_tracker (trim_buffered s2))) as [to_add to_remove].
  set (s3 := trim_buffered s2) in *. set (s4 := unqueue_all (ids_with RetryNext s3) s3).
  destruct (retry_queue s3 Hq3) as [Hq4 Hb4]. fold s4 in Hq4, Hb4.
  pose proof (stage_queue rx (BlockHeader.of_changes d) d (to_add ++ ids_with RetryNext s3) s4 Hq4) as Hq5.
  pose proof (fun id => stage_blacklisted rx (BlockHeader.of_changes d) d (to_add ++ ids_with RetryNext s3) s4 id) as Hb5.
  set (s5 := stage_new _ _ _ _ _) in *.
  destruct (match to_remove with [] => _ | _ => _ end) as [tracker removed] eqn:Et. simpl.
  split; [|intros id Hb; by apply Hb5, Hb4, Hb3, Hb2, Hb1].
  eapply (queue_ok_same (task_ids s5) s5); [exact Hq5|done|]. intros id Hs. simpl.
  eapply update_tracker_untracked; [exact Et|]. by apply (q_untracked _ _ Hq5).
Qed.

(** * Merged messages *)

(** How a client reads a message: snapshots, then deltas on top, then removals. *)
Definition read_message {H} (v : gmap string ProtocolComponentState.t) (m : StateSyncMessage.t H) :
    gmap string ProtocolComponentState.t :=
  let v := extend v (ComponentWithState.state <$> Snapshot.states (StateSyncMessage.snapshots m)) in
  let v := match StateSyncMessage.deltas m with
           | Some d => map_imap (fun id st => Some (next_state id st d)) v
           | None => v
           end in
  retain (fun id => negb (StateSyncMessage.contains (StateSyncMessage.removed_components m) id)) v.

(** The deltas of a message are filed under the component they are for. *)
Definition well_filed (d : BlockAggregatedChanges.t) : Prop := ∀ id sd,
  BlockAggregatedChanges.state_deltas d !! id = Some sd → ProtocolComponentStateDelta.component_id sd = id.

(** The message says nothing of the component. *)
Definition silent (id : string) (o : option BlockAggregatedChanges.t) : Prop := ∀ d, o = Some d →
  BlockAggregatedChanges.state_deltas d !! id = None ∧ BlockAggregatedChanges.component_balances d !! id = None.

Definition next_state_opt (id : string) (o : option BlockAggregatedChanges.t) (st : ProtocolComponentState.t) :
    ProtocolComponentState.t :=
  match o with Some d => next_state id st d | None => st end.

Lemma state_balance_comm sd b st :
  ProtocolComponentState.with_balance_delta b (ProtocolComponentState.with_state_delta sd st) =
  ProtocolComponentState.with_state_delta sd (ProtocolComponentState.with_balance_delta b st).
Proof. done. Qed.

Lemma balance_delta_merge b1 b2 st :
  ProtocolComponentState.with_balance_delta (extend b1 b2) st =
  ProtocolComponentState.with_balance_delta b2 (ProtocolComponentState.with_balance_delta b1 st).
Proof.
  unfold ProtocolComponentState.with_balance_delta. simpl. f_equal. rewrite extend_extend. f_equal.
  apply map_eq. intros k. rewrite lookup_extend, !lookup_fmap, lookup_extend. by destruct (b2 !! k).
Qed.

Lemma extend_empty {K V} `{Countable K} (m : gmap K V) : extend ∅ m = m.
Proof. unfold extend. apply (right_id_L ∅ (∪)). Qed.

Lemma next_state_merge l r id st :
  well_filed l → well_filed r →
  next_state id st (BlockAggregatedChanges.merge l r) = next_state id (next_state id st l) r.
Proof.
  intros Hl Hr. unfold next_state. simpl. rewrite lookup_upsert_all.
  unfold extend_nested. rewrite lookup_upsert_all.
  assert (∀ sl sr s, BlockAggregatedChanges.state_deltas l !! id = Some sl →
    BlockAggregatedChanges.state_deltas r !! id = Some sr →
    ProtocolComponentState.with_state_delta
      (BlockAggregatedChanges.merge_ignoring ProtocolComponentStateDelta.merge sr (Some sl)) s =
    ProtocolComponentState.with_state_delta sr (ProtocolComponentState.with_state_delta sl s)) as Hm.
  { intros sl sr s El Er. simpl. apply with_state_delta_merge. unfold ProtocolComponentStateDelta.merge.
    rewrite decide_False; [done|]. rewrite (Hl id sl El), (Hr id sr Er). tauto. }
  destruct (BlockAggregatedChanges.state_deltas l !! id) as [sl|] eqn:El,
    (BlockAggregatedChanges.state_deltas r !! id) as [sr|] eqn:Er,
    (BlockAggregatedChanges.component_balances l !! id) as [bl|],
    (BlockAggregatedChanges.component_balances r !! id) as [br|]; simpl default;
    rewrite ?extend_empty; rewrite ?(Hm sl sr) by done;
    rewrite ?balance_delta_merge, ?state_balance_comm; done.
Qed.

Lemma lookup_read_message {H} v (m : StateSyncMessage.t H) id :
  read_message v m !! id =
    if StateSyncMessage.contains (StateSyncMessage.removed_components m) id then None
    else next_state_opt id (StateSyncMessage.deltas m) <$>
      match Snapshot.states (StateSyncMessage.snapshots m) !! id with
      | Some cws => Some (ComponentWithState.state cws)
      | None => v !! id
      end.
Proof.
  unfold read_message. rewrite lookup_retain. destruct (StateSyncMessage.contains _ id); simpl; [done|].
  unfold next_state_opt. destruct (StateSyncMessage.deltas m) as [d|]; [rewrite map_lookup_imap|];
    rewrite lookup_extend, lookup_fmap; destruct (_ !! id); simpl; try done;
    by destruct (v !! id).
Qed.

Lemma contains_spec {V} (m : gmap string V) k :
  StateSyncMessage.contains m k = match m !! k with Some _ => true | None => false end.
Proof.
  unfold StateSyncMessage.contains. destruct (m !! k); [by apply bool_decide_true|].
  apply bool_decide_false. by intros [].
Qed.

(** Merging is exact for a component that is not both in the deltas of the first message and
    in the snapshots of the second. *)
Lemma merge_read {H} (a b : StateSyncMessage.t H) v id :
  (∀ d, StateSyncMessage.deltas a = Some d → well_filed d) →
  (∀ d, StateSyncMessage.deltas b = Some d → well_filed d) →
  (is_Some (Snapshot.states (StateSyncMessage.snapshots b) !! id) → silent id (StateSyncMessage.deltas a)) →
  read_message v (StateSyncMessage.merge a b) !! id = read_message (read_message v a) b !! id.
Proof.
  intros Ha Hb Hs. rewrite !lookup_read_message. unfold StateSyncMessage.merge. simpl.
  rewrite !contains_spec, !lookup_extend, !lookup_retain, !contains_spec.
  assert (∀ st, next_state_opt id
      match StateSyncMessage.deltas a, StateSyncMessage.deltas b with
      | Some l, Some r => Some (BlockAggregatedChanges.merge l r)
      | None, Some r => Some r
      | Some l, None => Some l
      | None, None => None
      end st = next_state_opt id (StateSyncMessage.deltas b) (next_state_opt id (StateSyncMessage.deltas a) st))
    as Hd.
  { intros st. destruct (StateSyncMessage.deltas a) as [l|], (StateSyncMessage.deltas b) as [r|]; try done.
    simpl. apply next_state_merge; auto. }
  destruct (StateSyncMessage.removed_components b !! id); [done|].
  destruct (Snapshot.states (StateSyncMessage.snapshots b) !! id) as [cws|]; simpl.
  - rewrite Hd. do 2 f_equal. specialize (Hs ltac:(by eexists)). unfold next_state_opt, silent in *.
    destruct (StateSyncMessage.deltas a) as [l|]; [|done]. destruct (Hs l eq_refl) as [E1 E2].
    unfold next_state. by rewrite E1, E2.
  - destruct (StateSyncMessage.removed_components a !! id); [done|].
    destruct (Snapshot.states (StateSyncMessage.snapshots a) !! id); simpl; [by rewrite Hd|].
    destruct (v !! id); simpl; [by rewrite Hd|done].
Qed.

(** * The first message *)

Section init.
Context `{!RPCClient}.

Lemma initial_snapshot_frame header s snap s' :
  initial_snapshot header s = Ok (snap, s') →
  snapshot_tasks s' = snapshot_tasks s ∧ buffered_deltas s' = buffered_deltas s ∧
  snapshot_queue s' = snapshot_queue s ∧
  ComponentTracker.components (component_tracker s') = ComponentTracker.components (component_tracker s).
Proof.
  unfold initial_snapshot. case_if; [by intros [= <- <-]|]. intros Hi.
  destruct (fetch_snapshot _ _ _) as [[[sn u] ?]| |]; simpl in Hi; try done. injection Hi as <- <-.
  split_and!; try done. simpl. by destruct (process_entrypoints_spec u (component_tracker s)) as (-> & _).
Qed.

Lemma init_from_frame msg s m header s' :
  init_from msg s = Started m header s' →
  header = BlockHeader.of_changes msg ∧ snapshot_tasks s' = snapshot_tasks s ∧
  buffered_deltas s' = buffered_deltas s ∧ snapshot_queue s' = snapshot_queue s ∧
  ComponentTracker.components (component_tracker s') = ComponentTracker.components (component_tracker s).
Proof.
  unfold init_from. case_if; [by intros [= <- <- <-]|].
  destruct (initial_snapshot _ s) as [[snap s1]|[[]| | | | | |]|] eqn:E; try done.
  intros [= <- <- <-]. split; [done|]. by eapply initial_snapshot_frame.
Qed.

(** The number of the last block seen is the one of the message before. *)
Definition seen (o : option Z) (pre : list BlockAggregatedChanges.t) : option Z :=
  match last pre with Some d => Some (delta_number d) | None => o end.

Lemma init_loop_start msgs o n s m s' :
  init_loop msgs o n s = Some (Ok (m, s')) →
  ∃ pre msg post, msgs = pre ++ msg :: post ∧
    last_synced_block s' = Some (BlockHeader.of_changes msg) ∧
    already_synced (BlockHeader.of_changes msg) s = false ∧
    (partial_blocks s = true → BlockAggregatedChanges.partial_block_index msg = None ∨
       ∃ prev, seen o pre = Some prev ∧ (prev < delta_number msg)%Z) ∧
    snapshot_tasks s' = snapshot_tasks s ∧ buffered_deltas s' = buffered_deltas s ∧
    snapshot_queue s' = snapshot_queue s ∧
    ComponentTracker.components (component_tracker s') = ComponentTracker.components (component_tracker s).
Proof.
  revert o n; induction msgs as [|msg msgs IH]; intros o n; [done|]. cbn [init_loop].
  destruct (candidate o msg s) as [ok o'] eqn:Ec.
  assert (∀ n', init_loop msgs o' n' s = Some (Ok (m, s')) → ∃ pre msg0 post, msg :: msgs = pre ++ msg0 :: post ∧
    last_synced_block s' = Some (BlockHeader.of_changes msg0) ∧
    already_synced (BlockHeader.of_changes msg0) s = false ∧
    (partial_blocks s = true → BlockAggregatedChanges.partial_block_index msg0 = None ∨
       ∃ prev, seen o pre = Some prev ∧ (prev < delta_number msg0)%Z) ∧
    snapshot_tasks s' = snapshot_tasks s ∧ buffered_deltas s' = buffered_deltas s ∧
    snapshot_queue s' = snapshot_queue s ∧
    ComponentTracker.components (component_tracker s') = ComponentTracker.components (component_tracker s)) as Hrec.
  { intros n' (pre & x & post & -> & H1 & H2 & H3 & H4 & H5 & H6 & H7)%IH. exists (msg :: pre), x, post.
    split_and!; try done. intros Hp. destruct (H3 Hp) as [|(prev & Hs & Hlt)]; [by left|right].
    exists prev. split; [|done]. revert Hs. unfold seen. destruct pre as [|y pre]; last first.
    { change (last (msg :: y :: pre)) with (last (y :: pre)).
      destruct (last (y :: pre)) eqn:El; [done|]. by apply last_None in El. }
    simpl. unfold candidate in Ec. rewrite Hp in Ec.
    destruct (BlockAggregatedChanges.partial_block_index msg); by injection Ec as <- <-. }
  destruct (negb ok || already_synced (BlockHeader.of_changes msg) s) eqn:Eskip; [apply Hrec|].
  apply orb_false_iff in Eskip as [->%negb_false_iff Hsync].
  destruct (init_from msg s) as [m0 header s0|reason|e|] eqn:Ei; try done.
  - intros [= <- <-]. apply init_from_frame in Ei as (-> & H4 & H5 & H6 & H7).
    exists [], msg, msgs. split_and!; try done. intros Hp. unfold candidate in Ec. rewrite Hp in Ec.
    destruct (BlockAggregatedChanges.partial_block_index msg); [right|by left].
    injection Ec as Hok _. unfold seen. simpl. destruct o as [prev|]; [|done]. exists prev.
    split; [done|]. by apply Z.ltb_lt in Hok.
  - case_if; [done|]. apply Hrec.
Qed.

End init.

(** * Theorems *)

(** C6. Over messages whose block numbers do not decrease, from a start of the main loop without
    pending requests and buffered messages: the state of a component that is emitted from a
    snapshot fetched in the background is the fetched state, at the block of its request, with
    every message received for later blocks applied in order by the operations of the models,
    although the buffer keeps only what pending requests need.  A revert to a lower block
    ([revert_lost_in_flight]) and a restart with requests pending ([restart_keeps_stale_buffer])
    break the conditions, and for accounts the deletion of a slot is not applied
    ([deleted_slot_kept]). *)
Theorem emitted_snapshots_current log s h poll rx d id cws :
  run log s → last_synced_block s = Some h → (BlockHeader.number h ≤ delta_number d)%Z →
  (∀ p, p ∈ snapshot_tasks s → honest poll p) →
  Snapshot.states (StateSyncMessage.snapshots (process_delta poll rx d s).2) !! id = Some cws →
  ∃ p r cws0, p ∈ snapshot_tasks s ∧ poll (SnapshotTask.receiver p) = Received (inl r) ∧
    Snapshot.states (SnapshotFetchResult.snapshot r) !! id = Some cws0 ∧
    cws = ComponentWithState.set_state
            (foldl (next_state id) (ComponentWithState.state cws0)
               (newer (SnapshotTask.snapshot_block p) (log ++ [d]))) cws0.
Proof.
  intros Hr%run_inv Hh Hd Hhon Hc. pose proof (process_delta_inv poll rx d log s h Hr Hh Hd) as Hp.
  destruct (process_delta poll rx d s) as [s' msg]. destruct Hp as [_ Hs]. simpl in Hc. rewrite Hs in Hc.
  apply extend_all_lookup in Hc as [Hc|([p r] & Hpr & Hc)]; [simpl in Hc; by rewrite lookup_empty in Hc|].
  unfold caught_up in Hc. rewrite apply_deltas_state in Hc. simpl in Hc.
  destruct (Snapshot.states (SnapshotFetchResult.snapshot r) !! id) as [cws0|] eqn:E; [|done].
  injection Hc as <-.
  pose proof Hpr as (q & Hq & Hqr)%list_elem_of_omap.
  destruct (poll (SnapshotTask.receiver q)) as [[r'|]| |] eqn:Ep; try done. injection Hqr as -> ->.
  exists p, r, cws0. split_and!; [done..|]. by rewrite (caught_up_log poll log d s p r Hr Hpr) by auto.
Qed.

(** Turns of the main loop whose tasks are answered with components they asked for. *)
Inductive turn : t → t → Prop :=
| turn_delta poll rx d s :
    (∀ p, p ∈ snapshot_tasks s → answers_task poll p) → turn s (process_delta poll rx d s).1.

Lemma turns_queue s s' :
  rtc turn s s' → queue_inv s →
  queue_inv s' ∧ ∀ id, blacklisted id s → blacklisted id s'.
Proof.
  induction 1 as [|s0 s1 s2 Ht _ IH]; intros Hq; [done|]. destruct Ht as [poll rx d s Hans].
  destruct (process_delta_queue poll rx d s Hans Hq) as [Hq1 Hb1].
  destruct (IH Hq1) as [Hq2 Hb2]. split; [done|]. intros id Hb. by apply Hb2, Hb1.
Qed.

Lemma idle_queue s : snapshot_tasks s = [] → snapshot_queue s = ∅ → queue_inv s.
Proof.
  intros Ht Hq. unfold queue_inv, task_ids. rewrite Ht. split; rewrite ?Hq; [constructor| |].
  - intros id. rewrite lookup_empty. simpl. set_solver.
  - intros id. rewrite lookup_empty. by intros [].
Qed.

(** C19. At any time the components in flight are exactly those of the pending requests, each in
    one request, and none of them is tracked already. *)
Theorem one_request_per_component s s' :
  snapshot_tasks s = [] → snapshot_queue s = ∅ → rtc turn s s' →
  NoDup (task_ids s') ∧
  (∀ id, id ∈ task_ids s' ↔ snapshot_queue s' !! id = Some InFlight) ∧
  (∀ id, id ∈ task_ids s' → ComponentTracker.components (component_tracker s') !! id = None).
Proof.
  intros Ht Hq Hr. destruct (turns_queue s s' Hr (idle_queue s Ht Hq)) as [[H1 H2 H3] _].
  split_and!; [done..|]. intros id Hid. apply H3. exists InFlight. by apply H2.
Qed.

(** A component whose request failed for good stays out: it is neither requested nor tracked
    again. *)
Theorem blacklisted_until_restart s s1 s2 id :
  snapshot_tasks s = [] → snapshot_queue s = ∅ → rtc turn s s1 → rtc turn s1 s2 →
  snapshot_queue s1 !! id = Some Blacklisted →
  snapshot_queue s2 !! id = Some Blacklisted ∧ id ∉ task_ids s2 ∧
  ComponentTracker.components (component_tracker s2) !! id = None.
Proof.
  intros Ht Hq Hr1 Hr2 Hb. destruct (turns_queue s s1 Hr1 (idle_queue s Ht Hq)) as [Hq1 _].
  destruct (turns_queue s1 s2 Hr2 Hq1) as [[H1 H2 H3] Hb2]. specialize (Hb2 id Hb). unfold blacklisted in Hb2.
  split_and!; [done| |]; [rewrite H2; congruence|apply H3; by rewrite Hb2].
Qed.

(** C15. A merged message has on the states a client holds the effect of the two messages in order,
    when no component is both in the deltas of the first and in the snapshots of the second. *)
Theorem merged_message_effect {H} (a b : StateSyncMessage.t H) v :
  (∀ d, StateSyncMessage.deltas a = Some d → well_filed d) →
  (∀ d, StateSyncMessage.deltas b = Some d → well_filed d) →
  (∀ id, is_Some (Snapshot.states (StateSyncMessage.snapshots b) !! id) → silent id (StateSyncMessage.deltas a)) →
  read_message v (StateSyncMessage.merge a b) = read_message (read_message v a) b.
Proof. intros Ha Hb Hs. apply map_eq. intros id. apply merge_read; auto. Qed.

(** When a component is in the deltas of the first message and in the snapshots of the second,
    the merged message overwrites the newer snapshot with the older change. *)
Theorem merge_overwrites_snapshot {H} (a b : StateSyncMessage.t H) v id cws l sd k x :
  Snapshot.states (StateSyncMessage.snapshots b) !! id = Some cws →
  StateSyncMessage.removed_components b = ∅ → StateSyncMessage.deltas b = None →
  StateSyncMessage.deltas a = Some l → BlockAggregatedChanges.state_deltas l !! id = Some sd →
  ProtocolComponentStateDelta.updated_attributes sd !! k = Some x →
  k ∉ ProtocolComponentStateDelta.deleted_attributes sd →
  (read_message v (StateSyncMessage.merge a b) !! id ≫= fun st => ProtocolComponentState.attributes st !! k) = Some x ∧
  (read_message (read_message v a) b !! id ≫= fun st => ProtocolComponentState.attributes st !! k) =
    ProtocolComponentState.attributes (ComponentWithState.state cws) !! k.
Proof.
  intros Hs Hr Hdb Hda Hsd Hx Hk. rewrite !lookup_read_message. unfold StateSyncMessage.merge. simpl.
  rewrite Hr, Hdb, Hda. rewrite !contains_spec, lookup_extend, lookup_retain, lookup_extend, contains_spec, Hs, lookup_empty.
  simpl. split; [|done].
  destruct (StateSyncMessage.removed_components a !! id); simpl; unfold next_state; rewrite Hsd;
    destruct (BlockAggregatedChanges.component_balances l !! id); simpl;
    (rewrite lookup_retain, bool_decide_false by done); simpl; by rewrite lookup_extend, Hx.
Qed.

(** The first message a synchronizer starts from is not one it has synced, and with partial
    blocks it is a full block or the first seen of a higher block than the message before. *)
Theorem init_starts_at_block `{!RPCClient} msgs s m s' :
  init_loop msgs None 0 s = Some (Ok (m, s')) →
  ∃ pre msg post, msgs = pre ++ msg :: post ∧
    last_synced_block s' = Some (BlockHeader.of_changes msg) ∧
    already_synced (BlockHeader.of_changes msg) s = false ∧
    (partial_blocks s = true → BlockAggregatedChanges.partial_block_index msg = None ∨
       ∃ prev, last pre = Some prev ∧ (delta_number prev < delta_number msg)%Z).
Proof.
  intros (pre & msg & post & H1 & H2 & H3 & H4 & _)%init_loop_start. exists pre, msg, post.
  split_and!; [done..|]. intros Hp. destruct (H4 Hp) as [|(prev & Hs & Hlt)]; [by left|right].
  unfold seen in Hs. destruct (last pre) as [x|]; [|done]. injection Hs as <-. by exists x.
Qed.

(** Starting again after a lost connection keeps the pending requests and the buffer as they
    were: what was missed in between, and the first message itself, are not buffered for them. *)
Theorem restart_keeps_stale_buffer `{!RPCClient} msgs s m s' :
  init_loop msgs None 0 s = Some (Ok (m, s')) →
  snapshot_tasks s' = snapshot_tasks s ∧ buffered_deltas s' = buffered_deltas s.
Proof. by intros (pre & msg & post & _ & _ & _ & _ & H1 & H2 & _)%init_loop_start. Qed.

(** * Witnesses and examples *)

Section witnesses.

Definition v1 : Bytes := [x01].
Definition v2 : Bytes := [x02].
Definition v3 : Bytes := [x03].

Definition block_of (n : Z) (h parent : Bytes) : Block.t := Block.mk n Ethereum h parent 0.
Definition message (b : Block.t) (revert : bool) (attrs : gmap string (gmap string Bytes))
    (tvl : gmap string f64) : BlockAggregatedChanges.t :=
  BlockAggregatedChanges.mk "sys" Ethereum b 0 None revert
    (map_imap (fun id m => Some (ProtocolComponentStateDelta.mk id m ∅ ∅)) attrs)
    ∅ ∅ ∅ ∅ ∅ ∅ tvl DCIUpdate.default_ None.

Definition b9 : Block.t := block_of 9 [x09] [x08].
Definition b10 : Block.t := block_of 10 [x0a] [x09].
Definition b11 : Block.t := block_of 11 [x0b] [x0a].
Definition b10' : Block.t := block_of 10 [xaa] [x09].

Definition header_of (b : Block.t) : BlockHeader.t :=
  BlockHeader.mk (Block.hash b) (Block.number b) (Block.parent_hash b) false 0 None.

(** The synchronizer after block 9, with no component tracked. *)
Definition synced : t :=
  set_last_synced (Some (header_of b9))
    (new (ExtractorIdentity.mk Ethereum "sys") true
       (ComponentFilter.with_tvl_range (tvl_of (-50)) (tvl_of (-49))) true true).

Definition nothing (_ : nat) : TryRecv := Empty.

(** The TVL of the pool [a] exceeds the threshold in block 10. *)
Definition rising : BlockAggregatedChanges.t := message b10 false ∅ {["a" := tvl_of (-48)]}.
Definition requested : t := (process_delta nothing 0 rising synced).1.

Definition pool_state (x : Bytes) : ComponentWithState.t :=
  ComponentWithState.mk (ProtocolComponentState.mk "a" {["x" := x]} ∅) (pool "a" c1) None [].
Definition fetched (x : Bytes) : SnapshotFetchResult.t :=
  SnapshotFetchResult.mk {["a" := pool "a" c1]} {[c1]} DCIUpdate.default_
    (Snapshot.mk {["a" := pool_state x]} ∅) 10.
Definition arrived (x : Bytes) (_ : nat) : TryRecv := Received (inl (fetched x)).

Definition change (x : Bytes) : gmap string (gmap string Bytes) := {["a" := {["x" := x]}]}.
Definition next_block : BlockAggregatedChanges.t := message b11 false (change v2) ∅.

Definition emitted (x : Bytes) : StateSyncMessage.t BlockHeader.t :=
  (process_delta (arrived x) 1 next_block requested).2.

Definition attribute_x (m : StateSyncMessage.t BlockHeader.t) : option Bytes :=
  Snapshot.states (StateSyncMessage.snapshots m) !! "a" ≫= fun cws =>
    ProtocolComponentState.attributes (ComponentWithState.state cws) !! "x".

Lemma requested_run : run [rising] requested.
Proof.
  apply (run_step [] synced (header_of b9)); [|reflexivity|vm_compute; discriminate].
  apply run_start; [reflexivity..|by eexists].
Qed.

Lemma requested_tasks : snapshot_tasks requested = [SnapshotTask.mk ["a"] 10 0].
Proof. vm_compute. reflexivity. Qed.

Lemma emitted_snapshots_current_witness : ∃ p r cws0, p ∈ snapshot_tasks requested ∧
  arrived v1 (SnapshotTask.receiver p) = Received (inl r) ∧
  Snapshot.states (SnapshotFetchResult.snapshot r) !! "a" = Some cws0 ∧
  pool_state v2 = ComponentWithState.set_state
    (foldl (next_state "a") (ComponentWithState.state cws0)
       (newer (SnapshotTask.snapshot_block p) ([rising] ++ [next_block]))) cws0.
Proof.
  apply (emitted_snapshots_current [rising] requested (header_of b10) (arrived v1) 1 next_block "a").
  - apply requested_run.
  - vm_compute. reflexivity.
  - vm_compute. discriminate.
  - rewrite requested_tasks. intros p ->%list_elem_of_singleton r [= <-]. reflexivity.
  - vm_compute. reflexivity.
Defined.

Lemma asked s poll rx d : snapshot_tasks s = [] → turn s (process_delta poll rx d s).1.
Proof. intros E. apply turn_delta. rewrite E. set_solver. Qed.

Lemma one_request_per_component_witness :
  task_ids requested = ["a"] ∧ snapshot_queue requested !! "a" = Some InFlight.
Proof.
  destruct (one_request_per_component synced requested ltac:(reflexivity) ltac:(reflexivity)) as (_ & H & _).
  - eapply rtc_l; [by apply asked|apply rtc_refl].
  - split; [vm_compute; reflexivity|]. apply H. apply (bool_decide_unpack _). vm_compute. exact I.
Defined.

(** The server rejects the request for good. *)
Definition rejected (_ : nat) : TryRecv := Received (inr (SRPCError (Fatal ""))).
Definition failed : t := (process_delta rejected 1 next_block requested).1.

Lemma blacklisted_until_restart_witness :
  snapshot_queue (process_delta nothing 2 rising failed).1 !! "a" = Some Blacklisted.
Proof.
  apply (blacklisted_until_restart synced failed (process_delta nothing 2 rising failed).1 "a").
  - reflexivity.
  - reflexivity.
  - eapply rtc_l; [by apply asked|]. eapply rtc_l; [|apply rtc_refl]. apply turn_delta.
    intros p _ r id [=].
  - eapply rtc_l; [|apply rtc_refl]. apply asked. vm_compute. reflexivity.
  - vm_compute. reflexivity.
Defined.

(** A message with a change of [x], and a later one with a fresh snapshot of the pool. *)
Definition delta_msg : StateSyncMessage.t BlockHeader.t :=
  StateSyncMessage.mk (header_of b10) Snapshot.default_ (Some (message b10 false (change v1) ∅)) ∅.
Definition snapshot_msg : StateSyncMessage.t BlockHeader.t :=
  StateSyncMessage.mk (header_of b11) (Snapshot.mk {["a" := pool_state v2]} ∅) None ∅.
Definition other_msg : StateSyncMessage.t BlockHeader.t :=
  StateSyncMessage.mk (header_of b11) Snapshot.default_ (Some next_block) ∅.

Lemma message_filed b revert attrs tvl : well_filed (message b revert attrs tvl).
Proof.
  intros id sd Hsd. simpl in Hsd. rewrite map_lookup_imap in Hsd.
  destruct (attrs !! id); [|done]. by injection Hsd as <-.
Qed.

Lemma merged_message_effect_witness :
  read_message {["a" := ComponentWithState.state (pool_state v3)]} (StateSyncMessage.merge delta_msg other_msg) !! "a" =
    Some (ComponentWithState.state (pool_state v2)).
Proof.
  rewrite (merged_message_effect delta_msg other_msg).
  - vm_compute. reflexivity.
  - intros d [= <-]. apply message_filed.
  - intros d [= <-]. apply message_filed.
  - intros id [cws Hc]. simpl in Hc. by rewrite lookup_empty in Hc.
Defined.

Lemma merge_overwrites_snapshot_witness :
  (read_message ∅ (StateSyncMessage.merge delta_msg snapshot_msg) !! "a"
     ≫= fun st => ProtocolComponentState.attributes st !! "x") = Some v1 ∧
  (read_message (read_message ∅ delta_msg) snapshot_msg !! "a"
     ≫= fun st => ProtocolComponentState.attributes st !! "x") = Some v2.
Proof.
  apply (merge_overwrites_snapshot delta_msg snapshot_msg ∅ "a" (pool_state v2) (message b10 false (change v1) ∅)
           (ProtocolComponentStateDelta.mk "a" {["x" := v1]} ∅ ∅) "x" v1); try reflexivity. set_solver.
Defined.

(** The revert of block 10 arrives while the snapshot of block 10 is in flight; the snapshot
    that is emitted with the next block 10 still has the reverted value. *)
Lemma revert_lost_in_flight :
  let reverted := (process_delta nothing 1 (message b9 true (change v1) ∅) requested).1 in
  let msg := (process_delta (arrived v2) 2 (message b10' false ∅ ∅) reverted).2 in
  attribute_x msg = Some v2 ∧
  option_map (fun d => BlockAggregatedChanges.state_deltas d !! "a") (StateSyncMessage.deltas msg) = Some None.
Proof. vm_compute. split; reflexivity. Qed.

(** The TVL falls under the lower threshold while the snapshot is in flight; the component
    is tracked all the same. *)
Lemma fallen_component_adopted :
  let fallen := (process_delta nothing 1 (message b11 false ∅ {["a" := tvl_of (-51)]}) requested).1 in
  let s := (process_delta (arrived v1) 2 (message (block_of 12 [x0c] [x0b]) false ∅ ∅) fallen).1 in
  is_Some (ComponentTracker.components (component_tracker s) !! "a").
Proof. apply (bool_decide_unpack _). vm_compute. exact I. Qed.

(** A slot that is deleted after the snapshot keeps its value in the client, and is empty in
    the models. *)
Lemma deleted_slot_kept :
  let account := Account.mk Ethereum c1 "" {[v1 := v2]} [] ∅ [] [] [] [] None in
  let d := AccountDelta.mk Ethereum c1 {[v1 := None]} None None Update in
  Account.slots (apply_account_delta d account) !! v1 = Some v2 ∧
  Account.slots (Account.with_delta d account) !! v1 = Some [].
Proof. vm_compute. split; reflexivity. Qed.

(** Two first messages: the first partial of a block is skipped when nothing was seen before. *)
#[local] Instance no_client : RPCClient := {
  compression := true;
  get_contract_state _ := Err (Fatal "");
  get_protocol_components _ := Err (Fatal "");
  get_protocol_states _ := Err (Fatal "");
  get_tokens _ := Err (Fatal "");
  get_component_tvl _ := Err (Fatal "");
  get_traced_entry_points _ := Err (Fatal "")
}.

Definition partial_of (b : Block.t) (i : Z) : BlockAggregatedChanges.t :=
  BlockAggregatedChanges.mk "sys" Ethereum b 0 None false ∅ ∅ ∅ ∅ ∅ ∅ ∅ ∅ DCIUpdate.default_ (Some i).
Definition partial_start : t := with_partial_blocks true synced.

Lemma init_starts_at_block_witness : ∃ m s',
  init_loop [partial_of b10 1; partial_of b11 0] None 0 partial_start = Some (Ok (m, s')) ∧
  ∃ pre msg post, [partial_of b10 1; partial_of b11 0] = pre ++ msg :: post ∧
    last_synced_block s' = Some (BlockHeader.of_changes msg) ∧
    already_synced (BlockHeader.of_changes msg) partial_start = false ∧
    (partial_blocks partial_start = true → BlockAggregatedChanges.partial_block_index msg = None ∨
       ∃ prev, last pre = Some prev ∧ (delta_number prev < delta_number msg)%Z).
Proof.
  assert (∃ r, init_loop [partial_of b10 1; partial_of b11 0] None 0 partial_start = Some (Ok r)) as [[m s'] Hr]
    by (eexists; vm_compute; reflexivity).
  exists m, s'. split; [exact Hr|]. exact (init_starts_at_block _ _ m s' Hr).
Defined.

Lemma restart_keeps_stale_buffer_witness : ∃ m s',
  init_loop [message (block_of 14 [x0e] [x0d]) false ∅ ∅] None 0 requested = Some (Ok (m, s')) ∧
  snapshot_tasks s' = snapshot_tasks requested ∧ buffered_deltas s' = [rising].
Proof.
  assert (∃ r, init_loop [message (block_of 14 [x0e] [x0d]) false ∅ ∅] None 0 requested = Some (Ok r)) as [[m s'] Hr]
    by (eexists; vm_compute; reflexivity).
  exists m, s'. split; [exact Hr|]. exact (restart_keeps_stale_buffer _ _ m s' Hr).
Defined.

End witnesses.
