(* ===== verification/Feed.v ===== *)
(** Aligning the synchronizers of several protocols on blocks: [tycho_client::feed].

    [BlockSynchronizer] waits in lock step for the next message of every stream, classifies
    each stream by the position of its block in the common history and emits one
    [FeedMessage] per round.  What a receiver yields within a time limit and the readings
    of the clock are arguments ([Inbox], [Clock]); [chrono]'s conversion of a duration and
    the text of an error are parameters. *)

From Stdlib Require Import SpecFloat.
From S2P Require Import Prelude Collections Bytes Models Blockchain BlockHistory ClientRpc ComponentTracker Synchronizer.

Open Scope tycho_scope.

Definition BLOCK_HISTORY_SIZE : nat := 15.

(** * Durations, in nanoseconds *)

Definition NANOS : Z := 10 ^ 9.

(** [Duration + Duration] unwinds when the seconds exceed a [u64]. *)
Definition duration_add {E} (a b : Z) : result E Z :=
  if (a + b <? 2 ^ 64 * NANOS)%Z then Ok (a + b)%Z else Panic.

Definition f64_of_Z (z : Z) : f64 := binary_normalize 53 1024 z 0 false.

Definition as_secs_f64 (d : Z) : f64 :=
  SFadd 53 1024 (f64_of_Z (d / NANOS)) (SFdiv 53 1024 (f64_of_Z (d mod NANOS)) (f64_of_Z NANOS)).

(** [a / b] to the nearest integer, ties to even. *)
Definition div_round (a b : Z) : Z :=
  let q := (a / b)%Z in
  let r := (2 * (a mod b))%Z in
  if (r <? b)%Z then q else if (b <? r)%Z then (q + 1)%Z else if Z.even q then q else (q + 1)%Z.

(** [Duration::from_secs_f64] unwinds on values out of range. *)
Definition from_secs_f64 {E} (x : f64) : result E Z :=
  match x with
  | S754_zero _ => Ok 0%Z
  | S754_finite false m e =>
      let nanos := if (0 <=? e)%Z then (Zpos m * 2 ^ e * NANOS)%Z
                   else div_round (Zpos m * NANOS) (2 ^ (- e)) in
      if (nanos <? 2 ^ 64 * NANOS)%Z then Ok nanos else Panic
  | _ => Panic
  end.

(** [Duration::mul_f64] *)
Definition mul_f64 {E} (d : Z) (rhs : f64) : result E Z :=
  from_secs_f64 (SFmul 53 1024 rhs (as_secs_f64 d)).

(** * Streams *)

Inductive BlockSynchronizerError :=
| InitializationError (extractor : ExtractorIdentity.t) (source : SynchronizerError)
| HistoryError (e : BlockHistoryError)
| NoReadySynchronizers (last_ended : option ExtractorIdentity.t)
| NoSynchronizers
| DurationConversionError.

Module SynchronizerState.
Inductive t :=
| Started
| Ready (header : BlockHeader.t)
| Delayed (header : BlockHeader.t)
| Stale (header : BlockHeader.t)
| Advanced (header : BlockHeader.t)
| Ended (reason : string).
End SynchronizerState.

(** What [timeout(d, rx.recv())] gives. *)
Inductive Recv :=
| Msg (m : StateSyncMessage.t BlockHeader.t)
| Errored (e : SynchronizerError)
| RxClosed
| TimedOut.

(** The receiver of a stream in one round: the first thing it yields within a time limit, and
    all it yields until a deadline, ending early with a time-out. *)
Record Inbox := mk_inbox { recv : Z → Recv; drain : Z → list Recv }.

(** The clock when staleness is checked and when the state has changed. *)
Record Clock := mk_clock { at_check : Z; at_end : Z }.

Module SynchronizerStream.
Record t := mk {
  extractor_id : ExtractorIdentity.t;
  state : SynchronizerState.t;
  error : option SynchronizerError;
  modify_ts : Z
}.

Definition new (extractor_id : ExtractorIdentity.t) (now : Z) : t :=
  mk extractor_id SynchronizerState.Started None now.

Definition set_state (x : SynchronizerState.t) (s : t) : t :=
  mk (extractor_id s) x (error s) (modify_ts s).
Definition set_modify_ts (now : Z) (s : t) : t := mk (extractor_id s) (state s) (error s) now.

Definition has_ended (self : t) : bool :=
  match state self with SynchronizerState.Ended _ => true | _ => false end.
Definition is_stale (self : t) : bool :=
  match state self with SynchronizerState.Stale _ => true | _ => false end.
Definition is_advanced (self : t) : bool :=
  match state self with SynchronizerState.Advanced _ => true | _ => false end.

Definition get_current_header (self : t) : option BlockHeader.t :=
  match state self with
  | SynchronizerState.Ready b | SynchronizerState.Delayed b | SynchronizerState.Advanced b => Some b
  | _ => None
  end.

Definition mark_closed (now : Z) (self : t) : t :=
  if has_ended self then self
  else set_modify_ts now (set_state (SynchronizerState.Ended "Closed") self).
Definition mark_stale (header : BlockHeader.t) (now : Z) (self : t) : t :=
  set_modify_ts now (set_state (SynchronizerState.Stale header) self).
Definition mark_ready (header : BlockHeader.t) (now : Z) (self : t) : t :=
  set_modify_ts now (set_state (SynchronizerState.Ready header) self).

Definition default_header : BlockHeader.t := BlockHeader.mk [] 0 [] false 0 None.

Section stream.
Context {C : Type} `{!LruCache C Bytes BlockHeader.t}.
Context (from_std : Z → option Z) (show_error : SynchronizerError → string).

Definition mark_errored (e : SynchronizerError) (now : Z) (self : t) : t :=
  mk (extractor_id self) (SynchronizerState.Ended (show_error e)) (Some e) now.

Definition check_and_transition_to_stale_if_needed (stale_threshold now : Z)
    (fallback_header : option BlockHeader.t) : stm t BlockSynchronizerError bool := fun self =>
  let wait_duration := (now - modify_ts self)%Z in
  match from_std stale_threshold with
  | None => (Err DurationConversionError, self)
  | Some stale_threshold_chrono =>
      if (stale_threshold_chrono <? wait_duration)%Z then
        let header_to_use :=
          match state self, fallback_header with
          | SynchronizerState.Ready h, _ | SynchronizerState.Delayed h, _
          | SynchronizerState.Stale h, _ => h
          | _, Some h => h
          | _, None => default_header
          end in
        (Ok true, set_modify_ts now (set_state (SynchronizerState.Stale header_to_use) self))
      else (Ok false, self)
  end.

Definition transition (latest_retrieved : BlockHeader.t) (block_history : BlockHistory.t C)
    (stale_threshold : Z) (clock : Clock) : stm t BlockSynchronizerError unit := fun self =>
  match BlockHistory.determine_block_position latest_retrieved block_history with
  | Err e => (Err (HistoryError e), self)
  | Panic => (Panic, self)
  | Ok pos =>
      st_bind
        (match pos with
         | NextExpected | NextPartial => fun self =>
             (Ok tt, set_state (SynchronizerState.Ready latest_retrieved) self)
         | Latest | Delayed =>
             st_bind (check_and_transition_to_stale_if_needed stale_threshold (at_check clock)
                        (Some latest_retrieved))
               (fun stale self =>
                  (Ok tt, if stale : bool then self
                          else set_state (SynchronizerState.Delayed latest_retrieved) self))
         | Advanced => fun self =>
             (Ok tt, set_state (SynchronizerState.Advanced latest_retrieved) self)
         end)
        (fun _ self => (Ok tt, set_modify_ts (at_end clock) self)) self
  end.

Abbreviation received := (option (StateSyncMessage.t BlockHeader.t)).

Definition try_recv_next_expected (max_wait : Z) (block_history : BlockHistory.t C)
    (previous_block : BlockHeader.t) (stale_threshold : Z) (inbox : Inbox) (clock : Clock) :
    stm t BlockSynchronizerError received := fun self =>
  match recv inbox max_wait with
  | Msg msg =>
      st_bind (transition (StateSyncMessage.header msg) block_history stale_threshold clock)
        (fun _ => st_ret (Some msg)) self
  | Errored e => (Ok None, mark_errored e (at_end clock) self)
  | RxClosed => (Ok None, mark_closed (at_end clock) self)
  | TimedOut =>
      (Ok None, set_modify_ts (at_end clock) (set_state (SynchronizerState.Delayed previous_block) self))
  end.

(** What the loop of [try_catch_up] ends with. *)
Inductive CatchUp :=
| Collected (results : list (StateSyncMessage.t BlockHeader.t))
| StreamErrored (e : SynchronizerError)
| StreamClosed
| PositionError (e : BlockHistoryError)
| Unwinds.

(** The receives of the loop, in order; the list ends when the deadline has passed. *)
Fixpoint collect (block_history : BlockHistory.t C) (events : list Recv)
    (results : list (StateSyncMessage.t BlockHeader.t)) : CatchUp :=
  match events with
  | [] | TimedOut :: _ => Collected results
  | Errored e :: _ => StreamErrored e
  | RxClosed :: _ => StreamClosed
  | Msg msg :: events' =>
      match BlockHistory.determine_block_position (StateSyncMessage.header msg) block_history with
      | Err e => PositionError e
      | Panic => Unwinds
      | Ok NextExpected | Ok NextPartial => Collected (results ++ [msg])
      | Ok _ => collect block_history events' (results ++ [msg])
      end
  end.

(** [results.into_iter().reduce(|l, r| l.merge(r))] *)
Definition merge_all (results : list (StateSyncMessage.t BlockHeader.t)) : received :=
  match results with
  | [] => None
  | m :: ms => Some (foldl StateSyncMessage.merge m ms)
  end.

Definition try_catch_up (block_history : BlockHistory.t C) (max_wait stale_threshold : Z)
    (inbox : Inbox) (clock : Clock) : stm t BlockSynchronizerError received := fun self =>
  match collect block_history (drain inbox max_wait) [] with
  | StreamErrored e => (Ok None, mark_errored e (at_end clock) self)
  | StreamClosed => (Ok None, mark_closed (at_end clock) self)
  | PositionError e => (Err (HistoryError e), self)
  | Unwinds => (Panic, self)
  | Collected results =>
      match merge_all results with
      | Some msg =>
          st_bind (transition (StateSyncMessage.header msg) block_history stale_threshold clock)
            (fun _ => st_ret (Some msg)) self
      | None =>
          st_bind (check_and_transition_to_stale_if_needed stale_threshold (at_check clock) None)
            (fun _ => st_ret None) self
      end
  end.

Definition try_advance (block_history : BlockHistory.t C)
    (block_time latency_buffer stale_threshold : Z) (skip_wait : bool) (inbox : Inbox) (clock : Clock) :
    stm t BlockSynchronizerError received := fun self =>
  match state self with
  | SynchronizerState.Started | SynchronizerState.Ended _ => (Ok None, self)
  | SynchronizerState.Advanced b =>
      st_bind (transition b block_history stale_threshold clock) (fun _ => st_ret None) self
  | SynchronizerState.Ready previous_block =>
      match duration_add block_time latency_buffer with
      | Ok max_wait =>
          try_recv_next_expected max_wait block_history previous_block stale_threshold inbox clock self
      | Err e => (Err e, self)
      | Panic => (Panic, self)
      end
  | SynchronizerState.Delayed _ =>
      match (if skip_wait then Ok 0%Z else duration_add block_time latency_buffer) with
      | Ok timeout => try_catch_up block_history timeout stale_threshold inbox clock self
      | Err e => (Err e, self)
      | Panic => (Panic, self)
      end
  | SynchronizerState.Stale _ =>
      try_catch_up block_history (if skip_wait then 0%Z else block_time) stale_threshold inbox clock self
  end.

End stream.
End SynchronizerStream.

(** * The block synchronizer *)

Module FeedMessage.
Record t := mk {
  state_msgs : gmap string (StateSyncMessage.t BlockHeader.t);
  sync_states : gmap string SynchronizerState.t
}.
End FeedMessage.

Module BlockSynchronizer.
Import SynchronizerStream.

Record t := mk {
  block_time : Z;
  latency_buffer : Z;
  startup_timeout : Z;
  max_messages : option nat;
  max_missed_blocks : Z
}.

Definition new {E} (block_time latency_buffer max_missed_blocks : Z) : result E t :=
  startup_timeout ← mul_f64 block_time (f64_of_Z max_missed_blocks);
  Ok (mk block_time latency_buffer startup_timeout None max_missed_blocks).

(** ** Checks *)

Definition require_active_stream (streams : list SynchronizerStream.t) :
    result BlockSynchronizerError unit :=
  if existsb (fun s => negb (has_ended s) && negb (is_stale s)) streams then Ok tt
  else Err (NoReadySynchronizers None).

(** The loop of [check_streams] with [latest_ended_stream]; [None]: an active stream ends it. *)
Fixpoint latest_ended (streams : list SynchronizerStream.t) (latest : option SynchronizerStream.t) :
    option (option SynchronizerStream.t) :=
  match streams with
  | [] => Some latest
  | stream :: streams' =>
      if negb (has_ended stream) && negb (is_stale stream) then None
      else if has_ended stream then
        latest_ended streams'
          (match latest with
           | None => Some stream
           | Some l => if (modify_ts l <? modify_ts stream)%Z then Some stream else latest
           end)
      else latest_ended streams' latest
  end.

Definition check_streams (streams : list SynchronizerStream.t) : result BlockSynchronizerError unit :=
  match latest_ended streams None with
  | None => Ok tt
  | Some None => Ok tt
  | Some (Some stream) => Err (NoReadySynchronizers (Some (extractor_id stream)))
  end.

(** [max_by_key(|b| b.number)]: the last of the highest. *)
Definition max_by_number (l : list BlockHeader.t) : option BlockHeader.t :=
  foldl (fun best b =>
    match best with
    | Some m => if (BlockHeader.number m <=? BlockHeader.number b)%Z then Some b else best
    | None => Some b
    end) None l.

Definition current_headers (streams : list SynchronizerStream.t) : list BlockHeader.t :=
  omap get_current_header streams.

Section feed.
Context {C : Type} `{!LruCache C Bytes BlockHeader.t}.
Context (from_std : Z → option Z) (show_error : SynchronizerError → string).

(** The state of a stream relative to the new latest block. *)
Definition reclassify (latest : BlockHeader.t) (stream : SynchronizerStream.t) : SynchronizerStream.t :=
  match get_current_header stream with
  | Some header =>
      if (BlockHeader.number header <? BlockHeader.number latest)%Z
      then set_state (SynchronizerState.Delayed header) stream
      else if (BlockHeader.number header =? BlockHeader.number latest)%Z
      then set_state (SynchronizerState.Ready header) stream
      else stream
  | None => stream
  end.

Definition reinit_block_history (streams : list SynchronizerStream.t) (block_history : BlockHistory.t C) :
    result BlockSynchronizerError (BlockHistory.t C * list SynchronizerStream.t) :=
  _ ← map_err HistoryError (ok_or (BlockHistory.latest block_history) EmptyHistory);
  let blocks := BlockHistory.blocks block_history ++ current_headers streams in
  new_block_history ← map_err HistoryError (BlockHistory.new blocks BLOCK_HISTORY_SIZE);
  latest ← map_err HistoryError (ok_or (BlockHistory.latest new_block_history) EmptyHistory);
  Ok (new_block_history, reclassify latest <$> streams).

(** ** One round *)

(** The future of one stream: its result, and the stream it leaves. *)
Definition advance_stream (self : t) (block_history : BlockHistory.t C) (any_advanced : bool)
    (inbox : Inbox) (clock : Clock) (stream : SynchronizerStream.t) :
    result BlockSynchronizerError (option (string * StateSyncMessage.t BlockHeader.t)) *
    SynchronizerStream.t :=
  match mul_f64 (block_time self) (f64_of_Z (max_missed_blocks self)) with
  | Ok stale_threshold =>
      let '(res, stream) :=
        try_advance from_std show_error block_history (block_time self) (latency_buffer self)
          stale_threshold any_advanced inbox clock stream in
      (option_map (fun msg => (ExtractorIdentity.name (extractor_id stream), msg)) <$> res, stream)
  | Err e => (Err e, stream)
  | Panic => (Panic, stream)
  end.

(** All futures run to their end; streams that have ended are left out. *)
Definition advance_all (self : t) (block_history : BlockHistory.t C) (any_advanced : bool)
    (inbox : ExtractorIdentity.t → Inbox) (clock : ExtractorIdentity.t → Clock)
    (streams : list SynchronizerStream.t) :
    list (result BlockSynchronizerError (option (string * StateSyncMessage.t BlockHeader.t))) *
    list SynchronizerStream.t :=
  let advanced :=
    (fun stream =>
       if has_ended stream then (Ok None, stream)
       else advance_stream self block_history any_advanced (inbox (extractor_id stream))
              (clock (extractor_id stream)) stream) <$> streams in
  (advanced.*1, advanced.*2).

(** The streams, the messages to emit and the history. *)
Record FeedState := mk_feed {
  sync_streams : list SynchronizerStream.t;
  ready_sync_msgs : gmap string (StateSyncMessage.t BlockHeader.t);
  block_history : BlockHistory.t C
}.

Definition handle_next_message (self : t) (inbox : ExtractorIdentity.t → Inbox)
    (clock : ExtractorIdentity.t → Clock) : stm FeedState BlockSynchronizerError unit := fun st =>
  let any_advanced := existsb is_advanced (sync_streams st) in
  let '(results, streams) :=
    advance_all self (block_history st) any_advanced inbox clock (sync_streams st) in
  let st := mk_feed streams (ready_sync_msgs st) (block_history st) in
  match mapM id results with
  | Err e => (Err e, st)
  | Panic => (Panic, st)
  | Ok msgs =>
      let ready := foldl (fun m o => match o with Some (k, v) => <[k := v]> m | None => m end)
                     (ready_sync_msgs st) msgs in
      let st := mk_feed streams ready (block_history st) in
      match check_streams streams with
      | Err e => (Err e, st)
      | Panic => (Panic, st)
      | Ok _ =>
          if existsb is_advanced streams then
            match reinit_block_history streams (block_history st) with
            | Ok (history, streams) => (Ok tt, mk_feed streams ready history)
            | Err e => (Err e, st)
            | Panic => (Panic, st)
            end
          else
            match max_by_number (current_headers streams) with
            | Some header =>
                let '(r, history) := BlockHistory.push header (block_history st) in
                (map_err HistoryError r, mk_feed streams ready history)
            | None => (Ok tt, st)
            end
      end
  end.

(** ** Startup *)

(** The first receive of a stream. *)
Definition start_stream (res : Recv) (now : Z) (stream : SynchronizerStream.t) :
    SynchronizerStream.t * option (StateSyncMessage.t BlockHeader.t) :=
  match res with
  | Msg msg => (mark_ready (StateSyncMessage.header msg) now stream, Some msg)
  | Errored e => (mark_errored show_error e now stream, None)
  | RxClosed => (mark_closed now stream, None)
  | TimedOut => (mark_stale default_header now stream, None)
  end.

Definition delay_behind (start_header : BlockHeader.t) (stream : SynchronizerStream.t) :
    SynchronizerStream.t :=
  match state stream with
  | SynchronizerState.Ready header =>
      if (BlockHeader.number header <? BlockHeader.number start_header)%Z
      then set_state (SynchronizerState.Delayed header) stream else stream
  | _ => stream
  end.

(** [run] from the started streams to the main loop.  The set that removes duplicate headers
    is iterated in the order of their last occurrence. *)
Definition startup (inbox : ExtractorIdentity.t → Recv) (clock : ExtractorIdentity.t → Z)
    (streams : list SynchronizerStream.t) : result BlockSynchronizerError FeedState :=
  let started := (fun stream => start_stream (inbox (extractor_id stream)) (clock (extractor_id stream)) stream)
                   <$> streams in
  let streams := started.*1 in
  let ready := foldl (fun m sm => match sm.2 with
                                  | Some msg => <[ExtractorIdentity.name (extractor_id sm.1) := msg]> m
                                  | None => m
                                  end) ∅ started in
  let initial_headers := remove_dups (omap (fun sm => option_map StateSyncMessage.header sm.2) started) in
  _ ← require_active_stream streams;
  history ← map_err HistoryError (BlockHistory.new initial_headers BLOCK_HISTORY_SIZE);
  start_header ← map_err HistoryError (ok_or (BlockHistory.latest history) EmptyHistory);
  Ok (mk_feed (delay_behind start_header <$> streams) ready history).

(** The message of a round: what was received and the states of all streams. *)
Definition emit (st : FeedState) : FeedMessage.t :=
  FeedMessage.mk (ready_sync_msgs st)
    (foldl (fun m stream => <[ExtractorIdentity.name (extractor_id stream) := state stream]> m) ∅
       (sync_streams st)).

(** One turn of the main loop: the message that is sent and, unless the limit of messages is
    reached, the next state or the error that ends the stream. *)
Definition turn (self : t) (n_iter : nat) (inbox : ExtractorIdentity.t → Inbox)
    (clock : ExtractorIdentity.t → Clock) (st : FeedState) :
    FeedMessage.t * option (result BlockSynchronizerError unit * FeedState) :=
  (emit st,
   if match max_messages self with Some max => max <=? n_iter | None => false end then None
   else Some (handle_next_message self inbox clock (mk_feed (sync_streams st) ∅ (block_history st)))).

End feed.
Arguments FeedState : clear implicits.
End BlockSynchronizer.
