(* ===== verification/FeedSpec.v ===== *)
(** Theorems on the alignment of streams: after every round no stream is ahead of the common
    history, all ready streams are at its height, streams that follow the chain advance in
    lock step, late streams catch up, and the feed ends exactly when nothing can recover. *)

From Stdlib Require Import SpecFloat Strings.Byte.
From S2P Require Import Prelude Collections Bytes Models Blockchain BlockHistory BlockHistorySpec ClientRpc ComponentTracker Synchronizer Feed.
Import SynchronizerStream BlockSynchronizer.

Open Scope tycho_scope.

Section feed.
Context {C : Type} `{!LruCache C Bytes BlockHeader.t}.
Context (from_std : Z → option Z) (show_error : SynchronizerError → string).

(** * Streams keep their identity *)

Lemma check_stale_id th now fb s :
  extractor_id (check_and_transition_to_stale_if_needed from_std th now fb s).2 = extractor_id s.
Proof.
  unfold check_and_transition_to_stale_if_needed. destruct (from_std th); [|done]. by case_if.
Qed.

(** What [transition] makes of a stream. *)
Lemma transition_cases b (hist : BlockHistory.t C) th clock s r s' :
  transition from_std b hist th clock s = (r, s') →
  extractor_id s' = extractor_id s ∧ error s' = error s ∧
  (r = Ok tt →
   match BlockHistory.determine_block_position b hist with
   | Ok NextExpected | Ok NextPartial => state s' = SynchronizerState.Ready b
   | Ok Latest | Ok Delayed =>
       state s' = SynchronizerState.Delayed b ∨ ∃ h, state s' = SynchronizerState.Stale h
   | Ok Advanced => state s' = SynchronizerState.Advanced b
   | _ => False
   end).
Proof.
  unfold transition, st_bind, check_and_transition_to_stale_if_needed.
  destruct (BlockHistory.determine_block_position b hist) as [[]| |].
  3, 4: destruct (from_std th) as [x|]; [destruct (x <? at_check clock - modify_ts s)%Z|].
  all: intros [= <- <-]; split; [done|]; split; [done|]; intros [=]; simpl; eauto.
Qed.

(** Ended streams are left as they are. *)
Lemma advance_all_ended self (hist : BlockHistory.t C) adv inbox clock streams i s :
  streams !! i = Some s → has_ended s = true →
  (advance_all from_std show_error self hist adv inbox clock streams).2 !! i = Some s.
Proof.
  intros Hi He. unfold advance_all. simpl.
  rewrite !list_lookup_fmap, Hi. simpl. by rewrite He.
Qed.

(** * A chain without reverts and partial blocks *)

(** The headers streams may deliver: full blocks, numbered along their parents. *)
Record plain_chain (U : BlockHeader.t → Prop) : Prop := {
  chain_full : ∀ b, U b → BlockHeader.revert b = false ∧ BlockHeader.partial_block_index b = None;
  chain_parent : ∀ a b, U a → U b → BlockHeader.hash a = BlockHeader.parent_hash b →
    BlockHeader.number b = (BlockHeader.number a + 1)%Z;
  chain_hash : ∀ a b, U a → U b → BlockHeader.hash a = BlockHeader.hash b →
    BlockHeader.number a = BlockHeader.number b
}.

(** The history holds such headers and remembers no revert. *)
Definition plain_history (U : BlockHeader.t → Prop) (hist : BlockHistory.t C) : Prop :=
  Forall U (BlockHistory.history hist) ∧ (∀ k, lru_contains k (BlockHistory.reverts hist) = false) ∧
  BlockHistory.size hist = BLOCK_HISTORY_SIZE.

Lemma position_cases U (hist : BlockHistory.t C) L b :
  plain_chain U → plain_history U hist → BlockHistory.latest hist = Some L → U b →
  match BlockHistory.determine_block_position b hist with
  | Ok NextExpected => BlockHeader.parent_hash b = BlockHeader.hash L
  | Ok NextPartial => False
  | Ok Latest | Ok Delayed => (BlockHeader.number b ≤ BlockHeader.number L)%Z
  | Ok Advanced => (BlockHeader.number L < BlockHeader.number b)%Z
  | Err _ => True
  | Panic => False
  end.
Proof.
  intros HU (Hh & Hrev & _) HL Hb. destruct (chain_full U HU b Hb) as [Hr Hp].
  assert (U L) as HUL by (apply last_Some_elem_of in HL; by eapply Forall_forall in Hh).
  unfold BlockHistory.determine_block_position. rewrite HL. cbn [ok_or mbind result_bind].
  unfold BlockHeader.is_partial. rewrite Hr, Hp, Hrev.
  assert (bool_decide (is_Some (None : option Z)) = false) as -> by (apply bool_decide_false; by intros []).
  case_decide as Hpar; [done|]. rewrite andb_false_r, andb_true_r.
  destruct (bool_decide (BlockHeader.hash b = BlockHeader.hash L)) eqn:Eh.
  { apply bool_decide_eq_true in Eh. rewrite (chain_hash U HU b L Hb HUL Eh). lia. }
  destruct (Z.leb_spec (BlockHeader.number b) (BlockHeader.number L)) as [Hle|Hgt]; [|done].
  destruct (BlockHistory.oldest hist) as [o|]; simpl; [|done]. repeat case_if; simpl; done.
Qed.

(** * One stream in a round *)

(** The stream before the round, relative to the latest block. *)
Definition aligned (U : BlockHeader.t → Prop) (L : BlockHeader.t) (s : SynchronizerStream.t) : Prop :=
  match state s with
  | SynchronizerState.Ready h => U h ∧ BlockHeader.number h = BlockHeader.number L
  | SynchronizerState.Delayed h => U h ∧ (BlockHeader.number h ≤ BlockHeader.number L)%Z
  | SynchronizerState.Advanced _ => False
  | _ => True
  end.

(** The stream after it has advanced. *)
Definition placed (U : BlockHeader.t → Prop) (L : BlockHeader.t) (s : SynchronizerStream.t) : Prop :=
  match state s with
  | SynchronizerState.Ready h => U h ∧ BlockHeader.parent_hash h = BlockHeader.hash L
  | SynchronizerState.Delayed h => U h ∧ (BlockHeader.number h ≤ BlockHeader.number L)%Z
  | SynchronizerState.Advanced h => U h
  | _ => True
  end.

(** The messages of a receiver have headers of the chain. *)
Definition delivers (U : BlockHeader.t → Prop) (inbox : Inbox) : Prop :=
  (∀ w m, recv inbox w = Msg m → U (StateSyncMessage.header m)) ∧
  (∀ w m, Msg m ∈ drain inbox w → U (StateSyncMessage.header m)).

Section round.
Context (U : BlockHeader.t → Prop) (HU : plain_chain U).
Context (hist : BlockHistory.t C) (L : BlockHeader.t).
Context (Hhist : plain_history U hist) (HL : BlockHistory.latest hist = Some L).

Lemma transition_placed b th clock s s' :
  U b → transition from_std b hist th clock s = (Ok tt, s') → placed U L s'.
Proof.
  intros Hb Ht. apply transition_cases in Ht as (_ & _ & Ht). specialize (Ht eq_refl).
  pose proof (position_cases U hist L b HU Hhist HL Hb) as Hp. unfold placed.
  destruct (BlockHistory.determine_block_position b hist) as [[]| |]; try done.
  - by rewrite Ht.
  - destruct Ht as [->|[h ->]]; done.
  - destruct Ht as [->|[h ->]]; done.
  - by rewrite Ht.
Qed.

Lemma collect_sub events acc results :
  collect hist events acc = Collected results →
  ∀ m, m ∈ results → m ∈ acc ∨ Msg m ∈ events.
Proof.
  revert acc; induction events as [|ev events IH]; intros acc; simpl.
  { intros [= <-]. auto. }
  destruct ev as [msg| | |]; try done; [|by intros [= <-]; auto].
  assert (∀ m, m ∈ acc ++ [msg] → m ∈ acc ∨ Msg m ∈ Msg msg :: events) as Hsnoc.
  { intros m [?| ->%list_elem_of_singleton]%elem_of_app; [by left|right; left]. }
  destruct (BlockHistory.determine_block_position _ hist) as [[]| |]; try done.
  1, 2: by intros [= <-].
  all: intros Hc m [Hm|Hm]%(IH _ Hc); [by apply Hsnoc|right; by right].
Qed.

Lemma merge_all_header results msg (P : BlockHeader.t → Prop) :
  merge_all results = Some msg → (∀ m, m ∈ results → P (StateSyncMessage.header m)) →
  P (StateSyncMessage.header msg).
Proof.
  destruct results as [|m ms]; [done|]. intros [= <-] HP. revert m HP.
  induction ms as [|m' ms IH]; intros m HP; simpl; [apply HP; left|].
  apply IH. intros x [->|Hx]%elem_of_cons; [apply (HP m'); right; left|apply HP; by do 2 right].
Qed.

Lemma try_advance_placed bt lb th skip inbox clock s r s' :
  aligned U L s → delivers U inbox →
  try_advance from_std show_error hist bt lb th skip inbox clock s = (Ok r, s') → placed U L s'.
Proof.
  intros Hs [Hrecv Hdrain]. unfold try_advance.
  assert (∀ w, try_catch_up from_std show_error hist w th inbox clock s = (Ok r, s') →
    (∀ h, state s = SynchronizerState.Ready h → False) → placed U L s') as Hcatch.
  { intros w. unfold try_catch_up.
    destruct (collect hist (drain inbox w) []) as [results|e| | |] eqn:Ec; intros Ht Hnr; try done.
    - destruct (merge_all results) as [msg|] eqn:Em.
      + unfold st_bind in Ht.
        destruct (transition from_std _ hist th clock s) as [[[]| |] s1] eqn:Et; try done.
        injection Ht as _ <-. eapply transition_placed; [|exact Et].
        eapply merge_all_header; [exact Em|]. intros m Hm.
        destruct (collect_sub _ _ _ Ec m Hm) as [Hn|Hev]; [set_solver|by eapply Hdrain].
      + unfold st_bind, check_and_transition_to_stale_if_needed in Ht.
        destruct (from_std th) as [x|]; [|done]. case_if; injection Ht as _ <-; [done|].
        unfold placed. unfold aligned in Hs. destruct (state s); try done. by destruct (Hnr header).
    - by injection Ht as _ <-.
    - injection Ht as _ <-. unfold mark_closed, has_ended.
      destruct (state s) eqn:E; try done. unfold placed. by rewrite E. }
  destruct (state s) as [|h|h|h|h|reason] eqn:E; intros Ht; unfold aligned in Hs; rewrite E in Hs.
  - injection Ht as _ <-. unfold placed. by rewrite E.
  - destruct (duration_add bt lb) as [w| |]; [|done|done].
    unfold try_recv_next_expected in Ht. destruct (recv inbox w) as [msg|e| |] eqn:Er.
    + unfold st_bind in Ht.
      destruct (transition from_std _ hist th clock s) as [[[]| |] s1] eqn:Et; try done.
      injection Ht as _ <-. eapply transition_placed; [|exact Et]. by eapply Hrecv.
    + by injection Ht as _ <-.
    + injection Ht as _ <-. unfold mark_closed, has_ended. by rewrite E.
    + injection Ht as _ <-. simpl. destruct Hs as [Hh Hn]. split; [done|lia].
  - destruct (if skip then _ else _) as [w| |]; [|done|done]. eapply Hcatch; [exact Ht|congruence].
  - eapply Hcatch; [exact Ht|congruence].
  - done.
  - injection Ht as _ <-. unfold placed. by rewrite E.
Qed.

End round.

(** * A round *)

Lemma advance_all_ok self (hist : BlockHistory.t C) adv inbox clock streams msgs (P Q : SynchronizerStream.t → Prop) :
  mapM id (advance_all from_std show_error self hist adv inbox clock streams).1 = Ok msgs →
  (∀ s, s ∈ streams → P s) →
  (∀ s, P s → has_ended s = true → Q s) →
  (∀ s th r s', P s →
     try_advance from_std show_error hist (block_time self) (latency_buffer self) th adv
       (inbox (extractor_id s)) (clock (extractor_id s)) s = (Ok r, s') → Q s') →
  Forall Q (advance_all from_std show_error self hist adv inbox clock streams).2.
Proof.
  intros Hm HP Hend Hadv. apply mapM_ok in Hm. unfold advance_all in *. simpl in *.
  apply Forall_fmap, Forall_fmap, Forall_forall. intros s Hs. simpl.
  rewrite !Forall2_fmap_l in Hm. apply list_elem_of_lookup in Hs as [k Hk].
  destruct (Forall2_lookup_l _ _ _ _ _ Hm Hk) as (b & _ & Hb). simpl in Hb.
  assert (P s) as HPs by (apply HP; by eapply list_elem_of_lookup_2).
  destruct (has_ended s) eqn:He; simpl; [by apply Hend|]. unfold advance_stream in *.
  destruct (mul_f64 _ _) as [th| |]; [|done|done].
  destruct (try_advance _ _ _ _ _ _ _ _ _ s) as [r s'] eqn:Et. simpl in *.
  destruct r; [|done|done]. by eapply Hadv.
Qed.

Lemma max_by_number_spec l :
  match max_by_number l with
  | Some h => h ∈ l ∧ ∀ x, x ∈ l → (BlockHeader.number x ≤ BlockHeader.number h)%Z
  | None => l = []
  end.
Proof.
  unfold max_by_number. set (step := fun best b => _).
  assert (∀ k o, match foldl step o k with
    | Some h => (o = Some h ∨ h ∈ k) ∧ (∀ m, o = Some m → BlockHeader.number m ≤ BlockHeader.number h)%Z ∧
        ∀ x, x ∈ k → (BlockHeader.number x ≤ BlockHeader.number h)%Z
    | None => o = None ∧ k = []
    end) as Hgen.
  { induction k as [|b k IH]; intros o; simpl; [destruct o; [|done]; split_and!; [by left|by intros m [= <-]|set_solver]|].
    specialize (IH (step o b)). destruct (foldl step (step o b) k) as [h|].
    - destruct IH as (Hin & Hm & Hk). unfold step in *. destruct o as [m|].
      + destruct (Z.leb_spec (BlockHeader.number m) (BlockHeader.number b)).
        * pose proof (Hm b eq_refl). split_and!.
          -- right. destruct Hin as [[= ->]|]; [left|by right].
          -- intros ? [= <-]. lia.
          -- intros x [->|Hx]%elem_of_cons; [done|by apply Hk].
        * pose proof (Hm m eq_refl). split_and!.
          -- destruct Hin as [|]; [by left|right; by right].
          -- intros ? [= <-]. lia.
          -- intros x [->|Hx]%elem_of_cons; [lia|by apply Hk].
      + pose proof (Hm b eq_refl). split_and!; [|done|].
        * right. destruct Hin as [[= ->]|]; [left|by right].
        * intros x [->|Hx]%elem_of_cons; [done|by apply Hk].
    - destruct IH as [IH _]. unfold step in IH. destruct o as [m|]; [by destruct (_ <=? _)%Z|done]. }
  specialize (Hgen l None). destruct (foldl step None l); [|by destruct Hgen].
  destruct Hgen as ([|] & _ & Hk); [done|]. done.
Qed.

Lemma elem_of_current_headers streams h :
  h ∈ current_headers streams ↔ ∃ s, s ∈ streams ∧ get_current_header s = Some h.
Proof. apply list_elem_of_omap. Qed.

(** Streams before and after the round, with the history they refer to. *)
Definition in_step (U : BlockHeader.t → Prop) (st : FeedState C) : Prop :=
  ∃ L, BlockHistory.latest (block_history st) = Some L ∧ plain_history U (block_history st) ∧
    Forall (aligned U L) (sync_streams st).

Lemma new_history_plain U blocks (hist : BlockHistory.t C) :
  BlockHistory.new blocks BLOCK_HISTORY_SIZE = Ok hist → Forall U blocks → plain_history U hist.
Proof.
  unfold BlockHistory.new. case_decide; [done|]. intros [= <-] HU. split_and!; simpl; [|..|done].
  - destruct (decide (blocks = [])) as [->|Hne]; [done|].
    destruct (connected_chain_spec blocks Hne) as (_ & Hin & _). eapply Forall_impl; [exact Hin|].
    intros b Hb. by eapply Forall_forall in HU.
  - intros k. rewrite lru_contains_keys, lru_new_keys. apply bool_decide_false. set_solver.
Qed.

Lemma new_history_max blocks (hist : BlockHistory.t C) L :
  BlockHistory.new blocks BLOCK_HISTORY_SIZE = Ok hist → BlockHistory.latest hist = Some L →
  L ∈ blocks ∧ ∀ b, b ∈ blocks → (BlockHeader.number b ≤ BlockHeader.number L)%Z.
Proof.
  unfold BlockHistory.new. case_decide; [done|]. intros [= <-] HL. unfold BlockHistory.latest in HL. simpl in HL.
  destruct (decide (blocks = [])) as [->|Hne]; [done|].
  destruct (connected_chain_spec blocks Hne) as (_ & Hin & tip & root & Htip & _ & Hmax & _).
  rewrite Htip in HL. injection HL as <-. rewrite Forall_forall in Hmax, Hin. split; [|done].
  apply Hin. by apply last_Some_elem_of in Htip.
Qed.

(** Reclassified streams are never ahead. *)
Lemma reclassify_not_ahead L s :
  (∀ h, get_current_header s = Some h → (BlockHeader.number h ≤ BlockHeader.number L)%Z) →
  match state (reclassify L s) with
  | SynchronizerState.Ready h => get_current_header s = Some h ∧ BlockHeader.number h = BlockHeader.number L
  | SynchronizerState.Delayed h => get_current_header s = Some h ∧ (BlockHeader.number h < BlockHeader.number L)%Z
  | SynchronizerState.Advanced _ => False
  | x => x = state s
  end.
Proof.
  intros Hle. unfold reclassify. destruct (get_current_header s) as [h|] eqn:E.
  - specialize (Hle h eq_refl). destruct (Z.ltb_spec (BlockHeader.number h) (BlockHeader.number L)); [done|].
    destruct (Z.eqb_spec (BlockHeader.number h) (BlockHeader.number L)); [done|lia].
  - unfold get_current_header in E. destruct (state s); done.
Qed.

Lemma reinit_spec streams (hist hist' : BlockHistory.t C) streams' :
  reinit_block_history streams hist = Ok (hist', streams') →
  ∃ L, BlockHistory.new (BlockHistory.history hist ++ current_headers streams) BLOCK_HISTORY_SIZE = Ok hist' ∧
    BlockHistory.latest hist' = Some L ∧ streams' = (reclassify L <$> streams).
Proof.
  unfold reinit_block_history. intros Hr.
  destruct (map_err HistoryError (ok_or (BlockHistory.latest hist) EmptyHistory));
    cbn [mbind result_bind] in Hr; try done.
  destruct (BlockHistory.new _ _) as [h1| |] eqn:En; cbn [map_err mbind result_bind] in Hr; try done.
  destruct (BlockHistory.latest h1) as [L|] eqn:EL; cbn [ok_or map_err mbind result_bind] in Hr; try done.
  injection Hr as <- <-. by exists L.
Qed.

Lemma reinit_in_step U streams (hist hist' : BlockHistory.t C) ready streams' :
  plain_history U hist → (∀ h, h ∈ current_headers streams → U h) →
  reinit_block_history streams hist = Ok (hist', streams') →
  in_step U (mk_feed streams' ready hist').
Proof.
  intros (Hh & _) Hs (L & En & EL & ->)%reinit_spec.
  exists L. split_and!; [done| |].
  - eapply new_history_plain; [exact En|]. apply Forall_app. split; [done|]. by apply Forall_forall.
  - simpl. apply Forall_fmap, Forall_forall. intros s Hin. unfold aligned. simpl.
    destruct (new_history_max _ _ L En EL) as [_ Hmax].
    assert (∀ h, get_current_header s = Some h → h ∈ current_headers streams) as Hcur.
    { intros h Hc. apply elem_of_current_headers. by exists s. }
    pose proof (reclassify_not_ahead L s (fun h Hc => Hmax h ltac:(apply elem_of_app; right; by apply Hcur))) as Hrec.
    destruct (state (reclassify L s)); try done.
    + destruct Hrec as [Hc Hn]. split; [by apply Hs, Hcur|done].
    + destruct Hrec as [Hc Hn]. split; [by apply Hs, Hcur|lia].
Qed.

(** Pushing the highest header: the next block is appended, an older one changes nothing. *)
Lemma push_next U (hist : BlockHistory.t C) L h :
  plain_chain U → plain_history U hist → BlockHistory.latest hist = Some L → U h →
  BlockHeader.parent_hash h = BlockHeader.hash L →
  ∃ hist', BlockHistory.push h hist = (Ok tt, hist') ∧ plain_history U hist' ∧
    BlockHistory.latest hist' = Some h.
Proof.
  intros HU (Hh & Hrev & Hsz) HL Hb Hpar. destruct (chain_full U HU h Hb) as [Hr _].
  assert (BlockHistory.determine_block_position h hist = Ok NextExpected) as Hpos.
  { unfold BlockHistory.determine_block_position. rewrite HL. simpl. by rewrite decide_True. }
  assert (∃ hist', BlockHistory.push h hist = (Ok tt, hist') ∧ plain_history U hist') as (hist' & Hpush & Hh').
  { unfold BlockHistory.push. rewrite Hpos, Hr. unfold st_bind, st_ret, BlockHistory.push_latest.
    rewrite HL, bool_decide_true by done. eexists. split; [done|]. split_and!; cbn -[length]; [|done|done].
    assert (Forall U (BlockHistory.history hist ++ [h])) as Ha by (apply Forall_app; by split; [|constructor]).
    case_if; [|done]. destruct (BlockHistory.history hist ++ [h]); [done|]. by inversion Ha. }
  exists hist'. split_and!; [done..|]. apply (push_accepted_latest h hist hist' Hpush).
  - rewrite Hsz. unfold BLOCK_HISTORY_SIZE. lia.
  - rewrite Hpos. left.
Qed.

Lemma push_old U (hist hist' : BlockHistory.t C) L h :
  plain_chain U → plain_history U hist → BlockHistory.latest hist = Some L → U h →
  (BlockHeader.number h ≤ BlockHeader.number L)%Z →
  BlockHistory.push h hist = (Ok tt, hist') → hist' = hist.
Proof.
  intros HU Hh HL Hb Hle. pose proof (position_cases U hist L h HU Hh HL Hb) as Hp.
  destruct (chain_full U HU h Hb) as [Hr _].
  assert (U L) as HUL by (destruct Hh as [Hh _]; apply last_Some_elem_of in HL; by eapply Forall_forall in Hh).
  unfold BlockHistory.push. destruct (BlockHistory.determine_block_position h hist) as [[]| |]; try done.
  - pose proof (chain_parent U HU L h HUL Hb (eq_sym Hp)). lia.
  - rewrite Hr. by intros [= <-].
  - by intros [= <-].
  - lia.
Qed.

Lemma placed_header U L s h : placed U L s → get_current_header s = Some h → U h.
Proof. unfold placed, get_current_header. destruct (state s); try done; intros [H ?] || intros H; by intros [= <-]. Qed.

(** Streams that have advanced, none of them ahead. *)
Definition arrived_at (U : BlockHeader.t → Prop) (L : BlockHeader.t) (s : SynchronizerStream.t) : Prop :=
  match state s with
  | SynchronizerState.Ready h =>
      U h ∧ BlockHeader.parent_hash h = BlockHeader.hash L ∧ BlockHeader.number h = (BlockHeader.number L + 1)%Z
  | SynchronizerState.Delayed h => U h ∧ (BlockHeader.number h ≤ BlockHeader.number L)%Z
  | SynchronizerState.Advanced _ => False
  | _ => True
  end.

Lemma placed_arrived U (HU : plain_chain U) L s :
  U L → placed U L s → is_advanced s = false → arrived_at U L s.
Proof.
  intros HUL Hp Ha. unfold placed, arrived_at, is_advanced in *. destruct (state s) as [|h|h|h|h|]; try done.
  destruct Hp as [Hb Hpar]. split_and!; [done..|]. by apply (chain_parent U HU L h HUL Hb).
Qed.

(** The highest header, pushed, leaves the streams in step. *)
Lemma push_max_in_step U (hist hist' : BlockHistory.t C) L streams ready h :
  plain_chain U → plain_history U hist → BlockHistory.latest hist = Some L → U L →
  Forall (arrived_at U L) streams → max_by_number (current_headers streams) = Some h →
  BlockHistory.push h hist = (Ok tt, hist') → in_step U (mk_feed streams ready hist').
Proof.
  intros HU Hh HL HUL Hs Hm Hpush. pose proof (max_by_number_spec (current_headers streams)) as Hmax.
  rewrite Hm in Hmax. destruct Hmax as [(s0 & Hs0 & Hc0)%elem_of_current_headers Hmax].
  rewrite Forall_forall in Hs.
  assert (∀ s x, s ∈ streams → get_current_header s = Some x → (BlockHeader.number x ≤ BlockHeader.number h)%Z) as Hle.
  { intros s x Hin Hx. apply Hmax, elem_of_current_headers. by exists s. }
  pose proof (Hs s0 Hs0) as H0. unfold arrived_at in H0. unfold get_current_header in Hc0.
  destruct (state s0) as [|h0|h0|h0|h0|] eqn:E0; try done; injection Hc0 as ->.
  - destruct H0 as (Hb & Hpar & Hn). destruct (push_next U hist L h HU Hh HL Hb Hpar) as (h1 & Hp1 & Hh1 & HL1).
    rewrite Hpush in Hp1. injection Hp1 as <-. exists h. split_and!; [done..|]. apply Forall_forall.
    intros s Hin. specialize (Hs s Hin). unfold arrived_at, aligned in *. simpl.
    destruct (state s); try done; destruct Hs as (? & Hrest); (split; [done|]); lia.
  - destruct H0 as (Hb & Hn). rewrite (push_old U hist hist' L h HU Hh HL Hb Hn Hpush).
    exists L. split_and!; [done..|]. apply Forall_forall. intros s Hin. specialize (Hs s Hin). simpl in Hin.
    unfold arrived_at, aligned in *. destruct (state s) as [|x|x|x|x|] eqn:E; try done.
    destruct Hs as (_ & _ & Hx). assert (get_current_header s = Some x) as Hcx by (unfold get_current_header; by rewrite E).
    pose proof (Hle s x Hin Hcx). lia.
Qed.

(** Without a header nobody is active. *)
Lemma no_header_in_step U (hist : BlockHistory.t C) L streams ready :
  plain_history U hist → BlockHistory.latest hist = Some L →
  Forall (arrived_at U L) streams → current_headers streams = [] → in_step U (mk_feed streams ready hist).
Proof.
  intros Hh HL Hs Hn. exists L. split_and!; [done..|]. apply Forall_forall. intros s Hin. simpl in Hin.
  rewrite Forall_forall in Hs. specialize (Hs s Hin).
  assert (∀ h, get_current_header s = Some h → False) as Hno.
  { intros h Hc. assert (h ∈ current_headers streams) as Hx by (apply elem_of_current_headers; by exists s).
    rewrite Hn in Hx. set_solver. }
  unfold get_current_header in Hno. unfold arrived_at, aligned in *.
  destruct (state s); try done; by destruct (Hno header).
Qed.

Lemma none_advanced streams s : existsb is_advanced streams = false → s ∈ streams → is_advanced s = false.
Proof.
  intros He Hin. apply not_true_iff_false. intros Ha. apply not_true_iff_false in He. apply He.
  apply existsb_exists. exists s. split; [by apply list_elem_of_In|done].
Qed.

(** A round that succeeds keeps the streams in step. *)
Lemma handle_in_step U self inbox clock (st st' : FeedState C) :
  plain_chain U → (∀ e, delivers U (inbox e)) → in_step U st →
  handle_next_message from_std show_error self inbox clock st = (Ok tt, st') → in_step U st'.
Proof.
  intros HU Hdel (L & HL & Hh & Hs) Hn. unfold handle_next_message in Hn.
  set (adv := existsb is_advanced (sync_streams st)) in Hn.
  pose proof (fun msgs Hm => advance_all_ok self (block_history st) adv inbox clock (sync_streams st) msgs
    (aligned U L) (placed U L) Hm (proj1 (Forall_forall _ _) Hs)) as Hadv.
  destruct (advance_all _ _ self (block_history st) adv inbox clock (sync_streams st)) as [results streams].
  cbn [fst snd block_history ready_sync_msgs] in *.
  destruct (mapM id results) as [msgs| |] eqn:Em; [|done|done].
  assert (Forall (placed U L) streams) as Hp.
  { apply (Hadv msgs); [done| |].
    - unfold placed, has_ended. intros s _. by destruct (state s).
    - intros s th r s' Hal Ht. by eapply try_advance_placed. }
  assert (U L) as HUL by (destruct Hh as [Hh _]; apply last_Some_elem_of in HL; by eapply Forall_forall in Hh).
  rewrite Forall_forall in Hp.
  destruct (check_streams streams); [|done|done]. destruct (existsb is_advanced streams) eqn:Eadv.
  { destruct (reinit_block_history streams (block_history st)) as [[hist' streams']| |] eqn:Er; [|done|done].
    injection Hn as <-. eapply reinit_in_step; [done| |exact Er].
    intros h (s & Hin & Hc)%elem_of_current_headers. by eapply placed_header; [apply Hp|]. }
  assert (Forall (arrived_at U L) streams) as Harr.
  { apply Forall_forall. intros s Hin. apply placed_arrived; [done..|by apply Hp|by eapply none_advanced]. }
  pose proof (max_by_number_spec (current_headers streams)) as Hmax.
  destruct (max_by_number (current_headers streams)) as [h|] eqn:Eh.
  - destruct (BlockHistory.push h (block_history st)) as [[[]| |] hist'] eqn:Epush; try done.
    injection Hn as <-. by eapply push_max_in_step.
  - injection Hn as <-. by eapply no_header_in_step.
Qed.

(** * Startup *)

Definition fresh (s : SynchronizerStream.t) : Prop := state s = SynchronizerState.Started.

Lemma delay_behind_state L s :
  state (delay_behind L s) =
    match state s with
    | SynchronizerState.Ready h =>
        if (BlockHeader.number h <? BlockHeader.number L)%Z then SynchronizerState.Delayed h
        else SynchronizerState.Ready h
    | x => x
    end.
Proof. unfold delay_behind. destruct (state s) as [|h|h|h|h|] eqn:E; try done. by case_if. Qed.

Lemma start_stream_state res now s :
  fresh s →
  match res with
  | Msg m => state (start_stream show_error res now s).1 = SynchronizerState.Ready (StateSyncMessage.header m)
  | Errored e => state (start_stream show_error res now s).1 = SynchronizerState.Ended (show_error e)
  | RxClosed => state (start_stream show_error res now s).1 = SynchronizerState.Ended "Closed"
  | TimedOut => state (start_stream show_error res now s).1 = SynchronizerState.Stale default_header
  end.
Proof.
  intros Hs. destruct res; try done. simpl. unfold mark_closed, has_ended. by rewrite Hs.
Qed.

Lemma startup_in_step U inbox clock streams (st : FeedState C) :
  (∀ s, s ∈ streams → fresh s) →
  (∀ e m, inbox e = Msg m → U (StateSyncMessage.header m)) →
  startup show_error inbox clock streams = Ok st → in_step U st.
Proof.
  intros Hfresh Hin Hst. unfold startup in Hst.
  set (started := _ <$> streams) in Hst. set (headers := remove_dups _) in Hst.
  destruct (require_active_stream started.*1); cbn [mbind result_bind] in Hst; try done.
  destruct (BlockHistory.new headers _) as [hist| |] eqn:En; cbn [map_err mbind result_bind] in Hst; try done.
  destruct (BlockHistory.latest hist) as [L|] eqn:EL; cbn [ok_or map_err mbind result_bind] in Hst; try done.
  injection Hst as <-. destruct (new_history_max _ _ L En EL) as [_ Hmax].
  assert (∀ s h, s ∈ streams → inbox (extractor_id s) = Msg h → StateSyncMessage.header h ∈ headers) as Hhead.
  { intros s h Hs Hm. unfold headers. apply elem_of_remove_dups, list_elem_of_omap.
    exists (start_stream show_error (inbox (extractor_id s)) (clock (extractor_id s)) s).
    split; [|by rewrite Hm]. unfold started. apply list_elem_of_fmap. by exists s. }
  exists L. split_and!; [done| |].
  - eapply new_history_plain; [exact En|]. apply Forall_forall. intros h Hh. unfold headers in Hh.
    apply elem_of_remove_dups, list_elem_of_omap in Hh as (x & (s & -> & Hs)%list_elem_of_fmap & Hx).
    unfold start_stream in Hx. destruct (inbox (extractor_id s)) as [m| | |] eqn:Em; try done.
    injection Hx as <-. by eapply Hin.
  - simpl. unfold started. rewrite <-!list_fmap_compose. apply Forall_fmap, Forall_forall. intros s Hs. simpl.
    unfold aligned. rewrite delay_behind_state.
    pose proof (start_stream_state (inbox (extractor_id s)) (clock (extractor_id s)) s (Hfresh s Hs)) as Hstate.
    destruct (inbox (extractor_id s)) as [m| | |] eqn:Em; rewrite Hstate; try done.
    pose proof (Hmax _ (Hhead s m Hs Em)).
    destruct (Z.ltb_spec (BlockHeader.number (StateSyncMessage.header m)) (BlockHeader.number L));
      (split; [by eapply Hin|lia]).
Qed.

(** * Runs of the feed *)

Inductive feed_run (U : BlockHeader.t → Prop) (self : t) : FeedState C → Prop :=
| feed_started inbox clock streams st :
    (∀ s, s ∈ streams → fresh s) → (∀ e m, inbox e = Msg m → U (StateSyncMessage.header m)) →
    startup show_error inbox clock streams = Ok st → feed_run U self st
| feed_turn n_iter inbox clock st st' :
    feed_run U self st → (∀ e, delivers U (inbox e)) →
    (turn from_std show_error self n_iter inbox clock st).2 = Some (Ok tt, st') → feed_run U self st'.

Lemma turn_handled self n_iter inbox clock (st : FeedState C) x :
  (turn from_std show_error self n_iter inbox clock st).2 = Some x →
  handle_next_message from_std show_error self inbox clock (mk_feed (sync_streams st) ∅ (block_history st)) = x.
Proof. unfold turn. simpl. by destruct (match max_messages self with Some _ => _ | None => _ end); intros [= ->]. Qed.

Lemma handle_none_ahead self inbox clock (st st' : FeedState C) :
  handle_next_message from_std show_error self inbox clock st = (Ok tt, st') →
  ∀ s, s ∈ sync_streams st' → is_advanced s = false.
Proof.
  unfold handle_next_message.
  destruct (advance_all _ _ _ _ _ _ _ _) as [results streams]. cbn [block_history ready_sync_msgs].
  destruct (mapM id results); [|done|done]. destruct (check_streams streams); [|done|done].
  destruct (existsb is_advanced streams) eqn:Eadv.
  - destruct (reinit_block_history streams (block_history st)) as [[hist' streams']| |] eqn:Er; [|done|done].
    intros [= <-] s Hs. simpl in Hs. apply reinit_spec in Er as (L & En & EL & ->).
    apply list_elem_of_fmap in Hs as (s0 & -> & Hs0).
    destruct (new_history_max _ _ L En EL) as [_ Hmax].
    assert (∀ h, get_current_header s0 = Some h → (BlockHeader.number h ≤ BlockHeader.number L)%Z) as Hle.
    { intros h Hc. apply Hmax, elem_of_app. right. apply elem_of_current_headers. by exists s0. }
    pose proof (reclassify_not_ahead L s0 Hle) as Hr. unfold is_advanced. by destruct (state (reclassify L s0)).
  - destruct (max_by_number (current_headers streams)) as [h|].
    + destruct (BlockHistory.push h (block_history st)) as [[[]| |] hist']; try done.
      intros [= <-] s Hs. by eapply none_advanced.
    + intros [= <-] s Hs. by eapply none_advanced.
Qed.

Lemma feed_run_in_step U self (st : FeedState C) : plain_chain U → feed_run U self st → in_step U st.
Proof.
  intros HU. induction 1 as [inbox clock streams st Hf Hin Hst|n_iter inbox clock st st' _ IH Hdel Ht].
  - by eapply startup_in_step.
  - apply turn_handled in Ht. eapply handle_in_step; [done|exact Hdel| |exact Ht].
    destruct IH as (L & HL & Hh & Hs). by exists L.
Qed.

(** * Theorems *)

(** Before every round no stream is ahead of the common history: the flag that skips waiting
    is never set. *)
Theorem no_stream_ahead U self (st : FeedState C) :
  feed_run U self st → existsb is_advanced (sync_streams st) = false.
Proof.
  intros Hr. apply not_true_iff_false. intros (s & Hs%list_elem_of_In & Ha)%existsb_exists.
  destruct Hr as [inbox clock streams st Hf _ Hst|n_iter inbox clock st st' _ _ Ht].
  - pose proof (startup_in_step (fun _ => True) inbox clock streams st Hf (fun _ _ _ => I) Hst) as (L & _ & _ & Hal).
    rewrite Forall_forall in Hal. specialize (Hal s Hs). unfold aligned, is_advanced in *. by destruct (state s).
  - apply turn_handled in Ht. by rewrite (handle_none_ahead _ _ _ _ _ Ht s Hs) in Ha.
Qed.

(** C11. On a chain without reverts and partial blocks, in every state the feed reaches all ready
    streams are at the height of the latest block of the history and delayed ones are not
    above it. *)
Theorem ready_streams_aligned U self (st : FeedState C) :
  plain_chain U → feed_run U self st →
  ∃ L, BlockHistory.latest (block_history st) = Some L ∧
    (∀ s h, s ∈ sync_streams st → state s = SynchronizerState.Ready h →
       BlockHeader.number h = BlockHeader.number L) ∧
    (∀ s h, s ∈ sync_streams st → state s = SynchronizerState.Delayed h →
       (BlockHeader.number h ≤ BlockHeader.number L)%Z).
Proof.
  intros HU Hr. destruct (feed_run_in_step U self st HU Hr) as (L & HL & _ & Hs).
  rewrite Forall_forall in Hs. exists L. split_and!; [done|..]; intros s h Hin Hst;
    specialize (Hs s Hin); unfold aligned in Hs; rewrite Hst in Hs; apply Hs.
Qed.

(** The stream that has received the next message. *)
Definition moved_to (msg : ExtractorIdentity.t → StateSyncMessage.t BlockHeader.t)
    (clock : ExtractorIdentity.t → Clock) (s : SynchronizerStream.t) : SynchronizerStream.t :=
  set_modify_ts (at_end (clock (extractor_id s)))
    (set_state (SynchronizerState.Ready (StateSyncMessage.header (msg (extractor_id s)))) s).

Lemma transition_next b (hist : BlockHistory.t C) L th clock s :
  BlockHistory.latest hist = Some L → BlockHeader.parent_hash b = BlockHeader.hash L →
  transition from_std b hist th clock s =
    (Ok tt, set_modify_ts (at_end clock) (set_state (SynchronizerState.Ready b) s)).
Proof.
  intros HL Hp. unfold transition, BlockHistory.determine_block_position. rewrite HL. simpl.
  by rewrite decide_True.
Qed.

(** All futures of a round in which every stream delivers the next block. *)
Lemma advance_all_next self (hist : BlockHistory.t C) L inbox clock streams th w msg :
  BlockHistory.latest hist = Some L →
  mul_f64 (E := BlockSynchronizerError) (block_time self) (f64_of_Z (max_missed_blocks self)) = Ok th →
  duration_add (E := BlockSynchronizerError) (block_time self) (latency_buffer self) = Ok w →
  (∀ s, s ∈ streams → ∃ h, state s = SynchronizerState.Ready h) →
  (∀ e, recv (inbox e) w = Msg (msg e) ∧
        BlockHeader.parent_hash (StateSyncMessage.header (msg e)) = BlockHeader.hash L) →
  advance_all from_std show_error self hist false inbox clock streams =
    ((fun s => Ok (Some (ExtractorIdentity.name (extractor_id s), msg (extractor_id s)))) <$> streams,
     moved_to msg clock <$> streams).
Proof.
  intros HL Hth Hw Hs Hm. unfold advance_all. rewrite <-!list_fmap_compose. f_equal; apply list_fmap_ext;
    intros i s Hi; destruct (Hs s) as [h Hh]; try (by eapply list_elem_of_lookup_2); simpl;
    destruct (Hm (extractor_id s)) as [Hr Hp];
    (replace (has_ended s) with false by (unfold has_ended; by rewrite Hh));
    unfold advance_stream; rewrite Hth; unfold try_advance; rewrite Hh, Hw;
    unfold try_recv_next_expected; rewrite Hr; unfold st_bind;
    rewrite (transition_next _ _ L) by done; done.
Qed.

Lemma mapM_all_ok {A B} (f : A → B) (l : list A) :
  mapM id ((fun a => Ok (f a)) <$> l : list (result BlockSynchronizerError B)) = Ok (f <$> l).
Proof. apply mapM_ok, Forall2_fmap_l, Forall2_fmap_r, Forall_Forall2_diag, Forall_forall. done. Qed.

(** The messages collected over the streams, under their names. *)
Lemma collected_message (entry : SynchronizerStream.t → string * StateSyncMessage.t BlockHeader.t) l
    (m : gmap string (StateSyncMessage.t BlockHeader.t)) k v :
  (∀ x, x ∈ l → (entry x).1 = k → (entry x).2 = v) →
  m !! k = Some v ∨ (∃ x, x ∈ l ∧ (entry x).1 = k) →
  foldl (fun m o => match o with Some (k, v) => <[k := v]> m | None => m end) m
    ((fun s => Some (entry s)) <$> l) !! k = Some v.
Proof.
  revert m; induction l as [|y l IH]; intros m Hv Hk; simpl; [destruct Hk as [|(? & ? & _)]; [done|set_solver]|].
  apply IH; [intros x Hx; apply Hv; by right|].
  specialize (Hv y ltac:(left)) as Hy. destruct (entry y) as [k' v'] eqn:E. simpl in Hy.
  destruct (decide (k' = k)) as [->|Hn]; [left; by rewrite lookup_insert_eq, Hy|].
  rewrite lookup_insert_ne by done. destruct Hk as [|(x & [->|Hx]%elem_of_cons & Hk)]; [by left| |right; by exists x].
  by rewrite E in Hk.
Qed.

Lemma not_collected (entry : SynchronizerStream.t → string * StateSyncMessage.t BlockHeader.t) l
    (m : gmap string (StateSyncMessage.t BlockHeader.t)) k :
  (∀ x, x ∈ l → (entry x).1 ≠ k) →
  foldl (fun m o => match o with Some (k, v) => <[k := v]> m | None => m end) m
    ((fun s => Some (entry s)) <$> l) !! k = m !! k.
Proof.
  revert m; induction l as [|y l IH]; intros m Hk; [done|]. simpl. rewrite IH by (intros x Hx; apply Hk; by right).
  specialize (Hk y ltac:(left)). destruct (entry y) as [k' v]. by rewrite lookup_insert_ne.
Qed.

(** C13. On a chain without reverts and partial blocks, in a state where the streams are aligned
    with the history: when all streams are ready and each delivers, within the time the round
    waits, a block of the chain that is a child of the latest block, the round succeeds, every
    stream is ready at the block it delivered, and the history has moved on to one of these blocks.
    The next message of the feed has under the name of every stream exactly the message that
    stream delivered, and nothing new under other names. *)
Theorem lock_step_progress U self inbox clock (st : FeedState C) L th w msg :
  plain_chain U → in_step U st → BlockHistory.latest (block_history st) = Some L →
  mul_f64 (E := BlockSynchronizerError) (block_time self) (f64_of_Z (max_missed_blocks self)) = Ok th →
  duration_add (E := BlockSynchronizerError) (block_time self) (latency_buffer self) = Ok w →
  sync_streams st ≠ [] →
  (∀ s, s ∈ sync_streams st → ∃ h, state s = SynchronizerState.Ready h) →
  (∀ e, recv (inbox e) w = Msg (msg e) ∧ U (StateSyncMessage.header (msg e)) ∧
        BlockHeader.parent_hash (StateSyncMessage.header (msg e)) = BlockHeader.hash L) →
  ∃ st' L', handle_next_message from_std show_error self inbox clock st = (Ok tt, st') ∧
    sync_streams st' = (moved_to msg clock <$> sync_streams st) ∧
    BlockHistory.latest (block_history st') = Some L' ∧
    BlockHeader.parent_hash L' = BlockHeader.hash L ∧
    (∃ s, s ∈ sync_streams st ∧ L' = StateSyncMessage.header (msg (extractor_id s))) ∧
    (∀ s, s ∈ sync_streams st →
       (∀ s', s' ∈ sync_streams st → ExtractorIdentity.name (extractor_id s') = ExtractorIdentity.name (extractor_id s) →
              extractor_id s' = extractor_id s) →
       FeedMessage.state_msgs (emit st') !! ExtractorIdentity.name (extractor_id s) = Some (msg (extractor_id s))) ∧
    (∀ k, (∀ s, s ∈ sync_streams st → ExtractorIdentity.name (extractor_id s) ≠ k) →
       FeedMessage.state_msgs (emit st') !! k = ready_sync_msgs st !! k).
Proof.
  intros HU (L0 & HL0 & Hh & _) HL Hth Hw Hne Hs Hm. rewrite HL in HL0. injection HL0 as <-.
  unfold handle_next_message.
  assert (existsb is_advanced (sync_streams st) = false) as ->.
  { apply not_true_iff_false. intros (s & Hs0%list_elem_of_In & Ha)%existsb_exists.
    destruct (Hs s Hs0) as [h Hst]. unfold is_advanced in Ha. by rewrite Hst in Ha. }
  rewrite (advance_all_next self (block_history st) L inbox clock (sync_streams st) th w msg) by (done || naive_solver).
  set (entry s := (ExtractorIdentity.name (extractor_id s), msg (extractor_id s))).
  rewrite (mapM_all_ok (fun s => Some (entry s))). cbn [block_history ready_sync_msgs].
  set (streams' := moved_to msg clock <$> sync_streams st).
  assert (check_streams streams' = Ok tt) as ->.
  { unfold streams'. by destruct (sync_streams st) as [|s l]. }
  assert (existsb is_advanced streams' = false) as ->.
  { apply not_true_iff_false. intros (x & Hx%list_elem_of_In & Ha)%existsb_exists.
    by apply list_elem_of_fmap in Hx as (s & -> & _). }
  pose proof (max_by_number_spec (current_headers streams')) as Hmax.
  destruct (max_by_number (current_headers streams')) as [h|]; last first.
  { unfold streams' in Hmax. by destruct (sync_streams st) as [|s l]. }
  destruct Hmax as [(x & (s & -> & Hin)%list_elem_of_fmap & Hx)%elem_of_current_headers _].
  simpl in Hx. injection Hx as <-. destruct (Hm (extractor_id s)) as (_ & Hb & Hp).
  destruct (push_next U _ L _ HU Hh HL Hb Hp) as (hist' & -> & _ & HL').
  eexists _, _. split; [done|]. split_and!; [done|exact HL'|done|by exists s| |].
  - intros s' Hin' Huniq. simpl. apply (collected_message entry); [|right; by exists s'].
    intros x Hx Hn. simpl in *. by rewrite (Huniq x).
  - intros k Hk. simpl. by apply (not_collected entry).
Qed.

(** C33. A late stream whose queue leads to the next block recovers: all its messages up to that
    block are merged into one and it is ready. *)
Theorem catch_up_recovers (hist : BlockHistory.t C) L s w th inbox clock ms m rest :
  BlockHistory.latest hist = Some L →
  drain inbox w = (Msg <$> ms) ++ Msg m :: rest →
  (∀ x, x ∈ ms → ∃ pos, BlockHistory.determine_block_position (StateSyncMessage.header x) hist = Ok pos ∧
     pos ≠ NextExpected ∧ pos ≠ NextPartial) →
  BlockHeader.parent_hash (StateSyncMessage.header m) = BlockHeader.hash L →
  try_catch_up from_std show_error hist w th inbox clock s =
    (Ok (merge_all (ms ++ [m])),
     set_modify_ts (at_end clock) (set_state (SynchronizerState.Ready (StateSyncMessage.header m)) s)).
Proof.
  intros HL Hd Hms Hm. unfold try_catch_up. rewrite Hd.
  assert (BlockHistory.determine_block_position (StateSyncMessage.header m) hist = Ok NextExpected) as Hpos.
  { unfold BlockHistory.determine_block_position. rewrite HL. simpl. by rewrite decide_True. }
  assert (∀ acc, collect hist ((Msg <$> ms) ++ Msg m :: rest) acc = Collected (acc ++ ms ++ [m])) as Hc.
  { clear Hd. induction ms as [|x ms IH]; intros acc; simpl; [by rewrite Hpos|].
    destruct (Hms x ltac:(left)) as (pos & -> & Hn1 & Hn2).
    assert (∀ acc, collect hist ((Msg <$> ms) ++ Msg m :: rest) acc = Collected (acc ++ ms ++ [m])) as IH'
      by (apply IH; intros; apply Hms; by right).
    destruct pos; try done; rewrite IH'; by rewrite <-app_assoc. }
  rewrite Hc. simpl app.
  assert (∃ msg, merge_all (ms ++ [m]) = Some msg ∧ StateSyncMessage.header msg = StateSyncMessage.header m)
    as (msg & Hmsg & Hhead).
  { destruct ms as [|x ms]; [by eexists|].
    exists (foldl StateSyncMessage.merge x (ms ++ [m])). split; [done|]. by rewrite foldl_app. }
  rewrite Hmsg. unfold st_bind, st_ret. rewrite (transition_next _ hist L) by congruence. by rewrite Hhead.
Qed.

(** A stream is active unless it is stale or has ended. *)
Definition active (s : SynchronizerStream.t) : bool := negb (has_ended s) && negb (is_stale s).

Lemma latest_ended_spec streams latest :
  match latest_ended streams latest with
  | None => ∃ s, s ∈ streams ∧ active s = true
  | Some o =>
      (∀ s, s ∈ streams → active s = false) ∧
      (∀ l, o = Some l → latest = Some l ∨ l ∈ streams ∧ has_ended l = true) ∧
      (∀ s, latest = Some s ∨ s ∈ streams ∧ has_ended s = true →
         ∃ l, o = Some l ∧ (modify_ts s ≤ modify_ts l)%Z)
  end.
Proof.
  revert latest; induction streams as [|s streams IH]; intros latest; simpl.
  { split_and!; [set_solver|by left|]. intros s [->|[Hs _]]; [eexists; split; [done|lia]|set_solver]. }
  fold (active s). destruct (active s) eqn:Ha; [exists s; split; [left|done]|].
  destruct (has_ended s) eqn:He.
  - match goal with |- context [latest_ended streams ?x] => set (latest' := x); specialize (IH x) end.
    fold latest' in IH.
    assert (∃ l, latest' = Some l ∧ (modify_ts s ≤ modify_ts l)%Z ∧ (latest = Some l ∨ l = s) ∧
      (∀ x, latest = Some x → (modify_ts x ≤ modify_ts l)%Z)) as (l0 & El0 & Hs0 & Hor & Hx0).
    { unfold latest'. destruct latest as [l|]; [|exists s; split_and!; [done|lia|by right|done]].
      destruct (Z.ltb_spec (modify_ts l) (modify_ts s)).
      - exists s. split_and!; [done|lia|by right|]. intros x [= <-]. lia.
      - exists l. split_and!; [done|lia|by left|]. intros x [= <-]. lia. }
    destruct (latest_ended streams latest') as [o|]; last first.
    { destruct IH as (x & Hx & Hax). exists x. split; [by right|done]. }
    destruct IH as (I1 & I2 & I3). split_and!.
    + intros x [->|Hx]%elem_of_cons; [done|by apply I1].
    + intros l [Hl|[Hl Hel]]%I2; [|right; split; [by right|done]].
      rewrite El0 in Hl. injection Hl as <-. destruct Hor as [| ->]; [by left|right; split; [left|done]].
    + intros x Hx. destruct (I3 l0 ltac:(by left)) as (l & Hl & Hle).
      destruct Hx as [Hx|[[->|Hx]%elem_of_cons Hex]]; [..|by apply I3; right];
        exists l; (split; [done|]); [specialize (Hx0 x Hx)|]; lia.
  - specialize (IH latest). destruct (latest_ended streams latest) as [o|]; last first.
    { destruct IH as (x & Hx & Hax). exists x. split; [by right|done]. }
    destruct IH as (I1 & I2 & I3). split_and!.
    + intros x [->|Hx]%elem_of_cons; [done|by apply I1].
    + intros l [Hl|[Hl Hel]]%I2; [by left|right; split; [by right|done]].
    + intros x [Hx|[[->|Hx]%elem_of_cons Hex]]; [apply I3; by left|congruence|apply I3; by right].
Qed.

(** The feed is ended by its check exactly when no stream is active and one has ended, and
    names the one that ended last. *)
Theorem feed_ends_exactly streams :
  (check_streams streams = Ok tt ∧
   ((∃ s, s ∈ streams ∧ active s = true) ∨ ∀ s, s ∈ streams → has_ended s = false)) ∨
  (∃ l, check_streams streams = Err (NoReadySynchronizers (Some (extractor_id l))) ∧
     l ∈ streams ∧ has_ended l = true ∧
     (∀ s, s ∈ streams → active s = false) ∧
     (∀ s, s ∈ streams → has_ended s = true → (modify_ts s ≤ modify_ts l)%Z)).
Proof.
  unfold check_streams. pose proof (latest_ended_spec streams None) as Hl.
  destruct (latest_ended streams None) as [[l|]|]; [right|left|left].
  - destruct Hl as (H1 & H2 & H3). destruct (H2 l eq_refl) as [|[Hin He]]; [done|].
    exists l. split_and!; [done..|]. intros s Hs Hes. destruct (H3 s ltac:(by right)) as (x & [= <-] & Hle). done.
  - split; [done|]. right. intros s Hs. destruct Hl as (_ & _ & H3).
    destruct (has_ended s) eqn:He; [|done]. by destruct (H3 s ltac:(by right)) as (x & ? & _).
  - split; [done|]. by left.
Qed.

End feed.

(** * Witnesses and examples *)

Section witnesses.
Import HistoryExamples.

Definition millis (d : Z) : option Z := Some d.
Definition text (_ : SynchronizerError) : string := "error".
Definition config : t := mk (12 * NANOS) NANOS (120 * NANOS) None 10.

Example stale_after_ten_blocks :
  mul_f64 (E := BlockSynchronizerError) (block_time config) (f64_of_Z (max_missed_blocks config)) = Ok (120 * NANOS)%Z.
Proof. vm_compute. reflexivity. Qed.

Definition id_a : ExtractorIdentity.t := ExtractorIdentity.mk Ethereum "a".
Definition id_b : ExtractorIdentity.t := ExtractorIdentity.mk Ethereum "b".
Definition carries (h : BlockHeader.t) : StateSyncMessage.t BlockHeader.t :=
  StateSyncMessage.mk h Snapshot.default_ None ∅.
Definition noon (_ : ExtractorIdentity.t) : Clock := mk_clock 0 0.

(** Streams [a] and [b] start at blocks 2 and 1. *)
Definition first_recv (e : ExtractorIdentity.t) : Recv :=
  Msg (carries (if decide (e = id_a) then h2 else h1)).
Definition two_streams : list SynchronizerStream.t :=
  [SynchronizerStream.new id_a 0; SynchronizerStream.new id_b 0].
Definition blocks123 (b : BlockHeader.t) : Prop := b ∈ [h1; h2; h3].

Definition feed0 : FeedState (nat * list Bytes) :=
  mk_feed [SynchronizerStream.mk id_a (SynchronizerState.Ready h2) None 0;
           SynchronizerStream.mk id_b (SynchronizerState.Delayed h1) None 0]
    {["a" := carries h2; "b" := carries h1]} (BlockHistory.mk [h1; h2] (150, []) 15).

Lemma blocks123_plain : plain_chain blocks123.
Proof.
  unfold blocks123. split.
  - intros b Hb. repeat (apply elem_of_cons in Hb as [->|Hb]; [done|]). by apply elem_of_nil in Hb.
  - intros a b Ha Hb Hl.
    repeat (apply elem_of_cons in Ha as [->|Ha];
      [repeat (apply elem_of_cons in Hb as [->|Hb]; [done|]); by apply elem_of_nil in Hb|]).
    by apply elem_of_nil in Ha.
  - intros a b Ha Hb Hl.
    repeat (apply elem_of_cons in Ha as [->|Ha];
      [repeat (apply elem_of_cons in Hb as [->|Hb]; [done|]); by apply elem_of_nil in Hb|]).
    by apply elem_of_nil in Ha.
Qed.

Lemma feed0_run : feed_run millis text blocks123 config feed0.
Proof.
  apply (feed_started _ _ _ _ first_recv (fun _ => 0%Z) two_streams).
  - intros s Hs. repeat (apply elem_of_cons in Hs as [->|Hs]; [done|]). by apply elem_of_nil in Hs.
  - intros e m [= <-]. unfold blocks123. simpl. case_decide; [right; left|left].
  - vm_compute. reflexivity.
Qed.

Lemma no_stream_ahead_witness : existsb is_advanced (sync_streams feed0) = false.
Proof. exact (no_stream_ahead millis text blocks123 config feed0 feed0_run). Defined.

Lemma ready_streams_aligned_witness : ∃ L, BlockHistory.latest (block_history feed0) = Some L ∧
  (∀ s h, s ∈ sync_streams feed0 → state s = SynchronizerState.Ready h →
     BlockHeader.number h = BlockHeader.number L) ∧
  (∀ s h, s ∈ sync_streams feed0 → state s = SynchronizerState.Delayed h →
     (BlockHeader.number h ≤ BlockHeader.number L)%Z).
Proof. exact (ready_streams_aligned millis text blocks123 config feed0 blocks123_plain feed0_run). Defined.

(** Both streams are ready at block 2 and deliver block 3. *)
Definition feed2 : FeedState (nat * list Bytes) :=
  mk_feed [SynchronizerStream.mk id_a (SynchronizerState.Ready h2) None 0;
           SynchronizerStream.mk id_b (SynchronizerState.Ready h2) None 0] ∅
    (BlockHistory.mk [h1; h2] (150, []) 15).
Definition block3 (_ : ExtractorIdentity.t) : Inbox :=
  mk_inbox (fun _ => Msg (carries h3)) (fun _ => [Msg (carries h3)]).

Lemma lock_step_progress_witness : ∃ st',
  handle_next_message millis text config block3 noon feed2 = (Ok tt, st') ∧
  FeedMessage.state_msgs (emit st') !! "a" = Some (carries h3) ∧ FeedMessage.state_msgs (emit st') !! "b" = Some (carries h3).
Proof.
  destruct (lock_step_progress millis text blocks123 config block3 noon feed2 h2 (120 * NANOS) (13 * NANOS)
           (fun _ => carries h3)) as (st' & L' & H1 & _ & _ & _ & _ & H2 & _).
  - exact blocks123_plain.
  - exists h2. split_and!; [reflexivity| |].
    + split_and!; [|done|done]. unfold blocks123. repeat constructor; set_solver.
    + repeat constructor; unfold aligned, blocks123; simpl; (split; [set_solver|lia]).
  - reflexivity.
  - exact stale_after_ten_blocks.
  - vm_compute. reflexivity.
  - discriminate.
  - intros s Hs. repeat (apply elem_of_cons in Hs as [->|Hs]; [by eexists|]). by apply elem_of_nil in Hs.
  - intros e. split_and!; [done| |done]. unfold blocks123. set_solver.
  - exists st'. split_and!; [done| |].
    + apply (H2 (SynchronizerStream.mk id_a (SynchronizerState.Ready h2) None 0)); [left|].
      intros s' Hs. repeat (apply elem_of_cons in Hs as [->|Hs]; [done|]). destruct (proj1 (elem_of_nil _) Hs).
    + apply (H2 (SynchronizerStream.mk id_b (SynchronizerState.Ready h2) None 0)); [right; left|].
      intros s' Hs. repeat (apply elem_of_cons in Hs as [->|Hs]; [done|]). destruct (proj1 (elem_of_nil _) Hs).
Defined.

(** A stream delayed at block 1 drains blocks 2 and 3 with the history at block 2. *)
Definition behind : SynchronizerStream.t := SynchronizerStream.mk id_b (SynchronizerState.Delayed h1) None 0.
Definition backlog : Inbox := mk_inbox (fun _ => TimedOut) (fun _ => [Msg (carries h2); Msg (carries h3)]).

Lemma catch_up_recovers_witness :
  try_catch_up millis text (block_history feed2) NANOS NANOS backlog (mk_clock 5 6) behind =
    (Ok (merge_all [carries h2; carries h3]),
     set_modify_ts 6 (set_state (SynchronizerState.Ready h3) behind)).
Proof.
  apply (catch_up_recovers millis text (block_history feed2) h2 behind NANOS NANOS backlog (mk_clock 5 6)
           [carries h2] (carries h3) []).
  - reflexivity.
  - reflexivity.
  - intros x ->%list_elem_of_singleton. exists Latest. split; [vm_compute; reflexivity|split; discriminate].
  - reflexivity.
Defined.

(** Block 3 is reverted.  Stream [a] says so, [b] is late and still at block 3: the higher
    block of [b] is pushed, the revert is not recorded, and [a] is classified as delayed when
    it goes on with the new block 3. *)
Definition h3' : BlockHeader.t := header 3 x33 x02 false.
Definition feed3 : FeedState (nat * list Bytes) :=
  mk_feed [SynchronizerStream.mk id_a (SynchronizerState.Ready h3) None 0;
           SynchronizerStream.mk id_b (SynchronizerState.Ready h3) None 0] ∅
    (BlockHistory.mk [h1; h2; h3] (150, []) 15).
Definition only_a (h : BlockHeader.t) (e : ExtractorIdentity.t) : Inbox :=
  if decide (e = id_a) then mk_inbox (fun _ => Msg (carries h)) (fun _ => [Msg (carries h)])
  else mk_inbox (fun _ => TimedOut) (fun _ => []).

Lemma revert_hidden_by_late_stream :
  let st1 := (handle_next_message millis text config (only_a fork3) noon feed3).2 in
  let st2 := (handle_next_message millis text config (only_a h3') noon st1).2 in
  BlockHistory.latest (block_history st1) = Some h3 ∧
  BlockHistory.latest (block_history st2) = Some h3 ∧
  (state <$> sync_streams st2) = [SynchronizerState.Delayed h3'; SynchronizerState.Delayed h3].
Proof. vm_compute. split_and!; reflexivity. Qed.

End witnesses.
