(* ===== verification/Versioning.v ===== *)
(** Versioned tables of the storage gateway: [tycho_storage::postgres::versioning], the rows of
    [orm.rs] that implement its traits, and what the gateway does with them
    ([protocol.rs], [contract.rs]).

    A table is the list of its rows; a query or an update is the SQL statement of the source
    run on that list.  A timestamp is its number of nanoseconds since 1970.  The columns
    [inserted_ts] and [modified_ts], which nothing here reads, are left out. *)

From Stdlib Require Import SpecFloat.
From S2P Require Import Prelude Collections Bytes Models Blockchain ReorgBuffer.

Open Scope tycho_scope.

(** [NaiveDateTime::MAX], +262142-12-31T23:59:59.999999999 *)
Definition MAX_TS : Z := 8210266876799999999999.
Definition MAX_VERSION_TS : Z := (MAX_TS - 10 ^ 9)%Z.

(** * Stable sorting by an ordinal ([sort_by_cached_key]) *)

Module WithOrdinal.
Record t (T O : Type) := mk { entity : T; ordinal : O }.
Arguments mk {T O}.
Arguments entity {T O}.
Arguments ordinal {T O}.
End WithOrdinal.

Section sort_by.
Context {A : Type} (le : A → A → bool).

Fixpoint insert_by (x : A) (l : list A) : list A :=
  match l with
  | [] => [x]
  | y :: l' => if le x y then x :: y :: l' else y :: insert_by x l'
  end.

Definition sort_by (l : list A) : list A := foldr insert_by [] l.
End sort_by.

(** Tuples compare from left to right. *)
Definition then_cmp (c : comparison) (rest : comparison) : comparison :=
  match c with Eq => rest | _ => c end.
Definition cmp_le (c : comparison) : bool := match c with Gt => false | _ => true end.

(** * The traits *)

Class VersionedRow (N EntityId : Type) := {
  get_entity_id : N → EntityId;
  set_valid_to : Z → N → N;
  row_valid_from : N → Z
}.

(** A row that is stored: [valid_to IS NULL] for the current version. *)
Class StoredVersionedRow (S EntityId : Type) := {
  get_pk : S → Z;
  stored_entity_id : S → EntityId;
  stored_valid_from : S → Z;
  stored_valid_to : S → option Z;
  close_version : Z → S → S
}.

Class PartitionedVersionedRow (N Id : Type) := {
  get_id : N → Id;
  get_valid_to : N → Z;
  get_valid_from : N → Z;
  (** the archived row and the next version *)
  archive : N → N → N * N;
  delete_at : Z → N → N;
  with_valid_to : Z → N → N
}.

Inductive VersioningEntry (N Id : Type) :=
| EUpdate (row : N)
| EDeletion (id : Id) (delete_version : Z).
Arguments EUpdate {N Id} row.
Arguments EDeletion {N Id} id delete_version.

Definition entry_id {N Id} `{!PartitionedVersionedRow N Id} (e : VersioningEntry N Id) : Id :=
  match e with EUpdate r => get_id r | EDeletion id _ => id end.

(** * Tables with a row per version ([apply_versioning]) *)

Section versioned.
Context {N S Id : Type} `{Countable Id}.
Context `{!VersionedRow N Id, !StoredVersionedRow S Id}.

(** The loop over neighbours: a row is closed by the next one of its entity, the first row of
    an entity closes what is stored. *)
Fixpoint close_neighbours (current : N) (tail : list N) (db_updates : gmap Id Z) :
    list N * gmap Id Z :=
  match tail with
  | [] => ([current], db_updates)
  | next :: tail' =>
      if decide (get_entity_id current = get_entity_id next) then
        let '(objects, db_updates) := close_neighbours next tail' db_updates in
        (set_valid_to (row_valid_from next) current :: objects, db_updates)
      else
        let '(objects, db_updates) :=
          close_neighbours next tail' (<[get_entity_id next := row_valid_from next]> db_updates) in
        (current :: objects, db_updates)
  end.

(** [objects[0]] unwinds for an empty slice. *)
Definition set_versioning_attributes {E} (objects : list N) : result E (list N * gmap Id Z) :=
  match objects with
  | [] => Panic
  | o :: os => Ok (close_neighbours o os {[get_entity_id o := row_valid_from o]})
  end.

(** [SELECT … INNER JOIN unnest(ids) … WHERE valid_to IS NULL] *)
Definition latest_versions_by_ids (ids : list Id) (table : list S) : list S :=
  ids ≫= fun id => base.filter (fun s => stored_entity_id s = id ∧ stored_valid_to s = None) table.

(** The pairs [m(id, valid_to)] that the query binds. *)
Definition build_batch_update_query {E} (objects : list S) (end_versions : gmap Id Z) :
    result E (list (Z * Z)) :=
  mapM (fun o => valid_to ← unwrap (end_versions !! stored_entity_id o); Ok (get_pk o, valid_to)) objects.

(** [UPDATE table AS t SET valid_to = m.valid_to FROM … WHERE t.id = m.id] *)
Definition run_batch_update (m : list (Z * Z)) (table : list S) : list S :=
  (fun t => match list_find (fun kv => kv.1 = get_pk t) m with
            | Some (_, (_, valid_to)) => close_version valid_to t
            | None => t
            end) <$> table.

Definition apply_versioning {E} (new_data : list N) (table : list S) : result E (list N * list S) :=
  match new_data with
  | [] => Ok (new_data, table)
  | _ =>
      let latest_db_versions : gmap Id Z :=
        foldl (fun m row => <[stored_entity_id row := stored_valid_from row]> m) ∅
          (latest_versions_by_ids (get_entity_id <$> new_data) table) in
      let new_data := base.filter (fun entry => is_true
        match latest_db_versions !! get_entity_id entry with
        | Some latest_version => negb (row_valid_from entry <=? latest_version)%Z
        | None => true
        end) new_data in
      match new_data with
      | [] => Ok (new_data, table)
      | _ =>
          '(new_data, end_versions) ← set_versioning_attributes new_data;
          let db_rows := latest_versions_by_ids (map_to_list end_versions).*1 table in
          match db_rows with
          | [] => Ok (new_data, table)
          | _ =>
              m ← build_batch_update_query db_rows end_versions;
              Ok (new_data, run_batch_update m table)
          end
      end
  end.
End versioned.

(** * Partitioned tables ([apply_partitioned_versioning]) *)

(** The current rows, which are unique, and the archived ones. *)
Module PartitionedTable.
Record t (N Id : Type) `{Countable Id} := mk {
  default_partition : gmap Id N;
  archived : list N
}.
Arguments mk {N Id _ _}.
Arguments default_partition {N Id _ _}.
Arguments archived {N Id _ _}.

Section table.
Context {N Id : Type} `{Countable Id} `{!PartitionedVersionedRow N Id}.

(** All rows, as a query on the partitioned table sees them. *)
Definition rows (table : t N Id) : list N := (map_to_list (default_partition table)).*2 ++ archived table.

(** [INSERT INTO table VALUES …] for rows with an end. *)
Definition insert_archive (to_archive : list N) (table : t N Id) : t N Id :=
  mk (default_partition table) (archived table ++ to_archive).

(** [INSERT INTO table_default VALUES … ON CONFLICT … DO UPDATE SET …], which sets every
    column but the end. *)
Definition upsert_row (m : gmap Id N) (row : N) : gmap Id N :=
  <[get_id row := match m !! get_id row with
                  | Some old => with_valid_to (get_valid_to old) row
                  | None => with_valid_to MAX_TS row
                  end]> m.
Definition upsert_latest (latest : list N) (table : t N Id) : t N Id :=
  mk (foldl upsert_row (default_partition table) latest) (archived table).

(** [DELETE FROM table_default WHERE …] *)
Definition delete_latest (to_delete : list Id) (table : t N Id) : t N Id :=
  mk (foldl (fun m id => delete id m) (default_partition table) to_delete) (archived table).

(** [SELECT … FROM table_default INNER JOIN unnest(ids) …] *)
Definition latest_versions_by_ids (ids : list Id) (table : t N Id) : list N :=
  omap (fun id => default_partition table !! id) ids.
End table.
End PartitionedTable.

Section partitioned.
Context {N Id : Type} `{Countable Id} `{!PartitionedVersionedRow N Id}.
Context (debug_id : Id → string).

(** The variables of the loop. *)
Record Versions := mk_versions {
  latest : gmap Id N;
  archived : list N;
  deleted : gset Id;
  to_skip : gset Id
}.

(** [latest_row.get_valid_from() >= version] for the row of the database. *)
Definition is_stale_entry (db_latest : gmap Id N) (id : Id) (version : Z) : bool :=
  match db_latest !! id with
  | Some latest_row => (version <=? get_valid_from latest_row)%Z
  | None => false
  end.

Definition version_entry (db_latest : gmap Id N) (v : Versions) (item : VersioningEntry N Id) :
    result StorageError Versions :=
  match item with
  | EUpdate row =>
      let id := get_id row in
      if is_stale_entry db_latest id (get_valid_from row)
      then Ok (mk_versions (latest v) (archived v) (deleted v) (to_skip v ∪ {[id]}))
      else
        let '(row, archived) :=
          match latest v !! id with
          | Some prev => let '(prev, row) := archive prev row in (row, archived v ++ [prev])
          | None => (row, archived v)
          end in
        Ok (mk_versions (<[id := row]> (latest v)) archived (deleted v ∖ {[id]}) (to_skip v))
  | EDeletion id delete_version =>
      if is_stale_entry db_latest id delete_version
      then Ok (mk_versions (latest v) (archived v) (deleted v) (to_skip v ∪ {[id]}))
      else
        delete_row ← ok_or (latest v !! id)
          (Unexpected (String.append "Missing deleted row with id " (debug_id id)));
        Ok (mk_versions (delete id (latest v)) (archived v ++ [delete_at delete_version delete_row])
              (deleted v ∪ {[id]}) (to_skip v))
  end.

Definition foldM {E A B} (f : B → A → result E B) (b : B) (l : list A) : result E B :=
  foldl (fun r a => b ← r; f b a) (Ok b) l.

Definition set_partitioned_versioning_attributes (current_latest_data : list N)
    (new_data : list (VersioningEntry N Id)) : result StorageError (list N * list N * list Id) :=
  let db_latest : gmap Id N := foldl (fun m row => <[get_id row := row]> m) ∅ current_latest_data in
  v ← foldM (version_entry db_latest) (mk_versions db_latest [] ∅ ∅) new_data;
  let latest := retain (fun id => negb (bool_decide (id ∈ to_skip v))) (latest v) in
  Ok ((map_to_list latest).*2, archived v, elements (deleted v)).

Definition apply_partitioned_versioning (new_data : list (VersioningEntry N Id))
    (retention_horizon : Z) (table : PartitionedTable.t N Id) :
    result StorageError (list N * list N * list Id) :=
  match new_data with
  | [] => Ok ([], [], [])
  | _ =>
      let current := PartitionedTable.latest_versions_by_ids (entry_id <$> new_data) table in
      '(latest, archive, deleted) ← set_partitioned_versioning_attributes current new_data;
      Ok (latest, base.filter (fun e => (retention_horizon < get_valid_to e)%Z) archive, deleted)
  end.

(** What the gateway does with the result: archive, upsert, delete. *)
Definition write_versions (new_data : list (VersioningEntry N Id)) (retention_horizon : Z)
    (table : PartitionedTable.t N Id) : result StorageError (PartitionedTable.t N Id) :=
  '(latest, to_archive, to_delete) ← apply_partitioned_versioning new_data retention_horizon table;
  Ok (PartitionedTable.delete_latest to_delete
        (PartitionedTable.upsert_latest latest (PartitionedTable.insert_archive to_archive table))).
End partitioned.
Arguments Versions N Id {_ _}.
