(* ===== verification/VersioningSpec.v ===== *)
(** What versioned tables promise: a table holds the history of every entity, so that the rows
    valid at a time are the last write up to that time. *)

From S2P Require Import Prelude Collections Bytes Models Blockchain ReorgBuffer Versioning.

(** * Sorting *)

Section sort_by.
Context {A : Type} (le : A → A → bool).

Lemma insert_by_perm x l : insert_by le x l ≡ₚ x :: l.
Proof.
  induction l as [|y l IH]; simpl; [done|]. destruct (le x y); [done|]. rewrite IH. apply perm_swap.
Qed.

Lemma sort_by_perm l : sort_by le l ≡ₚ l.
Proof. induction l as [|x l IH]; simpl; [done|]. by rewrite insert_by_perm, IH. Qed.

(** Elements that are in order stay in their order. *)
Lemma sort_by_stable (P : A → Prop) `{!∀ x, Decision (P x)} l :
  StronglySorted (fun a b => le a b = true) (filter P l) → filter P (sort_by le l) = filter P l.
Proof.
  assert (∀ x l, (P x → ∀ y, y ∈ l → P y → le x y = true) →
    filter P (insert_by le x l) = filter P (x :: l)) as Hins.
  { intros x l0. induction l0 as [|y l0 IH]; intros Hx; simpl; [done|]. destruct (le x y) eqn:E; [done|].
    rewrite (filter_cons P y (insert_by _ _ _)), IH by set_solver. rewrite !filter_cons.
    destruct (decide (P x)) as [Px|], (decide (P y)) as [Py|]; try done.
    rewrite (Hx Px y) in E; [done|left|done]. }
  induction l as [|x l IH]; simpl; intros Hs; [done|].
  rewrite Hins.
  - rewrite !filter_cons in *. destruct (decide (P x)); [|by apply IH].
    apply StronglySorted_inv in Hs as [Hs _]. by rewrite IH.
  - intros Px y Hy Py. rewrite filter_cons_True in Hs by done.
    apply StronglySorted_inv in Hs as [_ Hf]. rewrite Forall_forall in Hf. apply Hf.
    rewrite sort_by_perm in Hy. by apply list_elem_of_filter.
Qed.

Context (le_trans : ∀ a b c, le a b = true → le b c = true → le a c = true).
Context (le_total : ∀ a b, le a b = false → le b a = true).

Lemma sort_by_sorted l : StronglySorted (fun a b => le a b = true) (sort_by le l).
Proof.
  induction l as [|x l IH]; simpl; [constructor|]. revert IH. generalize (sort_by le l) as l0.
  induction l0 as [|y l0 IH]; intros Hs; simpl; [repeat constructor|].
  apply StronglySorted_inv in Hs as [Hs Hy]. destruct (le x y) eqn:E.
  - constructor; [by constructor|]. constructor; [done|]. rewrite Forall_forall in *. intros z Hz.
    by eapply le_trans; [|apply Hy].
  - constructor; [by apply IH|]. rewrite insert_by_perm. constructor; [by apply le_total|done].
Qed.
End sort_by.

Lemma sorted_filter {A B} (f : A → B) (R : B → B → Prop) (P : A → Prop) `{!∀ x, Decision (P x)} l :
  StronglySorted R (f <$> l) → StronglySorted R (f <$> filter P l).
Proof.
  induction l as [|x l IH]; intros Hs; [done|]. apply StronglySorted_inv in Hs as [Hs Hx].
  rewrite filter_cons. case_decide; [|by apply IH]. constructor; [by apply IH|].
  rewrite Forall_forall in *. intros y (z & -> & [_ Hz]%list_elem_of_filter)%list_elem_of_fmap.
  apply Hx. by apply list_elem_of_fmap_2.
Qed.

Lemma nodup_inj {A B} (f : A → B) (l : list A) x y : NoDup (f <$> l) → x ∈ l → y ∈ l → f x = f y → x = y.
Proof.
  intros Hn [i Hi]%list_elem_of_lookup [j Hj]%list_elem_of_lookup E. rewrite NoDup_alt in Hn.
  assert (i = j) as <-; [|congruence]. apply (Hn i j (f x)); rewrite list_lookup_fmap, ?Hi, ?Hj; simpl; congruence.
Qed.

Lemma nodup_filter {A B} (f : A → B) (P : A → Prop) `{!∀ x, Decision (P x)} (l : list A) :
  NoDup (f <$> l) → NoDup (f <$> filter P l).
Proof.
  induction l as [|x l IH]; intros Hn; [done|]. apply NoDup_cons in Hn as [Hx Hn].
  rewrite filter_cons. case_decide; [|by apply IH]. apply NoDup_cons. split; [|by apply IH].
  intros (y & E & [_ Hy]%list_elem_of_filter)%list_elem_of_fmap. apply Hx. rewrite E. by apply list_elem_of_fmap_2.
Qed.

(** A map that is collected from a list of pairs, when equal keys have equal values. *)
Lemma collect_lookup {A K V} `{Countable K} (key : A → K) (val : A → V) l k v :
  (∀ x y, x ∈ l → y ∈ l → key x = key y → val x = val y) →
  foldl (fun m x => <[key x := val x]> m) (∅ : gmap K V) l !! k = Some v ↔ ∃ x, x ∈ l ∧ key x = k ∧ val x = v.
Proof.
  induction l as [|y l IH] using rev_ind; intros Hf;
    [simpl; rewrite lookup_empty; split; [done|intros (x & Hx & _); set_solver]|].
  rewrite foldl_app. simpl. assert (∀ x, x ∈ l → x ∈ l ++ [y]) as Hin by set_solver.
  rewrite lookup_insert_Some, IH by (intros; apply Hf; auto). split.
  - intros [[<- <-]|[_ (x & Hx & ?)]]; [exists y; set_solver|exists x; auto].
  - intros (x & [Hx| ->%list_elem_of_singleton]%elem_of_app & <- & <-); [|by left].
    destruct (decide (key y = key x)) as [E|]; [left|right; eauto].
    split; [done|]. apply Hf; [set_solver|set_solver|done].
Qed.

Lemma deleted_lookup {K V} `{Countable K} (m : gmap K V) (ids : list K) id :
  foldl (fun m id => delete id m) m ids !! id = if decide (id ∈ ids) then None else m !! id.
Proof.
  revert m; induction ids as [|i ids IH]; intros m; simpl; [done|]. rewrite IH.
  destruct (decide (i = id)) as [->|]; [rewrite lookup_delete_eq|rewrite lookup_delete_ne by done];
    repeat case_decide; set_solver.
Qed.

(** * Rows and histories *)

(** What a row promises: archiving and deleting end it and nothing else, and the next version
    keeps its own columns. *)
Class PartitionedLaws (N Id V : Type) `{!PartitionedVersionedRow N Id} := {
  content : N → V;
  archive_ends (prev next : N) :
    get_id (archive prev next).1 = get_id prev ∧
    get_valid_from (archive prev next).1 = get_valid_from prev ∧
    get_valid_to (archive prev next).1 = get_valid_from next ∧
    content (archive prev next).1 = content prev;
  archive_keeps (prev next : N) :
    get_id (archive prev next).2 = get_id next ∧
    get_valid_from (archive prev next).2 = get_valid_from next ∧
    content (archive prev next).2 = content next;
  delete_at_ends (ts : Z) (row : N) :
    get_id (delete_at ts row) = get_id row ∧ get_valid_from (delete_at ts row) = get_valid_from row ∧
    get_valid_to (delete_at ts row) = ts ∧ content (delete_at ts row) = content row;
  with_valid_to_sets (ts : Z) (row : N) :
    get_id (with_valid_to ts row) = get_id row ∧
    get_valid_from (with_valid_to ts row) = get_valid_from row ∧
    get_valid_to (with_valid_to ts row) = ts ∧ content (with_valid_to ts row) = content row
}.

(** A history is the list of writes, [None] for a deletion; its value at a time is that of the
    last write up to it. *)
Definition value_at {V} (ts : Z) (w : list (Z * option V)) : option V :=
  foldl (fun acc x => if (x.1 <=? ts)%Z then x.2 else acc) None w.

Lemma value_at_snoc {V} ts (w : list (Z * option V)) x :
  value_at ts (w ++ [x]) = if (x.1 <=? ts)%Z then x.2 else value_at ts w.
Proof. unfold value_at. by rewrite foldl_app. Qed.

(** The versions of a history do not decrease. *)
Definition in_order {V} (w : list (Z * option V)) : Prop := StronglySorted Z.le w.*1.

Lemma in_order_snoc {V} (w : list (Z * option V)) x y :
  in_order (w ++ [x]) → last w = Some y → (y.1 ≤ x.1)%Z.
Proof.
  unfold in_order. rewrite fmap_app. intros Hs Hl. apply last_Some in Hl as [w' ->].
  rewrite fmap_app, <-app_assoc in Hs. apply StronglySorted_app in Hs as (_ & _ & Hs).
  simpl in Hs. apply StronglySorted_inv in Hs as [_ Hs]. by inversion Hs.
Qed.

Lemma in_order_prefix {V} (w1 w2 : list (Z * option V)) : in_order (w1 ++ w2) → in_order w1.
Proof. unfold in_order. rewrite fmap_app. by intros (_ & ? & _)%StronglySorted_app. Qed.

Lemma in_order_app {V} (w1 w2 : list (Z * option V)) :
  in_order w1 → in_order w2 → (∀ x y, last w1 = Some x → y ∈ w2 → (x.1 ≤ y.1)%Z) → in_order (w1 ++ w2).
Proof.
  unfold in_order. intros H1 H2 Hx. rewrite fmap_app. apply StronglySorted_app. split_and!; [|done|done].
  destruct w1 as [|x w1 _] using rev_ind; [intros ? ?; simpl; set_solver|].
  rewrite fmap_app in *. simpl in *. apply StronglySorted_app in H1 as (Hc & _ & _).
  intros v1 v2 Hv1 (y & -> & Hy)%list_elem_of_fmap. specialize (Hx x y ltac:(by rewrite last_snoc) Hy).
  apply elem_of_app in Hv1 as [Hv1| ->%list_elem_of_singleton]; [|done].
  etrans; [apply Hc; [exact Hv1|left]|done].
Qed.

Section partitioned.
Context {N Id V : Type} `{Countable Id} `{!PartitionedVersionedRow N Id} `{!PartitionedLaws N Id V}.
Context (debug_id : Id → string).
Abbreviation table := (PartitionedTable.t N Id).
Abbreviation entry := (VersioningEntry N Id).
Abbreviation history := (Id → list (Z * option V)).

(** [valid_from ≤ ts < valid_to] *)
Definition valid (ts : Z) (r : N) : Prop := (get_valid_from r ≤ ts < get_valid_to r)%Z.

(** What a query for one entity at one time finds. *)
Definition reads (t : table) (id : Id) (ts : Z) (v : V) : Prop :=
  ∃ r, r ∈ PartitionedTable.rows t ∧ get_id r = id ∧ valid ts r ∧ content r = v.

(** The table holds the histories [h] from [horizon] on. *)
Record represents (horizon : Z) (h : history) (t : table) : Prop := {
  rep_ordered id : in_order (h id);
  rep_current id r : PartitionedTable.default_partition t !! id = Some r →
    get_id r = id ∧ get_valid_to r = MAX_TS ∧ last (h id) = Some (get_valid_from r, Some (content r));
  rep_absent id x : PartitionedTable.default_partition t !! id = None → last (h id) = Some x → x.2 = None;
  rep_ended a : a ∈ PartitionedTable.archived t →
    ∃ x, last (h (get_id a)) = Some x ∧ (get_valid_to a ≤ x.1)%Z;
  rep_reads id ts v : (horizon ≤ ts < MAX_TS)%Z → reads t id ts v ↔ value_at ts (h id) = Some v
}.

(** Only the writes of the histories matter. *)
Lemma represents_ext horizon (h h' : history) t :
  (∀ id, h id = h' id) → represents horizon h t → represents horizon h' t.
Proof.
  intros He [H1 H2 H3 H4 H5]. split.
  - intros id. rewrite <-He. apply H1.
  - intros id r. rewrite <-He. apply H2.
  - intros id x. rewrite <-He. apply H3.
  - intros a. rewrite <-He. apply H4.
  - intros id ts v. rewrite <-He. apply H5.
Qed.

Definition write_of (e : entry) : Z * option V :=
  match e with
  | EUpdate r => (get_valid_from r, Some (content r))
  | EDeletion _ ts => (ts, None)
  end.

(** The writes of a batch to one entity. *)
Definition writes_to (id : Id) (es : list entry) : list (Z * option V) :=
  write_of <$> filter (fun e => entry_id e = id) es.

Definition extended (h : history) (es : list entry) : history := fun id => h id ++ writes_to id es.

Lemma writes_to_snoc id es e :
  writes_to id (es ++ [e]) = writes_to id es ++ (if decide (entry_id e = id) then [write_of e] else []).
Proof.
  unfold writes_to. rewrite filter_app, fmap_app. f_equal. rewrite filter_cons, filter_nil. by case_decide.
Qed.

Lemma reads_split t id ts v : (ts < MAX_TS)%Z → (∀ id r, PartitionedTable.default_partition t !! id = Some r → get_id r = id ∧ get_valid_to r = MAX_TS) →
  reads t id ts v ↔
    (∃ a, a ∈ PartitionedTable.archived t ∧ get_id a = id ∧ valid ts a ∧ content a = v) ∨
    (∃ r, PartitionedTable.default_partition t !! id = Some r ∧ (get_valid_from r ≤ ts)%Z ∧ content r = v).
Proof.
  intros Hts Hd. unfold reads, PartitionedTable.rows. setoid_rewrite elem_of_app. split.
  - intros (r & [Hr|Hr] & Hid & Hv & Hc); [right|left; by exists r].
    apply list_elem_of_fmap in Hr as ([k r'] & -> & Hr%elem_of_map_to_list). simpl in *.
    destruct (Hd k r' Hr) as [<- _]. subst id. exists r'. split_and!; [done|apply Hv|done].
  - intros [(a & Ha & ?)|(r & Hr & Hf & Hc)]; [exists a; split; [by right|done]|].
    destruct (Hd id r Hr) as [Hid Hto]. exists r. split_and!; [left|done| |done].
    + apply list_elem_of_fmap. exists (id, r). split; [done|]. by apply elem_of_map_to_list.
    + unfold valid. lia.
Qed.

(** ** The loop over a batch *)

Section batch.
Context (horizon : Z) (h : history) (t : table).
Context (Hrep : represents horizon h t).

(** The state after the entries [pre], for an entity of the batch. *)
Record tracked (pre : list entry) (v : Versions N Id) (id : Id) : Prop := {
  tr_latest r : latest v !! id = Some r →
    get_id r = id ∧ last (extended h pre id) = Some (get_valid_from r, Some (content r));
  tr_absent x : latest v !! id = None → last (extended h pre id) = Some x → x.2 = None;
  tr_ended a : a ∈ PartitionedTable.archived t ++ archived v → get_id a = id →
    ∃ x, last (extended h pre id) = Some x ∧ (get_valid_to a ≤ x.1)%Z;
  tr_reads ts c : (horizon ≤ ts < MAX_TS)%Z →
    (∃ a, a ∈ PartitionedTable.archived t ++ archived v ∧ get_id a = id ∧ valid ts a ∧ content a = c) ∨
    (∃ r, latest v !! id = Some r ∧ (get_valid_from r ≤ ts)%Z ∧ content r = c) ↔
    value_at ts (extended h pre id) = Some c;
  tr_deleted : id ∈ deleted v ↔ latest v !! id = None ∧ writes_to id pre ≠ []
}.

Lemma extended_snoc pre e id :
  extended h (pre ++ [e]) id = extended h pre id ++ (if decide (entry_id e = id) then [write_of e] else []).
Proof. unfold extended. by rewrite writes_to_snoc, app_assoc. Qed.

Lemma extended_prefix pre rest id : in_order (extended h (pre ++ rest) id) → in_order (extended h pre id).
Proof. unfold extended, writes_to. rewrite filter_app, fmap_app, app_assoc. apply in_order_prefix. Qed.

Lemma last_extended_snoc pre e : last (extended h (pre ++ [e]) (entry_id e)) = Some (write_of e).
Proof. rewrite extended_snoc, decide_True by done. apply last_snoc. Qed.

(** A write to the entity: what was current is closed, what is written becomes current. *)
Lemma track_step pre v v' e closed :
  tracked pre v (entry_id e) → in_order (extended h (pre ++ [e]) (entry_id e)) →
  archived v' = archived v ++ closed →
  (∀ a, a ∈ closed → ∃ prev, latest v !! entry_id e = Some prev ∧ get_id a = entry_id e ∧
     get_valid_from a = get_valid_from prev ∧ get_valid_to a = (write_of e).1 ∧ content a = content prev) →
  (is_Some (latest v !! entry_id e) → closed ≠ []) →
  (match (write_of e).2 with
   | Some c => ∃ r, latest v' !! entry_id e = Some r ∧ get_id r = entry_id e ∧
                 get_valid_from r = (write_of e).1 ∧ content r = c
   | None => latest v' !! entry_id e = None
   end) →
  (entry_id e ∈ deleted v' ↔ (write_of e).2 = None) →
  tracked (pre ++ [e]) v' (entry_id e).
Proof.
  intros [T1 T2 T3 T4 T5] Hord Ha Hclosed Hsome Hnew Hdel.
  pose proof (last_extended_snoc pre e) as Hlast.
  pose proof Hord as Hord'. rewrite extended_snoc, decide_True in Hord' by done.
  assert (∀ a, a ∈ PartitionedTable.archived t ++ archived v' → get_id a = entry_id e →
    (get_valid_to a ≤ (write_of e).1)%Z) as Hended.
  { intros a Hin Hid. rewrite Ha, app_assoc in Hin. apply elem_of_app in Hin as [Hin|Hin].
    - destruct (T3 a Hin Hid) as (x & Hx & Hle). pose proof (in_order_snoc _ _ _ Hord' Hx). lia.
    - destruct (Hclosed a Hin) as (prev & _ & _ & _ & -> & _). lia. }
  split.
  - intros r Hr. rewrite Hlast. destruct (write_of e) as [ver [c|]] eqn:Ew; simpl in *; [|congruence].
    destruct Hnew as (r' & Hr' & ? & ? & ?). rewrite Hr in Hr'. injection Hr' as <-. by subst.
  - intros x Hn. rewrite Hlast. intros [= <-]. destruct (write_of e) as [ver [c|]]; [|done].
    destruct Hnew as (r' & Hr' & _). congruence.
  - intros a Hin Hid. exists (write_of e). split; [done|]. by apply Hended.
  - intros ts c Hts. rewrite extended_snoc, decide_True by done. rewrite value_at_snoc.
    destruct (Z.leb_spec (write_of e).1 ts) as [Hle|Hlt].
    + split.
      * intros [(a & Hin & Hid & [_ Hv] & _)|(r & Hr & _ & <-)]; [pose proof (Hended a Hin Hid); lia|].
        destruct (write_of e).2 as [c0|]; [|congruence].
        destruct Hnew as (r' & Hr' & _ & _ & <-). rewrite Hr in Hr'. by injection Hr' as <-.
      * intros Hc. rewrite Hc in Hnew. destruct Hnew as (r & Hr & _ & Hf & Hcr). right. exists r.
        split_and!; [done|lia|done].
    + rewrite <-T4 by done. split.
      * intros [(a & Hin & Hid & Hv & Hc)|(r & Hr & Hf & <-)].
        -- rewrite Ha, app_assoc in Hin. apply elem_of_app in Hin as [Hin|Hin]; [left; by exists a|right].
           destruct (Hclosed a Hin) as (prev & Hp & _ & Hf & _ & Hcp). exists prev.
           split_and!; [done|destruct Hv; lia|congruence].
        -- destruct (write_of e).2 as [c0|]; [|congruence].
           destruct Hnew as (r' & Hr' & _ & Hf' & _). rewrite Hr in Hr'. injection Hr' as <-. lia.
      * intros [(a & Hin & Hid & Hv & Hc)|(r & Hr & Hf & Hc)].
        -- left. exists a. split_and!; try done. rewrite Ha, app_assoc. apply elem_of_app. by left.
        -- left. destruct closed as [|a closed]; [by destruct Hsome|].
           destruct (Hclosed a ltac:(left)) as (prev & Hp & Hid & Hfa & Hta & Hca).
           rewrite Hr in Hp. injection Hp as <-. exists a. rewrite Ha, app_assoc.
           split_and!; [apply elem_of_app; right; left|done|unfold valid; lia|congruence].
  - rewrite Hdel, writes_to_snoc, decide_True by done. split.
    + intros Hn. rewrite Hn in Hnew. split; [done|]. by destruct (writes_to (entry_id e) pre).
    + intros [Hn _]. destruct (write_of e).2; [|done]. destruct Hnew as (? & ? & _). congruence.
Qed.

(** A write to another entity. *)
Lemma track_other pre v v' e closed id :
  tracked pre v id → entry_id e ≠ id → archived v' = archived v ++ closed →
  (∀ a, a ∈ closed → get_id a = entry_id e) →
  latest v' !! id = latest v !! id → (id ∈ deleted v' ↔ id ∈ deleted v) →
  tracked (pre ++ [e]) v' id.
Proof.
  intros [T1 T2 T3 T4 T5] Hne Ha Hclosed Hl Hdel.
  assert (∀ a, a ∈ PartitionedTable.archived t ++ archived v' ∧ get_id a = id ↔
    a ∈ PartitionedTable.archived t ++ archived v ∧ get_id a = id) as Harch.
  { intros a. rewrite Ha. set_solver. }
  assert (extended h (pre ++ [e]) id = extended h pre id) as E.
  { rewrite extended_snoc, decide_False by done. apply app_nil_r. }
  split; rewrite ?E, ?Hl; try done.
  - intros a Hin Hid. apply T3; [|done]. by apply Harch.
  - intros ts c Hts. rewrite <-T4 by done. f_equiv. f_equiv. intros a. specialize (Harch a). tauto.
  - rewrite Hdel, T5, writes_to_snoc, decide_False, app_nil_r by done. done.
Qed.

(** One turn of the loop, for an entry that is not stale. *)
Lemma version_entry_tracked db_latest (ids : Id → Prop) pre v e :
  (∀ id, ids id → tracked pre v id) → ids (entry_id e) →
  in_order (extended h (pre ++ [e]) (entry_id e)) →
  is_stale_entry db_latest (entry_id e) (write_of e).1 = false →
  match version_entry debug_id db_latest v e with
  | Ok v' => (∀ id, ids id → tracked (pre ++ [e]) v' id) ∧ to_skip v' = to_skip v ∧
      ∀ id ts, e = EDeletion id ts → is_Some (latest v !! id)
  | Err err => ∃ ts, e = EDeletion (entry_id e) ts ∧ latest v !! entry_id e = None ∧
      err = Unexpected (String.append "Missing deleted row with id " (debug_id (entry_id e)))
  | Panic => False
  end.
Proof.
  intros Htr Hid Hord Hstale. destruct e as [row|id ts]; simpl in *; rewrite Hstale.
  - destruct (latest v !! get_id row) as [prev|] eqn:Ep.
    + destruct (archive_ends prev row) as (A1 & A2 & A3 & A4), (archive_keeps prev row) as (K1 & K2 & K3).
      destruct (archive prev row) as [p' r'] eqn:Ear. simpl in *. split; [|by split]. intros id Hi.
      destruct (decide (get_id row = id)) as [<-|Hne].
      * apply (track_step pre v _ (EUpdate row) [p']); simpl; try done; [by apply Htr|..].
        -- intros a ->%list_elem_of_singleton. exists prev. destruct (tr_latest _ _ _ (Htr _ Hi) prev Ep) as [Hp _].
           split_and!; congruence.
        -- exists r'. rewrite lookup_insert_eq. split_and!; congruence.
        -- set_solver.
      * eapply (track_other pre v _ (EUpdate row) [p']); simpl; try done; [by apply Htr|..].
        -- intros a ->%list_elem_of_singleton. destruct (tr_latest _ _ _ (Htr _ Hid) prev Ep) as [Hp _]. congruence.
        -- by rewrite lookup_insert_ne.
        -- set_solver.
    + split; [|by split]. intros id Hi. destruct (decide (get_id row = id)) as [<-|Hne].
      * apply (track_step pre v _ (EUpdate row) []); simpl; try done; [by apply Htr|by rewrite app_nil_r|set_solver|..].
        -- rewrite Ep. by intros [? ?].
        -- exists row. rewrite lookup_insert_eq. done.
        -- set_solver.
      * eapply (track_other pre v _ (EUpdate row) []); simpl; try done; [by apply Htr|by rewrite app_nil_r|set_solver|..].
        -- by rewrite lookup_insert_ne.
        -- set_solver.
  - destruct (latest v !! id) as [prev|] eqn:Ep; simpl; [|by exists ts].
    destruct (delete_at_ends ts prev) as (D1 & D2 & D3 & D4).
    destruct (tr_latest _ _ _ (Htr _ Hid) prev Ep) as [Hp _].
    split; [|split; [done|by intros id' ts' [= <- _]; rewrite Ep]]. intros id' Hi. destruct (decide (id = id')) as [<-|Hne].
    + apply (track_step pre v _ (EDeletion id ts) [delete_at ts prev]); simpl; try done; [by apply Htr|..].
      * intros a ->%list_elem_of_singleton. exists prev. split_and!; congruence.
      * by rewrite lookup_delete_eq.
      * set_solver.
    + eapply (track_other pre v _ (EDeletion id ts) [delete_at ts prev]); simpl; try done; [by apply Htr|..].
      * intros a ->%list_elem_of_singleton. congruence.
      * by rewrite lookup_delete_ne.
      * set_solver.
Qed.

(** Nothing is written for other entities. *)
Record within (ids : Id → Prop) (v : Versions N Id) : Prop := {
  wi_latest id r : latest v !! id = Some r → ids id ∧ get_id r = id;
  wi_archived a : a ∈ archived v → ids (get_id a);
  wi_deleted id : id ∈ deleted v → ids id
}.

Lemma version_entry_within db_latest (ids : Id → Prop) v v' e :
  within ids v → ids (entry_id e) → version_entry debug_id db_latest v e = Ok v' → within ids v'.
Proof.
  intros [W1 W2 W3] Hid. destruct e as [row|id ts]; simpl in *;
    (destruct (is_stale_entry _ _ _); [intros [= <-]; by split|]).
  - destruct (latest v !! get_id row) as [prev|] eqn:Ep.
    + destruct (archive_ends prev row) as (A1 & _), (archive_keeps prev row) as (K1 & _).
      destruct (W1 _ _ Ep) as [_ Hp].
      destruct (archive prev row) as [p' r'] eqn:Ear. simpl in *. intros [= <-]. split; simpl.
      * intros id r. rewrite lookup_insert_Some. intros [[<- <-]|[_ Hr]]; [by rewrite K1|by apply W1].
      * intros a [Ha|Ha%list_elem_of_singleton]%elem_of_app; [by apply W2|]. subst. by rewrite A1, Hp.
      * set_solver.
    + intros [= <-]. split; simpl; [|done|set_solver].
      intros id r. rewrite lookup_insert_Some. intros [[<- <-]|[_ Hr]]; [done|by apply W1].
  - destruct (latest v !! id) as [prev|] eqn:Ep; simpl; [|done]. intros [= <-].
    destruct (delete_at_ends ts prev) as (D1 & _), (W1 _ _ Ep) as [_ Hp]. split; simpl.
    + intros id' r [_ Hr]%lookup_delete_Some. by apply W1.
    + intros a [Ha|Ha%list_elem_of_singleton]%elem_of_app; [by apply W2|]. subst a. by rewrite D1, Hp.
    + set_solver.
Qed.

Lemma foldM_cons {E A B} (f : B → A → result E B) b a l :
  foldM f b (a :: l) = match f b a with Ok b' => foldM f b' l | Err e => Err e | Panic => Panic end.
Proof.
  unfold foldM. simpl. destruct (f b a); [done|..]; by induction l.
Qed.

(** The entity has no value after these writes. *)
Definition no_value (w : list (Z * option V)) : Prop := ∀ x, last w = Some x → x.2 = None.

(** Every deletion of the entries finds a value at its point. *)
Definition deletes_existing (pre rest : list entry) : Prop :=
  ∀ l id ts l', rest = l ++ EDeletion id ts :: l' → ¬ no_value (extended h (pre ++ l) id).

(** The first entry that fails is a deletion of an entity without a value. *)
Definition missing_row (pre rest : list entry) (err : StorageError) : Prop :=
  ∃ l id ts l', rest = l ++ EDeletion id ts :: l' ∧ deletes_existing pre l ∧ no_value (extended h (pre ++ l) id) ∧
    err = Unexpected (String.append "Missing deleted row with id " (debug_id id)).

Lemma deletes_existing_cons pre e rest :
  (∀ id ts, e = EDeletion id ts → ¬ no_value (extended h pre id)) →
  deletes_existing (pre ++ [e]) rest → deletes_existing pre (e :: rest).
Proof.
  intros He Hr [|e' l] id ts l' [= E1 E2]; [rewrite app_nil_r; by eapply He|].
  specialize (Hr l id ts l' E2). rewrite <-app_assoc, E1 in Hr. done.
Qed.

Lemma missing_row_unique pre rest err err' : missing_row pre rest err → missing_row pre rest err' → err = err'.
Proof.
  intros (l & id & ts & r & -> & Hl & Hn & ->) (l2 & id2 & ts2 & r2 & E & Hl2 & Hn2 & ->).
  apply app_eq_inv in E as [(k & E1 & E2)|(k & E1 & E2)]; (destruct k as [|x k]; [injection E2; by intros; subst|]);
    injection E2 as <- E2; exfalso.
  - by apply (Hl l2 id2 ts2 k).
  - by apply (Hl2 l id ts k).
Qed.

Lemma missing_row_cons pre e rest err :
  (∀ id ts, e = EDeletion id ts → ¬ no_value (extended h pre id)) →
  missing_row (pre ++ [e]) rest err → missing_row pre (e :: rest) err.
Proof.
  intros He (l & id & ts & l' & -> & Hl & Hn & ->). exists (e :: l), id, ts, l'.
  split_and!; [done|by apply deletes_existing_cons| |done]. by rewrite <-app_assoc in Hn.
Qed.

Lemma loop_tracked db_latest (ids : Id → Prop) pre rest v :
  (∀ id, ids id → tracked pre v id) → within ids v → (∀ e, e ∈ rest → ids (entry_id e)) →
  (∀ id, in_order (extended h (pre ++ rest) id)) →
  (∀ e, e ∈ rest → is_stale_entry db_latest (entry_id e) (write_of e).1 = false) →
  match foldM (version_entry debug_id db_latest) v rest with
  | Ok v' => (∀ id, ids id → tracked (pre ++ rest) v' id) ∧ within ids v' ∧ to_skip v' = to_skip v ∧
      deletes_existing pre rest
  | Err err => missing_row pre rest err
  | Panic => False
  end.
Proof.
  revert pre v; induction rest as [|e rest IH]; intros pre v Htr Hw Hids Hord Hst.
  { rewrite app_nil_r. split_and!; try done. by intros [] ? ? ?. }
  rewrite foldM_cons.
  assert (∀ id, in_order (extended h ((pre ++ [e]) ++ rest) id)) as Hord2
    by (intros id; rewrite <-app_assoc; apply Hord).
  pose proof (version_entry_tracked db_latest ids pre v e Htr (Hids e ltac:(left))) as Hstep.
  destruct (version_entry debug_id db_latest v e) as [v'|err|] eqn:Ev.
  - destruct Hstep as (Htr' & Hsk & Hdel); [by eapply extended_prefix|by apply Hst; left|].
    assert (∀ id ts, e = EDeletion id ts → ¬ no_value (extended h pre id)) as Hval.
    { intros id ts -> Hn. destruct (Hdel id ts eq_refl) as [r Hr].
      destruct (tr_latest _ _ _ (Htr id (Hids _ ltac:(left))) r Hr) as (_ & Hl). by apply Hn in Hl. }
    specialize (IH (pre ++ [e]) v' Htr' (version_entry_within _ _ _ _ _ Hw (Hids e ltac:(left)) Ev)
      (fun x Hx => Hids x ltac:(by right)) Hord2 (fun x Hx => Hst x ltac:(by right))).
    destruct (foldM _ v' rest) as [v2|err|]; [|by apply missing_row_cons|done].
    destruct IH as (H1 & H2 & H3 & H4). rewrite <-app_assoc in H1. split_and!; [done..|congruence|].
    by apply deletes_existing_cons.
  - destruct Hstep as (ts & He & Hn & ->); [by eapply extended_prefix|by apply Hst; left|].
    exists [], (entry_id e), ts, rest. split_and!; [by rewrite <-He|by intros [] ? ? ?| |done]. rewrite app_nil_r.
    intros x. apply (tr_absent _ _ _ (Htr _ (Hids e ltac:(left))) x Hn).
  - apply Hstep; [by eapply extended_prefix|by apply Hst; left].
Qed.

(** ** The table before and after *)

Definition in_batch (es : list entry) (id : Id) : Prop := id ∈ entry_id <$> es.
#[local] Instance in_batch_dec es id : Decision (in_batch es id).
Proof. unfold in_batch. apply _. Defined.

Lemma db_latest_lookup ids id :
  (foldl (fun m row => <[get_id row := row]> m) ∅ (PartitionedTable.latest_versions_by_ids ids t) : gmap Id N) !! id =
  if decide (id ∈ ids) then PartitionedTable.default_partition t !! id else None.
Proof.
  unfold PartitionedTable.latest_versions_by_ids. induction ids as [|i ids IH] using rev_ind; [simpl; by rewrite lookup_empty|].
  rewrite omap_app, foldl_app. simpl.
  destruct (PartitionedTable.default_partition t !! i) as [r|] eqn:Ei; simpl.
  - destruct (rep_current _ _ _ Hrep i r Ei) as [-> _]. destruct (decide (i = id)) as [->|Hne].
    + rewrite lookup_insert_eq, decide_True by set_solver. done.
    + rewrite lookup_insert_ne, IH by done. repeat case_decide; set_solver.
  - rewrite IH. repeat case_decide; set_solver.
Qed.

Lemma start_tracked es db_latest :
  (∀ id, db_latest !! id = if decide (id ∈ entry_id <$> es) then PartitionedTable.default_partition t !! id else None) →
  (∀ id, in_batch es id → tracked [] (mk_versions db_latest [] ∅ ∅) id) ∧
  within (in_batch es) (mk_versions db_latest [] ∅ ∅).
Proof.
  intros Hdb. assert (∀ id, extended h [] id = h id) as E by (intros; apply app_nil_r).
  assert (∀ id, in_batch es id → db_latest !! id = PartitionedTable.default_partition t !! id) as Hin.
  { intros id Hid. rewrite Hdb. by rewrite decide_True. }
  split.
  - intros id Hid. split; simpl; rewrite ?E, ?(Hin id Hid), ?app_nil_r.
    + intros r Hr. destruct (rep_current _ _ _ Hrep id r Hr) as (? & _ & ?). done.
    + intros x. apply (rep_absent _ _ _ Hrep).
    + intros a Ha <-. by apply (rep_ended _ _ _ Hrep).
    + intros ts c Hts. rewrite <-(rep_reads _ _ _ Hrep id ts c Hts). symmetry. apply reads_split; [lia|].
      intros i r Hr. destruct (rep_current _ _ _ Hrep i r Hr) as (? & ? & _). done.
    + set_solver.
  - split; simpl; [|set_solver..]. intros id r. rewrite Hdb. case_decide; [|done]. intros Hr. split; [done|].
    apply (rep_current _ _ _ Hrep id r Hr).
Qed.

Lemma upserted_lookup (m l : gmap Id N) id :
  (∀ id r, l !! id = Some r → get_id r = id) →
  foldl PartitionedTable.upsert_row m (map_to_list l).*2 !! id =
    match l !! id with
    | Some r => Some (with_valid_to (match m !! id with Some old => get_valid_to old | None => MAX_TS end) r)
    | None => m !! id
    end.
Proof.
  revert m. induction l as [|k r l Hk Hfst IH] using map_first_key_ind; intros m Hl;
    [by rewrite map_to_list_empty, lookup_empty|].
  rewrite map_to_list_insert_first_key by done. simpl. rewrite IH; last first.
  { intros i x Hx. apply Hl. rewrite lookup_insert_ne; [done|]. intros ->. congruence. }
  assert (get_id r = k) as Hr by (apply Hl; by rewrite lookup_insert_eq).
  unfold PartitionedTable.upsert_row. rewrite Hr. destruct (decide (k = id)) as [->|Hne].
  - rewrite Hk, !lookup_insert_eq. by destruct (m !! id).
  - by rewrite !lookup_insert_ne.
Qed.

(** The table that the result of the loop leaves. *)
Lemma written_represents es v retention :
  (horizon ≤ retention)%Z → (∀ id, in_order (extended h es id)) →
  (∀ id, in_batch es id → tracked es v id) → within (in_batch es) v → to_skip v = ∅ →
  represents retention (extended h es)
    (PartitionedTable.delete_latest (elements (deleted v))
       (PartitionedTable.upsert_latest
          (map_to_list (retain (fun id => negb (bool_decide (id ∈ to_skip v))) (latest v))).*2
          (PartitionedTable.insert_archive
             (filter (fun e => (retention < get_valid_to e)%Z) (archived v)) t))).
Proof.
  intros Hhor Hord Htr [W1 W2 W3] Hsk. set (t' := PartitionedTable.delete_latest _ _).
  assert (retain (fun id => negb (bool_decide (id ∈ to_skip v))) (latest v) = latest v) as Eret.
  { apply map_eq. intros id. rewrite lookup_retain, Hsk, bool_decide_false by set_solver. simpl. by destruct (latest v !! id). }
  assert (∀ id, ¬ in_batch es id → extended h es id = h id) as Hout.
  { intros id Hid. unfold extended, writes_to. destruct (filter _ es) as [|e l] eqn:Ef; [apply app_nil_r|].
    destruct Hid. assert (e ∈ e :: l) as He by left. rewrite <-Ef in He.
    apply list_elem_of_filter in He as [<- He]. apply list_elem_of_fmap. by exists e. }
  assert (∀ id, PartitionedTable.default_partition t' !! id =
    if decide (in_batch es id) then with_valid_to MAX_TS <$> latest v !! id
    else PartitionedTable.default_partition t !! id) as Hd.
  { intros id. unfold t'. simpl. rewrite deleted_lookup, Eret, upserted_lookup by (intros; by apply W1).
    destruct (decide (in_batch es id)) as [Hin|Hout'].
    - destruct (latest v !! id) as [r|] eqn:El.
      + rewrite decide_False; last first.
        { rewrite elem_of_elements. intros [Hn _]%(tr_deleted _ _ _ (Htr id Hin)). congruence. }
        simpl. destruct (PartitionedTable.default_partition t !! id) as [old|] eqn:Eo; [|done].
        by destruct (rep_current _ _ _ Hrep id old Eo) as (_ & -> & _).
      + rewrite decide_True; [done|]. rewrite elem_of_elements. apply (tr_deleted _ _ _ (Htr id Hin)). split; [done|].
        unfold writes_to. intros Hnil%fmap_nil_inv. apply list_elem_of_fmap in Hin as (e & -> & He).
        eapply (not_elem_of_nil e). rewrite <-Hnil. by apply list_elem_of_filter.
    - destruct (latest v !! id) as [r|] eqn:El; [by apply W1 in El as []|].
      rewrite decide_False; [done|]. rewrite elem_of_elements. intros Hdel. by apply Hout', W3. }
  assert (∀ id r, PartitionedTable.default_partition t' !! id = Some r →
    get_id r = id ∧ get_valid_to r = MAX_TS ∧ last (extended h es id) = Some (get_valid_from r, Some (content r))) as Hcur.
  { intros id r. rewrite Hd. case_decide as Hin.
    - intros (r0 & Hr & ->)%fmap_Some. destruct (with_valid_to_sets MAX_TS r0) as (-> & -> & -> & ->).
      by destruct (tr_latest _ _ _ (Htr id Hin) r0 Hr) as [-> ->].
    - rewrite Hout by done. apply (rep_current _ _ _ Hrep). }
  split; [done|done| | |].
  - intros id x. rewrite Hd. case_decide as Hin.
    + rewrite fmap_None. apply (tr_absent _ _ _ (Htr id Hin)).
    + rewrite Hout by done. apply (rep_absent _ _ _ Hrep).
  - intros a. unfold t'. simpl. rewrite elem_of_app, list_elem_of_filter. intros Ha.
    destruct (decide (in_batch es (get_id a))) as [Hin|Hn].
    + apply (tr_ended _ _ _ (Htr _ Hin)); [|done]. rewrite elem_of_app. tauto.
    + destruct Ha as [Ha|[_ Ha]]; [|by apply W2 in Ha]. rewrite Hout by done. by apply (rep_ended _ _ _ Hrep).
  - intros id ts c Hts. rewrite reads_split; [|lia|intros i r Hr; by destruct (Hcur i r Hr) as (? & ? & _)].
    unfold t' at 1. simpl. rewrite Hd. destruct (decide (in_batch es id)) as [Hin|Hn].
    + rewrite <-(tr_reads _ _ _ (Htr id Hin)) by lia. f_equiv.
      * split; intros (a & Ha & Hid & Hv & Hc); exists a; (split; [|done]);
          rewrite elem_of_app, ?list_elem_of_filter in *; [tauto|].
        destruct Ha as [|Ha]; [by left|right]. split; [|done]. destruct Hv. lia.
      * split.
        -- intros (r & (r0 & Hr & ->)%fmap_Some & Hf & Hc). destruct (with_valid_to_sets MAX_TS r0) as (_ & E2 & _ & E4).
           exists r0. split_and!; [done|lia|congruence].
        -- intros (r & Hr & Hf & Hc). destruct (with_valid_to_sets MAX_TS r) as (_ & E2 & _ & E4).
           exists (with_valid_to MAX_TS r). rewrite Hr. split_and!; [done|lia|congruence].
    + rewrite Hout, <-(rep_reads _ _ _ Hrep), reads_split by (done || lia || (intros i r Hr; by destruct (rep_current _ _ _ Hrep i r Hr) as (? & ? & _))).
      f_equiv. split; intros (a & Ha & Hid & Hv & Hc); exists a; (split; [|done]);
        rewrite elem_of_app, ?list_elem_of_filter in *; [|by left].
      destruct Ha as [|[_ Ha]]; [done|]. apply W2 in Ha. by rewrite Hid in Ha.
Qed.

(** Every write is newer than what is stored. *)
Definition fresh (es : list entry) : Prop := ∀ e x,
  e ∈ es → last (h (entry_id e)) = Some x → (x.1 < (write_of e).1)%Z.

Lemma write_versions_spec es retention :
  (horizon ≤ retention)%Z → fresh es → (∀ id, in_order (extended h es id)) →
  match write_versions debug_id es retention t with
  | Ok t' => represents retention (extended h es) t' ∧ deletes_existing [] es
  | Err err => missing_row [] es err
  | Panic => False
  end.
Proof.
  intros Hhor Hf Hord. unfold write_versions, apply_partitioned_versioning, set_partitioned_versioning_attributes.
  destruct (decide (es = [])) as [->|Hne].
  { simpl. unfold PartitionedTable.delete_latest, PartitionedTable.upsert_latest, PartitionedTable.insert_archive. simpl.
    rewrite app_nil_r. assert (∀ id, extended h [] id = h id) as E by (intros; apply app_nil_r).
    split; [|by intros [] ? ? ?].
    destruct t as [d a]. destruct Hrep as [R1 R2 R3 R4 R5]. split; intros *; rewrite ?E; eauto.
    intros Hts. apply R5. lia. }
  destruct es as [|e0 es0]; [done|]. set (es := e0 :: es0) in *.
  pose proof (db_latest_lookup (entry_id <$> es)) as Hdb.
  set (db_latest := foldl (fun m row => <[get_id row := row]> m) ∅ _) in *.
  destruct (start_tracked es db_latest Hdb) as [Htr Hw].
  pose proof (loop_tracked db_latest (in_batch es) [] es _ Htr Hw) as Hloop. simpl app in Hloop.
  match type of Hloop with ?P → ?Q → ?R → _ => assert P as H1; [|assert R as H3] end.
  - intros e He. apply list_elem_of_fmap. by exists e.
  - intros e He. unfold is_stale_entry. rewrite Hdb. case_decide; [|done].
    destruct (PartitionedTable.default_partition t !! entry_id e) as [r|] eqn:Er; [|done].
    destruct (rep_current _ _ _ Hrep _ r Er) as (_ & _ & Hl). specialize (Hf e _ He Hl). simpl in Hf. lia.
  - specialize (Hloop H1 Hord H3). destruct (foldM _ _ es) as [v|err|]; simpl; [|done..].
    destruct Hloop as (L1 & L2 & L3 & L4). split; [by apply written_represents|done].
Qed.
End batch.
End partitioned.
