(* ===== verification/Gateway.v ===== *)
(** The versioned rows of [tycho_storage::postgres::orm] and the gateway methods that write and
    read protocol states, component balances and contract slots ([protocol.rs],
    [contract.rs]).

    Ids that the methods look up in other tables (transactions, components, tokens, accounts)
    are maps, as the methods collect them.  [show] and
    [debug_state_id] print byte strings and ids in error messages. *)

From Stdlib Require Import SpecFloat.
From S2P Require Import Prelude Collections Bytes Models Blockchain ReorgBuffer Versioning.

Open Scope tycho_scope.

(** * Rows *)

Module NewProtocolState.
Record t := mk {
  protocol_component_id : Z;
  attribute_name : string;
  attribute_value : Bytes;
  previous_value : option Bytes;
  modify_tx : Z;
  valid_from : Z;
  valid_to : Z
}.
Definition new (protocol_component_id : Z) (attribute_name : string) (attribute_value : Bytes)
    (modify_tx valid_from : Z) : t :=
  mk protocol_component_id attribute_name attribute_value None modify_tx valid_from MAX_TS.
Definition set_valid_to (x : Z) (s : t) : t :=
  mk (protocol_component_id s) (attribute_name s) (attribute_value s) (previous_value s)
     (modify_tx s) (valid_from s) x.
Definition set_previous (x : option Bytes) (s : t) : t :=
  mk (protocol_component_id s) (attribute_name s) (attribute_value s) x
     (modify_tx s) (valid_from s) (valid_to s).
#[global] Instance row : PartitionedVersionedRow t (Z * string) := {|
  get_id s := (protocol_component_id s, attribute_name s);
  get_valid_to := valid_to;
  get_valid_from := valid_from;
  archive s next := (set_valid_to (valid_from next) s, set_previous (Some (attribute_value s)) next);
  delete_at := set_valid_to;
  with_valid_to := set_valid_to
|}.
End NewProtocolState.

Module NewComponentBalance.
Record t := mk {
  token_id : Z;
  new_balance : Bytes;
  previous_value : Bytes;
  balance_float : f64;
  modify_tx : Z;
  protocol_component_id : Z;
  valid_from : Z;
  valid_to : Z
}.
(** [Bytes::from("0x00")] for a missing previous value *)
Definition new (token_id : Z) (new_balance : Bytes) (balance_float : f64)
    (previous_value : option Bytes) (modify_tx protocol_component_id valid_from : Z) : t :=
  mk token_id new_balance (default [Byte.x00] previous_value) balance_float modify_tx
     protocol_component_id valid_from MAX_TS.
Definition set_valid_to (x : Z) (s : t) : t :=
  mk (token_id s) (new_balance s) (previous_value s) (balance_float s) (modify_tx s)
     (protocol_component_id s) (valid_from s) x.
Definition set_previous (x : Bytes) (s : t) : t :=
  mk (token_id s) (new_balance s) x (balance_float s) (modify_tx s)
     (protocol_component_id s) (valid_from s) (valid_to s).
#[global] Instance row : PartitionedVersionedRow t (Z * Z) := {|
  get_id s := (protocol_component_id s, token_id s);
  get_valid_to := valid_to;
  get_valid_from := valid_from;
  archive s next := (set_valid_to (valid_from next) s, set_previous (new_balance s) next);
  delete_at := set_valid_to;
  with_valid_to := set_valid_to
|}.
End NewComponentBalance.

Module NewSlot.
Record t := mk {
  slot : Bytes;
  value : option Bytes;
  previous_value : option Bytes;
  account_id : Z;
  modify_tx : Z;
  ordinal : Z;
  valid_from : Z;
  valid_to : Z
}.
Definition set_valid_to (x : Z) (s : t) : t :=
  mk (slot s) (value s) (previous_value s) (account_id s) (modify_tx s) (ordinal s) (valid_from s) x.
Definition set_previous (x : option Bytes) (s : t) : t :=
  mk (slot s) (value s) x (account_id s) (modify_tx s) (ordinal s) (valid_from s) (valid_to s).
#[global] Instance row : PartitionedVersionedRow t (Z * Bytes) := {|
  get_id s := (account_id s, slot s);
  get_valid_to := valid_to;
  get_valid_from := valid_from;
  archive s next := (set_valid_to (valid_from next) s, set_previous (value s) next);
  delete_at := set_valid_to;
  with_valid_to := set_valid_to
|}.
End NewSlot.

(** What the queries select of [protocol_component] and its protocol system. *)
Module ComponentRow.
Record t := mk { id : Z; external_id : string; protocol_system : string }.
End ComponentRow.

Module NewAccountBalance.
Record t := mk {
  balance : Bytes;
  account_id : Z;
  token_id : Z;
  modify_tx : Z;
  valid_from : Z;
  valid_to : option Z
}.
#[global] Instance row : VersionedRow t (Z * Z) := {|
  get_entity_id s := (account_id s, token_id s);
  set_valid_to x s := mk (balance s) (account_id s) (token_id s) (modify_tx s) (valid_from s) (Some x);
  row_valid_from := valid_from
|}.
End NewAccountBalance.

Module OrmAccountBalance.
Record t := mk {
  id : Z;
  balance : Bytes;
  account_id : Z;
  token_id : Z;
  modify_tx : Z;
  valid_from : Z;
  valid_to : option Z
}.
#[global] Instance row : StoredVersionedRow t (Z * Z) := {|
  get_pk := id;
  stored_entity_id s := (account_id s, token_id s);
  stored_valid_from := valid_from;
  stored_valid_to := valid_to;
  close_version x s :=
    mk (id s) (balance s) (account_id s) (token_id s) (modify_tx s) (valid_from s) (Some x)
|}.
(** [INSERT INTO account_balance VALUES …]: the keys are those of the sequence of the table. *)
Definition insert (pk : Z) (new : NewAccountBalance.t) : t :=
  mk pk (NewAccountBalance.balance new) (NewAccountBalance.account_id new)
     (NewAccountBalance.token_id new) (NewAccountBalance.modify_tx new)
     (NewAccountBalance.valid_from new) (NewAccountBalance.valid_to new).
(** The columns of its unique constraint. *)
Definition unique_key (s : t) : Z * Z * Z := (account_id s, token_id s, modify_tx s).
Definition insert_all {E} (violation : E) (next_pk : Z) (new : list NewAccountBalance.t) (table : list t) :
    result E (list t) :=
  let table := table ++ imap (fun i n => insert (next_pk + Z.of_nat i) n) new in
  if decide (NoDup (unique_key <$> table)) then Ok table else Err violation.
End OrmAccountBalance.

Section gateway.
Context (show : Bytes → string) (debug_state_id : Z * string → string).

(** * Protocol states *)

Abbreviation StateTable := (PartitionedTable.t NewProtocolState.t (Z * string)).
Abbreviation StateEntry := (VersioningEntry NewProtocolState.t (Z * string)).
(** Database id, index and block time of a transaction. *)
Abbreviation TxInfo := (Z * Z * Z)%type.

(** [(component_db_id, attribute, tx_ts, tx_index)] *)
Definition state_ordinal_le (a b : WithOrdinal.t StateEntry (Z * string * Z * Z)) : bool :=
  let '(c1, a1, t1, i1) := WithOrdinal.ordinal a in
  let '(c2, a2, t2, i2) := WithOrdinal.ordinal b in
  cmp_le (then_cmp (Z.compare c1 c2) (then_cmp (String.compare a1 a2)
            (then_cmp (Z.compare t1 t2) (Z.compare i1 i2)))).

(** The entries of one delta. *)
Definition state_entries (txns : gmap Bytes TxInfo) (components : gmap string Z)
    (new : Bytes * ProtocolComponentStateDelta.t) :
    result StorageError (list (WithOrdinal.t StateEntry (Z * string * Z * Z))) :=
  let '(tx, state) := new in
  '(tx_id, tx_index, tx_ts) ← ok_or (txns !! tx) (NotFound "Tx id" (show tx));
  component_db_id ← ok_or (components !! ProtocolComponentStateDelta.component_id state)
    (NotFound "Component id" (ProtocolComponentStateDelta.component_id state));
  Ok (((fun kv => WithOrdinal.mk
          (EUpdate (NewProtocolState.new component_db_id kv.1 kv.2 tx_id tx_ts))
          (component_db_id, kv.1, tx_ts, tx_index))
         <$> map_to_list (ProtocolComponentStateDelta.updated_attributes state)) ++
      ((fun attr => WithOrdinal.mk (EDeletion (component_db_id, attr) tx_ts)
          (component_db_id, attr, tx_ts, tx_index))
         <$> elements (ProtocolComponentStateDelta.deleted_attributes state))).

Definition update_protocol_states (chain_db_id : result StorageError Z)
    (txns : gmap Bytes TxInfo) (components : gmap string Z) (retention_horizon : Z)
    (new : list (Bytes * ProtocolComponentStateDelta.t)) (table : StateTable) :
    result StorageError StateTable :=
  _ ← chain_db_id;
  state_data ← mapM (state_entries txns components) new;
  let sorted := WithOrdinal.entity <$> sort_by state_ordinal_le (mjoin state_data) in
  match sorted with
  | [] => Ok table
  | _ => write_versions debug_state_id sorted retention_horizon table
  end.

(** ** Queries *)

(** The filters of the queries for states: the latest version without a timestamp. *)
Definition valid_for {N Id} `{!PartitionedVersionedRow N Id} (version_ts : option Z) (r : N) : bool :=
  (default MAX_VERSION_TS version_ts <? get_valid_to r)%Z &&
  match version_ts with
  | Some ts => (get_valid_from r <=? ts)%Z
  | None => true
  end.

(** The rows of the components [ids], with the external id of their component. *)
Definition joined (external : gmap Z string) (rows : list NewProtocolState.t) :
    list (NewProtocolState.t * string) :=
  omap (fun r => ext ← external !! NewProtocolState.protocol_component_id r; Some (r, ext)) rows.

Definition string_le (a b : string) : bool := cmp_le (String.compare a b).

Definition state_rows (external : gmap Z string) (ids : list Z) (version_ts : option Z)
    (table : StateTable) : list (NewProtocolState.t * string) :=
  base.filter (fun r => NewProtocolState.protocol_component_id r.1 ∈ ids ∧ is_true (valid_for version_ts r.1))
    (joined external (PartitionedTable.rows table)).

(** The components of a chain, in the order the database gives them. *)
Abbreviation Components := (list ComponentRow.t).
Definition external_ids (components : Components) : gmap Z string :=
  list_to_map ((fun c => (ComponentRow.id c, ComponentRow.external_id c)) <$> components).

(** [LIMIT page_size OFFSET page * page_size] *)
Definition paginated {A} (p : option (Z * Z)) (l : list A) : list A :=
  match p with
  | Some (page, page_size) => take (Z.to_nat page_size) (drop (Z.to_nat (page * page_size)) l)
  | None => l
  end.

Definition by_id (components : Components) (component_ids : list string) (version_ts : option Z)
    (pagination_params : option (Z * Z)) (table : StateTable) :
    list (NewProtocolState.t * string) * option Z :=
  let component_query := base.filter (fun c => ComponentRow.external_id c ∈ component_ids) components in
  (sort_by (fun a b => string_le a.2 b.2)
     (state_rows (external_ids components) (ComponentRow.id <$> paginated pagination_params component_query)
        version_ts table),
   (fun _ => Z.of_nat (length component_query)) <$> pagination_params).

(** The count has the components of the system, whatever ids are asked for. *)
Definition by_protocol (components : Components) (component_ids : option (list string)) (system : string)
    (version_ts : option Z) (pagination_params : option (Z * Z)) (table : StateTable) :
    list (NewProtocolState.t * string) * option Z :=
  let of_system := base.filter (fun c => ComponentRow.protocol_system c = system) components in
  let component_query :=
    match component_ids with
    | Some ids => base.filter (fun c => ComponentRow.external_id c ∈ ids) of_system
    | None => of_system
    end in
  let component_query :=
    match pagination_params with
    | Some _ => sort_by_key ComponentRow.id component_query
    | None => component_query
    end in
  (sort_by_key (fun r => NewProtocolState.protocol_component_id r.1)
     (state_rows (external_ids components) (ComponentRow.id <$> paginated pagination_params component_query)
        version_ts table),
   (fun _ => Z.of_nat (length of_system)) <$> pagination_params).

(** Components for which one row has not ended and one row has started. *)
Definition has_state (version_ts : option Z) (table : StateTable) (c : ComponentRow.t) : bool :=
  let of_c := base.filter (fun r => NewProtocolState.protocol_component_id r = ComponentRow.id c)
                (PartitionedTable.rows table) in
  existsb (fun r => (default MAX_VERSION_TS version_ts <? NewProtocolState.valid_to r)%Z) of_c &&
  match version_ts with
  | Some ts => existsb (fun r => (NewProtocolState.valid_from r <=? ts)%Z) of_c
  | None => true
  end.

Definition by_chain (components : Components) (version_ts : option Z)
    (pagination_params : option (Z * Z)) (table : StateTable) :
    list (NewProtocolState.t * string) * option Z :=
  let component_ids_query :=
    sort_by_key ComponentRow.id (base.filter (fun c => is_true (has_state version_ts table c)) components) in
  match paginated pagination_params component_ids_query with
  | [] => ([], Some 0%Z)
  | page =>
      (sort_by_key (fun r => NewProtocolState.protocol_component_id r.1)
         (state_rows (external_ids components) (ComponentRow.id <$> page) version_ts table),
       (fun _ => Z.of_nat (length component_ids_query)) <$> pagination_params)
  end.

(** The elements at the head of a list whose id is [id], and the others. *)
Fixpoint split_while {A K} `{EqDecision K} (id : A → K) (current : K) (l : list A) : list A * list A :=
  match l with
  | x :: l' =>
      if decide (id x = current) then
        let '(slice, rest) := split_while id current l' in (x :: slice, rest)
      else ([], l)
  | [] => ([], [])
  end.

(** The loop over groups of rows with the same id. *)
Fixpoint groups {A K} `{EqDecision K} (id : A → K) (fuel : nat) (l : list A) : list (K * list A) :=
  match fuel, l with
  | S fuel', x :: _ =>
      let '(slice, rest) := split_while id (id x) l in (id x, slice) :: groups id fuel' rest
  | _, _ => []
  end.

Definition attributes_of (slice : list (NewProtocolState.t * string)) : gmap string Bytes :=
  foldl (fun m x => <[NewProtocolState.attribute_name x.1 := NewProtocolState.attribute_value x.1]> m) ∅ slice.

Definition _decode_protocol_states (balances : gmap string (gmap Bytes ComponentBalance.t))
    (data_vec : list (NewProtocolState.t * string)) : list ProtocolComponentState.t :=
  let '(protocol_states, balances) :=
    foldl (fun acc g =>
      let '(states, balances) := acc in
      (states ++ [ProtocolComponentState.new g.1 (attributes_of g.2)
                    (ComponentBalance.balance <$> default ∅ (balances !! g.1))],
       delete g.1 balances)) ([], balances) (groups snd (length data_vec) data_vec) in
  protocol_states ++
  ((fun kv => ProtocolComponentState.new kv.1 ∅ (ComponentBalance.balance <$> kv.2)) <$> map_to_list balances).

(** ** Balances and whole states *)

Abbreviation BalanceTable := (PartitionedTable.t NewComponentBalance.t (Z * Z)).

(** [protocol_components]: the components of the chain that are asked for; [tokens]: the
    addresses of tokens. *)
Definition get_component_balances (protocol_components : gmap Z string) (tokens : gmap Z Bytes)
    (version_ts : option Z) (table : BalanceTable) :
    result StorageError (gmap string (gmap Bytes ComponentBalance.t)) :=
  let rows := sort_by_key NewComponentBalance.protocol_component_id
    (base.filter (fun r => is_Some (protocol_components !! NewComponentBalance.protocol_component_id r) ∧
                           is_true (valid_for version_ts r)) (PartitionedTable.rows table)) in
  balances_map ← foldM (fun (m : gmap string (gmap Z (Bytes * f64))) g =>
    component_id ← unwrap (protocol_components !! g.1);
    Ok (<[component_id := foldl (fun b r =>
            <[NewComponentBalance.token_id r :=
                (NewComponentBalance.new_balance r, NewComponentBalance.balance_float r)]> b) ∅ g.2]> m)) ∅
    (groups NewComponentBalance.protocol_component_id (length rows) rows);
  foldM (fun (balances : gmap string (gmap Bytes ComponentBalance.t)) kv =>
    new_balance_map ← foldM (fun m tb =>
      address ← ok_or (tokens !! tb.1) (NotFound "Token" (pretty.pretty tb.1));
      Ok (<[address := ComponentBalance.mk address tb.2.1 tb.2.2 (replicate 32 Byte.x00) kv.1]> m)) ∅
      (map_to_list kv.2);
    Ok (<[kv.1 := new_balance_map]> balances)) ∅ (map_to_list balances_map).

Definition get_protocol_states (chain_db_id : result StorageError Z) (components : Components)
    (tokens : gmap Z Bytes) (version_ts : option Z) (system : option string) (ids : option (list string))
    (retrieve_balances : bool) (pagination_params : option (Z * Z)) (table : StateTable)
    (balance_table : BalanceTable) : result StorageError (list ProtocolComponentState.t * option Z) :=
  _ ← chain_db_id;
  balances ← (if retrieve_balances then
    get_component_balances
      (external_ids match ids with
                    | Some ids => base.filter (fun c => ComponentRow.external_id c ∈ ids) components
                    | None => components
                    end) tokens version_ts balance_table
  else Ok ∅);
  let '(data, total) :=
    match ids, system with
    | maybe_ids, Some system => by_protocol components maybe_ids system version_ts pagination_params table
    | Some ids, None => by_id components ids version_ts pagination_params table
    | None, None => by_chain components version_ts pagination_params table
    end in
  Ok (_decode_protocol_states balances data, total).

(** Rows that start after [start_ts] and are valid at [end_ts]. *)
Definition forward_deltas_by_chain (external : gmap Z string) (start_ts end_ts : Z)
    (table : StateTable) : list (NewProtocolState.t * string) :=
  sort_by_key (fun r => NewProtocolState.protocol_component_id r.1)
    (base.filter (fun r : NewProtocolState.t * string =>
       (start_ts < NewProtocolState.valid_from r.1)%Z ∧ (NewProtocolState.valid_from r.1 ≤ end_ts)%Z ∧
       (end_ts < NewProtocolState.valid_to r.1)%Z)
     (joined external (PartitionedTable.rows table))).

(** [EXISTS (SELECT 1 … valid_from <= ts AND valid_to > ts)] for the entity of [r] *)
Definition exists_valid (r : NewProtocolState.t) (ts : Z) (table : StateTable) : bool :=
  existsb (fun r2 => bool_decide (get_id r2 = get_id r) &&
    (NewProtocolState.valid_from r2 <=? ts)%Z && (ts <? NewProtocolState.valid_to r2)%Z)
    (PartitionedTable.rows table).

Definition deleted_attributes_by_chain (external : gmap Z string) (start_ts end_ts : Z)
    (table : StateTable) : list (string * string) :=
  (fun r => (r.2, NewProtocolState.attribute_name r.1)) <$>
  sort_by_key (fun r => NewProtocolState.protocol_component_id r.1)
    (base.filter (fun r : NewProtocolState.t * string =>
       (NewProtocolState.valid_to r.1 ≤ end_ts)%Z ∧ (start_ts < NewProtocolState.valid_to r.1)%Z ∧
       exists_valid r.1 end_ts table = false)
     (joined external (PartitionedTable.rows table))).

(** The first row of each entity in the order of the query: [DISTINCT ON]. *)
Fixpoint distinct_on {A B} `{EqDecision B} (key : A → B) (l : list A) : list A :=
  match l with
  | [] => []
  | x :: l' => x :: base.filter (fun y => key y ≠ key x) (distinct_on key l')
  end.

(** [tx_order]: block id and index of a transaction. *)
Definition reverse_delta_by_chain (external : gmap Z string) (tx_order : Z → Z * Z)
    (start_ts target_ts : Z) (table : StateTable) : list (string * string * option Bytes) :=
  let entity_cmp (a b : NewProtocolState.t) :=
    then_cmp (Z.compare (NewProtocolState.protocol_component_id a) (NewProtocolState.protocol_component_id b))
      (String.compare (NewProtocolState.attribute_name a) (NewProtocolState.attribute_name b)) in
  let reverted :=
    distinct_on (fun r : NewProtocolState.t * string => get_id r.1)
      (sort_by (fun a b =>
         let '(b1, i1) := tx_order (NewProtocolState.modify_tx a.1) in
         let '(b2, i2) := tx_order (NewProtocolState.modify_tx b.1) in
         cmp_le (then_cmp (entity_cmp a.1 b.1) (then_cmp (Z.compare b1 b2) (Z.compare i1 i2))))
       (base.filter (fun r : NewProtocolState.t * string =>
          (target_ts < NewProtocolState.valid_from r.1)%Z ∧ (NewProtocolState.valid_from r.1 ≤ start_ts)%Z)
        (joined external (PartitionedTable.rows table)))) in
  let deleted :=
    sort_by (fun a b => cmp_le (entity_cmp a.1 b.1))
      (base.filter (fun r : NewProtocolState.t * string =>
         (NewProtocolState.valid_to r.1 ≤ start_ts)%Z ∧ (target_ts < NewProtocolState.valid_to r.1)%Z ∧
         (NewProtocolState.valid_from r.1 ≤ target_ts)%Z ∧ exists_valid r.1 start_ts table = false)
       (joined external (PartitionedTable.rows table))) in
  ((fun r => (r.2, NewProtocolState.attribute_name r.1, NewProtocolState.previous_value r.1)) <$> reverted) ++
  ((fun r => (r.2, NewProtocolState.attribute_name r.1, Some (NewProtocolState.attribute_value r.1))) <$> deleted).

(** ** Changes between two versions *)

(** One turn over the component ids; what remains of the two lists. *)
Definition forward_turn (acc : list ProtocolComponentStateDelta.t *
      list (NewProtocolState.t * string) * list (string * string)) (current : string) :
    list ProtocolComponentStateDelta.t * list (NewProtocolState.t * string) * list (string * string) :=
  let '(deltas, state_updates, deleted_attrs) := acc in
  let '(states_slice, state_updates) := split_while snd current state_updates in
  let '(deleted_slice, deleted_attrs) := split_while fst current deleted_attrs in
  (deltas ++ [ProtocolComponentStateDelta.new current (attributes_of states_slice)
                (list_to_set deleted_slice.*2)], state_updates, deleted_attrs).

(** The ids of both lists in the order of strings ([BTreeSet]). *)
Definition sorted_ids (l : list string) : list string := sort_by string_le (remove_dups l).

Definition get_protocol_states_delta (external : gmap Z string) (tx_order : Z → Z * Z)
    (start_ts end_ts : Z) (table : StateTable) : list ProtocolComponentStateDelta.t :=
  if (start_ts <=? end_ts)%Z then
    let state_updates := forward_deltas_by_chain external start_ts end_ts table in
    let deleted_attrs := deleted_attributes_by_chain external start_ts end_ts table in
    let all_component_ids := sorted_ids (state_updates.*2 ++ deleted_attrs.*1) in
    (foldl forward_turn ([], state_updates, deleted_attrs) all_component_ids).1.1
  else
    let result := reverse_delta_by_chain external tx_order start_ts end_ts table in
    (fun g : string * list (string * string * option Bytes) =>
       let updates := omap (fun x : string * string * option Bytes => v ← x.2; Some (x.1.2, v)) g.2 in
       let deleted := base.filter (fun x : string * string * option Bytes => x.2 = None) g.2 in
       ProtocolComponentStateDelta.new g.1
         (foldl (fun m kv => <[kv.1 := kv.2]> m) ∅ updates)
         (list_to_set ((fun x : string * string * option Bytes => x.1.2) <$> deleted)))
    <$> groups (fun x => x.1.1) (length result) result.

(** * Component balances and contract slots *)

Definition component_balance_entry (transactions : gmap Bytes TxInfo) (token_ids : gmap Bytes Z)
    (component_ids : gmap string Z) (b : ComponentBalance.t) :
    result StorageError (WithOrdinal.t (VersioningEntry NewComponentBalance.t (Z * Z)) (Z * Z * Z * Z)) :=
  token_id ← ok_or (token_ids !! ComponentBalance.token b)
    (NotFound "Token" (show (ComponentBalance.token b)));
  '(tx_id, tx_index, tx_ts) ← ok_or (transactions !! ComponentBalance.modify_tx b)
    (NotFound "Transaction" (show (ComponentBalance.modify_tx b)));
  component_id ← ok_or (component_ids !! ComponentBalance.component_id b)
    (NotFound "ProtocolComponent" (ComponentBalance.component_id b));
  Ok (WithOrdinal.mk
        (EUpdate (NewComponentBalance.new token_id (ComponentBalance.balance b)
           (ComponentBalance.balance_float b) None tx_id component_id tx_ts))
        (component_id, token_id, tx_ts, tx_index)).

Definition ordinal4_le {T} (a b : WithOrdinal.t T (Z * Z * Z * Z)) : bool :=
  let '(c1, k1, t1, i1) := WithOrdinal.ordinal a in
  let '(c2, k2, t2, i2) := WithOrdinal.ordinal b in
  cmp_le (then_cmp (Z.compare c1 c2) (then_cmp (Z.compare k1 k2)
            (then_cmp (Z.compare t1 t2) (Z.compare i1 i2)))).

Definition add_component_balances (chain_db_id : result StorageError Z)
    (transactions : gmap Bytes TxInfo) (token_ids : gmap Bytes Z) (component_ids : gmap string Z)
    (retention_horizon : Z) (component_balances : list ComponentBalance.t)
    (table : PartitionedTable.t NewComponentBalance.t (Z * Z)) :
    result StorageError (PartitionedTable.t NewComponentBalance.t (Z * Z)) :=
  _ ← chain_db_id;
  new ← mapM (component_balance_entry transactions token_ids component_ids) component_balances;
  match component_balances with
  | [] => Ok table
  | _ =>
      let sorted := WithOrdinal.entity <$> sort_by ordinal4_le new in
      '(latest, to_archive, _) ← apply_partitioned_versioning (fun _ => EmptyString) sorted
                                   retention_horizon table;
      Ok (PartitionedTable.upsert_latest latest (PartitionedTable.insert_archive to_archive table))
  end.

(** Rows with the external id of the component, the address of the token, and the hash and the
    index of the transaction. *)
Definition joined_balances (external : gmap Z string) (addresses : gmap Z Bytes)
    (transactions : gmap Z (Bytes * Z)) (rows : list NewComponentBalance.t) :
    list (NewComponentBalance.t * (string * Bytes * Bytes * Z)) :=
  omap (fun r =>
    ext ← external !! NewComponentBalance.protocol_component_id r;
    address ← addresses !! NewComponentBalance.token_id r;
    tx ← transactions !! NewComponentBalance.modify_tx r;
    Some (r, (ext, address, tx.1, tx.2))) rows.

Definition get_balance_deltas (external : gmap Z string) (addresses : gmap Z Bytes)
    (transactions : gmap Z (Bytes * Z)) (start_ts target_ts : Z) (table : BalanceTable) :
    list ComponentBalance.t :=
  let rows := joined_balances external addresses transactions (PartitionedTable.rows table) in
  let entity_cmp (a b : NewComponentBalance.t) :=
    then_cmp (Z.compare (NewComponentBalance.protocol_component_id a) (NewComponentBalance.protocol_component_id b))
      (Z.compare (NewComponentBalance.token_id a) (NewComponentBalance.token_id b)) in
  if (start_ts <=? target_ts)%Z then
    (fun x : NewComponentBalance.t * (string * Bytes * Bytes * Z) =>
       let '(r, (ext, address, hash, _)) := x in
       ComponentBalance.mk address (NewComponentBalance.new_balance r) (NewComponentBalance.balance_float r) hash ext) <$>
    distinct_on (fun x : NewComponentBalance.t * (string * Bytes * Bytes * Z) => get_id x.1)
      (sort_by (fun a b => cmp_le (then_cmp (entity_cmp a.1 b.1)
          (then_cmp (Z.compare (NewComponentBalance.valid_from b.1) (NewComponentBalance.valid_from a.1))
             (Z.compare b.2.2 a.2.2))))
       (base.filter (fun x : NewComponentBalance.t * (string * Bytes * Bytes * Z) =>
          (start_ts < NewComponentBalance.valid_from x.1)%Z ∧ (NewComponentBalance.valid_from x.1 ≤ target_ts)%Z ∧
          (target_ts < NewComponentBalance.valid_to x.1)%Z) rows))
  else
    (fun x : NewComponentBalance.t * (string * Bytes * Bytes * Z) =>
       let '(r, (ext, address, hash, _)) := x in
       ComponentBalance.mk address (NewComponentBalance.previous_value r) S754_nan hash ext) <$>
    distinct_on (fun x : NewComponentBalance.t * (string * Bytes * Bytes * Z) => get_id x.1)
      (sort_by (fun a b => cmp_le (then_cmp (entity_cmp a.1 b.1)
          (then_cmp (Z.compare (NewComponentBalance.valid_from a.1) (NewComponentBalance.valid_from b.1))
             (Z.compare a.2.2 b.2.2))))
       (base.filter (fun x : NewComponentBalance.t * (string * Bytes * Bytes * Z) =>
          (target_ts ≤ NewComponentBalance.valid_from x.1)%Z ∧ (NewComponentBalance.valid_from x.1 < start_ts)%Z ∧
          (target_ts < NewComponentBalance.valid_to x.1)%Z) rows)).

(** The changed slots of the accounts of one transaction. *)
Definition slot_entries (tx_ids : gmap Z (Z * Z)) (account_ids : gmap Bytes Z)
    (e : Z * gmap Bytes (gmap Bytes (option Bytes))) :
    result StorageError (list (WithOrdinal.t (VersioningEntry NewSlot.t (Z * Bytes)) (Z * Bytes * Z * Z))) :=
  let '(modify_tx, contract_storage) := e in
  '(tx_index, block_ts) ← ok_or (tx_ids !! modify_tx)
    (NoRelatedEntity "Transaction" "ContractStorage" (pretty.pretty modify_tx));
  l ← mapM (fun kv : Bytes * gmap Bytes (option Bytes) =>
    account_id ← ok_or (account_ids !! kv.1) (NoRelatedEntity "Account" "ContractStorage" (show kv.1));
    Ok ((fun sv : Bytes * option Bytes =>
      WithOrdinal.mk
        (EUpdate (NewSlot.mk sv.1 sv.2 None account_id modify_tx tx_index block_ts MAX_TS))
        (account_id, sv.1, block_ts, tx_index)) <$> map_to_list kv.2)) (map_to_list contract_storage);
  Ok (mjoin l).

Definition slot_ordinal_le {T} (a b : WithOrdinal.t T (Z * Bytes * Z * Z)) : bool :=
  let '(c1, k1, t1, i1) := WithOrdinal.ordinal a in
  let '(c2, k2, t2, i2) := WithOrdinal.ordinal b in
  cmp_le (then_cmp (Z.compare c1 c2) (then_cmp (bytes_cmp k1 k2)
            (then_cmp (Z.compare t1 t2) (Z.compare i1 i2)))).

Definition upsert_slots (tx_ids : gmap Z (Z * Z)) (account_ids : gmap Bytes Z) (retention_horizon : Z)
    (slots : gmap Z (gmap Bytes (gmap Bytes (option Bytes))))
    (table : PartitionedTable.t NewSlot.t (Z * Bytes)) :
    result StorageError (PartitionedTable.t NewSlot.t (Z * Bytes)) :=
  new_entries ← mapM (slot_entries tx_ids account_ids) (map_to_list slots);
  let sorted := WithOrdinal.entity <$> sort_by slot_ordinal_le (mjoin new_entries) in
  '(latest, to_archive, _) ← apply_partitioned_versioning (fun _ => EmptyString) sorted
                               retention_horizon table;
  Ok (PartitionedTable.insert_archive to_archive (PartitionedTable.upsert_latest latest table)).

(** The slots of accounts at a version: [get_contract_slots] with
    [construct_account_to_contract_store]. *)
Definition get_contract_slots (addresses : gmap Z Bytes) (ids : list Z) (version_ts : Z)
    (table : PartitionedTable.t NewSlot.t (Z * Bytes)) :
    result StorageError (gmap Bytes (gmap Bytes (option Bytes))) :=
  let slots :=
    distinct_on (@get_id _ _ NewSlot.row)
      (sort_by (fun a b => cmp_le
         (then_cmp (Z.compare (NewSlot.account_id a) (NewSlot.account_id b))
           (then_cmp (bytes_cmp (NewSlot.slot a) (NewSlot.slot b))
             (then_cmp (Z.compare (NewSlot.valid_from b) (NewSlot.valid_from a))
               (Z.compare (NewSlot.ordinal b) (NewSlot.ordinal a))))))
       (base.filter (fun r => NewSlot.account_id r ∈ ids ∧ (NewSlot.valid_from r ≤ version_ts)%Z ∧
          (version_ts < NewSlot.valid_to r)%Z) (PartitionedTable.rows table))) in
  foldM (fun result r =>
    account_address ← ok_or (addresses !! NewSlot.account_id r)
      (DecodeError (String.append "Failed to find contract address for id " (pretty.pretty (NewSlot.account_id r))));
    Ok (<[account_address := <[NewSlot.slot r := NewSlot.value r]> (default ∅ (result !! account_address))]> result))
    ∅ slots.


(** * Account balances *)

Definition account_balance_entry (transactions : gmap Bytes TxInfo) (token_ids account_ids : gmap Bytes Z)
    (b : AccountBalance.t) : result StorageError (WithOrdinal.t NewAccountBalance.t (Z * Z * Z * Z)) :=
  token_id ← ok_or (token_ids !! AccountBalance.token b) (NotFound "Token" (show (AccountBalance.token b)));
  account_id ← ok_or (account_ids !! AccountBalance.account b)
    (NotFound "Account" (show (AccountBalance.account b)));
  '(tx_id, tx_index, tx_ts) ← ok_or (transactions !! AccountBalance.modify_tx b)
    (NotFound "Transaction" (show (AccountBalance.modify_tx b)));
  Ok (WithOrdinal.mk
        (NewAccountBalance.mk (AccountBalance.balance b) account_id token_id tx_id tx_ts None)
        (account_id, token_id, tx_ts, tx_index)).

(** [next_pk]: the next key of the sequence of the table; [violation]: what the database says
    of rows that break its unique constraint. *)
Definition add_account_balances (chain_db_id : result StorageError Z)
    (transactions : gmap Bytes TxInfo) (token_ids account_ids : gmap Bytes Z) (next_pk : Z) (violation : string)
    (account_balances : list AccountBalance.t) (table : list OrmAccountBalance.t) :
    result StorageError (list OrmAccountBalance.t) :=
  _ ← chain_db_id;
  new ← mapM (account_balance_entry transactions token_ids account_ids) account_balances;
  match account_balances with
  | [] => Ok table
  | _ =>
      let sorted := WithOrdinal.entity <$> sort_by ordinal4_le new in
      '(sorted, table) ← apply_versioning sorted table;
      OrmAccountBalance.insert_all (Unexpected violation) next_pk sorted table
  end.

End gateway.
