(* ===== verification/GatewaySpec.v ===== *)
(** Theorems on the versioned tables and on the gateway methods that use them. *)

From S2P Require Import Prelude Collections Bytes Models Blockchain ReorgBuffer Versioning VersioningSpec Gateway.

(** * The rows keep the promises of [PartitionedLaws] *)

#[global] Program Instance protocol_state_laws : PartitionedLaws NewProtocolState.t (Z * string) Bytes := {|
  content := NewProtocolState.attribute_value
|}.
Solve All Obligations with done.

#[global] Program Instance component_balance_laws :
    PartitionedLaws NewComponentBalance.t (Z * Z) (Bytes * f64) := {|
  content s := (NewComponentBalance.new_balance s, NewComponentBalance.balance_float s)
|}.
Solve All Obligations with done.

#[global] Program Instance slot_laws : PartitionedLaws NewSlot.t (Z * Bytes) (option Bytes) := {|
  content := NewSlot.value
|}.
Solve All Obligations with done.

(** * Strings in order *)

Lemma ascii_compare_trans a b c : Ascii.compare a b = Lt → Ascii.compare b c = Lt → Ascii.compare a c = Lt.
Proof. unfold Ascii.compare. rewrite !N.compare_lt_iff. lia. Qed.

Lemma ascii_compare_eq a b : Ascii.compare a b = Eq ↔ a = b.
Proof.
  unfold Ascii.compare. rewrite N.compare_eq_iff. split; [|by intros ->].
  intros E. by rewrite <-(Ascii.ascii_N_embedding a), E, Ascii.ascii_N_embedding.
Qed.

Lemma string_compare_trans a b c : String.compare a b = Lt → String.compare b c = Lt → String.compare a c = Lt.
Proof.
  revert b c. induction a as [|x a IH]; intros [|y b] [|z c]; simpl; try done.
  destruct (Ascii.compare x y) eqn:E1; try done; destruct (Ascii.compare y z) eqn:E2; try done.
  - apply ascii_compare_eq in E1 as ->. rewrite E2. apply IH.
  - apply ascii_compare_eq in E1 as ->. by rewrite E2.
  - apply ascii_compare_eq in E2 as <-. by rewrite E1.
  - by rewrite (ascii_compare_trans _ _ _ E1 E2).
Qed.

Lemma string_compare_eq a b : String.compare a b = Eq ↔ a = b.
Proof.
  split; [apply String.compare_eq_iff|]. intros ->. induction b as [|x b IH]; [done|]. simpl.
  by rewrite (proj2 (ascii_compare_eq x x)).
Qed.

Lemma string_compare_antisym a b : String.compare b a = CompOpp (String.compare a b).
Proof. apply String.compare_antisym. Qed.

Lemma string_le_spec a b : string_le a b = true ↔ a = b ∨ String.compare a b = Lt.
Proof.
  unfold string_le, cmp_le. rewrite <-string_compare_eq. destruct (String.compare a b); naive_solver.
Qed.

Lemma string_le_antisym a b : string_le a b = true → string_le b a = true → a = b.
Proof.
  rewrite !string_le_spec. intros [|H1] [|H2]; try done. rewrite string_compare_antisym, H1 in H2. done.
Qed.

Lemma string_le_trans a b c : string_le a b = true → string_le b c = true → string_le a c = true.
Proof.
  rewrite !string_le_spec. intros [->|H1] [->|H2]; auto. right. by eapply string_compare_trans.
Qed.

Lemma string_le_total a b : string_le a b = false → string_le b a = true.
Proof.
  unfold string_le, cmp_le. rewrite (string_compare_antisym a b). by destruct (String.compare a b).
Qed.

(** * Reading attributes *)

Abbreviation StateTable := (PartitionedTable.t NewProtocolState.t (Z * string)).
Abbreviation StateHistory := (Z * string → list (Z * option Bytes)).

(** The attributes of a component as a query for it finds them. *)
Definition attributes_at (external : gmap Z string) (c : Z) (version_ts : option Z) (t : StateTable) :
    gmap string Bytes :=
  attributes_of (state_rows external [c] version_ts t).

Lemma attributes_of_lookup l a v :
  (∀ x y, x ∈ l → y ∈ l → NewProtocolState.attribute_name x.1 = NewProtocolState.attribute_name y.1 →
     NewProtocolState.attribute_value x.1 = NewProtocolState.attribute_value y.1) →
  attributes_of l !! a = Some v ↔
    ∃ x, x ∈ l ∧ NewProtocolState.attribute_name x.1 = a ∧ NewProtocolState.attribute_value x.1 = v.
Proof.
  apply (collect_lookup (fun x : NewProtocolState.t * string => NewProtocolState.attribute_name x.1)
    (fun x => NewProtocolState.attribute_value x.1)).
Qed.

Lemma elem_of_joined external rows x :
  x ∈ joined external rows ↔ x.1 ∈ rows ∧ external !! NewProtocolState.protocol_component_id x.1 = Some x.2.
Proof.
  unfold joined. rewrite list_elem_of_omap. destruct x as [r ext]. simpl. split.
  - intros (r' & Hr' & He). destruct (external !! _) as [e|] eqn:E; simpl in He; [|done].
    injection He as -> ->. done.
  - intros [Hr E]. exists r. split; [done|]. by rewrite E.
Qed.

Lemma elem_of_state_rows external c version_ts t x :
  x ∈ state_rows external [c] version_ts t ↔
    x.1 ∈ PartitionedTable.rows t ∧ NewProtocolState.protocol_component_id x.1 = c ∧
    external !! c = Some x.2 ∧ valid_for version_ts x.1 = true.
Proof.
  unfold state_rows. rewrite list_elem_of_filter, elem_of_joined, list_elem_of_singleton.
  unfold is_true. naive_solver.
Qed.

Lemma valid_for_spec {N Id} `{!PartitionedVersionedRow N Id} ts (r : N) : valid_for (Some ts) r = true ↔ valid ts r.
Proof. unfold valid_for, valid. simpl. rewrite andb_true_iff, Z.ltb_lt, Z.leb_le. tauto. Qed.

(** The attributes of the rows of a component that are valid at a time are the values of the
    histories. *)
Lemma attributes_of_value horizon (h : StateHistory) t c ext ts a l :
  represents horizon h t → (horizon ≤ ts < MAX_TS)%Z →
  (∀ x, x ∈ l ↔ x.1 ∈ PartitionedTable.rows t ∧ x.2 = ext ∧ NewProtocolState.protocol_component_id x.1 = c ∧ valid ts x.1) →
  attributes_of l !! a = value_at ts (h (c, a)).
Proof.
  intros Hrep Hts Hin. apply option_eq. intros v. rewrite attributes_of_lookup.
  - rewrite <-(rep_reads _ _ _ Hrep (c, a) ts v Hts). unfold reads. setoid_rewrite Hin. split.
    + intros (x & (Hr & _ & <- & Hv) & <- & <-). by exists x.1.
    + intros (r & Hr & [= <- <-] & Hv & <-). by exists (r, ext).
  - intros x y (Hx & _ & Cx & Vx)%Hin (Hy & _ & Cy & Vy)%Hin E.
    pose proof (rep_reads _ _ _ Hrep (c, NewProtocolState.attribute_name x.1) ts) as Hr.
    assert (value_at ts (h (c, NewProtocolState.attribute_name x.1)) = Some (NewProtocolState.attribute_value x.1)) as E1.
    { apply Hr; [done|]. exists x.1. simpl. by rewrite Cx. }
    assert (value_at ts (h (c, NewProtocolState.attribute_name x.1)) = Some (NewProtocolState.attribute_value y.1)) as E2.
    { apply Hr; [done|]. exists y.1. simpl. by rewrite Cy, E. }
    congruence.
Qed.

Lemma attributes_at_value horizon (h : StateHistory) t external c ext ts a :
  represents horizon h t → external !! c = Some ext → (horizon ≤ ts < MAX_TS)%Z →
  attributes_at external c (Some ts) t !! a = value_at ts (h (c, a)).
Proof.
  intros Hrep Hext Hts. apply (attributes_of_value horizon h t c ext); [done..|].
  intros x. rewrite elem_of_state_rows, valid_for_spec, Hext. naive_solver.
Qed.

(** No version is later than the marker for the latest one. *)
Definition bounded (h : StateHistory) : Prop := ∀ id x, x ∈ h id → (x.1 ≤ MAX_VERSION_TS)%Z.

(** Without a version the rows of the latest one are found. *)
Lemma attributes_at_latest horizon (h : StateHistory) t external c :
  represents horizon h t → bounded h →
  attributes_at external c None t = attributes_at external c (Some MAX_VERSION_TS) t.
Proof.
  intros Hrep Hb. unfold attributes_at, state_rows. f_equal. apply filter_agree.
  intros x [Hx _]%elem_of_joined. f_equiv. unfold valid_for, is_true. simpl.
  rewrite !andb_true_iff, Z.ltb_lt, Z.leb_le. split; [|tauto]. intros [Hto _]. split; [done|].
  assert (∀ id y, last (h id) = Some y → (y.1 ≤ MAX_VERSION_TS)%Z) as Hlast.
  { intros id y Hl. apply (Hb id). apply last_Some in Hl as [l ->]. set_solver. }
  apply elem_of_app in Hx as [Hx|Hx].
  - apply list_elem_of_fmap in Hx as ([id r] & E & Hr%elem_of_map_to_list). simpl in E. rewrite E.
    destruct (rep_current _ _ _ Hrep id r Hr) as (_ & _ & Hl). apply (Hlast _ _ Hl).
  - destruct (rep_ended _ _ _ Hrep _ Hx) as (y & Hl & Hle). specialize (Hlast _ _ Hl). simpl in Hle. lia.
Qed.

(** * Writing state deltas *)

Lemma value_at_later {V} ts (w1 w2 : list (Z * option V)) :
  (∀ x, x ∈ w2 → (x.1 ≤ ts)%Z) → value_at ts (w1 ++ w2) = foldl (fun _ x => x.2) (value_at ts w1) w2.
Proof.
  unfold value_at. rewrite foldl_app. generalize (foldl (fun acc x => if (x.1 <=? ts)%Z then x.2 else acc) None w1) as o.
  induction w2 as [|x w2 IH]; intros o Hw; simpl; [done|].
  rewrite (proj2 (Z.leb_le _ _)) by (apply Hw; left). apply IH. intros; apply Hw; by right.
Qed.

Lemma filter_one {A} (P : A → Prop) `{!∀ x, Decision (P x)} (l : list A) x :
  NoDup l → x ∈ l → (∀ y, y ∈ l → P y → y = x) → P x → base.filter P l = [x].
Proof.
  induction l as [|y l IH]; intros Hn Hx HP Px; [set_solver|]. apply NoDup_cons in Hn as [Hy Hn].
  rewrite filter_cons. destruct (decide (P y)) as [Py|Hny].
  - assert (y = x) as -> by (apply HP; [left|done]). f_equal. apply filter_none, Forall_forall.
    intros z Hz Pz. apply Hy. rewrite <-(HP z); [done|by right|done].
  - apply IH; [done| |intros; apply HP; [by right|done]|done]. apply elem_of_cons in Hx as [->|]; done.
Qed.

Lemma mjoin_cons {A} (l : list A) ls : mjoin (l :: ls) = l ++ mjoin ls.
Proof. done. Qed.

Lemma filter_fmap {A B} (f : A → B) (P : B → Prop) `{!∀ x, Decision (P x)} (l : list A) :
  base.filter P (f <$> l) = f <$> base.filter (fun x => P (f x)) l.
Proof.
  induction l as [|x l IH]; [done|]. rewrite fmap_cons, !filter_cons, IH. by destruct (decide (P (f x))).
Qed.

(** The writes of one delta to the attribute [a]. *)
Definition attr_writes (ts : Z) (d : ProtocolComponentStateDelta.t) (a : string) : list (Z * option Bytes) :=
  (match ProtocolComponentStateDelta.updated_attributes d !! a with Some v => [(ts, Some v)] | None => [] end) ++
  (if decide (a ∈ ProtocolComponentStateDelta.deleted_attributes d) then [(ts, None)] else []).

Section update.
Context (show : Bytes → string) (debug_state_id : Z * string → string).
Context (txns : gmap Bytes (Z * Z * Z)) (components : gmap string Z).

Abbreviation ordinal_entry := (WithOrdinal.t (VersioningEntry NewProtocolState.t (Z * string)) (Z * string * Z * Z)).
Definition goes_to (id : Z * string) (w : ordinal_entry) : Prop := entry_id (WithOrdinal.entity w) = id.
#[local] Instance goes_to_dec id w : Decision (goes_to id w).
Proof. unfold goes_to. apply _. Defined.

(** What one delta contributes to an attribute of the component with the id [c]. *)
Definition delta_writes (c : Z) (a : string) (x : Bytes * ProtocolComponentStateDelta.t) : list (Z * option Bytes) :=
  match txns !! x.1, components !! ProtocolComponentStateDelta.component_id x.2 with
  | Some (_, _, ts), Some c0 => if decide (c0 = c) then attr_writes ts x.2 a else []
  | _, _ => []
  end.

Lemma state_entries_writes x l c a :
  state_entries show txns components x = Ok l →
  (write_of ∘ WithOrdinal.entity <$> base.filter (goes_to (c, a)) l) = delta_writes c a x ∧
  ∃ tx_id tx_index ts, txns !! x.1 = Some (tx_id, tx_index, ts) ∧
    ∀ w, w ∈ base.filter (goes_to (c, a)) l → WithOrdinal.ordinal w = (c, a, ts, tx_index).
Proof.
  destruct x as [tx d]. unfold state_entries, delta_writes. simpl.
  destruct (txns !! tx) as [[[tx_id tx_index] ts]|]; simpl; [|done].
  destruct (components !! _) as [c0|]; simpl; [|done]. intros [= <-]. split; last first.
  { exists tx_id, tx_index, ts. split; [done|]. intros w [Hg Hw]%list_elem_of_filter. unfold goes_to in Hg.
    apply elem_of_app in Hw as [(kv & -> & _)%list_elem_of_fmap|(k & -> & _)%list_elem_of_fmap];
      simpl in *; by injection Hg as -> ->. }
  rewrite filter_app, fmap_app, !filter_fmap, <-!list_fmap_compose. unfold attr_writes, goes_to. simpl.
  destruct (decide (c0 = c)) as [->|Hne]; last first.
  { rewrite !filter_none; [done|apply Forall_forall..]; intros ? _ [= ? _]; congruence. }
  f_equal.
  - destruct (ProtocolComponentStateDelta.updated_attributes d !! a) as [v|] eqn:Ev.
    + rewrite (filter_one _ _ (a, v)); [done|apply NoDup_map_to_list|by apply elem_of_map_to_list| |done].
      intros [k v'] Hk%elem_of_map_to_list [= ->]. congruence.
    + rewrite filter_none; [done|]. apply Forall_forall. intros [k v] Hk%elem_of_map_to_list [= ->]. congruence.
  - case_decide as Hd.
    + rewrite (filter_one _ _ a); [done|apply NoDup_elements|by apply elem_of_elements| |done]. by intros y _ [= ->].
    + rewrite filter_none; [done|]. apply Forall_forall. intros k Hk%elem_of_elements [= ->]. done.
Qed.

(** The transactions of the deltas are in the order of their execution. *)
Definition executed (new : list (Bytes * ProtocolComponentStateDelta.t)) : Prop :=
  StronglySorted (fun x y => ∀ i1 x1 t1 i2 x2 t2,
    txns !! x.1 = Some (i1, x1, t1) → txns !! y.1 = Some (i2, x2, t2) →
    (t1 < t2 ∨ t1 = t2 ∧ x1 ≤ x2)%Z) new.

Abbreviation entries_of := (Forall2 (fun x l => state_entries show txns components x = Ok l)).

Lemma batch_writes new ls c a :
  entries_of new ls →
  (write_of ∘ WithOrdinal.entity <$> base.filter (goes_to (c, a)) (mjoin ls)) = mjoin (delta_writes c a <$> new).
Proof.
  induction 1 as [|x l new ls Hx _ IH]; [done|].
  rewrite fmap_cons, !mjoin_cons, filter_app, fmap_app. by rewrite (proj1 (state_entries_writes x l c a Hx)), IH.
Qed.

Lemma batch_ordinal new ls c a w :
  entries_of new ls → w ∈ base.filter (goes_to (c, a)) (mjoin ls) →
  ∃ x tx_id tx_index ts, x ∈ new ∧ txns !! x.1 = Some (tx_id, tx_index, ts) ∧
    WithOrdinal.ordinal w = (c, a, ts, tx_index).
Proof.
  induction 1 as [|x l new ls Hx _ IH]; [simpl; intros Hw%list_elem_of_filter; set_solver|].
  rewrite mjoin_cons, filter_app. intros [Hw|Hw]%elem_of_app.
  - destruct (state_entries_writes x l c a Hx) as (_ & tx_id & tx_index & ts & Htx & Hord).
    exists x, tx_id, tx_index, ts. split_and!; [left|done|by apply Hord].
  - destruct (IH Hw) as (y & tx_id & tx_index & ts & Hy & ?). exists y, tx_id, tx_index, ts. split; [by right|done].
Qed.

Lemma state_ordinal_le_spec w1 w2 c a t1 i1 t2 i2 :
  WithOrdinal.ordinal w1 = (c, a, t1, i1) → WithOrdinal.ordinal w2 = (c, a, t2, i2) →
  (t1 < t2 ∨ t1 = t2 ∧ i1 ≤ i2)%Z → state_ordinal_le w1 w2 = true.
Proof.
  unfold state_ordinal_le. intros -> -> Hle. rewrite Z.compare_refl, (proj2 (string_compare_eq a a)) by done. simpl.
  destruct Hle as [Hlt|[-> Hle]].
  - by rewrite (proj2 (Z.compare_lt_iff t1 t2)).
  - rewrite Z.compare_refl. simpl. apply Z.compare_le_iff in Hle. unfold cmp_le. by destruct (i1 ?= i2)%Z.
Qed.

Lemma batch_sorted new ls c a :
  executed new → entries_of new ls →
  StronglySorted (fun x y => state_ordinal_le x y = true) (base.filter (goes_to (c, a)) (mjoin ls)).
Proof.
  intros Hex Hls. revert Hex. induction Hls as [|x l new ls Hx Hls IH]; [constructor|].
  intros [Hex Hhead]%StronglySorted_inv. rewrite Forall_forall in Hhead.
  destruct (state_entries_writes x l c a Hx) as (_ & tx_id & tx_index & ts & Htx & Hord).
  rewrite mjoin_cons, filter_app. apply StronglySorted_app. split_and!; [| |by apply IH].
  - intros w1 w2 Hw1 Hw2. destruct (batch_ordinal new ls c a w2 Hls Hw2) as (y & id' & index' & ts' & Hy & Hty & Ho).
    eapply state_ordinal_le_spec; [by apply Hord|exact Ho|]. by eapply (Hhead y Hy).
  - revert Hord. generalize (base.filter (goes_to (c, a)) l) as k. clear. induction k as [|w k IH]; intros Hord; [constructor|].
    constructor; [apply IH; set_solver|]. apply Forall_forall. intros w' Hw'.
    eapply state_ordinal_le_spec; [apply Hord; left|apply Hord; by right|]. right. split; lia.
Qed.

(** The entries in the order in which they are written. *)
Definition sorted_entries (ls : list (list ordinal_entry)) : list (VersioningEntry NewProtocolState.t (Z * string)) :=
  WithOrdinal.entity <$> sort_by state_ordinal_le (mjoin ls).

Lemma sorted_writes new ls c a :
  executed new → entries_of new ls →
  writes_to (c, a) (sorted_entries ls) = mjoin (delta_writes c a <$> new).
Proof.
  intros Hex Hls. unfold writes_to, sorted_entries. rewrite filter_fmap, <-list_fmap_compose.
  rewrite <-(batch_writes new ls c a Hls). f_equal.
  apply (sort_by_stable state_ordinal_le (goes_to (c, a))). by eapply batch_sorted.
Qed.

(** The deltas of one component, applied by the models. *)
Definition apply_deltas (ext : string) (new : list (Bytes * ProtocolComponentStateDelta.t))
    (s : ProtocolComponentState.t) : ProtocolComponentState.t :=
  foldl (fun s d => ProtocolComponentState.with_state_delta d s) s
    (base.filter (fun x : Bytes * ProtocolComponentStateDelta.t =>
       ProtocolComponentStateDelta.component_id x.2 = ext) new).*2.

Lemma with_state_delta_writes ts d s a :
  ProtocolComponentState.attributes (ProtocolComponentState.with_state_delta d s) !! a =
  foldl (fun _ x => x.2) (ProtocolComponentState.attributes s !! a) (attr_writes ts d a).
Proof.
  unfold attr_writes. simpl. rewrite lookup_retain, lookup_extend.
  destruct (decide (a ∈ ProtocolComponentStateDelta.deleted_attributes d)) as [Hd|Hd];
    [rewrite bool_decide_true by done|rewrite bool_decide_false by done]; simpl;
    by destruct (ProtocolComponentStateDelta.updated_attributes d !! a).
Qed.

Lemma apply_deltas_writes new ls ext c s a :
  entries_of new ls → components !! ext = Some c → (∀ e, components !! e = Some c → e = ext) →
  ProtocolComponentState.attributes (apply_deltas ext new s) !! a =
  foldl (fun _ x => x.2) (ProtocolComponentState.attributes s !! a) (mjoin (delta_writes c a <$> new)).
Proof.
  intros Hls Hc Hinj. revert s. unfold apply_deltas. induction Hls as [|x l new ls Hx _ IH]; intros s; [done|].
  rewrite fmap_cons, mjoin_cons, foldl_app.
  destruct (state_entries_writes x l c a Hx) as (_ & tx_id & tx_index & ts & Htx & _).
  assert (∃ c0, components !! ProtocolComponentStateDelta.component_id x.2 = Some c0) as [c0 Hc0].
  { revert Hx. unfold state_entries. destruct x as [tx d]. simpl in *. rewrite Htx. simpl.
    destruct (components !! ProtocolComponentStateDelta.component_id d) as [c1|]; simpl; [intros _; by exists c1|done]. }
  replace (delta_writes c a x) with (if decide (c0 = c) then attr_writes ts x.2 a else [])
    by (unfold delta_writes; by rewrite Htx, Hc0).
  rewrite filter_cons.
  destruct (decide (ProtocolComponentStateDelta.component_id x.2 = ext)) as [He|He].
  - rewrite He, Hc in Hc0. injection Hc0 as <-. rewrite decide_True by done. simpl. rewrite IH.
    by rewrite (with_state_delta_writes ts).
  - rewrite decide_False; [apply IH|]. intros ->. by apply He, Hinj.
Qed.

(** The block of a delta is newer than what is stored for its component. *)
Definition newer_than_stored (h : StateHistory) (new : list (Bytes * ProtocolComponentStateDelta.t)) : Prop :=
  ∀ x tx_id tx_index ts, x ∈ new → txns !! x.1 = Some (tx_id, tx_index, ts) →
    (ts ≤ MAX_VERSION_TS)%Z ∧
    ∀ c a y, components !! ProtocolComponentStateDelta.component_id x.2 = Some c →
      last (h (c, a)) = Some y → (y.1 < ts)%Z.

(** The histories with the writes of the deltas at their ends. *)
Definition with_deltas (h : StateHistory) (new : list (Bytes * ProtocolComponentStateDelta.t)) : StateHistory :=
  fun id => h id ++ mjoin (delta_writes id.1 id.2 <$> new).

(** A write of the batch has the time of one of its transactions. *)
Lemma write_time new ls e :
  entries_of new ls → e ∈ sorted_entries ls →
  ∃ x tx_id tx_index ts, x ∈ new ∧ txns !! x.1 = Some (tx_id, tx_index, ts) ∧ (write_of e).1 = ts ∧
    components !! ProtocolComponentStateDelta.component_id x.2 = Some (entry_id e).1.
Proof.
  intros Hls (w & -> & Hw)%list_elem_of_fmap. rewrite sort_by_perm in Hw.
  induction Hls as [|x l new ls Hx _ IH]; [simpl in Hw; set_solver|]. rewrite mjoin_cons in Hw.
  apply elem_of_app in Hw as [Hw|Hw]; last first.
  { destruct (IH Hw) as (y & tx_id & tx_index & ts & Hy & ?). exists y, tx_id, tx_index, ts. split; [by right|done]. }
  destruct x as [tx d]. unfold state_entries in Hx. simpl in Hx.
  destruct (txns !! tx) as [[[tx_id tx_index] ts]|] eqn:Et; simpl in Hx; [|done].
  destruct (components !! ProtocolComponentStateDelta.component_id d) as [c0|] eqn:Ec; simpl in Hx; [|done]. injection Hx as <-.
  exists (tx, d), tx_id, tx_index, ts.
  apply elem_of_app in Hw as [(kv & -> & _)%list_elem_of_fmap|(k & -> & _)%list_elem_of_fmap];
    (split_and!; [left|done|done|done]).
Qed.

Lemma delta_writes_time c a x y :
  y ∈ delta_writes c a x → ∃ tx_id tx_index, txns !! x.1 = Some (tx_id, tx_index, y.1).
Proof.
  unfold delta_writes. destruct (txns !! x.1) as [[[tx_id tx_index] ts]|]; [|set_solver].
  destruct (components !! _) as [c0|]; [|set_solver]. case_decide; [|set_solver]. unfold attr_writes. intros Hy.
  exists tx_id, tx_index. destruct (_ !! a), (decide _); set_solver.
Qed.

Lemma writes_in_order new c a : executed new → in_order (mjoin (delta_writes c a <$> new)).
Proof.
  unfold in_order. induction new as [|x new IH]; intros Hex; [constructor|].
  apply StronglySorted_inv in Hex as [Hex Hhead]. rewrite Forall_forall in Hhead.
  rewrite fmap_cons, mjoin_cons, fmap_app. apply StronglySorted_app. split_and!; [| |by apply IH].
  - intros t1 t2 (y1 & -> & H1)%list_elem_of_fmap (y2 & -> & H2)%list_elem_of_fmap.
    apply list_elem_of_join in H2 as (l & H2 & (x2 & -> & Hx2)%list_elem_of_fmap).
    apply delta_writes_time in H1 as (i1 & n1 & H1), H2 as (i2 & n2 & H2).
    pose proof (Hhead x2 Hx2 _ _ _ _ _ _ H1 H2). lia.
  - assert (∀ t1 t2, t1 ∈ (delta_writes c a x).*1 → t2 ∈ (delta_writes c a x).*1 → (t1 ≤ t2)%Z) as Hall.
    { intros t1 t2 (y1 & -> & H1)%list_elem_of_fmap (y2 & -> & H2)%list_elem_of_fmap.
      apply delta_writes_time in H1 as (i1 & n1 & H1), H2 as (i2 & n2 & H2). rewrite H1 in H2. injection H2. lia. }
    revert Hall. generalize (delta_writes c a x).*1 as l. clear. induction l as [|t l IH]; intros Hall; constructor.
    + apply IH. set_solver.
    + apply Forall_forall. set_solver.
Qed.

Lemma batch_in_order (h : StateHistory) new ls :
  (∀ id, in_order (h id)) → newer_than_stored h new → executed new → entries_of new ls →
  (∀ id, in_order (extended h (sorted_entries ls) id)) ∧ fresh h (sorted_entries ls).
Proof.
  intros Hh Hnew Hex Hls. split.
  - intros [c a]. unfold extended. apply in_order_app; [done| |].
    + rewrite (sorted_writes new) by done. by apply writes_in_order.
    + intros x y Hx (e & -> & [He Hin]%list_elem_of_filter)%list_elem_of_fmap.
      destruct (write_time new ls e Hls Hin) as (x' & tx_id & tx_index & ts & Hx' & Htx & -> & Hc).
      destruct (Hnew x' tx_id tx_index ts Hx' Htx) as [_ Hlt]. rewrite He in Hc. specialize (Hlt _ _ _ Hc Hx). lia.
  - intros e x Hin Hx. destruct (write_time new ls e Hls Hin) as (x' & tx_id & tx_index & ts & Hx' & Htx & -> & Hc).
    destruct (Hnew x' tx_id tx_index ts Hx' Htx) as [_ Hlt]. destruct (entry_id e) as [c a]. apply (Hlt _ _ _ Hc Hx).
Qed.

Lemma update_writes chain_db_id retention new t t' :
  update_protocol_states show debug_state_id chain_db_id txns components retention new t = Ok t' →
  ∃ ls, entries_of new ls ∧ write_versions debug_state_id (sorted_entries ls) retention t = Ok t'.
Proof.
  unfold update_protocol_states. destruct chain_db_id; simpl; [|done..].
  destruct (mapM _ new) as [ls| |] eqn:Els; simpl; [|done..]. apply mapM_ok in Els. intros Hw. exists ls. split; [done|].
  fold (sorted_entries ls) in Hw. destruct (sorted_entries ls); [|done]. injection Hw as <-.
  destruct t as [d arch]. unfold write_versions. unfold PartitionedTable.delete_latest, PartitionedTable.upsert_latest, PartitionedTable.insert_archive. simpl. by rewrite app_nil_r.
Qed.

(** C8. A successful update with deltas in the order of their transactions, each from a block
    newer than what is stored for its component, leaves a table that holds exactly the histories
    with the writes of the deltas at their ends, from the retention horizon on; and the latest
    attributes of a component read from it are those read before with the deltas of the component
    applied in order by the models.  Component ids are one to one.  A delta that is not newer loses
    also the newer changes of its attribute in the same batch ([stale_entry_loses_update]). *)
Theorem state_update_applies_deltas chain_db_id horizon retention (h : StateHistory) t t' new external c ext :
  represents horizon h t → bounded h → (horizon ≤ retention ≤ MAX_VERSION_TS)%Z →
  executed new → newer_than_stored h new →
  components !! ext = Some c → (∀ e, components !! e = Some c → e = ext) → external !! c = Some ext →
  update_protocol_states show debug_state_id chain_db_id txns components retention new t = Ok t' →
  represents retention (with_deltas h new) t' ∧ bounded (with_deltas h new) ∧
  attributes_at external c None t' =
    ProtocolComponentState.attributes
      (apply_deltas ext new (ProtocolComponentState.new ext (attributes_at external c None t) ∅)).
Proof.
  intros Hrep Hb Hret Hex Hnew Hc Hinj Hext (ls & Hls & Hw)%update_writes.
  destruct (batch_in_order h new ls) as [Hord Hfresh]; try done; [apply (rep_ordered _ _ _ Hrep)|].
  pose proof (write_versions_spec debug_state_id horizon h t Hrep (sorted_entries ls) retention (proj1 Hret) Hfresh Hord) as Hspec.
  rewrite Hw in Hspec. destruct Hspec as [Hspec _].
  assert (bounded (extended h (sorted_entries ls))) as Hb'.
  { intros id x [Hx|(e & -> & [_ He]%list_elem_of_filter)%list_elem_of_fmap]%elem_of_app; [by eapply Hb|].
    destruct (write_time new ls e Hls He) as (x' & tx_id & tx_index & ts & Hx' & Htx & -> & _). by eapply Hnew. }
  assert (∀ id, extended h (sorted_entries ls) id = with_deltas h new id) as Hext'.
  { intros [c' a]. unfold extended, with_deltas. by rewrite (sorted_writes new ls c' a Hex Hls). }
  split_and!; [by eapply represents_ext| |].
  { intros id x. rewrite <-Hext'. apply Hb'. }
  rewrite (attributes_at_latest _ _ t' _ _ Hspec Hb'), (attributes_at_latest _ _ t _ _ Hrep Hb).
  apply map_eq. intros a.
  rewrite (attributes_at_value _ _ t' _ _ ext MAX_VERSION_TS a Hspec Hext) by (unfold MAX_VERSION_TS, MAX_TS in *; lia).
  rewrite (apply_deltas_writes new ls ext c _ a Hls Hc Hinj). cbn [ProtocolComponentState.new ProtocolComponentState.attributes].
  rewrite (attributes_at_value _ _ t _ _ ext MAX_VERSION_TS a Hrep Hext) by (unfold MAX_VERSION_TS, MAX_TS in *; lia).
  unfold extended. rewrite (sorted_writes new ls c a Hex Hls). apply value_at_later.
  intros x (l & Hl & (y & -> & Hy)%list_elem_of_fmap)%list_elem_of_join.
  apply delta_writes_time in Hl as (tx_id & tx_index & Htx). by eapply Hnew.
Qed.
End update.

(** * Changes between two versions *)

(** The head of a sorted list is all of it that has the smallest id. *)
Lemma split_while_least {A K} `{EqDecision K} (R : K → K → Prop) (id : A → K) current l :
  (∀ a b, R a b → R b a → a = b) →
  StronglySorted (fun x y => R (id x) (id y)) l → (∀ x, x ∈ l → R current (id x)) →
  split_while id current l = (base.filter (fun x => id x = current) l, base.filter (fun x => id x ≠ current) l).
Proof.
  intros antisym. induction l as [|x l IH]; intros Hs Hmin; [done|]. simpl.
  apply StronglySorted_inv in Hs as [Hs Hx]. rewrite Forall_forall in Hx. rewrite !filter_cons.
  destruct (decide (id x = current)) as [E|E].
  - rewrite IH by (done || (intros; apply Hmin; by right)). rewrite decide_False by tauto. done.
  - rewrite decide_True by done.
    assert (∀ y, y ∈ l → id y ≠ current) as Hne.
    { intros y Hy <-. apply E. apply antisym; [by apply Hx|]. apply Hmin. left. }
    rewrite filter_none, filter_every by (apply Forall_forall; naive_solver). done.
Qed.

Section delta.
Context {A : Type} (id : A → string).

Definition id_sorted (l : list A) : Prop := StronglySorted (fun x y => string_le (id x) (id y) = true) l.

Lemma split_while_sorted current l :
  id_sorted l → (∀ x, x ∈ l → string_le current (id x) = true) →
  split_while id current l = (base.filter (fun x => id x = current) l, base.filter (fun x => id x ≠ current) l).
Proof. apply (split_while_least (fun a b => string_le a b = true)). apply string_le_antisym. Qed.

Lemma id_sorted_filter P `{!∀ x, Decision (P x)} l : id_sorted l → id_sorted (base.filter P l).
Proof.
  unfold id_sorted. intros Hs. rewrite <-(list_fmap_id (base.filter P l)). apply sorted_filter. by rewrite list_fmap_id.
Qed.
End delta.

Lemma id_sorted_fmap {A B} (f : A → B) (id : B → string) (id' : A → string) l :
  (∀ x, id (f x) = id' x) → id_sorted id' l → id_sorted id (f <$> l).
Proof.
  unfold id_sorted. intros Hf. induction l as [|x l IH]; intros Hs; [constructor|].
  apply StronglySorted_inv in Hs as [Hs Hx]. rewrite fmap_cons. constructor; [by apply IH|].
  rewrite Forall_forall in Hx. apply Forall_forall. intros y (z & -> & Hz)%list_elem_of_fmap. rewrite !Hf. by apply Hx.
Qed.

Lemma filter_filter_ne {A K} `{EqDecision K} (id : A → K) c c' (l : list A) :
  c' ≠ c → base.filter (fun x => id x = c') (base.filter (fun x => id x ≠ c) l) = base.filter (fun x => id x = c') l.
Proof.
  intros Hne. induction l as [|x l IH]; [done|]. rewrite !filter_cons.
  destruct (decide (id x ≠ c)) as [E|E]; rewrite ?filter_cons, IH; [done|].
  rewrite decide_False; [done|]. destruct (decide (id x = c)); [congruence|done].
Qed.

(** The delta of one component from the two queries. *)
Definition delta_of (updates : list (NewProtocolState.t * string)) (dels : list (string * string))
    (current : string) : ProtocolComponentStateDelta.t :=
  ProtocolComponentStateDelta.new current
    (attributes_of (base.filter (fun x => x.2 = current) updates))
    (list_to_set (base.filter (fun x => x.1 = current) dels).*2).

Lemma forward_turns ids acc updates dels :
  StronglySorted (fun a b => string_le a b = true) ids → NoDup ids →
  id_sorted snd updates → id_sorted fst dels →
  (∀ x, x ∈ updates → x.2 ∈ ids) → (∀ x, x ∈ dels → x.1 ∈ ids) →
  (foldl forward_turn (acc, updates, dels) ids).1.1 = acc ++ (delta_of updates dels <$> ids).
Proof.
  revert acc updates dels. induction ids as [|c ids IH]; intros acc updates dels Hs Hnd Hu Hd Iu Id; simpl;
    [by rewrite app_nil_r|].
  apply StronglySorted_inv in Hs as [Hs Hc]. apply NoDup_cons in Hnd as [Hn Hnd]. rewrite Forall_forall in Hc.
  assert (∀ x : string, x ∈ c :: ids → string_le c x = true) as Hmin.
  { intros x [->|Hx]%elem_of_cons; [|by apply Hc]. apply string_le_spec. by left. }
  rewrite (split_while_sorted snd) by (done || (intros; apply Hmin, Iu; done)).
  rewrite (split_while_sorted fst) by (done || (intros; apply Hmin, Id; done)).
  rewrite IH; [|done|done|by apply id_sorted_filter|by apply id_sorted_filter|..].
  - rewrite <-app_assoc. f_equal. simpl. f_equal. apply list_fmap_ext. intros i x Hx.
    assert (x ≠ c) as Hne by (intros ->; by apply list_elem_of_lookup_2 in Hx).
    unfold delta_of. by rewrite (filter_filter_ne snd), (filter_filter_ne fst).
  - intros x [Hne Hx]%list_elem_of_filter. specialize (Iu x Hx). set_solver.
  - intros x [Hne Hx]%list_elem_of_filter. specialize (Id x Hx). set_solver.
Qed.

Lemma sorted_ids_spec l :
  StronglySorted (fun a b => string_le a b = true) (sorted_ids l) ∧ NoDup (sorted_ids l) ∧ ∀ x, x ∈ sorted_ids l ↔ x ∈ l.
Proof.
  unfold sorted_ids. split_and!.
  - apply sort_by_sorted; [apply string_le_trans|apply string_le_total].
  - rewrite sort_by_perm. apply NoDup_remove_dups.
  - intros x. by rewrite sort_by_perm, elem_of_remove_dups.
Qed.

(** Components were created in the order of their external ids. *)
Definition ids_in_order (external : gmap Z string) : Prop := ∀ c1 c2 e1 e2,
  external !! c1 = Some e1 → external !! c2 = Some e2 → (c1 ≤ c2)%Z → string_le e1 e2 = true.

Lemma sorted_by_external external (l : list (NewProtocolState.t * string)) :
  ids_in_order external → (∀ x, x ∈ l → external !! NewProtocolState.protocol_component_id x.1 = Some x.2) →
  id_sorted snd (sort_by_key (fun r => NewProtocolState.protocol_component_id r.1) l).
Proof.
  intros Hord Hl. pose proof (sort_by_key_sorted (fun r : NewProtocolState.t * string => NewProtocolState.protocol_component_id r.1) l) as Hs.
  assert (∀ x, x ∈ sort_by_key (fun r => NewProtocolState.protocol_component_id r.1) l →
    external !! NewProtocolState.protocol_component_id x.1 = Some x.2) as Hl'.
  { intros x. rewrite sort_by_key_perm. apply Hl. }
  revert Hs Hl'. generalize (sort_by_key (fun r : NewProtocolState.t * string => NewProtocolState.protocol_component_id r.1) l) as k.
  unfold id_sorted. induction k as [|x k IH]; intros Hs Hk; [constructor|].
  apply StronglySorted_inv in Hs as [Hs Hx]. constructor; [apply IH; [done|intros; apply Hk; by right]|].
  rewrite Forall_forall in *. intros y Hy. eapply (Hord _ _ _ _ (Hk x ltac:(left)) (Hk y ltac:(by right))). by apply Hx.
Qed.

Section forward.
Context (horizon : Z) (h : StateHistory) (t : StateTable) (Hrep : represents horizon h t).
Context (external : gmap Z string) (start_ts end_ts : Z).
Context (Hts : (horizon ≤ start_ts ≤ end_ts)%Z) (Hend : (end_ts < MAX_TS)%Z).
Context (Hinj : ∀ c1 c2 e, external !! c1 = Some e → external !! c2 = Some e → c1 = c2).
Context (c : Z) (ext : string) (Hext : external !! c = Some ext).
Abbreviation U := (forward_deltas_by_chain external start_ts end_ts t).
Abbreviation D := (deleted_attributes_by_chain external start_ts end_ts t).

(** The rows of the attribute [a]. *)
Definition row_of (a : string) (r : NewProtocolState.t) : Prop :=
  r ∈ PartitionedTable.rows t ∧ get_id r = (c, a).

Lemma row_value a r ts : (horizon ≤ ts < MAX_TS)%Z → row_of a r → valid ts r →
  value_at ts (h (c, a)) = Some (NewProtocolState.attribute_value r).
Proof. intros Hh [Hr Hid] Hv. apply (rep_reads _ _ _ Hrep); [done|]. by exists r. Qed.

Lemma value_row a ts v : (horizon ≤ ts < MAX_TS)%Z → value_at ts (h (c, a)) = Some v →
  ∃ r, row_of a r ∧ valid ts r ∧ NewProtocolState.attribute_value r = v.
Proof.
  intros Hh Hv. apply (rep_reads _ _ _ Hrep) in Hv as (r & Hr & Hid & Hv & Hc); [|done]. by exists r.
Qed.

Lemma updated_spec a v :
  attributes_of (base.filter (fun x => x.2 = ext) U) !! a = Some v ↔
    ∃ r, row_of a r ∧ (start_ts < NewProtocolState.valid_from r)%Z ∧ valid end_ts r ∧
      NewProtocolState.attribute_value r = v.
Proof.
  assert (∀ x, x ∈ base.filter (fun x => x.2 = ext) U ↔
    x.2 = ext ∧ row_of (NewProtocolState.attribute_name x.1) x.1 ∧
    (start_ts < NewProtocolState.valid_from x.1)%Z ∧ valid end_ts x.1) as Hin.
  { intros x. unfold forward_deltas_by_chain. rewrite list_elem_of_filter, sort_by_key_perm, list_elem_of_filter, elem_of_joined.
    unfold row_of, valid. simpl. split.
    - intros (<- & ? & Hr & He). assert (NewProtocolState.protocol_component_id x.1 = c) as -> by (by eapply Hinj). intuition lia.
    - intros (-> & [Hr [= Hid]] & ? & ?). rewrite Hid. intuition lia. }
  rewrite attributes_of_lookup.
  - setoid_rewrite Hin. split.
    + intros (x & (Hx & Hr & Hf & Hv) & <- & <-). by exists x.1.
    + intros (r & Hr & Hf & Hv & <-). exists (r, ext). destruct Hr as [Hr [= E1 E2]]. subst a.
      split_and!; try done. split; [done|]. simpl. by rewrite E1.
  - intros x y (_ & Rx & _ & Vx)%Hin (_ & Ry & _ & Vy)%Hin E. rewrite <-E in Ry.
    pose proof (row_value _ _ end_ts ltac:(lia) Rx Vx). pose proof (row_value _ _ end_ts ltac:(lia) Ry Vy). congruence.
Qed.

Lemma exists_valid_spec a r : row_of a r →
  exists_valid r end_ts t = true ↔ is_Some (value_at end_ts (h (c, a))).
Proof.
  intros [_ Hid]. unfold exists_valid. rewrite existsb_exists. setoid_rewrite <-list_elem_of_In.
  setoid_rewrite andb_true_iff. setoid_rewrite andb_true_iff. setoid_rewrite bool_decide_eq_true.
  rewrite Hid. setoid_rewrite Z.ltb_lt. setoid_rewrite Z.leb_le. split.
  - intros (r2 & Hr2 & (Hid2 & ?) & ?). rewrite (row_value a r2 end_ts); [done|lia|done|]. split; simpl; lia.
  - intros [v (r2 & [Hr2 Hid2] & [? ?] & _)%value_row]; [|lia]. exists r2. simpl in *. intuition lia.
Qed.

Lemma deleted_spec a :
  a ∈ (list_to_set (base.filter (fun x => x.1 = ext) D).*2 : gset string) ↔
    value_at end_ts (h (c, a)) = None ∧
    ∃ r, row_of a r ∧ (start_ts < NewProtocolState.valid_to r ≤ end_ts)%Z.
Proof.
  rewrite elem_of_list_to_set, list_elem_of_fmap. setoid_rewrite list_elem_of_filter.
  unfold deleted_attributes_by_chain. setoid_rewrite list_elem_of_fmap. setoid_rewrite sort_by_key_perm.
  setoid_rewrite list_elem_of_filter. setoid_rewrite elem_of_joined. split.
  - intros (y & -> & Hy & x & -> & (H1 & H2 & Hex) & Hr & He). simpl in *. subst ext.
    assert (NewProtocolState.protocol_component_id x.1 = c) as Ec by (by eapply Hinj).
    assert (row_of (NewProtocolState.attribute_name x.1) x.1) as Hrow by (split; [done|]; simpl; by rewrite Ec).
    split; [|exists x.1; split; [done|lia]].
    destruct (value_at _ _) eqn:E; [|done]. pose proof (proj2 (exists_valid_spec _ _ Hrow)) as Hv. rewrite E in Hv.
    rewrite Hv in Hex; [done|by eexists].
  - intros (Hn & r & Hrow & Hto). pose proof Hrow as [Hr [= E1 E2]]. exists (ext, a). simpl. split_and!; [done..|].
    exists (r, ext). simpl. split_and!; [by rewrite E2|lia|lia| |done|by rewrite E1].
    apply not_true_iff_false. rewrite (exists_valid_spec a r Hrow), Hn. by intros [? ?].
Qed.

(** The value at the end from the value at the start and the delta. *)
Lemma forward_value a :
  value_at end_ts (h (c, a)) =
    if decide (a ∈ (list_to_set (base.filter (fun x => x.1 = ext) D).*2 : gset string)) then None
    else match attributes_of (base.filter (fun x => x.2 = ext) U) !! a with
         | Some v => Some v
         | None => value_at start_ts (h (c, a))
         end.
Proof.
  case_decide as Hd; [by apply deleted_spec in Hd as []|].
  destruct (attributes_of _ !! a) as [v|] eqn:Eu.
  { apply updated_spec in Eu as (r & Hrow & _ & Hv & <-). by apply row_value; [lia|..]. }
  destruct (value_at end_ts (h (c, a))) as [v|] eqn:Ee.
  - destruct (value_row a end_ts v ltac:(lia) Ee) as (r & Hrow & Hv & Hc).
    destruct (decide (start_ts < NewProtocolState.valid_from r)%Z) as [Hlt|Hle].
    { rewrite (proj2 (updated_spec a v)) in Eu; [done|]. by exists r. }
    rewrite (row_value a r start_ts); [by rewrite Hc|lia|done|]. destruct Hv. split; simpl in *; lia.
  - destruct (value_at start_ts (h (c, a))) as [v|] eqn:Es; [|done]. destruct Hd. apply deleted_spec. split; [done|].
    destruct (value_row a start_ts v ltac:(lia) Es) as (r & Hrow & Hv & _). exists r. split; [done|].
    destruct (decide (NewProtocolState.valid_to r ≤ end_ts)%Z) as [|Hgt]; [destruct Hv; simpl in *; lia|].
    rewrite (row_value a r end_ts) in Ee; [done|lia|done|]. destruct Hv. split; simpl in *; lia.
Qed.
End forward.

(** C27. Going forward, from a version not before the retention horizon to one not before it, the
    deltas of a component lead from its attributes at the first version to those at the second, if
    the components of the chain were created in the order of their external ids, which are
    unique ([delta_lost_out_of_order]).  Nothing is claimed of deltas that go back
    ([reverse_delta_deletes_recreated]). *)
Theorem forward_delta_exact horizon (h : StateHistory) t external tx_order start_ts end_ts c ext :
  represents horizon h t → (horizon ≤ start_ts ≤ end_ts)%Z → (end_ts < MAX_TS)%Z →
  ids_in_order external →
  (∀ c1 c2 e, external !! c1 = Some e → external !! c2 = Some e → c1 = c2) →
  external !! c = Some ext →
  attributes_at external c (Some end_ts) t =
    ProtocolComponentState.attributes
      (foldl (fun s d => ProtocolComponentState.with_state_delta d s)
         (ProtocolComponentState.new ext (attributes_at external c (Some start_ts) t) ∅)
         (base.filter (fun d => ProtocolComponentStateDelta.component_id d = ext)
            (get_protocol_states_delta external tx_order start_ts end_ts t))).
Proof.
  intros Hrep Hts Hend Hord Hinj Hext. unfold get_protocol_states_delta. rewrite (proj2 (Z.leb_le _ _)) by lia.
  set (U := forward_deltas_by_chain _ _ _ _). set (D := deleted_attributes_by_chain _ _ _ _).
  destruct (sorted_ids_spec (U.*2 ++ D.*1)) as (S1 & S2 & S3).
  assert (id_sorted snd U) as HU.
  { apply (sorted_by_external external); [done|]. by intros x [_ [_ ?]%elem_of_joined]%list_elem_of_filter. }
  assert (id_sorted fst D) as HD.
  { unfold D, deleted_attributes_by_chain. apply (id_sorted_fmap _ _ snd); [done|]. apply (sorted_by_external external); [done|].
    by intros x [_ [_ ?]%elem_of_joined]%list_elem_of_filter. }
  rewrite forward_turns; [|done..| |]; [|intros x Hx; apply S3; set_solver..]. simpl app.
  apply map_eq. intros a. rewrite (attributes_at_value _ _ _ _ _ ext end_ts a Hrep Hext) by lia.
  rewrite (forward_value _ _ _ Hrep _ _ _ Hts Hend Hinj _ _ Hext a).
  fold U D. rewrite filter_fmap. unfold delta_of at 1. simpl.
  destruct (decide (ext ∈ sorted_ids (U.*2 ++ D.*1))) as [Hin|Hout].
  - rewrite (filter_one _ _ ext); [|done|done|done|done]. simpl. rewrite lookup_retain, lookup_extend.
    rewrite (attributes_at_value _ _ _ _ _ ext start_ts a Hrep Hext) by lia.
    case_decide; [by rewrite bool_decide_true|by rewrite bool_decide_false].
  - rewrite (filter_none _ (sorted_ids (U.*2 ++ D.*1))) by (apply Forall_forall; intros x Hx E; simpl in E; congruence).
    simpl. rewrite S3 in Hout.
    rewrite (attributes_at_value _ _ _ _ _ ext start_ts a Hrep Hext) by lia.
    rewrite !filter_none by (apply Forall_forall; intros x Hx E; apply Hout, elem_of_app; set_solver). done.
Qed.

(** * Tables that are written batch by batch *)

Section stored.
Context {N Id V : Type} `{Countable Id} `{!PartitionedVersionedRow N Id} `{!PartitionedLaws N Id V}.
Context (debug_id : Id → string).

(** The tables that batches of newer writes lead to, with the histories they were given and
    the horizon of the last one. *)
Inductive stored : Z → (Id → list (Z * option V)) → PartitionedTable.t N Id → Prop :=
| stored_new horizon : stored horizon (fun _ => []) (PartitionedTable.mk ∅ [])
| stored_batch horizon h t es retention t' :
    stored horizon h t → (horizon ≤ retention)%Z → fresh h es → (∀ id, in_order (extended h es id)) →
    write_versions debug_id es retention t = Ok t' → stored retention (extended h es) t'.

Lemma stored_represents horizon h t : stored horizon h t → represents horizon h t.
Proof.
  induction 1 as [horizon|horizon h t es retention t' _ IH Hh Hf Ho Hw].
  - split; simpl; try done; [intros; constructor|set_solver|].
    intros id ts v _. unfold reads, PartitionedTable.rows. simpl. rewrite map_to_list_empty. simpl.
    split; [intros (r & Hr & _); set_solver|done].
  - pose proof (write_versions_spec debug_id horizon h t IH es retention Hh Hf Ho) as Hs. rewrite Hw in Hs. apply Hs.
Qed.

(** C7. From its horizon on a table is read as the histories written to it: at any time a query
    finds exactly the last write up to that time, and nothing after a deletion. *)
Theorem stored_reads_history horizon h t id ts v :
  stored horizon h t → (horizon ≤ ts < MAX_TS)%Z → reads t id ts v ↔ value_at ts (h id) = Some v.
Proof. intros Hs. apply (rep_reads _ _ _ (stored_represents _ _ _ Hs)). Qed.

(** C28. A batch of writes, each newer than what is stored for its entity and those to one
    entity in order, is stored exactly if every deletion of the batch finds a value of its entity
    at that point, after the stored writes and those before it in the batch.  Otherwise it is
    rejected, and the error names the entity of the first deletion that finds none. *)
Theorem write_fails_on_missing_row horizon h t es retention :
  stored horizon h t → (horizon ≤ retention)%Z → fresh h es → (∀ id, in_order (extended h es id)) →
  ((∃ t', write_versions debug_id es retention t = Ok t') ↔ deletes_existing h [] es) ∧
  (∀ err, write_versions debug_id es retention t = Err err ↔
     ∃ pre id ts post, es = pre ++ EDeletion id ts :: post ∧ deletes_existing h [] pre ∧
       no_value (extended h pre id) ∧
       err = Unexpected (String.append "Missing deleted row with id " (debug_id id))) ∧
  write_versions debug_id es retention t ≠ Panic.
Proof.
  intros Hs%stored_represents Hh Hf Ho.
  pose proof (write_versions_spec debug_id horizon h t Hs es retention Hh Hf Ho) as Hw.
  destruct (write_versions _ _ _ _) as [t'|err|]; [destruct Hw as [_ Hw]| |done].
  - split_and!; [split; [done|by eexists]| |done]. intros err. split; [done|].
    intros (pre & id & ts & post & -> & _ & Hn & _). by destruct (Hw pre id ts post).
  - split_and!; [|intros err'; split; [by intros [= <-]|]|done].
    + split; [by intros [? ?]|]. destruct Hw as (pre & id & ts & post & -> & _ & Hn & _).
      intros Hd. by destruct (Hd pre id ts post).
    + intros Hw'. f_equal. by eapply missing_row_unique.
Qed.

(** When a batch has a stale and a newer update of the same row, the stale one takes the newer
    one with it: the current row stays, and a copy of it that ends at the newer update is
    archived. *)
Theorem stale_entry_loses_update t id old stale row retention :
  PartitionedTable.default_partition t !! id = Some old →
  get_id old = id → get_id stale = id → get_id row = id →
  (get_valid_from stale ≤ get_valid_from old < get_valid_from row)%Z → (retention < get_valid_from row)%Z →
  write_versions debug_id [EUpdate stale; EUpdate row] retention t =
    Ok (PartitionedTable.mk (PartitionedTable.default_partition t)
          (PartitionedTable.archived t ++ [(archive old row).1])).
Proof.
  intros Hold Hid Hs Hr Hts Hret. destruct t as [d arch]. simpl in *.
  unfold write_versions, apply_partitioned_versioning, PartitionedTable.latest_versions_by_ids.
  cbn [fmap list_fmap entry_id omap list_omap PartitionedTable.default_partition]. rewrite Hs, Hr, Hold.
  unfold set_partitioned_versioning_attributes. cbn [foldl]. rewrite Hid, insert_insert_eq, insert_empty.
  unfold foldM. cbn [foldl mbind result_bind version_entry]. unfold is_stale_entry.
  rewrite Hs, Hr, lookup_singleton_eq.
  rewrite (proj2 (Z.leb_le (get_valid_from stale) _)), (proj2 (Z.leb_gt (get_valid_from row) _)) by lia.
  cbn [mbind result_bind latest archived deleted to_skip]. rewrite lookup_singleton_eq.
  pose proof (archive_ends old row) as (_ & _ & Hto & _).
  destruct (archive old row) as [old' row']. cbn [mbind result_bind latest archived deleted to_skip fst] in *.
  assert (retain (fun i => negb (bool_decide (i ∈ (∅ ∪ {[id]} : gset Id)))) (<[id := row']> {[id := old]} : gmap Id N) = ∅) as ->.
  { apply map_eq. intros i. rewrite lookup_retain, lookup_empty. destruct (decide (i = id)) as [->|Hne].
    - by rewrite bool_decide_true by set_solver.
    - by rewrite lookup_insert_ne, lookup_singleton_ne by done; destruct (negb _). }
  rewrite map_to_list_empty. replace (elements (∅ ∖ {[id]} : gset Id)) with (@nil Id); last first.
  { replace (∅ ∖ {[id]} : gset Id) with (∅ : gset Id) by set_solver. by rewrite elements_empty. }
  cbn [app]. rewrite filter_cons_True, filter_nil by lia. done.
Qed.
End stored.

(** * Witnesses and examples *)

Lemma extended_twice {N Id V} `{EqDecision Id} `{!PartitionedVersionedRow N Id, !PartitionedLaws N Id V}
    (es es' : list (VersioningEntry N Id)) id :
  extended (extended (fun _ => []) es) es' id = writes_to (V := V) id (es ++ es').
Proof. unfold extended, writes_to. by rewrite filter_app, fmap_app. Qed.

Section witnesses.
Open Scope Z_scope.

Lemma writes_ordered {N Id V} `{EqDecision Id} `{!PartitionedVersionedRow N Id, !PartitionedLaws N Id V}
    (es : list (VersioningEntry N Id)) :
  StronglySorted Z.le (write_of <$> es).*1 → ∀ id, in_order (writes_to id es).
Proof.
  unfold in_order, writes_to. intros Hs id. rewrite <-list_fmap_compose in *. by apply sorted_filter.
Qed.

Definition b1 : Bytes := [Byte.x01].
Definition b2 : Bytes := [Byte.x02].
Definition nm (id : Z * string) : string := id.2.
Definition sh (b : Bytes) : string := "".
Definition written (c : Z) (a : string) (v : Bytes) (tx ts : Z) : VersioningEntry NewProtocolState.t (Z * string) :=
  EUpdate (NewProtocolState.new c a v tx ts).

(** One attribute, written at 10, deleted at 20 and written again at 30. *)
Definition thrice := [written 1 "x" b1 1 10; EDeletion (1, "x") 20; written 1 "x" b2 3 30].
Definition empty_table : StateTable := PartitionedTable.mk ∅ [].
Definition tabled (es : list (VersioningEntry NewProtocolState.t (Z * string))) : StateTable :=
  match write_versions nm es 0 empty_table with Ok t => t | _ => empty_table end.
Definition history_of (es : list (VersioningEntry NewProtocolState.t (Z * string))) : StateHistory :=
  extended (fun _ => []) es.

Lemma tabled_stored es t :
  StronglySorted Z.le (write_of <$> es).*1 → write_versions nm es 0 empty_table = Ok t →
  stored nm 0 (history_of es) t.
Proof.
  intros Hs Hw. eapply stored_batch; [apply (stored_new nm 0)|lia|by intros e x _|by apply writes_ordered|done].
Qed.

Lemma stored_reads_history_witness :
  reads (tabled thrice) (1, "x") 15 b1 ∧ ¬ reads (tabled thrice) (1, "x") 25 b1 ∧
  reads (tabled thrice) (1, "x") 35 b2.
Proof.
  assert (stored nm 0 (history_of thrice) (tabled thrice)) as Hs.
  { apply tabled_stored; [|by vm_compute]. simpl. repeat constructor; lia. }
  pose proof (fun id ts v => stored_reads_history nm 0 _ _ id ts v Hs) as Hr.
  split_and!; rewrite Hr by (unfold MAX_TS; lia); by vm_compute.
Defined.

Lemma write_fails_on_missing_row_witness :
  write_versions nm [EDeletion (1, "x") 40; EDeletion (1, "y") 40] 5 (tabled thrice) =
    Err (Unexpected (String.append "Missing deleted row with id " (nm (1, "y")))).
Proof.
  apply (write_fails_on_missing_row nm 0 (history_of thrice) (tabled thrice)
    [EDeletion (1, "x") 40; EDeletion (1, "y") 40] 5).
  - apply tabled_stored; [simpl; repeat constructor; lia|by vm_compute].
  - lia.
  - intros e x [->| ->%list_elem_of_singleton]%elem_of_cons; [|by vm_compute].
    vm_compute. intros [= <-]. reflexivity.
  - intros id. unfold history_of. rewrite extended_twice. apply writes_ordered. simpl. repeat constructor; lia.
  - exists [EDeletion (1, "x") 40], (1, "y"), 40, []. split_and!; [reflexivity| |by vm_compute|reflexivity].
    intros l id ts l' E Hn. destruct l as [|e l]; [|by destruct l].
    injection E as <- <- <-. specialize (Hn (30, Some b2) eq_refl). discriminate Hn.
Defined.

Lemma stale_entry_loses_update_witness : ∃ t',
  write_versions nm [written 1 "x" b1 2 20; written 1 "x" b1 5 50] 5 (tabled thrice) = Ok t' ∧
  PartitionedTable.default_partition t' !! (1, "x") = Some (NewProtocolState.new 1 "x" b2 3 30).
Proof.
  eexists. split.
  - apply (stale_entry_loses_update nm (tabled thrice) (1, "x") (NewProtocolState.new 1 "x" b2 3 30)
      (NewProtocolState.new 1 "x" b1 2 20) (NewProtocolState.new 1 "x" b1 5 50) 5).
    + by vm_compute.
    + reflexivity.
    + reflexivity.
    + reflexivity.
    + simpl. lia.
    + simpl. lia.
  - by vm_compute.
Defined.

(** ** Updates of protocol states *)

Definition tx1 : Bytes := [Byte.x11].
Definition tx2 : Bytes := [Byte.x12].
Definition infos : gmap Bytes (Z * Z * Z) := {[tx1 := (7, 0, 40); tx2 := (8, 1, 40)]}.
Definition named : gmap string Z := {["pool" := 1]}.
Definition external1 : gmap Z string := {[1 := "pool"]}.
Definition change1 : Bytes * ProtocolComponentStateDelta.t :=
  (tx1, ProtocolComponentStateDelta.new "pool" {["x" := b1; "y" := b1]} ∅).
Definition change2 : Bytes * ProtocolComponentStateDelta.t :=
  (tx2, ProtocolComponentStateDelta.new "pool" {["y" := b2]} {["x"]}).
Definition updated : StateTable :=
  match update_protocol_states sh nm (Ok 1) infos named 5 [change1; change2] (tabled thrice) with
  | Ok t => t | _ => empty_table end.

Lemma thrice_history id x : x ∈ history_of thrice id → x.1 ≤ 30.
Proof.
  intros (e & -> & [_ He]%list_elem_of_filter)%list_elem_of_fmap.
  repeat (apply elem_of_cons in He as [->|He]; [vm_compute; intros [=]|]). by apply elem_of_nil in He.
Qed.

Lemma infos_time x tx_id tx_index ts : infos !! x = Some (tx_id, tx_index, ts) → ts = 40.
Proof.
  unfold infos. rewrite lookup_insert_Some, lookup_singleton_Some. naive_solver.
Qed.

Lemma state_update_applies_deltas_witness :
  attributes_at external1 1 None updated = {["y" := b2]}.
Proof.
  destruct (state_update_applies_deltas sh nm infos named (Ok 1) 0 5 (history_of thrice) (tabled thrice) updated
    [change1; change2] external1 1 "pool") as (_ & _ & ->).
  - eapply stored_represents, tabled_stored; [simpl; repeat constructor; lia|by vm_compute].
  - intros id x Hx%thrice_history. unfold MAX_VERSION_TS, MAX_TS. lia.
  - unfold MAX_VERSION_TS, MAX_TS. lia.
  - apply SSorted_cons; [apply SSorted_cons; constructor|]. apply Forall_singleton.
    intros i1 x1 t1 i2 x2 t2 E1 E2. vm_compute in E1, E2. injection E1 as <- <- <-.
    injection E2 as <- <- <-. right. lia.
  - intros x tx_id tx_index ts _ ->%infos_time. split; [unfold MAX_VERSION_TS, MAX_TS; lia|].
    intros c a y _ Hy. apply last_Some in Hy as [l Hy]. pose proof (thrice_history (c, a) y) as Hle.
    rewrite Hy in Hle. specialize (Hle ltac:(set_solver)). lia.
  - by vm_compute.
  - intros e. unfold named. rewrite lookup_singleton_Some. by intros [<- _].
  - by vm_compute.
  - by vm_compute.
  - by vm_compute.
Defined.

Lemma forward_delta_exact_witness :
  attributes_at external1 1 (Some 35) (tabled thrice) = {["x" := b2]}.
Proof.
  rewrite (forward_delta_exact 0 (history_of thrice) (tabled thrice) external1 (fun _ => (0, 0)) 15 35 1 "pool").
  - by vm_compute.
  - eapply stored_represents, tabled_stored; [simpl; repeat constructor; lia|by vm_compute].
  - lia.
  - unfold MAX_TS. lia.
  - intros c1 c2 e1 e2. unfold external1. rewrite !lookup_singleton_Some. intros [_ <-] [_ <-] _. by vm_compute.
  - intros c1 c2 e. unfold external1. rewrite !lookup_singleton_Some. naive_solver.
  - by vm_compute.
Defined.

(** Two components that were not created in the order of their ids: the change of the second
    one is lost. *)
Lemma delta_lost_out_of_order :
  get_protocol_states_delta {[1 := "b"; 2 := "a"]} (fun _ => (0, 0)) 5 10
    (tabled [written 1 "x" b1 1 10; written 2 "x" b2 1 10]) =
  [ProtocolComponentStateDelta.new "a" ∅ ∅; ProtocolComponentStateDelta.new "b" {["x" := b1]} ∅].
Proof. by vm_compute. Qed.

(** Going back from 35 to 15 should bring back the value of the attribute at 15; the delta
    deletes it, because it was deleted and written again in between. *)
Lemma reverse_delta_deletes_recreated :
  attributes_at external1 1 (Some 15) (tabled thrice) = {["x" := b1]} ∧
  get_protocol_states_delta external1 (fun tx => (tx, 0)) 35 15 (tabled thrice) =
    [ProtocolComponentStateDelta.new "pool" ∅ {["x"]}].
Proof. by vm_compute. Qed.

End witnesses.
