(* ===== verification/AccountBalanceSpec.v ===== *)
(** The table of account balances holds the history of every balance: every row ends where the
    next one of its account and token starts, and a batch adds what is newer than the stored
    version of each balance. *)

From S2P Require Import Prelude Collections Bytes Models Blockchain ReorgBuffer Versioning VersioningSpec Gateway.

Open Scope tycho_scope.

Abbreviation BalanceHistory := (Z * Z → list (Z * option Bytes)).
Abbreviation Row := OrmAccountBalance.t.
Abbreviation NewRow := NewAccountBalance.t.

(** * Chains of versions *)

(** The rows of a history: start, end and value. *)
Fixpoint link {V} (w : list (Z * V)) : list (Z * option Z * V) :=
  match w with
  | [] => []
  | x :: w' => (x.1, fst <$> head w', x.2) :: link w'
  end.

(** An open row is ended at [e]. *)
Definition end_at {V} (e : Z) (x : Z * option Z * V) : Z * option Z * V :=
  (x.1.1, Some (default e x.1.2), x.2).

Lemma link_app {V} (w1 : list (Z * V)) x w2 :
  link (w1 ++ x :: w2) = (end_at x.1 <$> link w1) ++ link (x :: w2).
Proof.
  induction w1 as [|y w1 IH]; [done|]. rewrite <-app_comm_cons. cbn [link]. rewrite IH, fmap_cons.
  rewrite <-app_comm_cons. f_equal. by destruct w1.
Qed.

(** The open row of a chain is its last one. *)
Lemma link_open {V} (w : list (Z * V)) t v :
  (t, None, v) ∈ link w ↔ last w = Some (t, v).
Proof.
  induction w as [|x w IH]; simpl; [split; [set_solver|done]|]. rewrite elem_of_cons, IH. destruct w as [|y w].
  - destruct x. simpl. naive_solver.
  - simpl. naive_solver.
Qed.

(** A time is in the interval of the last row that starts up to it. *)
Lemma link_covers {V} (w : list (Z * option V)) ts v :
  in_order w →
  (∃ x, x ∈ link w ∧ (x.1.1 ≤ ts)%Z ∧ (∀ e, x.1.2 = Some e → ts < e)%Z ∧ x.2 = Some v) ↔ value_at ts w = Some v.
Proof.
  induction w as [|y w IH] using rev_ind; intros Ho; [simpl; split; [set_solver|done]|].
  rewrite value_at_snoc, link_app. setoid_rewrite elem_of_app. simpl.
  assert (∀ x, x ∈ link w → (default y.1 x.1.2 ≤ y.1)%Z) as Hend.
  { intros x Hx. destruct x as [[t [e|]] v']; simpl; [|lia].
    assert (e ∈ w.*1) as He.
    { clear -Hx. induction w as [|z w IH]; simpl in *; [set_solver|].
      apply elem_of_cons in Hx as [[= -> He ->]|Hx]; [|right; by apply IH].
      destruct w; simpl in *; simplify_eq. right. left. }
    unfold in_order in Ho. rewrite fmap_app in Ho. apply StronglySorted_app in Ho as (Hle & _ & _).
    apply Hle; [done|left]. }
  destruct (Z.leb_spec y.1 ts) as [Hy|Hy].
  - split.
    + intros (x & [Hx|Hx] & Hs & He & Hv); [|apply list_elem_of_singleton in Hx; by subst x].
      apply list_elem_of_fmap in Hx as (x' & -> & Hx'). specialize (He _ eq_refl). specialize (Hend x' Hx').
      simpl in *. lia.
    + intros Hv. exists (y.1, None, y.2). split; [right; left|]. done.
  - rewrite <-IH by (by eapply in_order_prefix). split.
    + intros (x & [Hx|Hx] & Hs & He & Hv); [|apply list_elem_of_singleton in Hx; subst x; simpl in *; lia].
      apply list_elem_of_fmap in Hx as (x' & -> & Hx'). simpl in *. exists x'. split_and!; try done.
      intros e Ee. specialize (He _ eq_refl). rewrite Ee in He. done.
    + intros (x & Hx & Hs & He & Hv). exists (end_at y.1 x). split; [left; by apply list_elem_of_fmap_2|].
      simpl. split_and!; try done. intros e [= <-]. destruct x.1.2; simpl; [by apply He|lia].
Qed.

(** * The table *)

Definition entity (s : Row) : Z * Z := (OrmAccountBalance.account_id s, OrmAccountBalance.token_id s).
Definition new_entity (n : NewRow) : Z * Z := (NewAccountBalance.account_id n, NewAccountBalance.token_id n).

(** The versions of a balance in the order of their rows. *)
Definition version (s : Row) : Z * option Z * option Bytes :=
  (OrmAccountBalance.valid_from s, OrmAccountBalance.valid_to s, Some (OrmAccountBalance.balance s)).
Definition versions (id : Z * Z) (t : list Row) : list (Z * option Z * option Bytes) :=
  version <$> base.filter (fun s => entity s = id) t.

Definition new_version (n : NewRow) : Z * option Z * option Bytes :=
  (NewAccountBalance.valid_from n, NewAccountBalance.valid_to n, Some (NewAccountBalance.balance n)).
Definition new_versions (id : Z * Z) (l : list NewRow) : list (Z * option Z * option Bytes) :=
  new_version <$> base.filter (fun n => new_entity n = id) l.
Definition write (n : NewRow) : Z * option Bytes :=
  (NewAccountBalance.valid_from n, Some (NewAccountBalance.balance n)).
Definition writes (id : Z * Z) (l : list NewRow) : list (Z * option Bytes) :=
  write <$> base.filter (fun n => new_entity n = id) l.

Record held (next_pk : Z) (h : BalanceHistory) (t : list Row) : Prop := {
  held_ordered id : in_order (h id);
  held_versions id : versions id t = link (h id);
  held_keys : NoDup (OrmAccountBalance.id <$> t);
  held_next s : s ∈ t → (OrmAccountBalance.id s < next_pk)%Z
}.

(** The balance of a query at a time. *)
Definition reads_balance (t : list Row) (id : Z * Z) (ts : Z) (v : Bytes) : Prop :=
  ∃ s, s ∈ t ∧ entity s = id ∧ (OrmAccountBalance.valid_from s ≤ ts)%Z ∧
    (∀ e, OrmAccountBalance.valid_to s = Some e → ts < e)%Z ∧ OrmAccountBalance.balance s = v.

Lemma held_reads next_pk h t id ts v :
  held next_pk h t → reads_balance t id ts v ↔ value_at ts (h id) = Some v.
Proof.
  intros Hh. rewrite <-(link_covers (h id) ts v) by apply (held_ordered _ _ _ Hh).
  rewrite <-(held_versions _ _ _ Hh id). unfold versions, reads_balance. split.
  - intros (s & Hs & <- & Hf & He & <-). exists (version s). split; [|done].
    apply list_elem_of_fmap_2, list_elem_of_filter. done.
  - intros (x & (s & -> & [<- Hs]%list_elem_of_filter)%list_elem_of_fmap & Hf & He & [= Hv]). by exists s.
Qed.

(** An entry that the stored version is not newer than. *)
Definition is_newer (h : BalanceHistory) (n : NewRow) : bool :=
  match last (h (new_entity n)) with
  | Some x => negb (NewAccountBalance.valid_from n <=? x.1)%Z
  | None => true
  end.

Definition recorded (h : BalanceHistory) (l : list NewRow) : BalanceHistory :=
  fun id => h id ++ writes id (base.filter (fun n => is_true (is_newer h n)) l).

(** * Versions of a batch *)

Lemma writes_cons id n l :
  writes id (n :: l) = (if decide (new_entity n = id) then [write n] else []) ++ writes id l.
Proof. unfold writes. rewrite filter_cons. by case_decide. Qed.

Lemma new_versions_cons id n l :
  new_versions id (n :: l) = (if decide (new_entity n = id) then [new_version n] else []) ++ new_versions id l.
Proof. unfold new_versions. rewrite filter_cons. by case_decide. Qed.

Section batch.
Context (R : Z * Z → Z * Z → Prop) (R_antisym : ∀ a b, R a b → R b a → a = b).

(** Rows of one entity are neighbours. *)
Lemma not_neighbour_absent id n l :
  StronglySorted R (id :: (new_entity <$> n :: l)) → id ≠ new_entity n → writes id (n :: l) = [].
Proof.
  intros [Hs Hid]%StronglySorted_inv Hne. rewrite fmap_cons in *. apply StronglySorted_inv in Hs as [_ Hn].
  apply Forall_cons in Hid as [Hid _]. unfold writes. rewrite filter_none; [done|].
  apply Forall_cons. split; [done|]. apply Forall_forall. intros m Hm Em.
  rewrite Forall_forall in Hn. apply Hne, R_antisym; [done|]. rewrite <-Em. apply Hn. by apply list_elem_of_fmap_2.
Qed.

Lemma close_neighbours_spec current tail upd objects upd' :
  close_neighbours current tail upd = (objects, upd') →
  StronglySorted R (new_entity <$> current :: tail) →
  Forall (fun n => NewAccountBalance.valid_to n = None) (current :: tail) →
  (∀ id, new_versions id objects = link (writes id (current :: tail))) ∧
  (∀ id, upd' !! id = if decide (id = new_entity current) then upd !! id
                      else match head (writes id tail) with Some x => Some x.1 | None => upd !! id end).
Proof.
  revert current upd objects upd'. induction tail as [|next tail IH]; intros current upd objects upd' E Hs Hf.
  { injection E as <- <-. split; intros id.
    - rewrite new_versions_cons, writes_cons. apply Forall_cons in Hf as [Hf _].
      case_decide; [|done]. unfold new_version. by rewrite Hf.
    - by case_decide. }
  rewrite fmap_cons in Hs. pose proof (not_neighbour_absent _ _ _ Hs) as Habs.
  apply StronglySorted_inv in Hs as [Hs _]. apply Forall_cons in Hf as [Hcur Hf].
  cbn [close_neighbours] in E. change (get_entity_id (VersionedRow := NewAccountBalance.row)) with new_entity in *.
  change (row_valid_from (VersionedRow := NewAccountBalance.row)) with NewAccountBalance.valid_from in *.
  case_decide as Hsame.
  - destruct (close_neighbours next tail upd) as [objs u] eqn:En. injection E as <- <-.
    destruct (IH _ _ _ _ En Hs Hf) as [Hv Hu]. split; intros id.
    + rewrite new_versions_cons, Hv, (writes_cons id current).
      match goal with |- context [decide (new_entity ?m = id)] => change (new_entity m) with (new_entity current) end.
      case_decide as Hid; [|done]. rewrite (writes_cons id next), decide_True by congruence. done.
    + rewrite Hu, Hsame, (writes_cons id next). destruct (decide (id = new_entity next)) as [->|Hne]; [done|].
      by rewrite decide_False by done.
  - destruct (close_neighbours next tail (<[_ := _]> upd)) as [objs u] eqn:En. injection E as <- <-.
    destruct (IH _ _ _ _ En Hs Hf) as [Hv Hu]. split; intros id.
    + rewrite new_versions_cons, Hv, (writes_cons id current).
      case_decide as Hid; [|done]. subst id. rewrite Habs by done. unfold new_version. by rewrite Hcur.
    + rewrite Hu. destruct (decide (id = new_entity next)) as [->|Hne].
      * rewrite decide_False by done. rewrite (writes_cons _ next), decide_True, lookup_insert_eq by done. done.
      * rewrite lookup_insert_ne by done. destruct (decide (id = new_entity current)) as [->|].
        -- rewrite writes_cons, decide_False in Habs by done. simpl in Habs. by rewrite Habs.
        -- by rewrite (writes_cons id next), decide_False by done.
Qed.

Lemma close_neighbours_length current tail upd objects upd' :
  close_neighbours current tail upd = (objects, upd') → length objects = S (length tail).
Proof.
  revert current upd objects upd'. induction tail as [|m l IH]; intros n u objects ends E; [by injection E as <- <-|].
  cbn [close_neighbours] in E. case_decide.
  all: destruct (close_neighbours m l _) as [o u'] eqn:Em; injection E as <- <-; simpl; f_equal; by eapply IH.
Qed.

(** The new rows are chains, and an entity is closed at its first one. *)
Lemma set_versioning_attributes_spec {E : Type} l :
  l ≠ [] → StronglySorted R (new_entity <$> l) → Forall (fun n => NewAccountBalance.valid_to n = None) l →
  ∃ objects ends, set_versioning_attributes (E := E) l = Ok (objects, ends) ∧
    (∀ id, new_versions id objects = link (writes id l)) ∧
    (∀ id, ends !! id = fst <$> head (writes id l)) ∧ length objects = length l.
Proof.
  destruct l as [|n l]; [done|]. intros _ Hs Hf. simpl.
  destruct (close_neighbours n l _) as [objects ends] eqn:En. exists objects, ends. split; [done|].
  destruct (close_neighbours_spec _ _ _ _ _ En Hs Hf) as [Hv Hu]. split_and!; [done| |].
  - intros id. rewrite Hu, writes_cons. destruct (decide (id = new_entity n)) as [->|Hne].
    + rewrite decide_True by done. simpl. by rewrite lookup_singleton_eq.
    + rewrite (decide_False (P := new_entity n = id)) by done. simpl. rewrite lookup_singleton_ne by done.
      by destruct (head _).
  - by eapply close_neighbours_length.
Qed.
End batch.

(** * The stored rows *)

(** An open row of an entity with new rows is ended. *)
Definition ended (ends : gmap (Z * Z) Z) (s : Row) : Row :=
  match OrmAccountBalance.valid_to s, ends !! entity s with
  | None, Some e => close_version e s
  | _, _ => s
  end.

Lemma ended_entity ends s : entity (ended ends s) = entity s.
Proof. unfold ended. by destruct (OrmAccountBalance.valid_to s), (ends !! entity s). Qed.

Lemma ended_id ends s : OrmAccountBalance.id (ended ends s) = OrmAccountBalance.id s.
Proof. unfold ended. by destruct (OrmAccountBalance.valid_to s), (ends !! entity s). Qed.

Lemma ended_versions ends t id :
  versions id (ended ends <$> t) =
    match ends !! id with Some e => end_at e <$> versions id t | None => versions id t end.
Proof.
  unfold versions. induction t as [|s t IH]; [by destruct (ends !! id)|].
  rewrite fmap_cons, !filter_cons, ended_entity. case_decide as Hid; [|done]. rewrite !fmap_cons, IH.
  unfold ended. rewrite Hid. destruct (ends !! id) as [e|]; [rewrite fmap_cons|].
  - f_equal. unfold version, end_at. by destruct (OrmAccountBalance.valid_to s) eqn:E; simpl; rewrite ?E.
  - by destruct (OrmAccountBalance.valid_to s).
Qed.

Lemma elem_of_latest_rows ids t s :
  s ∈ latest_versions_by_ids ids t ↔ s ∈ t ∧ entity s ∈ ids ∧ OrmAccountBalance.valid_to s = None.
Proof.
  unfold latest_versions_by_ids. rewrite list_elem_of_bind. setoid_rewrite list_elem_of_filter. simpl.
  unfold entity. naive_solver.
Qed.

Section table.
Context (next_pk : Z) (h : BalanceHistory) (t : list Row) (Hheld : held next_pk h t).

Lemma same_key s1 s2 : s1 ∈ t → s2 ∈ t → OrmAccountBalance.id s1 = OrmAccountBalance.id s2 → s1 = s2.
Proof. apply nodup_inj, (held_keys _ _ _ Hheld). Qed.

(** The open row of a balance is its last write. *)
Lemma open_row s :
  s ∈ t → OrmAccountBalance.valid_to s = None →
  last (h (entity s)) = Some (OrmAccountBalance.valid_from s, Some (OrmAccountBalance.balance s)).
Proof.
  intros Hs Ho. apply link_open. rewrite <-(held_versions _ _ _ Hheld). unfold versions.
  apply list_elem_of_fmap. exists s. unfold version. rewrite Ho. split; [done|]. by apply list_elem_of_filter.
Qed.

Lemma has_open_row id x : last (h id) = Some x → ∃ s, s ∈ t ∧ entity s = id ∧
  OrmAccountBalance.valid_to s = None ∧ OrmAccountBalance.valid_from s = x.1.
Proof.
  destruct x as [vf v]. intros Hl%link_open. rewrite <-(held_versions _ _ _ Hheld) in Hl.
  apply list_elem_of_fmap in Hl as (s & [= -> Ho ->] & [<- Hs]%list_elem_of_filter). by exists s.
Qed.

Lemma latest_stored ids id :
  id ∈ ids →
  foldl (fun m row => <[stored_entity_id row := stored_valid_from row]> m) (∅ : gmap (Z * Z) Z)
    (latest_versions_by_ids ids t) !! id = fst <$> last (h id).
Proof.
  intros Hid. apply option_eq. intros vf.
  rewrite (collect_lookup (A := Row) stored_entity_id stored_valid_from).
  - setoid_rewrite elem_of_latest_rows. split.
    + intros (s & (Hs & _ & Ho) & <- & <-). change (stored_entity_id s) with (entity s). by rewrite open_row.
    + intros ([vf' v] & Hl & ->)%fmap_Some. apply has_open_row in Hl as (s & Hs & <- & Ho & E). by exists s.
  - intros x y (Hx & _ & Ox)%elem_of_latest_rows (Hy & _ & Oy)%elem_of_latest_rows E.
    change (entity x = entity y) in E. pose proof (open_row x Hx Ox) as Lx. rewrite E, open_row in Lx by done.
    simpl. congruence.
Qed.

(** The update query ends the open rows of the entities it is given. *)
Lemma update_rows {E : Type} (ends : gmap (Z * Z) Z) :
  ∃ m, build_batch_update_query (E := E) (latest_versions_by_ids (map_to_list ends).*1 t) ends = Ok m ∧
    run_batch_update m t = ended ends <$> t.
Proof.
  assert (∀ id, id ∈ (map_to_list ends).*1 ↔ is_Some (ends !! id)) as Hkeys.
  { intros id. rewrite list_elem_of_fmap. split.
    - intros ([k e] & -> & Hk%elem_of_map_to_list). by exists e.
    - intros [e He]. exists (id, e). split; [done|]. by apply elem_of_map_to_list. }
  unfold build_batch_update_query.
  destruct (mapM_total (E := E) (fun o : Row => valid_to ← unwrap (ends !! stored_entity_id o); Ok (get_pk o, valid_to))
    (latest_versions_by_ids (map_to_list ends).*1 t)) as [m Hm].
  { intros s (_ & [e He]%Hkeys & _)%elem_of_latest_rows. change (stored_entity_id s) with (entity s).
    exists (get_pk s, e). by rewrite He. }
  exists m. split; [done|]. apply mapM_ok in Hm. unfold run_batch_update. apply list_fmap_ext. intros i s Hs.
  apply list_elem_of_lookup_2 in Hs. unfold ended. destruct (list_find _ m) as [[j [pk e]]|] eqn:Ef.
  - apply list_find_Some in Ef as (Hj & Epk & _). simpl in Epk.
    destruct (Forall2_lookup_r _ _ _ _ _ Hm Hj) as (o & Ho & Eo).
    apply list_elem_of_lookup_2 in Ho. apply elem_of_latest_rows in Ho as (Ht & _ & Hopen).
    destruct (ends !! stored_entity_id o) as [e'|] eqn:Ee; simpl in Eo; [|done]. injection Eo as <- <-.
    rewrite (same_key o s) in * by done. rewrite Hopen. change (stored_entity_id s) with (entity s) in Ee. by rewrite Ee.
  - apply list_find_None in Ef. destruct (OrmAccountBalance.valid_to s) eqn:Ho; [done|].
    destruct (ends !! entity s) as [e|] eqn:Ee; [|done]. exfalso.
    assert (s ∈ latest_versions_by_ids (map_to_list ends).*1 t) as Hin.
    { apply elem_of_latest_rows. split_and!; [done| |done]. apply Hkeys. by exists e. }
    apply list_elem_of_lookup in Hin as [j Hj]. destruct (Forall2_lookup_l _ _ _ _ _ Hm Hj) as (kv & Hkv & Ekv).
    change (stored_entity_id s) with (entity s) in Ekv. rewrite Ee in Ekv. injection Ekv as <-.
    rewrite Forall_forall in Ef. by apply (Ef (get_pk s, e)); [eapply list_elem_of_lookup_2|].
Qed.
End table.

(** * Adding balances *)

Lemma recorded_ordered h l id :
  in_order (h id) → in_order (writes id l) → in_order (recorded h l id).
Proof.
  intros Hh Hl. unfold recorded. apply in_order_app; [done| |].
  - unfold in_order, writes in *. rewrite list_filter_filter.
    rewrite (list_filter_iff _ (fun n => is_true (is_newer h n) ∧ new_entity n = id)) by tauto.
    rewrite <-list_filter_filter, <-list_fmap_compose in *. by apply sorted_filter.
  - intros x y Hx (n & -> & [<- [Hn _]%list_elem_of_filter]%list_elem_of_filter)%list_elem_of_fmap.
    unfold is_newer in Hn. rewrite Hx in Hn. unfold is_true in Hn. apply negb_true_iff, Z.leb_gt in Hn. simpl. lia.
Qed.

Section adding.
Context (R : Z * Z → Z * Z → Prop) (R_antisym : ∀ a b, R a b → R b a → a = b).
Context (next_pk : Z) (h : BalanceHistory) (t : list Row) (Hheld : held next_pk h t).

Lemma apply_versioning_spec {E : Type} (l : list NewRow) :
  StronglySorted R (new_entity <$> l) → Forall (fun n => NewAccountBalance.valid_to n = None) l →
  ∃ l' t', apply_versioning (E := E) l t = Ok (l', t') ∧ (length l' ≤ length l)%nat ∧
    OrmAccountBalance.id <$> t' = OrmAccountBalance.id <$> t ∧
    ∀ id, versions id t' ++ new_versions id l' = link (recorded h l id).
Proof.
  intros Hs Hf. destruct l as [|n0 l0] eqn:El.
  { exists [], t. split_and!; [done..|]. intros id. unfold recorded, new_versions, writes. simpl.
    rewrite !app_nil_r. apply (held_versions _ _ _ Hheld). }
  unfold apply_versioning. rewrite <-El in *.
  assert (base.filter (fun entry => is_true match
      foldl (fun m row => <[stored_entity_id row := stored_valid_from row]> m) (∅ : gmap (Z * Z) Z)
        (latest_versions_by_ids (get_entity_id <$> l) t) !! get_entity_id entry with
      | Some v => negb (row_valid_from entry <=? v)%Z | None => true end) l =
    base.filter (fun n => is_true (is_newer h n)) l) as ->.
  { apply filter_agree. intros n Hn. rewrite (latest_stored _ _ _ Hheld) by (by apply list_elem_of_fmap_2).
    unfold is_newer, new_entity. simpl. by destruct (last _). }
  unfold recorded. set (l1 := base.filter (fun n => is_true (is_newer h n)) l).
  assert (length l1 ≤ length l)%nat as Hlen by apply length_filter.
  destruct l1 as [|n1 l1'] eqn:El1.
  { exists [], t. split_and!; [done|simpl; lia|done|]. intros id. unfold new_versions, writes. simpl.
    rewrite !app_nil_r. apply (held_versions _ _ _ Hheld). }
  rewrite <-El1 in *.
  destruct (set_versioning_attributes_spec (E := E) R R_antisym l1) as (objects & ends & Hset & Hv & He & Hol).
  { by rewrite El1. }
  { by apply sorted_filter. }
  { rewrite Forall_forall in *. intros n [_ Hn]%list_elem_of_filter. by apply Hf. }
  rewrite Hset. cbn [mbind result_bind]. destruct (update_rows _ _ _ Hheld (E := E) ends) as (m & Hm & Hrun).
  exists objects, (ended ends <$> t). split_and!; [|lia| |].
  - destruct (latest_versions_by_ids (map_to_list ends).*1 t) eqn:Edb; [|by rewrite <-Edb, Hm in *; cbn; rewrite Hrun].
    injection Hm as <-. unfold run_batch_update in Hrun. simpl in Hrun. rewrite list_fmap_id in Hrun. by rewrite <-Hrun.
  - rewrite <-list_fmap_compose. apply list_fmap_ext. intros i s _. apply ended_id.
  - intros id. rewrite ended_versions, Hv, He, (held_versions _ _ _ Hheld id).
    destruct (writes id l1) as [|x w]; simpl; [by rewrite !app_nil_r|]. by rewrite link_app.
Qed.
End adding.

(** ** The order of a batch *)

Definition entity_le (a b : Z * Z) : Prop := (a.1 < b.1 ∨ a.1 = b.1 ∧ a.2 ≤ b.2)%Z.

Lemma entity_le_antisym a b : entity_le a b → entity_le b a → a = b.
Proof. destruct a, b. unfold entity_le. simpl. intros. f_equal; lia. Qed.

Lemma ordinal4_le_spec {T} (a b : WithOrdinal.t T (Z * Z * Z * Z)) c1 k1 t1 i1 c2 k2 t2 i2 :
  WithOrdinal.ordinal a = (c1, k1, t1, i1) → WithOrdinal.ordinal b = (c2, k2, t2, i2) →
  ordinal4_le a b = true ↔
    (c1 < c2 ∨ c1 = c2 ∧ (k1 < k2 ∨ k1 = k2 ∧ (t1 < t2 ∨ t1 = t2 ∧ i1 ≤ i2)))%Z.
Proof.
  unfold ordinal4_le, cmp_le, then_cmp. intros -> ->.
  destruct (Z.compare_spec c1 c2), (Z.compare_spec k1 k2), (Z.compare_spec t1 t2), (Z.compare_spec i1 i2);
    split; (done || lia).
Qed.

Lemma ordinal4_sorted {T} (l : list (WithOrdinal.t T (Z * Z * Z * Z))) :
  StronglySorted (fun a b => ordinal4_le a b = true) (sort_by ordinal4_le l).
Proof.
  apply sort_by_sorted.
  - intros a b c. destruct (WithOrdinal.ordinal a) as [[[??]?]?] eqn:Ea, (WithOrdinal.ordinal b) as [[[??]?]?] eqn:Eb,
      (WithOrdinal.ordinal c) as [[[??]?]?] eqn:Ec.
    rewrite (ordinal4_le_spec a b), (ordinal4_le_spec b c), (ordinal4_le_spec a c) by done. lia.
  - intros a b Hab. destruct (WithOrdinal.ordinal a) as [[[??]?]?] eqn:Ea, (WithOrdinal.ordinal b) as [[[??]?]?] eqn:Eb.
    apply not_true_iff_false in Hab. rewrite (ordinal4_le_spec a b) in Hab by done. rewrite (ordinal4_le_spec b a) by done. lia.
Qed.

Lemma mapM_no_panic {E A B} (g : A → result E B) l : (∀ a, g a ≠ Panic) → mapM g l ≠ Panic.
Proof.
  intros Hg. induction l as [|a l IH]; [done|]. cbn [mapM]. specialize (Hg a). by destruct (g a), (mapM g l).
Qed.

Section add.
Context (show : Bytes → string) (chain_db_id : result StorageError Z).
Context (transactions : gmap Bytes (Z * Z * Z)) (token_ids account_ids : gmap Bytes Z) (violation : string).

Abbreviation entry_of := (account_balance_entry show transactions token_ids account_ids).

Lemma entry_fields b w : entry_of b = Ok w → NewAccountBalance.valid_to (WithOrdinal.entity w) = None ∧
  ∃ i, WithOrdinal.ordinal w = (new_entity (WithOrdinal.entity w), NewAccountBalance.valid_from (WithOrdinal.entity w), i).
Proof.
  unfold account_balance_entry. destruct (token_ids !! _); simpl; [|done]. destruct (account_ids !! _); simpl; [|done].
  destruct (transactions !! _) as [[[tx_id tx_index] tx_ts]|]; simpl; [|done]. intros [= <-]. simpl. split; [done|by eexists].
Qed.

Lemma entry_no_panic b : entry_of b ≠ Panic.
Proof.
  unfold account_balance_entry. destruct (token_ids !! _); simpl; [|done]. destruct (account_ids !! _); simpl; [|done].
  by destruct (transactions !! _) as [[[??]?]|].
Qed.

(** The rows of a batch, in the order they are applied. *)
Definition sorted_rows (new : list (WithOrdinal.t NewRow (Z * Z * Z * Z))) : list NewRow :=
  WithOrdinal.entity <$> sort_by ordinal4_le new.

Lemma sorted_rows_spec balances new :
  mapM entry_of balances = Ok new →
  StronglySorted entity_le (new_entity <$> sorted_rows new) ∧
  Forall (fun n => NewAccountBalance.valid_to n = None) (sorted_rows new) ∧
  (∀ id, in_order (writes id (sorted_rows new))) ∧ length (sorted_rows new) = length balances.
Proof.
  intros Hnew%mapM_ok.
  assert (∀ w, w ∈ sort_by ordinal4_le new → NewAccountBalance.valid_to (WithOrdinal.entity w) = None ∧
    ∃ i, WithOrdinal.ordinal w = (new_entity (WithOrdinal.entity w), NewAccountBalance.valid_from (WithOrdinal.entity w), i)) as Hw.
  { intros w Hw. rewrite sort_by_perm in Hw. apply list_elem_of_lookup in Hw as [i Hi].
    destruct (Forall2_lookup_r _ _ _ _ _ Hnew Hi) as (b & _ & Hb). by apply (entry_fields b). }
  pose proof (ordinal4_sorted new) as Hs.
  assert (length (sorted_rows new) = length balances) as Hlen.
  { unfold sorted_rows. rewrite length_fmap, (Permutation_length (sort_by_perm _ _)). symmetry. by eapply Forall2_length. }
  split_and!; [| | |done]; unfold sorted_rows; clear Hlen.
  - induction Hs as [|w l Hs IH Hf]; [constructor|]. rewrite !fmap_cons. constructor; [apply IH; intros; apply Hw; by right|].
    rewrite Forall_forall in Hf. apply Forall_forall. intros ? (n & -> & (w' & -> & Hw')%list_elem_of_fmap)%list_elem_of_fmap.
    destruct (Hw w ltac:(left)) as (_ & i & Ew), (Hw w' ltac:(by right)) as (_ & i' & Ew').
    specialize (Hf w' Hw'). unfold new_entity in *. rewrite (ordinal4_le_spec _ _ _ _ _ _ _ _ _ _ Ew Ew') in Hf.
    unfold entity_le. simpl. lia.
  - apply Forall_forall. intros n (w & -> & Hin)%list_elem_of_fmap. by apply Hw.
  - intros id. unfold in_order, writes. induction Hs as [|w l Hs IH Hf]; [constructor|]. rewrite fmap_cons, filter_cons.
    specialize (IH ltac:(intros; apply Hw; by right)).
    case_decide as Hid; [|done]. rewrite !fmap_cons. constructor; [done|]. rewrite Forall_forall in Hf. apply Forall_forall.
    intros ? (x & -> & (n & -> & [Hn (w' & -> & Hin)%list_elem_of_fmap]%list_elem_of_filter)%list_elem_of_fmap)%list_elem_of_fmap.
    destruct (Hw w ltac:(left)) as (_ & i & Ew), (Hw w' ltac:(by right)) as (_ & i' & Ew').
    specialize (Hf w' Hin). unfold new_entity in *. rewrite (ordinal4_le_spec _ _ _ _ _ _ _ _ _ _ Ew Ew') in Hf.
    simpl. simplify_eq. lia.
Qed.

Lemma insert_versions next_pk l t t' id :
  t' = t ++ imap (fun i n => OrmAccountBalance.insert (next_pk + Z.of_nat i) n) l →
  versions id t' = versions id t ++ new_versions id l.
Proof.
  intros ->. unfold versions at 1. rewrite filter_app, fmap_app. f_equal.
  revert next_pk. induction l as [|n l IH]; intros next_pk; [done|]. rewrite imap_cons, filter_cons, new_versions_cons.
  change (entity (OrmAccountBalance.insert (next_pk + Z.of_nat 0) n)) with (new_entity n).
  rewrite (imap_ext _ (fun i n => OrmAccountBalance.insert ((next_pk + 1) + Z.of_nat i) n));
    [|intros; simpl; f_equal; lia]. specialize (IH (next_pk + 1)%Z).
  by case_decide; rewrite ?fmap_cons, IH.
Qed.

Lemma inserted_held next_pk h h' t t' l n :
  held next_pk h t → OrmAccountBalance.id <$> t' = OrmAccountBalance.id <$> t → (∀ id, in_order (h' id)) →
  (∀ id, versions id t' ++ new_versions id l = link (h' id)) → (length l ≤ n)%nat →
  held (next_pk + Z.of_nat n) h' (t' ++ imap (fun i n => OrmAccountBalance.insert (next_pk + Z.of_nat i) n) l).
Proof.
  intros Hheld Hids Ho Hv Hn.
  assert (∀ s, s ∈ imap (fun i n => OrmAccountBalance.insert (next_pk + Z.of_nat i) n) l → ∃ i : nat,
    (i < length l)%nat ∧ OrmAccountBalance.id s = (next_pk + Z.of_nat i)%Z) as Hnews.
  { intros s (i & m & -> & Hm)%elem_of_lookup_imap. exists i. split; [by eapply lookup_lt_Some|done]. }
  assert (∀ pk, pk ∈ OrmAccountBalance.id <$> t' → (pk < next_pk)%Z) as Hold.
  { rewrite Hids. intros pk (s' & -> & Hs')%list_elem_of_fmap. by apply (held_next _ _ _ Hheld). }
  split; [done| | |].
  - intros id. rewrite (insert_versions next_pk l t' _ id eq_refl). apply Hv.
  - rewrite fmap_app, NoDup_app. split_and!; [rewrite Hids; apply (held_keys _ _ _ Hheld)| |].
    + intros pk Hpk%Hold (s & -> & (i & _ & E)%Hnews)%list_elem_of_fmap. lia.
    + rewrite fmap_imap. apply NoDup_alt. intros i j pk Hi Hj. rewrite list_lookup_imap in Hi, Hj.
      destruct (l !! i), (l !! j); simplify_eq/=. lia.
  - intros s [Hin|(i & Hi & ->)%Hnews]%elem_of_app; [|lia].
    specialize (Hold (OrmAccountBalance.id s) ltac:(by apply list_elem_of_fmap_2)). lia.
Qed.

(** Adding balances to a table that holds the histories [h] gives one that holds them with what
    is newer than each balance's last version, so that a query at any time finds the last write
    up to it; it fails only for unknown ids and on the unique constraint. *)
Theorem balances_recorded next_pk h t balances :
  held next_pk h t →
  match add_account_balances show chain_db_id transactions token_ids account_ids next_pk violation balances t with
  | Ok t' => ∃ new, mapM entry_of balances = Ok new ∧
      held (next_pk + Z.of_nat (length balances)) (recorded h (sorted_rows new)) t' ∧
      ∀ id ts v, reads_balance t' id ts v ↔ value_at ts (recorded h (sorted_rows new) id) = Some v
  | Err e => chain_db_id = Err e ∨ mapM entry_of balances = Err e ∨ e = Unexpected violation
  | Panic => chain_db_id = Panic
  end.
Proof.
  intros Hheld. unfold add_account_balances. destruct chain_db_id as [c|e|]; simpl; [|by left|done].
  destruct (mapM entry_of balances) as [new|e|] eqn:Hnew; simpl; [|by right; left|by apply mapM_no_panic in Hnew; [|apply entry_no_panic]].
  destruct (sorted_rows_spec balances new Hnew) as (Hs & Hf & Ho & Hlen).
  destruct (apply_versioning_spec entity_le entity_le_antisym next_pk h t Hheld (E := StorageError) _ Hs Hf)
    as (l' & t' & Happ & Hl & Hids & Hv).
  assert (∀ t1, held (next_pk + Z.of_nat (length balances)) (recorded h (sorted_rows new)) t1 →
    ∃ new0, @Ok StorageError _ new = Ok new0 ∧ held (next_pk + Z.of_nat (length balances)) (recorded h (sorted_rows new0)) t1 ∧
      ∀ id ts v, reads_balance t1 id ts v ↔ value_at ts (recorded h (sorted_rows new0) id) = Some v) as Hreads.
  { intros t1 Ht1. exists new. split_and!; [done..|]. intros. by eapply held_reads. }
  destruct balances as [|b bs].
  { apply Hreads. apply nil_length_inv in Hlen. rewrite Hlen, Z.add_0_r. destruct Hheld as [H1 H2 H3 H4].
    unfold recorded, writes. simpl. split; try done; intros id; by rewrite app_nil_r. }
  fold (sorted_rows new). rewrite Happ. cbn [mbind result_bind]. unfold OrmAccountBalance.insert_all.
  case_decide as Hu; [|by right; right]. apply Hreads. eapply inserted_held; [done|done| |done|lia].
  intros id. apply recorded_ordered; [apply (held_ordered _ _ _ Hheld)|apply Ho].
Qed.
End add.

(** * Witness *)

Section witness.
Open Scope Z_scope.
Definition key (b : Byte.byte) : Bytes := [b].
Definition times : gmap Bytes (Z * Z * Z) := {[key Byte.x11 := (7, 0, 10); key Byte.x12 := (8, 3, 20)]}.
Definition tokens1 : gmap Bytes Z := {[key Byte.xaa := 2]}.
Definition accounts1 : gmap Bytes Z := {[key Byte.xbb := 1]}.
Definition balance_at (v tx : Byte.byte) : AccountBalance.t :=
  AccountBalance.mk (key Byte.xbb) (key Byte.xaa) (key v) (key tx).
Definition added : list Row :=
  match add_account_balances (fun _ => "") (Ok 1) times tokens1 accounts1 1 "" [balance_at Byte.x06 Byte.x12; balance_at Byte.x05 Byte.x11] [] with
  | Ok t => t | _ => [] end.

(** A batch that is not in order: the balance of the earlier transaction ends at the later one. *)
Lemma balances_recorded_witness :
  reads_balance added (1, 2) 15 (key Byte.x05) ∧ reads_balance added (1, 2) 20 (key Byte.x06).
Proof.
  pose proof (balances_recorded (fun _ => "") (Ok 1) times tokens1 accounts1 "" 1 (fun _ => []) []
    [balance_at Byte.x06 Byte.x12; balance_at Byte.x05 Byte.x11]) as H.
  replace (add_account_balances _ _ _ _ _ _ _ _ _) with (@Ok StorageError _ added) in H by (by vm_compute).
  destruct H as (new & E & _ & Hr).
  - split; [intros; constructor|done|constructor|set_solver].
  - vm_compute in E. injection E as <-. split; apply Hr; by vm_compute.
Defined.
End witness.
