(* ===== verification/StateReads.v ===== *)
(** Reading whole states from the database: [get_protocol_states] finds the attributes and the
    balances that the histories of the two tables have at the version. *)

From S2P Require Import Prelude Collections Bytes Models Blockchain ReorgBuffer Versioning VersioningSpec Gateway GatewaySpec.

Open Scope tycho_scope.

(** * Groups *)

(** On a list that is sorted by its ids, the groups are the elements of each id. *)
Lemma groups_spec {A K} `{EqDecision K} (R : K → K → Prop) (id : A → K) fuel l :
  (∀ a b, R a b → R b a → a = b) → (∀ a, R a a) →
  (length l ≤ fuel)%nat → StronglySorted (fun x y => R (id x) (id y)) l →
  ∃ keys, groups id fuel l = (fun k => (k, base.filter (fun x => id x = k) l)) <$> keys ∧
    NoDup keys ∧ ∀ k, k ∈ keys ↔ k ∈ id <$> l.
Proof.
  intros antisym refl. revert l. induction fuel as [|fuel IH]; intros l Hlen Hs.
  { exists []. split_and!; [done|constructor|]. destruct l; simpl in *; [set_solver|lia]. }
  destruct l as [|x l]; [exists []; split_and!; [done|constructor|set_solver]|]. cbn [groups].
  rewrite (split_while_least R); [|done|done|]; last first.
  { apply StronglySorted_inv in Hs as [_ Hx]. rewrite Forall_forall in Hx.
    intros y [->|Hy]%elem_of_cons; [apply refl|by apply Hx]. }
  set (rest := base.filter (fun y => id y ≠ id x) (x :: l)).
  assert (length rest ≤ length l)%nat as Hrest.
  { unfold rest. rewrite filter_cons_False by naive_solver. apply length_filter. }
  destruct (IH rest) as (keys & Hk & Hnd & Hin); [simpl in Hlen; lia| |].
  { unfold rest. rewrite <-(list_fmap_id (base.filter _ _)). apply sorted_filter. by rewrite list_fmap_id. }
  exists (id x :: keys). rewrite Hk, fmap_cons. split_and!.
  - f_equal. apply list_fmap_ext. intros i k Hi. f_equal. apply filter_filter_ne.
    apply list_elem_of_lookup_2, Hin, list_elem_of_fmap in Hi as (y & -> & [Hy _]%list_elem_of_filter). done.
  - apply NoDup_cons. split; [|done]. rewrite Hin. intros (y & E & [Hy _]%list_elem_of_filter)%list_elem_of_fmap. done.
  - intros k. rewrite elem_of_cons, Hin, !list_elem_of_fmap. unfold rest. setoid_rewrite list_elem_of_filter. split.
    + intros [->|(y & -> & _ & Hy)]; [exists x; split; [done|left]|by exists y].
    + intros (y & -> & Hy). destruct (decide (id y = id x)); [by left|right; by exists y].
Qed.

(** A loop in which no turn fails. *)
Lemma foldM_pure {E A B} (f : B → A → result E B) (g : B → A → B) b l :
  (∀ b a, a ∈ l → f b a = Ok (g b a)) → foldM f b l = Ok (foldl g b l).
Proof.
  unfold foldM. revert b. induction l as [|a l IH]; intros b Hf; [done|]. simpl. rewrite Hf by left. simpl.
  apply IH. intros; apply Hf; by right.
Qed.

(** * Balances *)

Abbreviation BalanceTable := (PartitionedTable.t NewComponentBalance.t (Z * Z)).
Abbreviation BalanceHistory := (Z * Z → list (Z * option (Bytes * f64))).

Section balances.
Context (horizon : Z) (h : BalanceHistory) (table : BalanceTable) (Hrep : represents horizon h table).
Context (ts : Z) (Hts : (horizon ≤ ts < MAX_TS)%Z).
Context (tokens : gmap Z Bytes).
Context (tokens_inj : ∀ k1 k2 a, tokens !! k1 = Some a → tokens !! k2 = Some a → k1 = k2).
Context (tokens_known : ∀ r, r ∈ PartitionedTable.rows table → is_Some (tokens !! NewComponentBalance.token_id r)).
Context (components : gmap Z string).
Context (components_inj : ∀ c1 c2 e, components !! c1 = Some e → components !! c2 = Some e → c1 = c2).

(** The rows of the query. *)
Definition balance_rows : list NewComponentBalance.t :=
  sort_by_key NewComponentBalance.protocol_component_id
    (base.filter (fun r => is_Some (components !! NewComponentBalance.protocol_component_id r) ∧
                           is_true (valid_for (Some ts) r)) (PartitionedTable.rows table)).

Lemma elem_of_balance_rows r :
  r ∈ balance_rows ↔ r ∈ PartitionedTable.rows table ∧
    is_Some (components !! NewComponentBalance.protocol_component_id r) ∧ valid ts r.
Proof.
  clear -table. unfold balance_rows. rewrite sort_by_key_perm, list_elem_of_filter. unfold is_true.
  rewrite valid_for_spec. tauto.
Qed.

(** The balances of one component by token. *)
Definition by_token (c : Z) : gmap Z (Bytes * f64) :=
  foldl (fun b r => <[NewComponentBalance.token_id r :=
      (NewComponentBalance.new_balance r, NewComponentBalance.balance_float r)]> b) ∅
    (base.filter (fun r => NewComponentBalance.protocol_component_id r = c) balance_rows).

Lemma by_token_value c k : is_Some (components !! c) → by_token c !! k = value_at ts (h (c, k)).
Proof.
  intros Hc. apply option_eq. intros v. unfold by_token.
  assert (∀ r, r ∈ base.filter (fun r => NewComponentBalance.protocol_component_id r = c) balance_rows ↔
    r ∈ PartitionedTable.rows table ∧ NewComponentBalance.protocol_component_id r = c ∧ valid ts r) as Hin.
  { intros r. rewrite list_elem_of_filter, elem_of_balance_rows. naive_solver. }
  rewrite (collect_lookup NewComponentBalance.token_id
    (fun r => (NewComponentBalance.new_balance r, NewComponentBalance.balance_float r))).
  - rewrite <-(rep_reads _ _ _ Hrep (c, k) ts v Hts). unfold reads. setoid_rewrite Hin. split.
    + intros (r & (Hr & <- & Hv) & <- & <-). by exists r.
    + intros (r & Hr & [= <- <-] & Hv & <-). by exists r.
  - intros x y (Hx & Cx & Vx)%Hin (Hy & Cy & Vy)%Hin E.
    pose proof (rep_reads _ _ _ Hrep (c, NewComponentBalance.token_id x) ts) as Hr.
    assert (∀ z, z ∈ PartitionedTable.rows table → NewComponentBalance.protocol_component_id z = c → valid ts z →
      NewComponentBalance.token_id z = NewComponentBalance.token_id x →
      value_at ts (h (c, NewComponentBalance.token_id x)) =
        Some (NewComponentBalance.new_balance z, NewComponentBalance.balance_float z)) as Hz.
    { intros z Hz Cz Vz Ez. apply Hr; [done|]. exists z. simpl. by rewrite Cz, Ez. }
    pose proof (Hz x Hx Cx Vx eq_refl). pose proof (Hz y Hy Cy Vy (eq_sym E)). congruence.
Qed.

Lemma by_token_row c k v : is_Some (components !! c) → by_token c !! k = Some v →
  ∃ r, r ∈ balance_rows ∧ NewComponentBalance.protocol_component_id r = c ∧ NewComponentBalance.token_id r = k.
Proof.
  intros Hc Hk. rewrite by_token_value in Hk by done. apply (rep_reads _ _ _ Hrep) in Hk; [|done].
  destruct Hk as (r & Hr & [= <- <-] & Hv & _). exists r. by rewrite elem_of_balance_rows.
Qed.

(** A component has balances if it has a row. *)
Lemma by_token_empty c : is_Some (components !! c) →
  by_token c = ∅ ↔ c ∉ NewComponentBalance.protocol_component_id <$> balance_rows.
Proof.
  intros Hc. split.
  - intros E (r & -> & (Hr & _ & Hv)%elem_of_balance_rows)%list_elem_of_fmap.
    assert (by_token (NewComponentBalance.protocol_component_id r) !! NewComponentBalance.token_id r =
      Some (NewComponentBalance.new_balance r, NewComponentBalance.balance_float r)) as Hk; [|by rewrite E in Hk].
    rewrite by_token_value by done. apply (rep_reads _ _ _ Hrep); [done|]. by exists r.
  - intros Hn. apply map_empty. intros k. apply eq_None_not_Some. intros [v Hk].
    apply by_token_row in Hk as (r & Hr & <- & _); [|done]. apply Hn. by apply list_elem_of_fmap_2.
Qed.

Definition address_of (k : Z) : Bytes := default [] (tokens !! k).
Definition balance_of (e : string) (kv : Z * (Bytes * f64)) : ComponentBalance.t :=
  ComponentBalance.mk (address_of kv.1) kv.2.1 kv.2.2 (replicate 32 Byte.x00) e.
Definition by_address (e : string) (m : gmap Z (Bytes * f64)) : gmap Bytes ComponentBalance.t :=
  foldl (fun b kv => <[address_of kv.1 := balance_of e kv]> b) ∅ (map_to_list m).

(** What a map of the balances of components holds for one of them. *)
Definition balances_spec (m : gmap string (gmap Bytes ComponentBalance.t)) : Prop :=
  ∀ c e, components !! c = Some e →
    m !! e = if decide (by_token c = ∅) then None else Some (by_address e (by_token c)).

Lemma get_component_balances_spec :
  ∃ m, get_component_balances components tokens (Some ts) table = Ok m ∧ balances_spec m ∧
    ∀ e, is_Some (m !! e) → ∃ c, components !! c = Some e.
Proof.
  unfold get_component_balances. fold balance_rows.
  destruct (groups_spec Z.le NewComponentBalance.protocol_component_id (length balance_rows) balance_rows)
    as (keys & -> & Hnd & Hkeys); [lia|lia|done|apply sort_by_key_sorted|].
  set (name := fun c => default "" (components !! c)).
  assert (∀ c, c ∈ keys → components !! c = Some (name c)) as Hname.
  { intros c (r & -> & (_ & [e He] & _)%elem_of_balance_rows)%Hkeys%list_elem_of_fmap. unfold name. by rewrite He. }
  rewrite (foldM_pure _ (fun m g => <[name g.1 := by_token g.1]> m)); last first.
  { intros m g (c & -> & Hc)%list_elem_of_fmap. simpl. by rewrite (Hname c Hc). }
  cbn [mbind result_bind].
  set (bm := foldl _ ∅ _).
  assert (∀ e v, bm !! e = Some v ↔ ∃ c, c ∈ keys ∧ name c = e ∧ by_token c = v) as Hbm.
  { intros e v. unfold bm. rewrite (collect_lookup (fun g : Z * list NewComponentBalance.t => name g.1) (fun g => by_token g.1)).
    - setoid_rewrite list_elem_of_fmap. split; [intros (g & (c & -> & Hc) & <- & <-); by exists c|].
      intros (c & Hc & <- & <-). eexists. split; [by exists c|done].
    - intros x y (c1 & -> & H1%Hname)%list_elem_of_fmap (c2 & -> & H2%Hname)%list_elem_of_fmap. simpl. intros E.
      rewrite E in H1. by rewrite (components_inj c1 c2 (name c2) H1 H2). }
  assert (∀ c k v, c ∈ keys → by_token c !! k = Some v → tokens !! k = Some (address_of k)) as Haddr.
  { intros c k v Hc Hk. apply by_token_row in Hk as (r & (Hr & _)%elem_of_balance_rows & _ & <-); [|by eexists; apply Hname].
    destruct (tokens_known r Hr) as [a Ha]. unfold address_of. by rewrite Ha. }
  rewrite (foldM_pure _ (fun b kv => <[kv.1 := by_address kv.1 kv.2]> b)); last first.
  { intros b [e m] (c & Hc & <- & <-)%elem_of_map_to_list%Hbm. simpl.
    rewrite (foldM_pure _ (fun b kv => <[address_of kv.1 := balance_of (name c) kv]> b)); [done|].
    intros b' [k v] Hk%elem_of_map_to_list. simpl. by rewrite (Haddr c k v Hc Hk). }
  eexists. split; [done|].
  assert (∀ e v, foldl (fun b kv => <[kv.1 := by_address kv.1 kv.2]> b) (∅ : gmap string (gmap Bytes ComponentBalance.t))
    (map_to_list bm) !! e = Some v ↔ ∃ m, bm !! e = Some m ∧ by_address e m = v) as Hres.
  { intros e v. rewrite (collect_lookup fst (fun kv => by_address kv.1 kv.2)).
    - split; [intros ([e1 m1] & H1%elem_of_map_to_list & <- & <-); by exists m1|].
      intros (m & Hm & <-). exists (e, m). by rewrite elem_of_map_to_list.
    - intros [e1 m1] [e2 m2] H1%elem_of_map_to_list H2%elem_of_map_to_list. simpl. intros ->. congruence. }
  split.
  - intros c e Hc. apply option_eq. intros v. rewrite Hres. pose proof (by_token_empty c ltac:(by eexists)) as Hemp.
    split.
    + intros (m & (c' & Hc' & <- & <-)%Hbm & <-). rewrite (components_inj c c' (name c')) by auto.
      rewrite decide_False; [done|]. rewrite by_token_empty by (eexists; by apply Hname). rewrite <-Hkeys. tauto.
    + case_decide as Hd; [done|]. intros [= <-]. exists (by_token c). split; [|done]. apply Hbm. exists c.
      split_and!; [|unfold name; by rewrite Hc|done]. apply Hkeys. apply dec_stable. by rewrite <-Hemp.
  - intros e [v (m & (c & Hc & <- & _)%Hbm & _)%Hres]. exists c. by apply Hname.
Qed.
End balances.

(** * Decoding *)

Section decode.
Context (balances : gmap string (gmap Bytes ComponentBalance.t)) (data : list (NewProtocolState.t * string)).
Context (R : string → string → Prop) (antisym : ∀ a b, R a b → R b a → a = b) (refl : ∀ a, R a a).
Context (Hs : StronglySorted (fun x y => R x.2 y.2) data).

Abbreviation rows_of e := (base.filter (fun x => x.2 = e) data).
Abbreviation balances_of e := (ComponentBalance.balance <$> default ∅ (balances !! e)).

(** One state per component with rows or balances. *)
Lemma decode_spec e :
  base.filter (fun s => ProtocolComponentState.component_id s = e) (_decode_protocol_states balances data) =
    if decide (rows_of e = [] ∧ balances !! e = None) then []
    else [ProtocolComponentState.new e (attributes_of (rows_of e)) (balances_of e)].
Proof.
  destruct (groups_spec R snd (length data) data antisym refl ltac:(lia) Hs) as (keys & Hg & Hnd & Hkeys).
  unfold _decode_protocol_states. rewrite Hg.
  assert (∀ states (b : gmap string (gmap Bytes ComponentBalance.t)), NoDup keys → foldl (fun acc g => let '(states, balances) := acc in
      (states ++ [ProtocolComponentState.new g.1 (attributes_of g.2) (ComponentBalance.balance <$> default ∅ (balances !! g.1))],
       delete g.1 balances)) (states, b) ((fun k => (k, rows_of k)) <$> keys) =
    (states ++ ((fun k => ProtocolComponentState.new k (attributes_of (rows_of k))
        (ComponentBalance.balance <$> default ∅ (b !! k))) <$> keys), foldl (fun m k => delete k m) b keys)) as Hfold.
  { clear. induction keys as [|k keys IH]; intros states b Hnd; simpl; [by rewrite app_nil_r|].
    apply NoDup_cons in Hnd as [Hk Hnd]. rewrite IH, <-app_assoc by done. do 2 f_equal. simpl. f_equal.
    apply list_fmap_ext. intros i k' Hk'. rewrite lookup_delete_ne; [done|].
    intros ->. apply Hk. by eapply list_elem_of_lookup_2. }
  rewrite Hfold by done. cbn [app]. rewrite filter_app, !filter_fmap. simpl. destruct (decide (e ∈ keys)) as [Hin|Hout].
  - rewrite (filter_one _ keys e) by (done || naive_solver).
    rewrite (filter_none _ (map_to_list _)); last first.
    { apply Forall_forall. intros [k v] Hk%elem_of_map_to_list. simpl. intros ->.
      by rewrite deleted_lookup, decide_True in Hk. }
    rewrite decide_False; [done|]. intros [Hr _]. apply Hkeys, list_elem_of_fmap in Hin as (x & -> & Hx).
    assert (x ∈ rows_of x.2) as Hx' by (by apply list_elem_of_filter). rewrite Hr in Hx'. set_solver.
  - rewrite (filter_none _ keys) by (apply Forall_forall; intros k Hk ->; done). simpl.
    assert (rows_of e = []) as ->.
    { apply filter_none, Forall_forall. intros x Hx <-. apply Hout, Hkeys. by apply list_elem_of_fmap_2. }
    pose proof (deleted_lookup balances keys e) as Hl. rewrite decide_False in Hl by done.
    destruct (balances !! e) as [b|] eqn:Eb.
    + rewrite (filter_one _ (map_to_list _) (e, b)); [|apply NoDup_map_to_list|by apply elem_of_map_to_list| |done].
      * by rewrite decide_False by naive_solver.
      * intros [k v] Hk%elem_of_map_to_list [= ->]. congruence.
    + rewrite filter_none, decide_True by (done || (apply Forall_forall; intros [k v] Hk%elem_of_map_to_list [= ->]; congruence)).
      done.
Qed.
End decode.

(** * Whole states *)

Section by_address.
Context (horizon : Z) (h : BalanceHistory) (table : BalanceTable) (Hrep : represents horizon h table).
Context (ts : Z) (Hts : (horizon ≤ ts < MAX_TS)%Z) (tokens : gmap Z Bytes).
Context (tokens_inj : ∀ k1 k2 a, tokens !! k1 = Some a → tokens !! k2 = Some a → k1 = k2).
Context (tokens_known : ∀ r, r ∈ PartitionedTable.rows table → is_Some (tokens !! NewComponentBalance.token_id r)).
Context (components : gmap Z string) (c : Z) (Hc : is_Some (components !! c)).
Abbreviation token_map := (by_token table ts components c).

Lemma token_known k v : token_map !! k = Some v → tokens !! k = Some (address_of tokens k).
Proof.
  intros (r & (Hr & _)%elem_of_balance_rows & _ & <-)%(by_token_row horizon h table Hrep ts Hts); [|done].
  destruct (tokens_known r Hr) as [a Ha]. unfold address_of. by rewrite Ha.
Qed.

Lemma by_address_lookup e a b :
  by_address tokens e token_map !! a = Some b ↔
    ∃ k v, tokens !! k = Some a ∧ token_map !! k = Some v ∧ b = balance_of tokens e (k, v).
Proof.
  unfold by_address. rewrite (collect_lookup (fun kv : Z * (Bytes * f64) => address_of tokens kv.1) (balance_of tokens e)).
  - split.
    + intros ([k v] & Hk%elem_of_map_to_list & <- & <-). exists k, v. split_and!; [by eapply token_known|done..].
    + intros (k & v & Ha & Hk & ->). exists (k, v). rewrite elem_of_map_to_list. split_and!; [done| |done].
      simpl. unfold address_of. by rewrite Ha.
  - intros [k1 v1] [k2 v2] H1%elem_of_map_to_list H2%elem_of_map_to_list. simpl. intros E.
    pose proof (token_known k1 v1 H1) as K1. pose proof (token_known k2 v2 H2) as K2. rewrite E in K1.
    rewrite (tokens_inj _ _ _ K1 K2) in *. congruence.
Qed.

(** The balances by address are those of the histories. *)
Lemma by_address_value e k a : tokens !! k = Some a →
  ComponentBalance.balance <$> by_address tokens e token_map !! a = fst <$> value_at ts (h (c, k)).
Proof.
  intros Ha. rewrite <-(by_token_value horizon h table Hrep ts Hts components c k Hc).
  destruct (token_map !! k) as [v|] eqn:Ek; simpl.
  - assert (by_address tokens e token_map !! a = Some (balance_of tokens e (k, v))) as ->; [|done].
    apply by_address_lookup. by exists k, v.
  - apply fmap_None, eq_None_not_Some. intros [b (k' & v & Ha' & Hk' & _)%by_address_lookup].
    rewrite (tokens_inj _ _ _ Ha Ha') in Ek. congruence.
Qed.

Lemma by_address_empty e : by_address tokens e token_map = ∅ → token_map = ∅.
Proof.
  intros E. apply map_empty. intros k. apply eq_None_not_Some. intros [v Hk].
  assert (by_address tokens e token_map !! address_of tokens k = Some (balance_of tokens e (k, v))) as Hb.
  { apply by_address_lookup. exists k, v. split_and!; [by eapply token_known|done..]. }
  by rewrite E in Hb.
Qed.
End by_address.

Lemma external_ids_lookup (components : list ComponentRow.t) i e :
  NoDup (ComponentRow.id <$> components) →
  external_ids components !! i = Some e ↔
    ∃ c, c ∈ components ∧ ComponentRow.id c = i ∧ ComponentRow.external_id c = e.
Proof.
  intros Hnd. unfold external_ids. rewrite <-elem_of_list_to_map.
  - rewrite list_elem_of_fmap. naive_solver.
  - by rewrite <-list_fmap_compose.
Qed.

Lemma attributes_of_nil l : attributes_of l = ∅ ↔ l = [].
Proof.
  split; [|by intros ->]. destruct l as [|x l _] using rev_ind; [done|]. unfold attributes_of. rewrite foldl_app. simpl.
  intros E. by apply insert_non_empty in E.
Qed.

Section states.
Context (horizon : Z) (hs : StateHistory) (table : StateTable) (Hstates : represents horizon hs table).
Context (hb : BalanceHistory) (balance_table : BalanceTable) (Hbalances : represents horizon hb balance_table).
Context (ts : Z) (Hts : (horizon ≤ ts < MAX_TS)%Z).
Context (components : list ComponentRow.t).
Context (ids_unique : NoDup (ComponentRow.id <$> components)).
Context (names_unique : NoDup (ComponentRow.external_id <$> components)).

Abbreviation external := (external_ids components).

Lemma external_inj i1 i2 e : external !! i1 = Some e → external !! i2 = Some e → i1 = i2.
Proof.
  rewrite !external_ids_lookup by done. intros (c1 & H1 & <- & <-) (c2 & H2 & <- & E).
  by rewrite (nodup_inj _ _ _ _ names_unique H1 H2 (eq_sym E)).
Qed.

(** Rows in the order of the ids of their components are grouped by name. *)
Definition name_le (a b : string) : Prop :=
  a = b ∨ ∃ i j, external !! i = Some a ∧ external !! j = Some b ∧ (i ≤ j)%Z.

Lemma name_le_antisym a b : name_le a b → name_le b a → a = b.
Proof.
  intros [->|(i & j & Hi & Hj & Hle)] [E|(j' & i' & Hj' & Hi' & Hle')]; [done..|].
  assert (i = i') as <- by (by eapply external_inj). assert (j = j') as <- by (by eapply external_inj).
  assert (i = j) as -> by lia. congruence.
Qed.

(** The rows of the component queries: in an order that groups them by name. *)
Definition selected (ids : list Z) (data : list (NewProtocolState.t * string)) : Prop :=
  (∀ x, x ∈ data ↔ x.1 ∈ PartitionedTable.rows table ∧ external !! NewProtocolState.protocol_component_id x.1 = Some x.2 ∧
     NewProtocolState.protocol_component_id x.1 ∈ ids ∧ valid ts x.1) ∧
  ∃ R : string → string → Prop, (∀ a b, R a b → R b a → a = b) ∧ (∀ a, R a a) ∧
    StronglySorted (fun x y => R x.2 y.2) data.

Lemma elem_of_selected ids x :
  x ∈ state_rows external ids (Some ts) table ↔ x.1 ∈ PartitionedTable.rows table ∧
    external !! NewProtocolState.protocol_component_id x.1 = Some x.2 ∧
    NewProtocolState.protocol_component_id x.1 ∈ ids ∧ valid ts x.1.
Proof.
  unfold state_rows. rewrite list_elem_of_filter, elem_of_joined. unfold is_true. rewrite valid_for_spec. tauto.
Qed.

Lemma selected_by_component ids :
  selected ids (sort_by_key (fun r => NewProtocolState.protocol_component_id r.1) (state_rows external ids (Some ts) table)).
Proof.
  split; [intros x; rewrite sort_by_key_perm; apply elem_of_selected|].
  exists name_le. split_and!; [apply name_le_antisym|by left|].
  pose proof (sort_by_key_sorted (fun r : NewProtocolState.t * string => NewProtocolState.protocol_component_id r.1)
    (state_rows external ids (Some ts) table)) as Hs.
  assert (∀ x, x ∈ sort_by_key (fun r => NewProtocolState.protocol_component_id r.1) (state_rows external ids (Some ts) table) →
    external !! NewProtocolState.protocol_component_id x.1 = Some x.2) as Hx.
  { intros x. rewrite sort_by_key_perm, elem_of_selected. tauto. }
  induction Hs as [|x l Hs IH Hf]; constructor; [apply IH; intros; apply Hx; by right|].
  rewrite Forall_forall in Hf. apply Forall_forall. intros y Hy. right.
  exists (NewProtocolState.protocol_component_id x.1), (NewProtocolState.protocol_component_id y.1).
  split_and!; [apply Hx; left|apply Hx; by right|by apply Hf].
Qed.

Lemma selected_by_name ids :
  selected ids (sort_by (fun a b => string_le a.2 b.2) (state_rows external ids (Some ts) table)).
Proof.
  split; [intros x; rewrite sort_by_perm; apply elem_of_selected|].
  exists (fun a b => string_le a b = true). split_and!; [apply string_le_antisym|intros a; apply string_le_spec; by left|].
  apply sort_by_sorted; intros *; [apply string_le_trans|apply string_le_total].
Qed.

Lemma selected_rows ids data c :
  selected ids data → c ∈ components → ComponentRow.id c ∈ ids →
  ∀ x, x ∈ base.filter (fun x => x.2 = ComponentRow.external_id c) data ↔
    x.1 ∈ PartitionedTable.rows table ∧ x.2 = ComponentRow.external_id c ∧
    NewProtocolState.protocol_component_id x.1 = ComponentRow.id c ∧ valid ts x.1.
Proof.
  intros [Hin _] Hc Hid x. rewrite list_elem_of_filter, Hin.
  assert (external !! ComponentRow.id c = Some (ComponentRow.external_id c)) as He
    by (apply external_ids_lookup; [done|by exists c]).
  split; [|intros (Hr & E & Ec & Hv); by rewrite E, Ec]. intros (E & Hr & Hx & _ & Hv). split_and!; try done.
  rewrite E in Hx. by eapply external_inj.
Qed.

Context (tokens : gmap Z Bytes).
Context (tokens_inj : ∀ k1 k2 a, tokens !! k1 = Some a → tokens !! k2 = Some a → k1 = k2).
Context (tokens_known : ∀ r, r ∈ PartitionedTable.rows balance_table → is_Some (tokens !! NewComponentBalance.token_id r)).

(** What a list of states has for a component: nothing if the histories have nothing, one state
    with their attributes and balances otherwise. *)
Definition reads_component (c : ComponentRow.t) (states : list ProtocolComponentState.t) : Prop :=
  ∃ attributes balances,
    (∀ a, attributes !! a = value_at ts (hs (ComponentRow.id c, a))) ∧
    (∀ k address, tokens !! k = Some address →
       balances !! address = fst <$> value_at ts (hb (ComponentRow.id c, k))) ∧
    (∀ address, is_Some (balances !! address) → ∃ k, tokens !! k = Some address) ∧
    base.filter (fun s => ProtocolComponentState.component_id s = ComponentRow.external_id c) states =
      if decide (attributes = ∅ ∧ balances = ∅) then []
      else [ProtocolComponentState.new (ComponentRow.external_id c) attributes balances].

Lemma decoded_component (pcs : gmap Z string) m ids data c :
  balances_spec balance_table ts tokens pcs m → selected ids data → c ∈ components → ComponentRow.id c ∈ ids →
  pcs !! ComponentRow.id c = Some (ComponentRow.external_id c) →
  reads_component c (_decode_protocol_states m data).
Proof.
  intros Hm Hsel Hc Hid Hpc. specialize (Hm _ _ Hpc). unfold reads_component.
  set (tm := by_token balance_table ts pcs (ComponentRow.id c)) in *.
  set (e := ComponentRow.external_id c) in *.
  assert (default ∅ (m !! e) = by_address tokens e tm) as Hdef.
  { rewrite Hm. destruct (decide (tm = ∅)) as [Hd|]; [|done]. by rewrite Hd. }
  exists (attributes_of (base.filter (fun x => x.2 = e) data)), (ComponentBalance.balance <$> by_address tokens e tm).
  split_and!.
  - intros a. apply (attributes_of_value horizon hs table _ e); [done..|]. by apply (selected_rows ids).
  - intros k address Ha. rewrite lookup_fmap. by eapply by_address_value.
  - intros address [b (b' & _ & Hb)%lookup_fmap_Some].
    eapply by_address_lookup in Hb as (k & v & Ha & _); [by exists k|done..|by eexists].
  - destruct Hsel as (_ & R & antisym & refl & Hs). rewrite (decode_spec m data R antisym refl Hs), Hdef.
    assert (m !! e = None ↔ ComponentBalance.balance <$> by_address tokens e tm = ∅) as Hemp.
    { rewrite fmap_empty_iff, Hm. destruct (decide (tm = ∅)) as [->|Hne]; [done|].
      split; [done|]. intros E. by eapply by_address_empty in E. }
    apply decide_ext.
    by rewrite attributes_of_nil, Hemp.
Qed.

End states.

(** * Witness and example *)

Section witness.
Open Scope Z_scope.
Definition float0 : f64 := SpecFloat.S754_zero false.
Definition balance_written (v : Bytes) (tx ts : Z) : VersioningEntry NewComponentBalance.t (Z * Z) :=
  EUpdate (NewComponentBalance.new 2 v float0 None tx 1 ts).
Definition balances_written := [balance_written b1 1 10; balance_written b2 2 20].
Definition balance_table1 : BalanceTable :=
  match write_versions (fun _ => "") balances_written 0 (PartitionedTable.mk ∅ []) with
  | Ok t => t | _ => PartitionedTable.mk ∅ [] end.
Definition pool : ComponentRow.t := ComponentRow.mk 1 "pool" "uniswap_v2".
Definition token_addresses : gmap Z Bytes := {[2 := [Byte.xaa]]}.

Lemma balance_table1_stored :
  stored (fun _ => "") 0 (extended (fun _ => []) balances_written) balance_table1.
Proof.
  eapply stored_batch; [apply (stored_new _ 0)|lia|by intros e x _| |by vm_compute].
  apply writes_ordered. simpl. repeat constructor; lia.
Qed.


(** Going back from 30 to 20, the balance at 20 stays as it is; the delta has the one before. *)
Lemma balance_revert_undoes_target :
  value_at 20 (extended (fun _ => []) balances_written (1, 2)) = Some (b2, float0) ∧
  get_balance_deltas {[1 := "pool"]} token_addresses {[1 := ([Byte.x11], 0); 2 := ([Byte.x12], 0)]} 30 20 balance_table1 =
    [ComponentBalance.mk [Byte.xaa] b1 SpecFloat.S754_nan [Byte.x12] "pool"].
Proof. by vm_compute. Qed.
End witness.
