(* ===== verification/Extractor.v ===== *)
(** The protocol extractor: [tycho_indexer::extractor::protocol_extractor].

    The extractor receives the blocks of a chain, or parts of them, keeps those that can still
    be reverted in a reorg buffer, writes the others to the database in a background task, and
    sends one message per block; an undo signal makes it send a message with the values before
    the blocks that are undone.

    The database is a state [D] behind the trait [ExtractorGateway], the cache of tokens and
    components a state [C] behind [ProtocolDataCache], the plugin for dynamic contracts a state
    [P] behind [ExtractorExtension].  A commit task is a value of the extractor that runs as one
    step, at any time between two messages or when it is waited for.  Decoded messages come with
    their decoding errors. *)

From Stdlib Require Import SpecFloat.
From S2P Require Import Prelude Collections Bytes Models Blockchain ReorgBuffer.

Open Scope tycho_scope.

(** * extractor/mod.rs *)

Module BlockUpdateWithCursor.
Record t := mk { block_update : BlockChanges.t; cursor : string }.
End BlockUpdateWithCursor.

#[global] Instance cursor_scoped : BlockScoped BlockUpdateWithCursor.t :=
  fun b => block (BlockUpdateWithCursor.block_update b).

#[global] Instance cursor_entry : StateUpdateBufferEntry BlockUpdateWithCursor.t := {
  get_filtered_protocol_state_update b :=
    get_filtered_protocol_state_update (BlockUpdateWithCursor.block_update b);
  get_filtered_account_state_update b :=
    get_filtered_account_state_update (BlockUpdateWithCursor.block_update b);
  get_filtered_component_balance_update b :=
    get_filtered_component_balance_update (BlockUpdateWithCursor.block_update b);
  get_filtered_account_balance_update b :=
    get_filtered_account_balance_update (BlockUpdateWithCursor.block_update b)
}.

Inductive ExtractionError :=
| Setup (msg : string)
| ExtractionDecodeError (msg : string)
| ProtobufError (msg : string)
| EmptyMessage
| Unknown (msg : string)
| Storage (e : StorageError)
| SubstreamsError (msg : string)
| ServiceError (msg : string)
| ExtractionMergeError (e : MergeError)
| ReorgBufferError (msg : string)
| PartialBlockBufferError (msg : string)
| TracingError (msg : string)
| AccountExtractionError (msg : string)
| DCICacheFailure (msg : string).

(** * The traits *)

Module ExtractorGateway.
Class t (D : Type) := {
  get_cursor : D → result StorageError (string * Bytes);
  get_block : D → Bytes → result StorageError Block.t;
  ensure_protocol_types : stm D StorageError unit;
  advance : BlockChanges.t → string → bool → stm D StorageError unit;
  get_protocol_states : D → list string → result StorageError (list ProtocolComponentState.t);
  get_contracts : D → list Bytes → result StorageError (list Account.t);
  get_components_balances :
    D → list string → result StorageError (gmap string (gmap Bytes ComponentBalance.t));
  get_account_balances :
    D → list Bytes → result StorageError (gmap Bytes (gmap Bytes AccountBalance.t))
}.
End ExtractorGateway.

Module ProtocolDataCache.
Class t (C : Type) := {
  has_token : C → list Bytes → list bool;
  get_tokens : C → list Bytes → result StorageError (list (option Token.t));
  get_protocol_components : C → list string → result StorageError (gmap string ProtocolComponent.t);
  get_token_prices : C → list Bytes → result StorageError (list (option f64));
  add_tokens : list Token.t → stm C StorageError unit;
  add_components : list ProtocolComponent.t → stm C StorageError unit
}.
End ProtocolDataCache.

Module ExtractorExtension.
Class t (P : Type) := {
  process_block_update : BlockChanges.t → P → result ExtractionError BlockChanges.t * P;
  process_revert : Bytes → stm P ExtractionError unit
}.
End ExtractorExtension.

(** * The extractor *)

(** A task that writes blocks to the database, or its outcome. *)
Inductive CommitTask :=
| Running (blocks : list BlockUpdateWithCursor.t) (is_syncing : bool)
| Finished (r : result ExtractionError unit).

Module ProtocolExtractor.
Record t (D C P : Type) := mk {
  gateway : D;
  commit_handle : option CommitTask;
  committed_block_height : option Z;
  commit_batch_size : nat;
  name : string;
  chain : Chain;
  protocol_cache : C;
  cursor : string;
  last_processed_block : option Block.t;
  first_message_processed : bool;
  reorg_buffer : ReorgBuffer.t BlockUpdateWithCursor.t;
  partial_block_buffer : option BlockChanges.t;
  dci_plugin : option P
}.
Arguments mk {D C P}.
Arguments gateway {D C P}.
Arguments commit_handle {D C P}.
Arguments committed_block_height {D C P}.
Arguments commit_batch_size {D C P}.
Arguments name {D C P}.
Arguments chain {D C P}.
Arguments protocol_cache {D C P}.
Arguments cursor {D C P}.
Arguments last_processed_block {D C P}.
Arguments first_message_processed {D C P}.
Arguments reorg_buffer {D C P}.
Arguments partial_block_buffer {D C P}.
Arguments dci_plugin {D C P}.

Section setters.
Context {D C P : Type}.
Abbreviation self_t := (t D C P).
Definition set_gateway d (h : option CommitTask) (c : option Z) (s : self_t) : self_t :=
  mk d h c (commit_batch_size s) (name s) (chain s) (protocol_cache s) (cursor s)
     (last_processed_block s) (first_message_processed s) (reorg_buffer s) (partial_block_buffer s) (dci_plugin s).
Definition set_cache c (s : self_t) : self_t :=
  mk (gateway s) (commit_handle s) (committed_block_height s) (commit_batch_size s) (name s) (chain s) c (cursor s)
     (last_processed_block s) (first_message_processed s) (reorg_buffer s) (partial_block_buffer s) (dci_plugin s).
Definition set_buffer b (s : self_t) : self_t :=
  mk (gateway s) (commit_handle s) (committed_block_height s) (commit_batch_size s) (name s) (chain s) (protocol_cache s)
     (cursor s) (last_processed_block s) (first_message_processed s) b (partial_block_buffer s) (dci_plugin s).
Definition set_partial p (s : self_t) : self_t :=
  mk (gateway s) (commit_handle s) (committed_block_height s) (commit_batch_size s) (name s) (chain s) (protocol_cache s)
     (cursor s) (last_processed_block s) (first_message_processed s) (reorg_buffer s) p (dci_plugin s).
Definition set_plugin p (s : self_t) : self_t :=
  mk (gateway s) (commit_handle s) (committed_block_height s) (commit_batch_size s) (name s) (chain s) (protocol_cache s)
     (cursor s) (last_processed_block s) (first_message_processed s) (reorg_buffer s) (partial_block_buffer s) p.
Definition update_cursor (c : string) (s : self_t) : self_t :=
  mk (gateway s) (commit_handle s) (committed_block_height s) (commit_batch_size s) (name s) (chain s) (protocol_cache s)
     c (last_processed_block s) true (reorg_buffer s) (partial_block_buffer s) (dci_plugin s).
Definition update_last_processed_block (b : Block.t) (s : self_t) : self_t :=
  mk (gateway s) (commit_handle s) (committed_block_height s) (commit_batch_size s) (name s) (chain s) (protocol_cache s)
     (cursor s) (Some b) (first_message_processed s) (reorg_buffer s) (partial_block_buffer s) (dci_plugin s).
End setters.
End ProtocolExtractor.

(** * Balances before the tip *)

(** [acc.entry(a).or_default().push(k)] for every key. *)
Definition group_keys {A K} `{Countable A, Countable K} (keys : gset (A * K)) : gmap A (list K) :=
  foldl (fun acc '(a, k) => <[a := default [] (acc !! a) ++ [k]]> acc) ∅ (elements keys).

(** [keys.map(|k| (k, v(k))).collect()] *)
Definition collect_map {K V} `{Countable K} (l : list (K * V)) : gmap K V :=
  foldl (fun m kv => <[kv.1 := kv.2]> m) ∅ l.

(** The stored values of the missing keys, with a default for those that are not stored,
    extended by the buffered ones. *)
Definition combine_balances {A V} `{Countable A} (missing : gmap A (list Bytes))
    (stored : gmap A (gmap Bytes V)) (absent : A → Bytes → V) (buffered : gmap A (gmap Bytes V)) :
    gmap A (gmap Bytes V) :=
  foldl (fun acc '(a, b) => <[a := extend (default ∅ (acc !! a)) b]> acc) ∅
    (((fun '(a, tokens) =>
         (a, collect_map ((fun token => (token, default (absent a token) (default ∅ (stored !! a) !! token))) <$> tokens)))
      <$> map_to_list missing) ++ map_to_list buffered).

Section extractor.
Context {D C P : Type} `{!ExtractorGateway.t D, !ProtocolDataCache.t C, !ExtractorExtension.t P}.
(** [Display] of addresses and errors, [Bytes::from_str], the post processor, and the tokens
    that [TokenPreProcessor::get_tokens] finds on chain. *)
Context (show : Bytes → string) (show_storage : StorageError → string) (show_merge : MergeError → string).
Context (parse_bytes : string → option Bytes) (post_processor : BlockChanges.t → BlockChanges.t).
Context (fetch_tokens : list Bytes → TokenOwnerStore.t → Z → list Token.t).

Import ProtocolExtractor.
Abbreviation extractor := (ProtocolExtractor.t D C P).
Abbreviation Buffer := (ReorgBuffer.t BlockUpdateWithCursor.t).

Definition get_component_balances (d : D) (buffer : Buffer) (keys : list (string * Bytes)) :
    result ExtractionError (gmap string (gmap Bytes ComponentBalance.t)) :=
  let '(buffered_balances, missing_balances_keys) := ReorgBuffer.lookup_component_balances keys buffer in
  let missing_balances_map := group_keys missing_balances_keys in
  missing_balances ← map_err Storage
    (ExtractorGateway.get_components_balances d (map_to_list missing_balances_map).*1);
  Ok (combine_balances missing_balances_map missing_balances
        (fun id token => ComponentBalance.mk token [] f64_zero [] id) buffered_balances).

Definition get_account_balances (d : D) (buffer : Buffer) (keys : list (Bytes * Bytes)) :
    result ExtractionError (gmap Bytes (gmap Bytes AccountBalance.t)) :=
  let '(buffered_balances, missing_balances_keys) := ReorgBuffer.lookup_account_balances keys buffer in
  let missing_balances_map := group_keys missing_balances_keys in
  missing_balances ← map_err Storage
    (ExtractorGateway.get_account_balances d (map_to_list missing_balances_map).*1);
  Ok (combine_balances missing_balances_map missing_balances
        (fun account token => AccountBalance.mk account token [] []) buffered_balances).

(** * Messages of a block *)

(** Sums run in the order of iteration of the map of balances. *)
Definition component_tvl (prices : gmap Bytes f64) (balances : gmap Bytes ComponentBalance.t) : f64 :=
  foldl (fun acc '(addr, bal) =>
    match prices !! addr with
    | Some price => SFadd 53 1024 acc (SFdiv 53 1024 (ComponentBalance.balance_float bal) price)
    | None => acc
    end) f64_zero (map_to_list balances).

Definition with_tvl (tvl : gmap string f64) (m : BlockAggregatedChanges.t) : BlockAggregatedChanges.t :=
  BlockAggregatedChanges.mk (BlockAggregatedChanges.extractor m) (BlockAggregatedChanges.chain m)
    (BlockAggregatedChanges.block m) (BlockAggregatedChanges.finalized_block_height m)
    (BlockAggregatedChanges.db_committed_block_height m) (BlockAggregatedChanges.revert m)
    (BlockAggregatedChanges.state_deltas m) (BlockAggregatedChanges.account_deltas m)
    (BlockAggregatedChanges.new_tokens m) (BlockAggregatedChanges.new_protocol_components m)
    (BlockAggregatedChanges.deleted_protocol_components m) (BlockAggregatedChanges.component_balances m)
    (BlockAggregatedChanges.account_balances m) tvl (BlockAggregatedChanges.dci_update m)
    (BlockAggregatedChanges.partial_block_index m).

Definition handle_tvl_changes (msg : BlockAggregatedChanges.t) (self : extractor) :
    result ExtractionError BlockAggregatedChanges.t :=
  if decide (BlockAggregatedChanges.component_balances msg = ∅) then Ok msg
  else
    components ← map_err Storage (ProtocolDataCache.get_protocol_components (protocol_cache self)
      (map_to_list (BlockAggregatedChanges.component_balances msg)).*1);
    let balance_request := (map_to_list components).*2 ≫= fun pc =>
      (fun t => (ProtocolComponent.id pc, t)) <$> ProtocolComponent.tokens pc in
    stored ← get_component_balances (gateway self) (reorg_buffer self) balance_request;
    let balances := map_imap (fun k bal =>
      Some (extend bal (default ∅ (BlockAggregatedChanges.component_balances msg !! k)))) stored in
    let addresses := (map_to_list balances).*2 ≫= fun b => (map_to_list b).*1 in
    found ← map_err Storage (ProtocolDataCache.get_token_prices (protocol_cache self) addresses);
    let prices := collect_map (omap (fun pa : option f64 * Bytes => p ← pa.1; Some (pa.2, p)) (zip found addresses)) in
    Ok (with_tvl (component_tvl prices <$> balances) msg).

(** The owners of new tokens: the pools created in the block, with their balances. *)
Definition token_owners (msg : BlockChanges.t) : gmap Bytes (Bytes * Bytes) :=
  collect_map (BlockChanges.txs_with_update msg ≫= fun tx =>
    map_to_list (TxWithChanges.protocol_components tx) ≫= fun '(c_id, change) =>
      if decide (ProtocolComponent.change change = Creation) then
        let owner :=
          match TxWithChanges.state_updates tx !! ProtocolComponent.id change ≫=
                fun state => ProtocolComponentStateDelta.updated_attributes state !! "balance_owner" with
          | Some o => Some o
          | None =>
              match head (ProtocolComponent.contract_addresses change) with
              | Some a => Some a
              | None => parse_bytes (ProtocolComponent.id change)
              end
          end in
        match owner, TxWithChanges.balance_changes tx !! c_id with
        | Some addr, Some balances =>
            (fun '(token, b) => (token, (addr, ComponentBalance.balance b))) <$> map_to_list balances
        | _, _ => []
        end
      else []).

Definition construct_currency_tokens (msg : BlockChanges.t) (self : extractor) :
    result StorageError (gmap Bytes Token.t) :=
  let new_token_addresses := BlockChanges.protocol_components msg ≫= ProtocolComponent.tokens in
  let known := zip new_token_addresses (ProtocolDataCache.has_token (protocol_cache self) new_token_addresses) in
  let unknown_tokens := (base.filter (fun x : Bytes * bool => x.2 = false) known).*1 in
  let known_tokens := (base.filter (fun x : Bytes * bool => x.2 = true) known).*1 in
  existing ← ProtocolDataCache.get_tokens (protocol_cache self) known_tokens;
  let new := fetch_tokens unknown_tokens (TokenOwnerStore.mk (token_owners msg)) (Block.number (block msg)) in
  Ok (collect_map ((fun t => (Token.address t, t)) <$> (new ++ omap id existing))).

Definition buffer_partial_block (msg : BlockChanges.t) : stm extractor ExtractionError unit := fun self =>
  match partial_block_buffer self with
  | Some existing =>
      match BlockChanges.merge_partial existing msg with
      | Ok updated => (Ok tt, set_partial (Some updated) self)
      | Err e => (Err (PartialBlockBufferError (show_merge e)), set_partial None self)
      | Panic => (Panic, set_partial None self)
      end
  | None => (Ok tt, set_partial (Some msg) self)
  end.

(** ** Commits *)

(** The blocks are written in order; only the last one forces the transaction out. *)
Fixpoint advance_all (is_syncing : bool) (blocks : list BlockUpdateWithCursor.t) : stm D ExtractionError unit :=
  match blocks with
  | [] => st_ret tt
  | b :: rest =>
      let force_db_commit := if is_syncing then false else bool_decide (rest = []) in
      st_map_err Storage (ExtractorGateway.advance (BlockUpdateWithCursor.block_update b)
        (BlockUpdateWithCursor.cursor b) force_db_commit) ;?
      advance_all is_syncing rest
  end.

(** The background task runs. *)
Definition run_commit (self : extractor) : extractor :=
  match commit_handle self with
  | Some (Running blocks is_syncing) =>
      let '(r, d) := advance_all is_syncing blocks (gateway self) in
      set_gateway d (Some (Finished r))
        (match r, last blocks with
         | Ok _, Some b => Some (Block.number (block b))
         | _, _ => committed_block_height self
         end) self
  | _ => self
  end.

(** Wait for the previous task. *)
Definition join_commit : stm extractor ExtractionError unit := fun self =>
  let self := run_commit self in
  match commit_handle self with
  | Some (Finished r) =>
      let self := set_gateway (gateway self) None (committed_block_height self) self in
      (match r with
       | Panic => Err (Storage (Unexpected "Failed to join database commit task"))
       | _ => r
       end, self)
  | _ => (Ok tt, self)
  end.

(** [if let Some(last_block) = blocks_to_commit.last()]: a task for the drained blocks. *)
Definition commit_blocks (blocks : list BlockUpdateWithCursor.t) (is_syncing : bool) :
    stm extractor ExtractionError unit :=
  match blocks with
  | [] => st_ret tt
  | _ => join_commit ;?
      fun self => (Ok tt, set_gateway (gateway self) (Some (Running blocks is_syncing)) (committed_block_height self) self)
  end.

Definition on_buffer {A} (m : stm Buffer StorageError A) : stm extractor ExtractionError A :=
  on_field reorg_buffer set_buffer (st_map_err Storage m).

(** Insert the block, and drain what is final once there is enough of it. *)
Definition buffer_block (msg : BlockChanges.t) (cursor : string) (final_block_height : Z) :
    stm extractor ExtractionError (list BlockUpdateWithCursor.t) :=
  on_buffer (ReorgBuffer.insert_block (BlockUpdateWithCursor.mk msg cursor)) ;?
  fun self =>
    if commit_batch_size self <=? ReorgBuffer.count_blocks_before final_block_height (reorg_buffer self)
    then on_buffer (ReorgBuffer.drain_blocks_until final_block_height) self
    else (Ok [], self).

(** The message for subscribers. *)
Definition aggregate (msg : BlockChanges.t) (self : extractor) :
    result ExtractionError BlockAggregatedChanges.t :=
  changes ← map_err ExtractionMergeError (BlockChanges.into_aggregated msg (committed_block_height self));
  handle_tvl_changes changes self.

Definition process_full_block_message (msg : BlockChanges.t) (cursor : string) (final_block_height : Z) :
    stm extractor ExtractionError (option BlockAggregatedChanges.t) := fun self =>
  let is_syncing := bool_decide (final_block_height = Block.number (block msg)) in
  if (Block.number (block msg) <? final_block_height)%Z
  then (Err (ReorgBufferError "Final block height greater than block number"), self)
  else
    st_bind (buffer_block msg cursor final_block_height) (fun blocks_to_commit =>
      commit_blocks blocks_to_commit is_syncing ;?
      fun self =>
        let self := update_cursor cursor (update_last_processed_block (block msg) self) in
        (Some <$> aggregate msg self, self)) self.

(** [BlockScopedData], with the message it holds. *)
Record BlockScopedData := mk_data {
  data_message : result ExtractionError BlockChanges.t;
  data_cursor : string;
  data_final_block_height : Z;
  data_partial_index : option Z
}.

(** Blocks of one second are told apart by microseconds. *)
Definition adjust_timestamp (last_processed_block : option Block.t) (b : Block.t) : Block.t :=
  match last_processed_block with
  | Some lst =>
      if bool_decide (Block.ts b / 10 ^ 6 = Block.ts lst / 10 ^ 6)%Z
      then Block.mk (Block.number b) (Block.chain b) (Block.hash b) (Block.parent_hash b) (Block.ts lst + 1)%Z
      else b
  | None => b
  end.

Definition set_block (b : Block.t) (m : BlockChanges.t) : BlockChanges.t :=
  BlockChanges.mk (BlockChanges.extractor m) (BlockChanges.chain m) b (BlockChanges.finalized_block_height m)
    (BlockChanges.revert m) (BlockChanges.new_tokens m) (BlockChanges.txs_with_update m)
    (BlockChanges.block_contract_changes m) (BlockChanges.trace_results m) (BlockChanges.partial_block_index m).
Definition set_new_tokens (tokens : gmap Bytes Token.t) (m : BlockChanges.t) : BlockChanges.t :=
  BlockChanges.mk (BlockChanges.extractor m) (BlockChanges.chain m) (block m) (BlockChanges.finalized_block_height m)
    (BlockChanges.revert m) tokens (BlockChanges.txs_with_update m)
    (BlockChanges.block_contract_changes m) (BlockChanges.trace_results m) (BlockChanges.partial_block_index m).

Definition on_cache {A} (m : stm C StorageError A) : stm extractor ExtractionError A :=
  on_field protocol_cache set_cache (st_map_err Storage m).

Definition run_plugin (msg : BlockChanges.t) : stm extractor ExtractionError BlockChanges.t := fun self =>
  match dci_plugin self with
  | Some p => let '(r, p) := ExtractorExtension.process_block_update msg p in (r, set_plugin (Some p) self)
  | None => (Ok msg, self)
  end.

(** What happens to a decoded message before it is processed. *)
Definition prepare_message (msg : BlockChanges.t) : stm extractor ExtractionError BlockChanges.t := fun self =>
  let msg := post_processor msg in
  let msg := set_block (adjust_timestamp (last_processed_block self) (block msg)) msg in
  st_bind (run_plugin msg) (fun msg self =>
    match construct_currency_tokens msg self with
    | Ok tokens =>
        let msg := set_new_tokens tokens msg in
        (on_cache (ProtocolDataCache.add_tokens (map_to_list tokens).*2) ;?
         on_cache (ProtocolDataCache.add_components (BlockChanges.protocol_components msg)) ;?
         st_ret msg) self
    | Err e => (Err (Storage e), self)
    | Panic => (Panic, self)
    end) self.

Definition handle_tick_scoped_data (inp : BlockScopedData) :
    stm extractor ExtractionError (option BlockAggregatedChanges.t) := fun self =>
  match data_message inp with
  | Err EmptyMessage => (Ok None, update_cursor (data_cursor inp) self)
  | Err e => (Err e, self)
  | Panic => (Panic, self)
  | Ok msg =>
      st_bind (prepare_message msg) (fun msg =>
        match data_partial_index inp with
        | Some _ =>
            buffer_partial_block msg ;?
            fun self =>
              let self := update_cursor (data_cursor inp) self in
              (Some <$> aggregate msg self, self)
        | None => process_full_block_message msg (data_cursor inp) (data_final_block_height inp)
        end) self
  end.

Definition clear_partial_index (m : BlockAggregatedChanges.t) : BlockAggregatedChanges.t :=
  BlockAggregatedChanges.mk (BlockAggregatedChanges.extractor m) (BlockAggregatedChanges.chain m)
    (BlockAggregatedChanges.block m) (BlockAggregatedChanges.finalized_block_height m)
    (BlockAggregatedChanges.db_committed_block_height m) (BlockAggregatedChanges.revert m)
    (BlockAggregatedChanges.state_deltas m) (BlockAggregatedChanges.account_deltas m)
    (BlockAggregatedChanges.new_tokens m) (BlockAggregatedChanges.new_protocol_components m)
    (BlockAggregatedChanges.deleted_protocol_components m) (BlockAggregatedChanges.component_balances m)
    (BlockAggregatedChanges.account_balances m) (BlockAggregatedChanges.component_tvl m)
    (BlockAggregatedChanges.dci_update m) None.

Definition collect_and_process_full_block (cursor : string) (final_block_height : Z) :
    stm extractor ExtractionError (option BlockAggregatedChanges.t) := fun self =>
  match partial_block_buffer self with
  | None => (Err (PartialBlockBufferError "Could not fetch full block data: partial block buffer is empty"), self)
  | Some msg =>
      let '(r, self) := process_full_block_message msg cursor final_block_height (set_partial None self) in
      (option_map clear_partial_index <$> r, self)
  end.

(** * Reverts *)

Definition txs_of (reverted : list BlockUpdateWithCursor.t) : list TxWithChanges.t :=
  reverted ≫= fun b => BlockChanges.txs_with_update (BlockUpdateWithCursor.block_update b).

Definition with_change (c : ChangeType) (pc : ProtocolComponent.t) : ProtocolComponent.t :=
  ProtocolComponent.mk (ProtocolComponent.id pc) (ProtocolComponent.protocol_system pc)
    (ProtocolComponent.protocol_type_name pc) (ProtocolComponent.chain pc) (ProtocolComponent.tokens pc)
    (ProtocolComponent.contract_addresses pc) (ProtocolComponent.static_attributes pc) c
    (ProtocolComponent.creation_tx pc) (ProtocolComponent.created_at pc).

(** Only the oldest creation or deletion of a component is undone: the creations and the
    deletions. *)
Definition reverted_components (txs : list TxWithChanges.t) :
    gmap string ProtocolComponent.t * gmap string ProtocolComponent.t :=
  foldl (fun acc tx =>
    foldl (fun '(creations, deletions) '(id, new_component) =>
      match creations !! id, deletions !! id with
      | None, None =>
          match ProtocolComponent.change new_component with
          | Update => (creations, deletions)
          | Deletion => (creations, <[id := with_change Creation new_component]> deletions)
          | Creation => (<[id := with_change Deletion new_component]> creations, deletions)
          end
      | _, _ => (creations, deletions)
      end) acc (map_to_list (TxWithChanges.protocol_components tx))) (∅, ∅) txs.

(** ** Accounts *)

Definition reverted_account_state_keys (creations : gmap string ProtocolComponent.t)
    (txs : list TxWithChanges.t) : gset (Bytes * Bytes) :=
  list_to_set (txs ≫= fun tx =>
    base.filter (fun cd => creations !! show cd.1 = None) (map_to_list (TxWithChanges.account_deltas tx)) ≫=
      fun '(c_id, delta) => (fun key => (c_id, key)) <$> (map_to_list (AccountDelta.slots delta)).*1).

(** The values before the reverted blocks: from the buffer, else from the database, else
    empty. *)
Definition slots_before (buffered : gmap (Bytes * Bytes) Bytes) (missing : gmap Bytes (list Bytes))
    (contracts : list Account.t) : list (Bytes * Bytes * Bytes) :=
  map_to_list buffered ++
  (map_to_list missing ≫= fun '(address, keys) =>
     let state := snd <$> list_find (fun a => Account.address a = address) contracts in
     (fun key => ((address, key), default [] (state ≫= fun s => Account.slots s !! key))) <$> keys).

Definition revert_account_deltas (chain : Chain) (states : list (Bytes * Bytes * Bytes)) :
    gmap Bytes AccountDelta.t :=
  foldl (fun acc '((addr, key), value) =>
    let delta := default (AccountDelta.mk chain addr ∅ None None Update) (acc !! addr) in
    <[addr := AccountDelta.mk (AccountDelta.chain delta) (AccountDelta.address delta)
                (<[key := Some value]> (AccountDelta.slots delta)) (AccountDelta.balance delta)
                (AccountDelta.code delta) (AccountDelta.change delta)]> acc) ∅ states.

(** ** Protocol states *)

Definition reverted_created_attrs (creations : gmap string ProtocolComponent.t)
    (txs : list TxWithChanges.t) : gmap string (gset string) :=
  foldl (fun acc '(c_id, attr) => <[c_id := default ∅ (acc !! c_id) ∪ {[attr]}]> acc) ∅
    (txs ≫= fun tx =>
      base.filter (fun cd => creations !! cd.1 = None) (map_to_list (TxWithChanges.state_updates tx)) ≫=
        fun '(c_id, delta) => (fun attr => (c_id, attr)) <$> elements (ProtocolComponentStateDelta.created_attributes delta)).

Definition reverted_protocol_state_keys (creations : gmap string ProtocolComponent.t)
    (created : gmap string (gset string)) (txs : list TxWithChanges.t) : gset (string * string) :=
  list_to_set (txs ≫= fun tx =>
    base.filter (fun cd => creations !! cd.1 = None) (map_to_list (TxWithChanges.state_updates tx)) ≫=
      fun '(c_id, delta) => (fun key => (c_id, key)) <$>
        (base.filter (fun attr => attr ∉ default ∅ (created !! c_id))
           (map_to_list (ProtocolComponentStateDelta.updated_attributes delta)).*1 ++
         elements (ProtocolComponentStateDelta.deleted_attributes delta))).

(** The stored states of the components with missing keys. *)
Definition find_states (missing : gmap string (list string)) (states : list ProtocolComponentState.t) :
    result ExtractionError (list (ProtocolComponentState.t * list string)) :=
  mapM (fun '(component_id, keys) =>
    state ← ok_or (snd <$> list_find (fun s => ProtocolComponentState.component_id s = component_id) states)
      (Storage (NotFound "Component" component_id));
    Ok (state, keys)) (map_to_list missing).

(** The attributes that are stored, and those that are not. *)
Definition split_found (states : list (ProtocolComponentState.t * list string)) :
    gmap (string * string) Bytes * gmap string (gset string) :=
  foldl (fun acc '(state, keys) =>
    foldl (fun '(db_states, not_found) key =>
      let c_id := ProtocolComponentState.component_id state in
      match ProtocolComponentState.attributes state !! key with
      | Some value => (<[(c_id, key) := value]> db_states, not_found)
      | None => (db_states, <[c_id := default ∅ (not_found !! c_id) ∪ {[key]}]> not_found)
      end) acc keys) (∅, ∅) states.

(** [acc.entry(c_id).or_insert_with(…)], then one of its fields changed. *)
Definition or_insert_delta (acc : gmap string ProtocolComponentStateDelta.t) (c_id : string)
    (new : ProtocolComponentStateDelta.t)
    (change : ProtocolComponentStateDelta.t → ProtocolComponentStateDelta.t) :
    gmap string ProtocolComponentStateDelta.t :=
  <[c_id := change (default new (acc !! c_id))]> acc.

Definition add_updated (key : string) (value : Bytes) (d : ProtocolComponentStateDelta.t) :
    ProtocolComponentStateDelta.t :=
  ProtocolComponentStateDelta.mk (ProtocolComponentStateDelta.component_id d)
    (<[key := value]> (ProtocolComponentStateDelta.updated_attributes d))
    (ProtocolComponentStateDelta.deleted_attributes d) (ProtocolComponentStateDelta.created_attributes d).
Definition add_deleted (keys : gset string) (d : ProtocolComponentStateDelta.t) :
    ProtocolComponentStateDelta.t :=
  ProtocolComponentStateDelta.mk (ProtocolComponentStateDelta.component_id d)
    (ProtocolComponentStateDelta.updated_attributes d)
    (ProtocolComponentStateDelta.deleted_attributes d ∪ keys) (ProtocolComponentStateDelta.created_attributes d).

(** The value of a key, with the keys of its component that were not found as deletions. *)
Definition add_value (not_found : gmap string (gset string)) (acc : gmap string ProtocolComponentStateDelta.t)
    (e : string * string * Bytes) : gmap string ProtocolComponentStateDelta.t :=
  or_insert_delta acc e.1.1 (ProtocolComponentStateDelta.mk e.1.1 ∅ (default ∅ (not_found !! e.1.1)) ∅)
    (add_updated e.1.2 e.2).
Definition add_not_found (acc : gmap string ProtocolComponentStateDelta.t) (e : string * gset string) :
    gmap string ProtocolComponentStateDelta.t :=
  or_insert_delta acc e.1 (ProtocolComponentStateDelta.new e.1 ∅ e.2) id.
Definition add_created (acc : gmap string ProtocolComponentStateDelta.t) (e : string * gset string) :
    gmap string ProtocolComponentStateDelta.t :=
  or_insert_delta acc e.1 (ProtocolComponentStateDelta.new e.1 ∅ ∅) (add_deleted e.2).

Definition revert_state_deltas (db_states buffered : gmap (string * string) Bytes)
    (not_found created : gmap string (gset string)) : gmap string ProtocolComponentStateDelta.t :=
  let state_deltas := foldl (add_value not_found) ∅ (map_to_list db_states ++ map_to_list buffered) in
  let state_deltas := foldl add_not_found state_deltas (map_to_list not_found) in
  foldl add_created state_deltas (map_to_list created).

(** ** Balances *)

Definition reverted_component_balances_keys (creations : gmap string ProtocolComponent.t)
    (txs : list TxWithChanges.t) : gset (string * Bytes) :=
  list_to_set (txs ≫= fun tx =>
    base.filter (fun cb => creations !! cb.1 = None) (map_to_list (TxWithChanges.balance_changes tx)) ≫=
      fun '(id, balance_change) => (fun token => (id, token)) <$> (map_to_list balance_change).*1).

(** Only accounts with a delta. *)
Definition reverted_account_balances_keys (account_deltas : gmap Bytes AccountDelta.t)
    (txs : list TxWithChanges.t) : gset (Bytes * Bytes) :=
  list_to_set (txs ≫= fun tx =>
    base.filter (fun ab => is_Some (account_deltas !! ab.1)) (map_to_list (TxWithChanges.account_balance_changes tx)) ≫=
      fun '(account, balance_change) => (fun token => (account, token)) <$> (map_to_list balance_change).*1).

(** ** The message *)

Definition account_revert (d : D) (chain : Chain) (buffer : Buffer) (keys : list (Bytes * Bytes)) :
    result ExtractionError (gmap Bytes AccountDelta.t) :=
  let '(buffered_state, missing) := ReorgBuffer.lookup_account_state keys buffer in
  let missing_map := group_keys missing in
  missing_contracts ← map_err Storage (ExtractorGateway.get_contracts d (map_to_list missing_map).*1);
  Ok (revert_account_deltas chain (slots_before buffered_state missing_map missing_contracts)).

Definition state_revert (d : D) (buffer : Buffer) (created : gmap string (gset string))
    (keys : list (string * string)) : result ExtractionError (gmap string ProtocolComponentStateDelta.t) :=
  let '(buffered_state, missing) := ReorgBuffer.lookup_protocol_state keys buffer in
  let missing_map := group_keys missing in
  missing_components_states ← map_err Storage
    (ExtractorGateway.get_protocol_states d (map_to_list missing_map).*1);
  found ← find_states missing_map missing_components_states;
  let '(db_states, not_found) := split_found found in
  Ok (revert_state_deltas db_states buffered_state not_found created).

(** The message for the reverted blocks, the oldest first; the buffer has the blocks that
    stay. *)
Definition revert_message (d : D) (name : string) (chain : Chain) (buffer : Buffer)
    (reverted : list BlockUpdateWithCursor.t) (partial_index : option Z) :
    result ExtractionError BlockAggregatedChanges.t :=
  let txs := txs_of reverted in
  let '(creations, deletions) := reverted_components txs in
  account_deltas ← account_revert d chain buffer (elements (reverted_account_state_keys creations txs));
  let created := reverted_created_attrs creations txs in
  state_deltas ← state_revert d buffer created (elements (reverted_protocol_state_keys creations created txs));
  component_balances ← get_component_balances d buffer (elements (reverted_component_balances_keys creations txs));
  account_balances ← get_account_balances d buffer (elements (reverted_account_balances_keys account_deltas txs));
  new_latest_block ← ok_or (ReorgBuffer.get_most_recent_block buffer)
    (ReorgBufferError "Reorg buffer is empty after purge");
  last_reverted ← ok_or (last reverted) (ReorgBufferError "Reorg buffer is empty after purge");
  Ok (BlockAggregatedChanges.mk name chain new_latest_block
        (BlockChanges.finalized_block_height (BlockUpdateWithCursor.block_update last_reverted)) None true
        state_deltas account_deltas ∅ deletions creations component_balances account_balances ∅
        DCIUpdate.default_ partial_index).

(** [BlockUndoSignal] *)
Record BlockUndoSignal := mk_undo {
  last_valid_block : option string;
  last_valid_cursor : string
}.

(** Purge both buffers: what is reverted, and the index of a revert of a partial block only. *)
Definition purge_buffers (block_hash : Bytes) :
    stm extractor ExtractionError (list BlockUpdateWithCursor.t * option Z) :=
  st_bind (on_field reorg_buffer set_buffer
             (st_map_err (fun e => ReorgBufferError (show_storage e)) (ReorgBuffer.purge block_hash)))
    (fun reverted self =>
       match partial_block_buffer self with
       | Some partial =>
           (Ok (reverted ++ [BlockUpdateWithCursor.mk partial (cursor self)],
                if bool_decide (reverted = []) then BlockChanges.partial_block_index partial else None),
            set_partial None self)
       | None => (Ok (reverted, None), self)
       end).

Definition revert_plugin (block_hash : Bytes) : stm extractor ExtractionError unit := fun self =>
  match dci_plugin self with
  | Some p => let '(r, p) := ExtractorExtension.process_revert block_hash p in (r, set_plugin (Some p) self)
  | None => (Ok tt, self)
  end.

Definition handle_revert (inp : BlockUndoSignal) :
    stm extractor ExtractionError (option BlockAggregatedChanges.t) := fun self =>
  match last_valid_block inp with
  | None => (Err (ExtractionDecodeError "Revert without block ref"), self)
  | Some id =>
  match parse_bytes id with
  | None => (Err (ExtractionDecodeError "Failed to parse as block hash"), self)
  | Some block_hash =>
      if negb (first_message_processed self)
      then (Ok None, update_cursor (last_valid_cursor inp) self)
      else
        (revert_plugin block_hash ;?
         st_bind (purge_buffers block_hash) (fun '(reverted, partial_index) self =>
           match revert_message (gateway self) (name self) (chain self) (reorg_buffer self) reverted partial_index with
           | Ok m =>
               (Ok (Some m),
                update_cursor (last_valid_cursor inp)
                  (update_last_processed_block (BlockAggregatedChanges.block m) self))
           | Err e => (Err e, self)
           | Panic => (Panic, self)
           end)) self
  end end.

(** * Construction *)

Definition new (d : D) (database_insert_batch_size : nat) (name : string) (chain : Chain) (cache : C)
    (plugin : option P) : result ExtractionError extractor :=
  let res :=
    match ExtractorGateway.get_cursor d with
    | Err (NotFound _ _) =>
        Ok (mk d None None database_insert_batch_size name chain cache "" None false ReorgBuffer.new None plugin)
    | Ok (cursor, block_hash) =>
        last_processed_block ← map_err (fun e => Setup (show_storage e)) (ExtractorGateway.get_block d block_hash);
        Ok (mk d None (Some (Block.number last_processed_block)) database_insert_batch_size name chain cache cursor
              (Some last_processed_block) false ReorgBuffer.new None plugin)
    | Err e => Err (Setup (show_storage e))
    | Panic => Panic
    end in
  s ← res;
  match ExtractorGateway.ensure_protocol_types (gateway s) with
  | (Ok _, d) => Ok (set_gateway d (commit_handle s) (committed_block_height s) s)
  | (Err e, _) => Err (Storage e)
  | (Panic, _) => Panic
  end.
End extractor.
