(* ===== verification/RevertFacts.v ===== *)
(** Lemmas about the reverts of the protocol extractor: the folds that build a revert message,
    the reads of the values before the reverted blocks ([StoredView] is what they ask of the
    database), and the state of a component or an account after some transactions. *)

From Stdlib Require Import SpecFloat Strings.Byte.
From S2P Require Import Prelude Collections Bytes Models Blockchain Deltas ReorgBuffer ReorgBufferSpec Extractor.

Open Scope tycho_scope.

(** * Folds that write to keys *)

Section writes.
Context {S K V W : Type} `{EqDecision K} (get : S → K → option W) (step : S → K * V → S) (g : V → W).
Hypothesis step_get : ∀ s k v k', get (step s (k, v)) k' = if decide (k' = k) then Some (g v) else get s k'.

(** Writes that agree with a function leave its values. *)
Lemma foldl_writes (f : K → option V) l s k :
  (∀ k v, (k, v) ∈ l → f k = Some v) →
  get (foldl step s l) k = if decide (k ∈ l.*1) then g <$> f k else get s k.
Proof.
  revert s; induction l as [|[k0 v0] l IH]; intros s Hf; simpl; [done|].
  rewrite IH by (intros; apply Hf; by right). rewrite step_get.
  destruct (decide (k ∈ l.*1)) as [Hk|Hk]; [by rewrite decide_True by by right|].
  destruct (decide (k = k0)) as [->|Hne].
  - rewrite decide_True by left. by rewrite (Hf k0 v0) by left.
  - rewrite decide_False; [done|]. by intros [?|?]%elem_of_cons.
Qed.
End writes.

Lemma elem_of_fst {A B} (l : list (A * B)) a : a ∈ l.*1 ↔ ∃ b, (a, b) ∈ l.
Proof.
  rewrite list_elem_of_fmap. split.
  - intros ([a' b] & -> & Hab). by exists b.
  - intros [b Hab]. by exists (a, b).
Qed.

Lemma foldl_writes_map {S K V} `{Countable K} (get : S → K → option V) (step : S → K * V → S) (m : gmap K V) s k :
  (∀ s k v k', get (step s (k, v)) k' = if decide (k' = k) then Some v else get s k') →
  get (foldl step s (map_to_list m)) k = match m !! k with Some v => Some v | None => get s k end.
Proof.
  intros Hstep. rewrite (foldl_writes get step id Hstep (fun k => m !! k)), option_fmap_id.
  2:{ intros k' v'. by rewrite elem_of_map_to_list. }
  destruct (m !! k) as [v|] eqn:E.
  - rewrite decide_True; [done|]. apply elem_of_fst. exists v. by apply elem_of_map_to_list.
  - rewrite decide_False; [done|]. intros [v Hv]%elem_of_fst. apply elem_of_map_to_list in Hv. congruence.
Qed.

Lemma lookup_collect_map {K V} `{Countable K} (f : K → V) (keys : list K) k :
  collect_map ((fun k => (k, f k)) <$> keys) !! k = if decide (k ∈ keys) then Some (f k) else None.
Proof.
  unfold collect_map.
  rewrite (foldl_writes (fun (m : gmap K V) k => m !! k) (fun m kv => <[kv.1 := kv.2]> m) id)
    with (f := fun k => Some (f k)).
  - rewrite lookup_empty. rewrite <-list_fmap_compose.
    replace ((fst ∘ (fun k0 : K => (k0, f k0))) <$> keys) with keys; [done|].
    symmetry. etrans; [|apply list_fmap_id]. done.
  - intros s k1 v k2. simpl. case_decide as Hk; [subst; by rewrite lookup_insert_eq|by rewrite lookup_insert_ne].
  - intros k1 v. rewrite list_elem_of_fmap. by intros (k2 & [= -> ->] & _).
Qed.

(** [group_keys] has exactly the keys, no entry empty. *)
Lemma group_keys_spec {A K} `{Countable A, Countable K} (keys : gset (A * K)) :
  (∀ a k, (∃ ks, group_keys keys !! a = Some ks ∧ k ∈ ks) ↔ (a, k) ∈ keys) ∧
  (∀ a ks, group_keys keys !! a = Some ks → ∃ k, k ∈ ks).
Proof.
  unfold group_keys.
  assert (∀ l (acc : gmap A (list K)),
    (∀ a ks, acc !! a = Some ks → ∃ k, k ∈ ks) →
    let r := foldl (fun acc '(a, k) => <[a := default [] (acc !! a) ++ [k]]> acc) acc l in
    (∀ a k, (∃ ks, r !! a = Some ks ∧ k ∈ ks) ↔ (∃ ks, acc !! a = Some ks ∧ k ∈ ks) ∨ (a, k) ∈ l) ∧
    (∀ a ks, r !! a = Some ks → ∃ k, k ∈ ks)) as Hgen.
  { intros l; induction l as [|[a0 k0] l IH]; intros acc Hacc; simpl.
    { split; [|done]. intros a k. rewrite elem_of_nil. tauto. }
    destruct (IH (<[a0 := default [] (acc !! a0) ++ [k0]]> acc)) as [IH1 IH2].
    { intros a ks. destruct (decide (a = a0)) as [->|Hne].
      - rewrite lookup_insert_eq. intros [= <-]. exists k0. set_solver.
      - rewrite lookup_insert_ne by done. apply Hacc. }
    split; [|done]. intros a k. rewrite IH1, elem_of_cons. destruct (decide (a = a0)) as [->|Hne].
    - rewrite lookup_insert_eq. split.
      + intros [(ks & [= <-] & [Hk| ->%list_elem_of_singleton]%elem_of_app)|?]; [|tauto|tauto].
        destruct (acc !! a0) as [ks|]; [|by apply elem_of_nil in Hk]. left. by exists ks.
      + intros [(ks & -> & Hk)|[[= ->]|?]]; [| |tauto]; left; eexists; (split; [done|]); set_solver.
    - rewrite lookup_insert_ne by done. split; [tauto|]. intros [?|[[= -> ->]|?]]; tauto. }
  destruct (Hgen (elements keys) ∅) as [H1 H2]; [by intros ??; rewrite lookup_empty|].
  split; [|done]. intros a k. rewrite H1, elem_of_elements. split; [|tauto].
  intros [(ks & Hks & _)|?]; [by rewrite lookup_empty in Hks|done].
Qed.

(** * Balances *)

Section combine.
Context {A V : Type} `{Countable A}.
Implicit Types (acc buffered stored : gmap A (gmap Bytes V)).

Lemma at_pair_extend_step acc a b (k : A * Bytes) :
  at_pair (<[a := extend (default ∅ (acc !! a)) b]> acc) k =
    match (if decide (k.1 = a) then b !! k.2 else None) with Some v => Some v | None => at_pair acc k end.
Proof.
  unfold at_pair. destruct (decide (k.1 = a)) as [->|Hne]; [|by rewrite lookup_insert_ne].
  rewrite lookup_insert_eq. simpl. rewrite lookup_extend.
  destruct (b !! k.2); [done|]. by destruct (acc !! a); simpl; rewrite ?lookup_empty.
Qed.

Lemma foldl_extend_agree (f : A * Bytes → option V) (l : list (A * gmap Bytes V)) acc k :
  (∀ a b t v, (a, b) ∈ l → b !! t = Some v → f (a, t) = Some v) →
  at_pair (foldl (fun acc '(a, b) => <[a := extend (default ∅ (acc !! a)) b]> acc) acc l) k =
    f k ∧ (∃ b, (k.1, b) ∈ l ∧ is_Some (b !! k.2)) ∨
  at_pair (foldl (fun acc '(a, b) => <[a := extend (default ∅ (acc !! a)) b]> acc) acc l) k =
    at_pair acc k ∧ ¬ (∃ b, (k.1, b) ∈ l ∧ is_Some (b !! k.2)).
Proof.
  revert acc; induction l as [|[a b] l IH]; intros acc Hf; simpl.
  { right. split; [done|]. intros (b & Hb & _). by apply elem_of_nil in Hb. }
  destruct (IH (<[a := extend (default ∅ (acc !! a)) b]> acc)) as [[-> (b' & Hb' & Hs)]|[-> Hn]].
  { intros; eapply Hf; [by right|done]. }
  { left. split; [done|]. exists b'. split; [by right|done]. }
  rewrite at_pair_extend_step. destruct k as [x t]; simpl in *.
  destruct (decide (x = a)) as [->|Hne].
  - destruct (b !! t) as [v|] eqn:Eb.
    + left. split; [|exists b; split; [left|by rewrite Eb]]. symmetry. eapply Hf; [left|done].
    + right. split; [done|]. intros (b' & [[= ->]|Hb']%elem_of_cons & Hs).
      * rewrite Eb in Hs. by destruct Hs.
      * apply Hn. by exists b'.
  - right. split; [done|]. intros (b' & [[= -> ->]|Hb']%elem_of_cons & Hs); [done|]. apply Hn. by exists b'.
Qed.

(** A buffered value wins; a key asked of the database has its stored value or the default. *)
Lemma combine_balances_spec (missing : gmap A (list Bytes)) stored absent buffered a t :
  at_pair (combine_balances missing stored absent buffered) (a, t) =
    match at_pair buffered (a, t) with
    | Some v => Some v
    | None =>
        if decide (t ∈ default [] (missing !! a))
        then Some (default (absent a t) (at_pair stored (a, t))) else None
    end.
Proof.
  unfold combine_balances. rewrite foldl_app.
  match goal with |- at_pair (foldl _ (foldl ?st ∅ ?l) _) _ = _ => set (acc := foldl st ∅ l) end.
  assert (at_pair acc (a, t) =
    if decide (t ∈ default [] (missing !! a)) then Some (default (absent a t) (at_pair stored (a, t))) else None)
    as Hacc.
  { subst acc. match goal with |- at_pair (foldl _ ∅ ?l) _ = _ =>
      destruct (foldl_extend_agree (fun k => Some (default (absent k.1 k.2) (at_pair stored k))) l ∅ (a, t))
        as [[-> Hex]|[-> Hn]] end.
    - intros x b y v. rewrite list_elem_of_fmap. intros ([x' ks] & [= -> ->] & _).
      rewrite lookup_collect_map. case_decide; [|done]. intros [= <-]. simpl. unfold at_pair; simpl.
      by destruct (stored !! x').
    - rewrite decide_True; [done|]. destruct Hex as (b & Hb & Hs). simpl in *.
      apply list_elem_of_fmap in Hb as ([x ks] & [= <- ->] & Hx%elem_of_map_to_list). rewrite Hx; simpl.
      rewrite lookup_collect_map in Hs. case_decide; [done|by destruct Hs].
    - unfold at_pair at 1. rewrite lookup_empty. simpl. rewrite decide_False; [done|].
      intros Ht. apply Hn. destruct (missing !! a) as [ks|] eqn:E; [|by apply elem_of_nil in Ht].
      simpl in *. eexists. split.
      + apply list_elem_of_fmap. exists (a, ks). split; [reflexivity|]. by apply elem_of_map_to_list.
      + rewrite lookup_collect_map. by rewrite decide_True. }
  destruct (foldl_extend_agree (at_pair buffered) (map_to_list buffered) acc (a, t)) as [[-> Hex]|[-> Hn]].
  - intros x b y v Hb%elem_of_map_to_list Hy. unfold at_pair. simpl. by rewrite Hb.
  - destruct Hex as (b & Hb%elem_of_map_to_list & [v Hv]). unfold at_pair. simpl in *. by rewrite Hb; simpl; rewrite Hv.
  - rewrite Hacc. destruct (at_pair buffered (a, t)) as [v|] eqn:E; [|done]. exfalso. apply Hn.
    unfold at_pair in E. simpl in *. destruct (buffered !! a) as [b|] eqn:Eb; [|done].
    exists b. split; [by apply elem_of_map_to_list|by exists v].
Qed.
End combine.

(** * State deltas by attribute *)

Definition updates_of (u : gmap string ProtocolComponentStateDelta.t) (k : string * string) : option Bytes :=
  u !! k.1 ≫= fun d => ProtocolComponentStateDelta.updated_attributes d !! k.2.
Definition deletions_of (u : gmap string ProtocolComponentStateDelta.t) (c : string) : gset string :=
  default ∅ (ProtocolComponentStateDelta.deleted_attributes <$> u !! c).

Lemma native_effect_attribute u b s k :
  ProtocolComponentState.attributes (native_effect u b s) !! k =
    if decide (k ∈ deletions_of u (ProtocolComponentState.component_id s)) then None
    else match updates_of u (ProtocolComponentState.component_id s, k) with
         | Some v => Some v
         | None => ProtocolComponentState.attributes s !! k
         end.
Proof.
  unfold native_effect, updates_of, deletions_of. simpl.
  transitivity (ProtocolComponentState.attributes
    (match u !! ProtocolComponentState.component_id s with
     | Some d => ProtocolComponentState.with_state_delta d s | None => s end) !! k).
  { by destruct (b !! _). }
  destruct (u !! _) as [d|]; simpl; [apply lookup_with_state_delta|].
  by rewrite decide_False by set_solver.
Qed.

Lemma native_effect_balance u b s t :
  ProtocolComponentState.balances (native_effect u b s) !! t =
    match at_pair b (ProtocolComponentState.component_id s, t) with
    | Some cb => Some (ComponentBalance.balance cb)
    | None => ProtocolComponentState.balances s !! t
    end.
Proof.
  unfold native_effect, at_pair. simpl. destruct (b !! _) as [m|]; simpl.
  - rewrite lookup_extend, lookup_fmap. by destruct (m !! t); simpl; [|destruct (u !! _)].
  - by destruct (u !! _).
Qed.

(** The state of a component after some transactions. *)
Definition component_after (txs : list TxWithChanges.t) (s : ProtocolComponentState.t) : ProtocolComponentState.t :=
  foldl (fun s tx => native_effect (TxWithChanges.state_updates tx) (TxWithChanges.balance_changes tx) s) s txs.

(** The last value written to an attribute and to a balance. *)
Definition written_attribute (txs : list TxWithChanges.t) : string * string → option Bytes :=
  newest (fun tx => updates_of (TxWithChanges.state_updates tx)) (reverse txs).
Definition written_balance (txs : list TxWithChanges.t) : string * Bytes → option ComponentBalance.t :=
  newest (fun tx => at_pair (TxWithChanges.balance_changes tx)) (reverse txs).

Definition deletes (txs : list TxWithChanges.t) (c k : string) : Prop :=
  ∃ tx, tx ∈ txs ∧ k ∈ deletions_of (TxWithChanges.state_updates tx) c.

Lemma component_after_app l1 l2 s : component_after (l1 ++ l2) s = component_after l2 (component_after l1 s).
Proof. apply foldl_app. Qed.

Lemma component_after_id txs s :
  ProtocolComponentState.component_id (component_after txs s) = ProtocolComponentState.component_id s.
Proof.
  revert s; induction txs as [|tx txs IH]; intros s; simpl; [done|].
  rewrite IH. apply native_effect_id.
Qed.

Lemma written_snoc {T K V} (get : T → K → option V) l x k :
  newest get (reverse (l ++ [x])) k = match get x k with Some v => Some v | None => newest get (reverse l) k end.
Proof. by rewrite reverse_snoc. Qed.

Lemma attribute_after txs s k :
  ¬ deletes txs (ProtocolComponentState.component_id s) k →
  ProtocolComponentState.attributes (component_after txs s) !! k =
    match written_attribute txs (ProtocolComponentState.component_id s, k) with
    | Some v => Some v
    | None => ProtocolComponentState.attributes s !! k
    end.
Proof.
  induction txs as [|tx txs IH] using rev_ind; intros Hd; [done|].
  rewrite component_after_app. simpl. rewrite native_effect_attribute, component_after_id.
  unfold written_attribute. rewrite written_snoc. rewrite decide_False.
  2:{ intros Hk. apply Hd. exists tx. set_solver. }
  destruct (updates_of _ _); [done|]. apply IH.
  intros (tx' & Htx & Hk). apply Hd. exists tx'. set_solver.
Qed.

Lemma balance_after txs s t :
  ProtocolComponentState.balances (component_after txs s) !! t =
    match written_balance txs (ProtocolComponentState.component_id s, t) with
    | Some cb => Some (ComponentBalance.balance cb)
    | None => ProtocolComponentState.balances s !! t
    end.
Proof.
  induction txs as [|tx txs IH] using rev_ind; [done|].
  rewrite component_after_app. simpl. rewrite native_effect_balance, component_after_id.
  unfold written_balance. rewrite written_snoc. by destruct (at_pair _ _).
Qed.

(** * The deltas of a revert *)

Lemma updates_of_or_insert acc c new change k' :
  updates_of (or_insert_delta acc c new change) k' =
    if decide (k'.1 = c)
    then ProtocolComponentStateDelta.updated_attributes (change (default new (acc !! c))) !! k'.2
    else updates_of acc k'.
Proof.
  unfold updates_of, or_insert_delta. case_decide as Hk; [by rewrite Hk, lookup_insert_eq|].
  by rewrite lookup_insert_ne.
Qed.

Lemma deletions_of_or_insert acc c new change c' :
  deletions_of (or_insert_delta acc c new change) c' =
    if decide (c' = c)
    then ProtocolComponentStateDelta.deleted_attributes (change (default new (acc !! c)))
    else deletions_of acc c'.
Proof.
  unfold deletions_of, or_insert_delta. case_decide as Hk; [by rewrite Hk, lookup_insert_eq|].
  by rewrite lookup_insert_ne.
Qed.

Section revert_deltas.
Context (not_found created : gmap string (gset string)).

Lemma add_value_updates acc k v k' :
  updates_of (add_value not_found acc (k, v)) k' = if decide (k' = k) then Some v else updates_of acc k'.
Proof.
  unfold add_value. destruct k as [c a], k' as [c' a']. rewrite updates_of_or_insert. simpl.
  destruct (decide (c' = c)) as [->|Hc]; [|by rewrite decide_False by congruence].
  destruct (decide (a' = a)) as [->|Ha].
  - rewrite lookup_insert_eq. by rewrite decide_True.
  - rewrite lookup_insert_ne, decide_False by congruence. unfold updates_of; simpl.
    by destruct (acc !! c).
Qed.

(** In the first two folds the deleted keys of a delta are the ones that were not found. *)
Definition deletions_kept (acc : gmap string ProtocolComponentStateDelta.t) : Prop :=
  ∀ c d, acc !! c = Some d → ProtocolComponentStateDelta.deleted_attributes d = default ∅ (not_found !! c).

Lemma add_values_kept l acc : deletions_kept acc → deletions_kept (foldl (add_value not_found) acc l).
Proof.
  revert acc; induction l as [|[[c a] v] l IH]; intros acc Hacc; simpl; [done|].
  apply IH. intros c' d. unfold add_value, or_insert_delta; simpl.
  destruct (decide (c' = c)) as [->|Hc].
  - rewrite lookup_insert_eq. intros [= <-]. simpl.
    destruct (acc !! c) as [d|] eqn:E; simpl; [by apply Hacc|done].
  - rewrite lookup_insert_ne by done. apply Hacc.
Qed.

Lemma add_not_found_spec l acc :
  deletions_kept acc → (∀ c ks, (c, ks) ∈ l → not_found !! c = Some ks) →
  deletions_kept (foldl add_not_found acc l) ∧
  (∀ k, updates_of (foldl add_not_found acc l) k = updates_of acc k) ∧
  (∀ c, is_Some (acc !! c) ∨ c ∈ l.*1 → is_Some (foldl add_not_found acc l !! c)).
Proof.
  revert acc; induction l as [|[c ks] l IH]; intros acc Hacc Hl; simpl.
  { split_and!; [done|done|]. intros c [?|Hc]; [done|by apply elem_of_nil in Hc]. }
  assert (not_found !! c = Some ks) as Hc by (apply Hl; left).
  destruct (IH (add_not_found acc (c, ks))) as (IH1 & IH2 & IH3).
  - intros c' d. unfold add_not_found, or_insert_delta; simpl. destruct (decide (c' = c)) as [->|Hne].
    + rewrite lookup_insert_eq. intros [= <-]. destruct (acc !! c) as [d|] eqn:E; simpl; [by apply Hacc|].
      by rewrite Hc.
    + rewrite lookup_insert_ne by done. apply Hacc.
  - intros c' ks' Hin. apply Hl. by right.
  - split_and!; [done| |].
    + intros k. rewrite IH2. unfold add_not_found. rewrite updates_of_or_insert; simpl.
      case_decide as Hk; [|done]. unfold updates_of. rewrite Hk. by destruct (acc !! c); simpl; rewrite ?lookup_empty.
    + intros c' Hc'. apply IH3. unfold add_not_found, or_insert_delta; simpl.
      destruct (decide (c' = c)) as [->|Hne]; [left; by rewrite lookup_insert_eq|].
      rewrite lookup_insert_ne by done. destruct Hc' as [?|[->|?]%elem_of_cons]; tauto.
Qed.

Lemma add_created_spec l acc :
  (∀ k, updates_of (foldl add_created acc l) k = updates_of acc k) ∧
  (∀ c a, a ∈ deletions_of (foldl add_created acc l) c ↔
     a ∈ deletions_of acc c ∨ ∃ ks, (c, ks) ∈ l ∧ a ∈ ks).
Proof.
  revert acc; induction l as [|[c ks] l IH]; intros acc; simpl.
  { split; [done|]. intros c a. split; [tauto|]. intros [?|(ks & Hks & _)]; [done|by apply elem_of_nil in Hks]. }
  destruct (IH (add_created acc (c, ks))) as [IH1 IH2]. split.
  - intros k. rewrite IH1. unfold add_created. rewrite updates_of_or_insert; simpl.
    case_decide as Hk; [|done]. unfold updates_of. rewrite Hk. by destruct (acc !! c); simpl; rewrite ?lookup_empty.
  - intros c' a. rewrite IH2. unfold add_created. rewrite deletions_of_or_insert; simpl.
    destruct (decide (c' = c)) as [->|Hne].
    + assert (ProtocolComponentStateDelta.deleted_attributes
        (default (ProtocolComponentStateDelta.new c ∅ ∅) (acc !! c)) = deletions_of acc c) as ->.
      { unfold deletions_of. by destruct (acc !! c). }
      set_solver.
    + set_solver.
Qed.

(** The values found are the updates; the keys that are not found, and those created in the
    reverted range, are the deletions. *)
Lemma revert_state_deltas_spec db_states buffered :
  (∀ k, updates_of (revert_state_deltas db_states buffered not_found created) k =
     match buffered !! k with Some v => Some v | None => db_states !! k end) ∧
  (∀ c a, a ∈ deletions_of (revert_state_deltas db_states buffered not_found created) c ↔
     a ∈ default ∅ (not_found !! c) ∨ a ∈ default ∅ (created !! c)).
Proof.
  unfold revert_state_deltas. rewrite foldl_app.
  set (r1 := foldl _ (foldl _ ∅ (map_to_list db_states)) (map_to_list buffered)).
  assert (deletions_kept r1) as Hr1.
  { do 2 apply add_values_kept. intros c d. by rewrite lookup_empty. }
  destruct (add_not_found_spec (map_to_list not_found) r1) as (H1 & H2 & H3); [done| |].
  { intros c ks. by rewrite elem_of_map_to_list. }
  destruct (add_created_spec (map_to_list created) (foldl add_not_found r1 (map_to_list not_found))) as [C1 C2].
  split.
  - intros k. rewrite C1, H2. unfold r1.
    rewrite !(foldl_writes_map updates_of (add_value not_found)) by apply add_value_updates.
    destruct (buffered !! k); [done|]. destruct (db_states !! k); [done|]. unfold updates_of. by rewrite lookup_empty.
  - intros c a. rewrite C2. f_equiv.
    + unfold deletions_of. destruct (foldl add_not_found r1 _ !! c) as [d|] eqn:E; simpl; [by rewrite (H1 c d E)|].
      destruct (not_found !! c) as [ks|] eqn:Ec; simpl; [|done].
      destruct (H3 c) as [d Hd]; [|congruence]. right. apply elem_of_fst. exists ks. by apply elem_of_map_to_list.
    + split.
      * intros (ks & Hks%elem_of_map_to_list & Ha). by rewrite Hks.
      * destruct (created !! c) as [ks|] eqn:E; simpl; [|set_solver]. intros Ha. exists ks.
        by rewrite elem_of_map_to_list.
Qed.
End revert_deltas.

(** * What the database answers *)

(** The gateway answers the reads of a revert from one state of components and accounts. *)
Class StoredView {D} `{!ExtractorGateway.t D} (d : D) (stored : string → option ProtocolComponentState.t)
    (contracts : Bytes → option Account.t) : Prop := {
  states_read ids : ∃ l, ExtractorGateway.get_protocol_states d ids = Ok l ∧
    ∀ c, c ∈ ids → snd <$> list_find (fun s => ProtocolComponentState.component_id s = c) l = stored c;
  contracts_read addresses : ∃ l, ExtractorGateway.get_contracts d addresses = Ok l ∧
    ∀ a, a ∈ addresses → snd <$> list_find (fun x => Account.address x = a) l = contracts a;
  balances_read ids : ∃ m, ExtractorGateway.get_components_balances d ids = Ok m ∧
    ∀ c t, c ∈ ids → ComponentBalance.balance <$> at_pair m (c, t) =
                     stored c ≫= fun s => ProtocolComponentState.balances s !! t;
  account_balances_read addresses : ∃ m, ExtractorGateway.get_account_balances d addresses = Ok m ∧
    ∀ a t, a ∈ addresses → at_pair m (a, t) = contracts a ≫= fun x => Account.token_balances x !! t
}.

Section found.
Context (stored : string → option ProtocolComponentState.t).

Definition stored_attribute (k : string * string) : option Bytes :=
  stored k.1 ≫= fun s => ProtocolComponentState.attributes s !! k.2.

Definition split_step (acc : gmap (string * string) Bytes * gmap string (gset string))
    (e : ProtocolComponentState.t * string) : gmap (string * string) Bytes * gmap string (gset string) :=
  let c_id := ProtocolComponentState.component_id e.1 in
  match ProtocolComponentState.attributes e.1 !! e.2 with
  | Some value => (<[(c_id, e.2) := value]> acc.1, acc.2)
  | None => (acc.1, <[c_id := default ∅ (acc.2 !! c_id) ∪ {[e.2]}]> acc.2)
  end.

Lemma split_found_flat l :
  split_found l = foldl split_step (∅, ∅) (l ≫= fun e => (fun k => (e.1, k)) <$> e.2).
Proof.
  unfold split_found. generalize (∅ : gmap (string * string) Bytes, ∅ : gmap string (gset string)) as acc.
  induction l as [|[st ks] l IH]; intros acc; [done|].
  rewrite bind_cons, foldl_app. simpl. rewrite IH. f_equal. clear IH.
  revert acc; induction ks as [|k ks IHk]; intros [db nf]; simpl; [done|]. rewrite IHk. f_equal.
Qed.

Lemma split_steps_spec l c k :
  (∀ st k, (st, k) ∈ l → stored (ProtocolComponentState.component_id st) = Some st) →
  let asked := (fun e => (ProtocolComponentState.component_id e.1, e.2)) <$> l in
  let r := foldl split_step (∅, ∅) l in
  r.1 !! (c, k) = (if decide ((c, k) ∈ asked) then stored_attribute (c, k) else None) ∧
  (k ∈ default ∅ (r.2 !! c) ↔ (c, k) ∈ asked ∧ stored_attribute (c, k) = None).
Proof.
  induction l as [|[st k0] l IH] using rev_ind; intros Hst; simpl.
  { rewrite !lookup_empty. simpl. set_solver. }
  assert (stored (ProtocolComponentState.component_id st) = Some st) as H0 by (apply (Hst st k0); set_solver).
  destruct IH as [IH1 IH2]; [intros; apply (Hst _ k1); set_solver|].
  rewrite foldl_app, fmap_app. simpl. set (r := foldl split_step _ l) in *. unfold split_step; simpl.
  set (c0 := ProtocolComponentState.component_id st) in *.
  assert (stored_attribute (c0, k0) = ProtocolComponentState.attributes st !! k0) as Ha
    by (unfold stored_attribute; simpl; by rewrite H0).
  rewrite <-Ha. set (asked := (fun e : ProtocolComponentState.t * string => _) <$> l) in *.
  destruct (decide ((c, k) = (c0, k0))) as [[= -> ->]|Hne].
  - rewrite decide_True by set_solver. destruct (stored_attribute (c0, k0)) as [v|]; simpl.
    + rewrite lookup_insert_eq. split; [done|]. rewrite IH2. naive_solver.
    + rewrite lookup_insert_eq, IH1. split; [by case_decide|]. simpl. set_solver.
  - assert ((c, k) ∈ asked ++ [(c0, k0)] ↔ (c, k) ∈ asked) as Hin by set_solver.
    rewrite (decide_ext _ _ _ _ Hin), Hin. destruct (stored_attribute (c0, k0)) as [v|]; simpl.
    + rewrite lookup_insert_ne by congruence. done.
    + split; [done|]. destruct (decide (c = c0)) as [->|Hc].
      * rewrite lookup_insert_eq; simpl. rewrite <-IH2. set_solver.
      * by rewrite lookup_insert_ne.
Qed.

(** Every component that is asked for is stored. *)
Lemma find_states_Ok (missing : gmap string (list string)) states :
  (∀ c ks, missing !! c = Some ks →
     snd <$> list_find (fun s => ProtocolComponentState.component_id s = c) states = stored c ∧ is_Some (stored c)) →
  ∃ l, find_states missing states = Ok l ∧
    (∀ st ks, (st, ks) ∈ l → stored (ProtocolComponentState.component_id st) = Some st) ∧
    (∀ c ks, missing !! c = Some ks ↔
       ∃ st, (st, ks) ∈ l ∧ ProtocolComponentState.component_id st = c).
Proof.
  intros Hm. unfold find_states.
  assert (∀ l : list (string * list string), (∀ c ks, (c, ks) ∈ l → missing !! c = Some ks) →
    ∃ r, mapM (fun '(component_id, keys) =>
      state ← ok_or (snd <$> list_find (fun s => ProtocolComponentState.component_id s = component_id) states)
        (Storage (NotFound "Component" component_id));
      Ok (state, keys)) l = Ok r ∧
    (∀ st ks, (st, ks) ∈ r → stored (ProtocolComponentState.component_id st) = Some st) ∧
    (∀ c ks, (c, ks) ∈ l ↔ ∃ st, (st, ks) ∈ r ∧ ProtocolComponentState.component_id st = c)) as Hgen.
  { induction l as [|[c ks] l IH]; intros Hl.
    { exists []. split_and!; [done| |]; set_solver. }
    destruct IH as (r & Hr & Hr1 & Hr2); [intros; apply Hl; by right|].
    destruct (Hm c ks) as [Hf [st Hst]]; [apply Hl; left|].
    assert (ProtocolComponentState.component_id st = c) as Hid.
    { rewrite Hst in Hf. destruct (list_find _ states) as [[i x]|] eqn:E; [|done].
      apply list_find_Some in E as (_ & E & _). simpl in Hf. by injection Hf as ->. }
    exists ((st, ks) :: r). split_and!.
    - cbn [mapM]. rewrite Hf, Hst. simpl. by rewrite Hr.
    - intros st' ks' [[= -> ->]|Hin]%elem_of_cons; [by rewrite Hid|by apply (Hr1 _ ks')].
    - intros c' ks'. rewrite elem_of_cons, Hr2. split.
      + intros [[= -> ->]|(st' & Hin & Hst')]; [by exists st; split; [left|]|]. exists st'. by split; [right|].
      + intros (st' & [[= -> ->]|Hin]%elem_of_cons & <-); [left; by rewrite Hid|]. right. by exists st'. }
  destruct (Hgen (map_to_list missing)) as (r & Hr & Hr1 & Hr2).
  { intros c ks. by rewrite elem_of_map_to_list. }
  exists r. split_and!; [done|done|]. intros c ks. by rewrite <-Hr2, elem_of_map_to_list.
Qed.

Lemma split_found_spec (missing : gmap string (list string)) l c k :
  (∀ st ks, (st, ks) ∈ l → stored (ProtocolComponentState.component_id st) = Some st) →
  (∀ c ks, missing !! c = Some ks ↔ ∃ st, (st, ks) ∈ l ∧ ProtocolComponentState.component_id st = c) →
  (split_found l).1 !! (c, k) =
    (if decide (k ∈ default [] (missing !! c)) then stored_attribute (c, k) else None) ∧
  (k ∈ default ∅ ((split_found l).2 !! c) ↔ k ∈ default [] (missing !! c) ∧ stored_attribute (c, k) = None).
Proof.
  intros H1 H2. rewrite split_found_flat.
  destruct (split_steps_spec (l ≫= fun e => (fun k => (e.1, k)) <$> e.2) c k) as [S1 S2].
  { intros st k' (e & Hk & He)%list_elem_of_bind. apply list_elem_of_fmap in Hk as (k'' & [= -> ->] & _).
    destruct e as [st ks]. by apply (H1 st ks). }
  assert ((c, k) ∈ (fun e => (ProtocolComponentState.component_id e.1, e.2)) <$>
      (l ≫= fun e => (fun k => (e.1, k)) <$> e.2) ↔ k ∈ default [] (missing !! c)) as Hin.
  { rewrite list_elem_of_fmap. split.
    - intros ([st k'] & [= -> ->] & (e & Hk & He)%list_elem_of_bind).
      apply list_elem_of_fmap in Hk as (k'' & [= -> ->] & Hk). destruct e as [st ks]. simpl in *.
      rewrite (proj2 (H2 _ ks)) by by exists st. done.
    - destruct (missing !! c) as [ks|] eqn:E; simpl; [|by intros ?%elem_of_nil]. intros Hk.
      apply H2 in E as (st & Hin & <-). exists (st, k). split; [done|].
      apply list_elem_of_bind. exists (st, ks). split; [|done]. apply list_elem_of_fmap. by exists k. }
  split; [|by rewrite S2, Hin]. rewrite S1. apply decide_ext, Hin.
Qed.
End found.

(** * Buffered values *)

#[global] Instance cursor_laws : UpdateEntryLaws BlockUpdateWithCursor.t.
Proof.
  split; intros b; set (u := BlockUpdateWithCursor.block_update b);
    [exact (protocol_state_filters u)|exact (account_state_filters u)|
     exact (component_balance_filters u)|exact (account_balance_filters u)].
Qed.

Definition slot_writes (tx : TxWithChanges.t) (k : Bytes * Bytes) : option Bytes :=
  TxWithChanges.account_deltas tx !! k.1 ≫= fun d => written_slots (AccountDelta.slots d) !! k.2.
Definition written_slot (txs : list TxWithChanges.t) : Bytes * Bytes → option Bytes :=
  newest slot_writes (reverse txs).

(** Values looked up in the blocks are values looked up in their transactions. *)
Lemma newest_blocks {A A' V} `{Countable A, Countable A'} (view : TxWithChanges.t → gmap A (gmap A' V))
    (get : TxWithChanges.t → A * A' → option V) (bs : list BlockUpdateWithCursor.t) k :
  (∀ tx, get tx k = at_pair (view tx) k) →
  newest (fun b k => filtered_updates (list_to_set [k])
      (view <$> BlockChanges.txs_with_update (BlockUpdateWithCursor.block_update b)) !! k) (reverse bs) k =
  newest get (reverse (txs_of bs)) k.
Proof.
  intros Hget. unfold txs_of.
  rewrite <-(newest_concat get (fun b => BlockChanges.txs_with_update (BlockUpdateWithCursor.block_update b))).
  apply newest_ext. intros b. rewrite lookup_filtered_updates, decide_True by set_solver.
  rewrite <-fmap_reverse, newest_fmap. apply newest_ext. intros tx. by rewrite Hget.
Qed.

Section lookups.
Context (buffer : ReorgBuffer.t BlockUpdateWithCursor.t).
Let txs := txs_of (ReorgBuffer.block_messages buffer).

Lemma buffered_attribute keys k :
  (ReorgBuffer.lookup_protocol_state keys buffer).1 !! k =
    (if decide (k ∈ keys) then written_attribute txs k else None) ∧
  (k ∈ (ReorgBuffer.lookup_protocol_state keys buffer).2 ↔ k ∈ keys ∧ written_attribute txs k = None).
Proof.
  destruct (proj1 (state_lookups_newest buffer) keys k) as [H1 H2]. rewrite H1, H2.
  assert (newest (fun b k => get_filtered_protocol_state_update b [k] !! k)
    (reverse (ReorgBuffer.block_messages buffer)) k = written_attribute txs k) as ->; [|done].
  apply (newest_blocks (fun x => ProtocolComponentStateDelta.updated_attributes <$> TxWithChanges.state_updates x)).
  intros tx. unfold at_pair, updates_of. rewrite lookup_fmap. by destruct (_ !! k.1).
Qed.

Lemma buffered_slot keys k :
  (ReorgBuffer.lookup_account_state keys buffer).1 !! k =
    (if decide (k ∈ keys) then written_slot txs k else None) ∧
  (k ∈ (ReorgBuffer.lookup_account_state keys buffer).2 ↔ k ∈ keys ∧ written_slot txs k = None).
Proof.
  destruct (proj2 (state_lookups_newest buffer) keys k) as [H1 H2]. rewrite H1, H2.
  assert (newest (fun b k => get_filtered_account_state_update b [k] !! k)
    (reverse (ReorgBuffer.block_messages buffer)) k = written_slot txs k) as ->; [|done].
  apply (newest_blocks (fun x => (fun d => written_slots (AccountDelta.slots d)) <$> TxWithChanges.account_deltas x)).
  intros tx. unfold at_pair, slot_writes. rewrite lookup_fmap. by destruct (_ !! k.1).
Qed.

Lemma buffered_balance keys id token :
  at_pair (ReorgBuffer.lookup_component_balances keys buffer).1 (id, token) =
    (if decide ((id, token) ∈ keys) then written_balance txs (id, token) else None) ∧
  ((id, token) ∈ (ReorgBuffer.lookup_component_balances keys buffer).2 ↔
     (id, token) ∈ keys ∧ written_balance txs (id, token) = None).
Proof.
  unfold at_pair. destruct (proj1 (balance_lookups_newest buffer) keys id token) as [H1 H2]. simpl.
  rewrite H1, H2.
  assert (newest (fun b k => get_filtered_component_balance_update b [k] !! k)
    (reverse (ReorgBuffer.block_messages buffer)) (id, token) = written_balance txs (id, token)) as ->; [|done].
  by apply (newest_blocks TxWithChanges.balance_changes).
Qed.
End lookups.

(** * The three reads of a revert *)

Section reads.
Context {D : Type} `{!ExtractorGateway.t D} (d : D).
Context (stored : string → option ProtocolComponentState.t) (contracts : Bytes → option Account.t).
Context `{!StoredView d stored contracts}.
Context (buffer : ReorgBuffer.t BlockUpdateWithCursor.t).
Let txs := txs_of (ReorgBuffer.block_messages buffer).

Lemma grouped_default {A K} `{Countable A, Countable K} (keys : gset (A * K)) a k :
  k ∈ default [] (group_keys keys !! a) ↔ (a, k) ∈ keys.
Proof.
  rewrite <-(proj1 (group_keys_spec keys)). destruct (group_keys keys !! a) as [ks|]; simpl.
  - split; [intros; by exists ks|]. by intros (? & [= ->] & ?).
  - split; [by intros ?%elem_of_nil|by intros (? & ? & ?)].
Qed.

Lemma grouped_key {A K} `{Countable A, Countable K} (keys : gset (A * K)) a k :
  (a, k) ∈ keys → a ∈ (map_to_list (group_keys keys)).*1.
Proof.
  intros (ks & Hks & _)%(proj1 (group_keys_spec keys)). apply elem_of_fst. exists ks.
  by apply elem_of_map_to_list.
Qed.

Lemma state_revert_spec created keys :
  (∀ c k, (c, k) ∈ keys → written_attribute txs (c, k) = None → is_Some (stored c)) →
  ∃ deltas, state_revert d buffer created keys = Ok deltas ∧
    (∀ k, updates_of deltas k =
       if decide (k ∈ keys)
       then match written_attribute txs k with Some v => Some v | None => stored_attribute stored k end
       else None) ∧
    (∀ c a, a ∈ deletions_of deltas c ↔
       ((c, a) ∈ keys ∧ written_attribute txs (c, a) = None ∧ stored_attribute stored (c, a) = None) ∨
       a ∈ default ∅ (created !! c)).
Proof.
  intros Hstored. unfold state_revert.
  destruct (ReorgBuffer.lookup_protocol_state keys buffer) as [buffered missing] eqn:El.
  assert (∀ k, buffered !! k = (if decide (k ∈ keys) then written_attribute txs k else None) ∧
    (k ∈ missing ↔ k ∈ keys ∧ written_attribute txs k = None)) as Hb.
  { intros k. pose proof (buffered_attribute buffer keys k) as Hk. by rewrite El in Hk. }
  destruct (states_read (d := d) (map_to_list (group_keys missing)).*1) as (l & Hl & Hfind). rewrite Hl. simpl.
  destruct (find_states_Ok stored (group_keys missing) l) as (r & Hr & Hr1 & Hr2).
  { intros c ks Hks. destruct (proj2 (group_keys_spec missing) c ks Hks) as [k Hk].
    assert ((c, k) ∈ missing) as Hck by (apply (proj1 (group_keys_spec missing)); by exists ks).
    split; [by apply Hfind, (grouped_key _ _ k)|]. apply Hb in Hck as [??]. by apply (Hstored c k). }
  rewrite Hr. simpl.
  assert (∀ c k, (split_found r).1 !! (c, k) =
      (if decide ((c, k) ∈ missing) then stored_attribute stored (c, k) else None) ∧
    (k ∈ default ∅ ((split_found r).2 !! c) ↔ (c, k) ∈ missing ∧ stored_attribute stored (c, k) = None)) as Hs.
  { intros c k. destruct (split_found_spec stored (group_keys missing) r c k Hr1 Hr2) as [S1 S2].
    rewrite S2, grouped_default. split; [|done]. rewrite S1. apply decide_ext, grouped_default. }
  destruct (split_found r) as [db_states not_found]. simpl in Hs.
  destruct (revert_state_deltas_spec not_found created db_states buffered) as [R1 R2].
  eexists. split; [reflexivity|]. split.
  - intros [c k]. rewrite R1. destruct (Hb (c, k)) as [-> Hm]. destruct (Hs c k) as [-> _].
    destruct (decide ((c, k) ∈ keys)) as [Hk|Hk].
    + destruct (written_attribute txs (c, k)) eqn:E; [done|]. by rewrite decide_True by tauto.
    + by rewrite decide_False by tauto.
  - intros c a. rewrite R2. destruct (Hs c a) as [_ ->]. destruct (Hb (c, a)) as [_ ->]. tauto.
Qed.

Lemma component_balances_before keys :
  ∃ m, get_component_balances d buffer keys = Ok m ∧
    ∀ c t, ComponentBalance.balance <$> at_pair m (c, t) =
      if decide ((c, t) ∈ keys)
      then Some (match written_balance txs (c, t) with
                 | Some b => ComponentBalance.balance b
                 | None => default [] (stored c ≫= fun s => ProtocolComponentState.balances s !! t)
                 end)
      else None.
Proof.
  unfold get_component_balances.
  destruct (ReorgBuffer.lookup_component_balances keys buffer) as [buffered missing] eqn:El.
  assert (∀ c t, at_pair buffered (c, t) =
      (if decide ((c, t) ∈ keys) then written_balance txs (c, t) else None) ∧
    ((c, t) ∈ missing ↔ (c, t) ∈ keys ∧ written_balance txs (c, t) = None)) as Hb.
  { intros c t. pose proof (buffered_balance buffer keys c t) as Hk. by rewrite El in Hk. }
  destruct (balances_read (d := d) (map_to_list (group_keys missing)).*1) as (m & Hm & Hread). rewrite Hm. simpl.
  eexists. split; [reflexivity|]. intros c t. rewrite combine_balances_spec.
  destruct (Hb c t) as [-> Hmiss]. pose proof (grouped_default missing c t) as Hg.
  destruct (decide ((c, t) ∈ keys)) as [Hk|Hk].
  - destruct (written_balance txs (c, t)) as [b|]; [done|]. rewrite decide_True by tauto. simpl. f_equal.
    rewrite <-Hread by (eapply grouped_key; apply Hmiss; tauto). by destruct (at_pair m (c, t)).
  - by rewrite decide_False by tauto.
Qed.

Lemma get_account_balances_Ok keys : ∃ m, get_account_balances d buffer keys = Ok m.
Proof.
  unfold get_account_balances. destruct (ReorgBuffer.lookup_account_balances keys buffer) as [buffered missing].
  destruct (account_balances_read (d := d) (map_to_list (group_keys missing)).*1) as (m & -> & _).
  simpl. by eexists.
Qed.

(** ** Slots *)

Definition slot_of (deltas : gmap Bytes AccountDelta.t) (k : Bytes * Bytes) : option (option Bytes) :=
  deltas !! k.1 ≫= fun x => AccountDelta.slots x !! k.2.
Definition stored_slot (k : Bytes * Bytes) : option Bytes :=
  contracts k.1 ≫= fun x => Account.slots x !! k.2.

Lemma revert_account_deltas_slot chain l (f : Bytes * Bytes → option Bytes) k :
  (∀ k v, (k, v) ∈ l → f k = Some v) →
  slot_of (revert_account_deltas chain l) k = if decide (k ∈ l.*1) then Some <$> f k else None.
Proof.
  intros Hf. unfold revert_account_deltas. rewrite (foldl_writes slot_of _ Some) with (f := f); [|clear|done].
  - unfold slot_of at 1. by rewrite lookup_empty.
  - intros s [a k] v [a' k']. unfold slot_of; simpl. destruct (decide (a' = a)) as [->|Ha].
    + rewrite lookup_insert_eq. simpl. destruct (decide (k' = k)) as [->|Hk].
      * rewrite lookup_insert_eq. by rewrite decide_True.
      * rewrite lookup_insert_ne, decide_False by congruence. by destruct (s !! a); simpl; rewrite ?lookup_empty.
    + by rewrite lookup_insert_ne, decide_False by congruence.
Qed.

Lemma account_revert_spec chain keys :
  ∃ deltas, account_revert d chain buffer keys = Ok deltas ∧
    (∀ k, slot_of deltas k =
       if decide (k ∈ keys)
       then Some (Some (match written_slot txs k with Some v => v | None => default [] (stored_slot k) end))
       else None).
Proof.
  unfold account_revert.
  destruct (ReorgBuffer.lookup_account_state keys buffer) as [buffered missing] eqn:El.
  assert (∀ k, buffered !! k = (if decide (k ∈ keys) then written_slot txs k else None) ∧
    (k ∈ missing ↔ k ∈ keys ∧ written_slot txs k = None)) as Hb.
  { intros k. pose proof (buffered_slot buffer keys k) as Hk. by rewrite El in Hk. }
  destruct (contracts_read (d := d) (map_to_list (group_keys missing)).*1) as (l & Hl & Hfind). rewrite Hl. simpl.
  eexists. split; [reflexivity|]. intros k.
  set (before := fun k => match written_slot txs k with Some v => v | None => default [] (stored_slot k) end).
  assert (∀ k v, (k, v) ∈ slots_before buffered (group_keys missing) l ↔ k ∈ keys ∧ v = before k) as Hin.
  { clear k. intros [a k] v. unfold slots_before. rewrite elem_of_app, elem_of_map_to_list, (proj1 (Hb _)).
    rewrite list_elem_of_bind. split.
    - intros [Hv|([a' ks] & Hk & Ha)].
      + case_decide; [|done]. split; [done|]. unfold before. by rewrite Hv.
      + apply list_elem_of_fmap in Hk as (k' & [= <- <- ->] & Hk). apply elem_of_map_to_list in Ha.
        assert ((a, k) ∈ missing) as Hm by (apply (proj1 (group_keys_spec missing)); by exists ks).
        rewrite Hfind by by apply (grouped_key _ _ k). apply Hb in Hm as [Hm Hw].
        split; [done|]. unfold before. by rewrite Hw.
    - intros [Hk ->]. unfold before. rewrite decide_True by done. destruct (written_slot txs (a, k)) as [v|] eqn:Ew.
      + by left.
      + right. assert ((a, k) ∈ missing) as Hm by by apply Hb.
        pose proof Hm as (ks & Hks & Hin)%(proj1 (group_keys_spec missing)).
        exists (a, ks). split; [|by apply elem_of_map_to_list]. apply list_elem_of_fmap. exists k.
        split; [|done]. by rewrite Hfind by by apply (grouped_key _ _ k). }
  rewrite (revert_account_deltas_slot chain _ (fun k => Some (before k))).
  2:{ intros k' v' [_ ->]%Hin. done. }
  simpl. apply decide_ext. rewrite elem_of_fst. split; [intros [v [??]%Hin]; done|].
  intros Hk. exists (before k). by apply Hin.
Qed.
End reads.

(** * What is reverted *)

Lemma newest_None {B K V} (get : B → K → option V) l k :
  newest get l k = None ↔ ∀ b, b ∈ l → get b k = None.
Proof.
  induction l as [|b l IH]; simpl; [set_solver|]. destruct (get b k) as [v|] eqn:E.
  - split; [done|]. intros Hl. specialize (Hl b ltac:(left)). congruence.
  - rewrite IH. split; [intros Hl b' [->|?]%elem_of_cons; [done|by apply Hl]|]. intros Hl b' Hb. apply Hl. by right.
Qed.

Lemma written_Some {B K V} (get : B → K → option V) l k :
  is_Some (newest get (reverse l) k) ↔ ∃ b, b ∈ l ∧ is_Some (get b k).
Proof.
  split.
  - assert (∀ b, b ∈ reverse l → b ∈ l) as Hin by (intros b; by rewrite elem_of_reverse). revert Hin.
    generalize (reverse l) as l'. induction l' as [|b l' IH]; simpl; intros Hin; [by intros []|].
    destruct (get b k) eqn:E.
    + intros _. exists b. split; [apply Hin; left|by eexists].
    + apply IH. intros b' Hb'. apply Hin. by right.
  - intros (b & Hb & Hv). apply not_eq_None_Some. intros Hn. apply (proj1 (newest_None _ _ _)) with (b := b) in Hn;
      [|by apply elem_of_reverse]. rewrite Hn in Hv. by destruct Hv.
Qed.

(** The first creation or deletion of a component. *)
Definition component_change (tx : TxWithChanges.t) (c : string) : option ProtocolComponent.t :=
  pc ← TxWithChanges.protocol_components tx !! c;
  if decide (ProtocolComponent.change pc = Update) then None else Some pc.
Definition first_change (txs : list TxWithChanges.t) : string → option ProtocolComponent.t :=
  newest component_change txs.

Definition undone (first : option ProtocolComponent.t) (from to : ChangeType) : option ProtocolComponent.t :=
  pc ← first; if decide (ProtocolComponent.change pc = from) then Some (with_change to pc) else None.

(** One component of a transaction, as [reverted_components] treats it. *)
Definition undo_component (acc : gmap string ProtocolComponent.t * gmap string ProtocolComponent.t)
    (e : string * ProtocolComponent.t) : gmap string ProtocolComponent.t * gmap string ProtocolComponent.t :=
  match acc.1 !! e.1, acc.2 !! e.1 with
  | None, None =>
      match ProtocolComponent.change e.2 with
      | Update => acc
      | Deletion => (acc.1, <[e.1 := with_change Creation e.2]> acc.2)
      | Creation => (<[e.1 := with_change Deletion e.2]> acc.1, acc.2)
      end
  | _, _ => acc
  end.

Lemma reverted_components_steps txs :
  reverted_components txs =
  foldl (fun acc tx => foldl undo_component acc (map_to_list (TxWithChanges.protocol_components tx))) (∅, ∅) txs.
Proof.
  unfold reverted_components.
  generalize (∅ : gmap string ProtocolComponent.t, ∅ : gmap string ProtocolComponent.t) as acc.
  induction txs as [|tx txs IH]; intros acc; simpl; [done|]. rewrite IH. f_equal. clear.
  generalize (map_to_list (TxWithChanges.protocol_components tx)) as l. intros l.
  revert acc. induction l as [|[c pc] l IH]; intros [cr de]; simpl; [done|]. rewrite IH. f_equal.
Qed.

(** The accumulators hold the undone first change [o] of a component. *)
Definition undone_as (o : option ProtocolComponent.t)
    (acc : gmap string ProtocolComponent.t * gmap string ProtocolComponent.t) (c : string) : Prop :=
  acc.1 !! c = undone o Creation Deletion ∧ acc.2 !! c = undone o Deletion Creation ∧
  (∀ pc, o = Some pc → ProtocolComponent.change pc ≠ Update).

Lemma undo_components_spec l acc c o :
  NoDup l.*1 → undone_as o acc c →
  undone_as (match o with
             | Some pc => Some pc
             | None => pc ← (list_to_map l : gmap string ProtocolComponent.t) !! c;
                       if decide (ProtocolComponent.change pc = Update) then None else Some pc
             end) (foldl undo_component acc l) c.
Proof.
  revert acc o; induction l as [|[c0 pc0] l IH]; intros acc o Hnd Ho; simpl.
  { rewrite lookup_empty. simpl. by destruct o. }
  apply NoDup_cons in Hnd as [Hc0 Hnd]. simpl in Hc0.
  pose proof Ho as (H1 & H2 & H3). destruct (decide (c = c0)) as [->|Hne].
  - rewrite lookup_insert_eq. simpl. assert ((list_to_map l : gmap string ProtocolComponent.t) !! c0 = None) as Hl
      by by apply not_elem_of_list_to_map_1.
    specialize (IH (undo_component acc (c0, pc0))
      (match o with Some pc => Some pc
       | None => if decide (ProtocolComponent.change pc0 = Update) then None else Some pc0 end) Hnd).
    rewrite Hl in IH. simpl in IH.
    assert (undone_as (match o with Some pc => Some pc
       | None => if decide (ProtocolComponent.change pc0 = Update) then None else Some pc0 end)
       (undo_component acc (c0, pc0)) c0) as Hs; [|by specialize (IH Hs); destruct o; [|case_decide]].
    clear IH. unfold undo_component; simpl. rewrite H1, H2. destruct o as [pc|]; simpl in *.
    + specialize (H3 pc eq_refl). destruct (ProtocolComponent.change pc) eqn:E; simpl; try done;
        by destruct acc.
    + destruct (ProtocolComponent.change pc0) eqn:E; simpl; try done; (split_and!; simpl;
        [rewrite ?lookup_insert_eq, ?H1, ?E; done|rewrite ?lookup_insert_eq, ?H2, ?E; done|]); intros ? [= <-];
        by rewrite E.
  - rewrite lookup_insert_ne by done. apply IH; [done|]. unfold undo_component; simpl.
    destruct (acc.1 !! c0); [done|]. destruct (acc.2 !! c0); [done|].
    destruct (ProtocolComponent.change pc0); try done; split_and!; simpl; rewrite ?lookup_insert_ne by done; done.
Qed.

Lemma reverted_components_spec txs c :
  (reverted_components txs).1 !! c = undone (first_change txs c) Creation Deletion ∧
  (reverted_components txs).2 !! c = undone (first_change txs c) Deletion Creation.
Proof.
  rewrite reverted_components_steps.
  assert (∀ txs acc o, undone_as o acc c →
    undone_as (match o with Some pc => Some pc | None => first_change txs c end)
      (foldl (fun acc tx => foldl undo_component acc (map_to_list (TxWithChanges.protocol_components tx))) acc txs) c)
    as Hgen.
  { clear txs. induction txs as [|tx txs IH]; intros acc o Ho; simpl; [by destruct o|].
    pose proof (undo_components_spec (map_to_list (TxWithChanges.protocol_components tx)) acc c o
      (NoDup_fst_map_to_list _) Ho) as Hs. rewrite list_to_map_to_list in Hs. apply IH in Hs.
    unfold first_change in *; simpl. destruct o as [pc|]; [done|].
    unfold component_change. destruct (TxWithChanges.protocol_components tx !! c) as [pc|]; simpl in *; [|done].
    by case_decide. }
  destruct (Hgen txs (∅, ∅) None) as (H1 & H2 & _); [|done]. split_and!; simpl; [by rewrite lookup_empty..|done].
Qed.

(** ** Keys *)

Definition marks_created (txs : list TxWithChanges.t) (c k : string) : Prop :=
  ∃ tx d, tx ∈ txs ∧ TxWithChanges.state_updates tx !! c = Some d ∧
    k ∈ ProtocolComponentStateDelta.created_attributes d.

(** The attributes that a revert looks up. *)
Definition looked_up (txs : list TxWithChanges.t) (c k : string) : Prop :=
  deletes txs c k ∨ is_Some (written_attribute txs (c, k)) ∧ ¬ marks_created txs c k.

Section keys.
Context (creations : gmap string ProtocolComponent.t) (txs : list TxWithChanges.t).

Lemma reverted_created_attrs_spec c k :
  k ∈ default ∅ (reverted_created_attrs creations txs !! c) ↔ creations !! c = None ∧ marks_created txs c k.
Proof.
  unfold reverted_created_attrs.
  assert (∀ l (acc : gmap string (gset string)),
    k ∈ default ∅ (foldl (fun acc '(c_id, attr) => <[c_id := default ∅ (acc !! c_id) ∪ {[attr]}]> acc) acc l !! c) ↔
    k ∈ default ∅ (acc !! c) ∨ (c, k) ∈ l) as Hgen.
  { induction l as [|[c0 k0] l IH]; intros acc; simpl; [set_solver|].
    rewrite IH. destruct (decide (c = c0)) as [->|Hne].
    - rewrite lookup_insert_eq. simpl. set_solver.
    - rewrite lookup_insert_ne by done. set_solver. }
  rewrite Hgen, lookup_empty, list_elem_of_bind. simpl. split.
  - intros [?|(tx & Hck & Htx)]; [set_solver|]. apply list_elem_of_bind in Hck as ([c' d] & Hk & Hd).
    apply list_elem_of_fmap in Hk as (k' & [= -> ->] & Hk%elem_of_elements).
    apply list_elem_of_filter in Hd as [Hc Hd%elem_of_map_to_list]. split; [done|]. by exists tx, d.
  - intros (Hc & tx & d & Htx & Hd & Hk). right. exists tx. split; [|done]. apply list_elem_of_bind.
    exists (c, d). split; [|apply list_elem_of_filter; split; [done|by apply elem_of_map_to_list]].
    apply list_elem_of_fmap. exists k. split; [done|by apply elem_of_elements].
Qed.

(** The keys of a nested map of the reverted transactions, by entry. *)
Lemma elem_of_reverted {A B K} `{Countable A} (P : A → Prop) `{!∀ a, Decision (P a)} (m : TxWithChanges.t → gmap A B)
    (ks : A → B → list K) (a : A) (k : K) :
  (a, k) ∈ (txs ≫= fun tx => base.filter (fun e => P e.1) (map_to_list (m tx)) ≫=
              fun '(a, b) => (fun k => (a, k)) <$> ks a b) ↔
  P a ∧ ∃ tx b, tx ∈ txs ∧ m tx !! a = Some b ∧ k ∈ ks a b.
Proof.
  rewrite list_elem_of_bind. split.
  - intros (tx & Hk & Htx). apply list_elem_of_bind in Hk as ([a' b] & Hk & Hb).
    apply list_elem_of_fmap in Hk as (k' & [= -> ->] & Hk).
    apply list_elem_of_filter in Hb as [Ha Hb%elem_of_map_to_list]. split; [done|]. by exists tx, b.
  - intros (Ha & tx & b & Htx & Hb & Hk). exists tx. split; [|done]. apply list_elem_of_bind. exists (a, b).
    split; [apply list_elem_of_fmap; by exists k|]. apply list_elem_of_filter. split; [done|].
    by apply elem_of_map_to_list.
Qed.

Lemma reverted_state_keys_spec c k :
  (c, k) ∈ elements (reverted_protocol_state_keys creations (reverted_created_attrs creations txs) txs) ↔
  creations !! c = None ∧ looked_up txs c k.
Proof.
  rewrite elem_of_elements. unfold reverted_protocol_state_keys. rewrite elem_of_list_to_set.
  etrans; [refine (elem_of_reverted (fun c => creations !! c = None) TxWithChanges.state_updates (fun c_id delta =>
    base.filter (fun attr : string => attr ∉ default ∅ (reverted_created_attrs creations txs !! c_id))
      (map_to_list (ProtocolComponentStateDelta.updated_attributes delta)).*1 ++
    elements (ProtocolComponentStateDelta.deleted_attributes delta)) c k)|].
  unfold looked_up, deletes, written_attribute. rewrite written_Some. split.
  - intros (Hc & tx & d & Htx & Hd & Hk). split; [done|].
    apply elem_of_app in Hk as [[Hn Hk]%list_elem_of_filter|Hk%elem_of_elements].
    + right. rewrite reverted_created_attrs_spec in Hn. apply elem_of_fst in Hk as [v Hv%elem_of_map_to_list].
      split; [|tauto]. exists tx. split; [done|]. exists v. unfold updates_of; simpl. by rewrite Hd.
    + left. exists tx. split; [done|]. unfold deletions_of. by rewrite Hd.
  - intros (Hc & [(tx & Htx & Hk)|[(tx & Htx & v & Hv) Hn]]); (split; [done|]).
    + unfold deletions_of in Hk. destruct (TxWithChanges.state_updates tx !! c) as [d|] eqn:Hd; simpl in *; [|set_solver].
      exists tx, d. split_and!; [done|done|]. apply elem_of_app. right. by apply elem_of_elements.
    + unfold updates_of in Hv. simpl in Hv.
      destruct (TxWithChanges.state_updates tx !! c) as [d|] eqn:Hd; simpl in *; [|done].
      exists tx, d. split_and!; [done|done|]. apply elem_of_app. left. apply list_elem_of_filter.
      rewrite reverted_created_attrs_spec. split; [tauto|]. apply elem_of_fst. exists v. by apply elem_of_map_to_list.
Qed.

Lemma reverted_balance_keys_spec c t :
  (c, t) ∈ elements (reverted_component_balances_keys creations txs) ↔
  creations !! c = None ∧ is_Some (written_balance txs (c, t)).
Proof.
  rewrite elem_of_elements. unfold reverted_component_balances_keys. rewrite elem_of_list_to_set.
  etrans; [refine (elem_of_reverted (fun c => creations !! c = None) TxWithChanges.balance_changes
    (fun _ m => (map_to_list m).*1) c t)|].
  unfold written_balance. rewrite written_Some. f_equiv. split.
  - intros (tx & m & Htx & Hm & [b Hb%elem_of_map_to_list]%elem_of_fst). exists tx. split; [done|].
    exists b. unfold at_pair; simpl. by rewrite Hm.
  - intros (tx & Htx & b & Hb). unfold at_pair in Hb. simpl in Hb.
    destruct (TxWithChanges.balance_changes tx !! c) as [m|] eqn:Hm; [|done].
    exists tx, m. split_and!; [done|done|]. apply elem_of_fst. exists b. by apply elem_of_map_to_list.
Qed.

Lemma reverted_slot_keys_spec show a k :
  (a, k) ∈ elements (reverted_account_state_keys show creations txs) ↔
  creations !! show a = None ∧ is_Some (written_slot txs (a, k)).
Proof.
  rewrite elem_of_elements. unfold reverted_account_state_keys. rewrite elem_of_list_to_set.
  etrans; [refine (elem_of_reverted (fun a => creations !! show a = None) TxWithChanges.account_deltas
    (fun _ d => (map_to_list (AccountDelta.slots d)).*1) a k)|].
  unfold written_slot. rewrite written_Some. f_equiv. split.
  - intros (tx & d & Htx & Hd & [v Hv%elem_of_map_to_list]%elem_of_fst). exists tx. split; [done|].
    unfold slot_writes; simpl. rewrite Hd; simpl. unfold written_slots. rewrite lookup_fmap, Hv. by eexists.
  - intros (tx & Htx & v & Hv). unfold slot_writes in Hv. simpl in Hv.
    destruct (TxWithChanges.account_deltas tx !! a) as [d|] eqn:Hd; [|done]. simpl in Hv.
    unfold written_slots in Hv. rewrite lookup_fmap in Hv.
    destruct (AccountDelta.slots d !! k) as [w|] eqn:Hw; [|done].
    exists tx, d. split_and!; [done|done|]. apply elem_of_fst. exists w. by apply elem_of_map_to_list.
Qed.
End keys.

(** * The message *)

(** The state of an account after some transactions. *)
Definition account_after (txs : list TxWithChanges.t) (a : Account.t) : Account.t :=
  foldl (fun a tx => account_effect (TxWithChanges.account_deltas tx) (TxWithChanges.account_balance_changes tx) a) a txs.

Lemma account_effect_slot deltas b a k :
  Account.slots (account_effect deltas b a) !! k =
    match slot_of deltas (Account.address a, k) with
    | Some v => Some (default [] v)
    | None => Account.slots a !! k
    end.
Proof.
  unfold account_effect, slot_of. simpl.
  transitivity (Account.slots (match deltas !! Account.address a with
    | Some d => Account.with_delta d a | None => a end) !! k); [by destruct (b !! _)|].
  destruct (deltas !! _) as [d|]; simpl; [|done]. rewrite lookup_extend. unfold written_slots. rewrite lookup_fmap.
  by destruct (AccountDelta.slots d !! k).
Qed.

Lemma account_after_address txs a : Account.address (account_after txs a) = Account.address a.
Proof.
  revert a; induction txs as [|tx txs IH]; intros a; simpl; [done|]. rewrite IH. apply account_effect_address.
Qed.

Lemma slot_after txs a k :
  Account.slots (account_after txs a) !! k =
    match written_slot txs (Account.address a, k) with
    | Some v => Some v
    | None => Account.slots a !! k
    end.
Proof.
  induction txs as [|tx txs IH] using rev_ind; [done|]. unfold account_after. rewrite foldl_app. simpl.
  rewrite account_effect_slot. fold (account_after txs a). rewrite account_after_address.
  unfold written_slot. rewrite written_snoc. unfold slot_writes at 1, slot_of; simpl.
  destruct (TxWithChanges.account_deltas tx !! _) as [d|]; simpl; [|done]. unfold written_slots. rewrite lookup_fmap.
  by destruct (AccountDelta.slots d !! k).
Qed.

Definition first_created (txs : list TxWithChanges.t) (c : string) : Prop :=
  ∃ pc, first_change txs c = Some pc ∧ ProtocolComponent.change pc = Creation.

Lemma not_first_created txs c : ¬ first_created txs c ↔ (reverted_components txs).1 !! c = None.
Proof.
  rewrite (proj1 (reverted_components_spec txs c)). unfold first_created, undone.
  destruct (first_change txs c) as [pc|]; simpl; [|naive_solver]. case_decide; naive_solver.
Qed.

Section message.
Context {D : Type} `{!ExtractorGateway.t D} (d : D) (show : Bytes → string).
Context (stored : string → option ProtocolComponentState.t) (contracts : Bytes → option Account.t).
Context `{!StoredView d stored contracts}.

(** The state of a component, and of an account, when the kept blocks are the newest. *)
Definition component_at (kept : list BlockUpdateWithCursor.t) (c : string) : ProtocolComponentState.t :=
  component_after (txs_of kept) (default (ProtocolComponentState.mk c ∅ ∅) (stored c)).
Definition account_at (kept : list BlockUpdateWithCursor.t) (a : Account.t) : Account.t :=
  account_after (txs_of kept) a.

Lemma stored_component_id c :
  ProtocolComponentState.component_id (default (ProtocolComponentState.mk c ∅ ∅) (stored c)) = c.
Proof.
  destruct (states_read (d := d) [c]) as (l & _ & Hl). rewrite <-(Hl c) by left.
  destruct (list_find _ l) as [[i s]|] eqn:E; simpl; [|done]. by apply list_find_Some in E as (_ & -> & _).
Qed.

Lemma contract_address a x : contracts a = Some x → Account.address x = a.
Proof.
  destruct (contracts_read (d := d) [a]) as (l & _ & Hl). rewrite <-(Hl a) by left.
  destruct (list_find _ l) as [[i s]|] eqn:E; simpl; [|done]. apply list_find_Some in E as (_ & E & _).
  by intros [= <-].
Qed.

(** A message whose deltas are those of a revert restores a component. *)
Lemma deltas_restore kept reverted deltas balances c :
  ¬ first_created (txs_of reverted) c →
  (∀ k, updates_of deltas (c, k) = match written_attribute (txs_of kept) (c, k) with
          | Some v => Some v | None => stored_attribute stored (c, k) end ∧ looked_up (txs_of reverted) c k ∨
        updates_of deltas (c, k) = None ∧ ¬ looked_up (txs_of reverted) c k) →
  (∀ k, k ∈ deletions_of deltas c ↔
     looked_up (txs_of reverted) c k ∧ written_attribute (txs_of kept) (c, k) = None ∧
     stored_attribute stored (c, k) = None ∨ marks_created (txs_of reverted) c k) →
  (∀ k, marks_created (txs_of reverted) c k → ProtocolComponentState.attributes (component_at kept c) !! k = None) →
  (∀ k, looked_up (txs_of reverted) c k → ¬ marks_created (txs_of reverted) c k → ¬ deletes (txs_of kept) c k) →
  ProtocolComponentState.attributes (native_effect deltas balances (component_at (kept ++ reverted) c)) =
  ProtocolComponentState.attributes (component_at kept c).
Proof.
  intros Hc Hu Hd Hmark Hkept. apply map_eq. intros k. unfold component_at, txs_of in *.
  rewrite bind_app, component_after_app. fold (txs_of kept) (txs_of reverted) in *.
  set (base := default _ (stored c)) in *.
  assert (ProtocolComponentState.component_id base = c) as Hbase by apply stored_component_id.
  assert (stored_attribute stored (c, k) = ProtocolComponentState.attributes base !! k) as Hs.
  { unfold stored_attribute, base; simpl. by destruct (stored c); simpl; rewrite ?lookup_empty. }
  rewrite native_effect_attribute, !component_after_id, Hbase. specialize (Hd k). specialize (Hu k).
  case_decide as Hk.
  - apply Hd in Hk as [(Hl & Hw & Hn)|Hm]; [|by rewrite Hmark].
    destruct (decide (ProtocolComponentState.attributes (component_after (txs_of kept) base) !! k = None)) as [->|Hsome];
      [done|]. rewrite attribute_after, Hbase, Hw, <-Hs, Hn; [done|]. rewrite Hbase.
    intros Hdel. apply (Hkept k Hl); [|done]. intros Hm. by apply Hsome, Hmark.
  - destruct Hu as [[-> Hl]|[-> Hl]].
    + assert (¬ marks_created (txs_of reverted) c k) as Hm by tauto.
      rewrite (attribute_after (txs_of kept) base) by (rewrite Hbase; by apply Hkept). rewrite Hbase, <-Hs.
      destruct (written_attribute (txs_of kept) (c, k)); [done|].
      destruct (stored_attribute stored (c, k)) eqn:E; [done|]. destruct Hk. apply Hd. tauto.
    + assert (¬ deletes (txs_of reverted) c k ∧ written_attribute (txs_of reverted) (c, k) = None) as [Hnd Hnw].
      { unfold looked_up in Hl. split; [tauto|]. apply eq_None_not_Some. intros Hw. apply Hk, Hd. right.
        destruct (decide (k ∈ default ∅ (reverted_created_attrs (reverted_components (txs_of reverted)).1
          (txs_of reverted) !! c))) as [Hin|Hin].
        - by apply reverted_created_attrs_spec in Hin as [_ ?].
        - destruct Hl. right. split; [done|]. intros Hm. apply Hin, reverted_created_attrs_spec.
          split; [by apply not_first_created|done]. }
      rewrite attribute_after by by rewrite component_after_id, Hbase.
      by rewrite component_after_id, Hbase, Hnw.
Qed.

Lemma balances_restore kept reverted deltas balances c t :
  (ComponentBalance.balance <$> at_pair balances (c, t) =
     if decide (is_Some (written_balance (txs_of reverted) (c, t)))
     then Some (match written_balance (txs_of kept) (c, t) with
                | Some b => ComponentBalance.balance b
                | None => default [] (stored c ≫= fun s => ProtocolComponentState.balances s !! t)
                end)
     else None) →
  default [] (ProtocolComponentState.balances (native_effect deltas balances (component_at (kept ++ reverted) c)) !! t) =
  default [] (ProtocolComponentState.balances (component_at kept c) !! t).
Proof.
  intros Hb. unfold component_at, txs_of in *. rewrite bind_app, component_after_app.
  fold (txs_of kept) (txs_of reverted) in *. set (base := default _ (stored c)) in *.
  assert (ProtocolComponentState.component_id base = c) as Hbase by apply stored_component_id.
  assert ((stored c ≫= fun s => ProtocolComponentState.balances s !! t) = ProtocolComponentState.balances base !! t) as Hs.
  { unfold base. by destruct (stored c); simpl; rewrite ?lookup_empty. }
  rewrite native_effect_balance, !component_after_id, Hbase.
  rewrite Hs in Hb. destruct (at_pair balances (c, t)) as [b|]; simpl in Hb.
  - case_decide; [|done]. injection Hb as Hb. simpl. rewrite Hb, (balance_after (txs_of kept) base), Hbase.
    by destruct (written_balance (txs_of kept) (c, t)).
  - case_decide as Hw; [done|]. apply eq_None_not_Some in Hw.
    by rewrite (balance_after (txs_of reverted)), component_after_id, Hbase, Hw.
Qed.

Lemma slots_restore kept reverted deltas balances a x k :
  Account.address x = a → (contracts a = Some x ∨ contracts a = None ∧ Account.slots x = ∅) →
  slot_of deltas (a, k) =
    (if decide (is_Some (written_slot (txs_of reverted) (a, k)))
     then Some (Some (match written_slot (txs_of kept) (a, k) with
                      | Some v => v
                      | None => default [] (stored_slot contracts (a, k))
                      end))
     else None) →
  default [] (Account.slots (account_effect deltas balances (account_at (kept ++ reverted) x)) !! k) =
  default [] (Account.slots (account_at kept x) !! k).
Proof.
  intros Ha Hx Hs. unfold account_at, txs_of. rewrite bind_app. unfold account_after at 1. rewrite foldl_app.
  fold (txs_of kept) (txs_of reverted). fold (account_after (txs_of kept) x).
  fold (account_after (txs_of reverted) (account_after (txs_of kept) x)).
  rewrite account_effect_slot, !account_after_address, Ha, Hs.
  assert (stored_slot contracts (a, k) = Account.slots x !! k) as ->.
  { unfold stored_slot; simpl. destruct Hx as [->|[-> ->]]; [done|]. by rewrite lookup_empty. }
  case_decide as Hw; simpl.
  - rewrite slot_after, Ha. by destruct (written_slot (txs_of kept) (a, k)).
  - apply eq_None_not_Some in Hw. by rewrite slot_after, account_after_address, Ha, Hw.
Qed.
End message.
