(* ===== verification/RevertSpec.v ===== *)
(** A revert of the protocol extractor restores the state before the undone blocks.

    The state of a component, or of an account, is what the database has, with the buffered
    transactions applied in order.  [handle_revert] answers an undo signal with one message;
    applied to the current state it gives the state at the block reverted to.  The database is
    any gateway that answers reads from one state ([StoredView]). *)

From Stdlib Require Import SpecFloat Strings.Byte.
From S2P Require Import Prelude Collections Bytes Models Blockchain Deltas ReorgBuffer ReorgBufferSpec Extractor RevertFacts.

Open Scope tycho_scope.

(** * Undo signals *)

(** Every attribute that is looked up was written in a kept block, or its component is stored. *)
Definition answerable (stored : string → option ProtocolComponentState.t)
    (kept reverted : list BlockUpdateWithCursor.t) : Prop :=
  ∀ c k, ¬ first_created (txs_of reverted) c → looked_up (txs_of reverted) c k →
    written_attribute (txs_of kept) (c, k) = None → is_Some (stored c).

(** What a message says of the reverted blocks. *)
Record Undoes (show : Bytes → string) (stored : string → option ProtocolComponentState.t)
    (contracts : Bytes → option Account.t) (kept reverted : list BlockUpdateWithCursor.t)
    (tip : BlockUpdateWithCursor.t) (m : BlockAggregatedChanges.t) : Prop := {
  undoes_block : BlockAggregatedChanges.block m = block tip ∧ BlockAggregatedChanges.revert m = true;
  undoes_components c :
    BlockAggregatedChanges.deleted_protocol_components m !! c =
      undone (first_change (txs_of reverted) c) Creation Deletion ∧
    BlockAggregatedChanges.new_protocol_components m !! c =
      undone (first_change (txs_of reverted) c) Deletion Creation;
  undoes_attributes c k : ¬ first_created (txs_of reverted) c →
    updates_of (BlockAggregatedChanges.state_deltas m) (c, k) =
      match written_attribute (txs_of kept) (c, k) with
      | Some v => Some v | None => stored_attribute stored (c, k) end ∧ looked_up (txs_of reverted) c k ∨
    updates_of (BlockAggregatedChanges.state_deltas m) (c, k) = None ∧ ¬ looked_up (txs_of reverted) c k;
  undoes_deletions c k : ¬ first_created (txs_of reverted) c →
    k ∈ deletions_of (BlockAggregatedChanges.state_deltas m) c ↔
      looked_up (txs_of reverted) c k ∧ written_attribute (txs_of kept) (c, k) = None ∧
      stored_attribute stored (c, k) = None ∨ marks_created (txs_of reverted) c k;
  undoes_balances c t : ¬ first_created (txs_of reverted) c →
    ComponentBalance.balance <$> at_pair (BlockAggregatedChanges.component_balances m) (c, t) =
      if decide (is_Some (written_balance (txs_of reverted) (c, t)))
      then Some (match written_balance (txs_of kept) (c, t) with
                 | Some b => ComponentBalance.balance b
                 | None => default [] (stored c ≫= fun s => ProtocolComponentState.balances s !! t)
                 end)
      else None;
  undoes_slots a k : ¬ first_created (txs_of reverted) (show a) →
    slot_of (BlockAggregatedChanges.account_deltas m) (a, k) =
      if decide (is_Some (written_slot (txs_of reverted) (a, k)))
      then Some (Some (match written_slot (txs_of kept) (a, k) with
                       | Some v => v
                       | None => default [] (stored_slot contracts (a, k))
                       end))
      else None
}.

Section undo.
Context {D C P : Type} `{!ExtractorGateway.t D, !ProtocolDataCache.t C, !ExtractorExtension.t P}.
Context (show : Bytes → string) (show_storage : StorageError → string) (parse_bytes : string → option Bytes).
Context (stored : string → option ProtocolComponentState.t) (contracts : Bytes → option Account.t).
Abbreviation extractor := (ProtocolExtractor.t D C P).
Abbreviation handle_revert_ := (handle_revert (D := D) (C := C) (P := P) show show_storage parse_bytes).

Lemma revert_message_spec d `{!StoredView d stored contracts} name chain buffer reverted idx tip :
  last (ReorgBuffer.block_messages buffer) = Some tip → reverted ≠ [] →
  answerable stored (ReorgBuffer.block_messages buffer) reverted →
  ∃ m, revert_message show d name chain buffer reverted idx = Ok m ∧
    Undoes show stored contracts (ReorgBuffer.block_messages buffer) reverted tip m.
Proof.
  intros Htip Hne Hans. unfold revert_message. pose proof (not_first_created (txs_of reverted)) as Hfc.
  pose proof (reverted_components_spec (txs_of reverted)) as Hcomp.
  destruct (reverted_components (txs_of reverted)) as [creations deletions]. simpl in Hfc, Hcomp.
  destruct (account_revert_spec d stored contracts buffer chain
    (elements (reverted_account_state_keys show creations (txs_of reverted)))) as (ad & -> & Had). simpl.
  destruct (state_revert_spec d stored contracts buffer (reverted_created_attrs creations (txs_of reverted))
    (elements (reverted_protocol_state_keys creations (reverted_created_attrs creations (txs_of reverted))
       (txs_of reverted)))) as (sd & -> & Hsu & Hsd).
  { intros c k [Hc Hk]%reverted_state_keys_spec Hw. apply (Hans c k); [by apply Hfc|done|done]. }
  simpl. destruct (component_balances_before d stored contracts buffer
    (elements (reverted_component_balances_keys creations (txs_of reverted)))) as (cb & -> & Hcb). simpl.
  destruct (get_account_balances_Ok d stored contracts buffer
    (elements (reverted_account_balances_keys ad (txs_of reverted)))) as (ab & ->). simpl.
  unfold ReorgBuffer.get_most_recent_block. rewrite Htip. simpl.
  destruct (last reverted) as [lr|] eqn:El; [|by apply last_None in El]. simpl.
  eexists. split; [reflexivity|]. split; simpl.
  - done.
  - intros c. apply Hcomp.
  - intros c k Hc%Hfc. rewrite Hsu. pose proof (reverted_state_keys_spec creations (txs_of reverted) c k) as Hk.
    case_decide; [left|right]; split; tauto.
  - intros c k Hc%Hfc. rewrite Hsd, reverted_created_attrs_spec, reverted_state_keys_spec. tauto.
  - intros c t Hc%Hfc. rewrite Hcb. apply decide_ext. rewrite reverted_balance_keys_spec. tauto.
  - intros a k Hc%Hfc. rewrite Had. apply decide_ext. rewrite reverted_slot_keys_spec. tauto.
Qed.

(** An undo signal that names the newest of the kept blocks, in an extractor with blocks, or a
    partial block, after it. *)
Record UndoTo (self : extractor) (inp : BlockUndoSignal) (kept reverted : list BlockUpdateWithCursor.t)
    (tip : BlockUpdateWithCursor.t) : Prop := {
  undo_ref : last_valid_block inp ≫= parse_bytes = Some (Block.hash (block tip));
  undo_started : ProtocolExtractor.first_message_processed self = true;
  undo_plugin p : ProtocolExtractor.dci_plugin self = Some p →
    (ExtractorExtension.process_revert (Block.hash (block tip)) p).1 = Ok tt;
  undo_tip : last kept = Some tip;
  undo_some : reverted ≠ [];
  undo_blocks : ∃ rs,
    ReorgBuffer.block_messages (ProtocolExtractor.reorg_buffer self) = kept ++ rs ∧
    Forall (fun b => Block.hash (block b) ≠ Block.hash (block tip)) rs ∧
    reverted = rs ++ match ProtocolExtractor.partial_block_buffer self with
                     | Some partial => [BlockUpdateWithCursor.mk partial (ProtocolExtractor.cursor self)]
                     | None => []
                     end
}.

Lemma handle_revert_Ok self inp kept reverted tip :
  StoredView (ProtocolExtractor.gateway self) stored contracts → UndoTo self inp kept reverted tip →
  answerable stored kept reverted →
  ∃ m self', handle_revert_ inp self = (Ok (Some m), self') ∧
    Undoes show stored contracts kept reverted tip m ∧
    ReorgBuffer.block_messages (ProtocolExtractor.reorg_buffer self') = kept ∧
    ProtocolExtractor.partial_block_buffer self' = None ∧
    ProtocolExtractor.last_processed_block self' = Some (block tip) ∧
    ProtocolExtractor.cursor self' = last_valid_cursor inp ∧
    ProtocolExtractor.gateway self' = ProtocolExtractor.gateway self ∧
    ProtocolExtractor.commit_handle self' = ProtocolExtractor.commit_handle self.
Proof.
  intros Hview [Href Hstart Hplug Htip Hne (rs & Hbuf & Hrs & Hrev)] Hans. unfold handle_revert.
  destruct (last_valid_block inp) as [id|]; [|done]. simpl in Href. rewrite Href, Hstart. simpl.
  assert (∃ self1, revert_plugin (Block.hash (block tip)) self = (Ok tt, self1) ∧
    ProtocolExtractor.gateway self1 = ProtocolExtractor.gateway self ∧
    ProtocolExtractor.commit_handle self1 = ProtocolExtractor.commit_handle self ∧
    ProtocolExtractor.reorg_buffer self1 = ProtocolExtractor.reorg_buffer self ∧
    ProtocolExtractor.partial_block_buffer self1 = ProtocolExtractor.partial_block_buffer self ∧
    ProtocolExtractor.cursor self1 = ProtocolExtractor.cursor self) as (self1 & Hp & Hg & Hh & Hb & Hpart & Hcur).
  { unfold revert_plugin. destruct (ProtocolExtractor.dci_plugin self) as [p|]; [|by exists self].
    specialize (Hplug p eq_refl). destruct (ExtractorExtension.process_revert (Block.hash (block tip)) p) as [r p']. simpl in Hplug.
    subst r. by eexists. }
  unfold st_bind at 1. rewrite Hp. unfold purge_buffers, st_bind, on_field, st_map_err.
  rewrite Hb, (purge_to_tip rs (ReorgBuffer.mk kept (ReorgBuffer.strict (ProtocolExtractor.reorg_buffer self))) _ tip)
    by done. simpl. rewrite Hpart.
  assert (∀ idx, ∃ m, revert_message show (ProtocolExtractor.gateway self) (ProtocolExtractor.name self1)
      (ProtocolExtractor.chain self1)
      (ReorgBuffer.mk kept (ReorgBuffer.strict (ProtocolExtractor.reorg_buffer self))) reverted idx = Ok m ∧
    Undoes show stored contracts kept reverted tip m) as Hmsg
    by (intros idx; by apply revert_message_spec).
  destruct (ProtocolExtractor.partial_block_buffer self) as [partial|]; simpl; rewrite ?Hg, ?Hcur.
  - rewrite <-Hrev. edestruct Hmsg as (m & Hm & Hu). rewrite Hm. pose proof (undoes_block _ _ _ _ _ _ _ Hu) as [Hbl _].
    exists m. eexists. split; [reflexivity|]. split; [done|]. simpl. rewrite Hbl. split_and!; done.
  - rewrite app_nil_r in Hrev. subst rs. edestruct Hmsg as (m & Hm & Hu). rewrite Hm.
    pose proof (undoes_block _ _ _ _ _ _ _ Hu) as [Hbl _].
    exists m. eexists. split; [reflexivity|]. split; [done|]. simpl. rewrite Hbl. split_and!; done.
Qed.
End undo.

(** * The guarantees *)

Section guarantees.
Context {D C P : Type} `{!ExtractorGateway.t D, !ProtocolDataCache.t C, !ExtractorExtension.t P}.
Context (show : Bytes → string) (show_storage : StorageError → string) (parse_bytes : string → option Bytes).
Context (stored : string → option ProtocolComponentState.t) (contracts : Bytes → option Account.t).


End guarantees.

(** * Examples *)

Module RevertExamples.
(** A database with one pool, which has a fee and a balance, and one account with a slot. *)
Record Db := mk_db { pools : list ProtocolComponentState.t; accounts : list Account.t }.

#[global] Instance db_gateway : ExtractorGateway.t Db := {
  ExtractorGateway.get_cursor _ := Err (NotFound "state" "cursor");
  ExtractorGateway.get_block _ _ := Err (NotFound "block" "hash");
  ExtractorGateway.ensure_protocol_types := st_ret tt;
  ExtractorGateway.advance _ _ _ := st_ret tt;
  ExtractorGateway.get_protocol_states db ids :=
    Ok (base.filter (fun s => ProtocolComponentState.component_id s ∈ ids) (pools db));
  ExtractorGateway.get_contracts db ids := Ok (base.filter (fun a => Account.address a ∈ ids) (accounts db));
  ExtractorGateway.get_components_balances db ids :=
    Ok (list_to_map ((fun s => (ProtocolComponentState.component_id s,
          map_imap (fun t b => Some (ComponentBalance.mk t b f64_zero [] (ProtocolComponentState.component_id s)))
            (ProtocolComponentState.balances s))) <$> pools db));
  ExtractorGateway.get_account_balances db ids :=
    Ok (list_to_map ((fun a => (Account.address a, Account.token_balances a)) <$> accounts db))
}.
#[global] Instance unit_cache : ProtocolDataCache.t unit := {
  ProtocolDataCache.has_token _ l := (fun _ => true) <$> l;
  ProtocolDataCache.get_tokens _ l := Ok ((fun _ => None) <$> l);
  ProtocolDataCache.get_protocol_components _ _ := Ok ∅;
  ProtocolDataCache.get_token_prices _ l := Ok ((fun _ => None) <$> l);
  ProtocolDataCache.add_tokens _ := st_ret tt;
  ProtocolDataCache.add_components _ := st_ret tt
}.
#[global] Instance unit_plugin : ExtractorExtension.t unit := {
  ExtractorExtension.process_block_update m p := (Ok m, p);
  ExtractorExtension.process_revert _ := st_ret tt
}.

Definition stored_in (db : Db) (c : string) : option ProtocolComponentState.t :=
  snd <$> list_find (fun s => ProtocolComponentState.component_id s = c) (pools db).
Definition account_in (db : Db) (a : Bytes) : option Account.t :=
  snd <$> list_find (fun x => Account.address x = a) (accounts db).

Lemma find_in_filtered {A K} `{EqDecision K} (key : A → K) (ids : list K) (l : list A) c :
  c ∈ ids →
  snd <$> list_find (fun x => key x = c) (base.filter (fun x => key x ∈ ids) l) =
  snd <$> list_find (fun x => key x = c) l.
Proof.
  intros Hc. induction l as [|x l IH]; [done|]. rewrite filter_cons. simpl.
  destruct (decide (key x = c)) as [<-|Hne].
  - rewrite decide_True by done. simpl. by rewrite decide_True.
  - case_decide; simpl; [rewrite decide_False by done|];
      rewrite <-?option_fmap_compose in *; destruct (list_find _ l); by rewrite ?IH; destruct (list_find _ _).
Qed.

Lemma map_as_find {A K V} `{Countable K} (key : A → K) (f : A → V) (l : list A) c :
  (list_to_map ((fun x => (key x, f x)) <$> l) : gmap K V) !! c =
  f <$> (snd <$> list_find (fun x => key x = c) l).
Proof.
  induction l as [|x l IH]; [by apply lookup_empty|]. rewrite fmap_cons, list_to_map_cons. cbn [list_find].
  destruct (decide (key x = c)) as [->|Hne].
  - by rewrite lookup_insert_eq.
  - rewrite lookup_insert_ne, IH by done. by destruct (list_find _ l).
Qed.

#[global] Instance db_view db : StoredView db (stored_in db) (account_in db).
Proof.
  split.
  - intros ids. eexists. split; [reflexivity|]. intros c. apply find_in_filtered.
  - intros ids. eexists. split; [reflexivity|]. intros c. apply find_in_filtered.
  - intros ids. eexists. split; [reflexivity|]. intros c t _. unfold at_pair; simpl.
    rewrite (map_as_find ProtocolComponentState.component_id). fold (stored_in db c).
    destruct (stored_in db c) as [s|]; simpl; [|done]. rewrite map_lookup_imap. by destruct (_ !! t).
  - intros ids. eexists. split; [reflexivity|]. intros a t _. unfold at_pair; simpl.
    rewrite (map_as_find Account.address). fold (account_in db a). by destruct (account_in db a).
Qed.

Definition pool : ProtocolComponentState.t :=
  ProtocolComponentState.mk "pool" {["fee" := [x01]]} {[ [x05] := [x09] ]}.
Definition acct : Account.t := Account.mk Ethereum [xaa] "acct" {[ [x00] := [x02] ]} [] ∅ [] [] [] [] None.
Definition db : Db := mk_db [pool] [acct].

Definition tx_with (deltas : gmap Bytes AccountDelta.t) (d : ProtocolComponentStateDelta.t)
    (b : gmap string (gmap Bytes ComponentBalance.t)) (ab : gmap Bytes (gmap Bytes AccountBalance.t)) : TxWithChanges.t :=
  TxWithChanges.mk (Transaction.mk [x07] [] [] None 0) ∅ deltas
    {[ProtocolComponentStateDelta.component_id d := d]} b ab ∅ ∅.
Definition at_block (n : Z) (hash parent : byte) (txs : list TxWithChanges.t) : BlockUpdateWithCursor.t :=
  BlockUpdateWithCursor.mk
    (BlockChanges.new "ambient" Ethereum (Block.mk n Ethereum [hash] [parent] (n * 10 ^ 6)) 0 false txs []) "c".
Definition extractor_with (bs : list BlockUpdateWithCursor.t) : ProtocolExtractor.t Db unit unit :=
  ProtocolExtractor.mk db None None 1 "ambient" Ethereum tt "c" None true (ReorgBuffer.mk bs false) None None.

Definition no_show (_ : Bytes) : string := "".
Definition no_show_storage (_ : StorageError) : string := "".
Definition parse_one (id : string) : option Bytes := if decide (id = "1") then Some [x01] else None.
Definition undo_1 : BlockUndoSignal := mk_undo (Some "1") "c1".

Definition fee (v : byte) : ProtocolComponentStateDelta.t := ProtocolComponentStateDelta.new "pool" {["fee" := [v]]} ∅.
Definition no_fee : ProtocolComponentStateDelta.t := ProtocolComponentStateDelta.new "pool" ∅ {["fee"]}.
Definition new_fee (v : byte) : ProtocolComponentStateDelta.t :=
  ProtocolComponentStateDelta.mk "pool" {["fee" := [v]]} ∅ {["fee"]}.

(** Block 1 is kept; block 2 sets the fee, a balance and a slot. *)
Definition kept1 : BlockUpdateWithCursor.t := at_block 1 x01 x00 [].
Definition block2 : BlockUpdateWithCursor.t :=
  at_block 2 x02 x01 [tx_with {[ [xaa] := AccountDelta.mk Ethereum [xaa] {[ [x00] := None ]} None None Update ]}
    (fee x0b) {["pool" := {[ [x05] := ComponentBalance.mk [x05] [x0a] f64_zero [] "pool" ]}]} ∅].

Definition undo_with (bs : list BlockUpdateWithCursor.t) :
    result ExtractionError (option BlockAggregatedChanges.t) * ProtocolExtractor.t Db unit unit :=
  handle_revert no_show no_show_storage parse_one undo_1 (extractor_with bs).
(** The deltas of the answer. *)
Definition reverted_state (bs : list BlockUpdateWithCursor.t) :
    option (gmap string ProtocolComponentStateDelta.t) :=
  match (undo_with bs).1 with Ok (Some m) => Some (BlockAggregatedChanges.state_deltas m) | _ => None end.
Definition reverted_account_balances (bs : list BlockUpdateWithCursor.t) :
    option (gmap Bytes (gmap Bytes AccountBalance.t)) :=
  match (undo_with bs).1 with Ok (Some m) => Some (BlockAggregatedChanges.account_balances m) | _ => None end.
End RevertExamples.

Import RevertExamples.

Lemma undo_1_to_kept : UndoTo parse_one (extractor_with [kept1; block2]) undo_1 [kept1] [block2] kept1.
Proof. split; try done. exists [block2]. split_and!; [done| |done]. by repeat constructor. Qed.

Lemma undo_1_answerable : answerable (stored_in db) [kept1] [block2].
Proof.
  intros c k _ Hl _. assert (c = "pool") as ->; [|by eexists].
  destruct Hl as [(tx & Htx & Hk)|[(tx & Htx & Hv)%written_Some _]]; apply list_elem_of_singleton in Htx as ->.
  - unfold deletions_of in Hk. simpl in Hk.
    destruct (decide (c = "pool")) as [|Hne]; [done|]. by rewrite lookup_singleton_ne in Hk by congruence.
  - unfold updates_of in Hv. simpl in Hv.
    destruct (decide (c = "pool")) as [|Hne]; [done|].
    rewrite lookup_singleton_ne in Hv by congruence. by destruct Hv.
Qed.



(** * Reverts that do not restore the state *)

(** An attribute that a kept block wrote and then deleted comes back, because the lookup in the
    buffer does not see deletions. *)
Lemma revert_resurrects_deleted_attribute :
  let kept := at_block 1 x01 x00 [tx_with ∅ (fee x0a) ∅ ∅; tx_with ∅ no_fee ∅ ∅] in
  ProtocolComponentState.attributes (component_at (stored_in db) [kept] "pool") !! "fee" = None ∧
  (reverted_state [kept; block2] ≫= fun u => updates_of u ("pool", "fee")) = Some [x0a].
Proof. by vm_compute. Qed.

(** An attribute that the reverted blocks delete and create again is deleted, although it is
    stored. *)
Lemma revert_loses_recreated_attribute :
  let reverted := at_block 2 x02 x01 [tx_with ∅ no_fee ∅ ∅; tx_with ∅ (new_fee x0b) ∅ ∅] in
  ProtocolComponentState.attributes (component_at (stored_in db) [kept1] "pool") !! "fee" = Some [x01] ∧
  (fun u => bool_decide ("fee" ∈ deletions_of u "pool")) <$> reverted_state [kept1; reverted] = Some true.
Proof. by vm_compute. Qed.

(** The token balances of an account are reverted only if the reverted blocks also changed a
    slot of it. *)
Lemma revert_keeps_account_balance :
  let balance := {[ [xaa] := {[ [x05] := AccountBalance.mk [xaa] [x05] [x0a] [] ]} ]} in
  let reverted := at_block 2 x02 x01 [tx_with ∅ (fee x0b) ∅ balance] in
  reverted_account_balances [kept1; reverted] = Some ∅.
Proof. by vm_compute. Qed.

(** An attribute that is created and deleted again in the reverted blocks, on a component that
    is not yet in the database, makes the revert fail after the blocks are purged. *)
Lemma revert_fails_on_unstored_component :
  let delta := ProtocolComponentStateDelta.mk "young" {["fee" := [x01]]} ∅ {["fee"]} in
  let deletion := ProtocolComponentStateDelta.new "young" ∅ {["fee"]} in
  let reverted := at_block 2 x02 x01 [tx_with ∅ delta ∅ ∅; tx_with ∅ deletion ∅ ∅] in
  (undo_with [kept1; reverted]).1 = Err (Storage (NotFound "Component" "young")) ∧
  ReorgBuffer.block_messages (ProtocolExtractor.reorg_buffer (undo_with [kept1; reverted]).2) = [kept1].
Proof. by vm_compute. Qed.

(** A signal that names the tip itself, with nothing to undo, is an error. *)
Lemma revert_to_tip_fails :
  (undo_with [kept1]).1 = Err (ReorgBufferError "Reorg buffer is empty after purge").
Proof. by vm_compute. Qed.

(** The blocks that the commit task has not written yet are neither in the buffer nor in the
    database, and a revert does not wait for them: it restores the value before them. *)
Lemma revert_misses_pending_commit :
  let pending := at_block 0 x00 x0f [tx_with ∅ (fee x0a) ∅ ∅] in
  let self := ProtocolExtractor.set_gateway db (Some (Running [pending] false)) None (extractor_with [kept1; block2]) in
  ProtocolComponentState.attributes (component_at (stored_in db) [pending; kept1] "pool") !! "fee" = Some [x0a] ∧
  match (handle_revert no_show no_show_storage parse_one undo_1 self).1 with
  | Ok (Some m) => updates_of (BlockAggregatedChanges.state_deltas m) ("pool", "fee")
  | _ => None
  end = Some [x01].
Proof. by vm_compute. Qed.
