(* ===== verification/ExtractorSpec.v ===== *)
(** What the protocol extractor guarantees of the blocks it writes.

    Whatever messages, undo signals and background commits ran, failed commits included,
    the blocks written since the start, those handed to the commit task and those in the
    reorg buffer form one connected chain; blocks of one second get different times. *)

From Stdlib Require Import SpecFloat Strings.Byte Sorted.
From S2P Require Import Prelude Collections Bytes Models Blockchain ReorgBuffer ReorgBufferSpec Extractor.

Open Scope tycho_scope.

(** What is asked of the database: it has a log of the blocks written, which an accepted block
    extends.  A rejected block adds nothing; it may take the blocks of an open transaction with
    it. *)
Class CommitLog (D : Type) `{!ExtractorGateway.t D} := {
  committed : D → list BlockUpdateWithCursor.t;
  advance_commits b c force d d' :
    ExtractorGateway.advance b c force d = (Ok tt, d') →
    committed d' = committed d ++ [BlockUpdateWithCursor.mk b c];
  advance_rejects b c force d r d' :
    ExtractorGateway.advance b c force d = (r, d') → r ≠ Ok tt → committed d' `prefix_of` committed d
}.

Section commits.
Context {D C P : Type} `{!ExtractorGateway.t D, !ProtocolDataCache.t C, !ExtractorExtension.t P, !CommitLog D}.
Context (show : Bytes → string) (show_storage : StorageError → string) (show_merge : MergeError → string).
Context (parse_bytes : string → option Bytes) (post_processor : BlockChanges.t → BlockChanges.t).
Context (fetch_tokens : list Bytes → TokenOwnerStore.t → Z → list Token.t).
Abbreviation extractor := (ProtocolExtractor.t D C P).
Implicit Types self : extractor.

Import ProtocolExtractor.

(** Blocks that the commit task has not written yet. *)
Definition pending self : list BlockUpdateWithCursor.t :=
  match commit_handle self with Some (Running bs _) => bs | _ => [] end.
Definition buffered self : list BlockUpdateWithCursor.t := ReorgBuffer.block_messages (reorg_buffer self).

(** The commit task, if it ended, has written all its blocks. *)
Definition healthy self : Prop :=
  match commit_handle self with Some (Finished r) => r = Ok tt | _ => True end.

(** The commit task at any time, with any result, a message, a signal of a full block or an undo
    signal that succeeds. *)
Inductive step : extractor → extractor → Prop :=
| step_commit self : step self (run_commit self)
| step_tick inp self m self' :
    handle_tick_scoped_data show_merge parse_bytes post_processor fetch_tokens inp self = (Ok m, self') → step self self'
| step_full cursor height self m self' :
    collect_and_process_full_block cursor height self = (Ok m, self') → step self self'
| step_undo inp self m self' : handle_revert show show_storage parse_bytes inp self = (Ok m, self') → step self self'.

(** ** Commits *)

Lemma advance_all_commits is_syncing bs d r d' :
  advance_all is_syncing bs d = (r, d') →
  (r = Ok tt → committed d' = committed d ++ bs) ∧ committed d' `prefix_of` committed d ++ bs.
Proof.
  revert d; induction bs as [|[b c] bs IH]; intros d; simpl.
  { intros [= <- <-]. by rewrite app_nil_r. }
  unfold st_bind, st_map_err. simpl.
  destruct (ExtractorGateway.advance b c _ d) as [[[]|e|] d1] eqn:E; simpl.
  - apply advance_commits in E. intros [Ha Hb]%IH. rewrite E, <-app_assoc in Ha, Hb. done.
  - intros [= <- <-]. apply advance_rejects in E; [|done]. split; [done|]. by apply prefix_app_r.
  - intros [= <- <-]. apply advance_rejects in E; [|done]. split; [done|]. by apply prefix_app_r.
Qed.

(** A commit that succeeds moves the blocks of the task to the database; after one that fails the
    database has a part of them. *)
Lemma run_commit_blocks self :
  reorg_buffer (run_commit self) = reorg_buffer self ∧
  committed (gateway (run_commit self)) `prefix_of` committed (gateway self) ++ pending self ∧
  (healthy (run_commit self) →
   committed (gateway (run_commit self)) ++ pending (run_commit self) = committed (gateway self) ++ pending self ∧
   committed (gateway self) `prefix_of` committed (gateway (run_commit self)) ∧ healthy self) ∧
  (¬ healthy self → run_commit self = self).
Proof.
  unfold run_commit, pending, healthy. destruct (commit_handle self) as [[bs sy|r]|] eqn:E.
  - destruct (advance_all sy bs (gateway self)) as [r d'] eqn:Ea. simpl.
    apply advance_all_commits in Ea as [Hok Hpre]. split_and!; [done|done| |done].
    intros ->. rewrite Hok, app_nil_r by done. split_and!; [done|by apply prefix_app_r|done].
  - rewrite E, !app_nil_r. done.
  - rewrite E, !app_nil_r. done.
Qed.

Lemma join_commit_blocks self self' :
  join_commit self = (Ok tt, self') →
  healthy self ∧ pending self' = [] ∧ buffered self' = buffered self ∧
  committed (gateway self') = committed (gateway self) ++ pending self.
Proof.
  unfold join_commit. intros Hj. pose proof (run_commit_blocks self) as (Hb & _ & Hok & _).
  assert (healthy (run_commit self)) as Hh.
  { unfold healthy. destruct (commit_handle (run_commit self)) as [[|[[]|e|]]|]; by simplify_eq. }
  destruct (Hok Hh) as (Hc & Hp & Hs). unfold pending at 1 in Hc. unfold pending at 1, buffered.
  destruct (commit_handle (run_commit self)) as [[bs sy|r]|] eqn:E.
  - exfalso. unfold run_commit in E. destruct (commit_handle self) as [[bs' sy'|r]|] eqn:E'; [|congruence|congruence].
    by destruct (advance_all sy' bs' (gateway self)).
  - rewrite app_nil_r in Hc. destruct r as [[]|e|]; simplify_eq. simpl. by rewrite Hb.
  - rewrite app_nil_r in Hc. simplify_eq. by rewrite E, Hb.
Qed.

(** Operations that leave the blocks where they are. *)
Definition same_blocks self self' : Prop :=
  gateway self' = gateway self ∧ commit_handle self' = commit_handle self ∧ reorg_buffer self' = reorg_buffer self.

Lemma same_blocks_trans self self1 self2 : same_blocks self self1 → same_blocks self1 self2 → same_blocks self self2.
Proof. unfold same_blocks. intros (? & ? & ?) (? & ? & ?). split_and!; congruence. Qed.

Lemma on_cache_same {A} (m : stm C StorageError A) self r self' : on_cache m self = (r, self') → same_blocks self self'.
Proof.
  unfold on_cache, on_field, st_map_err. destruct (m _) as [? ?]. by intros [= <- <-].
Qed.

Lemma prepare_message_same msg self r self' :
  prepare_message parse_bytes post_processor fetch_tokens msg self = (r, self') → same_blocks self self'.
Proof.
  unfold prepare_message, st_bind.
  destruct (run_plugin _ self) as [r1 self1] eqn:Ep.
  assert (same_blocks self self1) as Hs1.
  { unfold run_plugin in Ep. destruct (dci_plugin self) as [p|]; [|by simplify_eq].
    destruct (ExtractorExtension.process_block_update _ p) as [? ?]. by simplify_eq. }
  destruct r1 as [msg1|e|]; [|by intros [= <- <-]..].
  destruct (construct_currency_tokens _ _ _ _) as [tokens|e|]; [|by intros [= <- <-]..].
  destruct (on_cache (ProtocolDataCache.add_tokens _) self1) as [r2 self2] eqn:E2. apply on_cache_same in E2.
  assert (same_blocks self self2) as Hs2 by by eapply same_blocks_trans.
  destruct r2 as [[]|e|]; [|by intros [= <- <-]..].
  destruct (on_cache (ProtocolDataCache.add_components _) self2) as [r3 self3] eqn:E3. apply on_cache_same in E3.
  assert (same_blocks self self3) as Hs3 by by eapply same_blocks_trans.
  destruct r3 as [[]|e|]; by intros [= <- <-].
Qed.

(** ** Blocks *)

(** Where the blocks are.  The database had [base] at the start and has [taken] since, up to [gap];
    the buffer has the blocks after these.  [gap] is what the commit task still has to write or,
    after a commit that failed, what it has lost.  The buffer never runs empty. *)
Record Taken (base gap taken : list BlockUpdateWithCursor.t) (self : extractor) : Prop := {
  taken_split : committed (gateway self) ++ gap = base ++ taken;
  taken_chained : chained (taken ++ buffered self);
  taken_buffered : buffered self = [] → taken = [];
  taken_gap : healthy self → gap = pending self
}.

Lemma taken_same base gap taken self self' :
  same_blocks self self' → Taken base gap taken self → Taken base gap taken self'.
Proof.
  intros (Hg & Hh & Hb) [HT1 HT2 HT3 HT4]. unfold buffered, healthy, pending in *.
  split; unfold buffered, healthy, pending; rewrite ?Hg, ?Hh, ?Hb; done.
Qed.

Lemma buffer_block_blocks msg cursor height base gap taken self bs self' :
  buffer_block msg cursor height self = (Ok bs, self') → Taken base gap taken self →
  chained ((taken ++ buffered self) ++ [BlockUpdateWithCursor.mk msg cursor]) ∧
  gateway self' = gateway self ∧ commit_handle self' = commit_handle self ∧
  buffered self ++ [BlockUpdateWithCursor.mk msg cursor] = bs ++ buffered self' ∧ buffered self' ≠ [].
Proof.
  intros Hb [_ Hch Hne _]. unfold buffer_block, st_bind, on_buffer, on_field, st_map_err in Hb.
  set (b := BlockUpdateWithCursor.mk msg cursor) in *.
  destruct (ReorgBuffer.insert_block b (reorg_buffer self)) as [[[]|e|] buf1] eqn:Ei; simpl in Hb; try done.
  apply insert_block_Ok in Ei as (Hbuf1 & _ & Hlink).
  split.
  { apply chained_snoc; [done|]. intros a. rewrite last_app.
    destruct (last (buffered self)) as [a'|] eqn:El; [intros [= <-]; by apply Hlink|].
    apply last_None in El. by rewrite (Hne El). }
  case_if.
  - destruct (ReorgBuffer.drain_blocks_until height buf1) as [[l|e|] buf2] eqn:Ed; simpl in Hb; try done.
    injection Hb as <- <-. simpl. apply drain_split in Ed as (Hsplit & _ & Hhead & _).
    split_and!; [done|done| |].
    + unfold buffered at 2; simpl. by rewrite <-Hsplit, Hbuf1.
    + unfold buffered; simpl. intros E. rewrite E in *. destruct Hhead as [->|(? & ? & _)]; [|done].
      rewrite Hbuf1 in Hsplit. by destruct (ReorgBuffer.block_messages (reorg_buffer self)).
  - injection Hb as <- <-. simpl. unfold buffered at 2 3; simpl. rewrite Hbuf1. split_and!; [done|done|done|].
    by destruct (ReorgBuffer.block_messages (reorg_buffer self)).
Qed.

(** Blocks are handed over only when the task before has written all of its own. *)
Lemma commit_blocks_blocks bs sy self self' :
  commit_blocks bs sy self = (Ok tt, self') →
  (bs = [] ∧ self' = self) ∨
  (healthy self ∧ healthy self' ∧ pending self' = bs ∧ buffered self' = buffered self ∧
   committed (gateway self') = committed (gateway self) ++ pending self).
Proof.
  unfold commit_blocks. destruct bs as [|b bs]; [intros [= <-]; by left|].
  unfold st_bind. destruct (join_commit self) as [[[]|e|] self1] eqn:Ej; simpl; try done.
  intros [= <-]. apply join_commit_blocks in Ej as (Hh & _ & Hb & Hc). by right.
Qed.

(** What a step does to the blocks: the database only grows while no commit fails, and is not
    touched after one has. *)
Definition keeps_log self self' : Prop :=
  (healthy self' → committed (gateway self) `prefix_of` committed (gateway self') ∧ healthy self) ∧
  (¬ healthy self → committed (gateway self') = committed (gateway self)).

Definition one_block_or_fewer (l l' : list BlockUpdateWithCursor.t) : Prop :=
  l' = l ∨ (∃ b, l' = l ++ [b]) ∨ l' `prefix_of` l.

Definition advances (base taken : list BlockUpdateWithCursor.t) self self' : Prop :=
  ∃ gap' taken', Taken base gap' taken' self' ∧ keeps_log self self' ∧
    one_block_or_fewer (taken ++ buffered self) (taken' ++ buffered self').

Lemma same_keeps_log self self' :
  gateway self' = gateway self → commit_handle self' = commit_handle self → keeps_log self self'.
Proof. unfold keeps_log, healthy. by intros -> ->. Qed.

Lemma same_advances base gap taken self self' :
  same_blocks self self' → Taken base gap taken self → advances base taken self self'.
Proof.
  intros Hs Ht. exists gap, taken. split_and!; [by apply (taken_same _ _ _ self)| |].
  - destruct Hs as (? & ? & _). by apply same_keeps_log.
  - left. destruct Hs as (_ & _ & Hb). unfold buffered. by rewrite Hb.
Qed.

Lemma advances_after base taken self self1 self' :
  same_blocks self self1 → advances base taken self1 self' → advances base taken self self'.
Proof.
  unfold advances, keeps_log, healthy, buffered. by intros (-> & -> & ->).
Qed.

(** A full block is added at the end. *)
Lemma process_full_block_advances msg cursor height base gap taken self m self' :
  process_full_block_message msg cursor height self = (Ok m, self') → Taken base gap taken self →
  advances base taken self self'.
Proof.
  unfold process_full_block_message, st_bind. case_if; [done|]. intros Hp Ht.
  destruct (buffer_block msg cursor height self) as [[bs|e|] self1] eqn:Eb; simpl in Hp; try done.
  destruct (commit_blocks bs _ self1) as [[[]|e|] self2] eqn:Ec; simpl in Hp; try done.
  apply (buffer_block_blocks _ _ _ base gap taken) in Eb as (Hch & Hg & Hh & Hbuf & Hne); [|done].
  destruct (aggregate _ _) as [m'|e|]; simpl in Hp; try done. injection Hp as _ <-.
  set (b := BlockUpdateWithCursor.mk msg cursor) in *. destruct Ht as [HT1 _ _ HT4].
  apply commit_blocks_blocks in Ec as [[-> ->]|(Hs1 & Hs2 & Hpend & Hb2 & Hc)].
  - exists gap, taken. simpl in Hbuf. split_and!.
    + split; [simpl; by rewrite Hg| |by intros ?|].
      * unfold buffered at 1; simpl. fold (buffered self1). by rewrite <-Hbuf, app_assoc.
      * unfold healthy, pending; simpl. rewrite Hh. exact HT4.
    + by apply same_keeps_log.
    + right; left. exists b. unfold buffered at 1; simpl. fold (buffered self1). by rewrite <-Hbuf, app_assoc.
  - assert (healthy self) as Hs by (unfold healthy in *; by rewrite <-Hh).
    assert (pending self1 = gap) as Hpg by (rewrite (HT4 Hs); unfold pending; by rewrite Hh).
    assert ((taken ++ bs) ++ buffered self2 = (taken ++ buffered self) ++ [b]) as Happ
      by by rewrite Hb2, <-!app_assoc, Hbuf.
    exists bs, (taken ++ bs). split_and!.
    + split; [simpl; by rewrite Hc, Hpg, Hg, HT1, app_assoc| | |by intros _].
      * unfold buffered; simpl. fold (buffered self2). by rewrite Happ.
      * unfold buffered; simpl. fold (buffered self2). rewrite Hb2. done.
    + split; [|done]. intros _. split; [|done]. simpl. rewrite Hc, Hg. by apply prefix_app_r.
    + right; left. exists b. exact Happ.
Qed.

(** ** Reverts *)

Lemma purge_buffers_advances hash base gap taken self r self' :
  purge_buffers show_storage hash self = (Ok r, self') → Taken base gap taken self →
  advances base taken self self'.
Proof.
  unfold purge_buffers, st_bind, on_field, st_map_err.
  destruct (ReorgBuffer.purge hash (reorg_buffer self)) as [[l|e|] buf] eqn:Ep; simpl; try done.
  intros Hr [HT1 HT2 HT3 HT4].
  assert (same_blocks (set_buffer buf self) self') as Hs.
  { destruct (partial_block_buffer self); by simplify_eq. }
  apply purge_split in Ep as (Hsplit & _ & (b & Hlast & _) & _).
  destruct Hs as (Hg & Hh & Hb). simpl in Hg, Hh, Hb.
  assert (taken ++ buffered self = (taken ++ buffered self') ++ l) as Htail.
  { unfold buffered. rewrite Hb, Hsplit. by rewrite app_assoc. }
  exists gap, taken. split_and!; [split| |].
  - by rewrite Hg.
  - rewrite Htail in HT2. apply (chained_take (length (taken ++ buffered self'))) in HT2.
    by rewrite take_app_length in HT2.
  - unfold buffered. rewrite Hb. intros E. by rewrite E in Hlast.
  - unfold healthy, pending. by rewrite Hh.
  - by apply same_keeps_log.
  - right; right. rewrite Htail. by apply prefix_app_r.
Qed.

Lemma handle_revert_advances inp base gap taken self m self' :
  handle_revert show show_storage parse_bytes inp self = (Ok m, self') → Taken base gap taken self →
  advances base taken self self'.
Proof.
  unfold handle_revert. destruct (last_valid_block inp) as [id|]; [|done].
  destruct (parse_bytes id) as [hash|]; [|done]. case_if; [intros [= _ <-]; by eapply same_advances|].
  unfold st_bind. intros Hr Ht.
  destruct (revert_plugin hash self) as [[[]|e|] self1] eqn:Ep; simpl in Hr; try done.
  assert (same_blocks self self1) as Hs1.
  { unfold revert_plugin in Ep. destruct (dci_plugin self) as [p|]; [|by simplify_eq].
    destruct (ExtractorExtension.process_revert hash p) as [? ?]. by simplify_eq. }
  destruct (purge_buffers show_storage hash self1) as [[[reverted idx]|e|] self2] eqn:E2; simpl in Hr; try done.
  apply (purge_buffers_advances _ base gap taken) in E2; [|by apply (taken_same _ _ _ self)].
  destruct (revert_message _ _ _ _ _ _ _) as [m'|e|]; simpl in Hr; try done. injection Hr as _ <-.
  apply (advances_after _ _ _ self1); [done|]. destruct E2 as (gap' & taken' & [] & ? & ?).
  exists gap', taken'. done.
Qed.

Lemma tick_advances inp base gap taken self m self' :
  handle_tick_scoped_data show_merge parse_bytes post_processor fetch_tokens inp self = (Ok m, self') →
  Taken base gap taken self → advances base taken self self'.
Proof.
  intros Ht Hinv. unfold handle_tick_scoped_data in Ht. destruct (data_message inp) as [msg|[]|]; try done; [|].
  2:{ injection Ht as _ <-. by eapply same_advances. }
  unfold st_bind in Ht. destruct (prepare_message _ _ _ msg self) as [[msg'|e|] self1] eqn:Ep; try done.
  apply prepare_message_same in Ep. pose proof (taken_same _ _ _ _ _ Ep Hinv) as Hinv1.
  apply (advances_after _ _ _ self1); [done|].
  destruct (data_partial_index inp) as [i|]; [|by eapply process_full_block_advances].
  destruct (buffer_partial_block show_merge msg' self1) as [[[]|e|] self2] eqn:E2; try done.
  assert (same_blocks self1 self2) as Hs2.
  { unfold buffer_partial_block in E2. destruct (partial_block_buffer self1); [|by simplify_eq].
    destruct (BlockChanges.merge_partial _ _); by simplify_eq. }
  injection Ht as _ <-. by eapply same_advances.
Qed.

Lemma run_commit_advances base gap taken self :
  Taken base gap taken self → advances base taken self (run_commit self).
Proof.
  intros [HT1 HT2 HT3 HT4]. destruct (run_commit_blocks self) as (Hb & Hpre & Hok & Hbad).
  assert (buffered (run_commit self) = buffered self) as Hbuf by (unfold buffered; by rewrite Hb).
  assert (healthy self ∨ ¬ healthy self) as [Hs|Hs].
  { unfold healthy. destruct (commit_handle self) as [[|[[]|e|]]|]; [by left|by left|by right|by right|by left]. }
  - rewrite (HT4 Hs) in HT1. destruct Hpre as [k Hk].
    assert (∃ gap', committed (gateway (run_commit self)) ++ gap' = base ++ taken ∧
      (healthy (run_commit self) → gap' = pending (run_commit self))) as (gap' & Hg1 & Hg2).
    { exists k. split; [by rewrite <-Hk|]. intros (Hc & _ & _)%Hok. rewrite <-Hc in Hk.
      by apply app_inv_head in Hk. }
    exists gap', taken. split_and!; [split; [done|by rewrite Hbuf|by rewrite Hbuf|done]| |by left; rewrite Hbuf].
    split; [|done]. by intros (_ & ? & _)%Hok.
  - rewrite (Hbad Hs). exists gap, taken. split_and!; [done| |by left]. by apply same_keeps_log.
Qed.

Lemma step_advances base gap taken self self' :
  step self self' → Taken base gap taken self → advances base taken self self'.
Proof.
  intros [self0|inp self0 m self0' Ht|cursor height self0 m self0' Hf|inp self0 m self0' Hu] Hinv.
  - by eapply run_commit_advances.
  - by eapply tick_advances.
  - unfold collect_and_process_full_block in Hf. destruct (partial_block_buffer self0) as [msg|]; [|done].
    destruct (process_full_block_message msg cursor height (set_partial None self0)) as [[m'|e|] self1] eqn:Ef; try done.
    injection Hf as _ <-. apply (advances_after _ _ _ (set_partial None self0)); [done|].
    eapply process_full_block_advances; [exact Ef|]. by apply (taken_same _ _ _ self0).
  - by eapply handle_revert_advances.
Qed.
End commits.

(** * Times *)

(** The blocks of a chain as they are processed one after the other. *)
Fixpoint adjust_all (last : option Block.t) (bs : list Block.t) : list Block.t :=
  match bs with
  | [] => []
  | b :: bs' => let b' := adjust_timestamp last b in b' :: adjust_all (Some b') bs'
  end.

Definition second (b : Block.t) : Z := (Block.ts b / 10 ^ 6)%Z.

(** Times are whole seconds that do not decrease. *)
Definition by_seconds (bs : list Block.t) : Prop :=
  Forall (fun b => Block.ts b = second b * 10 ^ 6)%Z bs ∧
  StronglySorted (fun a b => second a ≤ second b)%Z bs.

Lemma adjust_all_after lst j bs :
  Block.ts lst = (second lst * 10 ^ 6 + j)%Z → (0 ≤ j)%Z → (j + Z.of_nat (length bs) < 10 ^ 6)%Z →
  by_seconds bs → Forall (fun b => second lst ≤ second b)%Z bs →
  increasing Block.ts (lst :: adjust_all (Some lst) bs) ∧
  Forall2 (fun b b' => second b' = second b) bs (adjust_all (Some lst) bs).
Proof.
  revert lst j; induction bs as [|b bs IH]; intros lst j Hts Hj Hlen [Hwhole Hsort] Hle; simpl.
  { split; [by repeat constructor|constructor]. }
  apply Forall_cons in Hwhole as [Hb Hwhole]. apply StronglySorted_inv in Hsort as [Hsort Hbs].
  apply Forall_cons in Hle as [Hlb Hle]. simpl in Hlen.
  set (b' := adjust_timestamp (Some lst) b).
  assert (∃ j', Block.ts b' = second b * 10 ^ 6 + j' ∧ 0 ≤ j' ≤ j + 1 ∧ Block.ts lst < Block.ts b')%Z
    as (j' & Hb' & Hj' & Hlt).
  { unfold b', adjust_timestamp. case_bool_decide as Hsec; simpl.
    - exists (j + 1)%Z. unfold second in *. rewrite Hsec. lia.
    - exists 0%Z. unfold second in *. lia. }
  assert (second b' = second b) as Hsec.
  { unfold second at 1. rewrite Hb'. symmetry. apply (Z.div_unique _ _ _ j'); lia. }
  destruct (IH b' j') as [IH1 IH2].
  { by rewrite Hsec. } { lia. } { lia. } { done. } { by rewrite Hsec. }
  split; [|by constructor].
  constructor; [done|]. apply StronglySorted_inv in IH1 as [_ IH1]. constructor; [done|].
  eapply Forall_impl; [exact IH1|]. simpl. lia.
Qed.

Section commit_claims.
Context {D C P : Type} `{!ExtractorGateway.t D, !ProtocolDataCache.t C, !ExtractorExtension.t P, !CommitLog D}.
Context (show : Bytes → string) (show_storage : StorageError → string) (show_merge : MergeError → string).
Context (parse_bytes : string → option Bytes) (post_processor : BlockChanges.t → BlockChanges.t).
Context (fetch_tokens : list Bytes → TokenOwnerStore.t → Z → list Token.t).
Abbreviation step_ := (step (D := D) (C := C) (P := P) show show_storage show_merge parse_bytes post_processor fetch_tokens).

(** C4. From an extractor that has just started, with an empty buffer and whatever blocks [base]
    in the database, after any sequence of messages, full block signals and undo signals that
    succeed (one that fails ends the extractor), with the commit task running at any time in between
    and with any result: the blocks the database took since the start, followed by [gap] and by the
    blocks in the buffer, are one connected chain, each the parent of the next, none skipped,
    doubled or out of order.  Unless a commit has failed, [gap] is what the commit task still has to
    write.  A further step keeps what the database has if no commit has failed, writes nothing if one
    has, and adds one block at the end of the chain, drops blocks at its end, or changes nothing.
    The first block after the start is not compared with [base]. *)
Theorem commits_form_chain (self0 self : ProtocolExtractor.t D C P) :
  let base := committed (ProtocolExtractor.gateway self0) in
  buffered self0 = [] → ProtocolExtractor.commit_handle self0 = None → rtc step_ self0 self →
  ∃ gap taken,
    committed (ProtocolExtractor.gateway self) ++ gap = base ++ taken ∧
    chained (taken ++ buffered self) ∧ (healthy self → gap = pending self) ∧
    ∀ self', step_ self self' →
      (healthy self' → committed (ProtocolExtractor.gateway self) `prefix_of` committed (ProtocolExtractor.gateway self')) ∧
      (¬ healthy self → committed (ProtocolExtractor.gateway self') = committed (ProtocolExtractor.gateway self)) ∧
      ∃ gap' taken', committed (ProtocolExtractor.gateway self') ++ gap' = base ++ taken' ∧
        (taken' ++ buffered self' = taken ++ buffered self ∨
         (∃ b, taken' ++ buffered self' = (taken ++ buffered self) ++ [b]) ∨
         taken' ++ buffered self' `prefix_of` taken ++ buffered self).
Proof.
  intros base Hbuf Hhandle Hsteps.
  assert (∃ gap taken, Taken base gap taken self) as (gap & taken & Hinv).
  { revert self Hsteps. apply (rtc_ind_r (fun self => ∃ gap taken, Taken base gap taken self)).
    - exists [], []. split; [done|rewrite Hbuf; apply chained_nil|done|].
      intros _. unfold pending. by rewrite Hhandle.
    - intros s1 s2 _ Hs (gap & taken & Hi). apply (step_advances _ _ _ _ _ _ base gap taken) in Hs; [|done].
      destruct Hs as (gap' & taken' & ? & _). by exists gap', taken'. }
  exists gap, taken. split_and!; [apply Hinv..|]. intros self' Hs.
  apply (step_advances _ _ _ _ _ _ base gap taken) in Hs; [|done].
  destruct Hs as (gap' & taken' & Ht & [Hgrow Hstop] & Hone).
  split_and!; [by intros [? _]%Hgrow|done|]. exists gap', taken'. split; [apply Ht|exact Hone].
Qed.
End commit_claims.

(** Blocks whose times are whole seconds that do not decrease, fewer than a million, get
    strictly increasing times, each in the second the chain gave it. *)
Theorem block_times_increase bs :
  by_seconds bs → (Z.of_nat (length bs) < 10 ^ 6)%Z →
  increasing Block.ts (adjust_all None bs) ∧ Forall2 (fun b b' => second b' = second b) bs (adjust_all None bs).
Proof.
  intros [Hwhole Hsort] Hlen. destruct bs as [|b bs]; [by repeat constructor|]. simpl in *.
  apply Forall_cons in Hwhole as [Hb Hwhole]. apply StronglySorted_inv in Hsort as [Hsort Hbs].
  destruct (adjust_all_after b 0 bs) as [H1 H2]; [lia|lia|lia|done|done|]. split; [done|]. by constructor.
Qed.

(** * Examples *)

Module CommitExamples.
(** A database that is the list of the blocks written, and rejects blocks with the cursor
    [bad]. *)
Record Log := mk_log { entries : list BlockUpdateWithCursor.t }.

#[global] Instance log_gateway : ExtractorGateway.t Log := {
  ExtractorGateway.get_cursor _ := Err (NotFound "state" "cursor");
  ExtractorGateway.get_block _ _ := Err (NotFound "block" "hash");
  ExtractorGateway.ensure_protocol_types := st_ret tt;
  ExtractorGateway.advance b c _ := fun d =>
    if decide (c = "bad") then (Err (Unexpected "rejected"), d)
    else (Ok tt, mk_log (entries d ++ [BlockUpdateWithCursor.mk b c]));
  ExtractorGateway.get_protocol_states _ _ := Ok [];
  ExtractorGateway.get_contracts _ _ := Ok [];
  ExtractorGateway.get_components_balances _ _ := Ok ∅;
  ExtractorGateway.get_account_balances _ _ := Ok ∅
}.
#[global] Instance log_commits : CommitLog Log.
Proof.
  refine {| committed := entries |}; intros b c force d; simpl; case_decide; intros; by simplify_eq.
Defined.
#[global] Instance empty_cache : ProtocolDataCache.t unit := {
  ProtocolDataCache.has_token _ l := (fun _ => true) <$> l;
  ProtocolDataCache.get_tokens _ l := Ok ((fun _ => None) <$> l);
  ProtocolDataCache.get_protocol_components _ _ := Ok ∅;
  ProtocolDataCache.get_token_prices _ l := Ok ((fun _ => None) <$> l);
  ProtocolDataCache.add_tokens _ := st_ret tt;
  ProtocolDataCache.add_components _ := st_ret tt
}.
#[global] Instance no_plugin : ExtractorExtension.t unit := {
  ExtractorExtension.process_block_update m p := (Ok m, p);
  ExtractorExtension.process_revert _ := st_ret tt
}.

Definition block_at (n : Z) (hash parent : byte) (ts : Z) : Block.t := Block.mk n Ethereum [hash] [parent] ts.
Definition changes_at (n : Z) (hash parent : byte) : BlockChanges.t :=
  BlockChanges.new "ambient" Ethereum (block_at n hash parent (10 ^ 6)) 0 false [] [].
Definition data_at (n : Z) (hash parent : byte) (final : Z) : BlockScopedData :=
  mk_data (Ok (changes_at n hash parent)) "c" final None.
Definition bad_at (n : Z) (hash parent : byte) (final : Z) : BlockScopedData :=
  mk_data (Ok (changes_at n hash parent)) "bad" final None.
Definition start : ProtocolExtractor.t Log unit unit :=
  ProtocolExtractor.mk (mk_log [BlockUpdateWithCursor.mk (changes_at 0 x00 x0f) "c"]) None None 1 "ambient" Ethereum tt "" None false ReorgBuffer.new None None.
Definition tick (inp : BlockScopedData) (self : ProtocolExtractor.t Log unit unit) :
    result ExtractionError (option BlockAggregatedChanges.t) * ProtocolExtractor.t Log unit unit :=
  handle_tick_scoped_data (fun _ => "") (fun _ => None) id (fun _ _ _ => []) inp self.
Definition after1 : ProtocolExtractor.t Log unit unit := (tick (data_at 1 x01 x00 0) start).2.
Definition after2 : ProtocolExtractor.t Log unit unit := (tick (data_at 2 x02 x01 2) after1).2.
Definition after3 : ProtocolExtractor.t Log unit unit := run_commit after2.
(** Block 1 is rejected, while block 2 is buffered. *)
Definition failed : ProtocolExtractor.t Log unit unit :=
  run_commit (tick (data_at 2 x02 x01 2) (tick (bad_at 1 x01 x00 0) start).2).2.
End CommitExamples.

Import CommitExamples.

(** Block 1 is written after block 0, which the database had, once block 2 is final. *)
Lemma commits_form_chain_witness :
  length (entries (ProtocolExtractor.gateway after3)) = 2 ∧ length (buffered after3) = 1 ∧
  ∃ gap taken, entries (ProtocolExtractor.gateway after3) ++ gap = entries (ProtocolExtractor.gateway start) ++ taken ∧
    chained (taken ++ buffered after3) ∧ (healthy after3 → gap = pending after3).
Proof.
  split; [vm_compute; reflexivity|]. split; [vm_compute; reflexivity|].
  destruct (commits_form_chain (fun _ => "") (fun _ => "") (fun _ => "") (fun _ => None) id (fun _ _ _ => []) start after3)
    as (gap & taken & H1 & H2 & H3 & _); [reflexivity|reflexivity| |by exists gap, taken].
  eapply rtc_l; [eapply (step_tick _ _ _ _ _ _ (data_at 1 x01 x00 0)); vm_compute; reflexivity|].
  eapply rtc_l; [eapply (step_tick _ _ _ _ _ _ (data_at 2 x02 x01 2)); vm_compute; reflexivity|].
  eapply rtc_l; [apply step_commit|]. apply rtc_refl.
Defined.

(** After a commit that failed the blocks of the task are lost, and no further block can be
    handed over. *)
Lemma failed_commit_leaves_gap :
  length (entries (ProtocolExtractor.gateway failed)) = 1 ∧
  (Block.number ∘ block <$> buffered failed) = [2]%Z ∧ pending failed = [] ∧
  (tick (data_at 3 x03 x02 3) failed).1 = Err (Storage (Unexpected "rejected")).
Proof. vm_compute. done. Qed.

Lemma block_times_increase_witness :
  increasing Block.ts (adjust_all None [block_at 1 x01 x00 (10 ^ 6); block_at 2 x02 x01 (10 ^ 6)]).
Proof.
  apply (block_times_increase [block_at 1 x01 x00 (10 ^ 6); block_at 2 x02 x01 (10 ^ 6)]); [|simpl; lia].
  split; repeat constructor; vm_compute; discriminate.
Defined.
