(* ===== verification/WriteCache.v ===== *)
(** The write cache of the storage gateway, [tycho_storage::postgres::cache], and the gateway of
    an extractor over it, [ExtractorPgGateway].

    An extractor opens a transaction, adds operations to it block by block, and commits it once
    it is large enough; the operations of one kind are merged, sorted into a fixed order and run
    in one database transaction.  The database is a state [S] behind the operations of
    [PostgresGateway]; a transaction that fails is rolled back.  The executor answers one writer
    at a time, so that sending a transaction and waiting for its result is one step. *)

From Stdlib Require Import Strings.String.
From S2P Require Import Prelude Collections Bytes Models Blockchain ReorgBuffer Extractor.

Open Scope tycho_scope.

(** [models::ExtractionState]; the attributes are JSON text. *)
Module ExtractionState.
Record t := mk { name : string; chain : Chain; attributes : string; cursor : string; block_hash : Bytes }.
Definition new (name : string) (chain : Chain) (attributes : option string) (cursor : string) (block_hash : Bytes) : t :=
  mk name chain (default "null" attributes) cursor block_hash.
End ExtractionState.

(** * Operations *)

Inductive WriteOp :=
| UpsertBlock (l : list Block.t)
| UpsertTx (l : list Transaction.t)
| SaveExtractionState (state : ExtractionState.t)
| InsertContract (l : list Account.t)
| UpdateContracts (l : list (Bytes * AccountDelta.t))
| InsertAccountBalances (l : list AccountBalance.t)
| InsertProtocolComponents (l : list ProtocolComponent.t)
| InsertTokens (l : list Token.t)
| UpdateTokens (l : list Token.t)
| InsertComponentBalances (l : list ComponentBalance.t)
| UpsertProtocolState (l : list (Bytes * ProtocolComponentStateDelta.t))
| InsertEntryPoints (m : gmap string (gset EntryPoint.t))
| InsertEntryPointTracingParams (m : gmap string (gset (TracingParams * string)))
| UpsertTracedEntryPoints (l : list TracedEntryPoint.t).

Definition order_key (op : WriteOp) : Z :=
  match op with
  | UpsertBlock _ => 0
  | UpsertTx _ => 1
  | InsertContract _ => 2
  | UpdateContracts _ => 3
  | InsertTokens _ => 4
  | UpdateTokens _ => 5
  | InsertAccountBalances _ => 6
  | InsertProtocolComponents _ => 7
  | InsertComponentBalances _ => 8
  | UpsertProtocolState _ => 9
  | InsertEntryPoints _ => 10
  | InsertEntryPointTracingParams _ => 11
  | UpsertTracedEntryPoints _ => 12
  | SaveExtractionState _ => 13
  end.

Module BlockRange.
Record t := mk { start : Block.t; end_ : Block.t }.
Definition new (start end_ : Block.t) : t := mk start end_.
End BlockRange.

Module DBTransaction.
Record t := mk {
  block_range : BlockRange.t;
  size : nat;
  operations : list WriteOp;
  owner : option string
}.

(** [entry.extend(new)] for every key: how many elements are added. *)
Definition growth {K A} `{Countable K, Countable A} (l r : gmap K (gset A)) : nat :=
  foldl (fun n '(k, new) => n + (base.size (default ∅ (l !! k) ∪ new) - base.size (default ∅ (l !! k : option (gset A)))))
    0 (map_to_list r).

(** One arm of the match of [add_operation]: the merged operation and what it adds to the size.
    Token updates are merged with token insertions. *)
Definition merge_op (existing_op op : WriteOp) : option (WriteOp * nat) :=
  match existing_op, op with
  | UpsertBlock l, UpsertBlock r => Some (UpsertBlock (l ++ r), length r)
  | UpsertTx l, UpsertTx r => Some (UpsertTx (l ++ r), length r)
  | SaveExtractionState _, SaveExtractionState r => Some (SaveExtractionState r, 0)
  | InsertContract l, InsertContract r => Some (InsertContract (l ++ r), length r)
  | UpdateContracts l, UpdateContracts r => Some (UpdateContracts (l ++ r), length r)
  | InsertAccountBalances l, InsertAccountBalances r => Some (InsertAccountBalances (l ++ r), length r)
  | InsertProtocolComponents l, InsertProtocolComponents r => Some (InsertProtocolComponents (l ++ r), length r)
  | InsertTokens l, InsertTokens r => Some (InsertTokens (l ++ r), length r)
  | UpdateTokens l, InsertTokens r => Some (UpdateTokens (l ++ r), length r)
  | InsertComponentBalances l, InsertComponentBalances r => Some (InsertComponentBalances (l ++ r), length r)
  | UpsertProtocolState l, UpsertProtocolState r => Some (UpsertProtocolState (l ++ r), length r)
  | InsertEntryPoints l, InsertEntryPoints r => Some (InsertEntryPoints (extend_sets l r), growth l r)
  | InsertEntryPointTracingParams l, InsertEntryPointTracingParams r =>
      Some (InsertEntryPointTracingParams (extend_sets l r), growth l r)
  | UpsertTracedEntryPoints l, UpsertTracedEntryPoints r => Some (UpsertTracedEntryPoints (l ++ r), length r)
  | _, _ => None
  end.

(** The first operation that can take it in, else a new one. *)
Fixpoint merge_into (op : WriteOp) (ops : list WriteOp) : list WriteOp * nat :=
  match ops with
  | [] => ([op], 1)
  | existing_op :: rest =>
      match merge_op existing_op op with
      | Some (merged, n) => (merged :: rest, n)
      | None => let '(rest, n) := merge_into op rest in (existing_op :: rest, n)
      end
  end.

Definition add_operation (op : WriteOp) (self : t) : t :=
  let '(ops, n) := merge_into op (operations self) in
  mk (block_range self) (size self + n) ops (owner self).
End DBTransaction.

(** * The database *)

Module PostgresGateway.
Class t (S : Type) := {
  upsert_block : list Block.t → stm S StorageError unit;
  upsert_tx : list Transaction.t → stm S StorageError unit;
  save_state : ExtractionState.t → stm S StorageError unit;
  insert_contract : Account.t → stm S StorageError unit;
  update_contracts : Chain → list (Bytes * AccountDelta.t) → stm S StorageError unit;
  add_account_balances : list AccountBalance.t → Chain → stm S StorageError unit;
  add_protocol_components : list ProtocolComponent.t → stm S StorageError unit;
  add_tokens : list Token.t → stm S StorageError unit;
  update_tokens : list Token.t → stm S StorageError unit;
  add_component_balances : list ComponentBalance.t → Chain → stm S StorageError unit;
  update_protocol_states : Chain → list (Bytes * ProtocolComponentStateDelta.t) → stm S StorageError unit;
  insert_entry_points : gmap string (gset EntryPoint.t) → Chain → stm S StorageError unit;
  insert_entry_point_tracing_params : gmap string (gset (TracingParams * string)) → Chain → stm S StorageError unit;
  upsert_traced_entry_points : list TracedEntryPoint.t → stm S StorageError unit;
  add_protocol_types : stm S StorageError unit;
  get_state : S → string → Chain → result StorageError ExtractionState.t;
  get_block : S → BlockIdentifier → result StorageError Block.t;
  get_protocol_states : S → Chain → list string → result StorageError (list ProtocolComponentState.t);
  get_contracts : S → Chain → list Bytes → result StorageError (list Account.t);
  get_component_balances :
    S → Chain → list string → result StorageError (gmap string (gmap Bytes ComponentBalance.t));
  get_account_balances :
    S → Chain → list Bytes → result StorageError (gmap Bytes (gmap Bytes AccountBalance.t))
}.
End PostgresGateway.

(** The gateway of one extractor: its open transaction, the database, and what the executor
    knows of the database. *)
Module CachedGateway.
Record t (S : Type) := mk {
  database : S;
  persisted_block : option Block.t;
  open_tx : option DBTransaction.t
}.
Arguments mk {S}.
Arguments database {S}.
Arguments persisted_block {S}.
Arguments open_tx {S}.
Definition set_open_tx {S} (tx : option DBTransaction.t) (self : t S) : t S :=
  mk (database self) (persisted_block self) tx.
End CachedGateway.

Section cache.
Context {S : Type} `{!PostgresGateway.t S} (chain : Chain).

Definition execute_write_op (operation : WriteOp) : stm S StorageError unit :=
  match operation with
  | UpsertBlock block => PostgresGateway.upsert_block block
  | UpsertTx transaction => PostgresGateway.upsert_tx transaction
  | SaveExtractionState state => PostgresGateway.save_state state
  | InsertContract contracts => for_each PostgresGateway.insert_contract contracts
  | UpdateContracts contracts => PostgresGateway.update_contracts chain contracts
  | InsertAccountBalances balances => PostgresGateway.add_account_balances balances chain
  | InsertProtocolComponents components => PostgresGateway.add_protocol_components components
  | InsertTokens tokens => PostgresGateway.add_tokens tokens
  | UpdateTokens tokens => PostgresGateway.update_tokens tokens
  | InsertComponentBalances balances => PostgresGateway.add_component_balances balances chain
  | UpsertProtocolState deltas => PostgresGateway.update_protocol_states chain deltas
  | UpsertTracedEntryPoints traced => PostgresGateway.upsert_traced_entry_points traced
  | InsertEntryPoints m => PostgresGateway.insert_entry_points m chain
  | InsertEntryPointTracingParams m => PostgresGateway.insert_entry_point_tracing_params m chain
  end.

(** The operations of a transaction; an entry that is there already is not an error. *)
Fixpoint execute_ops (ops : list WriteOp) : stm S StorageError unit := fun s =>
  match ops with
  | [] => (Ok tt, s)
  | op :: rest =>
      match execute_write_op op s with
      | (Ok _, s') | (Err (DuplicateEntry _ _), s') => execute_ops rest s'
      | (Err e, s') => (Err e, s')
      | (Panic, s') => (Panic, s')
      end
  end.

(** [build_transaction().run(…)]: all or nothing. *)
Definition transaction (ops : list WriteOp) : stm S StorageError unit := fun s =>
  match execute_ops ops s with
  | (Ok _, s') => (Ok tt, s')
  | (Err e, _) => (Err e, s)
  | (Panic, _) => (Panic, s)
  end.

Definition is_deadlock (e : StorageError) : bool :=
  match e with
  | Unexpected msg => match index 0 "deadlock detected" msg with Some _ => true | None => false end
  | _ => false
  end.

Definition max_retries : nat := 3.

(** The attempts from [retry_count] on; [interrupts] are the failures that other connections
    cause in an attempt. *)
Fixpoint attempts (fuel retry_count : nat) (interrupts : nat → option StorageError) (ops : list WriteOp)
    (res : result StorageError unit) : stm S StorageError unit := fun s =>
  match fuel with
  | 0 => (res, s)
  | Datatypes.S fuel' =>
      if retry_count <? max_retries then
        let '(res, s) :=
          match interrupts retry_count with
          | Some e => (Err e, s)
          | None => transaction ops s
          end in
        match res with
        | Err e => if is_deadlock e then attempts fuel' (retry_count + 1) interrupts ops res s else (res, s)
        | _ => (res, s)
        end
      else (res, s)
  end.

Import CachedGateway.

(** [DBCacheWriteExecutor::write] *)
Definition write (interrupts : nat → option StorageError) (new_db_tx : DBTransaction.t) :
    stm (CachedGateway.t S) StorageError unit := fun self =>
  let '(res, s) :=
    attempts max_retries 0 interrupts (DBTransaction.operations new_db_tx)
      (Err (Unexpected "default response error")) (database self) in
  let range := DBTransaction.block_range new_db_tx in
  let persisted :=
    match persisted_block self with
    | None => Some (BlockRange.end_ range)
    | Some db_block =>
        if (Block.number db_block <? Block.number (BlockRange.start range))%Z
        then Some (BlockRange.end_ range) else Some db_block
    end in
  (res, CachedGateway.mk s persisted (open_tx self)).

Definition start_transaction (block : Block.t) (owner : option string) (self : CachedGateway.t S) : CachedGateway.t S :=
  set_open_tx (Some
    match open_tx self with
    | Some tx =>
        DBTransaction.mk (BlockRange.mk (BlockRange.start (DBTransaction.block_range tx)) block)
          (DBTransaction.size tx) (DBTransaction.operations tx) (DBTransaction.owner tx)
    | None => DBTransaction.mk (BlockRange.new block block) 0 [] owner
    end) self.

Definition add_op (op : WriteOp) : stm (CachedGateway.t S) StorageError unit := fun self =>
  match open_tx self with
  | None => (Err (Unexpected "Usage error: No transaction started"), self)
  | Some tx => (Ok tt, set_open_tx (Some (DBTransaction.add_operation op tx)) self)
  end.

Definition commit_transaction (interrupts : nat → option StorageError) (min_ops_batch_size : nat) :
    stm (CachedGateway.t S) StorageError unit := fun self =>
  match open_tx self with
  | None => (Err (Unexpected "Usage error: Commit without transaction"), self)
  | Some db_txn =>
      if min_ops_batch_size <? DBTransaction.size db_txn then
        write interrupts
          (DBTransaction.mk (DBTransaction.block_range db_txn) (DBTransaction.size db_txn)
             (sort_by_key order_key (DBTransaction.operations db_txn)) (DBTransaction.owner db_txn))
          (set_open_tx None self)
      else (Ok tt, self)
  end.
End cache.

(** * [ExtractorPgGateway] *)

(** What [advance] gathers from the transactions of a block. *)
Module Collected.
Record t := mk {
  new_protocol_components : list ProtocolComponent.t;
  state_updates : list (Bytes * ProtocolComponentStateDelta.t);
  account_changes : list (Bytes * AccountDelta.t);
  component_balance_changes : list ComponentBalance.t;
  account_balance_changes : list AccountBalance.t;
  new_entrypoints : gmap string (gset EntryPoint.t);
  new_entrypoint_params : gmap string (gset (TracingParams * string))
}.
Definition empty : t := mk [] [] [] [] [] ∅ ∅.
End Collected.

Section advance.
Context {S : Type} `{!PostgresGateway.t S}.
(** [keccak256] and the title of an account made from a delta. *)
Context (keccak256 : Bytes → Bytes) (hex_title : Bytes → string).
Context (name : string) (chain : Chain) (db_tx_batch_size : nat).
Abbreviation gw := (CachedGateway.t S).

(** A creation with its dynamic values set. *)
Definition creation_delta (d : AccountDelta.t) : AccountDelta.t :=
  AccountDelta.set_code (default [] (AccountDelta.code d))
    (AccountDelta.mk (AccountDelta.chain d) (AccountDelta.address d) (AccountDelta.slots d)
       (Some (default [] (AccountDelta.balance d))) (AccountDelta.code d) (AccountDelta.change d)).

(** The entry of [account_changes] for a delta: none for a deletion, which is only logged. *)
Definition account_change (hash : Bytes) (d : AccountDelta.t) : list (Bytes * AccountDelta.t) :=
  if AccountDelta.is_creation d then [(hash, creation_delta d)]
  else if AccountDelta.is_update d then [(hash, d)] else [].

Definition insert_created (tx : Transaction.t) (d : AccountDelta.t) : stm gw StorageError unit :=
  if AccountDelta.is_creation d
  then add_op (InsertContract [ref_into_account keccak256 hex_title d tx])
  else st_ret tt.

(** One turn of the loop over the transactions. *)
Definition collect_tx (acc : Collected.t) (u : TxWithChanges.t) : Collected.t :=
  let hash := Transaction.hash (TxWithChanges.tx u) in
  Collected.mk
    (Collected.new_protocol_components acc ++ (map_to_list (TxWithChanges.protocol_components u)).*2)
    (Collected.state_updates acc ++ ((fun d => (hash, d)) <$> (map_to_list (TxWithChanges.state_updates u)).*2))
    (Collected.account_changes acc ++ ((map_to_list (TxWithChanges.account_deltas u)).*2 ≫= account_change hash))
    (Collected.component_balance_changes acc ++
       ((map_to_list (TxWithChanges.balance_changes u)).*2 ≫= fun m => (map_to_list m).*2))
    (Collected.account_balance_changes acc ++
       ((map_to_list (TxWithChanges.account_balance_changes u)).*2 ≫= fun m => (map_to_list m).*2))
    (extend_sets (Collected.new_entrypoints acc) (TxWithChanges.entrypoints u))
    (extend_sets (Collected.new_entrypoint_params acc) (TxWithChanges.entrypoint_params u)).

Definition write_tx (u : TxWithChanges.t) : stm gw StorageError unit :=
  add_op (UpsertTx [TxWithChanges.tx u]) ;?
  for_each (insert_created (TxWithChanges.tx u)) (map_to_list (TxWithChanges.account_deltas u)).*2.

Definition unless_empty {A} (l : list A) (op : WriteOp) : stm gw StorageError unit :=
  match l with [] => st_ret tt | _ => add_op op end.
Definition unless_empty_map {K A} `{Countable K, Countable A} (m : gmap K (gset A)) (op : WriteOp) :
    stm gw StorageError unit :=
  if decide (m = ∅) then st_ret tt else add_op op.

Definition save_cursor (new_cursor : string) (block_hash : Bytes) : stm gw StorageError unit :=
  add_op (SaveExtractionState (ExtractionState.new name chain None new_cursor block_hash)).

Definition advance (interrupts : nat → option StorageError) (changes : BlockChanges.t) (new_cursor : string)
    (force_commit : bool) : stm gw StorageError unit := fun self =>
  let c := foldl collect_tx Collected.empty (BlockChanges.txs_with_update changes) in
  let tokens := (map_to_list (BlockChanges.new_tokens changes)).*2 in
  (unless_empty tokens (InsertTokens tokens) ;?
   add_op (UpsertBlock [block changes]) ;?
   for_each write_tx (BlockChanges.txs_with_update changes) ;?
   unless_empty (Collected.new_protocol_components c) (InsertProtocolComponents (Collected.new_protocol_components c)) ;?
   unless_empty (Collected.account_changes c) (UpdateContracts (Collected.account_changes c)) ;?
   unless_empty (Collected.state_updates c) (UpsertProtocolState (Collected.state_updates c)) ;?
   unless_empty (Collected.component_balance_changes c) (InsertComponentBalances (Collected.component_balance_changes c)) ;?
   unless_empty (Collected.account_balance_changes c) (InsertAccountBalances (Collected.account_balance_changes c)) ;?
   unless_empty_map (Collected.new_entrypoints c) (InsertEntryPoints (Collected.new_entrypoints c)) ;?
   unless_empty_map (Collected.new_entrypoint_params c) (InsertEntryPointTracingParams (Collected.new_entrypoint_params c)) ;?
   unless_empty (BlockChanges.trace_results changes) (UpsertTracedEntryPoints (BlockChanges.trace_results changes)) ;?
   save_cursor new_cursor (Block.hash (block changes)) ;?
   commit_transaction chain interrupts (if force_commit then 0 else db_tx_batch_size))
    (start_transaction (block changes) (Some name) self).

Definition get_cursor (g : gw) : result StorageError (string * Bytes) :=
  state ← PostgresGateway.get_state (CachedGateway.database g) name chain;
  Ok (ExtractionState.cursor state, ExtractionState.block_hash state).

(** [impl ExtractorGateway for ExtractorPgGateway]: reads go to the database and do not see the
    open transaction. *)
Definition pg_gateway (interrupts : nat → option StorageError) : ExtractorGateway.t gw := {|
  ExtractorGateway.get_cursor := get_cursor;
  ExtractorGateway.get_block g hash := PostgresGateway.get_block (CachedGateway.database g) (BlockHashId hash);
  ExtractorGateway.ensure_protocol_types := on_field CachedGateway.database
    (fun s g => CachedGateway.mk s (CachedGateway.persisted_block g) (CachedGateway.open_tx g))
    PostgresGateway.add_protocol_types;
  ExtractorGateway.advance := advance interrupts;
  ExtractorGateway.get_protocol_states g ids :=
    PostgresGateway.get_protocol_states (CachedGateway.database g) chain ids;
  ExtractorGateway.get_contracts g addresses :=
    PostgresGateway.get_contracts (CachedGateway.database g) chain addresses;
  ExtractorGateway.get_components_balances g ids :=
    PostgresGateway.get_component_balances (CachedGateway.database g) chain ids;
  ExtractorGateway.get_account_balances g accounts :=
    PostgresGateway.get_account_balances (CachedGateway.database g) chain accounts
|}.
End advance.
