(* ===== verification/WriteCacheSpec.v ===== *)
(** What the write cache guarantees.

    The blocks of an extractor reach the database in batches, each in one transaction: every
    write once, the writes of one kind in the order of the blocks, the kinds in a fixed order,
    and the cursor of the last block of the batch with them.  A write that fails leaves the
    database as it was. *)

From Stdlib Require Import Strings.String Sorted.
From S2P Require Import Prelude Collections Bytes Models Blockchain ReorgBuffer Extractor WriteCache.

Open Scope tycho_scope.

Import DBTransaction.

(** * Merging operations *)

(** The single writes of an operation. *)
Inductive Item :=
| BlockItem (b : Block.t)
| TxItem (tx : Transaction.t)
| ContractItem (a : Account.t)
| UpdateItem (u : Bytes * AccountDelta.t)
| AccountBalanceItem (b : AccountBalance.t)
| ComponentItem (c : ProtocolComponent.t)
| TokenItem (t : Token.t)
| ComponentBalanceItem (b : ComponentBalance.t)
| StateItem (u : Bytes * ProtocolComponentStateDelta.t)
| TracedItem (t : TracedEntryPoint.t).

Definition items (op : WriteOp) : list Item :=
  match op with
  | UpsertBlock l => BlockItem <$> l
  | UpsertTx l => TxItem <$> l
  | InsertContract l => ContractItem <$> l
  | UpdateContracts l => UpdateItem <$> l
  | InsertAccountBalances l => AccountBalanceItem <$> l
  | InsertProtocolComponents l => ComponentItem <$> l
  | InsertTokens l | UpdateTokens l => TokenItem <$> l
  | InsertComponentBalances l => ComponentBalanceItem <$> l
  | UpsertProtocolState l => StateItem <$> l
  | UpsertTracedEntryPoints l => TracedItem <$> l
  | SaveExtractionState _ | InsertEntryPoints _ | InsertEntryPointTracingParams _ => []
  end.
Definition saved (op : WriteOp) : list ExtractionState.t :=
  match op with SaveExtractionState s => [s] | _ => [] end.
Definition entry_points (op : WriteOp) : gmap string (gset EntryPoint.t) :=
  match op with InsertEntryPoints m => m | _ => ∅ end.
Definition entry_params (op : WriteOp) : gmap string (gset (TracingParams * string)) :=
  match op with InsertEntryPointTracingParams m => m | _ => ∅ end.

(** [e] is in the set of [k] in one of the maps. *)
Definition in_some {K A} `{Countable K, Countable A} (view : WriteOp → gmap K (gset A)) (ops : list WriteOp)
    (k : K) (e : A) : Prop := ∃ op, op ∈ ops ∧ e ∈ default ∅ (view op !! k).

Definition of_kind (k : Z) (ops : list WriteOp) : list WriteOp := base.filter (fun op => order_key op = k) ops.

(** [ops] has the writes of [calls], each kind in its order. *)
Record SameWrites (calls ops : list WriteOp) : Prop := {
  same_items k : of_kind k ops ≫= items = of_kind k calls ≫= items;
  same_saved : last (ops ≫= saved) = last (calls ≫= saved);
  same_entry_points k e : in_some entry_points ops k e ↔ in_some entry_points calls k e;
  same_entry_params k e : in_some entry_params ops k e ↔ in_some entry_params calls k e
}.

(** No token update: an extractor makes none. *)
Definition plain (op : WriteOp) : Prop := match op with UpdateTokens _ => False | _ => True end.

(** One operation for each kind. *)
Definition one_each (ops : list WriteOp) : Prop := NoDup (order_key <$> ops) ∧ Forall plain ops.

Lemma lookup_extend_sets {K A} `{Countable K, Countable A} (l r : gmap K (gset A)) k :
  default ∅ (extend_sets l r !! k) = default ∅ (l !! k) ∪ default ∅ (r !! k).
Proof.
  unfold extend_sets. rewrite lookup_upsert_all. destruct (r !! k), (l !! k); simpl; set_solver.
Qed.

(** Operations are merged exactly with those of their kind. *)
Lemma merge_op_spec a b :
  plain a → plain b →
  match merge_op a b with
  | Some (m, _) => order_key m = order_key a ∧ order_key a = order_key b ∧ plain m ∧
      items m = items a ++ items b ∧
      last (saved m) = last (saved a ++ saved b) ∧
      (∀ k e, e ∈ default ∅ (entry_points m !! k) ↔
         e ∈ default ∅ (entry_points a !! k) ∨ e ∈ default ∅ (entry_points b !! k)) ∧
      (∀ k e, e ∈ default ∅ (entry_params m !! k) ↔
         e ∈ default ∅ (entry_params a !! k) ∨ e ∈ default ∅ (entry_params b !! k))
  | None => order_key a ≠ order_key b
  end.
Proof.
  assert (∀ k e, e ∈ default (∅ : gset EntryPoint.t) ((∅ : gmap string (gset EntryPoint.t)) !! k) ↔
    e ∈ default (∅ : gset EntryPoint.t) ((∅ : gmap string (gset EntryPoint.t)) !! k) ∨
    e ∈ default (∅ : gset EntryPoint.t) ((∅ : gmap string (gset EntryPoint.t)) !! k)) as He by (intros; tauto).
  assert (∀ k e, e ∈ default (∅ : gset (TracingParams * string)) ((∅ : gmap string (gset (TracingParams * string))) !! k) ↔
    e ∈ default (∅ : gset (TracingParams * string)) ((∅ : gmap string (gset (TracingParams * string))) !! k) ∨
    e ∈ default (∅ : gset (TracingParams * string)) ((∅ : gmap string (gset (TracingParams * string))) !! k)) as Hp
    by (intros; tauto).
  intros Ha Hb. destruct a, b; simpl; try done; (split_and!; [done..| | | |]);
    rewrite ?fmap_app; try done; intros k e; rewrite lookup_extend_sets; set_solver.
Qed.

Lemma merge_into_cases op ops :
  Forall plain ops → plain op →
  ((merge_into op ops).1 = ops ++ [op] ∧ (merge_into op ops).2 = 1 ∧ order_key op ∉ order_key <$> ops) ∨
  ∃ l1 a m n l2, ops = l1 ++ a :: l2 ∧ merge_into op ops = (l1 ++ m :: l2, n) ∧ merge_op a op = Some (m, n).
Proof.
  intros Hops Hop. induction ops as [|a ops IH]; simpl.
  { left. split_and!; [done|done|]. apply not_elem_of_nil. }
  apply Forall_cons in Hops as [Ha Hops]. pose proof (merge_op_spec a op Ha Hop) as Hm.
  destruct (merge_op a op) as [[m n]|] eqn:E.
  { right. by exists [], a, m, n, ops. }
  destruct (IH Hops) as [(H1 & H2 & H3)|(l1 & a' & m & n & l2 & -> & H2 & H3)].
  - left. destruct (merge_into op ops) as [rest n]. simpl in *. subst. split_and!; [done|done|].
    by intros [?|?]%elem_of_cons.
  - right. exists (a :: l1), a', m, n, l2. by rewrite H2.
Qed.

Lemma of_kind_app k l1 l2 : of_kind k (l1 ++ l2) = of_kind k l1 ++ of_kind k l2.
Proof. apply filter_app. Qed.

Lemma of_kind_none k l : k ∉ order_key <$> l → of_kind k l = [].
Proof.
  intros Hk. apply filter_none, Forall_forall. intros op Hop <-. apply Hk. by apply list_elem_of_fmap_2.
Qed.

Lemma bind_none {A B} (f : A → list B) l : (∀ x, x ∈ l → f x = []) → l ≫= f = [].
Proof.
  induction l as [|x l IH]; intros Hf; [done|]. rewrite bind_cons, Hf by left. apply IH.
  intros; apply Hf; by right.
Qed.

(** Only operations of kind 13 save a state. *)
Lemma saved_kind op : order_key op ≠ 13%Z → saved op = [].
Proof. by destruct op. Qed.

(** In a list with one operation of each kind, replacing one by its merge with another. *)
Lemma merged_neighbours l1 a l2 :
  NoDup (order_key <$> l1 ++ a :: l2) →
  of_kind (order_key a) l1 = [] ∧ of_kind (order_key a) l2 = [] ∧
  (order_key a = 13%Z → l1 ≫= saved = [] ∧ l2 ≫= saved = []).
Proof.
  rewrite fmap_app, fmap_cons. intros (Hn1 & Hd & Hn2)%NoDup_app. apply NoDup_cons in Hn2 as [Ha _].
  assert (order_key a ∉ order_key <$> l1) as Hl1 by (intros Hin; apply (Hd _ Hin); left).
  split_and!; [by apply of_kind_none|by apply of_kind_none|]. intros E. rewrite E in *.
  split; apply bind_none; intros op Hop; apply saved_kind; intros E'.
  - apply Hl1. rewrite <-E'. by apply list_elem_of_fmap_2.
  - apply Ha. rewrite <-E'. by apply list_elem_of_fmap_2.
Qed.

Lemma in_some_app {K A} `{Countable K, Countable A} (view : WriteOp → gmap K (gset A)) l1 l2 k e :
  in_some view (l1 ++ l2) k e ↔ in_some view l1 k e ∨ in_some view l2 k e.
Proof. unfold in_some. set_solver. Qed.

Lemma in_some_one {K A} `{Countable K, Countable A} (view : WriteOp → gmap K (gset A)) op k e :
  in_some view [op] k e ↔ e ∈ default ∅ (view op !! k).
Proof. unfold in_some. set_solver. Qed.

Lemma merge_into_one_each op ops : one_each ops → plain op → one_each (merge_into op ops).1.
Proof.
  intros [Hnd Hplain] Hop. destruct (merge_into_cases op ops Hplain Hop)
    as [(-> & _ & Hn)|(l1 & a & m & n & l2 & -> & -> & Hm)]; simpl.
  - split; [|by apply Forall_app; split; [|constructor]]. rewrite fmap_app. apply NoDup_app. split_and!; [done| |].
    + intros k Hk ->%list_elem_of_singleton. done.
    + apply NoDup_singleton.
  - apply Forall_app in Hplain as [Hl1 [Ha Hl2]%Forall_cons].
    pose proof (merge_op_spec a op Ha Hop) as Hs. rewrite Hm in Hs. destruct Hs as (Hk & _ & Hpm & _).
    split; [|apply Forall_app; split; [done|by constructor]]. rewrite fmap_app, fmap_cons in *. by rewrite Hk.
Qed.

Lemma merge_into_same calls op ops :
  one_each ops → plain op → SameWrites calls ops → SameWrites (calls ++ [op]) (merge_into op ops).1.
Proof.
  intros [Hnd Hplain] Hop [Hi Hs He Hp]. destruct (merge_into_cases op ops Hplain Hop)
    as [(-> & _ & Hn)|(l1 & a & m & n & l2 & -> & -> & Hm)]; simpl.
  - split.
    + intros k. by rewrite !of_kind_app, !bind_app, Hi.
    + rewrite !bind_app, !last_app. by rewrite Hs.
    + intros k e. by rewrite !in_some_app, He.
    + intros k e. by rewrite !in_some_app, Hp.
  - apply Forall_app in Hplain as [Hl1 [Ha Hl2]%Forall_cons].
    pose proof (merge_op_spec a op Ha Hop) as Hm'. rewrite Hm in Hm'.
    destruct Hm' as (Hkm & Hka & _ & Him & Hsm & Hem & Hpm).
    destruct (merged_neighbours l1 a l2 Hnd) as (N1 & N2 & N3). split.
    + intros k. specialize (Hi k). rewrite (cons_middle a), (cons_middle m), !of_kind_app, !bind_app in *.
      rewrite <-Hi. unfold of_kind in *. rewrite !(filter_cons (fun op => order_key op = k)) in *.
      rewrite !filter_nil in *. rewrite Hkm, <-Hka. destruct (decide (order_key a = k)) as [<-|Hne].
      * rewrite N1, N2. simpl. rewrite !app_nil_r. done.
      * simpl. by rewrite app_nil_r.
    + rewrite (cons_middle a) in Hs. rewrite (cons_middle m). rewrite !bind_app in *.
      assert ([a] ≫= saved = saved a) as Ea by apply app_nil_r.
      assert ([m] ≫= saved = saved m) as Em by apply app_nil_r.
      assert ([op] ≫= saved = saved op) as Eo by apply app_nil_r. rewrite Ea in Hs. rewrite Em, Eo.
      destruct (decide (order_key a = 13%Z)) as [E|E].
      * destruct (N3 E) as [S1 S2]. rewrite S1, S2 in *. simpl in *. rewrite !app_nil_r in *.
        rewrite Hsm, !last_app, Hs. done.
      * rewrite (saved_kind m), (saved_kind op) by congruence. rewrite (saved_kind a) in Hs by done.
        by rewrite app_nil_r.
    + intros k e. rewrite (cons_middle m). specialize (He k e). rewrite (cons_middle a) in He.
      rewrite !in_some_app, !in_some_one in *. rewrite Hem, <-He. tauto.
    + intros k e. rewrite (cons_middle m). specialize (Hp k e). rewrite (cons_middle a) in Hp.
      rewrite !in_some_app, !in_some_one in *. rewrite Hpm, <-Hp. tauto.
Qed.

(** ** Sorting *)

Definition by_kind (ops : list WriteOp) : Prop := StronglySorted (fun a b => (order_key a < order_key b)%Z) ops.

Lemma sorted_ops calls ops :
  one_each ops → SameWrites calls ops →
  by_kind (sort_by_key order_key ops) ∧ SameWrites calls (sort_by_key order_key ops).
Proof.
  intros [Hnd _] [Hi Hs He Hp]. pose proof (sort_by_key_perm order_key ops) as Hperm. split.
  - pose proof (sort_by_key_sorted order_key ops) as Hsort.
    assert (NoDup (order_key <$> sort_by_key order_key ops)) as Hnd' by by rewrite Hperm.
    revert Hnd'. clear Hperm. induction Hsort as [|a l Hsort IH Ha]; intros Hnd'; [constructor|].
    rewrite fmap_cons in Hnd'. apply NoDup_cons in Hnd' as [Hn Hnd']. constructor; [by apply IH|].
    rewrite Forall_forall in Ha |- *. intros b Hb. specialize (Ha b Hb). simpl in Ha.
    assert (order_key a ≠ order_key b); [|lia]. intros E. apply Hn. rewrite E. by apply list_elem_of_fmap_2.
  - assert (∀ l, last (l ≫= saved) = last (of_kind 13 l ≫= saved)) as Hk13.
    { intros l. f_equal. induction l as [|op l IH]; [done|]. rewrite bind_cons. unfold of_kind.
      rewrite filter_cons. case_decide as E; [rewrite bind_cons; by f_equal|]. by rewrite saved_kind. }
    split.
    + intros k. rewrite <-Hi. unfold of_kind. by rewrite sort_by_key_stable.
    + rewrite Hk13, <-Hs, (Hk13 ops). unfold of_kind. by rewrite sort_by_key_stable.
    + intros k e. rewrite <-He. unfold in_some. by setoid_rewrite Hperm.
    + intros k e. rewrite <-Hp. unfold in_some. by setoid_rewrite Hperm.
Qed.

(** * The operations of a block *)

Section block.
Context {S : Type} `{!PostgresGateway.t S}.
Context (keccak256 : Bytes → Bytes) (hex_title : Bytes → string).
Context (name : string) (chain : Chain) (db_tx_batch_size : nat).
Abbreviation gw := (CachedGateway.t S).
Abbreviation advance_ := (advance (S := S) keccak256 hex_title name chain db_tx_batch_size).
Import CachedGateway.

Definition add_all (l : list WriteOp) (tx : DBTransaction.t) : DBTransaction.t :=
  foldl (fun tx op => add_operation op tx) tx l.

(** The method adds these operations to the open transaction. *)
Definition adds (m : stm gw StorageError unit) (l : list WriteOp) : Prop :=
  ∀ self tx, open_tx self = Some tx → m self = (Ok tt, set_open_tx (Some (add_all l tx)) self).

Lemma adds_nothing : adds (st_ret tt) [].
Proof. intros [d p o] tx. simpl. by intros ->. Qed.

Lemma adds_op op : adds (add_op op) [op].
Proof. intros self tx Htx. unfold add_op. by rewrite Htx. Qed.

Lemma adds_bind m1 m2 l1 l2 : adds m1 l1 → adds m2 l2 → adds (m1 ;? m2) (l1 ++ l2).
Proof.
  intros Hm1 Hm2 self tx Htx. unfold st_bind. rewrite (Hm1 self tx Htx), (Hm2 (set_open_tx (Some (add_all l1 tx)) self) (add_all l1 tx) eq_refl).
  unfold add_all. by rewrite foldl_app.
Qed.

Lemma adds_for_each {A} (f : A → stm gw StorageError unit) (g : A → list WriteOp) l :
  (∀ a, adds (f a) (g a)) → adds (for_each f l) (l ≫= g).
Proof. intros Hf. induction l as [|a l IH]; [apply adds_nothing|]. rewrite bind_cons. by apply adds_bind. Qed.

Definition op_unless_empty {A} (l : list A) (op : WriteOp) : list WriteOp := match l with [] => [] | _ => [op] end.
Definition op_unless_empty_map {K A} `{Countable K, Countable A} (m : gmap K (gset A)) (op : WriteOp) : list WriteOp :=
  if decide (m = ∅) then [] else [op].

Lemma adds_unless_empty {A} (l : list A) op : adds (unless_empty l op) (op_unless_empty l op).
Proof. destruct l; [apply adds_nothing|apply adds_op]. Qed.

Lemma adds_unless_empty_map {K A} `{Countable K, Countable A} (m : gmap K (gset A)) op :
  adds (unless_empty_map m op) (op_unless_empty_map m op).
Proof.
  unfold unless_empty_map, op_unless_empty_map. case_decide; [apply adds_nothing|apply adds_op].
Qed.

Definition tx_calls (u : TxWithChanges.t) : list WriteOp :=
  [UpsertTx [TxWithChanges.tx u]] ++
  ((map_to_list (TxWithChanges.account_deltas u)).*2 ≫= fun d =>
     if AccountDelta.is_creation d
     then [InsertContract [ref_into_account keccak256 hex_title d (TxWithChanges.tx u)]] else []).

(** The operations of a block, in the order of the calls. *)
Definition block_calls (b : BlockUpdateWithCursor.t) : list WriteOp :=
  let changes := BlockUpdateWithCursor.block_update b in
  let c := foldl collect_tx Collected.empty (BlockChanges.txs_with_update changes) in
  let tokens := (map_to_list (BlockChanges.new_tokens changes)).*2 in
  op_unless_empty tokens (InsertTokens tokens) ++
  [UpsertBlock [block changes]] ++
  (BlockChanges.txs_with_update changes ≫= tx_calls) ++
  op_unless_empty (Collected.new_protocol_components c) (InsertProtocolComponents (Collected.new_protocol_components c)) ++
  op_unless_empty (Collected.account_changes c) (UpdateContracts (Collected.account_changes c)) ++
  op_unless_empty (Collected.state_updates c) (UpsertProtocolState (Collected.state_updates c)) ++
  op_unless_empty (Collected.component_balance_changes c) (InsertComponentBalances (Collected.component_balance_changes c)) ++
  op_unless_empty (Collected.account_balance_changes c) (InsertAccountBalances (Collected.account_balance_changes c)) ++
  op_unless_empty_map (Collected.new_entrypoints c) (InsertEntryPoints (Collected.new_entrypoints c)) ++
  op_unless_empty_map (Collected.new_entrypoint_params c) (InsertEntryPointTracingParams (Collected.new_entrypoint_params c)) ++
  op_unless_empty (BlockChanges.trace_results changes) (UpsertTracedEntryPoints (BlockChanges.trace_results changes)) ++
  [SaveExtractionState (ExtractionState.new name chain None (BlockUpdateWithCursor.cursor b) (Block.hash (block changes)))].

Lemma adds_tx u : adds (write_tx keccak256 hex_title u) (tx_calls u).
Proof.
  apply adds_bind; [apply adds_op|]. apply adds_for_each. intros d. unfold insert_created.
  destruct (AccountDelta.is_creation d); [apply adds_op|apply adds_nothing].
Qed.

(** The transaction a block is added to. *)
Definition started (b : Block.t) (self : gw) : DBTransaction.t :=
  match open_tx self with
  | Some tx => DBTransaction.mk (BlockRange.mk (BlockRange.start (block_range tx)) b) (size tx) (operations tx) (owner tx)
  | None => DBTransaction.mk (BlockRange.new b b) 0 [] (Some name)
  end.

Lemma advance_calls interrupts b force self :
  advance_ interrupts (BlockUpdateWithCursor.block_update b) (BlockUpdateWithCursor.cursor b) force self =
  commit_transaction chain interrupts (if force then 0 else db_tx_batch_size)
    (set_open_tx (Some (add_all (block_calls b) (started (block b) self))) self).
Proof.
  destruct b as [changes cursor]. unfold advance, block_calls.
  cbn [BlockUpdateWithCursor.block_update BlockUpdateWithCursor.cursor].
  set (c := foldl collect_tx Collected.empty (BlockChanges.txs_with_update changes)).
  set (tokens := (map_to_list (BlockChanges.new_tokens changes)).*2).
  assert (∀ m l (k : stm gw StorageError unit) self tx, adds m l → open_tx self = Some tx →
    (m ;? k) self = k (set_open_tx (Some (add_all l tx)) self)) as Hthen.
  { intros m l k s tx Hm Htx. unfold st_bind. by rewrite (Hm s tx Htx). }
  repeat (erewrite Hthen;
    [|first [apply adds_unless_empty|apply adds_unless_empty_map|apply adds_op
            |apply adds_for_each; apply adds_tx]|reflexivity]).
  unfold add_all. rewrite !foldl_app. reflexivity.
Qed.

(** ** What is in the open transaction *)

Lemma plain_calls b : Forall plain (block_calls b).
Proof.
  assert (∀ {A} (l : list A) op, plain op → Forall plain (op_unless_empty l op)) as Hu
    by (intros A l op Hp; destruct l; by repeat constructor).
  assert (∀ {K A} `{Countable K, Countable A} (m : gmap K (gset A)) op, plain op → Forall plain (op_unless_empty_map m op))
    as Hm by (intros; unfold op_unless_empty_map; case_decide; by repeat constructor).
  unfold block_calls. repeat (apply Forall_app; split); try apply Hu; try apply Hm; try done; [by repeat constructor| |by repeat constructor].
  apply Forall_forall. intros op (u & Hop & _)%list_elem_of_bind. unfold tx_calls in Hop.
  apply elem_of_app in Hop as [->%list_elem_of_singleton|Hop]; [done|].
  apply list_elem_of_bind in Hop as (d & Hop & _). destruct (AccountDelta.is_creation d); [|by apply elem_of_nil in Hop].
  by apply list_elem_of_singleton in Hop as ->.
Qed.

Lemma add_all_same calls l tx :
  Forall plain l → one_each (operations tx) → SameWrites calls (operations tx) →
  one_each (operations (add_all l tx)) ∧ SameWrites (calls ++ l) (operations (add_all l tx)).
Proof.
  revert calls tx; induction l as [|op l IH]; intros calls tx Hl Hone Hsame; simpl.
  { by rewrite app_nil_r. }
  apply Forall_cons in Hl as [Hop Hl]. rewrite (cons_middle op), app_assoc.
  assert (operations (add_operation op tx) = (merge_into op (operations tx)).1) as Hops
    by (unfold add_operation; by destruct (merge_into op (operations tx))).
  apply IH; [done| |]; rewrite Hops; [by apply merge_into_one_each|by apply merge_into_same].
Qed.

Lemma add_all_size l tx : size tx ≤ size (add_all l tx).
Proof.
  revert tx; induction l as [|op l IH]; intros tx; simpl; [done|]. etrans; [|apply IH].
  unfold add_operation. destruct (merge_into op (operations tx)). simpl. lia.
Qed.

(** A transaction with a block is never of size 0. *)
Lemma block_size b tx : 0 < size (add_all (block_calls b) tx).
Proof.
  assert (∀ x ops, (merge_into (UpsertBlock [x]) ops).2 = 1) as Hone.
  { intros x ops. induction ops as [|a ops IH]; [done|]. simpl.
    destruct a; simpl; try done; destruct (merge_into (UpsertBlock [x]) ops); simpl in *; done. }
  unfold block_calls, add_all. rewrite foldl_app. cbv zeta. rewrite (foldl_app _ [UpsertBlock _]).
  match goal with |- 0 < size (foldl ?f ?tx1 ?l) => pose proof (add_all_size l tx1) as Hle; unfold add_all in Hle end.
  eapply Nat.lt_le_trans; [|exact Hle]. simpl.
  match goal with |- 0 < size (add_operation (UpsertBlock [?x]) ?tx1) =>
    specialize (Hone x (operations tx1)); unfold add_operation; destruct (merge_into _ _) end.
  simpl in *. lia.
Qed.

(** The state saved with a block. *)
Definition state_of (b : BlockUpdateWithCursor.t) : ExtractionState.t :=
  ExtractionState.new name chain None (BlockUpdateWithCursor.cursor b) (Block.hash (block b)).

Lemma block_calls_saved b : block_calls b ≫= saved = [state_of b].
Proof.
  assert (∀ {A} (l : list A) op, saved op = [] → op_unless_empty l op ≫= saved = []) as Hu
    by (intros A l op Hp; destruct l; simpl; by rewrite ?Hp).
  assert (∀ {K A} `{Countable K, Countable A} (m : gmap K (gset A)) op, saved op = [] → op_unless_empty_map m op ≫= saved = [])
    as Hm by (intros; unfold op_unless_empty_map; case_decide; simpl; [done|by rewrite app_nil_r]).
  unfold block_calls. rewrite !bind_app, !Hu, !Hm by done.
  rewrite (bind_none saved (BlockChanges.txs_with_update _ ≫= tx_calls)); [done|].
  intros op (u & Hop & _)%list_elem_of_bind. unfold tx_calls in Hop.
  apply elem_of_app in Hop as [->%list_elem_of_singleton|Hop]; [done|].
  apply list_elem_of_bind in Hop as (d & Hop & _). destruct (AccountDelta.is_creation d); [|by apply elem_of_nil in Hop].
  by apply list_elem_of_singleton in Hop as ->.
Qed.

(** * Batches *)

(** The operations that write some blocks in one transaction. *)
Record Batch (bs : list BlockUpdateWithCursor.t) (ops : list WriteOp) : Prop := {
  batch_sorted : by_kind ops;
  batch_writes : SameWrites (bs ≫= block_calls) ops;
  batch_cursor : last (ops ≫= saved) = state_of <$> last bs
}.

Definition opened (self : gw) (rest : list BlockUpdateWithCursor.t) : Prop :=
  match open_tx self with
  | None => rest = []
  | Some tx => one_each (operations tx) ∧ SameWrites (rest ≫= block_calls) (operations tx)
  end.

Lemma last_saved bs : last ((bs ≫= block_calls) ≫= saved) = state_of <$> last bs.
Proof.
  induction bs as [|b bs _] using rev_ind; [done|]. rewrite !bind_app, !last_app.
  assert (([b] ≫= block_calls) ≫= saved = [state_of b]) as ->; [|done].
  cbn [mbind list_bind]. rewrite app_nil_r. apply block_calls_saved.
Qed.

Lemma transaction_failed ops s r s' : transaction chain ops s = (r, s') → r ≠ Ok tt → s' = s.
Proof.
  unfold transaction. destruct (execute_ops chain ops s) as [[[]|e|] s1]; by intros [= <- <-].
Qed.

Lemma attempts_spec fuel n interrupts ops res s r s' :
  attempts chain fuel n interrupts ops res s = (r, s') → res ≠ Ok tt →
  (r = Ok tt ∧ transaction chain ops s = (Ok tt, s')) ∨ (r ≠ Ok tt ∧ s' = s).
Proof.
  revert n res; induction fuel as [|fuel IH]; intros n res; simpl.
  { intros [= <- <-] Hr. by right. }
  case_if; [|intros [= <- <-] Hr; by right].
  destruct (interrupts n) as [e|].
  - destruct (is_deadlock e).
    + intros Ha _. by apply IH in Ha.
    + intros [= <- <-] _. by right.
  - destruct (transaction chain ops s) as [r1 s1] eqn:Et. destruct r1 as [[]|e|].
    + intros [= <- <-] _. by left.
    + apply transaction_failed in Et as ->; [|done]. destruct (is_deadlock e).
      * intros Ha _. by apply IH in Ha.
      * intros [= <- <-] _. by right.
    + apply transaction_failed in Et as ->; [|done]. intros [= <- <-] _. by right.
Qed.

Lemma started_opened b self rest :
  opened self rest →
  one_each (operations (started b self)) ∧ SameWrites (rest ≫= block_calls) (operations (started b self)).
Proof.
  unfold opened, started. destruct (open_tx self) as [tx|]; [done|]. intros ->. simpl.
  split; [split; constructor|done].
Qed.

(** One block: it stays in the open transaction, or the transaction is written with it, or
    the write fails and changes nothing. *)
Lemma advance_spec interrupts b force self rest r self' :
  opened self rest →
  advance_ interrupts (BlockUpdateWithCursor.block_update b) (BlockUpdateWithCursor.cursor b) force self = (r, self') →
  (r = Ok tt ∧ force = false ∧ database self' = database self ∧ opened self' (rest ++ [b])) ∨
  (open_tx self' = None ∧
   ((r = Ok tt ∧ ∃ ops, Batch (rest ++ [b]) ops ∧ transaction chain ops (database self) = (Ok tt, database self')) ∨
    (r ≠ Ok tt ∧ database self' = database self))).
Proof.
  intros Hopen. rewrite advance_calls. unfold commit_transaction. cbn [open_tx set_open_tx].
  destruct (started_opened (block b) self rest Hopen) as [Hone Hsame].
  pose proof (block_size b (started (block b) self)) as Hsize.
  destruct (add_all_same _ _ _ (plain_calls b) Hone Hsame) as [Hone' Hsame'].
  assert ((rest ≫= block_calls) ++ block_calls b = (rest ++ [b]) ≫= block_calls) as Hcalls.
  { rewrite bind_app. cbn [mbind list_bind]. by rewrite app_nil_r. }
  rewrite Hcalls in Hsame'. set (tx := add_all (block_calls b) (started (block b) self)) in *.
  destruct (_ <? size tx) eqn:Hmin; intros H0.
  - right. unfold write in H0. cbn [DBTransaction.operations database set_open_tx open_tx persisted_block] in H0.
    destruct (attempts _ _ _ _ _ _ _) as [r1 s1] eqn:Ea. injection H0 as <- <-. simpl.
    split; [done|]. apply attempts_spec in Ea as [[-> Ht]|[Hr ->]]; [left|by right|done].
    split; [done|]. destruct (sorted_ops _ _ Hone' Hsame') as [Hsorted Hsw].
    exists (sort_by_key order_key (operations tx)). split; [|done]. split; [done|done|].
    rewrite (same_saved _ _ Hsw). apply last_saved.
  - left. injection H0 as <- <-. split_and!; [done| |done|].
    + destruct force; [|done]. apply Nat.ltb_ge in Hmin. lia.
    + done.
Qed.
End block.

(** * The guarantees *)

Section batches.
Context {S : Type} `{!PostgresGateway.t S}.
Context (keccak256 : Bytes → Bytes) (hex_title : Bytes → string).
Context (name : string) (chain : Chain) (db_tx_batch_size : nat).
Abbreviation gw := (CachedGateway.t S).
Abbreviation Batch_ := (Batch keccak256 hex_title name chain).
Abbreviation block_calls_ := (block_calls keccak256 hex_title name chain).

(** A call of [advance]: the block, whether it forces the commit, and what interrupts it. *)
Record Call := mk_call {
  call_block : BlockUpdateWithCursor.t;
  call_force : bool;
  call_interrupts : nat → option StorageError
}.
Definition advance_call (c : Call) : stm gw StorageError unit :=
  advance keccak256 hex_title name chain db_tx_batch_size (call_interrupts c)
    (BlockUpdateWithCursor.block_update (call_block c)) (BlockUpdateWithCursor.cursor (call_block c)) (call_force c).

(** Batches of blocks, each written in one transaction. *)
Inductive Wrote : list (list BlockUpdateWithCursor.t) → S → S → Prop :=
| wrote_nothing s : Wrote [] s s
| wrote_batch bs batches ops s s1 s2 :
    Batch_ bs ops → transaction chain ops s = (Ok tt, s1) → Wrote batches s1 s2 → Wrote (bs :: batches) s s2.

Lemma advance_calls_batched calls self rest self' :
  opened keccak256 hex_title name chain self rest →
  for_each advance_call calls self = (Ok tt, self') →
  ∃ batches rest', rest ++ (call_block <$> calls) = concat batches ++ rest' ∧
    Wrote batches (CachedGateway.database self) (CachedGateway.database self') ∧
    opened keccak256 hex_title name chain self' rest' ∧
    (∀ c, last calls = Some c → call_force c = true → CachedGateway.open_tx self' = None ∧ rest' = []).
Proof.
  revert self rest; induction calls as [|c calls IH]; intros self rest Hopen; simpl.
  { intros [= <-]. exists [], rest. rewrite app_nil_r. split_and!; [done|constructor|done|done]. }
  unfold st_bind. destruct (advance_call c self) as [r self1] eqn:Ea.
  assert (rest ++ (call_block <$> c :: calls) = (rest ++ [call_block c]) ++ (call_block <$> calls)) as Hl
    by by rewrite <-app_assoc.
  assert (∀ x (P : Prop), last (c :: calls) = Some x → (calls = [] → c = x → P) → (last calls = Some x → P) → P) as Hlast.
  { intros x P Hx H1 H2. destruct calls as [|c' calls]; [injection Hx as ->; by apply H1|by apply H2]. }
  apply (advance_spec keccak256 hex_title name chain db_tx_batch_size) with (rest := rest) in Ea; [|done].
  destruct Ea as [(-> & Hforce & Hdb & Hopen1)|(Htx & [(-> & ops & Hb & Ht)|[Hr _]])].
  - intros Hrest. destruct (IH self1 _ Hopen1 Hrest) as (batches & rest' & Heq & Hw & Ho & Hf).
    exists batches, rest'. rewrite fmap_cons in Hl. split_and!; [by rewrite <-Heq, <-Hl|by rewrite <-Hdb|done|].
    intros x Hx Hfx. apply (Hlast x _ Hx); [|intros Hx'; by apply (Hf x)]. intros -> ->. congruence.
  - intros Hrest. destruct (IH self1 []) as (batches & rest' & Heq & Hw & Ho & Hf); [|done|].
    { unfold opened. by rewrite Htx. }
    exists ((rest ++ [call_block c]) :: batches), rest'. rewrite app_nil_l in Heq. split_and!.
    + etrans; [exact Hl|]. rewrite Heq. simpl. by rewrite app_assoc.
    + by econstructor.
    + done.
    + intros x Hx Hfx. apply (Hlast x _ Hx); [|intros Hx'; by apply (Hf x)]. intros -> _. simpl in Hrest.
      injection Hrest as <-. split; [done|]. unfold opened in Ho. by rewrite Htx in Ho.
  - destruct r as [[]|e|]; done.
Qed.

(** C9. Blocks that an extractor advances with reach the database in batches of consecutive
    blocks, each in one transaction: every write of the blocks once, those of one kind in the order
    of the blocks, the kinds in a fixed order, and with them the cursor of the last block of the
    batch.  What is not written yet is the open transaction, which has the writes of the remaining
    blocks; a call that forces the commit leaves none. *)
Theorem blocks_written_in_batches calls (self self' : gw) :
  CachedGateway.open_tx self = None →
  for_each advance_call calls self = (Ok tt, self') →
  ∃ batches rest, call_block <$> calls = concat batches ++ rest ∧
    Wrote batches (CachedGateway.database self) (CachedGateway.database self') ∧
    match CachedGateway.open_tx self' with
    | None => rest = []
    | Some tx => SameWrites (rest ≫= block_calls_) (DBTransaction.operations tx)
    end ∧
    (∀ c, last calls = Some c → call_force c = true → rest = []).
Proof.
  intros Hnone Hrun. destruct (advance_calls_batched calls self [] self') as (batches & rest & Heq & Hw & Ho & Hf).
  { unfold opened. by rewrite Hnone. } { done. }
  exists batches, rest. split_and!; [done|done| |].
  - unfold opened in Ho. destruct (CachedGateway.open_tx self'); [apply Ho|done].
  - intros c Hc Hfc. by apply (Hf c).
Qed.

(** C32. A call that fails leaves the database as it was, and drops the open transaction with the
    blocks in it. *)
Theorem failed_advance_keeps_database c (self self' : gw) rest e :
  opened keccak256 hex_title name chain self rest →
  advance_call c self = (Err e, self') →
  CachedGateway.database self' = CachedGateway.database self ∧ CachedGateway.open_tx self' = None.
Proof.
  intros Ho Ha. apply (advance_spec keccak256 hex_title name chain db_tx_batch_size) with (rest := rest) in Ha; [|done].
  destruct Ha as [(? & _)|(Htx & [(? & _)|[_ Hdb]])]; done.
Qed.
End batches.

(** * Examples *)

Module CacheExamples.
(** A database that is the list of the operations run; a transaction hash of one zero byte is
    refused. *)
Record Ops := mk_ops { run : list WriteOp }.
Definition log_op (op : WriteOp) : stm Ops StorageError unit := fun s => (Ok tt, mk_ops (run s ++ [op])).
#[global] Instance ops_gateway : PostgresGateway.t Ops := {
  PostgresGateway.upsert_block l := log_op (UpsertBlock l);
  PostgresGateway.upsert_tx l :=
    if decide (Exists (fun tx => Transaction.hash tx = [z2b 0]) l)
    then st_throw (Unexpected "refused") else log_op (UpsertTx l);
  PostgresGateway.save_state s := log_op (SaveExtractionState s);
  PostgresGateway.insert_contract a := log_op (InsertContract [a]);
  PostgresGateway.update_contracts _ l := log_op (UpdateContracts l);
  PostgresGateway.add_account_balances l _ := log_op (InsertAccountBalances l);
  PostgresGateway.add_protocol_components l := log_op (InsertProtocolComponents l);
  PostgresGateway.add_tokens l := log_op (InsertTokens l);
  PostgresGateway.update_tokens l := log_op (UpdateTokens l);
  PostgresGateway.add_component_balances l _ := log_op (InsertComponentBalances l);
  PostgresGateway.update_protocol_states _ l := log_op (UpsertProtocolState l);
  PostgresGateway.insert_entry_points m _ := log_op (InsertEntryPoints m);
  PostgresGateway.insert_entry_point_tracing_params m _ := log_op (InsertEntryPointTracingParams m);
  PostgresGateway.upsert_traced_entry_points l := log_op (UpsertTracedEntryPoints l);
  PostgresGateway.add_protocol_types := st_ret tt;
  PostgresGateway.get_state _ _ _ := Err (NotFound "state" "name");
  PostgresGateway.get_block _ _ := Err (NotFound "block" "id");
  PostgresGateway.get_protocol_states _ _ _ := Ok [];
  PostgresGateway.get_contracts _ _ _ := Ok [];
  PostgresGateway.get_component_balances _ _ _ := Ok ∅;
  PostgresGateway.get_account_balances _ _ _ := Ok ∅
}.

Definition empty_gw : CachedGateway.t Ops := CachedGateway.mk (mk_ops []) None None.
Definition tx_hash (h : Bytes) : TxWithChanges.t :=
  TxWithChanges.mk (Transaction.mk h [] [] None 0) ∅ ∅ ∅ ∅ ∅ ∅ ∅.
Definition block_no (n : Z) (cursor : string) (h : Bytes) : BlockUpdateWithCursor.t :=
  BlockUpdateWithCursor.mk
    (BlockChanges.new "ambient" Ethereum (Block.mk n Ethereum [z2b n] [z2b (n - 1)] n) 0 false [tx_hash h] []) cursor.
Definition no_interrupt (_ : nat) : option StorageError := None.
Definition call_no (n : Z) (cursor : string) (h : Bytes) (force : bool) : Call :=
  mk_call (block_no n cursor h) force no_interrupt.
Definition run_calls (calls : list Call) : result StorageError unit * CachedGateway.t Ops :=
  for_each (advance_call id (fun _ => "") "ambient" Ethereum 100) calls empty_gw.
Definition two_calls : list Call := [call_no 1 "c1" [z2b 1] false; call_no 2 "c2" [z2b 2] true].
End CacheExamples.

Import CacheExamples.

(** Two blocks, the second forced: one transaction with both. *)
Lemma blocks_written_in_batches_witness : ∃ self' batches,
  run_calls two_calls = (Ok tt, self') ∧ concat batches = call_block <$> two_calls ∧
  Wrote id (fun _ => "") "ambient" Ethereum batches (mk_ops []) (CachedGateway.database self') ∧
  order_key <$> run (CachedGateway.database self') = [0; 1; 13]%Z.
Proof.
  exists (run_calls two_calls).2.
  destruct (blocks_written_in_batches id (fun _ => "") "ambient" Ethereum 100 two_calls empty_gw (run_calls two_calls).2)
    as (batches & rest & Heq & Hw & _ & Hf); [reflexivity|vm_compute; reflexivity|].
  exists batches. split; [vm_compute; reflexivity|].
  rewrite (Hf (call_no 2 "c2" [z2b 2] true) eq_refl eq_refl), app_nil_r in Heq.
  split; [symmetry; exact Heq|]. split; [exact Hw|]. vm_compute. reflexivity.
Defined.

Lemma failed_advance_keeps_database_witness :
  let call := call_no 1 "c1" [z2b 0] true in
  advance_call id (fun _ => "") "ambient" Ethereum 100 call empty_gw = (Err (Unexpected "refused"), (run_calls [call]).2) ∧
  CachedGateway.database (run_calls [call]).2 = mk_ops [].
Proof.
  split; [vm_compute; reflexivity|].
  destruct (failed_advance_keeps_database id (fun _ => "") "ambient" Ethereum 100 (call_no 1 "c1" [z2b 0] true) empty_gw
    (run_calls [call_no 1 "c1" [z2b 0] true]).2 [] (Unexpected "refused")) as [Hdb _];
    [reflexivity|vm_compute; reflexivity|exact Hdb].
Defined.

(** A block that is not forced out stays in the open transaction, but the extractor reports its
    height as committed: the database has nothing of it. *)
Lemma committed_height_before_write :
  let self := ProtocolExtractor.mk empty_gw (Some (Running [block_no 1 "c1" [z2b 1]] true)) None 1 "ambient" Ethereum tt
    "c1" None true (ReorgBuffer.new (B := BlockUpdateWithCursor.t)) None (None : option unit) in
  let after := run_commit (H := pg_gateway id (fun _ => "") "ambient" Ethereum 100 no_interrupt) self in
  ProtocolExtractor.committed_block_height after = Some 1%Z ∧
  run (CachedGateway.database (ProtocolExtractor.gateway after)) = [].
Proof. by vm_compute. Qed.

(** Tokens inserted after an update of tokens are updated, not inserted. *)
Lemma insert_after_update_merges_wrongly l r :
  (merge_into (InsertTokens r) [UpdateTokens l]).1 = [UpdateTokens (l ++ r)].
Proof. done. Qed.
