(* ===== verification/ForkPools.v ===== *)
(** Two more constant product pools of [tycho-simulation]: Ring Swap v2, whose output is limited
    by the backing of a wrapped token ([ring_swap_v2/state.rs]), and Aerodrome v1, with a volatile
    and a stable curve ([aerodrome_v1/state.rs], [aerodrome_v1/solidly_stable.rs]). *)

From S2P Require Import Prelude Collections Bytes Models SafeMath Cpmm.

Open Scope Z_scope.

(** * Ring Swap v2 *)

Module RingSwapV2State.
Definition SWAP_BASE_GAS : Z := 90000.
Definition RING_SWAP_V2_FEE_BPS : Z := 30.
Definition FEE_PRECISION : Z := 10000.
Definition FEE_NUMERATOR : Z := 9970.

Record t := mk {
  component_id : string;
  reserve0 : Z;
  reserve1 : Z;
  backing0 : Z;
  backing1 : Z;
  token0 : Bytes;
  token1 : Bytes
}.

Definition set_reserves (r0 r1 : Z) (self : t) : t :=
  mk (component_id self) r0 r1 (backing0 self) (backing1 self) (token0 self) (token1 self).
Definition set_backings (b0 b1 : Z) (self : t) : t :=
  mk (component_id self) (reserve0 self) (reserve1 self) b0 b1 (token0 self) (token1 self).

Definition zero_to_one (token_in token_out : Token.t) : bool :=
  bytes_ltb (Token.address token_in) (Token.address token_out).

Definition reserves (zero_to_one : bool) (self : t) : Z * Z :=
  if zero_to_one then (reserve0 self, reserve1 self) else (reserve1 self, reserve0 self).

Definition output_backing (zero_to_one : bool) (self : t) : Z :=
  if zero_to_one then backing1 self else backing0 self.

Definition protocol_fee : ProtocolFee.t := ProtocolFee.new FEE_NUMERATOR FEE_PRECISION.

Definition max_input_for_backing (reserve_in reserve_out output_backing : Z) : result SimulationError Z :=
  if reserve_out <=? output_backing then Ok (2 ^ 256 - 1)
  else
    first_unexecutable_output ← safe_add_u256 output_backing 1;
    if first_unexecutable_output =? reserve_out then Ok (2 ^ 256 - 1)
    else
      product ← safe_mul_u256 first_unexecutable_output reserve_in;
      numerator ← safe_mul_u256 product FEE_PRECISION;
      difference ← safe_sub_u256 reserve_out first_unexecutable_output;
      denominator ← safe_mul_u256 FEE_NUMERATOR difference;
      below ← safe_sub_u256 numerator 1;
      safe_div_u256 below denominator.

Definition capped_limits (sell_token buy_token : Bytes) (self : t) : result SimulationError (Z * Z) :=
  '(soft_input, _) ← cpmm_get_limits sell_token buy_token (reserve0 self) (reserve1 self) RING_SWAP_V2_FEE_BPS;
  let zero_to_one := bytes_ltb sell_token buy_token in
  let '(reserve_in, reserve_out) := reserves zero_to_one self in
  soft_input_u256 ← biguint_to_u256 soft_input;
  soft_output ← cpmm_get_amount_out soft_input_u256 reserve_in reserve_out protocol_fee;
  let output_backing := output_backing zero_to_one self in
  if output_backing =? 0 then Ok (0, 0)
  else if soft_output <=? output_backing then Ok (soft_input, u256_to_biguint soft_output)
  else
    max_input ← max_input_for_backing reserve_in reserve_out output_backing;
    let capped_input := Z.min max_input soft_input_u256 in
    if capped_input =? 0 then Ok (0, 0)
    else
      output ← cpmm_get_amount_out capped_input reserve_in reserve_out protocol_fee;
      Ok (u256_to_biguint capped_input, u256_to_biguint output).

Definition get_limits : Bytes → Bytes → t → result SimulationError (Z * Z) := capped_limits.

(** [component_balances] is the entry of [balances.component_balances] for the component. *)
Definition apply_component_balance_updates (balances : gmap string (gmap Bytes Bytes)) : stm t TransitionError unit :=
  fun self =>
  match balances !! component_id self with
  | None => (Ok tt, self)
  | Some component_balances =>
      let read token current :=
        match component_balances !! token with Some b => u256_from_be_slice b | None => Ok current end in
      match read (token0 self) (backing0 self) with
      | Ok b0 =>
          let self := set_backings b0 (backing1 self) self in
          match read (token1 self) (backing1 self) with
          | Ok b1 => (Ok tt, set_backings b0 b1 self)
          | Err e => (Err e, self)
          | Panic => (Panic, self)
          end
      | Err e => (Err e, self)
      | Panic => (Panic, self)
      end
  end.

Definition get_amount_out (amount_in : Z) (token_in token_out : Token.t) (self : t) :
    result SimulationError (GetAmountOutResult.t t) :=
  amount_in ← biguint_to_u256 amount_in;
  let zero_to_one := zero_to_one token_in token_out in
  let '(reserve_in, reserve_out) := reserves zero_to_one self in
  amount_out ← cpmm_get_amount_out amount_in reserve_in reserve_out protocol_fee;
  let output_backing := output_backing zero_to_one self in
  if (output_backing =? 0) || (output_backing <? amount_out)
  then Err (InvalidInput "RingSwapV2 output exceeds FewToken underlying backing" None)
  else
    new_state ←
      (if zero_to_one then
         r0 ← safe_add_u256 (reserve0 self) amount_in;
         r1 ← safe_sub_u256 (reserve1 self) amount_out;
         b0 ← safe_add_u256 (backing0 self) amount_in;
         b1 ← safe_sub_u256 (backing1 self) amount_out;
         Ok (set_backings b0 b1 (set_reserves r0 r1 self))
       else
         r0 ← safe_sub_u256 (reserve0 self) amount_out;
         r1 ← safe_add_u256 (reserve1 self) amount_in;
         b0 ← safe_sub_u256 (backing0 self) amount_out;
         b1 ← safe_add_u256 (backing1 self) amount_in;
         Ok (set_backings b0 b1 (set_reserves r0 r1 self)));
    Ok (GetAmountOutResult.mk (u256_to_biguint amount_out) SWAP_BASE_GAS new_state).

(** The first reserve is written before the second is read. *)
Definition delta_transition (updated_attributes : gmap string Bytes) (balances : gmap string (gmap Bytes Bytes)) :
    stm t TransitionError unit := fun self =>
  let '(r, self) :=
    match updated_attributes !! "reserve0", updated_attributes !! "reserve1" with
    | None, None => (Ok tt, self)
    | b0, b1 =>
        match b ← ok_or b0 (MissingAttribute "reserve0"); u256_from_be_slice b with
        | Ok r0 =>
            let self := set_reserves r0 (reserve1 self) self in
            match b ← ok_or b1 (MissingAttribute "reserve1"); u256_from_be_slice b with
            | Ok r1 => (Ok tt, set_reserves r0 r1 self)
            | Err e => (Err e, self)
            | Panic => (Panic, self)
            end
        | Err e => (Err e, self)
        | Panic => (Panic, self)
        end
    end in
  match r with
  | Ok _ => apply_component_balance_updates balances self
  | _ => (r, self)
  end.

Definition query_pool_swap (token_in token_out : Token.t) (constraint : SwapConstraint) (self : t) :
    result SimulationError (PoolSwap.t t) :=
  let '(reserve_in, reserve_out) := reserves (zero_to_one token_in token_out) self in
  query_target self "RingSwapV2State does not support TradeLimitPrice constraint in query_pool_swap" constraint
    (fun price =>
       '(target_input, out) ← cpmm_swap_to_price reserve_in reserve_out price protocol_fee;
       '(max_input, _) ← get_limits (Token.address token_in) (Token.address token_out) self;
       Ok (Z.min target_input max_input, out))
    (fun amount_in => get_amount_out amount_in token_in token_out self).
End RingSwapV2State.

(** * The stable curve *)

Module SolidlyStable.
Definition e18 : Z := 10 ^ 18.

(** [10u128.pow(decimals)] *)
Definition scale (decimals : Z) : Z := wrap 128 (10 ^ decimals).

Definition normalize (amount decimals : Z) : result SimulationError Z :=
  scaled ← safe_mul_u256 amount e18; safe_div_u256 scaled (scale decimals).

(** [safe_div(safe_mul(a, b)?, e18)?] *)
Definition mul_e18 (a b : Z) : result SimulationError Z :=
  product ← safe_mul_u256 a b; safe_div_u256 product e18.

Definition _f (x0 y : Z) : result SimulationError Z :=
  a ← mul_e18 x0 y;
  x0_squared ← mul_e18 x0 x0;
  y_squared ← mul_e18 y y;
  b ← safe_add_u256 x0_squared y_squared;
  mul_e18 a b.

Definition _d (x0 y : Z) : result SimulationError Z :=
  y_squared ← mul_e18 y y;
  three_x0 ← safe_mul_u256 3 x0;
  term1 ← mul_e18 three_x0 y_squared;
  x0_squared ← mul_e18 x0 x0;
  term2 ← mul_e18 x0_squared x0;
  safe_add_u256 term1 term2.

Definition _k (x y decimals0 decimals1 : Z) : result SimulationError Z :=
  x ← normalize x decimals0;
  y ← normalize y decimals1;
  a ← mul_e18 x y;
  x_squared ← mul_e18 x x;
  y_squared ← mul_e18 y y;
  b ← safe_add_u256 x_squared y_squared;
  mul_e18 a b.

(** One turn of the loop of [_get_y]: the answer, or the next guess. *)
Definition get_y_turn (x0 xy y : Z) : result SimulationError (Z + Z) :=
  k ← _f x0 y;
  d ← _d x0 y;
  if d =? 0 then Err (FatalError "Division by zero in _get_y")
  else if k <? xy then
    diff ← safe_sub_u256 xy k;
    scaled ← safe_mul_u256 diff e18;
    dy ← safe_div_u256 scaled d;
    if dy =? 0 then
      if k =? xy then Ok (inr y)
      else
        y_plus_1 ← safe_add_u256 y 1;
        k1 ← _f x0 y_plus_1;
        if xy <? k1 then Ok (inr y_plus_1)
        else y' ← safe_add_u256 y 1; Ok (inl y')
    else y' ← safe_add_u256 y dy; Ok (inl y')
  else
    diff ← safe_sub_u256 k xy;
    scaled ← safe_mul_u256 diff e18;
    dy ← safe_div_u256 scaled d;
    if dy =? 0 then
      if k =? xy then Ok (inr y)
      else
        y_minus_1 ← safe_sub_u256 y 1;
        k1 ← _f x0 y_minus_1;
        if k1 <? xy then Ok (inr y)
        else y' ← safe_sub_u256 y 1; Ok (inl y')
    else y' ← safe_sub_u256 y dy; Ok (inl y').

Fixpoint get_y_loop (n : nat) (x0 xy y : Z) : result SimulationError Z :=
  match n with
  | O => Err (FatalError "Failed to converge in _get_y after 255 iterations")
  | S n' =>
      r ← get_y_turn x0 xy y;
      match r with inr y => Ok y | inl y => get_y_loop n' x0 xy y end
  end.

Definition _get_y : Z → Z → Z → result SimulationError Z := get_y_loop 255.

Definition get_amount_out (amount_in : Z) (zero2one : bool) (reserve0 reserve1 fee_bps decimals0 decimals1 : Z) :
    result SimulationError Z :=
  if amount_in =? 0 then Err (InvalidInput "Amount in cannot be zero" None)
  else if (reserve0 =? 0) || (reserve1 =? 0) then Err (RecoverableError "No liquidity")
  else
    xy ← _k reserve0 reserve1 decimals0 decimals1;
    reserve0_normalized ← normalize reserve0 decimals0;
    reserve1_normalized ← normalize reserve1 decimals1;
    let '(reserve_in, reserve_out, decimals_in, decimals_out) :=
      if zero2one then (reserve0_normalized, reserve1_normalized, decimals0, decimals1)
      else (reserve1_normalized, reserve0_normalized, decimals1, decimals0) in
    fee_product ← safe_mul_u256 amount_in fee_bps;
    fee_amount ← safe_div_u256 fee_product 10000;
    amount_in_with_fee ← safe_sub_u256 amount_in fee_amount;
    amount_in_normalized ← normalize amount_in_with_fee decimals_in;
    x0 ← safe_add_u256 amount_in_normalized reserve_in;
    y_new ← _get_y x0 xy reserve_out;
    y_diff ← safe_sub_u256 reserve_out y_new;
    scaled ← safe_mul_u256 y_diff (scale decimals_out);
    safe_div_u256 scaled e18.

Definition get_limits (sell_token buy_token : Bytes) (reserve0 reserve1 decimals0 decimals1 : Z) :
    result SimulationError (Z * Z) :=
  if (reserve0 =? 0) || (reserve1 =? 0) then Ok (0, 0)
  else
    let zero_for_one := bytes_ltb sell_token buy_token in
    let '(reserve_in, reserve_out, decimals_in, decimals_out) :=
      if zero_for_one then (reserve0, reserve1, decimals0, decimals1)
      else (reserve1, reserve0, decimals1, decimals0) in
    xy ← _k reserve0 reserve1 decimals0 decimals1;
    reserve_in_normalized ← normalize reserve_in decimals_in;
    reserve_out_normalized ← normalize reserve_out decimals_out;
    tripled ← safe_mul_u256 reserve_in 300;
    amount_in_estimate ← safe_div_u256 tripled 100;
    amount_in_normalized ← normalize amount_in_estimate decimals_in;
    x0 ← safe_add_u256 reserve_in_normalized amount_in_normalized;
    y_new ← _get_y x0 xy reserve_out_normalized;
    amount_out_normalized ← safe_sub_u256 reserve_out_normalized y_new;
    scaled ← safe_mul_u256 amount_out_normalized (scale decimals_out);
    amount_out ← safe_div_u256 scaled e18;
    Ok (u256_to_biguint amount_in_estimate, u256_to_biguint amount_out).
End SolidlyStable.

(** * Aerodrome v1 *)

Module AerodromeV1State.
Definition FEE_PRECISION_BPS : Z := 10000.
Definition AERODROME_V1_STABLE_FEE_BPS : Z := 5.
Definition AERODROME_V1_VOLATILE_FEE_BPS : Z := 30.
Definition AERODROME_V1_ZERO_FEE_INDICATOR_BPS : Z := 420.

Record t := mk {
  reserve0 : Z;
  reserve1 : Z;
  stable : bool;
  fee : Z;
  decimals0 : Z;
  decimals1 : Z
}.

Definition set_reserves (r0 r1 : Z) (self : t) : t := mk r0 r1 (stable self) (fee self) (decimals0 self) (decimals1 self).
Definition set_fee (f : Z) (self : t) : t :=
  mk (reserve0 self) (reserve1 self) (stable self) f (decimals0 self) (decimals1 self).

Definition default_fee_bps (self : t) : Z :=
  if stable self then AERODROME_V1_STABLE_FEE_BPS else AERODROME_V1_VOLATILE_FEE_BPS.

Definition resolved_fee_bps (self : t) : Z :=
  if fee self =? AERODROME_V1_ZERO_FEE_INDICATOR_BPS then 0
  else if negb (fee self =? 0) then fee self
  else default_fee_bps self.

Definition protocol_fee (self : t) : result SimulationError ProtocolFee.t :=
  let fee_bps := resolved_fee_bps self in
  if FEE_PRECISION_BPS <? fee_bps then Err (FatalError "Invalid resolved fee value")
  else Ok (ProtocolFee.new (FEE_PRECISION_BPS - fee_bps) FEE_PRECISION_BPS).

Definition volatile_get_amount_out (amount_in reserve_in reserve_out : Z) (self : t) : result SimulationError Z :=
  if amount_in =? 0 then Err (InvalidInput "Amount in cannot be zero" None)
  else if (reserve_in =? 0) || (reserve_out =? 0) then Err (RecoverableError "No liquidity")
  else
    fee_product ← safe_mul_u256 amount_in (resolved_fee_bps self);
    fee_amount ← safe_div_u256 fee_product FEE_PRECISION_BPS;
    amount_in_after_fee ← safe_sub_u256 amount_in fee_amount;
    numerator ← safe_mul_u256 amount_in_after_fee reserve_out;
    denominator ← safe_add_u256 reserve_in amount_in_after_fee;
    safe_div_u256 numerator denominator.

Definition reserves (zero2one : bool) (self : t) : Z * Z :=
  if zero2one then (reserve0 self, reserve1 self) else (reserve1 self, reserve0 self).

(** [token.decimals as u8] *)
Definition decimals_of (token : Token.t) : Z := wrap 8 (Token.decimals token).

Definition get_amount_out (amount_in : Z) (token_in token_out : Token.t) (self : t) :
    result SimulationError (GetAmountOutResult.t t) :=
  amount_in ← biguint_to_u256 amount_in;
  let zero2one := bytes_ltb (Token.address token_in) (Token.address token_out) in
  amount_out ←
    (if stable self then
       SolidlyStable.get_amount_out amount_in zero2one (reserve0 self) (reserve1 self) (resolved_fee_bps self)
         (if zero2one then decimals_of token_in else decimals_of token_out)
         (if zero2one then decimals_of token_out else decimals_of token_in)
     else
       let '(reserve_in, reserve_out) := reserves zero2one self in
       volatile_get_amount_out amount_in reserve_in reserve_out self);
  new_state ←
    (if zero2one then
       r0 ← safe_add_u256 (reserve0 self) amount_in;
       r1 ← safe_sub_u256 (reserve1 self) amount_out;
       Ok (set_reserves r0 r1 self)
     else
       r0 ← safe_sub_u256 (reserve0 self) amount_out;
       r1 ← safe_add_u256 (reserve1 self) amount_in;
       Ok (set_reserves r0 r1 self));
  Ok (GetAmountOutResult.mk (u256_to_biguint amount_out) 120000 new_state).

Definition get_limits (sell_token buy_token : Bytes) (self : t) : result SimulationError (Z * Z) :=
  if stable self
  then SolidlyStable.get_limits sell_token buy_token (reserve0 self) (reserve1 self) (decimals0 self) (decimals1 self)
  else cpmm_get_limits sell_token buy_token (reserve0 self) (reserve1 self) (resolved_fee_bps self).

(** An update of one attribute that is present. *)
Definition update_attribute (attributes : gmap string Bytes) (name : string)
    (read : Bytes → result TransitionError Z) (set : Z → t → t) : stm t TransitionError unit := fun self =>
  match attributes !! name with
  | None => (Ok tt, self)
  | Some b =>
      match read b with
      | Ok v => (Ok tt, set v self)
      | Err e => (Err e, self)
      | Panic => (Panic, self)
      end
  end.

(** The fee is checked after it is set. *)
Definition delta_transition (attributes : gmap string Bytes) : stm t TransitionError unit :=
  (update_attribute attributes "reserve0" u256_from_be_slice (fun r self => set_reserves r (reserve1 self) self) ;?
   update_attribute attributes "reserve1" u256_from_be_slice (fun r self => set_reserves (reserve0 self) r self) ;?
   update_attribute attributes "fee" (uint_from_bytes 4) set_fee ;?
   fun self =>
     match attributes !! "fee" with
     | Some _ =>
         if FEE_PRECISION_BPS <? resolved_fee_bps self
         then (Err (TransitionDecodeError "Invalid resolved fee value"), self) else (Ok tt, self)
     | None => (Ok tt, self)
     end)%tycho.

Definition query_pool_swap (token_in token_out : Token.t) (constraint : SwapConstraint) (self : t) :
    result SimulationError (PoolSwap.t t) :=
  let '(reserve_in, reserve_out) := reserves (bytes_ltb (Token.address token_in) (Token.address token_out)) self in
  query_target self "AerodromeV1State does not support TradeLimitPrice constraint in query_pool_swap" constraint
    (fun price => fee ← protocol_fee self; cpmm_swap_to_price reserve_in reserve_out price fee)
    (fun amount_in => get_amount_out amount_in token_in token_out self).
End AerodromeV1State.
