(* ===== verification/ForkPoolsSpec.v ===== *)
(** What the Ring Swap v2 and Aerodrome v1 pools guarantee.

    The input limit of a Ring Swap pool is the largest whose output the backing covers; a swap
    on the stable or the volatile curve of Aerodrome never lowers the invariant of the curve. *)

From Stdlib Require Import Strings.Byte.
From S2P Require Import Prelude Collections Bytes Models SafeMath SafeMathSpec Cpmm CpmmSpec ForkPools.

Open Scope Z_scope.

(** * Ring Swap v2 *)

Section ring.
Import RingSwapV2State.

Lemma ring_fee_ok : fee_ok protocol_fee.
Proof. unfold fee_ok, protocol_fee, FEE_NUMERATOR, FEE_PRECISION. simpl. lia. Qed.

(** The comparison in the comment of [max_input_for_backing]. *)
Lemma cpmm_out_le a rin rout out b :
  cpmm_get_amount_out a rin rout protocol_fee = Ok out -> 0 <= a -> 0 <= rin -> 0 <= rout -> 0 <= b ->
  out <= b <-> a * 9970 * (rout - b - 1) < (b + 1) * rin * 10000.
Proof.
  intros (Ha & Hi & Ho & ->)%cpmm_out_formula Ha0 Hi0 Ho0 Hb. unfold protocol_fee, FEE_NUMERATOR, FEE_PRECISION. simpl.
  set (q := rin * 10000 + a * 9970). assert (0 < q) by (unfold q; lia).
  assert (a * 9970 * rout / q <= b <-> a * 9970 * rout < (b + 1) * q) as ->; [|unfold q; split; intros; nia].
  split; intros Hq.
  - pose proof (Z.div_mod (a * 9970 * rout) q ltac:(lia)). pose proof (Z.mod_pos_bound (a * 9970 * rout) q ltac:(lia)). nia.
  - assert (a * 9970 * rout / q < b + 1); [|lia]. apply Z.div_lt_upper_bound; lia.
Qed.

Lemma max_input_exact rin rout b m a out :
  max_input_for_backing rin rout b = Ok m -> cpmm_get_amount_out a rin rout protocol_fee = Ok out ->
  0 <= a < 2 ^ 256 -> 0 <= rin -> 0 <= rout -> 0 <= b -> (out <= b <-> a <= m).
Proof.
  intros Hm Hout Ha Hi Ho Hb. rewrite (cpmm_out_le a rin rout out b) by (done || lia).
  apply cpmm_out_formula in Hout as (Hane & Hine & Hone & _).
  unfold max_input_for_backing in Hm. destruct (Z.leb_spec rout b).
  { inv_ok. nia. }
  inv_ok. inv_safe. subst. destruct (Z.eqb_spec (b + 1) rout).
  { inv_ok. nia. }
  inv_ok. inv_safe. unfold FEE_PRECISION, FEE_NUMERATOR in *. subst.
  set (num := (b + 1) * rin * 10000) in *. set (q := 9970 * (rout - (b + 1))) in *.
  assert (0 < q) by (unfold q; lia).
  replace (a * 9970 * (rout - b - 1)) with (a * q) by (unfold q; lia).
  pose proof (Z.div_mod (num - 1) q ltac:(lia)). pose proof (Z.mod_pos_bound (num - 1) q ltac:(lia)). nia.
Qed.

(** A pool with amounts in range. *)
Definition ring_ok (self : t) : Prop :=
  0 <= reserve0 self < 2 ^ 256 /\ 0 <= reserve1 self < 2 ^ 256 /\
  0 <= backing0 self < 2 ^ 256 /\ 0 <= backing1 self < 2 ^ 256.

Lemma ring_ok_reserves z self :
  ring_ok self -> 0 <= (reserves z self).1 < 2 ^ 256 /\ 0 <= (reserves z self).2 < 2 ^ 256 /\
  0 <= output_backing z self < 2 ^ 256.
Proof. unfold ring_ok, reserves, output_backing. destruct z; simpl; tauto. Qed.

(** The limits: the output of the input limit, which the backing covers. *)
Lemma capped_limits_inv s b self i o :
  capped_limits s b self = Ok (i, o) -> ring_ok self -> 0 <= i -> i <> 0 ->
  let z := bytes_ltb s b in
  i < 2 ^ 256 /\ cpmm_get_amount_out i (reserves z self).1 (reserves z self).2 protocol_fee = Ok o /\
  o <= output_backing z self /\ output_backing z self <> 0.
Proof.
  intros Hl Hok Hi Hne z. pose proof (ring_ok_reserves z self Hok) as (Hr1 & Hr2 & Hb).
  unfold capped_limits in Hl. fold z in Hl. inv_ok. destruct x as [soft ?].
  destruct (reserves z self) as [rin rout]. simpl in *. inv_ok.
  apply biguint_ok in E0 as [<- Hsoft].
  destruct (Z.eqb_spec (output_backing z self) 0); [inv_ok; simplify_eq; lia|].
  destruct (Z.leb_spec x0 (output_backing z self)).
  { injection Hl as <- <-. done. }
  inv_ok. destruct (Z.eqb_spec (Z.min x soft) 0); [inv_ok; simplify_eq; lia|].
  inv_ok. simplify_eq. unfold u256_to_biguint in *. split_and!; [lia|done| |done].
  apply (max_input_exact rin rout (output_backing z self) x (Z.min x soft)); try done; lia.
Qed.

Lemma ring_get_amount_out_inv a tin tout self res :
  get_amount_out a tin tout self = Ok res ->
  let z := zero_to_one tin tout in
  let new := GetAmountOutResult.new_state res in
  let out := GetAmountOutResult.amount res in
  cpmm_get_amount_out a (reserves z self).1 (reserves z self).2 protocol_fee = Ok out /\
  out <= output_backing z self /\
  reserves z new = ((reserves z self).1 + a, (reserves z self).2 - out) /\
  output_backing z new = output_backing z self - out /\
  output_backing (negb z) new = output_backing (negb z) self + a /\ (0 <= a -> ring_ok new).
Proof.
  intros Hg z new out. unfold get_amount_out in Hg. fold z in Hg. inv_ok.
  apply biguint_ok in E as [<- Hlt]. destruct (reserves z self) as [rin rout] eqn:Er. simpl in *. inv_ok.
  destruct ((output_backing z self =? 0) || (output_backing z self <? x)) eqn:Eb; [done|].
  apply orb_false_iff in Eb as [_ Eb%Z.ltb_ge]. inv_ok. unfold out, new, reserves, output_backing, ring_ok, in_range in *.
  destruct z; simpl in *; inv_ok; inv_safe; subst; simpl in *; unfold in_range, u256_to_biguint in *; simplify_eq;
    split_and!; try done; intros; lia.
Qed.
End ring.

(** * The stable curve *)

Section stable.
Import SolidlyStable.

(** The invariant of the curve, [x y (x² + y²)], with the roundings of the code. *)
Definition curve (x y : Z) : Z := (x * y / e18) * (x * x / e18 + y * y / e18) / e18.

Lemma e18_pos : 0 < e18.
Proof. unfold e18. lia. Qed.

Lemma mul_e18_ok a b r : mul_e18 a b = Ok r -> r = a * b / e18.
Proof. unfold mul_e18. intros H. inv_ok. inv_safe. by subst. Qed.

Lemma f_curve x y k : _f x y = Ok k -> k = curve x y.
Proof.
  unfold _f. intros H. inv_ok. inv_safe.
  repeat match goal with H : mul_e18 _ _ = Ok _ |- _ => apply mul_e18_ok in H end. by subst.
Qed.

Lemma div_mono a b : a <= b -> a / e18 <= b / e18.
Proof. apply Z.div_le_mono, e18_pos. Qed.

Lemma curve_mono x x' y y' : 0 <= x <= x' -> 0 <= y <= y' -> curve x y <= curve x' y'.
Proof.
  intros Hx Hy. unfold curve. apply div_mono.
  assert (0 <= x * y / e18) by (apply Z.div_pos; [nia|apply e18_pos]).
  assert (0 <= x * x / e18) by (apply Z.div_pos; [nia|apply e18_pos]).
  assert (0 <= y * y / e18) by (apply Z.div_pos; [nia|apply e18_pos]).
  apply Z.mul_le_mono_nonneg; [done|apply div_mono; nia|lia|].
  apply Z.add_le_mono; apply div_mono; nia.
Qed.

(** The least [y] on the curve, up to its steps. *)
Definition on_curve (x0 xy y : Z) : Prop :=
  0 <= y /\ xy <= curve x0 y /\ (curve x0 y = xy \/ curve x0 (y - 1) < xy).

Lemma get_y_turn_spec x0 xy y r :
  get_y_turn x0 xy y = Ok r -> 0 <= y ->
  match r with inl y' => 0 <= y' | inr y' => on_curve x0 xy y' end.
Proof.
  unfold get_y_turn, on_curve. intros Hr Hy. inv_ok. destruct (Z.eqb_spec x1 0); [done|].
  apply f_curve in E. destruct (Z.ltb_spec x xy).
  - inv_ok. destruct (Z.eqb_spec x4 0); [|inv_ok; inv_safe; unfold in_range in *; lia].
    destruct (Z.eqb_spec x xy); [lia|]. inv_ok. inv_safe. subst x5.
    apply f_curve in E5. destruct (Z.ltb_spec xy x6); inv_ok; inv_safe; unfold in_range in *; [|lia].
    replace (y + 1 - 1) with y by lia. split_and!; [lia|lia|right; lia].
  - inv_ok. destruct (Z.eqb_spec x4 0); [|inv_ok; inv_safe; unfold in_range in *; lia].
    destruct (Z.eqb_spec x xy); [inv_ok; split_and!; [done|lia|left; lia]|]. inv_ok. inv_safe. subst x5.
    apply f_curve in E5. destruct (Z.ltb_spec x6 xy); inv_ok; inv_safe; unfold in_range in *; [|lia].
    split_and!; [lia|lia|right; lia].
Qed.

Lemma get_y_spec x0 xy y r : _get_y x0 xy y = Ok r -> 0 <= y -> on_curve x0 xy r.
Proof.
  unfold _get_y. generalize 255%nat as n. intros n. revert y; induction n as [|n IH]; intros y; [done|].
  cbn [get_y_loop]. intros Hr Hy. inv_ok. apply get_y_turn_spec in E; [|done].
  destruct x as [y'|y']; [by apply (IH y')|]. by injection Hr as ->.
Qed.

(** An amount at 18 decimals. *)
Definition normalized (amount decimals : Z) : Z := amount * e18 / scale decimals.

Lemma normalize_ok a d r : normalize a d = Ok r -> r = normalized a d /\ 0 < scale d.
Proof.
  unfold normalize, normalized. intros H. inv_ok. inv_safe. subst. split; [done|].
  assert (0 <= scale d); [|lia]. unfold scale, wrap. apply Z.mod_pos_bound. lia.
Qed.

Lemma k_curve x y d0 d1 k : _k x y d0 d1 = Ok k -> k = curve (normalized x d0) (normalized y d1).
Proof.
  unfold _k. intros H. inv_ok. inv_safe.
  repeat match goal with
  | H : normalize _ _ = Ok _ |- _ => apply normalize_ok in H as [? _]
  | H : mul_e18 _ _ = Ok _ |- _ => apply mul_e18_ok in H end. by subst.
Qed.

(** Adding amounts before rounding loses nothing. *)
Lemma normalized_add a b c d : 0 < scale d -> a <= c -> normalized a d + normalized b d <= normalized (b + c) d.
Proof.
  intros Hs Hac. unfold normalized. apply Z.div_le_lower_bound; [done|].
  pose proof (Z.mul_div_le (a * e18) (scale d) Hs). pose proof (Z.mul_div_le (b * e18) (scale d) Hs).
  pose proof e18_pos. nia.
Qed.

(** Paying out the rounded difference leaves at least the new reserve. *)
Lemma normalized_sub r y d out :
  0 < scale d -> out = (normalized r d - y) * scale d / e18 -> y <= normalized (r - out) d.
Proof.
  intros Hs ->. unfold normalized at 1. apply Z.div_le_lower_bound; [done|].
  pose proof (Z.mul_div_le ((normalized r d - y) * scale d) e18 e18_pos).
  pose proof (Z.mul_div_le (r * e18) (scale d) Hs). fold (normalized r d) in *. nia.
Qed.

Lemma stable_out_inv a z r0 r1 f d0 d1 out :
  get_amount_out a z r0 r1 f d0 d1 = Ok out -> 0 <= a -> 0 <= f -> 0 <= r0 -> 0 <= r1 ->
  let n0 := normalized (if z then r0 + a else r0 - out) d0 in
  let n1 := normalized (if z then r1 - out else r1 + a) d1 in
  curve (normalized r0 d0) (normalized r1 d1) <= curve n0 n1.
Proof.
  unfold get_amount_out. intros Hg Ha Hf H0 H1. destruct (a =? 0); [done|].
  destruct ((r0 =? 0) || (r1 =? 0)); [done|]. inv_ok.
  apply k_curve in E as ->. apply normalize_ok in E0 as [-> Hs0]. apply normalize_ok in E1 as [-> Hs1].
  assert (forall r d, 0 <= r -> 0 < scale d -> 0 <= normalized r d) as Hpos
    by (intros r d Hr Hs; apply Z.div_pos; [pose proof e18_pos; nia|done]).
  assert (forall x y, curve x y = curve y x) as Hsym
    by (intros x y; unfold curve; by rewrite (Z.mul_comm x y), Z.add_comm).
  destruct z; simpl in *; inv_ok; inv_safe; subst;
    match goal with H : normalize _ _ = Ok _ |- _ => apply normalize_ok in H as [-> _] end;
    match goal with H : _get_y _ _ _ = Ok _ |- _ => apply get_y_spec in H as (Hy & Hc & _); [|by apply Hpos] end.
  - etrans; [exact Hc|]. apply curve_mono.
    + split; [unfold in_range in *; lia|]. apply normalized_add; [done|].
      assert (0 <= a * f / 10000) by (apply Z.div_pos; nia). lia.
    + split; [done|]. by apply normalized_sub.
  - etrans; [exact Hc|]. rewrite Hsym. apply curve_mono.
    + split; [done|]. by apply normalized_sub.
    + split; [unfold in_range in *; lia|]. apply normalized_add; [done|].
      assert (0 <= a * f / 10000) by (apply Z.div_pos; nia). lia.
Qed.
End stable.

(** * Aerodrome v1 *)

Section aerodrome.
Import AerodromeV1State.

Definition aerodrome_ok (self : t) : Prop := 0 <= reserve0 self /\ 0 <= reserve1 self /\ 0 <= fee self.

(** The invariant of the pool, for two tokens in the order of their addresses. *)
Definition invariant (d0 d1 : Z) (self : t) : Z :=
  if stable self then curve (normalized (reserve0 self) d0) (normalized (reserve1 self) d1)
  else reserve0 self * reserve1 self.

Lemma resolved_fee_nonneg self : aerodrome_ok self -> 0 <= resolved_fee_bps self.
Proof.
  unfold aerodrome_ok, resolved_fee_bps, default_fee_bps, AERODROME_V1_STABLE_FEE_BPS, AERODROME_V1_VOLATILE_FEE_BPS.
  intros H. repeat case_match; lia.
Qed.

Lemma volatile_product a rin rout self out :
  volatile_get_amount_out a rin rout self = Ok out -> aerodrome_ok self -> 0 <= a -> 0 <= rin -> 0 <= rout ->
  rin * rout <= (rin + a) * (rout - out).
Proof.
  unfold volatile_get_amount_out. intros Hg Hok Ha Hi Ho. destruct (Z.eqb_spec a 0); [done|].
  destruct (Z.eqb_spec rin 0), (Z.eqb_spec rout 0); try done; cbn [orb] in Hg. inv_ok. inv_safe. subst.
  pose proof (resolved_fee_nonneg self Hok). unfold FEE_PRECISION_BPS, in_range in *.
  assert (0 <= a * resolved_fee_bps self / 10000) by (apply Z.div_pos; nia).
  set (a' := a - a * resolved_fee_bps self / 10000) in *. assert (0 <= a' <= a) by (unfold a'; lia). clearbody a'.
  pose proof (Z.mul_div_le (a' * rout) (rin + a') ltac:(lia)) as Hq.
  assert (a' * rout / (rin + a') <= rout) as Hr by (apply Z.div_le_upper_bound; [lia|nia]).
  generalize dependent (a' * rout / (rin + a')). intros q **.
  assert ((rin + a') * (rout - q) <= (rin + a) * (rout - q)) by (apply Z.mul_le_mono_nonneg_r; lia). lia.
Qed.

(** C35. A swap on an Aerodrome v1 pool adds the input to one reserve and takes the output from the
    other, and never lowers the invariant of its curve: the product of the reserves of a volatile
    pool, and [x y (x² + y²)] at 18 decimals, with the roundings of the code, of a stable one. *)
Theorem aerodrome_swap_keeps_invariant a tin tout self res :
  get_amount_out a tin tout self = Ok res -> aerodrome_ok self -> 0 <= a ->
  let z := bytes_ltb (Token.address tin) (Token.address tout) in
  let d0 := if z then decimals_of tin else decimals_of tout in
  let d1 := if z then decimals_of tout else decimals_of tin in
  let new := GetAmountOutResult.new_state res in
  invariant d0 d1 self <= invariant d0 d1 new /\ aerodrome_ok new /\
  reserves z new = ((reserves z self).1 + a, (reserves z self).2 - GetAmountOutResult.amount res).
Proof.
  intros Hg Hok Ha z d0 d1 new. unfold get_amount_out in Hg. fold z d0 d1 in Hg. inv_ok.
  apply biguint_ok in E as [<- Hlt].
  assert (new = set_reserves (if z then reserve0 self + a else reserve0 self - x0)
                 (if z then reserve1 self - x0 else reserve1 self + a) self /\
          0 <= (if z then reserve0 self + a else reserve0 self - x0) /\
          0 <= (if z then reserve1 self - x0 else reserve1 self + a)) as (-> & Hn0 & Hn1).
  { unfold new. destruct z; simpl in *; inv_ok; inv_safe; unfold in_range in *; subst; simpl; split_and!; try done; lia. }
  pose proof (resolved_fee_nonneg self Hok) as Hf. destruct Hok as (H0 & H1 & H2).
  split_and!; [|by unfold aerodrome_ok; simpl|by destruct z].
  unfold invariant. simpl. destruct (stable self).
  - by apply (stable_out_inv a z _ _ (resolved_fee_bps self)).
  - unfold reserves in E0. destruct z; simpl in *; apply volatile_product in E0; try done; nia.
Qed.
End aerodrome.

(** * The limits of a Ring Swap pool *)

(** No amount up to the input limit of a Ring Swap pool is refused for its backing: the limit
    comes with its output, which the backing covers, and so does every smaller amount.  A swap that
    succeeds pays at most the backing, moves reserves and backings by the amounts, and never lowers
    the product of the reserves. *)
Theorem ring_limits_executable tin tout (self : RingSwapV2State.t) i o :
  RingSwapV2State.get_limits (Token.address tin) (Token.address tout) self = Ok (i, o) ->
  ring_ok self -> 0 < i ->
  let z := RingSwapV2State.zero_to_one tin tout in
  cpmm_get_amount_out i (RingSwapV2State.reserves z self).1 (RingSwapV2State.reserves z self).2
    RingSwapV2State.protocol_fee = Ok o /\
  o <= RingSwapV2State.output_backing z self /\
  forall a, 0 < a <= i ->
    RingSwapV2State.get_amount_out a tin tout self <>
      Err (InvalidInput "RingSwapV2 output exceeds FewToken underlying backing" None) /\
    forall res, RingSwapV2State.get_amount_out a tin tout self = Ok res ->
      GetAmountOutResult.amount res <= o /\
      (RingSwapV2State.reserves z self).1 * (RingSwapV2State.reserves z self).2 <=
      (RingSwapV2State.reserves z (GetAmountOutResult.new_state res)).1 *
      (RingSwapV2State.reserves z (GetAmountOutResult.new_state res)).2 /\
      RingSwapV2State.output_backing z (GetAmountOutResult.new_state res) =
        RingSwapV2State.output_backing z self - GetAmountOutResult.amount res /\
      ring_ok (GetAmountOutResult.new_state res).
Proof.
  intros Hl Hok Hi z. destruct (capped_limits_inv _ _ _ _ _ Hl Hok ltac:(lia) ltac:(lia)) as (Hlt & Ho & Hb & Hne).
  change (bytes_ltb (Token.address tin) (Token.address tout)) with z in Ho, Hb, Hne. pose proof (ring_ok_reserves z self Hok) as (Hr1 & Hr2 & _).
  split_and!; [done|done|]. intros a Ha. split.
  - unfold RingSwapV2State.get_amount_out. fold z. unfold biguint_to_u256.
    replace (a <? 2 ^ 256) with true by lia. cbn [mbind result_bind].
    destruct (RingSwapV2State.reserves z self) as [rin rout]. simpl in *.
    destruct (cpmm_get_amount_out a rin rout _) as [out|e|] eqn:Ea; simpl; [| |done].
    + assert (out <= o) by (eapply cpmm_out_monotone; [exact Ea|exact Ho|lia..|apply ring_fee_ok]).
      rewrite (proj2 (Z.eqb_neq _ _) Hne), (proj2 (Z.ltb_ge _ _)) by lia. simpl.
      unfold safe_add_u256, safe_sub_u256, _construc_result_u256, ok_or.
      destruct z; repeat (case_match; simpl); done.
    + unfold cpmm_get_amount_out, safe_mul_u256, safe_add_u256, safe_div_u256, _construc_result_u256, ok_or in Ea.
      repeat (case_match; simpl in Ea); by simplify_eq.
  - intros res (Hc & Hle & Hres & Hback & _ & Hok')%ring_get_amount_out_inv. fold z in Hc, Hle, Hres, Hback.
    split_and!; [|rewrite Hres; simpl|done|apply Hok'; lia].
    + eapply cpmm_out_monotone; [exact Hc|exact Ho|lia..|apply ring_fee_ok].
    + eapply cpmm_product; [exact Hc|lia..|apply ring_fee_ok].
Qed.

(** * Examples *)

Module ForkExamples.
Definition token_at (b : byte) : Token.t := Token.mk [b] "T" 18 0 [] Ethereum 100.
Definition ring : RingSwapV2State.t := RingSwapV2State.mk "ring" 1000000 1000000 500000 400000 [x01] [x02].
Definition aero : AerodromeV1State.t :=
  AerodromeV1State.mk 2642455102346776307825 3320301880379841502303 true 5 18 18.
End ForkExamples.

Import ForkExamples.

(** The quote of the test of the source. *)
Lemma stable_quote :
  SolidlyStable.get_amount_out 2000000000000000000 true 2642455102346776307825 3320301880379841502303 5 18 18 =
  Ok 2004830151166915124.
Proof. vm_compute. reflexivity. Qed.

Lemma ring_limits_executable_witness :
  RingSwapV2State.get_limits [x01] [x02] ring = Ok (668675, 400000) /\
  RingSwapV2State.get_amount_out 668675 (token_at x01) (token_at x02) ring <>
    Err (InvalidInput "RingSwapV2 output exceeds FewToken underlying backing" None).
Proof.
  split; [vm_compute; reflexivity|].
  apply (ring_limits_executable (token_at x01) (token_at x02) ring 668675 400000);
    [vm_compute; reflexivity|unfold ring_ok; simpl; lia|lia|lia].
Defined.

Definition aero_swapped : GetAmountOutResult.t AerodromeV1State.t :=
  GetAmountOutResult.mk 2004830151166915124 120000
    (AerodromeV1State.mk 2644455102346776307825 3318297050228674587179 true 5 18 18).

Lemma aerodrome_swap_keeps_invariant_witness :
  AerodromeV1State.get_amount_out 2000000000000000000 (token_at x01) (token_at x02) aero = Ok aero_swapped /\
  invariant (AerodromeV1State.decimals_of (token_at x01)) (AerodromeV1State.decimals_of (token_at x02)) aero <=
  invariant (AerodromeV1State.decimals_of (token_at x01)) (AerodromeV1State.decimals_of (token_at x02))
    (GetAmountOutResult.new_state aero_swapped).
Proof.
  split; [vm_compute; reflexivity|].
  refine (proj1 (aerodrome_swap_keeps_invariant 2000000000000000000 (token_at x01) (token_at x02) aero aero_swapped _ _ _));
    [vm_compute; reflexivity|unfold aerodrome_ok; simpl; lia|lia].
Defined.

(** The input towards a target price is computed with the constant product on the stable curve
    too: from reserves of one million tokens each, the query for a price of 10/11 sells some
    48,809 tokens, after which one more token still buys more than 0.9997. *)
Definition balanced : AerodromeV1State.t :=
  AerodromeV1State.mk (10 ^ 24) (10 ^ 24) true AerodromeV1State.AERODROME_V1_ZERO_FEE_INDICATOR_BPS 18 18.

Lemma stable_target_missed :
  match AerodromeV1State.query_pool_swap (token_at x01) (token_at x02) (PoolTargetPrice (Price.mk 10 11)) balanced with
  | Ok ps =>
      PoolSwap.amount_in ps = 48808848170151546991453 /\
      GetAmountOutResult.amount <$>
        AerodromeV1State.get_amount_out (10 ^ 18) (token_at x01) (token_at x02) (PoolSwap.new_state ps) =
      Ok 999767486160916503
  | _ => False
  end.
Proof. vm_compute. done. Qed.
