(* ===== verification/UniswapV4.v ===== *)
(** The Uniswap v4 pool of [tycho-simulation]: [uniswap_v4/state.rs] with the types its hooks
    exchange with it ([uniswap_v4/hooks/{models,utils,hook_handler}.rs]) and the liquidity fees
    of [utils/uniswap/lp_fee.rs].

    What a hook does comes from its contract: the trait [HookHandler] is a class, and every
    operation of the pool takes an instance.  The right shift of [I256] is an operation of the
    integer library and an argument too, [i256_shr].  Float prices are not modelled. *)

From Stdlib Require Import Strings.Byte.
From S2P Require Import Prelude Collections Bytes Models SafeMath Cpmm TickMath TickList SwapMath Clmm ClmmPools.

Open Scope Z_scope.

(** * utils/uniswap/lp_fee.rs *)

Module LpFee.
Definition MAX_LP_FEE : Z := 1000000.
Definition DYNAMIC_FEE_FLAG : Z := 0x800000.
Definition REMOVE_OVERRIDE_MASK : Z := 0xBFFFFF.

Definition remove_override_flag (fee : Z) : Z := Z.land fee REMOVE_OVERRIDE_MASK.
Definition is_dynamic (fee : Z) : bool := fee =? DYNAMIC_FEE_FLAG.
Definition is_valid (fee : Z) : bool := fee <=? MAX_LP_FEE.
End LpFee.

(** * Hooks *)

Inductive HookOptions :=
| AfterRemoveLiquidityReturnsDelta | AfterAddLiquidityReturnsDelta | AfterSwapReturnsDelta | BeforeSwapReturnsDelta
| AfterDonate | BeforeDonate | AfterSwap | BeforeSwap | AfterRemoveLiquidity | BeforeRemoveLiquidity
| AfterAddLiquidity | BeforeAddLiquidity | AfterInitialize | BeforeInitialize.

(** [hook_option as u64]. *)
Definition hook_flag_index (option : HookOptions) : Z :=
  match option with
  | AfterRemoveLiquidityReturnsDelta => 0 | AfterAddLiquidityReturnsDelta => 1 | AfterSwapReturnsDelta => 2
  | BeforeSwapReturnsDelta => 3 | AfterDonate => 4 | BeforeDonate => 5 | AfterSwap => 6 | BeforeSwap => 7
  | AfterRemoveLiquidity => 8 | BeforeRemoveLiquidity => 9 | AfterAddLiquidity => 10 | BeforeAddLiquidity => 11
  | AfterInitialize => 12 | BeforeInitialize => 13
  end.

(** The flags are in the last two of the 20 bytes of an address. *)
Definition has_permission (address : Bytes) (hook_option : HookOptions) : bool :=
  let byte i := b2z (nth i address x00) in
  let mask := Z.lor (Z.shiftl (byte 18%nat) 8) (byte 19%nat) in
  negb (Z.land mask (Z.shiftl 1 (hook_flag_index hook_option)) =? 0).

Module UniswapV4Fees.
Record t := mk { zero_for_one : Z; one_for_zero : Z; lp_fee : Z }.
#[global] Instance eq_dec : EqDecision t.
Proof. solve_decision. Defined.

Definition calculate_swap_fees_pips (dir_zero_for_one : bool) (lp_fee_override : option Z) (self : t) : Z :=
  let protocol_fee := if dir_zero_for_one then zero_for_one self else one_for_zero self in
  let lp_fee :=
    match lp_fee_override with
    | Some fee => fee
    | None => if LpFee.is_dynamic (lp_fee self) then 0 else lp_fee self
    end in
  wrap 32 (wrap 32 (protocol_fee + lp_fee) - wrap 32 (protocol_fee * lp_fee / 1000000)).
End UniswapV4Fees.

Module StateContext.
Record t := mk { currency_0 : Bytes; currency_1 : Bytes; fees : UniswapV4Fees.t; tick_spacing : Z }.
End StateContext.

Module SwapParams.
Record t := mk { zero_for_one : bool; amount_specified : Z; sqrt_price_limit : Z }.
End SwapParams.

Module BeforeSwapParameters.
Record t := mk { context : StateContext.t; sender : Bytes; swap_params : SwapParams.t; hook_data : Bytes }.
End BeforeSwapParameters.

Definition Overwrites : Type := gmap Bytes (gmap Z Z).

Module BeforeSwapOutput.
Record t := mk { amount_delta : Z; fee : Z; overwrites : Overwrites; transient_storage : Overwrites }.
End BeforeSwapOutput.

Module AfterSwapParameters.
Record t := mk { context : StateContext.t; sender : Bytes; swap_params : SwapParams.t; delta : Z; hook_data : Bytes }.
End AfterSwapParameters.

Module WithGasEstimate.
Record t (A : Type) := mk { gas_estimate : Z; result : A }.
Arguments mk {A}. Arguments gas_estimate {A}. Arguments result {A}.
End WithGasEstimate.

Module AmountRanges.
Record t := mk { amount_in_range : Z * Z; amount_out_range : Z * Z }.
End AmountRanges.

Module Balances.
Record t := mk { component_balances : gmap string (gmap Bytes Bytes); account_balances : gmap Bytes (gmap Bytes Bytes) }.
End Balances.

Module ProtocolStateDelta.
Record t := mk { component_id : string; updated_attributes : gmap string Bytes; deleted_attributes : gset string }.
End ProtocolStateDelta.

(** The operations of [dyn HookHandler] that the pool calls; prices are left out. *)
Module HookHandler.
Class t (H : Type) := {
  address : H → Bytes;
  before_swap : H → BeforeSwapParameters.t → option Overwrites → option Overwrites →
    result SimulationError (WithGasEstimate.t BeforeSwapOutput.t);
  after_swap : H → AfterSwapParameters.t → option Overwrites → option Overwrites →
    result SimulationError (WithGasEstimate.t Z);
  get_amount_ranges : H → Bytes → Bytes → result SimulationError AmountRanges.t;
  delta_transition : ProtocolStateDelta.t → gmap Bytes Token.t → Balances.t → stm H TransitionError unit
}.
End HookHandler.

(** * Packed pairs of [I128] *)

Section packed.
Context (i256_shr : Z → Z → Z).

Definition i256_shl (v n : Z) : Z := swrap 256 (Z.shiftl v n).

(** The last 16 of the 32 bytes of the number. *)
Definition get_lower_i128 (value : Z) : Z := swrap 128 value.
Definition get_upper_i128 (value : Z) : Z := get_lower_i128 (i256_shr value 128).

Definition get_specified_delta : Z → Z := get_upper_i128.
Definition get_unspecified_delta : Z → Z := get_lower_i128.

Definition BalanceDelta_new (amount0 amount1 : Z) : Z :=
  let specified_shifted := i256_shl amount0 128 in
  let unspecified_masked := Z.land amount1 (2 ^ 128 - 1) in
  Z.lor specified_shifted unspecified_masked.

Definition from_swap_result (amount_calculated : Z) (zero_for_one : bool) : Z :=
  let received := get_lower_i128 (swrap 256 (- amount_calculated)) in
  if zero_for_one then BalanceDelta_new 0 received else BalanceDelta_new received 0.

Definition amount0 : Z → Z := get_upper_i128.
Definition amount1 : Z → Z := get_lower_i128.

(** [impl Sub for BalanceDelta]. *)
Definition BalanceDelta_sub (a b : Z) : Z :=
  let a0 := i256_shr a 128 in
  let b0 := i256_shr b 128 in
  let res0 := swrap 256 (a0 - b0) in
  let res1 := swrap 256 (a - b) in
  swrap 256 (i256_shl res0 128 + i256_shr (i256_shl res1 128) 128).
End packed.

(** * The pool *)

(** [msg.contains(..)]. *)
Definition str_contains (msg part : string) : bool :=
  match String.index 0 part msg with Some _ => true | None => false end.

(** [Address::from_slice] *)
Definition address_from_slice {E} (b : Bytes) : result E Bytes := if decide (length b = 20%nat) then Ok b else Panic.

Definition EXTERNAL_ACCOUNT : Bytes := to_be 20 0xf847a638E44186F3287ee9F8cAF73FF4d4B80784.

Module UniswapV4State.
Definition SWAP_BASE_GAS : Z := 185000.
Definition GAS_PER_BITMAP_LOOKUP : Z := 3500.
Definition GAS_PER_TICK : Z := 29000.
Definition V4_CALLBACK_SETTLEMENT_GAS : Z := 30000.
Definition PM_PER_HOOK_CALL_OVERHEAD : Z := 25000.
Definition MAX_SWAP_GAS : Z := 16700000.
Definition MAX_TICKS_CROSSED : Z := (MAX_SWAP_GAS - SWAP_BASE_GAS) / GAS_PER_TICK.

(** The gas the loop accounts, at the places the schedule of the other pools names. *)
Definition GAS : GasSchedule.t :=
  GasSchedule.mk SWAP_BASE_GAS GAS_PER_BITMAP_LOOKUP 0 GAS_PER_TICK 0 0 V4_CALLBACK_SETTLEMENT_GAS.

Record t (H : Type) := mk {
  liquidity : Z;
  sqrt_price : Z;
  fees : UniswapV4Fees.t;
  tick : Z;
  ticks : TickList.t;
  tick_spacing : Z;
  hook : option H
}.
Arguments mk {H}. Arguments liquidity {H}. Arguments sqrt_price {H}. Arguments fees {H}. Arguments tick {H}.
Arguments ticks {H}. Arguments tick_spacing {H}. Arguments hook {H}.

(** ** The swap loop *)

Section loop.
Context (tick_list : TickList.t) (fee_pips : Z) (zero_for_one exact_input : bool) (price_limit : Z).

(** [amount_remaining] and [amount_calculated] after a step; the amount that remains of an exact
    input is negative. *)
Definition account_step (state : SwapState.t) (amount_in amount_out fee_amount : Z) : result SimulationError (Z * Z) :=
  if exact_input then
    total ← safe_add_u256 amount_in fee_amount;
    spent ← i256_unwrap total;
    received ← i256_unwrap amount_out;
    Ok (swrap 256 (SwapState.amount_remaining state + spent), swrap 256 (SwapState.amount_calculated state - received))
  else
    received ← i256_unwrap amount_out;
    total ← safe_add_u256 amount_in fee_amount;
    spent ← i256_unwrap total;
    Ok (swrap 256 (SwapState.amount_remaining state - received), swrap 256 (SwapState.amount_calculated state + spent)).

Definition swap_turn (s : SwapState.t * Z) : result SimulationError (SwapState.t * Z) :=
  let '(state, gas_used) := s in
  '(next_tick, initialized, gas_used) ← find_next_tick tick_list GAS zero_for_one state gas_used;
  let next_tick := clamp next_tick MIN_TICK MAX_TICK in
  sqrt_price_next ← get_sqrt_ratio_at_tick next_tick;
  let sqrt_price_start := SwapState.sqrt_price state in
  '(sqrt_price, amount_in, amount_out, fee_amount) ←
    compute_swap_step sqrt_price_start (get_sqrt_ratio_target sqrt_price_next price_limit zero_for_one)
      (SwapState.liquidity state) (swrap 256 (- SwapState.amount_remaining state)) fee_pips;
  '(amount_remaining, amount_calculated) ← account_step state amount_in amount_out fee_amount;
  '(liquidity, tick, gas_used) ←
    (if sqrt_price =? sqrt_price_next then
       '(liquidity, gas_used) ←
         (if (initialized : bool) then
            liquidity ← cross_tick tick_list zero_for_one next_tick (SwapState.liquidity state);
            gas_used ← safe_add_u256 gas_used GAS_PER_TICK;
            Ok (liquidity, gas_used)
          else Ok (SwapState.liquidity state, gas_used));
       Ok (liquidity, if zero_for_one then swrap 32 (next_tick - 1) else next_tick, gas_used)
     else if negb (sqrt_price =? sqrt_price_start) then
       tick ← get_tick_at_sqrt_ratio sqrt_price;
       Ok (SwapState.liquidity state, tick, gas_used)
     else Ok (SwapState.liquidity state, SwapState.tick state, gas_used));
  Ok (SwapState.mk amount_remaining amount_calculated sqrt_price tick liquidity, gas_used).

Definition swap_step (s : SwapState.t * Z) : SwapState.t * Z + result SimulationError (SwapState.t * Z) :=
  if negb (SwapState.amount_remaining s.1 =? 0) && negb (SwapState.sqrt_price s.1 =? price_limit) then
    match swap_turn s with
    | Ok s' => inl s'
    | Err e => inr (Err e)
    | Panic => inr Panic
    end
  else inr (Ok s).
End loop.

Section pool.
Context {H : Type} `{HookHandler.t H} (i256_shr : Z → Z → Z).
Implicit Types self : t H.

Definition new (liquidity sqrt_price : Z) (fees : UniswapV4Fees.t) (tick tick_spacing : Z) (ticks : list TickInfo.t) :
    result SimulationError (t H) :=
  tick_spacing_u16 ← ok_or (checked 16 tick_spacing) (FatalError "tick_spacing must be positive");
  tick_list ← TickList.from tick_spacing_u16 ticks;
  Ok (mk liquidity sqrt_price fees tick tick_list tick_spacing None).

(** [None] is an exhausted budget. *)
Definition swap (zero_for_one : bool) (amount_specified : Z) (sqrt_price_limit lp_fee_override : option Z) self :
    option (result SimulationError SwapResults.t) :=
  if amount_specified =? 0 then
    Some (Ok (SwapResults.mk 0 0 0 (sqrt_price self) (liquidity self) (tick self) 3000))
  else
    match swap_price_limit (liquidity self =? 0) (sqrt_price self) zero_for_one sqrt_price_limit with
    | Err e => Some (Err e)
    | Panic => Some Panic
    | Ok price_limit =>
        let exact_input := amount_specified <? 0 in
        let fee_pips := UniswapV4Fees.calculate_swap_fees_pips zero_for_one lp_fee_override (fees self) in
        match iterate SWAP_DOUBLINGS (swap_step (ticks self) fee_pips zero_for_one exact_input price_limit)
                (SwapState.mk amount_specified 0 (sqrt_price self) (tick self) (liquidity self), SWAP_BASE_GAS) with
        | inl _ => None
        | inr r => Some (
            '(state, gas_used) ← r;
            gas_used ← safe_add_u256 gas_used V4_CALLBACK_SETTLEMENT_GAS;
            Ok (SwapResults.mk (SwapState.amount_calculated state) amount_specified
                  (SwapState.amount_remaining state) (SwapState.sqrt_price state)
                  (SwapState.liquidity state) (SwapState.tick state) gas_used))
        end
    end.

Definition set_hook_handler (handler : H) self : t H :=
  mk (liquidity self) (sqrt_price self) (fees self) (tick self) (ticks self) (tick_spacing self) (Some handler).

Definition after_swap self (r : SwapResults.t) : t H :=
  mk (SwapResults.liquidity r) (SwapResults.sqrt_price r) (fees self) (SwapResults.tick r) (ticks self)
     (tick_spacing self) (hook self).

(** ** Quotes *)

(** What the hook before the swap decides. *)
Record before_outcome := {
  bo_amount : Z;             (* amount_to_swap *)
  bo_fee : option Z;         (* lp_fee_override *)
  bo_gas : Z;                (* before_swap_gas *)
  bo_delta : Z;              (* before_swap_delta *)
  bo_storage : option Overwrites  (* storage_overwrites *)
}.

Definition apply_before_swap (amount_specified : Z) (out : WithGasEstimate.t BeforeSwapOutput.t) :
    result SimulationError before_outcome :=
  let output := WithGasEstimate.result out in
  let delta := BeforeSwapOutput.amount_delta output in
  amount_to_swap ←
    (if delta =? 0 then Ok amount_specified
     else
       let amount := swrap 256 (amount_specified + get_specified_delta i256_shr delta) in
       if 0 <? amount then Err (FatalError "Hook delta exceeds swap amount") else Ok amount);
  let hook_fee := BeforeSwapOutput.fee output in
  lp_fee_override ←
    (if hook_fee =? 0 then Ok None
     else
       let cleaned_fee := LpFee.remove_override_flag hook_fee in
       if negb (LpFee.is_valid cleaned_fee) then Err (FatalError "LP fee override exceeds maximum pips")
       else Ok (Some cleaned_fee));
  Ok {| bo_amount := amount_to_swap; bo_fee := lp_fee_override; bo_gas := WithGasEstimate.gas_estimate out;
        bo_delta := delta; bo_storage := Some (BeforeSwapOutput.overwrites output) |}.

Definition run_before_swap (context : StateContext.t) (params : SwapParams.t) self : result SimulationError before_outcome :=
  let amount_specified := SwapParams.amount_specified params in
  let unchanged := {| bo_amount := amount_specified; bo_fee := None; bo_gas := 0; bo_delta := 0; bo_storage := None |} in
  match hook self with
  | Some hook =>
      if has_permission (HookHandler.address hook) BeforeSwap then
        out ← map_err (fun _ => FatalError "BeforeSwap hook simulation failed")
                (HookHandler.before_swap hook (BeforeSwapParameters.mk context EXTERNAL_ACCOUNT params []) None None);
        apply_before_swap amount_specified out
      else Ok unchanged
  | None => Ok unchanged
  end.

(** The unspecified delta and the gas after the hook that follows the swap. *)
Definition run_after_swap (context : StateContext.t) (params : SwapParams.t) (before : before_outcome) (swap_delta : Z) self :
    result SimulationError (Z * Z) :=
  let hook_delta_unspecified := get_unspecified_delta (bo_delta before) in
  match hook self with
  | Some hook =>
      if has_permission (HookHandler.address hook) AfterSwap then
        out ← map_err (fun _ => FatalError "AfterSwap hook simulation failed")
                (HookHandler.after_swap hook (AfterSwapParameters.mk context EXTERNAL_ACCOUNT params swap_delta [])
                   (bo_storage before) None);
        Ok (swrap 128 (hook_delta_unspecified + WithGasEstimate.result out), WithGasEstimate.gas_estimate out)
      else Ok (hook_delta_unspecified, 0)
  | None => Ok (hook_delta_unspecified, 0)
  end.

(** The delta of the balances after the hooks. *)
Definition subtract_hook_delta (exact_input zero_for_one : bool) (hook_delta_specified hook_delta_unspecified swap_delta : Z) : Z :=
  if negb (hook_delta_specified =? 0) || negb (hook_delta_unspecified =? 0) then
    let hook_delta :=
      if Bool.eqb exact_input zero_for_one
      then BalanceDelta_new hook_delta_specified hook_delta_unspecified
      else BalanceDelta_new hook_delta_unspecified hook_delta_specified in
    BalanceDelta_sub i256_shr swap_delta hook_delta
  else swap_delta.

Definition hook_overhead (before_swap_gas after_swap_gas : Z) : Z :=
  let overhead := wrap 64 (before_swap_gas + after_swap_gas) in
  let overhead := if 0 <? before_swap_gas then wrap 64 (overhead + PM_PER_HOOK_CALL_OVERHEAD) else overhead in
  if 0 <? after_swap_gas then wrap 64 (overhead + PM_PER_HOOK_CALL_OVERHEAD) else overhead.

(** [U256::from(amount.abs())] *)
Definition u256_of_abs (amount : Z) : result SimulationError Z :=
  let a := swrap 128 (Z.abs amount) in if a <? 0 then Panic else Ok a.

Definition get_amount_out (amount_in : Z) (token_in token_out : Token.t) self :
    result SimulationError (GetAmountOutResult.t (t H)) :=
  let zero_for_one := Token.ltb token_in token_out in
  value ← biguint_to_u256 amount_in;
  amount_specified ← ok_or (if value <=? 2 ^ 255 then Some (- value) else None) (InvalidInput "I256 overflow: amount_in" None);
  token_in_address ← address_from_slice (Token.address token_in);
  token_out_address ← address_from_slice (Token.address token_out);
  let state_context :=
    StateContext.mk (if zero_for_one then token_in_address else token_out_address)
      (if zero_for_one then token_out_address else token_in_address) (fees self) (tick_spacing self) in
  let swap_params := SwapParams.mk zero_for_one amount_specified (sqrt_price self) in
  before ← run_before_swap state_context swap_params self;
  result ← run_swap (swap zero_for_one (bo_amount before) None (bo_fee before) self);
  let swap_delta := from_swap_result (SwapResults.amount_calculated result) zero_for_one in
  let hook_delta_specified := get_specified_delta i256_shr (bo_delta before) in
  '(hook_delta_unspecified, after_swap_gas) ← run_after_swap state_context swap_params before swap_delta self;
  let exact_input := amount_specified <? 0 in
  let swap_delta := subtract_hook_delta exact_input zero_for_one hook_delta_specified hook_delta_unspecified swap_delta in
  let amount_out := if Bool.eqb exact_input zero_for_one then amount1 swap_delta else amount0 i256_shr swap_delta in
  amount ← u256_of_abs amount_out;
  let total_gas_used := wrap 256 (SwapResults.gas_used result + hook_overhead (bo_gas before) after_swap_gas) in
  Ok (GetAmountOutResult.mk (u256_to_biguint amount) (u256_to_biguint total_gas_used) (after_swap self result)).

(** ** Limits *)

(** The searches of [find_max_amount], over the quotes of an amount. *)
Section search.
Context (quote : Z → result SimulationError Z).

Record search_state := { sr_low : Z; sr_high : Z; sr_in : Z; sr_out : Z }.

(** One turn of the exponential search: a state with a larger bound, a state to bisect, or the
    answer. *)
Definition grow_step (s : search_state) : search_state + result SimulationError (search_state + Z * Z) :=
  match quote (sr_high s) with
  | Ok amount =>
      let s' := {| sr_low := sr_in s; sr_high := sr_high s * 10; sr_in := sr_high s; sr_out := amount |} in
      if 10 ^ 75 <? sr_high s' then inr (Ok (inr (sr_in s', sr_out s'))) else inl s'
  | Err _ => inr (Ok (inl s))
  | Panic => inr Panic
  end.

(** One turn of the bisection. *)
Definition bisect_step (s : search_state) : search_state + result SimulationError (Z * Z) :=
  if 1 <? sr_high s - sr_low s then
    let mid := (sr_low s + sr_high s) / 2 in
    match quote mid with
    | Ok amount => inl {| sr_low := mid; sr_high := sr_high s; sr_in := mid; sr_out := amount |}
    | Err _ => inl {| sr_low := sr_low s; sr_high := mid; sr_in := sr_in s; sr_out := sr_out s |}
    | Panic => inr Panic
    end
  else inr (Ok (sr_in s, sr_out s)).

(** [2 ^ 7] turns to reach [10 ^ 75], [2 ^ 8] to halve an interval below it. *)
Definition search_max : option (result SimulationError (Z * Z)) :=
  match iterate 7 grow_step {| sr_low := 1; sr_high := 10 ^ 18; sr_in := 1; sr_out := 0 |} with
  | inl _ => None
  | inr (Ok (inr answer)) => Some (Ok answer)
  | inr (Ok (inl s)) => match iterate 8 bisect_step s with inl _ => None | inr r => Some r end
  | inr (Err e) => Some (Err e)
  | inr Panic => Some Panic
  end.
End search.

Definition find_max_amount (token_in token_out : Token.t) self : option (result SimulationError (Z * Z)) :=
  search_max (fun amount => GetAmountOutResult.amount <$> get_amount_out amount token_in token_out self).

Definition find_limits_experimentally (token_in token_out : Bytes) self : option (result SimulationError (Z * Z)) :=
  let token_in_obj := Token.mk token_in "TOKEN_IN" 18 0 [Some 10000] Ethereum 100 in
  let token_out_obj := Token.mk token_out "TOKEN_OUT" 18 0 [Some 10000] Ethereum 100 in
  find_max_amount token_in_obj token_out_obj self.

Definition has_no_initialized_ticks self : bool := negb (TickList.has_initialized_ticks (ticks self)).

(** A turn of the walk over the ticks, which also ends when no liquidity is left. *)
Definition limits_step (tick_list : TickList.t) (zero_for_one : bool) (s : limit_state) :
    limit_state + result SimulationError (Z * Z) :=
  match limit_step tick_list zero_for_one (Some MAX_TICKS_CROSSED) true s with
  | inl s' => if lm_liquidity s' =? 0 then limit_done s' else inl s'
  | inr r => inr r
  end.

(** The walk over the ticks. *)
Definition walk_limits (zero_for_one : bool) self : option (result SimulationError (Z * Z)) :=
  if liquidity self =? 0 then Some (Ok (0, 0))
  else
    match iterate SWAP_DOUBLINGS (limits_step (ticks self) zero_for_one)
            {| lm_tick := tick self; lm_price := sqrt_price self; lm_liquidity := liquidity self;
               lm_in := 0; lm_out := 0; lm_crossed := 0 |} with
    | inl _ => None
    | inr r => Some r
    end.

Definition get_limits (token_in token_out : Bytes) self : option (result SimulationError (Z * Z)) :=
  let walk := walk_limits (bytes_ltb token_in token_out) self in
  match hook self with
  | Some hook =>
      if (liquidity self =? 0) && has_no_initialized_ticks self then
        match HookHandler.get_amount_ranges hook token_in token_out with
        | Ok amount_ranges =>
            Some (Ok (u256_to_biguint (AmountRanges.amount_in_range amount_ranges).2,
                      u256_to_biguint (AmountRanges.amount_out_range amount_ranges).2))
        | Err (RecoverableError msg as e) =>
            if str_contains msg "not implemented" || str_contains msg "not set"
            then find_limits_experimentally token_in token_out self else Some (Err e)
        | Err e => Some (Err e)
        | Panic => Some Panic
        end
      else walk
  | None => walk
  end.

(** ** Updates *)

Definition set_fees (f : UniswapV4Fees.t) self : t H :=
  mk (liquidity self) (sqrt_price self) f (tick self) (ticks self) (tick_spacing self) (hook self).

Definition set_ticks (l : TickList.t) self : t H :=
  mk (liquidity self) (sqrt_price self) (fees self) (tick self) l (tick_spacing self) (hook self).

(** The hook is replaced by its updated copy, unless it does not implement updates. *)
Definition update_hook (delta : ProtocolStateDelta.t) (tokens : gmap Bytes Token.t) (balances : Balances.t) :
    stm (t H) TransitionError unit := fun self =>
  match hook self with
  | None => (Ok tt, self)
  | Some hook =>
      match HookHandler.delta_transition delta tokens balances hook with
      | (Ok _, hook') => (Ok tt, set_hook_handler hook' self)
      | (Err (TransitionSimulationError (RecoverableError msg) as e), _) =>
          if str_contains msg "not implemented" then (Ok tt, self) else (Err e, self)
      | (Err e, _) => (Err e, self)
      | (Panic, _) => (Panic, self)
      end
  end.

Import UniswapV3State(set_attribute).
Open Scope tycho_scope.
Definition delta_transition (delta : ProtocolStateDelta.t) (tokens : gmap Bytes Token.t) (balances : Balances.t) :
    stm (t H) TransitionError unit :=
  let updated := ProtocolStateDelta.updated_attributes delta in
  update_hook delta tokens balances ;?
  set_attribute updated "liquidity" (uint_from_bytes 16)
    (fun v s => mk v (sqrt_price s) (fees s) (tick s) (ticks s) (tick_spacing s) (hook s)) ;?
  set_attribute updated "sqrt_price_x96" u256_from_be_slice
    (fun v s => mk (liquidity s) v (fees s) (tick s) (ticks s) (tick_spacing s) (hook s)) ;?
  set_attribute updated "tick" (fun b => Ok (i24_be_bytes_to_i32 b))
    (fun v s => mk (liquidity s) (sqrt_price s) (fees s) v (ticks s) (tick_spacing s) (hook s)) ;?
  set_attribute updated "fee" (uint_from_bytes 4)
    (fun v s => set_fees (UniswapV4Fees.mk (UniswapV4Fees.zero_for_one (fees s)) (UniswapV4Fees.one_for_zero (fees s)) v) s) ;?
  set_attribute updated "protocol_fees/zero2one" (uint_from_bytes 4)
    (fun v s => set_fees (UniswapV4Fees.mk v (UniswapV4Fees.one_for_zero (fees s)) (UniswapV4Fees.lp_fee (fees s))) s) ;?
  set_attribute updated "protocol_fees/one2zero" (uint_from_bytes 4)
    (fun v s => set_fees (UniswapV4Fees.mk (UniswapV4Fees.zero_for_one (fees s)) v (UniswapV4Fees.lp_fee (fees s))) s) ;?
  on_field ticks set_ticks (update_ticks tick_key updated (ProtocolStateDelta.deleted_attributes delta)).
Close Scope tycho_scope.

Definition query_pool_swap (token_in token_out : Token.t) (constraint : SwapConstraint) self :
    result SimulationError (PoolSwap.t (t H)) :=
  if liquidity self =? 0 then Err (FatalError "No liquidity")
  else
    let zero_for_one := bytes_ltb (Token.address token_in) (Token.address token_out) in
    let fee_pips := UniswapV4Fees.calculate_swap_fees_pips zero_for_one None (fees self) in
    match constraint with
    | TradeLimitPrice =>
        Err (InvalidInput "Uniswap V4 does not support TradeLimitPrice constraint in query_pool_swap" None)
    | PoolTargetPrice target =>
        '(amount_in, amount_out, swap_result) ←
          clmm_swap_to_price (sqrt_price self) (Token.address token_in) (Token.address token_out) target
            fee_pips (-1) (fun zero_for_one amount limit => run_swap (swap zero_for_one amount (Some limit) None self));
        Ok (PoolSwap.mk amount_in amount_out (after_swap self swap_result))
    end.
End pool.
End UniswapV4State.
