(* ===== verification/UniswapV4Spec.v ===== *)
(** What the Uniswap v4 pool guarantees.

    Its swap loop counts an exact input downwards from a negative amount; it is the loop of the
    other pools under a change of sign, and inherits what is proved of it.  Quotes are proved for
    every hook, the search for limits for every way quotes behave. *)

From Stdlib Require Import Strings.Byte.
From S2P Require Import Prelude Collections Bytes Models SafeMath SafeMathSpec Cpmm CpmmSpec TickMath TickMathSpec TickInverse.
From S2P Require Import TickList TickListSpec SwapMath SwapMathSpec Clmm ClmmPools ClmmSpec ClmmPoolsSpec UniswapV4.

Open Scope Z_scope.

(** * Signed wrap-around *)

Lemma swrap_range w z : 0 < w -> in_srange w (swrap w z).
Proof.
  intros Hw. unfold swrap, in_srange. assert (2 ^ w = 2 * 2 ^ (w - 1)) as E.
  { rewrite <-Z.pow_succ_r by lia. f_equal. lia. }
  pose proof (Z.mod_pos_bound (z + 2 ^ (w - 1)) (2 ^ w) ltac:(lia)). lia.
Qed.

Lemma swrap_cong w a b k : 0 < w -> a = b + k * 2 ^ w -> swrap w a = swrap w b.
Proof.
  intros Hw ->. unfold swrap. f_equal. replace (b + k * 2 ^ w + 2 ^ (w - 1)) with (b + 2 ^ (w - 1) + k * 2 ^ w) by lia.
  apply Z_mod_plus_full.
Qed.

(** A wrapped value differs from the value by a multiple of the modulus. *)
Lemma swrap_split w z : 0 < w -> exists k, swrap w z = z + k * 2 ^ w.
Proof.
  intros Hw. unfold swrap. exists (- ((z + 2 ^ (w - 1)) / 2 ^ w)).
  pose proof (Z.div_mod (z + 2 ^ (w - 1)) (2 ^ w) ltac:(lia)). lia.
Qed.

Lemma swrap_opp_opp w z : 0 < w -> in_srange w z -> swrap w (- swrap w (- z)) = z.
Proof.
  intros Hw Hz. destruct (swrap_split w (- z) Hw) as [k ->].
  rewrite (swrap_cong w _ z (- k)) by lia. by apply swrap_small.
Qed.

Lemma swrap_opp_zero w z : 1 < w -> in_srange w z -> swrap w (- z) = 0 <-> z = 0.
Proof.
  intros Hw Hz. split.
  - intros E. rewrite <-(swrap_opp_opp w z) by (done || lia). rewrite E. apply swrap_small; [lia|].
    unfold in_srange. assert (0 < 2 ^ (w - 1)) by (apply Z.pow_pos_nonneg; lia). lia.
  - intros ->. apply swrap_small; [lia|]. unfold in_srange. assert (0 < 2 ^ (w - 1)) by (apply Z.pow_pos_nonneg; lia). lia.
Qed.

(** * Related runs *)

(** Both succeed with related values, or fail in the same way. *)
Definition res_rel {E A B} (R : A -> B -> Prop) (x : result E A) (y : result E B) : Prop :=
  match x, y with
  | Ok a, Ok b => R a b
  | Err e, Err f => e = f
  | Panic, Panic => True
  | _, _ => False
  end.

Lemma res_rel_bind {E A B A' B'} (R : A -> B -> Prop) (Q : A' -> B' -> Prop) (x : result E A) (y : result E B) f g :
  res_rel R x y -> (forall a b, R a b -> res_rel Q (f a) (g b)) -> res_rel Q (x ≫= f) (y ≫= g).
Proof. destruct x, y; simpl; try done. auto. Qed.

Lemma res_rel_refl {E A} (R : A -> A -> Prop) (x : result E A) : (forall a, x = Ok a -> R a a) -> res_rel R x x.
Proof. destruct x; simpl; auto. Qed.

(** Loops whose turns are related. *)
Lemma iterate_rel {S1 S2 R1 R2} (R : S1 -> S2 -> Prop) (Q : R1 -> R2 -> Prop) step1 step2 :
  (forall s1 s2, R s1 s2 -> match step1 s1, step2 s2 with inl s1, inl s2 => R s1 s2 | inr r1, inr r2 => Q r1 r2 | _, _ => False end) ->
  forall n s1 s2, R s1 s2 ->
    match iterate n step1 s1, iterate n step2 s2 with inl s1, inl s2 => R s1 s2 | inr r1, inr r2 => Q r1 r2 | _, _ => False end.
Proof.
  intros Hstep n. induction n as [|n IH]; intros s1 s2 HR; cbn [iterate]; [by apply Hstep|].
  specialize (IH s1 s2 HR) as H. destruct (iterate n step1 s1), (iterate n step2 s2); try done. by apply IH.
Qed.

(** * The swap loop *)

Section mirror.
Context (tick_list : TickList.t) (fee : Z) (zfo exact_input : bool) (limit : Z).

(** The state of the v4 loop, and of the loop of the other pools. *)
Definition mirrored (s4 : SwapState.t * Z) (s3 : loop_state) : Prop :=
  let a := s4.1 in let b := ls_state s3 in
  SwapState.amount_remaining a = swrap 256 (- SwapState.amount_remaining b) /\
  in_srange 256 (SwapState.amount_remaining b) /\
  SwapState.amount_calculated a = SwapState.amount_calculated b /\
  SwapState.sqrt_price a = SwapState.sqrt_price b /\
  SwapState.tick a = SwapState.tick b /\ SwapState.liquidity a = SwapState.liquidity b /\
  s4.2 = ls_gas s3 /\ in_range 256 s4.2.

Lemma safe_add_zero g : in_range 256 g -> safe_add_u256 g 0 = Ok g.
Proof using. intros Hg. unfold safe_add_u256. by rewrite Z.add_0_r, (proj2 (checked_Some 256 g g)). Qed.

Lemma safe_add_in_range a b g : safe_add_u256 a b = Ok g -> in_range 256 g.
Proof using.
  unfold safe_add_u256. destruct (checked 256 (a + b)) eqn:E; [|done]. intros [= <-]. by apply checked_Some in E as [_ E].
Qed.

Lemma mirror_account a b ain aout fa :
  SwapState.amount_remaining a = swrap 256 (- SwapState.amount_remaining b) ->
  SwapState.amount_calculated a = SwapState.amount_calculated b ->
  res_rel (fun x y => x.1 = swrap 256 (- y.1) /\ in_srange 256 y.1 /\ x.2 = y.2)
    (UniswapV4State.account_step exact_input a ain aout fa) (account_step exact_input b ain aout fa).
Proof using.
  intros Hr Hc. destruct (swrap_split 256 (- SwapState.amount_remaining b) ltac:(lia)) as [k Hk].
  unfold UniswapV4State.account_step, account_step.
  assert (forall d, swrap 256 (SwapState.amount_remaining a + d) = swrap 256 (- swrap 256 (SwapState.amount_remaining b - d))) as Hd.
  { intros d. destruct (swrap_split 256 (SwapState.amount_remaining b - d) ltac:(lia)) as [k' ->]. rewrite Hr, Hk.
    apply (swrap_cong 256 _ _ (k + k')); lia. }
  destruct exact_input; repeat (apply (res_rel_bind eq); [apply res_rel_refl; done|intros ? ? <-]); simpl; rewrite Hc.
  - split_and!; [apply Hd|apply swrap_range; lia|done].
  - split_and!; [|apply swrap_range; lia|done]. rewrite <-Z.add_opp_r, Hd. do 3 f_equal. lia.
Qed.

Lemma mirror_find_tick s4 s3 :
  mirrored s4 s3 ->
  res_rel (fun x y => x = y /\ in_range 256 x.2)
    (find_next_tick tick_list UniswapV4State.GAS zfo s4.1 s4.2) (find_next_tick tick_list UniswapV4State.GAS zfo (ls_state s3) (ls_gas s3)).
Proof using.
  intros (_ & _ & Hc & Hp & Ht & Hl & Hg & _). unfold find_next_tick. rewrite Hc, Hp, Ht, Hl, Hg.
  apply res_rel_refl. intros [[n init] g]. destruct (TickList.next_initialized_tick_within_one_word _ _ _) as [[? ?]|[]|]; try done.
  simpl. destruct (safe_add_u256 _ _) eqn:E; try done. simpl. intros [= <- <- <-]. split; [done|]. by eapply safe_add_in_range.
Qed.

(** Liquidity, tick and gas at the end of a turn. *)
Lemma mirror_cross n init g b sqrt_price sqrt_price_next start :
  in_range 256 g ->
  let cross := (if sqrt_price =? sqrt_price_next then
       '(liquidity, gas_used) ←
         (if (init : bool) then
            liquidity ← cross_tick tick_list zfo n (SwapState.liquidity b);
            gas_used ← safe_add_u256 g UniswapV4State.GAS_PER_TICK;
            Ok (liquidity, gas_used)
          else Ok (SwapState.liquidity b, g));
       Ok (liquidity, if zfo then swrap 32 (n - 1) else n, gas_used)
     else if negb (sqrt_price =? start) then
       tick ← get_tick_at_sqrt_ratio sqrt_price;
       Ok (SwapState.liquidity b, tick, g)
     else Ok (SwapState.liquidity b, SwapState.tick b, g)) in
  res_rel (fun x y => x = y /\ in_range 256 x.2) cross cross.
Proof using.
  intros Hg. apply res_rel_refl. intros [[l t] g'].
  destruct (sqrt_price =? sqrt_price_next); [destruct init|destruct (negb _)].
  - destruct (cross_tick _ _ _ _); try done. simpl. destruct (safe_add_u256 _ _) eqn:E; try done. simpl.
    intros [= <- <- <-]. split; [done|]. by eapply safe_add_in_range.
  - simpl. by intros [= <- <- <-].
  - destruct (get_tick_at_sqrt_ratio _); try done. simpl. by intros [= <- <- <-].
  - by intros [= <- <- <-].
Qed.

Lemma mirror_turn s4 s3 :
  mirrored s4 s3 ->
  res_rel mirrored (UniswapV4State.swap_turn tick_list fee zfo exact_input limit s4)
    (swap_turn tick_list fee UniswapV4State.GAS zfo exact_input limit s3).
Proof using.
  intros Hm. pose proof (mirror_find_tick s4 s3 Hm) as Hf. destruct s4 as [a g4].
  destruct Hm as (Hr & Hin & Hc & Hp & Ht & Hl & Hg & Hgr). simpl in *.
  unfold UniswapV4State.swap_turn, swap_turn. cbv zeta.
  apply (res_rel_bind _ _ _ _ _ _ Hf). intros [[n0 init] g] [[n0' init'] g'] [[= <- <- <-] Hg1]. simpl in Hg1.
  apply (res_rel_bind eq); [by apply res_rel_refl|]. intros next ? <-. rewrite Hp, Hl.
  rewrite Hr, (swrap_opp_opp 256) by (done || lia).
  apply (res_rel_bind eq); [by apply res_rel_refl|]. intros [[[sp ain] aout] fa] ? <-.
  change (GasSchedule.per_step UniswapV4State.GAS) with 0. rewrite safe_add_zero by done. cbn [mbind result_bind].
  apply (res_rel_bind _ _ _ _ _ _ (mirror_account a (ls_state s3) ain aout fa Hr Hc)).
  intros [r4 c4] [r3 c3] (Hr' & Hin' & Hc'). simpl in Hr', Hin', Hc'. subst c4.
  rewrite Ht. apply (res_rel_bind _ _ _ _ _ _ (mirror_cross _ init g (ls_state s3) sp next _ Hg1)).
  intros [[l t] g2] ? [<- Hg2]. simpl in Hg2. change (GasSchedule.per_loop UniswapV4State.GAS) with 0.
  change (GasSchedule.first_loop UniswapV4State.GAS) with 0. rewrite safe_add_zero by done. cbn [mbind result_bind].
  rewrite safe_add_zero by done. destruct (ls_first s3); simpl; unfold mirrored; simpl; split_and!; done.
Qed.

Lemma mirror_step s4 s3 :
  mirrored s4 s3 ->
  match UniswapV4State.swap_step tick_list fee zfo exact_input limit s4,
        swap_step tick_list fee UniswapV4State.GAS zfo exact_input limit s3 with
  | inl s4, inl s3 => mirrored s4 s3
  | inr r4, inr r3 => res_rel mirrored r4 r3
  | _, _ => False
  end.
Proof using.
  intros Hm. unfold UniswapV4State.swap_step, swap_step, swap_continues.
  assert ((SwapState.amount_remaining s4.1 =? 0) = (SwapState.amount_remaining (ls_state s3) =? 0)) as ->.
  { destruct Hm as (-> & Hin & _). apply eq_bool_prop_intro. rewrite !Is_true_true, !Z.eqb_eq. apply swrap_opp_zero; [lia|done]. }
  assert (SwapState.sqrt_price s4.1 = SwapState.sqrt_price (ls_state s3)) as -> by apply Hm.
  destruct (_ && _); [|done]. pose proof (mirror_turn s4 s3 Hm) as Ht.
  destruct (UniswapV4State.swap_turn _ _ _ _ _ _), (swap_turn _ _ _ _ _ _ _); simpl in *; done.
Qed.
End mirror.

(** The result of the v4 loop from that of the other pools. *)
Definition negated (r : SwapResults.t) : SwapResults.t :=
  SwapResults.mk (SwapResults.amount_calculated r) (- SwapResults.amount_specified r)
    (swrap 256 (- SwapResults.amount_remaining r)) (SwapResults.sqrt_price r) (SwapResults.liquidity r)
    (SwapResults.tick r) (SwapResults.gas_used r).

Definition negated_run (r : option (result SimulationError SwapResults.t)) : option (result SimulationError SwapResults.t) :=
  match r with
  | Some (Ok res) => Some (Ok (negated res))
  | _ => r
  end.

Section swap.
Context {H : Type}.
Implicit Types self : UniswapV4State.t H.

(** The run of the shared loop that a swap mirrors. *)
Definition mirror_swap (zfo : bool) (amount : Z) (limit lp_fee_override : option Z) self :
    option (result SimulationError SwapResults.t) :=
  clmm_swap (UniswapV4State.ticks self)
    (UniswapV4Fees.calculate_swap_fees_pips zfo lp_fee_override (UniswapV4State.fees self)) UniswapV4State.GAS
    (UniswapV4State.liquidity self =? 0) (UniswapV4State.liquidity self) (UniswapV4State.sqrt_price self)
    (UniswapV4State.tick self) zfo amount limit.

Lemma v4_swap_mirror zfo amount limit lp_fee_override self :
  amount <> 0 -> - 2 ^ 255 < amount < 2 ^ 255 ->
  UniswapV4State.swap zfo amount limit lp_fee_override self =
  negated_run (mirror_swap zfo (- amount) limit lp_fee_override self).
Proof.
  intros Hne Ha. unfold UniswapV4State.swap, mirror_swap, clmm_swap. rewrite (proj2 (Z.eqb_neq amount 0) Hne).
  destruct (swap_price_limit _ _ _ _) as [l|e|]; [|done|done].
  set (fee := UniswapV4Fees.calculate_swap_fees_pips _ _ _). unfold swap_to_limit.
  replace (amount <? 0) with (0 <? - amount) by lia.
  match goal with |- context [iterate _ (swap_step ?tl _ _ _ ?ei _) ?s3] => match goal with
    |- context [iterate _ (UniswapV4State.swap_step _ _ _ _ _) ?s4] =>
      pose proof (iterate_rel mirrored (res_rel mirrored) _ _ (mirror_step tl fee zfo ei l) SWAP_DOUBLINGS s4 s3) as Hit end end.
  assert (swrap 256 (- - amount) = amount) as Hopp by (rewrite Z.opp_involutive; apply swrap_small; unfold in_srange; lia).
  match type of Hit with ?P -> _ => assert P as Hm by (unfold mirrored; simpl; rewrite Hopp; unfold in_srange, in_range; split_and!; done || lia) end.
  specialize (Hit Hm). clear Hm.
  destruct (iterate SWAP_DOUBLINGS (UniswapV4State.swap_step _ _ _ _ _) _) as [?|r4],
    (iterate SWAP_DOUBLINGS (swap_step _ _ _ _ _ _) _) as [?|r3]; try done.
  destruct r4 as [[st g]|e|], r3 as [s3|e3|]; cbn [res_rel mbind result_bind] in Hit |- *; try done; [|by subst].
  destruct Hit as (Hr & _ & Hc & Hp & Ht & Hl & Hg & _). cbn [fst snd] in *. subst g.
  change (GasSchedule.settlement UniswapV4State.GAS) with UniswapV4State.V4_CALLBACK_SETTLEMENT_GAS.
  destruct (safe_add_u256 (ls_gas s3) UniswapV4State.V4_CALLBACK_SETTLEMENT_GAS); simpl; [|done|done]. unfold negated. simpl. by rewrite Hr, Hc, Hp, Ht, Hl, Z.opp_involutive.
Qed.

Lemma v4_swap_zero zfo limit lp_fee_override self :
  UniswapV4State.swap zfo 0 limit lp_fee_override self =
  Some (Ok (SwapResults.mk 0 0 0 (UniswapV4State.sqrt_price self) (UniswapV4State.liquidity self) (UniswapV4State.tick self) 3000)).
Proof. done. Qed.
End swap.

(** * Packed deltas *)

(** What is needed of the right shift: the lower half of the result is the upper half of the
    number.  Both the logical and the arithmetic shift have it. *)
Definition shifts_halves (shr : Z -> Z -> Z) : Prop :=
  forall v, in_srange 256 v -> in_srange 256 (shr v 128) /\ exists k, shr v 128 = v / 2 ^ 128 + k * 2 ^ 128.

Definition logical_shr (v n : Z) : Z := wrap 256 v / 2 ^ n.
Definition arithmetic_shr (v n : Z) : Z := Z.shiftr v n.

Lemma logical_halves : shifts_halves logical_shr.
Proof.
  intros v Hv. unfold logical_shr, in_srange in *.
  pose proof (wrap_range 256 v ltac:(lia)) as Hw. unfold in_range, wrap in *.
  assert (0 <= v mod 2 ^ 256 / 2 ^ 128 < 2 ^ 128) by (split; [apply Z.div_pos; lia|apply Z.div_lt_upper_bound; lia]).
  split; [lia|]. exists (- (v / 2 ^ 256) ). rewrite Z.mod_eq by lia.
  replace (v - 2 ^ 256 * (v / 2 ^ 256)) with (v + (- (v / 2 ^ 256) * 2 ^ 128) * 2 ^ 128) by lia.
  rewrite Z.div_add by lia. done.
Qed.

Lemma arithmetic_halves : shifts_halves arithmetic_shr.
Proof.
  intros v Hv. unfold arithmetic_shr, in_srange in *. rewrite Z.shiftr_div_pow2 by lia. split; [|exists 0; lia].
  split; [apply Z.div_le_lower_bound; lia|apply Z.div_lt_upper_bound; lia].
Qed.

Section packed.
Context (shr : Z -> Z -> Z) (Hshr : shifts_halves shr).

(** The halves of a number, as signed numbers. *)
Lemma upper_eq v : in_srange 256 v -> get_upper_i128 shr v = swrap 128 (v / 2 ^ 128).
Proof using Hshr.
  intros Hv. destruct (Hshr v Hv) as [_ [k Hk]]. unfold get_upper_i128, get_lower_i128. rewrite Hk.
  by apply (swrap_cong 128 _ _ k).
Qed.

Lemma shl_eq v : exists k, i256_shl v 128 = v * 2 ^ 128 + k * 2 ^ 256.
Proof using. unfold i256_shl. rewrite Z.shiftl_mul_pow2 by lia. apply swrap_split. lia. Qed.

Lemma delta_new_eq a b :
  in_srange 128 a -> BalanceDelta_new a b = a * 2 ^ 128 + b mod 2 ^ 128 /\ in_srange 256 (BalanceDelta_new a b).
Proof using.
  intros Ha. unfold BalanceDelta_new, i256_shl. rewrite Z.shiftl_mul_pow2, swrap_small by (unfold in_srange in *; lia).
  change (2 ^ 128 - 1) with (Z.ones 128). rewrite Z.land_ones by lia.
  pose proof (Z.mod_pos_bound b (2 ^ 128) ltac:(lia)).
  assert (Z.lor (a * 2 ^ 128) (b mod 2 ^ 128) = a * 2 ^ 128 + b mod 2 ^ 128) as ->.
  { symmetry. rewrite <-Z.add_lor_land. rewrite <-(Z.shiftl_mul_pow2 a 128) by lia.
    replace (Z.land (Z.shiftl a 128) (b mod 2 ^ 128)) with 0; [lia|]. symmetry. apply Z.bits_inj'. intros n Hn.
    rewrite Z.land_spec, Z.bits_0. destruct (Z.ltb_spec n 128).
    - by rewrite Z.shiftl_spec_low.
    - rewrite Z.mod_pow2_bits_high by lia. by rewrite andb_false_r. }
  split; [done|]. unfold in_srange in *. lia.
Qed.

(** Packing two amounts and reading them back. *)
Lemma delta_roundtrip a b :
  in_srange 128 a -> in_srange 128 b ->
  amount0 shr (BalanceDelta_new a b) = a /\ amount1 (BalanceDelta_new a b) = b.
Proof using Hshr.
  intros Ha Hb. destruct (delta_new_eq a b Ha) as [E Hr]. pose proof (Z.mod_pos_bound b (2 ^ 128) ltac:(lia)). split.
  - unfold amount0. rewrite upper_eq by done. rewrite E, Z.add_comm, Z.div_add, Z.div_small by lia. by apply swrap_small; [lia|].
  - unfold amount1, get_lower_i128. rewrite E. rewrite (swrap_cong 128 _ b (a - b / 2 ^ 128)); [by apply swrap_small; [lia|]|lia|].
    rewrite Z.mod_eq by lia. lia.
Qed.

Lemma shifted_low r : exists k, shr (i256_shl r 128) 128 = r + k * 2 ^ 128.
Proof using Hshr.
  destruct (Hshr (i256_shl r 128)) as [_ [k ->]]; [apply swrap_range; lia|]. destruct (shl_eq r) as [j ->].
  exists (j + k). replace (r * 2 ^ 128 + j * 2 ^ 256) with ((r + j * 2 ^ 128) * 2 ^ 128) by lia. rewrite Z.div_mul by lia. lia.
Qed.

(** The second amounts of a difference are subtracted, whatever the shift does with the sign. *)
Lemma amount1_sub x y : amount1 (BalanceDelta_sub shr x y) = swrap 128 (amount1 x - amount1 y).
Proof using Hshr.
  unfold amount1, get_lower_i128, BalanceDelta_sub.
  destruct (shl_eq (swrap 256 (shr x 128 - shr y 128))) as [k1 ->].
  destruct (shifted_low (swrap 256 (x - y))) as [k2 ->].
  destruct (swrap_split 256 (x - y) ltac:(lia)) as [k3 ->].
  destruct (swrap_split 128 x ltac:(lia)) as [k4 ->]. destruct (swrap_split 128 y ltac:(lia)) as [k5 ->].
  match goal with |- swrap 128 (swrap 256 ?e) = _ => destruct (swrap_split 256 e ltac:(lia)) as [k6 ->] end.
  match goal with |- swrap 128 (?d * 2 ^ 128 + _ + _ + _) = _ =>
    apply (swrap_cong 128 _ _ (d + k1 * 2 ^ 128 + k3 * 2 ^ 128 + k2 + k6 * 2 ^ 128 - k4 + k5)); lia end.
Qed.

(** The first amounts, up to what the shift leaves above the second amount. *)
Lemma amount0_sub x y :
  in_srange 256 x -> in_srange 256 y ->
  let low := swrap 256 (x - y) in
  amount0 shr (BalanceDelta_sub shr x y) =
  swrap 128 (amount0 shr x - amount0 shr y + shr (i256_shl low 128) 128 / 2 ^ 128).
Proof using Hshr.
  intros Hx Hy low. unfold amount0. rewrite !upper_eq by (done || apply swrap_range; lia).
  destruct (Hshr x Hx) as [_ [k1 E1]]. destruct (Hshr y Hy) as [_ [k2 E2]].
  unfold BalanceDelta_sub. fold low. set (l := shr (i256_shl low 128) 128). rewrite E1, E2.
  destruct (swrap_split 256 (x / 2 ^ 128 + k1 * 2 ^ 128 - (y / 2 ^ 128 + k2 * 2 ^ 128)) ltac:(lia)) as [k3 ->].
  match goal with |- context [i256_shl ?e 128] => destruct (shl_eq e) as [k4 ->] end.
  match goal with |- swrap 128 (swrap 256 ?e / _) = _ => destruct (swrap_split 256 e ltac:(lia)) as [k5 ->] end.
  destruct (swrap_split 128 (x / 2 ^ 128) ltac:(lia)) as [k6 ->]. destruct (swrap_split 128 (y / 2 ^ 128) ltac:(lia)) as [k7 ->].
  match goal with |- swrap 128 ((?d * 2 ^ 128 + _ + _ + _) / _) = _ =>
    replace (d * 2 ^ 128 + k4 * 2 ^ 256 + l + k5 * 2 ^ 256) with (l + (d + k4 * 2 ^ 128 + k5 * 2 ^ 128) * 2 ^ 128) by lia end.
  rewrite Z.div_add by lia.
  apply (swrap_cong 128 _ _ (k1 - k2 + k3 * 2 ^ 128 + k4 + k5 - k6 + k7)); lia.
Qed.
End packed.

(** With a logical shift the first amounts of a difference are subtracted exactly; with an
    arithmetic one the result is one less whenever the difference of the second is negative. *)
Lemma amount0_sub_logical shr x y :
  shifts_halves shr -> (forall v, in_srange 256 v -> shr v 128 = logical_shr v 128) ->
  in_srange 256 x -> in_srange 256 y ->
  amount0 shr (BalanceDelta_sub shr x y) = swrap 128 (amount0 shr x - amount0 shr y).
Proof.
  intros Hshr Hlog Hx Hy. rewrite (amount0_sub _ Hshr) by done. f_equal. rewrite Hlog by (apply swrap_range; lia).
  set (v := i256_shl _ 128). unfold logical_shr. pose proof (wrap_range 256 v ltac:(lia)) as Hw. unfold in_range in Hw.
  assert (0 <= wrap 256 v / 2 ^ 128 < 2 ^ 128) by (split; [apply Z.div_pos; lia|apply Z.div_lt_upper_bound; lia]).
  rewrite (Z.div_small (wrap 256 v / 2 ^ 128)) by lia. lia.
Qed.

Lemma amount0_sub_arithmetic shr x y :
  shifts_halves shr -> (forall v, in_srange 256 v -> shr v 128 = arithmetic_shr v 128) ->
  in_srange 256 x -> in_srange 256 y ->
  amount0 shr (BalanceDelta_sub shr x y) =
  swrap 128 (amount0 shr x - amount0 shr y - if amount1 (BalanceDelta_sub shr x y) <? 0 then 1 else 0).
Proof.
  intros Hshr Harith Hx Hy. rewrite (amount0_sub _ Hshr) by done. rewrite (amount1_sub _ Hshr). f_equal.
  rewrite Harith by (apply swrap_range; lia).
  set (low := swrap 256 (x - y)). unfold arithmetic_shr. rewrite Z.shiftr_div_pow2 by lia.
  assert (i256_shl low 128 = swrap 128 low * 2 ^ 128) as ->.
  { unfold i256_shl. rewrite Z.shiftl_mul_pow2 by lia. destruct (swrap_split 128 low ltac:(lia)) as [k Hk].
    rewrite (swrap_cong 256 _ (swrap 128 low * 2 ^ 128) (- k)) by lia.
    pose proof (swrap_range 128 low ltac:(lia)). unfold in_srange in *. apply swrap_small; [lia|]. unfold in_srange. lia. }
  rewrite Z.div_mul by lia.
  assert (swrap 128 (amount1 x - amount1 y) = swrap 128 low) as ->.
  { unfold amount1, get_lower_i128, low. destruct (swrap_split 128 x ltac:(lia)) as [k1 ->].
    destruct (swrap_split 128 y ltac:(lia)) as [k2 ->]. destruct (swrap_split 256 (x - y) ltac:(lia)) as [k3 ->].
    apply (swrap_cong 128 _ _ (k1 - k2 - k3 * 2 ^ 128)); lia. }
  pose proof (swrap_range 128 low ltac:(lia)) as Hr. unfold in_srange in Hr. destruct (Z.ltb_spec (swrap 128 low) 0).
  - replace (swrap 128 low / 2 ^ 128) with (-1); [lia|]. apply (Z.div_unique _ _ _ (swrap 128 low + 2 ^ 128)); lia.
  - rewrite Z.div_small by lia. lia.
Qed.

(** * The search for a limit *)

Section search.
Import UniswapV4State.
Context (quote : Z -> result SimulationError Z) (Htotal : forall a, 1 <= a <= 10 ^ 75 -> quote a <> Panic).

(** The last success, or the initial guess. *)
Definition success (s : search_state) : Prop :=
  1 <= sr_low s <= sr_in s /\ sr_in s <= 10 ^ 75 /\
  (quote (sr_in s) = Ok (sr_out s) \/ sr_in s = 1 /\ sr_out s = 0).

Definition grow_inv (s : search_state) : Prop := success s /\ sr_in s < sr_high s /\ sr_high s <= 10 ^ 75 /\ exists k, 18 <= k /\ sr_high s = 10 ^ k.

Definition grow_left (s : search_state) : Z := Z.log2 (10 ^ 76 / sr_high s) / 3.

Lemma grow_inl s s' : grow_inv s -> grow_step quote s = inl s' -> grow_inv s' /\ 0 <= grow_left s' < grow_left s.
Proof using.
  intros ((Hl & Hi & Hs) & Hlt & Hh & k & Hk & Hp). unfold grow_step. destruct (quote (sr_high s)) as [amount| |] eqn:Eq; [|done|done].
  assert (10 ^ 18 <= sr_high s) by (rewrite Hp; apply Z.pow_le_mono_r; lia).
  cbv zeta. cbn [sr_high]. destruct (Z.ltb_spec (10 ^ 75) (sr_high s * 10)); [done|]. intros [= <-].
  unfold grow_inv, success, grow_left. simpl.
  split; [split_and!; try lia; [by left|exists (k + 1); rewrite Hp, Z.pow_add_r by lia; lia]|].
  replace (10 ^ 76 / (sr_high s * 10)) with (10 ^ 75 / sr_high s).
  2: { rewrite <-(Z.div_mul_cancel_r (10 ^ 75) (sr_high s) 10) by lia. f_equal. }
  assert (1 <= 10 ^ 75 / sr_high s) by (apply Z.div_le_lower_bound; lia).
  assert (8 * (10 ^ 75 / sr_high s) <= 10 ^ 76 / sr_high s) as H8.
  { pose proof (Z.mul_div_le (10 ^ 75) (sr_high s) ltac:(lia)). apply Z.div_le_lower_bound; lia. }
  apply Z.log2_le_mono in H8. change 8 with (2 ^ 3) in H8. rewrite Z.mul_comm, Z.log2_mul_pow2 in H8 by lia.
  pose proof (Z.log2_nonneg (10 ^ 75 / sr_high s)). split; [apply Z.div_pos; lia|].
  assert ((3 + Z.log2 (10 ^ 75 / sr_high s)) / 3 <= Z.log2 (10 ^ 76 / sr_high s) / 3) by (apply Z.div_le_mono; lia).
  replace (3 + Z.log2 (10 ^ 75 / sr_high s)) with (Z.log2 (10 ^ 75 / sr_high s) + 1 * 3) in * by lia.
  rewrite Z.div_add in * by lia. lia.
Qed.

(** A state to bisect: the bound fails. *)
Definition bisect_inv (s : search_state) : Prop :=
  success s /\ sr_low s < sr_high s <= 10 ^ 75 /\ exists e, quote (sr_high s) = Err e.

Lemma grow_inr s r :
  grow_inv s -> grow_step quote s = inr r ->
  match r with
  | Ok (inl s') => bisect_inv s'
  | Ok (inr (i, o)) => quote i = Ok o /\ i = 10 ^ 75
  | _ => False
  end.
Proof using Htotal.
  intros (Hs & Hlt & Hh & k & Hk & Hp). unfold grow_step.
  assert (10 ^ 18 <= sr_high s) by (rewrite Hp; apply Z.pow_le_mono_r; lia). specialize (Htotal (sr_high s) ltac:(lia)).
  destruct (quote (sr_high s)) as [amount|e|] eqn:Eq; [|intros [= <-]|done].
  - cbv zeta. cbn [sr_high]. destruct (Z.ltb_spec (10 ^ 75) (sr_high s * 10)); [|done]. intros [= <-]. cbn. split; [done|]. rewrite Hp in *.
    assert (10 ^ 75 < 10 ^ (k + 1)) as Hk' by (rewrite Z.pow_add_r by lia; lia).
    apply Z.pow_lt_mono_r_iff in Hk'; [|lia..]. apply Z.pow_le_mono_r_iff in Hh; [|lia..]. f_equal. lia.
  - split_and!; [done|destruct Hs; lia|lia|]. by exists e.
Qed.

Definition width (s : search_state) : Z := Z.log2_up (sr_high s - sr_low s).

Lemma log2_up_half d e : 1 < d -> 1 <= e -> 2 * e <= d + 1 -> 0 <= Z.log2_up e < Z.log2_up d.
Proof using.
  intros Hd He Hh. split; [apply Z.log2_up_nonneg|]. destruct (Z.eq_dec e 1) as [->|]; [by apply Z.log2_up_pos|].
  destruct (Z.log2_up_spec d ltac:(lia)) as [_ Hu]. pose proof (Z.log2_up_pos d ltac:(lia)).
  assert (Z.log2_up e <= Z.log2_up d - 1); [|lia]. apply Z.log2_up_le_pow2; [lia|].
  assert (2 ^ Z.log2_up d = 2 * 2 ^ (Z.log2_up d - 1)) by (rewrite <-Z.pow_succ_r by lia; f_equal; lia). lia.
Qed.

Lemma bisect_inl s s' : bisect_inv s -> bisect_step quote s = inl s' -> bisect_inv s' /\ 0 <= width s' < width s.
Proof using.
  intros ((Hl & Hi & Hs) & Hlt & e & He). unfold bisect_step. destruct (Z.ltb_spec 1 (sr_high s - sr_low s)); [|done].
  set (mid := (sr_low s + sr_high s) / 2).
  pose proof (Z.div_mod (sr_low s + sr_high s) 2 ltac:(lia)) as Hdm. pose proof (Z.mod_pos_bound (sr_low s + sr_high s) 2 ltac:(lia)).
  fold mid in Hdm.
  destruct (quote mid) as [amount|e'|] eqn:Eq; [intros [= <-]|intros [= <-]|done];
    unfold bisect_inv, success, width; simpl; (split; [|apply log2_up_half; lia]); split_and!; try lia;
    first [by left|by exists e|done|by exists e'].
Qed.

Lemma bisect_inr s r :
  bisect_inv s -> bisect_step quote s = inr r ->
  exists i o, r = Ok (i, o) /\ 1 <= i <= 10 ^ 75 /\ (quote i = Ok o \/ i = 1 /\ o = 0) /\
    exists h e, quote h = Err e /\ 1 < h <= i + 1 /\ h <= 10 ^ 75.
Proof using Htotal.
  intros ((Hl & Hi & Hs) & Hlt & e & He). unfold bisect_step. destruct (Z.ltb_spec 1 (sr_high s - sr_low s)).
  - pose proof (Z.div_mod (sr_low s + sr_high s) 2 ltac:(lia)). pose proof (Z.mod_pos_bound (sr_low s + sr_high s) 2 ltac:(lia)).
    specialize (Htotal ((sr_low s + sr_high s) / 2) ltac:(lia)). by destruct (quote _).
  - intros [= <-]. exists (sr_in s), (sr_out s). split_and!; [done|lia|lia|done|]. exists (sr_high s), e. split_and!; [done|lia..].
Qed.

Lemma search_max_spec :
  exists i o, search_max quote = Some (Ok (i, o)) /\ 1 <= i <= 10 ^ 75 /\
    (quote i = Ok o \/ i = 1 /\ o = 0) /\
    (i = 10 ^ 75 \/ exists h e, quote h = Err e /\ 1 < h <= i + 1 /\ h <= 10 ^ 75).
Proof using Htotal.
  unfold search_max. set (s0 := Build_search_state _ _ _ _).
  assert (grow_inv s0) as H0.
  { unfold grow_inv, success, s0. cbn [sr_low sr_high sr_in sr_out]. split_and!; try lia. exists 18. lia. }
  destruct (iterate_terminates (grow_step quote) grow_inv grow_left grow_inl 7 s0 H0) as [r Hr]; [vm_compute; done|].
  pose proof (iterate_inr (grow_step quote) grow_inv grow_left grow_inl _ 7 s0 r grow_inr H0 Hr) as Hq. rewrite Hr.
  destruct r as [[s|[i o]]|e|]; try done.
  - assert (width s < 2 ^ Z.of_nat 8) as Hw.
    { destruct Hq as ((Hl & _) & Hlt & _). unfold width.
      assert (Z.log2_up (sr_high s - sr_low s) <= 255); [|change (2 ^ Z.of_nat 8) with 256; lia].
      apply Z.log2_up_le_pow2; lia. }
    destruct (iterate_terminates (bisect_step quote) bisect_inv width bisect_inl 8 s Hq Hw) as [r Hr'].
    pose proof (iterate_inr (bisect_step quote) bisect_inv width bisect_inl _ 8 s r bisect_inr Hq Hr') as (i & o & -> & Hi & Ho & Hb).
    rewrite Hr'. exists i, o. split_and!; [done|lia|lia|done|by right].
  - destruct Hq as (Hq & Hi). exists i, o. split_and!; [done|lia|lia|by left|by left].
Qed.
End search.

(** * Quotes *)

Section quotes.
Context {H : Type} `{HookHandler.t H} (shr : Z -> Z -> Z) (Hshr : shifts_halves shr).
Implicit Types self : UniswapV4State.t H.
Import UniswapV4State.

Definition v4_ok self : Prop := clmm_ok (ticks self) (liquidity self) (sqrt_price self) (tick self).

(** An exact input on a pool whose tick and price agree. *)
Lemma v4_swap_total zfo a limit lp_fee_override self :
  v4_ok self -> 0 <= a < 2 ^ 255 ->
  0 <= UniswapV4Fees.calculate_swap_fees_pips zfo lp_fee_override (fees self) < 1000000 ->
  exists r, swap zfo (- a) limit lp_fee_override self = Some r /\
    ends (fun e => refused (liquidity self =? 0) zfo (sqrt_price self) (limit_of zfo limit) e \/ swap_error e)
      (fun res => - 2 ^ 245 <= SwapResults.amount_calculated res <= 0 /\
         - a <= SwapResults.amount_remaining res <= 0 /\
         (SwapResults.amount_remaining res = 0 \/ SwapResults.sqrt_price res = limit_of zfo limit) /\
         clmm_ok (ticks self) (SwapResults.liquidity res) (SwapResults.sqrt_price res) (SwapResults.tick res)) r.
Proof using.
  intros Hok Ha Hfee. destruct (decide (a = 0)) as [->|Hne].
  { exists (Ok (SwapResults.mk 0 0 0 (sqrt_price self) (liquidity self) (tick self) 3000)). split; [apply v4_swap_zero|].
    simpl. split_and!; try lia. exact Hok. }
  rewrite v4_swap_mirror by lia. rewrite Z.opp_involutive. unfold mirror_swap.
  destruct (swap_total (ticks self) (UniswapV4Fees.calculate_swap_fees_pips zfo lp_fee_override (fees self)) GAS
    (liquidity self =? 0) _ _ _ zfo a limit Hok Hfee Ha) as (r & -> & Hr).
  destruct r as [res|e|]; cbn [negated_run ends] in *; [|by eexists|done].
  eexists. split; [reflexivity|]. destruct Hr as [_ Hrem Hcomp _ Hrec Hst]. cbn [ends]. unfold negated. simpl.
  rewrite swrap_small by (unfold in_srange; lia). split_and!; try done; lia.
Qed.

(** The walk over the ticks ends and never unwinds. *)
Lemma walk_limits_total zfo self :
  v4_ok self -> exists r, walk_limits zfo self = Some r /\ ends swap_error limits_ok r.
Proof using.
  intros [Hticks Hl Ht]. unfold walk_limits. destruct (liquidity self =? 0); [eexists; split; [reflexivity|split; split; cbn; lia]|].
  set (s0 := Build_limit_state _ _ _ _ _ _).
  assert (limit_inv s0) as Hi.
  { pose proof (tick_agrees_price _ _ Ht). destruct Ht as [Ht _]. split; unfold s0, in_range; cbn; try lia. done. }
  assert (ticks_left zfo s0 < 2 ^ Z.of_nat SWAP_DOUBLINGS) as Hm.
  { destruct Ht as [Ht _], tick_constants. unfold ticks_left, s0. cbn [lm_tick]. change (2 ^ Z.of_nat SWAP_DOUBLINGS) with (2 ^ 21). destruct zfo; lia. }
  assert (forall s, limit_inv s ->
    match limits_step (ticks self) zfo s with
    | inl s' => limit_inv s' /\ 0 <= ticks_left zfo s' < ticks_left zfo s
    | inr r => ends swap_error limits_ok r
    end) as Hstep.
  { intros s Hs. pose proof (limit_step_spec (ticks self) zfo (Some MAX_TICKS_CROSSED) true Hticks s Hs) as H1.
    unfold limits_step. destruct (limit_step _ _ _ _ s) as [s'|r]; [|done]. destruct (lm_liquidity s' =? 0); [|done].
    destruct H1 as [[_ _ _ Hin Hout] _]. by split. }
  assert (forall s s', limit_inv s -> limits_step (ticks self) zfo s = inl s' -> limit_inv s' /\ 0 <= ticks_left zfo s' < ticks_left zfo s) as Hinl
    by (intros s s' Hs He; specialize (Hstep s Hs); by rewrite He in Hstep).
  destruct (iterate_terminates (limits_step (ticks self) zfo) limit_inv (ticks_left zfo) Hinl SWAP_DOUBLINGS s0 Hi Hm) as [r Hr].
  rewrite Hr. eexists. split; [reflexivity|].
  eapply (iterate_inr (limits_step (ticks self) zfo) limit_inv (ticks_left zfo) Hinl _ SWAP_DOUBLINGS); [|exact Hi|exact Hr].
  intros s r' Hs He. specialize (Hstep s Hs). by rewrite He in Hstep.
Qed.

Lemma specified_zero : get_specified_delta shr 0 = 0.
Proof using Hshr. unfold get_specified_delta. by rewrite (upper_eq _ Hshr). Qed.

(** The hook before the swap takes the specified part of its delta from the input. *)
Lemma before_amount ctx params a self before :
  run_before_swap shr ctx params self = Ok before -> SwapParams.amount_specified params = - a -> 0 < a < 2 ^ 254 ->
  bo_amount before = - a + get_specified_delta shr (bo_delta before) /\ - 2 ^ 255 < bo_amount before <= 0 /\
  (hook self = None -> bo_fee before = None /\ bo_delta before = 0).
Proof using Hshr.
  intros Hb Hp Ha. pose proof specified_zero as Hzero.
  assert (forall d, - 2 ^ 127 <= get_specified_delta shr d < 2 ^ 127) as Hr
    by (intros d; apply (swrap_range 128); lia).
  unfold run_before_swap in Hb. rewrite Hp in Hb. destruct (hook self) as [h|]; [destruct (has_permission _ _)|].
  - destruct (HookHandler.before_swap _ _ _ _) as [out|e|]; try done. cbn [map_err mbind result_bind] in Hb.
    unfold apply_before_swap in Hb. set (d := BeforeSwapOutput.amount_delta _) in *. specialize (Hr d).
    rewrite swrap_small in Hb by (unfold in_srange; lia).
    destruct (Z.eqb_spec d 0) as [Hd|Hd]; [|destruct (Z.ltb_spec 0 (- a + get_specified_delta shr d)); [done|]]; cbn [mbind result_bind] in Hb;
      (destruct (_ =? 0); [|destruct (negb _); [done|]]); cbn [mbind result_bind] in Hb; injection Hb as <-; cbn [bo_amount bo_delta bo_fee];
      (split_and!; [rewrite ?Hd, ?Hzero; lia|lia|lia|done]).
  - injection Hb as <-. cbn [bo_amount bo_delta bo_fee]. rewrite Hzero. split_and!; [lia..|done].
  - injection Hb as <-. cbn [bo_amount bo_delta bo_fee]. rewrite Hzero. split_and!; [lia..|done].
Qed.

(** The amount read from the packed deltas.  With an arithmetic shift the subtraction takes one
    more from the first amount when the hook takes a part of the second. *)
Definition borrowed (zfo : bool) (spec carry : Z) : Prop :=
  carry = 0 /\ (zfo = true \/ forall v, in_srange 256 v -> shr v 128 = logical_shr v 128) \/
  zfo = false /\ (forall v, in_srange 256 v -> shr v 128 = arithmetic_shr v 128) /\ - 2 ^ 127 < spec /\
    carry = if 0 <? spec then 1 else 0.

Lemma quoted_amount (zfo : bool) calc spec unspec carry :
  borrowed zfo spec carry ->
  0 <= - calc < 2 ^ 127 -> in_srange 128 spec -> in_srange 128 unspec -> - 2 ^ 127 < - calc - unspec - carry < 2 ^ 127 ->
  let delta := subtract_hook_delta shr true zfo spec unspec (from_swap_result calc zfo) in
  u256_of_abs (if Bool.eqb true zfo then amount1 delta else amount0 shr delta) = Ok (Z.abs (- calc - unspec - carry)).
Proof using Hshr.
  intros Hcarry Hc Hs Hu Hd delta. unfold delta, subtract_hook_delta, from_swap_result.
  assert (get_lower_i128 (swrap 256 (- calc)) = - calc) as ->
    by (unfold get_lower_i128; rewrite (swrap_small 256), (swrap_small 128) by (unfold in_srange; lia); done).
  assert (in_srange 128 0 /\ in_srange 128 (- calc)) as [Hz Hc'] by (unfold in_srange; lia).
  assert (forall v, v = - calc - unspec - carry -> u256_of_abs v = Ok (Z.abs (- calc - unspec - carry))) as Habs.
  { intros v ->. unfold u256_of_abs. rewrite swrap_small by (unfold in_srange; lia).
    destruct (Z.ltb_spec (Z.abs (- calc - unspec - carry)) 0); [lia|done]. }
  assert (spec = 0 -> carry = 0) as Hnone.
  { intros ->. destruct Hcarry as [[? _]|(_ & _ & _ & ?)]; done. }
  apply Habs. clear delta Habs.
  destruct zfo; cbn [Bool.eqb]; (destruct (negb (spec =? 0) || negb (unspec =? 0)) eqn:E;
    [|apply orb_false_iff in E as [E1%negb_false_iff%Z.eqb_eq E%negb_false_iff%Z.eqb_eq];
      subst unspec; rewrite (Hnone E1), !Z.sub_0_r]).
  - destruct Hcarry as [[-> _]|[? _]]; [|done]. rewrite Z.sub_0_r in *.
    rewrite (amount1_sub _ Hshr). rewrite (proj2 (delta_roundtrip _ Hshr _ _ Hz Hc')), (proj2 (delta_roundtrip _ Hshr _ _ Hs Hu)).
    apply swrap_small; [lia|]. unfold in_srange. lia.
  - apply (delta_roundtrip _ Hshr _ _ Hz Hc').
  - destruct Hcarry as [[-> [|Hlog]]|(_ & Harith & Hlow & ->)]; [done| |].
    + rewrite Z.sub_0_r in *. rewrite (amount0_sub_logical shr) by (done || apply delta_new_eq; done).
      rewrite (proj1 (delta_roundtrip _ Hshr _ _ Hc' Hz)), (proj1 (delta_roundtrip _ Hshr _ _ Hu Hs)).
      apply swrap_small; [lia|]. unfold in_srange. lia.
    + rewrite (amount0_sub_arithmetic shr) by (done || apply delta_new_eq; done).
      rewrite (amount1_sub _ Hshr), (proj2 (delta_roundtrip _ Hshr _ _ Hc' Hz)), (proj2 (delta_roundtrip _ Hshr _ _ Hu Hs)).
      rewrite (proj1 (delta_roundtrip _ Hshr _ _ Hc' Hz)), (proj1 (delta_roundtrip _ Hshr _ _ Hu Hs)).
      assert ((swrap 128 (0 - spec) <? 0) = (0 <? spec)) as ->.
      { rewrite swrap_small by (unfold in_srange in *; lia). lia. }
      apply swrap_small; [lia|]. unfold in_srange. lia.
  - apply (delta_roundtrip _ Hshr _ _ Hc' Hz).
Qed.

Lemma after_range ctx params before delta self unspec gas :
  run_after_swap ctx params before delta self = Ok (unspec, gas) -> in_srange 128 unspec.
Proof using.
  unfold run_after_swap. assert (forall v, in_srange 128 (swrap 128 v)) as Hr by (intros; apply swrap_range; lia).
  destruct (hook self); [destruct (has_permission _ _)|]; [destruct (HookHandler.after_swap _ _ _ _); try done|..];
    intros [= <- _]; apply Hr.
Qed.

(** C37. A swap of the v4 pool is a swap of the loop that the other pools share, with the signs of the
    amounts turned, at the combined fee of protocol and liquidity providers: for exact inputs and
    exact outputs, with every error.  An exact input on a pool whose tick and price agree
    therefore ends within the budget without unwinding, leaves tick and price in agreement, and
    spends at most the input.  A swap of nothing changes nothing, even without liquidity. *)
Theorem v4_swap_mirrors_clmm zfo amount limit lp_fee_override self (Hamount : - 2 ^ 255 < amount < 2 ^ 255) :
  swap zfo amount limit lp_fee_override self =
    (if amount =? 0
     then Some (Ok (SwapResults.mk 0 0 0 (sqrt_price self) (liquidity self) (tick self) 3000))
     else negated_run (mirror_swap zfo (- amount) limit lp_fee_override self)) /\
  (v4_ok self -> amount <= 0 -> 0 <= UniswapV4Fees.calculate_swap_fees_pips zfo lp_fee_override (fees self) < 1000000 ->
   exists r, swap zfo amount limit lp_fee_override self = Some r /\
     match r with
     | Ok res =>
         amount <= SwapResults.amount_remaining res <= 0 /\
         (SwapResults.amount_remaining res = 0 \/ SwapResults.sqrt_price res = limit_of zfo limit) /\
         v4_ok (UniswapV4State.after_swap self res)
     | Err e => refused (liquidity self =? 0) zfo (sqrt_price self) (limit_of zfo limit) e \/ swap_error e
     | Panic => False
     end).
Proof using.
  split.
  - destruct (Z.eqb_spec amount 0) as [->|Hne]; [done|]. by apply v4_swap_mirror.
  - intros Hok Ha Hfee. destruct (v4_swap_total zfo (- amount) limit lp_fee_override self Hok ltac:(lia) Hfee) as (r & Hr & He).
    rewrite Z.opp_involutive in Hr. exists r. split; [done|]. destruct r as [res|e|]; [|done|done].
    destruct He as (_ & Hrem & Hc & Hst). rewrite Z.opp_involutive in Hrem. done.
Qed.


End quotes.

(** * Examples *)

Module V4Examples.
Import UniswapV4State.

(** A hook with the delta it answers before a swap, for an amount, and after it. *)
Record test_hook := { th_address : Bytes; th_before : Z -> result SimulationError Z; th_after : Z }.

#[export] Instance test_handler : HookHandler.t test_hook := {|
  HookHandler.address := th_address;
  HookHandler.before_swap h p _ _ :=
    d ← th_before h (SwapParams.amount_specified (BeforeSwapParameters.swap_params p));
    Ok (WithGasEstimate.mk 1000 (BeforeSwapOutput.mk d 0 ∅ ∅));
  HookHandler.after_swap h _ _ _ := Ok (WithGasEstimate.mk 2000 (th_after h));
  HookHandler.get_amount_ranges _ _ _ := Err (RecoverableError "get_amount_ranges not implemented");
  HookHandler.delta_transition _ _ _ h := (Ok tt, h) |}.

Definition address (b : byte) : Bytes := repeat x00 19 ++ [b].
Definition tok (b : byte) : Token.t := Token.mk (address b) "T" 18 0 [] Ethereum 100.

Definition pool (h : option test_hook) : t test_hook :=
  mk 500 (price_of (-120)) (UniswapV4Fees.mk 0 0 3000) (-120) TickListExamples.sample 60 h.

Lemma v4_pool_ok h : v4_ok (pool h).
Proof. exact (proj1 ClmmExamples.at_edge_ok). Qed.

(** Takes 3 of the input and, in two parts, 2 of the output. *)
Definition taking : test_hook :=
  {| th_address := address xc0; th_before _ := Ok (BalanceDelta_new 3 1); th_after := 1 |}.

(** Exchanges amounts up to a bound one to one, with the liquidity in the hook. *)
Definition exchanging (bound : Z) : test_hook :=
  {| th_address := address x80;
     th_before a := if - a <=? bound then Ok (BalanceDelta_new (- a) a) else Err (FatalError "too much");
     th_after := 0 |}.

Definition empty_pool (bound : Z) : t test_hook :=
  mk 0 (price_of (-120)) (UniswapV4Fees.mk 0 0 3000) (-120) (TickList.mk 60 []) 60 (Some (exchanging bound)).

(** With the liquidity of the largest positions, at a low price. *)
Definition rich : result SimulationError (t test_hook) :=
  lower ← TickInfo.new (-600000) (2 ^ 126);
  upper ← TickInfo.new 600000 (- 2 ^ 126);
  new (2 ^ 126) (price_of (-400000)) (UniswapV4Fees.mk 0 0 3000) (-400000) 60 [lower; upper].
End V4Examples.

Import V4Examples.

Lemma v4_swap_mirrors_clmm_witness :
  exists r, UniswapV4State.swap false (-10) None None (pool None) = Some r /\
    match r with Ok res => SwapResults.amount_calculated res = -4 /\ v4_ok (UniswapV4State.after_swap (pool None) res) | _ => False end.
Proof.
  destruct (v4_swap_mirrors_clmm false (-10) None None (pool None) ltac:(lia)) as [_ H].
  destruct (H (v4_pool_ok None) ltac:(lia) ltac:(vm_compute; split; [discriminate|reflexivity])) as (r & Hr & Hres).
  exists r. split; [exact Hr|]. vm_compute in Hr. injection Hr as <-. split; [reflexivity|apply Hres].
Defined.


Lemma exchanging_total a :
  1 <= a <= 10 ^ 75 -> UniswapV4State.get_amount_out logical_shr a (tok x02) (tok x01) (empty_pool 40) <> Panic.
Proof.
  set (returns := fun n => match UniswapV4State.get_amount_out logical_shr n (tok x02) (tok x01) (empty_pool 40) with Panic => false | _ => true end).
  intros Ha. enough (returns a = true) as Hr by (intros E; unfold returns in Hr; by rewrite E in Hr).
  destruct (Z.leb_spec a 40).
  - assert (forallb (fun n => returns (Z.of_nat n)) (seq 1 40) = true) as Hall by (vm_compute; reflexivity).
    rewrite forallb_forall in Hall. rewrite <-(Z2Nat.id a) by lia. apply Hall, in_seq. lia.
  - unfold returns, UniswapV4State.get_amount_out, biguint_to_u256. replace (a <? 2 ^ 256) with true by lia. cbn [mbind result_bind].
    replace (a <=? 2 ^ 255) with true by lia. cbn [mbind result_bind ok_or].
    change (address_from_slice (Token.address (tok ?b))) with (Ok (E := SimulationError) (address b)). cbn [mbind result_bind].
    unfold UniswapV4State.run_before_swap. cbn [empty_pool UniswapV4State.hook].
    change (has_permission (HookHandler.address (exchanging 40)) BeforeSwap) with true. cbv iota.
    cbn [HookHandler.before_swap test_handler exchanging th_before BeforeSwapParameters.swap_params SwapParams.amount_specified].
    rewrite Z.opp_involutive. by replace (a <=? 40) with false by lia.
Qed.


(** When only an amount of one can be quoted, the search answers an output of zero for it. *)
Lemma search_forgets_first_quote :
  GetAmountOutResult.amount <$> UniswapV4State.get_amount_out logical_shr 1 (tok x02) (tok x01) (empty_pool 1) = Ok 1 /\
  UniswapV4State.find_max_amount logical_shr (tok x02) (tok x01) (empty_pool 1) = Some (Ok (1, 0)).
Proof. vm_compute. done. Qed.

(** With an arithmetic shift, as the comments of the source have it, a sale of token 1 to a pool
    whose hook takes a part of the input loses one unit of the output. *)
Lemma arithmetic_shift_loses_one :
  GetAmountOutResult.amount <$> UniswapV4State.get_amount_out logical_shr 20 (tok x02) (tok x01) (pool (Some taking)) = Ok 9 /\
  GetAmountOutResult.amount <$> UniswapV4State.get_amount_out arithmetic_shr 20 (tok x02) (tok x01) (pool (Some taking)) = Ok 8.
Proof. vm_compute. done. Qed.

(** An output of [2 ^ 127] or more is cut to 128 bits instead of being refused. *)
Lemma large_output_truncated :
  match rich with
  | Ok p =>
      (match UniswapV4State.swap false (- 10 ^ 30) None None p with
       | Some (Ok r) => SwapResults.amount_calculated r = -35059854043708139158167017302074530895455541447
       | _ => False
       end) /\
      GetAmountOutResult.amount <$> UniswapV4State.get_amount_out logical_shr (10 ^ 30) (tok x02) (tok x01) p =
      Ok 26343937201867646533097417780173252409
  | _ => False
  end.
Proof. vm_compute. done. Qed.

(** Fees of protocol and providers just below the whole amount to the whole, and a step that
    needs no input then divides by zero. *)
Lemma combined_fee_reaches_whole :
  UniswapV4Fees.calculate_swap_fees_pips true None (UniswapV4Fees.mk 999999 0 999999) = 1000000 /\
  UniswapV4State.swap true (-10) None (Some LpFee.MAX_LP_FEE) (pool None) = Some (Err (FatalError "Division by zero")).
Proof. vm_compute. done. Qed.
